(* ===== verification/_CoqProject ===== *)
-Q . S2P
Prelude.v
Tasks.v
RustStr.v
F64.v
F64Error.v
RoundRobin.v
Http.v
Errors.v
Breaker.v
BreakerInterleaving.v
BreakerTests.v
Gate.v
RateLimit.v
RateBound.v
RateInterleaving.v
Retry.v
Router.v
RouterInterleaving.v
Transport.v
BalancerInterleaving.v
TransportInterleaving.v
StatsReading.v
Outage.v
OutageInterleaving.v
BalancedInterleaving.v
BalancedSelection.v
Connection.v
Metrics.v
Service.v
ServiceInterleaving.v
Config.v
Protocol.v
Admin.v
Listener.v
Process.v
EndToEnd.v
BasicProxy.v
DocExamples.v
UnitTests.v
IntegrationTests.v
