(* ===== verification/Prelude.v ===== *)
(** * Rust Service Mesh: a verification development

    The program (src/src/) is the data plane of a service mesh: a proxy that
    accepts HTTP connections, chooses an upstream for each request, forwards it and
    answers, with an admin endpoint beside it, and a library of the protections such
    a proxy needs: circuit breakers, rate limits, retries, routing, load balancing,
    connection limits.

    ** The parts and how they interact

    The process (main.rs) loads a configuration (config.rs), binds a proxy listener
    (listener.rs) and an admin listener (admin_listener.rs), and runs both accept
    loops until a signal. A proxy connection is served by hyper with one
    ProxyService (service.rs) per connection, all sharing one round-robin counter;
    each request is recorded in the process-wide metrics (metrics.rs), which the
    admin service (admin.rs) prints. The other modules are a library that the
    process does not wire in: a Transport of clusters (transport.rs) whose load
    balancers ask the circuit breaker of each endpoint (circuit_breaker.rs), a
    RateLimiter (ratelimit.rs), a RetryExecutor (retry.rs), a Router (router.rs)
    and a ConnectionLimiter (connection.rs).

    ** Files, in dependency order

    - [Prelude]: results, panics, notations, tactics, step sequences, counting,
      machine words, time. Shared by every file.
    - [Tasks]: tasks interleaving over a shared state and a clock, for any object
      given by the positions inside its calls and what one access does: the step
      relation, schedules as functions, bounds on the accesses of a call. The
      interleaving files below instantiate it.
    - [RustStr]: the operations on strings, numbers and addresses that the code
      takes from the standard library, as executable functions.
    - [F64], [F64Error]: binary64 arithmetic on the Standard Library's SpecFloat,
      conversions with integers and durations, with exactness lemmas, and bounds on
      the rounding error of each operation.
    - [RoundRobin]: the atomic counter modulo a length; fairness and balance.
    - [Http]: the interface of header maps and methods (the http crate).
    - [Errors]: error.rs.
    - [Breaker]: circuit_breaker.rs. Module [CircuitBreaker] has the state as a
      record, one field per shared cell, and one definition per method;
      [BreakerSpec] is the abstract automaton (serving, tripped, probing) it
      refines.
    - [BreakerInterleaving]: the same methods split at every access of a shared
      cell ([access]), tasks as program counters.
    - [BreakerTests]: the module's unit tests and examples/circuit_breaker_demo.rs, as
      functions of the clock.
    - [Gate]: the class of what a load balancer needs of a breaker, with its laws
      up to an equivalence coarser than equality (the statistics do not count) and
      the class of gates that stay calm without failures; the circuit breaker is an
      instance of both.
    - [RateLimit]: ratelimit.rs. Modules [TokenBucket], [ClientEntry],
      [RateLimiter]; the concurrent hash map is a finite map.
    - [RateBound]: what a limiter admits over any period, rounding included.
    - [RateInterleaving]: a check split at its critical sections (the global bucket's
      lock, the shards of the map, an entry's locks), with the entries shared.
    - [Retry]: retry.rs. Modules [RetryPolicy] and [RetryExecutor].
    - [Router]: router.rs. The cache of compiled expressions is a threaded state.
    - [RouterInterleaving]: routing as a program over the shared cache, which runs in
      one go as [Router] has it, or interleaved with others at each access.
    - [Transport]: transport.rs, over any [Gate]. Shared endpoints live in a store
      and are named by index.
    - [BalancerInterleaving]: selections and reports split at their accesses of the
      endpoints and the counter; a call on a breaker is one access.
    - [TransportInterleaving]: clusters added and looked up while selections run: a
      heap of the shared balancers above, and the map from names to them.
    - [StatsReading]: the statistics of an endpoint read cell by cell while reports go on.
    - [Outage]: clients that use a breaker as its documentation does, directly or
      through a load balancer, with their requests overlapping; each call is one step.
    - [OutageInterleaving]: the same clients of a breaker with every call split.
    - [BalancedInterleaving]: the same clients of a load balancer with every call split,
      those on the endpoints' breakers too. [BalancedSelection]: what a selection
      of theirs returns, and when.
    - [Connection]: connection.rs, over a semaphore interface (tokio), as single
      steps and interleaved.
    - [Metrics], [Service], [Config], [Protocol], [Admin]: the modules of the same
      names; [Listener]: listener.rs, admin_listener.rs and what main.rs binds.
    - [ServiceInterleaving]: requests split at the shared counter, the exchange with
      the upstream and the shared metrics.
    - [Process]: main.rs as a state machine: the two accept loops as tasks, the
      select!, the shutdown channel, the joins, the exit status.
    - [EndToEnd]: the parts put together as [run] does: environment, listeners, requests
      of all connections, probes and scrapes.
    - [BasicProxy]: examples/basic_proxy.rs as a state machine.
    - [DocExamples]: the quick start of lib.rs and the examples in the documentation of
      the listener, the admin listener, the service and the admin service.
    - [UnitTests]: the unit tests of the other modules, as functions.
    - [IntegrationTests]: tests/integration_test.rs, over mock upstreams.

    ** What the theorems show

    - Circuit breaker: refinement of the abstract automaton for every history, with
      no overflow of its thresholds; the threshold, timeout and recovery behaviour; that the
      one-step methods are what the split methods do alone; that no interleaving
      loses a statistic, and without resets none can wedge a breaker; and four
      races: a reset overlapping a failure wedges the breaker, a late success closes a
      reopened one, one that had found the timeout past before the probe was even
      sent makes it half-open afterwards (these by schedules), and a request that asks in the
      middle of a failed probe leaves it half-open, for every configuration.
    - Outages: what a failing upstream receives over any stretch of time is within a
      budget: the failures that trip its breaker, and one request of each client per
      timeout; the same through a load balancer, for each endpoint, whatever the
      policy and whatever happens to the others. With calls split, the last two races
      let more through than that; a potential argument bounds it by the failures that
      trip the breaker, the clients, and the cube of their number per timeout. Clients
      of a load balancer with every call split refine, for each endpoint, those of
      its breaker alone (a simulation), so that the bound is each endpoint's.
    - Rate limiter: every bucket keeps a valid amount within its capacity; with a
      positive rate no check panics and a suggested wait is at most a second; with
      rate zero the limiter panics instead of refusing; exactly the burst passes at
      one instant, over all clients; over any period at most the burst and the rate
      times the elapsed time, plus a rounding term with its size, in every
      interleaving; after an idle period the burst is there again. A split check
      alone is the one-step check; interleaved checks end, and never panic in a
      release build; in a debug build a cleanup does when a client is added meanwhile,
      and a suggested wait can be a fraction of a nanosecond short. A trusted header lets
      the client name the bucket it is charged to.
    - Retry: termination with the number of calls, and delays: doubling exactly,
      within the maximum without jitter, above it with jitter.
    - Router: the answer is the first added of the best matching routes; adding and
      removing keep the router what building it from the list would give; the
      cache never changes an answer and holds only patterns of the routes, whatever
      requests interleave.
    - Load balancing: selections are sound, and complete when addresses are
      distinct; fairness; least connections; accounting of endpoints; independence
      of clusters; weights have no influence. Interleaved: a selection ends, returns
      an endpoint that has been healthy, and alone is the one-step selection; no
      report is lost; the cells stay well-formed; round robin keeps the shares of
      endpoints within one of each other. With the calls on breakers split as well,
      a selection still ends, within a number of accesses linear in the endpoints,
      never panics, and returns an endpoint it was given. Statistics read meanwhile
      are torn, within bounds. With clusters added meanwhile, each
      balancer goes through a run of its own (a refinement), so that all of this holds
      of every cluster; a replaced cluster lives on with the tasks that hold it, but
      its connections leave the statistics.
    - Connection limiter: the bound in every interleaving; exact admission.
    - Service, configuration, listeners, metrics, admin, protocol: the outcome of a
      request on every branch, validation with the order of its checks, what an accept loop does
      with what it is delivered, counters as counts, probes, negotiation.
      Interleaved: a request is answered within three accesses and recorded once,
      the counters are the numbers of recorded requests, the in-flight gauge never
      moves, upstreams take turns; alone, a split request is the one-step call.
    - Process: an orderly shutdown after exactly one message, on an interrupt, an error of
      the interrupt handler or a panic; bounded, and by steps of its own; each task
      runs the accept loop of its listener; connections in progress are abandoned.
      The example exits on one cause only and waits for nobody.
    - End to end: from any environment, probes answer 200, a scrape has the
      numbers of requests recorded so far, which with an upstream configured are those
      answered and without one are none, and reads no less than the scrapes before; requests
      are answered from the configured upstreams. The programs of the documentation
      bind and serve.
    - Tests: the model passes the repository's unit and integration tests, and the demonstration of
      the circuit breaker shows what it announces, for every clock that lets sleeps
      last what they should.

    ** Conventions

    - Integers are [Z] with the wrap-around of their type written out: [u64] and
      [usize] modulo 2^64 (a 64-bit target), [u32] modulo 2^32, as in a release
      build; atomics wrap in every build. Bounds are hypotheses ([is_u64], ...).
    - Floats are [spec_float] at precision 53, exponent 1024: the operations of
      IEEE binary64 with round to nearest even, no axioms. [powi], whose precision
      Rust leaves open, is an argument; the routine of compiler-rt is given for
      the exact statements.
    - [Instant] and [Duration] are nanosecond counts. A one-step call reads the clock
      once, as an argument [now]; a split call reads it at the access that does.
      Times may repeat or, where a statement says so, be any.
    - A panic is the outcome [Panics]; an error is [Err]. Both are values, so that
      "never panics" is part of the theorems.
    - What is not in the repository is a class or an argument: header maps, regular
      expressions, URL and URI parsing, the semaphore, the prometheus client,
      rustls, sockets, the HTTP client, the random generator, [to_lowercase]. The
      laws that are used are named in the classes, and each class has an instance
      at which the theorems that need laws are applied.
    - Recursion: loops over lists are structural. The retry loop has fuel; one more
      than the configured number of retries is enough, and the termination theorem
      says so. The square-and-multiply loop is structural on the exponent. A task
      that runs alone has fuel: ten critical sections and three per shard (and two to
      spare) for a check, three accesses per endpoint and six more for a selection,
      eight for a call on a breaker; the theorems about running alone say that the
      call has ended by then.
    - A logging call changes nothing and is left out.

    ** What is not modelled, and what comes next

    Deserialisation (serde, toml, json) is an interface, of which the model uses what
    comes out. The text format of metrics, the HTTP drivers, the asynchronous runtime
    and the logging set-up are third-party; of the metrics the model has the registry, the labels
    and what the encoder is given. Of the library root (lib.rs) the quick start is
    modelled; the rest declares modules and documents them. The benchmarks only
    measure time; in the integration tests the network takes no time of its own and
    never fails. HTTP/2 multiplexing is seen only as requests that interleave. Left:
    the totals of a transport's statistics, which add up endpoints read one after
    the other while requests go on, and connections as conversations of requests,
    whose order is the HTTP driver's. *)

From stdpp Require Import prelude.
From stdpp Require Import strings.
Open Scope Z_scope.

(** ** Results and panics *)

(** [Result<T, E>] of Rust. *)
Inductive result (A E : Type) : Type :=
| Ok (a : A)
| Err (e : E).
Arguments Ok {A E} a.
Arguments Err {A E} e.

(** A computation that may panic (an [unwrap] of an error, an index out of
    range, a rejected conversion): it returns a value or it unwinds. *)
Inductive outcome (A : Type) : Type :=
| Returns (a : A)
| Panics.
Arguments Returns {A} a.
Arguments Panics {A}.

Definition result_bind {A B E} (r : result A E) (f : A -> result B E) : result B E :=
  match r with Ok a => f a | Err e => Err e end.

Definition map_err {A E F} (f : E -> F) (r : result A E) : result A F :=
  match r with Ok a => Ok a | Err e => Err (f e) end.

Definition outcome_bind {A B} (o : outcome A) (f : A -> outcome B) : outcome B :=
  match o with Returns a => f a | Panics => Panics end.

Declare Scope mesh_scope.
Delimit Scope mesh_scope with mesh.
Notation "'let?' x := r 'in' k" := (result_bind r (fun x => k))
  (at level 10, x name, r at level 100, k at level 200) : mesh_scope.
Notation "'let!' p := o 'in' k" := (outcome_bind o (fun p => k))
  (at level 10, p strict pattern, o at level 100, k at level 200) : mesh_scope.

Definition is_ok {A E} (r : result A E) : bool :=
  match r with Ok _ => true | Err _ => false end.

Definition is_some {A} (o : option A) : bool :=
  match o with Some _ => true | None => false end.

(** [Option::or]: the first of two values. *)
Definition or_else {A} (o o' : option A) : option A :=
  match o with Some a => Some a | None => o' end.

(** ** The hint databases and tactics of the development *)

Create HintDb mesh.
Create Rewrite HintDb mesh.

(** Case analysis on every boolean or match the goal is stuck on. *)
Ltac split_match := repeat (case_match; simplify_eq/=).

(** Turn the boolean comparisons of the context into arithmetic facts. *)
Ltac reflect_bools :=
  repeat match goal with
  | H : (_ <=? _) = true |- _ => apply Z.leb_le in H
  | H : (_ <=? _) = false |- _ => apply Z.leb_gt in H
  | H : (_ <? _) = true |- _ => apply Z.ltb_lt in H
  | H : (_ <? _) = false |- _ => apply Z.ltb_ge in H
  | H : (_ =? _) = true |- _ => apply Z.eqb_eq in H
  | H : (_ =? _) = false |- _ => apply Z.eqb_neq in H
  | H : (_ && _) = true |- _ => apply andb_true_iff in H; destruct H
  | H : (_ || _) = false |- _ => apply orb_false_iff in H; destruct H
  end.

(** Close a goal whose context is arithmetically or structurally absurd. *)
Ltac absurd_case := exfalso; simpl in *; intuition (congruence || lia).

Ltac bools := reflect_bools; lia.

(** ** Sequences of steps *)

(** Reflexive transitive closure with labels, and invariants by rule
    induction: the shape every interleaving model of the development uses. *)
Section Reachability.
Context {S L : Type} (step : S -> L -> S -> Prop).

Inductive steps : S -> list L -> S -> Prop :=
| steps_nil s : steps s [] s
| steps_cons s l s' ls s'' : step s l s' -> steps s' ls s'' -> steps s (l :: ls) s''.

Lemma steps_app s ls s' ls' s'' :
  steps s ls s' -> steps s' ls' s'' -> steps s (ls ++ ls') s''.
Proof. induction 1; simpl; eauto using steps. Qed.

(** Induction on the last step, for assertions about the whole history. *)
Lemma steps_ind_last (P : list L -> S -> Prop) s0 :
  P [] s0 ->
  (forall ls s l s', steps s0 ls s -> P ls s -> step s l s' -> P (ls ++ [l]) s') ->
  forall ls s, steps s0 ls s -> P ls s.
Proof.
  intros H0 Hstep.
  assert (H : forall s ls' s', steps s ls' s' -> forall ls, steps s0 ls s -> P ls s -> P (ls ++ ls') s').
  { induction 1 as [s|s l s1 ls1 s2 Hl _ IH]; intros ls Hs HP; [by rewrite app_nil_r|].
    replace (ls ++ l :: ls1) with ((ls ++ [l]) ++ ls1) by by rewrite <-app_assoc.
    apply IH; [|by eapply Hstep]. eapply steps_app; [exact Hs|]. econstructor; [exact Hl|constructor]. }
  intros ls s Hs. apply (H s0 ls s Hs []); [constructor|done].
Qed.

(** An assertion that every step with an admissible label preserves holds
    after every admissible sequence. *)
Lemma steps_invariant (Q : L -> Prop) (I : S -> Prop) s ls s' :
  (forall s l s', Q l -> I s -> step s l s' -> I s') ->
  Forall Q ls -> I s -> steps s ls s' -> I s'.
Proof. intros Hpres HQ HI Hs. induction Hs; inversion HQ; subst; eauto. Qed.
End Reachability.

(** Machines whose steps are a function of the event: they can be run. *)
Section Machines.
Context {S L : Type} (fire : L -> S -> option S).

Definition fired (s : S) (e : L) (s' : S) : Prop := fire e s = Some s'.

Fixpoint fires (es : list L) (s : S) : option S :=
  match es with
  | [] => Some s
  | e :: es => match fire e s with Some s' => fires es s' | None => None end
  end.

Lemma fires_sound es s s' : fires es s = Some s' -> steps fired s es s'.
Proof.
  revert s. induction es as [|e es IH]; simpl; intros s H; [simplify_eq; constructor|].
  destruct (fire e s) eqn:E; [|done]. econstructor; [exact E|]. by apply IH.
Qed.
End Machines.

(** ** Counting in lists *)

Definition count_if {A} (f : A -> bool) (l : list A) : Z :=
  Z.of_nat (length (List.filter f l)).

Section CountIf.
Context {A : Type} (f : A -> bool).

Lemma count_if_cons x l : count_if f (x :: l) = Z.b2z (f x) + count_if f l.
Proof. unfold count_if; simpl. destruct (f x); simpl; lia. Qed.

Lemma count_if_app l l' : count_if f (l ++ l') = count_if f l + count_if f l'.
Proof. unfold count_if. rewrite List.filter_app, length_app. lia. Qed.

Lemma count_if_snoc l x : count_if f (l ++ [x]) = count_if f l + Z.b2z (f x).
Proof. by rewrite count_if_app, (count_if_cons x []), Z.add_0_r. Qed.

Lemma count_if_nonneg l : 0 <= count_if f l.
Proof. unfold count_if. lia. Qed.

Lemma count_if_le_length l : count_if f l <= Z.of_nat (length l).
Proof.
  induction l as [|x l IH]; [done|]. rewrite count_if_cons. simpl length.
  destruct (f x); simpl; lia.
Qed.

Lemma count_if_none l : (forall x, x ∈ l -> f x = false) -> count_if f l = 0.
Proof.
  induction l as [|x l IH]; intros H; [done|].
  rewrite count_if_cons, (H x), IH by set_solver. done.
Qed.

Lemma count_if_insert l i x y :
  l !! i = Some x ->
  count_if f (<[i := y]> l) = count_if f l - Z.b2z (f x) + Z.b2z (f y).
Proof.
  revert i. induction l as [|z l IH]; intros [|i] Hi; simplify_eq/=.
  - rewrite !count_if_cons. lia.
  - rewrite !count_if_cons, (IH i) by done. lia.
Qed.
End CountIf.

Lemma count_if_disjoint {A} (f g : A -> bool) l :
  (forall x, f x = true -> g x = false) -> count_if f l + count_if g l <= Z.of_nat (length l).
Proof.
  intros Hd. induction l as [|x l IH]; [done|]. rewrite !count_if_cons. simpl length. specialize (Hd x).
  destruct (f x), (g x); simpl; lia.
Qed.

Lemma count_if_cover {A} (f g h : A -> bool) l :
  (forall x, f x = true -> g x = true \/ h x = true) -> count_if f l <= count_if g l + count_if h l.
Proof.
  intros Hc. induction l as [|x l IH]; [done|]. rewrite !count_if_cons. specialize (Hc x).
  destruct (f x), (g x), (h x); simpl; intuition lia.
Qed.

(** Sums over a list, to count by kinds. *)
Definition sum_over {K} (f : K -> Z) (ks : list K) : Z := foldr (fun k n => f k + n) 0 ks.

Lemma sum_over_add {K} (f g : K -> Z) ks :
  sum_over (fun k => f k + g k) ks = sum_over f ks + sum_over g ks.
Proof. induction ks as [|k ks IH]; simpl; [done|]. rewrite IH. lia. Qed.

Lemma sum_over_ext {K} (f g : K -> Z) ks : (forall k, k ∈ ks -> f k = g k) -> sum_over f ks = sum_over g ks.
Proof. intros H. induction ks as [|k ks IH]; simpl; [done|]. rewrite (H k), IH by set_solver. done. Qed.

Lemma sum_over_zero {K} (f : K -> Z) ks : (forall k, k ∈ ks -> f k = 0) -> sum_over f ks = 0.
Proof. intros H. induction ks as [|k ks IH]; simpl; [done|]. rewrite (H k), IH by set_solver. done. Qed.

(** One of the kinds, and once. *)
Lemma sum_over_once {K} (f : K -> Z) ks k0 :
  NoDup ks -> k0 ∈ ks -> (forall k, k <> k0 -> f k = 0) -> sum_over f ks = f k0.
Proof.
  intros Hnd Hin Hf. induction Hnd as [|k ks Hk _ IH]; [by apply not_elem_of_nil in Hin|]. simpl.
  apply elem_of_cons in Hin as [<-|Hin].
  - rewrite (sum_over_zero f ks); [lia|]. intros k Hk'. apply Hf. by intros ->.
  - rewrite IH, Hf by (done || by intros ->). lia.
Qed.

(** When each element is of as many kinds as it is counted, the counts of the kinds add up. *)
Lemma count_if_kinds {A K} (f : A -> bool) (g : K -> A -> bool) ks l :
  (forall x, x ∈ l -> Z.b2z (f x) = sum_over (fun k => Z.b2z (g k x)) ks) ->
  count_if f l = sum_over (fun k => count_if (g k) l) ks.
Proof.
  intros H. induction l as [|x l IH]; [by rewrite sum_over_zero|].
  rewrite count_if_cons, (H x), IH by set_solver. rewrite <-sum_over_add.
  apply sum_over_ext. intros k _. by rewrite count_if_cons.
Qed.

(** ** Machine words *)

(** [u64] and [usize] (64-bit target) with wrap-around, [u32] likewise: the
    release profile of the crate has no overflow checks, and [fetch_add] and
    [fetch_sub] wrap in every profile. *)
Definition u64_modulus : Z := 2 ^ 64.
Definition u64_max : Z := u64_modulus - 1.
Definition wrap64 (x : Z) : Z := x mod u64_modulus.
Definition u64_add (a b : Z) : Z := wrap64 (a + b).
Definition u64_sub (a b : Z) : Z := wrap64 (a - b).
Definition is_u64 (x : Z) : Prop := 0 <= x <= u64_max.

Definition u32_modulus : Z := 2 ^ 32.
Definition u32_max : Z := u32_modulus - 1.
Definition u32_add (a b : Z) : Z := (a + b) mod u32_modulus.
Definition is_u32 (x : Z) : Prop := 0 <= x <= u32_max.

Ltac words :=
  unfold is_u64, is_u32, u64_add, u64_sub, u32_add, wrap64, u64_max, u32_max,
    u64_modulus, u32_modulus in *; lia.

Lemma wrap64_small x : is_u64 x -> wrap64 x = x.
Proof. intros ?. apply Z.mod_small. words. Qed.

Lemma wrap64_range x : is_u64 (wrap64 x).
Proof.
  unfold is_u64, wrap64, u64_max.
  pose proof (Z.mod_pos_bound x u64_modulus ltac:(done)). lia.
Qed.

Lemma u64_add_small a b : is_u64 (a + b) -> u64_add a b = a + b.
Proof. apply wrap64_small. Qed.

Lemma u64_add_range a b : is_u64 (u64_add a b).
Proof. apply wrap64_range. Qed.

Lemma u64_sub_range a b : is_u64 (u64_sub a b).
Proof. apply wrap64_range. Qed.

Lemma wrap64_add_l a b : wrap64 (wrap64 a + b) = wrap64 (a + b).
Proof. apply Zplus_mod_idemp_l. Qed.

Lemma wrap64_sub_l a b : wrap64 (wrap64 a - b) = wrap64 (a - b).
Proof. apply Zminus_mod_idemp_l. Qed.

Lemma u32_add_small a b : is_u32 (a + b) -> u32_add a b = a + b.
Proof. intros ?. apply Z.mod_small. words. Qed.

(** Replace every word addition that provably does not wrap by an addition. *)
Ltac words_small :=
  repeat match goal with
  | |- context [u64_add ?a ?b] => rewrite (u64_add_small a b) by words
  | H : context [u64_add ?a ?b] |- _ => rewrite (u64_add_small a b) in H by words
  | |- context [u32_add ?a ?b] => rewrite (u32_add_small a b) by words
  | H : context [u32_add ?a ?b] |- _ => rewrite (u32_add_small a b) in H by words
  end.

#[export] Hint Resolve wrap64_range u64_add_range u64_sub_range : mesh.
#[export] Hint Rewrite wrap64_small u64_add_small u32_add_small using words : mesh.

(** ** Time *)

(** [Instant] and [Duration] as nanosecond counts. [Instant::elapsed] and
    [duration_since] saturate at zero. *)
Definition Instant : Type := Z.
Definition Duration : Type := Z.

Definition nanos_per_sec : Z := 1000000000.
Definition nanos_per_milli : Z := 1000000.
Definition nanos_per_micro : Z := 1000.

Definition from_secs (s : Z) : Duration := s * nanos_per_sec.
Definition from_millis (ms : Z) : Duration := ms * nanos_per_milli.
Definition as_secs (d : Duration) : Z := d / nanos_per_sec.
Definition as_millis (d : Duration) : Z := d / nanos_per_milli.
Definition as_micros (d : Duration) : Z := d / nanos_per_micro.
Definition subsec_nanos (d : Duration) : Z := d mod nanos_per_sec.

(** The largest [Duration]: [u64::MAX] seconds and 999999999 nanoseconds. *)
Definition is_duration (d : Duration) : Prop := 0 <= d < u64_modulus * nanos_per_sec.

Definition duration_since (now earlier : Instant) : Duration := Z.max 0 (now - earlier).
Definition elapsed (now since : Instant) : Duration := duration_since now since.
