(* ===== verification/Tasks.v ===== *)
(** * Interleaved tasks

    The methods of the program's shared objects run concurrently. A model of such an
    object gives the positions of a task inside its calls and what one access does,
    from a position, to the task and to the shared state; this file has what they
    have in common: a system of tasks over a shared state and a clock, its steps, a
    function that runs schedules, and a bound on the accesses a call can make. *)

From stdpp Require Import prelude.
From S2P Require Import Prelude.

(** A new task starts a call, a task performs one access, or time passes. *)
Inductive event (Call : Type) : Type :=
| Spawn (m : Call)
| Run (i : nat)
| Tick (t : Instant).
Arguments Spawn {Call} m.
Arguments Run {Call} i.
Arguments Tick {Call} t.

(** The shared state, the clock, and the tasks. *)
Record system (Sh PC : Type) : Type := mkSystem {
  shared : Sh;
  clock : Instant;
  tasks : list PC
}.
Arguments mkSystem {Sh PC}.
Arguments shared {Sh PC}.
Arguments clock {Sh PC}.
Arguments tasks {Sh PC}.

Section Tasks.
Context {Sh PC Call : Type}.
Context (start : Call -> PC) (is_done : PC -> bool) (access : Instant -> PC -> Sh -> PC * Sh).
Implicit Types (s : system Sh PC) (e : event Call).

Inductive sys_step : system Sh PC -> event Call -> system Sh PC -> Prop :=
| step_spawn sh t ps m :
    sys_step (mkSystem sh t ps) (Spawn m) (mkSystem sh t (ps ++ [start m]))
| step_run sh t ps i p p' sh' :
    ps !! i = Some p -> is_done p = false -> access t p sh = (p', sh') ->
    sys_step (mkSystem sh t ps) (Run i) (mkSystem sh' t (<[i := p']> ps))
| step_tick sh t ps t' :
    t <= t' -> sys_step (mkSystem sh t ps) (Tick t') (mkSystem sh t' ps).

(** The same steps as a function, to evaluate schedules. *)
Definition fire (e : event Call) (s : system Sh PC) : option (system Sh PC) :=
  match e with
  | Spawn m => Some (mkSystem (shared s) (clock s) (tasks s ++ [start m]))
  | Run i =>
      match tasks s !! i with
      | Some p =>
          if is_done p then None
          else let '(p', sh') := access (clock s) p (shared s) in
               Some (mkSystem sh' (clock s) (<[i := p']> (tasks s)))
      | None => None
      end
  | Tick t => if clock s <=? t then Some (mkSystem (shared s) t (tasks s)) else None
  end.

Fixpoint schedule (es : list (event Call)) (s : system Sh PC) : option (system Sh PC) :=
  match es with
  | [] => Some s
  | e :: es => match fire e s with Some s' => schedule es s' | None => None end
  end.

Lemma fire_sound e s s' : fire e s = Some s' -> sys_step s e s'.
Proof.
  destruct s as [sh t ps], e; simpl; intros H; simplify_eq/=; split_match; reflect_bools; by econstructor.
Qed.

Lemma schedule_sound es s s' : schedule es s = Some s' -> steps sys_step s es s'.
Proof.
  revert s. induction es as [|e es IH]; simpl; intros s H; [simplify_eq; constructor|].
  case_match; [|done]. econstructor; [by apply fire_sound|]. by apply IH.
Qed.

(** A task running alone, for at most [fuel] accesses. *)
Fixpoint solo (fuel : nat) (now : Instant) (p : PC) (sh : Sh) : PC * Sh :=
  match fuel with
  | O => (p, sh)
  | S fuel =>
      if is_done p then (p, sh)
      else let '(p, sh) := access now p sh in solo fuel now p sh
  end.

Lemma solo_step n now p sh :
  is_done p = false -> solo (S n) now p sh = let '(p, sh) := access now p sh in solo n now p sh.
Proof. intros Hp. cbn [solo]. by rewrite Hp. Qed.

Lemma solo_done n now p sh : is_done p = true -> solo n now p sh = (p, sh).
Proof. intros Hp. destruct n; [done|]. cbn [solo]. by rewrite Hp. Qed.

(** No call is in flight. *)
Definition quiescent (s : system Sh PC) : Prop := Forall (fun p => is_done p = true) (tasks s).

Lemma clock_mono s es s' : steps sys_step s es s' -> clock s <= clock s'.
Proof.
  induction 1 as [|s e s1 es s2 Hstep _ IH]; [done|]. destruct Hstep; simpl in *; lia.
Qed.

(** Tasks are only added. *)
Lemma tasks_mono s es s' : steps sys_step s es s' -> (length (tasks s) <= length (tasks s'))%nat.
Proof.
  induction 1 as [|s e s1 es s2 Hstep _ IH]; [done|]. etransitivity; [|exact IH].
  destruct Hstep; simpl; [rewrite length_app; simpl|rewrite length_insert|]; lia.
Qed.

(** What every access of a task keeps is kept by the whole system. *)
Lemma position_kept (P : PC -> Prop) s es s' i p :
  (forall now p sh, is_done p = false -> P p -> P (access now p sh).1) ->
  steps sys_step s es s' -> tasks s !! i = Some p -> P p ->
  exists p', tasks s' !! i = Some p' /\ P p'.
Proof.
  intros Hk Hs. revert p. induction Hs as [s|s e s1 es s2 Hstep _ IH]; intros p Hp HP; [by exists p|].
  destruct Hstep as [sh t ps m|sh t ps j q q' sh' Hj Hd Hacc|sh t ps t' Ht]; simpl in *.
  - apply (IH p); [by apply lookup_app_l_Some|done].
  - destruct (decide (i = j)) as [->|Hne].
    + assert (q = p) as -> by congruence. apply (IH q').
      { rewrite list_lookup_insert_eq; [done|by eapply lookup_lt_Some]. }
      specialize (Hk t p sh Hd HP). by rewrite Hacc in Hk.
    + apply (IH p); [by rewrite list_lookup_insert_ne|done].
  - by apply (IH p).
Qed.

Lemma label_kept {L} (label : PC -> L) s es s' i p :
  (forall now p sh, label (access now p sh).1 = label p) ->
  steps sys_step s es s' -> tasks s !! i = Some p ->
  exists p', tasks s' !! i = Some p' /\ label p' = label p.
Proof.
  intros Hl Hs Hp. apply (position_kept (fun q => label q = label p) s es s' i p); [|done..].
  intros now q sh _ <-. apply Hl.
Qed.

(** A mark that tasks keep once they have it is on more and more tasks. *)
Lemma count_mono (f : PC -> bool) s es s' :
  (forall now p sh, is_done p = false -> f p = true -> f (access now p sh).1 = true) ->
  steps sys_step s es s' -> count_if f (tasks s) <= count_if f (tasks s').
Proof.
  intros Hf. induction 1 as [|s e s1 es s2 Hstep _ IH]; [done|]. etransitivity; [|exact IH].
  destruct Hstep as [sh t ps m|sh t ps i p p' sh' Hi Hd Hacc|sh t ps t' Ht]; simpl; [| |done].
  - rewrite count_if_snoc. destruct (f _); simpl; lia.
  - rewrite (count_if_insert _ _ _ _ _ Hi). specialize (Hf t p sh Hd). rewrite Hacc in Hf. simpl in Hf.
    destruct (f p); [rewrite Hf by done; lia|]. destruct (f p'); simpl; lia.
Qed.

(** *** How long a call can take *)

Definition is_run (i : nat) (e : event Call) : bool :=
  match e with Run j => bool_decide (i = j) | _ => false end.

(** [bound n p]: as long as the shared state satisfies [I], which the tasks keep, a
    task at [p] has at most [n] accesses before it. *)
Section Bounded.
Context (I : Sh -> Prop) (bound : nat -> PC -> Prop).
Context (bound_access : forall now p sh n, I sh -> bound n p -> is_done p = false ->
  I (access now p sh).2 /\ exists n', (n' < n)%nat /\ bound n' (access now p sh).1).
Context (bound_start : forall m, exists n, bound n (start m)).

Definition bounded (s : system Sh PC) : Prop :=
  I (shared s) /\ Forall (fun p => exists n, bound n p) (tasks s).

Lemma bounded_step s e s' : True -> bounded s -> sys_step s e s' -> bounded s'.
Proof.
  intros _ [HI Hall] Hstep.
  destruct Hstep as [sh t ps m|sh t ps i p p' sh' Hi Hd Hacc|sh t ps t' Ht]; simpl in *.
  - split; [done|]. apply Forall_app_2; [done|]. by constructor.
  - destruct (Forall_lookup_1 _ _ _ _ Hall Hi) as [n Hn].
    destruct (bound_access t p sh n HI Hn Hd) as [HI' (n' & _ & Hn')]. rewrite Hacc in *.
    split; [done|]. apply Forall_insert; [done|by exists n'].
  - done.
Qed.

Lemma bounded_steps s es s' : steps sys_step s es s' -> bounded s -> bounded s'.
Proof.
  intros Hs Hb. by eapply (steps_invariant sys_step (fun _ => True) bounded _ _ _ bounded_step);
    [apply Forall_true|..].
Qed.

(** Whatever the other tasks do, each access of a task brings its end closer. *)
Lemma accesses_bounded_by s es s' i p n :
  steps sys_step s es s' -> bounded s -> tasks s !! i = Some p -> bound n p ->
  exists p' n', tasks s' !! i = Some p' /\ bound n' p' /\
    count_if (is_run i) es + Z.of_nat n' <= Z.of_nat n.
Proof.
  intros Hs. revert p n. induction Hs as [s|s e s1 es s2 Hstep _ IH]; intros p n Hb Hp Hn.
  { exists p, n. split; [done|]. split; [done|]. unfold count_if; simpl. lia. }
  specialize (fun q m => IH q m (bounded_step _ _ _ Logic.I Hb Hstep)). rewrite count_if_cons.
  destruct Hstep as [sh t ps m|sh t ps j q q' sh' Hj Hd Hacc|sh t ps t' Ht]; simpl in *.
  - destruct (IH p n) as (p' & n' & Hp' & Hn' & Hle); [by apply lookup_app_l_Some|done|].
    exists p', n'. split_and!; try done; lia.
  - destruct (decide (i = j)) as [->|Hne].
    + assert (q = p) as -> by congruence. destruct (bound_access t p sh n (proj1 Hb) Hn Hd) as [_ (n1 & Hlt & Hn1)].
      rewrite Hacc in Hn1. simpl in Hn1.
      destruct (IH q' n1) as (p' & n' & Hp' & Hn' & Hle);
        [rewrite list_lookup_insert_eq; [done|by eapply lookup_lt_Some]|done|].
      exists p', n'. rewrite bool_decide_true by done. split_and!; (done || simpl; lia).
    + destruct (IH p n) as (p' & n' & Hp' & Hn' & Hle); [by rewrite list_lookup_insert_ne|done|].
      exists p', n'. rewrite bool_decide_false by done. split_and!; (done || simpl; lia).
  - destruct (IH p n) as (p' & n' & Hp' & Hn' & Hle); [done|done|]. exists p', n'. split_and!; try done; lia.
Qed.

End Bounded.

(** A measure of positions bounds the accesses. *)
Lemma accesses_bounded (measure : PC -> nat) s es s' i p :
  (forall now p sh, is_done p = false -> (measure (access now p sh).1 < measure p)%nat) ->
  steps sys_step s es s' -> tasks s !! i = Some p ->
  exists p', tasks s' !! i = Some p' /\
    count_if (is_run i) es + Z.of_nat (measure p') <= Z.of_nat (measure p).
Proof.
  intros Hm Hs Hp.
  destruct (accesses_bounded_by (fun _ => True) (fun n p => measure p = n)) with s es s' i p (measure p)
    as (p' & n' & Hp' & <- & Hle); try done.
  - intros now q sh n _ <- Hd. split; [done|]. eexists. split; [|done]. by apply Hm.
  - intros m. by eexists.
  - split; [done|]. apply Forall_true. intros q. by eexists.
  - by exists p'.
Qed.

End Tasks.

(** Let a task perform its next [n] accesses. *)
Definition runs {Call} (i n : nat) : list (event Call) := repeat (Run i) n.
