(* ===== verification/RustStr.v ===== *)
(** * Strings, numbers and addresses of the Rust standard library

    A [&str] is its UTF-8 bytes. The operations below are the ones the program
    calls: [starts_with], [contains], [replacen] with a limit of one, [split]
    on a character, [trim], integer parsing, and the address parsers of
    [std::net]. *)

From Stdlib Require Import Ascii String.
From stdpp Require Import prelude strings countable.
From S2P Require Import Prelude.
Open Scope string_scope.
Open Scope Z_scope.

(** ** Searching *)

(** [s.starts_with(p)] *)
Fixpoint starts_with (p s : string) : bool :=
  match p, s with
  | "", _ => true
  | String a p, String b s => Ascii.eqb a b && starts_with p s
  | String _ _, "" => false
  end.

(** [s.contains(needle)] *)
Fixpoint contains (needle s : string) : bool :=
  starts_with needle s || match s with "" => false | String _ s => contains needle s end.

Fixpoint drop_bytes (n : nat) (s : string) : string :=
  match n, s with
  | O, _ => s
  | S n, String _ s => drop_bytes n s
  | S _, "" => ""
  end.

(** [s.replacen(pat, to, 1)]: the first occurrence, from the left. *)
Fixpoint replace_first (pat to s : string) : string :=
  if starts_with pat s then String.append to (drop_bytes (String.length pat) s)
  else match s with "" => "" | String c s => String c (replace_first pat to s) end.

(** [s.split(c)]: never empty. *)
Fixpoint split_on (c : ascii) (s : string) : list string :=
  match s with
  | "" => [""]
  | String a s =>
      if Ascii.eqb a c then "" :: split_on c s
      else match split_on c s with
           | [] => [String a ""]
           | w :: ws => String a w :: ws
           end
  end.

Fixpoint reverse_onto (s acc : string) : string :=
  match s with "" => acc | String a s => reverse_onto s (String a acc) end.
Definition reverse (s : string) : string := reverse_onto s "".

Definition bytes_of (l : list nat) : string :=
  fold_right (fun n s => String (ascii_of_nat n) s) "" l.

(** The UTF-8 encodings of the [White_Space] characters. *)
Definition white_space : list string :=
  map (fun n => bytes_of [n]) [9; 10; 11; 12; 13; 32]%nat
  ++ map bytes_of [[194; 133]; [194; 160]; [225; 154; 128]]%nat
  ++ map (fun n => bytes_of [226; 128; n])%nat
       [128; 129; 130; 131; 132; 133; 134; 135; 136; 137; 138; 168; 169; 175]%nat
  ++ map bytes_of [[226; 129; 159]; [227; 128; 128]]%nat.

(** Remove characters of [ws] from the front; every removal shortens [s], so its
    length bounds the number of rounds. *)
Fixpoint strip_front (fuel : nat) (ws : list string) (s : string) : string :=
  match fuel with
  | O => s
  | S fuel =>
      match List.find (fun w => starts_with w s) ws with
      | Some w => strip_front fuel ws (drop_bytes (String.length w) s)
      | None => s
      end
  end.

Definition trim_start (s : string) : string := strip_front (String.length s) white_space s.
Definition trim_end (s : string) : string :=
  reverse (strip_front (String.length s) (map reverse white_space) (reverse s)).

(** [s.trim()] *)
Definition trim (s : string) : string := trim_end (trim_start s).

Definition is_empty (s : string) : bool := match s with "" => true | _ => false end.

Definition to_ascii_lower (a : ascii) : ascii :=
  let n := nat_of_ascii a in
  if ((65 <=? n) && (n <=? 90))%nat then ascii_of_nat (n + 32) else a.
Fixpoint ascii_lowercase (s : string) : string :=
  match s with "" => "" | String a s => String (to_ascii_lower a) (ascii_lowercase s) end.

Fixpoint is_ascii (s : string) : bool :=
  match s with "" => true | String a s => (nat_of_ascii a <? 128)%nat && is_ascii s end.

(** ** Numbers *)

(** [char::to_digit(radix)] for a radix of at most 16. *)
Definition digit_of (radix : Z) (a : ascii) : option Z :=
  let n := Z.of_nat (nat_of_ascii a) in
  let d := if (48 <=? n) && (n <=? 57) then n - 48
           else if (97 <=? n) && (n <=? 102) then n - 87
           else if (65 <=? n) && (n <=? 70) then n - 55
           else radix in
  if d <? radix then Some d else None.

(** The longest prefix of digits: its value, its length, and the rest. *)
Fixpoint read_digits (radix : Z) (acc : Z) (count : nat) (s : string) : Z * nat * string :=
  match s with
  | String a s' =>
      match digit_of radix a with
      | Some d => read_digits radix (acc * radix + d) (S count) s'
      | None => (acc, count, s)
      end
  | "" => (acc, count, s)
  end.

(** [str::parse] for an unsigned type with the given maximum. *)
Definition parse_unsigned (max : Z) (s : string) : option Z :=
  let s := match s with String "+" s => s | _ => s end in
  match read_digits 10 0 0 s with
  | (n, O, _) => None
  | (n, S _, rest) => if is_empty rest && (n <=? max) then Some n else None
  end.

Definition parse_u64 : string -> option Z := parse_unsigned u64_max.
Definition parse_usize : string -> option Z := parse_unsigned u64_max.

(** ** Addresses *)

Inductive IpAddr : Type :=
| V4 (octets : list Z)
| V6 (segments : list Z).

#[export] Instance IpAddr_eq_dec : EqDecision IpAddr.
Proof. solve_decision. Defined.

#[export] Instance IpAddr_countable : Countable IpAddr.
Proof.
  refine (inj_countable'
    (fun ip => match ip with V4 l => inl l | V6 l => inr l end)
    (fun x => match x with inl l => V4 l | inr l => V6 l end) _).
  by intros [].
Defined.

(** A parser returns what it read and the remaining input, or fails and leaves
    the input as it was ([read_atomically]). *)
Definition parser (A : Type) : Type := string -> option (A * string).

Definition read_char (c : ascii) : parser unit := fun s =>
  match s with
  | String a s' => if Ascii.eqb a c then Some (tt, s') else None
  | "" => None
  end.

(** [Parser::read_number] *)
Definition read_number (radix : Z) (max_digits : option nat) (allow_zero_prefix : bool) (max : Z)
    : parser Z := fun s =>
  let leading_zero := starts_with "0" s in
  let '(n, count, rest) := read_digits radix 0 0 s in
  if (match count with O => true | _ => false end)
     || match max_digits with Some k => (k <? count)%nat | None => false end
     || (negb allow_zero_prefix && leading_zero && (1 <? count)%nat)
     || (max <? n)
  then None else Some (n, rest).

(** [Parser::read_separator]: the separator precedes every element but the first. *)
Definition read_separator {A} (sep : ascii) (first : bool) (p : parser A) : parser A := fun s =>
  if first then p s
  else match read_char sep s with Some (_, s') => p s' | None => None end.

Fixpoint read_octets (n : nat) (first : bool) : parser (list Z) := fun s =>
  match n with
  | O => Some ([], s)
  | S n =>
      match read_separator "." first (read_number 10 (Some 3%nat) false 255) s with
      | Some (o, s') =>
          match read_octets n false s' with
          | Some (os, s'') => Some (o :: os, s'')
          | None => None
          end
      | None => None
      end
  end.

Definition read_ipv4 : parser (list Z) := read_octets 4 true.

(** [read_groups]: up to [n] more groups; whether an embedded IPv4 address ended
    them. *)
Fixpoint read_groups (n : nat) (first : bool) (s : string) : list Z * bool * string :=
  match n with
  | O => ([], false, s)
  | S n' =>
      match (if (1 <? n)%nat then read_separator ":" first read_ipv4 s else None) with
      | Some ([a; b; c; d], s') => ([a * 256 + b; c * 256 + d], true, s')
      | _ =>
          match read_separator ":" first (read_number 16 (Some 4%nat) true 65535) s with
          | Some (g, s') =>
              let '(gs, v4, s'') := read_groups n' false s' in (g :: gs, v4, s'')
          | None => ([], false, s)
          end
      end
  end.

Definition read_ipv6 : parser (list Z) := fun s =>
  let '(head, head_v4, s1) := read_groups 8 true s in
  if (length head =? 8)%nat then Some (head, s1)
  else if head_v4 then None
  else
    match read_char ":" s1 with
    | Some (_, s2) =>
        match read_char ":" s2 with
        | Some (_, s3) =>
            let '(tail, _, s4) := read_groups (8 - (length head + 1)) true s3 in
            Some (head ++ repeat 0 (8 - length head - length tail) ++ tail, s4)%list
        | None => None
        end
    | None => None
    end.

(** The whole input must be consumed. *)
Definition parse_with {A} (p : parser A) (s : string) : option A :=
  match p s with Some (a, "") => Some a | _ => None end.

Definition read_ip : parser IpAddr := fun s =>
  match read_ipv4 s with
  | Some (o, s') => Some (V4 o, s')
  | None => match read_ipv6 s with Some (g, s') => Some (V6 g, s') | None => None end
  end.

(** [IpAddr::from_str] *)
Definition parse_ip : string -> option IpAddr := parse_with read_ip.

Definition read_port : parser Z := fun s =>
  match read_char ":" s with
  | Some (_, s') => read_number 10 None true 65535 s'
  | None => None
  end.

Definition read_scope_id : parser Z := fun s =>
  match read_char "%" s with
  | Some (_, s') => read_number 10 None true u32_max s'
  | None => None
  end.

Definition read_socket_v4 : parser (IpAddr * Z) := fun s =>
  match read_ipv4 s with
  | Some (o, s1) => match read_port s1 with Some (p, s2) => Some ((V4 o, p), s2) | None => None end
  | None => None
  end.

Definition read_socket_v6 : parser (IpAddr * Z) := fun s =>
  match read_char "[" s with
  | Some (_, s1) =>
      match read_ipv6 s1 with
      | Some (g, s2) =>
          let s3 := match read_scope_id s2 with Some (_, s3) => s3 | None => s2 end in
          match read_char "]" s3 with
          | Some (_, s4) =>
              match read_port s4 with Some (p, s5) => Some ((V6 g, p), s5) | None => None end
          | None => None
          end
      | None => None
      end
  | None => None
  end.

(** [SocketAddr::from_str] *)
Definition parse_socket_addr (s : string) : option (IpAddr * Z) :=
  parse_with (fun s => match read_socket_v4 s with Some r => Some r | None => read_socket_v6 s end) s.

(** ** Examples and lemmas *)

Example parse_ip_v4 : parse_ip "192.168.1.1" = Some (V4 [192; 168; 1; 1]).
Proof. reflexivity. Qed.
Example parse_ip_leading_zero : parse_ip "01.2.3.4" = None.
Proof. reflexivity. Qed.
Example parse_ip_v6 : parse_ip "fe80::1:2" = Some (V6 [65152; 0; 0; 0; 0; 0; 1; 2]).
Proof. reflexivity. Qed.
Example parse_ip_mapped : parse_ip "::ffff:1.2.3.4" = Some (V6 [0; 0; 0; 0; 0; 65535; 258; 772]).
Proof. reflexivity. Qed.
Example parse_socket_v6_scope :
  parse_socket_addr "[::1%3]:80" = Some (V6 [0; 0; 0; 0; 0; 0; 0; 1], 80).
Proof. reflexivity. Qed.
Example trim_both : trim "  a b	 " = "a b".
Proof. reflexivity. Qed.
Example parse_u64_plus : parse_u64 "+18446744073709551615" = Some u64_max.
Proof. reflexivity. Qed.
Example parse_u64_overflow : parse_u64 "18446744073709551616" = None.
Proof. reflexivity. Qed.

Lemma starts_with_app p s : starts_with p s = true <-> exists r, s = String.append p r.
Proof.
  revert s. induction p as [|a p IH]; intros s; simpl.
  - split; [by exists s|done].
  - destruct s as [|b s]; [split; [done|by intros [? ?]]|].
    rewrite andb_true_iff, Ascii.eqb_eq, IH. split.
    + intros [-> [r ->]]. by exists r.
    + intros [r Hr]. change (String b s = String a (String.append p r)) in Hr.
      injection Hr as -> ->. eauto.
Qed.

Lemma drop_bytes_app p r : drop_bytes (String.length p) (String.append p r) = r.
Proof. induction p as [|a p IH]; [by destruct r|]. apply IH. Qed.

Lemma split_on_nonempty c s : split_on c s <> [].
Proof. destruct s as [|a s]; [done|]. simpl. repeat case_match; done. Qed.

Lemma split_on_head_append c v rest :
  head (split_on c (String.append v (String c rest))) = head (split_on c v).
Proof.
  induction v as [|a v IH]; simpl.
  { rewrite Ascii.eqb_refl. done. }
  destruct (Ascii.eqb a c); [done|].
  destruct (split_on c (String.append v (String c rest))), (split_on c v); simpl in *; congruence.
Qed.
