(* ===== verification/F64.v ===== *)
(** * Binary64 arithmetic

    The token buckets and the back-off delays of the program compute with
    [f64]. Rust's [f64] is IEEE 754 binary64 with round-to-nearest-even, which
    Corelib specifies bit for bit in [SpecFloat]; this file instantiates it,
    adds the conversions and comparisons the program uses, and proves the facts
    about rounding that its callers need: results are canonical, a rounded
    value does not pass a representable bound, and representable results are
    exact. *)

From Stdlib Require Import SpecFloat.
From stdpp Require Import prelude.
From S2P Require Import Prelude.

Abbreviation f64 := spec_float.
Abbreviation fexp64 := (fexp 53 1024).

Definition f64_add : f64 -> f64 -> f64 := SFadd 53 1024.
Definition f64_sub : f64 -> f64 -> f64 := SFsub 53 1024.
Definition f64_mul : f64 -> f64 -> f64 := SFmul 53 1024.
Definition f64_div : f64 -> f64 -> f64 := SFdiv 53 1024.

(** [a < b], [a <= b]: false when an operand is NaN. *)
Definition f64_ltb : f64 -> f64 -> bool := SFltb.
Definition f64_leb : f64 -> f64 -> bool := SFleb.

Definition is_nan (x : f64) : bool := match x with S754_nan => true | _ => false end.

(** [f64::min]: the other operand when one is NaN. *)
Definition f64_min (a b : f64) : f64 :=
  if is_nan a then b else if is_nan b then a else if f64_ltb b a then b else a.

(** [n as f64] for an integer [n]. *)
Definition of_Z (n : Z) : f64 := binary_normalize 53 1024 n 0 false.

(** [x as u64]: truncation, saturating, NaN to 0. *)
Definition to_u64 (x : f64) : Z :=
  match x with
  | S754_zero _ => 0
  | S754_infinity s => if s then 0 else u64_max
  | S754_nan => 0
  | S754_finite s m e => if s then 0 else Z.min u64_max (Z.shiftl (Zpos m) e)
  end.

(** [Duration::as_secs_f64]. *)
Definition as_secs_f64 (d : Duration) : f64 :=
  f64_add (of_Z (as_secs d)) (f64_div (of_Z (subsec_nanos d)) (of_Z nanos_per_sec)).

(** The integer nearest to [n * 2^e], ties to even. *)
Definition round_half_even (n e : Z) : Z :=
  if 0 <=? e then n * 2 ^ e
  else
    let q := n / 2 ^ (- e) in
    let r := n mod 2 ^ (- e) in
    match 2 * r ?= 2 ^ (- e) with
    | Lt => q
    | Eq => if Z.even q then q else q + 1
    | Gt => q + 1
    end.

(** [Duration::from_secs_f64]: the nearest number of nanoseconds; it panics on a
    negative, infinite or NaN argument and on one too large for a [Duration]. *)
Definition from_secs_f64 (x : f64) : outcome Duration :=
  match x with
  | S754_zero _ => Returns 0
  | S754_infinity _ | S754_nan => Panics
  | S754_finite s m e =>
      if s then Panics
      else
        let nanos := round_half_even (Zpos m * nanos_per_sec) e in
        if nanos <? u64_modulus * nanos_per_sec then Returns nanos else Panics
  end.

(** ** Digits and shifts *)

Lemma digits2_size p : digits2_pos p = Pos.size p.
Proof. induction p; simpl; congruence. Qed.

Lemma digits_log2 m : 0 < m -> Zdigits2 m = Z.log2 m + 1.
Proof.
  destruct m as [|p|p]; try lia. intros _. unfold Zdigits2. rewrite digits2_size.
  destruct p; simpl; lia.
Qed.

Lemma digits_nonneg m : 0 <= Zdigits2 m.
Proof. destruct m; simpl; lia. Qed.

(** [2^(digits-1) <= m < 2^digits]. *)
Lemma digits_bounds m : 0 < m -> 2 ^ (Zdigits2 m - 1) <= m < 2 ^ Zdigits2 m.
Proof.
  intros Hm. rewrite digits_log2 by done. pose proof (Z.log2_spec m Hm).
  replace (Z.log2 m + 1 - 1) with (Z.log2 m) by lia.
  by replace (Z.log2 m + 1) with (Z.succ (Z.log2 m)) by lia.
Qed.

Lemma digits_le m d : 0 <= m < 2 ^ d -> 0 <= d -> Zdigits2 m <= d.
Proof.
  intros Hm Hd. destruct (decide (m = 0)) as [->|]; [done|].
  rewrite digits_log2 by lia. assert (Z.log2 m < d) by (apply Z.log2_lt_pow2; lia). lia.
Qed.

Lemma digits_ge m d : 2 ^ (d - 1) <= m -> 0 < m -> d <= Zdigits2 m.
Proof.
  intros Hm Hpos. rewrite digits_log2 by done.
  destruct (decide (d <= 0)); [pose proof (Z.log2_nonneg m); lia|].
  assert (d - 1 <= Z.log2 m) by (apply Z.log2_le_pow2; lia). lia.
Qed.

Lemma digits_shift m k : 0 < m -> 0 <= k -> Zdigits2 (m * 2 ^ k) = Zdigits2 m + k.
Proof.
  intros Hm Hk. rewrite !digits_log2 by (try apply Z.mul_pos_pos; lia).
  rewrite Z.log2_mul_pow2 by lia. lia.
Qed.

Lemma fexp64_mono a b : a <= b -> fexp64 a <= fexp64 b.
Proof. unfold fexp, emin. lia. Qed.

Lemma fexp64_eq a : fexp64 a = Z.max (a - 53) (-1074).
Proof. reflexivity. Qed.

Lemma iter_pos_nat {A} (f : A -> A) p x : SpecFloat.iter_pos f p x = Nat.iter (Pos.to_nat p) f x.
Proof.
  revert x. induction p as [p IH|p IH|]; intros x; cbn [SpecFloat.iter_pos].
  - rewrite !IH, <-Nat.iter_add, <-Nat.iter_succ_r.
    by replace (Pos.to_nat p~1) with (S (Pos.to_nat p + Pos.to_nat p)) by lia.
  - rewrite !IH, <-Nat.iter_add.
    by replace (Pos.to_nat p~0) with (Pos.to_nat p + Pos.to_nat p)%nat by lia.
  - done.
Qed.

(** Whether digits were lost on the way to a shifted mantissa. *)
Definition sticky (r : shr_record) : bool := shr_r r || shr_s r.

Lemma shr_1_spec r :
  0 <= shr_m r ->
  shr_m (shr_1 r) = shr_m r / 2 /\ sticky (shr_1 r) = Z.odd (shr_m r) || sticky r.
Proof.
  destruct r as [[|[p|p|]|p] rr rs]; unfold sticky; simpl; intros H; try lia; try done.
  - rewrite (Z.div_unique_pos (Zpos p~1) 2 (Zpos p) 1) by lia. done.
  - rewrite (Z.div_unique_pos (Zpos p~0) 2 (Zpos p) 0) by lia. done.
Qed.

Lemma shr_iter_spec n r :
  0 <= shr_m r ->
  shr_m (Nat.iter n shr_1 r) = shr_m r / 2 ^ Z.of_nat n /\
  sticky (Nat.iter n shr_1 r) = negb (shr_m r mod 2 ^ Z.of_nat n =? 0) || sticky r.
Proof.
  intros Hr. induction n as [|n [IHm IHs]].
  - simpl. rewrite Z.div_1_r, Z.mod_1_r. done.
  - simpl Nat.iter. set (r' := Nat.iter n shr_1 r) in *.
    assert (0 <= shr_m r') by (rewrite IHm; apply Z.div_pos; lia).
    destruct (shr_1_spec r') as [Hm Hs]; [done|]. rewrite Hm, Hs, IHm, IHs.
    rewrite Nat2Z.inj_succ, Z.pow_succ_r, (Z.mul_comm 2) by lia.
    rewrite Z.div_div by lia. split; [done|].
    rewrite orb_assoc. f_equal.
    rewrite (Z.rem_mul_r (shr_m r) (2 ^ Z.of_nat n) 2), Zmod_odd by lia.
    pose proof (Z.mod_pos_bound (shr_m r) (2 ^ Z.of_nat n) ltac:(lia)).
    destruct (Z.odd (shr_m r / 2 ^ Z.of_nat n)); simpl.
    + symmetry. rewrite negb_true_iff, Z.eqb_neq. lia.
    + f_equal. apply eq_iff_eq_true. rewrite !Z.eqb_eq. lia.
Qed.

Lemma shr_spec r e k :
  0 <= shr_m r -> 0 <= k ->
  exists r', shr r e k = (r', e + k) /\ shr_m r' = shr_m r / 2 ^ k /\
    sticky r' = negb (shr_m r mod 2 ^ k =? 0) || sticky r.
Proof.
  intros Hr Hk. destruct k as [|p|p]; try lia.
  - exists r. simpl. rewrite Z.div_1_r, Z.mod_1_r, Z.add_0_r. done.
  - eexists. split; [reflexivity|]. rewrite iter_pos_nat, <-(positive_nat_Z p).
    by apply shr_iter_spec.
Qed.

(** ** Rounding *)

(** The float of mantissa [m <= 2^53] at exponent [e], renormalised. *)
Definition rounded (s : bool) (m e : Z) : f64 :=
  match m with
  | Z0 => S754_zero s
  | Zpos p =>
      if m =? 2 ^ 53 then
        if e + 1 <=? 971 then S754_finite s (2 ^ 52) (e + 1) else S754_infinity s
      else if e <=? 971 then S754_finite s p e else S754_infinity s
  | Zneg _ => S754_nan
  end.

Definition exact_loc (l : location) : bool := match l with loc_Exact => true | _ => false end.

Lemma loc_of_exact r : exact_loc (loc_of_shr_record r) = negb (sticky r).
Proof. by destruct r as [m [] []]. Qed.

Lemma record_of_loc m l :
  shr_m (shr_record_of_loc m l) = m /\ sticky (shr_record_of_loc m l) = negb (exact_loc l).
Proof. by destruct l as [|[]]. Qed.

Lemma round_nearest_cases m l :
  m <= round_nearest_even m l <= m + 1 /\
  (exact_loc l = true -> round_nearest_even m l = m).
Proof. destruct l as [|[]]; simpl; try case_match; split; (done || lia). Qed.

(** A mantissa that fits in 53 bits is already in its binade. *)
Lemma shr_fexp_fits m e :
  0 <= m < 2 ^ 53 -> -1074 <= e -> shr_fexp 53 1024 m e loc_Exact = (Build_shr_record m false false, e).
Proof.
  intros Hm He. unfold shr_fexp. simpl shr_record_of_loc.
  assert (Hd : Zdigits2 m <= 53) by (apply digits_le; lia).
  unfold shr. destruct (fexp64 (Zdigits2 m + e) - e) eqn:E; try done.
  exfalso. rewrite fexp64_eq in E. lia.
Qed.

Lemma binary_round_aux_tail s m e :
  0 <= m <= 2 ^ 53 -> -1074 <= e ->
  (let '(mrs, e') := shr_fexp 53 1024 m e loc_Exact in
   match shr_m mrs with
   | Z0 => S754_zero s
   | Zpos p => if Z.leb e' (1024 - 53) then S754_finite s p e' else S754_infinity s
   | _ => S754_nan
   end) = rounded s m e.
Proof.
  intros Hm He. destruct (decide (m = 2 ^ 53)) as [->|Hne].
  - unfold shr_fexp. replace (fexp64 (Zdigits2 (2 ^ 53) + e) - e) with 1; [done|].
    rewrite fexp64_eq. change (Zdigits2 (2 ^ 53)) with 54. lia.
  - rewrite shr_fexp_fits by lia. simpl shr_m. unfold rounded.
    destruct m; try done. rewrite (proj2 (Z.eqb_neq _ _)) by done. done.
Qed.

(** Rounding the exact value [M * 2^E] (or, when [l] is inexact, a value strictly
    between it and the next one) is shifting to the binade's exponent and adding
    at most one unit, none when no digit is lost. *)
Lemma binary_round_aux_spec s M E l :
  0 <= M -> E <= fexp64 (Zdigits2 M + E) ->
  let e := fexp64 (Zdigits2 M + E) in
  exists m, binary_round_aux 53 1024 s M E l = rounded s m e /\
    M / 2 ^ (e - E) <= m <= M / 2 ^ (e - E) + 1 /\ M / 2 ^ (e - E) < 2 ^ 53 /\
    (exact_loc l = true -> M mod 2 ^ (e - E) = 0 -> m = M / 2 ^ (e - E)).
Proof.
  intros HM HE e. set (k := e - E).
  assert (Hk : 0 <= k) by (subst k e; lia).
  assert (Hpow : 0 < 2 ^ k) by (apply Z.pow_pos_nonneg; lia).
  assert (Hsmall : M / 2 ^ k < 2 ^ 53).
  { apply Z.div_lt_upper_bound; [done|]. rewrite <-Z.pow_add_r by lia.
    destruct (decide (M = 0)) as [->|]; [apply Z.pow_pos_nonneg; lia|].
    apply Z.lt_le_trans with (2 ^ Zdigits2 M); [apply digits_bounds; lia|].
    apply Z.pow_le_mono_r; [lia|]. subst k e. rewrite fexp64_eq. lia. }
  destruct (record_of_loc M l) as [Hm Hs].
  destruct (shr_spec (shr_record_of_loc M l) E k) as (r & Hr & Hrm & Hrs); rewrite ?Hm; try done.
  rewrite Hm in Hrm, Hrs. rewrite Hs in Hrs.
  destruct (round_nearest_cases (shr_m r) (loc_of_shr_record r)) as [Hb Hx].
  rewrite Hrm in Hb. pose proof (Z.div_pos M (2 ^ k) HM Hpow).
  exists (round_nearest_even (shr_m r) (loc_of_shr_record r)).
  unfold binary_round_aux. unfold shr_fexp at 1. fold e k. rewrite Hr.
  replace (E + k) with e by (subst k; lia). rewrite <-(binary_round_aux_tail s).
  - rewrite Hrm. split_and!; try done; try lia.
    intros Hl Hz. rewrite <-Hrm. apply Hx. rewrite loc_of_exact, Hrs, Hl, Hz. done.
  - rewrite Hrm. lia.
  - subst e. rewrite fexp64_eq. lia.
Qed.

(** ** Canonical, non-negative floats *)

Definition valid (x : f64) : Prop := valid_binary 53 1024 x = true.

(** Zero of either sign, positive, or plus infinity. *)
Definition nonneg (x : f64) : Prop :=
  match x with
  | S754_zero _ | S754_infinity false | S754_finite false _ _ => True
  | _ => False
  end.

Definition finite (x : f64) : Prop :=
  match x with S754_zero _ | S754_finite _ _ _ => True | _ => False end.

Lemma valid_finite s m e :
  valid (S754_finite s m e) <-> fexp64 (Zdigits2 (Zpos m) + e) = e /\ e <= 971.
Proof.
  unfold valid, valid_binary, bounded, canonical_mantissa.
  rewrite andb_true_iff, Z.eqb_eq, Z.leb_le. done.
Qed.

Lemma valid_exponent s m e : valid (S754_finite s m e) -> -1074 <= e <= 971.
Proof. rewrite valid_finite, fexp64_eq. lia. Qed.

Lemma valid_mantissa s m e : valid (S754_finite s m e) -> 0 < Zpos m < 2 ^ 53.
Proof.
  rewrite valid_finite, fexp64_eq. intros [Hf _]. split; [lia|].
  apply Z.lt_le_trans with (2 ^ Zdigits2 (Zpos m)); [apply digits_bounds; lia|].
  apply Z.pow_le_mono_r; lia.
Qed.

(** Above the smallest exponent the leading digit is the 53rd. *)
Lemma valid_normal s m e : valid (S754_finite s m e) -> -1074 < e -> 2 ^ 52 <= Zpos m.
Proof.
  rewrite valid_finite, fexp64_eq. intros [Hf _] He.
  assert (Hd : Zdigits2 (Zpos m) = 53) by lia.
  pose proof (digits_bounds (Zpos m) ltac:(lia)) as Hb. rewrite Hd in Hb. lia.
Qed.

Lemma rounded_sign m e : 0 <= m -> nonneg (rounded false m e).
Proof. intros Hm. destruct m; try lia; cbn [rounded]; repeat case_match; done. Qed.

Lemma rounded_valid s m e :
  0 <= m <= 2 ^ 53 -> -1074 <= e -> (-1074 < e -> 2 ^ 52 <= m) -> valid (rounded s m e).
Proof.
  intros Hm He Hn. destruct m as [|p|p]; try done; cbn [rounded].
  destruct (Zpos p =? 2 ^ 53) eqn:E; [destruct (e + 1 <=? 971) eqn:E1|destruct (e <=? 971) eqn:E1];
    try done; reflect_bools; apply valid_finite; rewrite fexp64_eq.
  - change (Zdigits2 (Zpos (2 ^ 52))) with 53. lia.
  - assert (Zdigits2 (Zpos p) <= 53) by (apply digits_le; lia).
    destruct (decide (-1074 < e)); [|pose proof (digits_nonneg (Zpos p)); lia].
    assert (53 <= Zdigits2 (Zpos p)) by (apply digits_ge; simpl; lia). lia.
Qed.

Lemma binary_round_aux_valid s M E l :
  0 <= M -> E <= fexp64 (Zdigits2 M + E) ->
  valid (binary_round_aux 53 1024 s M E l).
Proof.
  intros HM HE. destruct (binary_round_aux_spec s M E l HM HE) as (m & -> & Hm & Hs & _).
  set (e := fexp64 (Zdigits2 M + E)) in *.
  assert (He : -1074 <= e) by (subst e; rewrite fexp64_eq; lia).
  assert (Hpow : 0 < 2 ^ (e - E)) by (apply Z.pow_pos_nonneg; lia).
  pose proof (Z.div_pos M (2 ^ (e - E)) HM Hpow).
  apply rounded_valid; [lia|done|]. intros He'.
  assert (Hk : e = Zdigits2 M + E - 53) by (subst e; rewrite fexp64_eq in *; lia).
  destruct (decide (M = 0)) as [->|]; [simpl in Hk; lia|].
  transitivity (M / 2 ^ (e - E)); [|lia].
  apply Z.div_le_lower_bound; [done|]. rewrite <-Z.pow_add_r by lia.
  replace (e - E + 52) with (Zdigits2 M - 1) by lia. apply digits_bounds. lia.
Qed.

Lemma binary_round_aux_nonneg M E l :
  0 <= M -> E <= fexp64 (Zdigits2 M + E) -> nonneg (binary_round_aux 53 1024 false M E l).
Proof.
  intros HM HE. destruct (binary_round_aux_spec false M E l HM HE) as (m & -> & Hm & _).
  apply rounded_sign. assert (Hpow : 0 < 2 ^ (fexp64 (Zdigits2 M + E) - E)) by (apply Z.pow_pos_nonneg; lia).
  pose proof (Z.div_pos M _ HM Hpow). lia.
Qed.

(** [shl_align] moves the exponent down to the target and keeps the value. *)
Lemma shl_align_spec m e e' :
  exists m', shl_align m e e' = (m', Z.min e e') /\ Zpos m' = Zpos m * 2 ^ (e - Z.min e e').
Proof.
  unfold shl_align. destruct (e' - e) as [|d|d] eqn:E.
  - exists m. rewrite Z.min_l by lia. by rewrite Z.sub_diag, Z.mul_1_r.
  - exists m. rewrite Z.min_l by lia. by rewrite Z.sub_diag, Z.mul_1_r.
  - eexists. rewrite Z.min_r by lia. split; [reflexivity|].
    replace (e - e') with (Zpos d) by lia.
    rewrite (Pos.iter_swap_gen _ _ Zpos xO (Z.mul 2)) by done.
    rewrite Z.mul_comm, <-Z.pow_pos_fold. unfold Z.pow_pos.
    rewrite (Pos.iter_swap_gen _ _ (fun z => z * Zpos m) (Z.mul 2) (Z.mul 2)) by (intros; lia).
    by rewrite Z.mul_1_l.
Qed.

(** [binary_round] rounds a mantissa at an exponent no larger than its binade's. *)
Lemma binary_round_eq s m e :
  let E := Z.min e (fexp64 (Zdigits2 (Zpos m) + e)) in
  let M := Zpos m * 2 ^ (e - E) in
  binary_round 53 1024 s m e = binary_round_aux 53 1024 s M E loc_Exact /\
  0 < M /\ fexp64 (Zdigits2 M + E) = fexp64 (Zdigits2 (Zpos m) + e) /\
  E <= fexp64 (Zdigits2 M + E).
Proof.
  intros E M. unfold binary_round.
  change (Zpos (digits2_pos m)) with (Zdigits2 (Zpos m)).
  destruct (shl_align_spec m e (fexp64 (Zdigits2 (Zpos m) + e))) as (m' & -> & Hm').
  fold E in Hm' |- *. fold M in Hm'. rewrite Hm'.
  assert (HM : 0 < M) by lia. split_and!; try done.
  - subst M. rewrite digits_shift by lia. f_equal. lia.
  - subst M. rewrite digits_shift by lia.
    replace (Zdigits2 (Zpos m) + (e - E) + E) with (Zdigits2 (Zpos m) + e) by lia. lia.
Qed.

Lemma binary_round_valid s m e : valid (binary_round 53 1024 s m e).
Proof.
  destruct (binary_round_eq s m e) as (-> & HM & _ & HE).
  apply binary_round_aux_valid; [lia|done].
Qed.

Lemma binary_normalize_valid M e : valid (binary_normalize 53 1024 M e false).
Proof. destruct M; simpl; [done|apply binary_round_valid|apply binary_round_valid]. Qed.

Lemma binary_normalize_nonneg M e : 0 <= M -> nonneg (binary_normalize 53 1024 M e false).
Proof.
  intros HM. destruct M as [|m|m]; [done| |lia]. unfold binary_normalize.
  destruct (binary_round_eq false m e) as (-> & ? & _ & HE).
  apply binary_round_aux_nonneg; [lia|done].
Qed.

Lemma of_Z_valid n : valid (of_Z n).
Proof. apply binary_normalize_valid. Qed.

Lemma of_Z_nonneg n : 0 <= n -> nonneg (of_Z n).
Proof. apply binary_normalize_nonneg. Qed.

(** ** Comparison is comparison of values *)

(** The value of a mantissa and exponent in units of [2^-1074]. *)
Definition units (m e : Z) : Z := m * 2 ^ (e + 1074).

Lemma units_lt_of_exponent s1 m1 e1 s2 m2 e2 :
  valid (S754_finite s1 m1 e1) -> valid (S754_finite s2 m2 e2) -> e1 < e2 ->
  units (Zpos m1) e1 < units (Zpos m2) e2.
Proof.
  intros H1 H2 He. pose proof (valid_mantissa _ _ _ H1). pose proof (valid_exponent _ _ _ H1).
  pose proof (valid_normal _ _ _ H2 ltac:(lia)). unfold units.
  apply Z.lt_le_trans with (2 ^ 53 * 2 ^ (e1 + 1074)).
  - apply Z.mul_lt_mono_pos_r; [apply Z.pow_pos_nonneg; lia|lia].
  - transitivity (2 ^ 52 * 2 ^ (e2 + 1074)).
    + rewrite <-!Z.pow_add_r by lia. apply Z.pow_le_mono_r; lia.
    + apply Z.mul_le_mono_nonneg_r; [apply Z.pow_nonneg; lia|done].
Qed.

Lemma compare_units m1 e1 m2 e2 :
  valid (S754_finite false m1 e1) -> valid (S754_finite false m2 e2) ->
  SFcompare (S754_finite false m1 e1) (S754_finite false m2 e2) =
  Some (units (Zpos m1) e1 ?= units (Zpos m2) e2).
Proof.
  intros H1 H2. unfold SFcompare. f_equal.
  destruct (Z.compare_spec e1 e2) as [->|He|He].
  - change (Pos.compare_cont Eq m1 m2) with (Zpos m1 ?= Zpos m2).
    pose proof (valid_exponent _ _ _ H2). unfold units.
    apply Zmult_compare_compat_r. apply Z.lt_gt, Z.pow_pos_nonneg; lia.
  - symmetry. apply Z.compare_lt_iff. by eapply units_lt_of_exponent.
  - symmetry. apply Z.compare_gt_iff. by eapply units_lt_of_exponent.
Qed.

Lemma leb_units m1 e1 m2 e2 :
  valid (S754_finite false m1 e1) -> valid (S754_finite false m2 e2) ->
  f64_leb (S754_finite false m1 e1) (S754_finite false m2 e2) = true <->
  units (Zpos m1) e1 <= units (Zpos m2) e2.
Proof.
  intros H1 H2. unfold f64_leb, SFleb. rewrite compare_units by done.
  destruct (Z.compare_spec (units (Zpos m1) e1) (units (Zpos m2) e2)); split; (done || lia).
Qed.

(** The value of a non-negative finite float. *)
Definition value (x : f64) : Z :=
  match x with S754_finite _ m e => units (Zpos m) e | _ => 0 end.

Lemma units_pos m e : -1074 <= e -> 0 < units (Zpos m) e.
Proof. intros He. apply Z.mul_pos_pos; [lia|apply Z.pow_pos_nonneg; lia]. Qed.

Lemma leb_value x y :
  valid x -> valid y -> nonneg x -> nonneg y -> finite x -> finite y ->
  f64_leb x y = true <-> value x <= value y.
Proof.
  intros Hx Hy Nx Ny Fx Fy.
  destruct x as [sx|?| |[] mx ex], y as [sy|?| |[] my ey]; simpl in Nx, Ny, Fx, Fy; try done.
  - pose proof (valid_exponent _ _ _ Hy). pose proof (units_pos my ey ltac:(lia)).
    simpl. split; (done || lia).
  - pose proof (valid_exponent _ _ _ Hx). pose proof (units_pos mx ex ltac:(lia)).
    simpl. split; (done || lia).
  - by apply leb_units.
Qed.

Lemma ltb_negb_leb x y :
  is_nan x = false -> is_nan y = false -> f64_ltb x y = negb (f64_leb y x).
Proof.
  unfold f64_ltb, f64_leb, SFltb, SFleb.
  destruct x as [sx|[]| |[] mx ex], y as [sy|[]| |[] my ey]; try done; intros _ _; simpl;
    rewrite (Z.compare_antisym ex ey); destruct (ex ?= ey) eqn:E; simpl; try done;
    change (Pos.compare_cont Eq my mx) with (Pos.compare my mx);
    change (Pos.compare_cont Eq mx my) with (Pos.compare mx my);
    rewrite (Pos.compare_antisym mx my); by destruct (Pos.compare mx my).
Qed.

Lemma nonneg_not_nan x : nonneg x -> is_nan x = false.
Proof. by destruct x. Qed.

Lemma leb_refl x : is_nan x = false -> f64_leb x x = true.
Proof.
  unfold f64_leb, SFleb. destruct x as [s|[]| |[] m e]; try done; simpl; intros _;
    rewrite Z.compare_refl;
    change (Pos.compare_cont Eq m m) with (Pos.compare m m); by rewrite Pos.compare_refl.
Qed.

(** ** Rounding does not pass a representable bound *)

Lemma value_rounded m e :
  0 <= m <= 2 ^ 53 -> e <= 971 -> (m = 2 ^ 53 -> e < 971) -> -1074 <= e ->
  finite (rounded false m e) /\ value (rounded false m e) = units m e.
Proof.
  intros Hm He He' He0. destruct m as [|p|p]; [done| |lia]. cbn [rounded].
  destruct (Zpos p =? 2 ^ 53) eqn:E; reflect_bools.
  - rewrite (proj2 (Z.leb_le _ _)) by lia. split; [done|]. unfold value, units. rewrite E.
    change (Zpos (2 ^ 52)) with (2 ^ 52).
    replace (e + 1 + 1074) with (1 + (e + 1074)) by lia.
    rewrite (Z.pow_add_r 2 1) by lia. change (2 ^ 53) with (2 ^ 52 * 2 ^ 1). lia.
  - rewrite (proj2 (Z.leb_le _ _)) by lia. done.
Qed.

Lemma binary_round_aux_upper M E l m e :
  0 <= M -> E <= fexp64 (Zdigits2 M + E) ->
  valid (S754_finite false m e) -> E <= e ->
  M + Z.b2z (negb (exact_loc l)) <= Zpos m * 2 ^ (e - E) ->
  let r := binary_round_aux 53 1024 false M E l in
  finite r /\ value r <= units (Zpos m) e.
Proof.
  intros HM HE Hv HEe Hle r. subst r.
  destruct (binary_round_aux_spec false M E l HM HE) as (m2 & -> & Hm2 & Hs & Hx).
  set (eR := fexp64 (Zdigits2 M + E)) in *.
  assert (HeR : eR <= e).
  { pose proof (valid_exponent _ _ _ Hv). destruct (decide (M = 0)) as [->|HM0].
    - subst eR. simpl in *. rewrite fexp64_eq in *. lia.
    - rewrite <-(proj1 (proj1 (valid_finite _ _ _) Hv)). apply fexp64_mono.
      assert (Zdigits2 M <= Zdigits2 (Zpos m) + (e - E)); [|lia].
      apply digits_le; [|pose proof (digits_nonneg (Zpos m)); lia]. split; [lia|].
      apply Z.le_lt_trans with (Zpos m * 2 ^ (e - E)); [destruct (exact_loc l); simpl in *; lia|].
      rewrite Z.pow_add_r by (try apply digits_nonneg; lia).
      apply Z.mul_lt_mono_pos_r; [apply Z.pow_pos_nonneg; lia|].
      apply digits_bounds. lia. }
  assert (Hpow : 0 < 2 ^ (eR - E)) by (apply Z.pow_pos_nonneg; lia).
  assert (He0 : -1074 <= eR) by (subst eR; rewrite fexp64_eq; lia).
  set (T := Zpos m * 2 ^ (e - eR)).
  assert (HT : Zpos m * 2 ^ (e - E) = T * 2 ^ (eR - E)).
  { subst T. rewrite <-Z.mul_assoc, <-Z.pow_add_r by lia. do 2 f_equal. lia. }
  rewrite HT in Hle. clearbody eR.
  assert (Hm2T : m2 <= T).
  { pose proof (Z.div_mod M (2 ^ (eR - E)) ltac:(lia)).
    pose proof (Z.mod_pos_bound M (2 ^ (eR - E)) Hpow).
    destruct (decide (M / 2 ^ (eR - E) < T)) as [|Hge]; [lia|].
    assert (M / 2 ^ (eR - E) <= T) by (apply Z.div_le_upper_bound; [done|];
      destruct (exact_loc l); simpl in Hle; lia).
    assert (HqT : M / 2 ^ (eR - E) = T) by lia. rewrite HqT in *.
    destruct (exact_loc l); simpl in Hle; [|lia]. rewrite Hx; [lia|done|lia]. }
  pose proof (valid_mantissa _ _ _ Hv). pose proof (valid_exponent _ _ _ Hv).
  pose proof (Z.div_pos M (2 ^ (eR - E)) HM Hpow).
  destruct (value_rounded m2 eR) as [Hf Hval]; try lia.
  - intros ->. destruct (decide (eR = e)) as [->|]; [|lia].
    subst T. rewrite Z.sub_diag in Hm2T. lia.
  - split; [done|]. rewrite Hval. unfold units.
    transitivity (T * 2 ^ (eR + 1074)).
    + apply Z.mul_le_mono_nonneg_r; [apply Z.pow_nonneg; lia|done].
    + subst T. rewrite <-Z.mul_assoc, <-Z.pow_add_r by lia.
      replace (e - eR + (eR + 1074)) with (e + 1074) by lia. done.
Qed.

Lemma binary_normalize_upper M E m e :
  0 <= M -> valid (S754_finite false m e) -> E <= e -> M <= Zpos m * 2 ^ (e - E) ->
  let r := binary_normalize 53 1024 M E false in
  finite r /\ value r <= units (Zpos m) e.
Proof.
  intros HM Hv HEe Hle. destruct M as [|p|p]; [|simpl|lia].
  - split; [done|]. pose proof (valid_exponent _ _ _ Hv). simpl.
    apply Z.lt_le_incl, units_pos. lia.
  - destruct (binary_round_eq false p E) as (-> & HM' & _ & HE').
    set (E' := Z.min E _) in *. apply binary_round_aux_upper; try done; try lia.
    simpl Z.b2z. rewrite Z.add_0_r.
    replace (e - E') with ((e - E) + (E - E')) by lia.
    rewrite Z.pow_add_r, Z.mul_assoc by lia.
    apply Z.mul_le_mono_nonneg_r; [apply Z.pow_nonneg; lia|done].
Qed.

(** ** Representable results are exact *)

Lemma binary_round_aux_exact s M E m e :
  valid (S754_finite s m e) -> E <= e -> M = Zpos m * 2 ^ (e - E) ->
  binary_round_aux 53 1024 s M E loc_Exact = S754_finite s m e.
Proof.
  intros Hv HE HM. assert (Hpow : 0 < 2 ^ (e - E)) by (apply Z.pow_pos_nonneg; lia).
  assert (Hd : fexp64 (Zdigits2 M + E) = e).
  { subst M. rewrite digits_shift by lia.
    replace (Zdigits2 (Zpos m) + (e - E) + E) with (Zdigits2 (Zpos m) + e) by lia.
    apply (proj1 (valid_finite _ _ _) Hv). }
  destruct (binary_round_aux_spec s M E loc_Exact) as (m2 & -> & _ & _ & Hx); [lia|lia|].
  rewrite Hd in *.
  rewrite Hx; [|done|subst M; by apply Z.mod_mul; lia]. subst M. rewrite Z.div_mul by lia.
  pose proof (valid_mantissa _ _ _ Hv). pose proof (valid_exponent _ _ _ Hv). cbn [rounded].
  rewrite (proj2 (Z.eqb_neq _ _)) by lia. by rewrite (proj2 (Z.leb_le _ _)) by lia.
Qed.

Lemma binary_round_exact s M E m e :
  valid (S754_finite s m e) -> -1074 <= E -> units (Zpos M) E = units (Zpos m) e ->
  binary_round 53 1024 s M E = S754_finite s m e.
Proof.
  intros Hv HE Hu. pose proof (valid_exponent _ _ _ Hv) as He. unfold units in Hu.
  assert (Hd : Zdigits2 (Zpos M) + E = Zdigits2 (Zpos m) + e).
  { pose proof (digits_shift (Zpos M) (E + 1074) ltac:(lia) ltac:(lia)) as H1.
    pose proof (digits_shift (Zpos m) (e + 1074) ltac:(lia) ltac:(lia)) as H2.
    rewrite Hu in H1. lia. }
  destruct (binary_round_eq s M E) as (-> & _ & _ & _).
  rewrite Hd, (proj1 (proj1 (valid_finite _ _ _) Hv)).
  apply binary_round_aux_exact; [done|lia|].
  apply (Z.mul_reg_r _ _ (2 ^ (Z.min E e + 1074))); [apply Z.pow_nonzero; lia|].
  rewrite <-!Z.mul_assoc, <-!Z.pow_add_r by lia.
  replace (E - Z.min E e + (Z.min E e + 1074)) with (E + 1074) by lia.
  by replace (e - Z.min E e + (Z.min E e + 1074)) with (e + 1074) by lia.
Qed.

(** ** Integers as floats *)

(** The unit of [units]: the value 1.0. *)
Definition one_unit : Z := 2 ^ 1074.

Lemma of_Z_pos n :
  0 < n <= 2 ^ 53 ->
  exists m e, of_Z n = S754_finite false m e /\ valid (S754_finite false m e) /\
    -52 <= e <= 1 /\ units (Zpos m) e = n * one_unit.
Proof.
  intros Hn. destruct (decide (n = 2 ^ 53)) as [->|Hne].
  { by exists (2 ^ 52)%positive, 1. }
  set (d := Zdigits2 n).
  assert (Hd : 1 <= d <= 53).
  { subst d. split; [apply digits_ge; simpl; lia|apply digits_le; lia]. }
  assert (Hpos : 0 < n * 2 ^ (53 - d)) by (apply Z.mul_pos_pos; [lia|apply Z.pow_pos_nonneg; lia]).
  destruct (n * 2 ^ (53 - d)) as [|m|m] eqn:Em; try lia.
  assert (Hv : valid (S754_finite false m (d - 53))).
  { apply valid_finite. rewrite <-Em, digits_shift by lia. fold d. rewrite fexp64_eq. lia. }
  assert (Hu : units (Zpos m) (d - 53) = n * one_unit).
  { unfold units, one_unit. rewrite <-Em, <-Z.mul_assoc, <-Z.pow_add_r by lia. do 2 f_equal. lia. }
  exists m, (d - 53). split_and!; try done; try lia.
  unfold of_Z. destruct n as [|p|p]; try lia. simpl.
  apply binary_round_exact; [done|lia|]. rewrite Hu. unfold units, one_unit. do 2 f_equal.
Qed.

Lemma of_Z_value n :
  0 <= n <= 2 ^ 53 -> finite (of_Z n) /\ value (of_Z n) = n * one_unit.
Proof.
  intros Hn. destruct (decide (n = 0)) as [->|]; [done|].
  destruct (of_Z_pos n) as (m & e & -> & _ & _ & Hu); [lia|]. done.
Qed.

(** Any 64-bit integer converts to a finite float. *)
Lemma of_Z_finite n : 0 <= n <= u64_modulus -> finite (of_Z n).
Proof.
  intros Hn. apply (binary_normalize_upper n 0 (2 ^ 52) 12); [lia|done|lia|].
  change (Zpos (2 ^ 52) * 2 ^ (12 - 0)) with u64_modulus. lia.
Qed.

Lemma of_Z_leb a b : 0 <= a <= 2 ^ 53 -> 0 <= b <= 2 ^ 53 ->
  f64_leb (of_Z a) (of_Z b) = (a <=? b).
Proof.
  intros Ha Hb. destruct (of_Z_value a Ha) as [Fa Va], (of_Z_value b Hb) as [Fb Vb].
  apply eq_iff_eq_true. rewrite Z.leb_le.
  rewrite leb_value; auto using of_Z_valid.
  - rewrite Va, Vb. assert (0 < one_unit) by done. nia.
  - apply of_Z_nonneg; lia.
  - apply of_Z_nonneg; lia.
Qed.

(** Positive floats of equal value are equal. *)
Lemma value_inj s m1 e1 m2 e2 :
  valid (S754_finite s m1 e1) -> valid (S754_finite s m2 e2) ->
  units (Zpos m1) e1 = units (Zpos m2) e2 -> m1 = m2 /\ e1 = e2.
Proof.
  intros H1 H2 Hu.
  destruct (Z.lt_trichotomy e1 e2) as [He|[->|He]].
  - pose proof (units_lt_of_exponent _ _ _ _ _ _ H1 H2 He). lia.
  - split; [|done]. unfold units in Hu. pose proof (valid_exponent _ _ _ H2).
    apply Z.mul_reg_r in Hu; [congruence|apply Z.pow_nonzero; lia].
  - pose proof (units_lt_of_exponent _ _ _ _ _ _ H2 H1 He). lia.
Qed.

(** ** The operations on non-negative floats *)

Lemma f64_add_nonneg x y :
  valid x -> valid y -> nonneg x -> nonneg y -> valid (f64_add x y) /\ nonneg (f64_add x y).
Proof.
  intros Vx Vy Nx Ny. unfold f64_add, SFadd.
  destruct x as [[]|[]| |[] mx ex], y as [[]|[]| |[] my ey]; try done.
  destruct (shl_align_spec mx ex (Z.min ex ey)) as (m1 & -> & _),
    (shl_align_spec my ey (Z.min ex ey)) as (m2 & -> & _). simpl fst. unfold cond_Zopp.
  split; [apply binary_normalize_valid|apply binary_normalize_nonneg; lia].
Qed.

(** The mantissa of a product is long enough to be rounded. *)
Lemma mul_exponent s1 mx ex s2 my ey :
  valid (S754_finite s1 mx ex) -> valid (S754_finite s2 my ey) ->
  ex + ey <= fexp64 (Zdigits2 (Zpos (mx * my)) + (ex + ey)).
Proof.
  intros Hx Hy. rewrite fexp64_eq.
  pose proof (valid_exponent _ _ _ Hx). pose proof (valid_exponent _ _ _ Hy).
  destruct (decide (-1074 < ex)) as [Ex|Ex]; [|destruct (decide (-1074 < ey)) as [Ey|Ey]]; try lia.
  - pose proof (valid_normal _ _ _ Hx Ex).
    assert (53 <= Zdigits2 (Zpos (mx * my))) by (apply digits_ge; simpl in *; lia). lia.
  - pose proof (valid_normal _ _ _ Hy Ey).
    assert (53 <= Zdigits2 (Zpos (mx * my))) by (apply digits_ge; simpl in *; lia). lia.
Qed.

Lemma f64_mul_nonneg x y :
  valid x -> valid y -> nonneg x -> nonneg y ->
  valid (f64_mul x y) /\ (nonneg (f64_mul x y) \/ is_nan (f64_mul x y) = true).
Proof.
  intros Vx Vy Nx Ny. unfold f64_mul, SFmul.
  destruct x as [[]|[]| |[] mx ex], y as [[]|[]| |[] my ey]; try (split; [done|first [by left | by right]]).
  pose proof (mul_exponent _ _ _ _ _ _ Vx Vy).
  split; [by apply binary_round_aux_valid|]. left. by apply binary_round_aux_nonneg.
Qed.

(** The quotient the division core hands to the rounding. *)
Lemma div_core_spec mx ex my ey :
  let '(q, e', l) := SFdiv_core_binary 53 1024 (Zpos mx) ex (Zpos my) ey in
  0 <= q /\ e' <= fexp64 (Zdigits2 q + e') /\ e' <= ex - ey /\
  e' <= fexp64 (Zdigits2 (Zpos mx) + ex - (Zdigits2 (Zpos my) + ey)) /\
  q = (Zpos mx * 2 ^ (ex - ey - e')) / Zpos my /\
  (exact_loc l = true -> (Zpos mx * 2 ^ (ex - ey - e')) mod Zpos my = 0) /\
  (exact_loc l = false -> (Zpos mx * 2 ^ (ex - ey - e')) mod Zpos my <> 0).
Proof.
  unfold SFdiv_core_binary.
  set (e' := Z.min _ (ex - ey)). set (s := ex - ey - e').
  assert (Hs : 0 <= s) by (subst s e'; lia).
  assert (Hm : (match s with Zpos _ => Z.shiftl (Zpos mx) s | Z0 => Zpos mx | Zneg _ => 0 end)
               = Zpos mx * 2 ^ s).
  { destruct s as [|p|p]; [by rewrite Z.mul_1_r|by apply Z.shiftl_mul_pow2|lia]. }
  rewrite Hm. set (N := Zpos mx * 2 ^ s).
  assert (Hpow : 0 < 2 ^ s) by (apply Z.pow_pos_nonneg; lia).
  assert (HN : 0 < N) by (subst N; lia).
  pose proof (Z.div_mod N (Zpos my) ltac:(lia)) as Hdm.
  pose proof (Z.mod_pos_bound N (Zpos my) ltac:(lia)) as Hmb.
  assert (Hq : 0 <= N / Zpos my) by (apply Z.div_pos; lia).
  destruct (Z.div_eucl N (Zpos my)) as [q r] eqn:E.
  assert (Eq : q = N / Zpos my) by (unfold Z.div; by rewrite E).
  assert (Er : r = N mod Zpos my) by (unfold Z.modulo; by rewrite E).
  rewrite Eq, Er. split_and!; try done.
  - apply Z.le_trans with (fexp64 (Zdigits2 (Zpos mx) + ex - (Zdigits2 (Zpos my) + ey)));
      [subst e'; lia|]. apply fexp64_mono.
    assert (Zdigits2 (Zpos mx) + s - Zdigits2 (Zpos my) <= Zdigits2 (N / Zpos my)); [|lia].
    destruct (decide (Zdigits2 (Zpos mx) + s - Zdigits2 (Zpos my) <= 0)) as [|Hgt];
      [pose proof (digits_nonneg (N / Zpos my)); lia|].
    assert (Hle : 2 ^ (Zdigits2 (Zpos mx) + s - Zdigits2 (Zpos my) - 1) <= N / Zpos my).
    { apply Z.div_le_lower_bound; [lia|].
      pose proof (digits_bounds (Zpos mx) ltac:(lia)). pose proof (digits_bounds (Zpos my) ltac:(lia)).
      transitivity (2 ^ Zdigits2 (Zpos my) * 2 ^ (Zdigits2 (Zpos mx) + s - Zdigits2 (Zpos my) - 1)).
      - apply Z.mul_le_mono_nonneg_r; [apply Z.pow_nonneg; lia|lia].
      - rewrite <-Z.pow_add_r by (try apply digits_nonneg; lia).
        replace (Zdigits2 (Zpos my) + (Zdigits2 (Zpos mx) + s - Zdigits2 (Zpos my) - 1))
          with (Zdigits2 (Zpos mx) - 1 + s) by lia.
        subst N. rewrite Z.pow_add_r by (simpl Zdigits2; lia).
        apply Z.mul_le_mono_nonneg_r; lia. }
    apply digits_ge; [done|]. eapply Z.lt_le_trans; [|exact Hle]. apply Z.pow_pos_nonneg; lia.
  - subst e'. lia.
  - subst e'. lia.
  - unfold new_location, new_location_even, new_location_odd.
    destruct (Z.even _), (Z.eqb_spec (N mod Zpos my) 0); done.
  - unfold new_location, new_location_even, new_location_odd.
    destruct (Z.even _), (Z.eqb_spec (N mod Zpos my) 0); done.
Qed.

Lemma f64_div_nonneg x my ey :
  valid x -> nonneg x -> finite x ->
  valid (f64_div x (S754_finite false my ey)) /\ nonneg (f64_div x (S754_finite false my ey)).
Proof.
  intros Vx Nx Fx. unfold f64_div, SFdiv. destruct x as [[]|?| |[] mx ex]; try done.
  pose proof (div_core_spec mx ex my ey) as H.
  destruct (SFdiv_core_binary _ _ _ _ _ _) as [[q e'] l]. destruct H as (Hq & He & _).
  split; [by apply binary_round_aux_valid|by apply binary_round_aux_nonneg].
Qed.

(** A float that is canonical, non-negative and finite: what a bucket holds. *)
Definition amount (x : f64) : Prop := valid x /\ nonneg x /\ finite x.

Lemma amount_not_nan x : amount x -> is_nan x = false.
Proof. intros (_ & H & _). by apply nonneg_not_nan. Qed.

Lemma amount_leb x y : amount x -> amount y -> f64_leb x y = true <-> value x <= value y.
Proof. intros (? & ? & ?) (? & ? & ?). by apply leb_value. Qed.

Lemma of_Z_amount n : 0 <= n <= u64_modulus -> amount (of_Z n).
Proof. intros Hn. split_and!; [apply of_Z_valid|apply of_Z_nonneg; lia|by apply of_Z_finite]. Qed.

Lemma f64_min_amount x cap :
  valid x -> nonneg x \/ is_nan x = true -> amount cap ->
  amount (f64_min x cap) /\ f64_leb (f64_min x cap) cap = true.
Proof.
  intros Vx Nx Hcap. pose proof (amount_not_nan _ Hcap) as Ncap. unfold f64_min.
  destruct (is_nan x) eqn:Ex; [by split; [|apply leb_refl]|]. destruct Nx as [Nx|]; [|done].
  rewrite Ncap, ltb_negb_leb by done.
  destruct (f64_leb x cap) eqn:El; simpl; [|by split; [|apply leb_refl]].
  split; [|done]. split_and!; try done. destruct Hcap as (_ & Nc & Fc).
  destruct x as [|[]| |]; try done. by destruct cap as [|[]| |[]].
Qed.

(** Subtraction of a smaller amount: the result is an amount, no larger. *)
Lemma f64_sub_amount x y :
  amount x -> amount y -> value y <= value x ->
  amount (f64_sub x y) /\ value (f64_sub x y) <= value x.
Proof.
  intros (Vx & Nx & Fx) (Vy & Ny & Fy) Hle. unfold f64_sub, SFsub, amount.
  destruct x as [sx|?| |[] mx ex], y as [sy|?| |[] my ey]; simpl in Nx, Ny, Fx, Fy; try done.
  - by destruct sx, sy.
  - exfalso. pose proof (valid_exponent _ _ _ Vy). pose proof (units_pos my ey ltac:(lia)).
    simpl in Hle. lia.
  - pose proof (valid_exponent _ _ _ Vx). pose proof (valid_exponent _ _ _ Vy).
    set (ez := Z.min ex ey).
    destruct (shl_align_spec mx ex ez) as (m1 & -> & Hm1),
      (shl_align_spec my ey ez) as (m2 & -> & Hm2). cbn [fst]. unfold cond_Zopp.
    rewrite Z.min_r in Hm1, Hm2 by lia. simpl value in *. unfold units in Hle.
    assert (Hp : forall m e, e = ex \/ e = ey -> m * 2 ^ (e + 1074) = m * 2 ^ (e - ez) * 2 ^ (ez + 1074)).
    { intros m e He. rewrite <-Z.mul_assoc, <-Z.pow_add_r by lia. do 2 f_equal. lia. }
    rewrite (Hp _ ex), (Hp _ ey), <-Hm1, <-Hm2 in Hle by auto.
    apply Z.mul_le_mono_pos_r in Hle; [|apply Z.pow_pos_nonneg; lia].
    destruct (binary_normalize_upper (Zpos m1 - Zpos m2) ez mx ex) as [Hf Hv]; try done; try lia.
    split_and!; [apply binary_normalize_valid|apply binary_normalize_nonneg; lia|done|done].
Qed.

(** One less, on integers: exact. *)
Lemma f64_sub_one n : 1 <= n <= 2 ^ 53 -> f64_sub (of_Z n) (of_Z 1) = of_Z (n - 1).
Proof.
  intros Hn. destruct (of_Z_pos n) as (mx & ex & -> & Vx & Hex & Ux); [lia|].
  change (of_Z 1) with (S754_finite false (2 ^ 52) (-52)).
  set (ez := Z.min ex (-52)). unfold f64_sub, SFsub. fold ez.
  destruct (shl_align_spec mx ex ez) as (m1 & -> & Hm1),
    (shl_align_spec (2 ^ 52) (-52) ez) as (m2 & -> & Hm2). cbn [fst]. unfold cond_Zopp.
  rewrite Z.min_r in Hm1, Hm2 by lia.
  assert (HM : (Zpos m1 - Zpos m2) * 2 ^ (ez + 1074) = (n - 1) * one_unit).
  { rewrite Hm1, Hm2, Z.mul_sub_distr_r, <-!Z.mul_assoc, <-!Z.pow_add_r by lia.
    replace (ex - ez + (ez + 1074)) with (ex + 1074) by lia.
    replace (-52 - ez + (ez + 1074)) with (-52 + 1074) by lia.
    unfold units in Ux. rewrite Ux, Z.mul_sub_distr_r. f_equal. }
  destruct (decide (n = 1)) as [->|Hne].
  - assert (Zpos m1 - Zpos m2 = 0) as -> by (pose proof (Z.pow_pos_nonneg 2 (ez + 1074)); nia). done.
  - destruct (of_Z_pos (n - 1)) as (m & e & -> & V & _ & U); [lia|].
    destruct (Zpos m1 - Zpos m2) as [|p|p] eqn:E.
    + exfalso. assert (0 < one_unit) by done. nia.
    + simpl. apply binary_round_exact; [done|lia|]. unfold units at 1. congruence.
    + exfalso. assert (0 < one_unit) by done. pose proof (Z.pow_pos_nonneg 2 (ez + 1074)). nia.
Qed.

(** A proper fraction divided by at least one is at most one. *)
Lemma f64_div_le_one x my ey :
  amount x -> value x <= one_unit ->
  valid (S754_finite false my ey) -> one_unit <= units (Zpos my) ey ->
  let r := f64_div x (S754_finite false my ey) in
  amount r /\ value r <= one_unit.
Proof.
  intros (Vx & Nx & Fx) Hx Vy Hy r.
  destruct (f64_div_nonneg x my ey Vx Nx Fx) as [Vr Nr]. fold r in Vr, Nr.
  enough (Hr : finite r /\ value r <= one_unit) by (unfold amount; tauto).
  subst r. clear Vr Nr. unfold f64_div, SFdiv.
  destruct x as [[]|?| |[] mx ex]; simpl in Nx, Fx; try done; simpl in Hx.
  pose proof (div_core_spec mx ex my ey) as H.
  destruct (SFdiv_core_binary _ _ _ _ _ _) as [[q e'] l].
  destruct H as (Hq & He & He1 & He2 & Eq & _ & Hin). simpl xorb.
  pose proof (valid_exponent _ _ _ Vx). pose proof (valid_exponent _ _ _ Vy).
  assert (Hdx : Zdigits2 (Zpos mx) + ex <= 1).
  { assert (H2 : 2 ^ (Zdigits2 (Zpos mx) - 1 + (ex + 1074)) <= 2 ^ 1074).
    { rewrite Z.pow_add_r by (simpl Zdigits2; lia). etransitivity; [|exact Hx].
      apply Z.mul_le_mono_nonneg_r; [apply Z.pow_nonneg; lia|apply digits_bounds; lia]. }
    apply Z.pow_le_mono_r_iff in H2; simpl Zdigits2 in *; lia. }
  assert (Hdy : 1 <= Zdigits2 (Zpos my) + ey).
  { assert (H2 : 2 ^ 1074 < 2 ^ (Zdigits2 (Zpos my) + (ey + 1074))).
    { rewrite Z.pow_add_r by (try apply digits_nonneg; lia). eapply Z.le_lt_trans; [exact Hy|].
      apply Z.mul_lt_mono_pos_r; [apply Z.pow_pos_nonneg; lia|apply digits_bounds; lia]. }
    apply Z.pow_lt_mono_r_iff in H2; simpl Zdigits2 in *; lia. }
  assert (Hfe : fexp64 (Zdigits2 (Zpos mx) + ex - (Zdigits2 (Zpos my) + ey)) <= -53)
    by (rewrite fexp64_eq; lia).
  set (N := Zpos mx * 2 ^ (ex - ey - e')) in *.
  assert (HN : N <= Zpos my * 2 ^ (- e')).
  { apply (Z.mul_le_mono_pos_r _ _ (2 ^ (ey + 1074))); [apply Z.pow_pos_nonneg; lia|].
    subst N. rewrite <-!Z.mul_assoc, <-!Z.pow_add_r by lia. unfold units in Hx, Hy.
    replace (ex - ey - e' + (ey + 1074)) with (ex + 1074 + - e') by lia.
    rewrite (Z.add_comm (- e')), (Z.pow_add_r 2 (ex + 1074)), (Z.pow_add_r 2 (ey + 1074)),
      !Z.mul_assoc by lia.
    apply Z.mul_le_mono_nonneg_r; [apply Z.pow_nonneg; lia|lia]. }
  change one_unit with (units (Zpos (2 ^ 52)) (-52)).
  apply binary_round_aux_upper; try done; try lia.
  change (Zpos (2 ^ 52)) with (2 ^ 52). rewrite <-Z.pow_add_r by lia.
  replace (52 + (-52 - e')) with (- e') by lia.
  pose proof (Z.div_mod N (Zpos my) ltac:(lia)). pose proof (Z.mod_pos_bound N (Zpos my) ltac:(lia)).
  destruct (exact_loc l) eqn:El; simpl Z.b2z; [nia|].
  specialize (Hin eq_refl). nia.
Qed.

(** ** Conversions to and from durations and integers *)

Lemma round_half_even_bounds n e b :
  0 <= n -> e < 0 -> n <= b * 2 ^ (- e) -> 0 <= round_half_even n e <= b.
Proof.
  intros Hn He Hb. unfold round_half_even. rewrite (proj2 (Z.leb_gt _ _)) by lia.
  assert (Hp : 0 < 2 ^ (- e)) by (apply Z.pow_pos_nonneg; lia).
  pose proof (Z.div_mod n (2 ^ (- e)) ltac:(lia)). pose proof (Z.mod_pos_bound n (2 ^ (- e)) Hp).
  pose proof (Z.div_pos n (2 ^ (- e)) Hn Hp).
  set (q := n / 2 ^ (- e)) in *. set (r := n mod 2 ^ (- e)) in *.
  assert (q <= b) by nia. assert (0 < r -> q + 1 <= b) by nia.
  destruct (Z.compare_spec (2 * r) (2 ^ (- e))); [case_match|..]; lia.
Qed.

(** At most one second converts without a panic, to at most one second. *)
Lemma from_secs_le_one x :
  amount x -> value x <= one_unit ->
  exists d, from_secs_f64 x = Returns d /\ 0 <= d <= nanos_per_sec.
Proof.
  intros (Vx & Nx & Fx) Hx. destruct x as [s|?| |[] m e]; simpl in Nx, Fx; try done.
  { by exists 0. }
  simpl in Hx. unfold units, one_unit in Hx. pose proof (valid_exponent _ _ _ Vx).
  assert (He : e < 0).
  { pose proof (valid_normal _ _ _ Vx). destruct (decide (e < 0)) as [|Hge]; [done|]. exfalso.
    assert (2 ^ 1074 <= 2 ^ (e + 1074)) by (apply Z.pow_le_mono_r; lia).
    assert (0 < 2 ^ 1074) by done. specialize (H0 ltac:(lia)). nia. }
  assert (Hm : Zpos m <= 2 ^ (- e)).
  { apply (Z.mul_le_mono_pos_r _ _ (2 ^ (e + 1074))); [apply Z.pow_pos_nonneg; lia|].
    rewrite <-Z.pow_add_r by lia. by replace (- e + (e + 1074)) with 1074 by lia. }
  unfold from_secs_f64.
  destruct (round_half_even_bounds (Zpos m * nanos_per_sec) e nanos_per_sec) as [H1 H2];
    [unfold nanos_per_sec; lia|done|unfold nanos_per_sec; lia|].
  rewrite (proj2 (Z.ltb_lt _ _)); [eauto|].
  unfold u64_modulus, nanos_per_sec in *. lia.
Qed.

Lemma as_secs_f64_amount d :
  is_duration d -> valid (as_secs_f64 d) /\ nonneg (as_secs_f64 d).
Proof.
  intros Hd. unfold is_duration, nanos_per_sec in Hd.
  assert (Hs : 0 <= as_secs d <= u64_modulus).
  { unfold as_secs, nanos_per_sec. split; [apply Z.div_pos; lia|].
    apply Z.div_le_upper_bound; lia. }
  assert (Hn : 0 <= subsec_nanos d <= u64_modulus).
  { unfold subsec_nanos, nanos_per_sec.
    pose proof (Z.mod_pos_bound d 1000000000 ltac:(lia)). unfold u64_modulus. lia. }
  destruct (of_Z_amount _ Hs) as (? & ? & _), (of_Z_amount _ Hn) as (? & ? & ?).
  destruct (of_Z_pos nanos_per_sec) as (m & e & He & V & _ & _); [done|].
  unfold as_secs_f64. rewrite He. destruct (f64_div_nonneg (of_Z (subsec_nanos d)) m e); try done.
  by apply f64_add_nonneg.
Qed.

Lemma shiftl_units m e : -1074 <= e -> Z.shiftl m e = units m e / one_unit.
Proof.
  intros He. unfold units, one_unit. destruct (decide (0 <= e)).
  - rewrite Z.shiftl_mul_pow2, Z.pow_add_r, Z.mul_assoc by lia.
    symmetry. apply Z.div_mul. done.
  - replace e with (- (- e)) at 1 by lia. rewrite Z.shiftl_opp_r, Z.shiftr_div_pow2 by lia.
    replace 1074 with (- e + (e + 1074)) at 2 by lia. rewrite (Z.pow_add_r 2 (- e)) by lia.
    rewrite Z.div_mul_cancel_r; [done|apply Z.pow_nonzero; lia|apply Z.pow_nonzero; lia].
Qed.

(** [as u64] of an amount: the integer part, saturated. *)
Lemma to_u64_value x : amount x -> to_u64 x = Z.min u64_max (value x / one_unit).
Proof.
  intros (Vx & Nx & Fx). destruct x as [s|?| |[] m e]; simpl in Nx, Fx; try done.
  simpl. rewrite shiftl_units; [done|]. pose proof (valid_exponent _ _ _ Vx). lia.
Qed.

Lemma to_u64_of_Z n : 0 <= n <= 2 ^ 53 -> to_u64 (of_Z n) = n.
Proof.
  intros Hn. rewrite to_u64_value by (apply of_Z_amount; unfold u64_modulus; lia).
  destruct (of_Z_value n Hn) as [_ ->]. rewrite Z.div_mul by done.
  unfold u64_max, u64_modulus. lia.
Qed.

Lemma to_u64_bound x n :
  amount x -> 0 <= n <= 2 ^ 53 -> f64_leb x (of_Z n) = true -> 0 <= to_u64 x <= n.
Proof.
  intros Hx Hn Hle. destruct (of_Z_value n Hn) as [_ Hv].
  apply amount_leb in Hle; [|done|apply of_Z_amount; unfold u64_modulus; lia].
  rewrite to_u64_value by done. rewrite Hv in Hle.
  assert (0 <= value x).
  { destruct Hx as (Vx & _). destruct x as [| | |s m e]; simpl; try lia.
    pose proof (valid_exponent _ _ _ Vx). pose proof (units_pos m e ltac:(lia)). lia. }
  assert (value x / one_unit <= n) by (apply Z.div_le_upper_bound; [done|lia]).
  assert (0 <= value x / one_unit) by (by apply Z.div_pos).
  unfold u64_max, u64_modulus. lia.
Qed.

(** ** Scaling by powers of two is exact *)

Definition pow2 (k : Z) : f64 := S754_finite false (2 ^ 52) (k - 52).

Lemma pow2_valid k : 0 <= k <= 1023 -> valid (pow2 k).
Proof.
  intros Hk. apply valid_finite. change (Zdigits2 (Zpos (2 ^ 52))) with 53.
  rewrite fexp64_eq. lia.
Qed.

Lemma f64_mul_pow2 m e k :
  valid (S754_finite false m e) -> -52 <= e -> 0 <= k -> e + k <= 971 ->
  valid (S754_finite false m (e + k)) /\
  f64_mul (S754_finite false m e) (pow2 k) = S754_finite false m (e + k).
Proof.
  intros Hv He Hk Hek.
  assert (Hv' : valid (S754_finite false m (e + k))).
  { apply valid_finite in Hv as [Hf _]. apply valid_finite. rewrite fexp64_eq in *. lia. }
  split; [done|]. unfold f64_mul, SFmul, pow2. simpl xorb.
  apply binary_round_aux_exact; [done|lia|].
  replace (e + k - (e + (k - 52))) with 52 by lia. rewrite Pos2Z.inj_mul. done.
Qed.

Lemma pow2_mul i j :
  0 <= i -> 0 <= j -> i + j <= 1023 -> f64_mul (pow2 i) (pow2 j) = pow2 (i + j).
Proof.
  intros Hi Hj Hij. unfold pow2 at 1.
  destruct (f64_mul_pow2 (2 ^ 52) (i - 52) j) as [_ ->]; try lia.
  - apply pow2_valid. lia.
  - unfold pow2. f_equal. lia.
Qed.
