(* ===== verification/F64Error.v ===== *)
(** * Rounding errors of binary64 arithmetic

    How far a rounded result can be from the exact one: [2^52 * value r] is at most
    [2^52 + 1] times the exact value (plus one unit of [2^-1074] for a product or a
    quotient, which may be subnormal), and a result is never below a representable
    bound of the exact value. These are the facts about accumulated error that
    the sustained rate of a token bucket rests on. *)

From Stdlib Require Import SpecFloat.
From stdpp Require Import prelude.
From S2P Require Import Prelude F64.

Lemma pow2_pos k : 0 <= k -> 0 < 2 ^ k.
Proof. intros. apply Z.pow_pos_nonneg; lia. Qed.

Lemma one_unit_pos : 0 < one_unit.
Proof. done. Qed.

Lemma value_nonneg x : valid x -> 0 <= value x.
Proof.
  intros Vx. destruct x as [| | |s m e]; simpl; try lia.
  pose proof (valid_exponent _ _ _ Vx). pose proof (units_pos m e ltac:(lia)). lia.
Qed.

(** Cancel a common positive factor. *)
Lemma mul_le_cancel a b k : 0 < k -> a * k <= b * k -> a <= b.
Proof. intros Hk. by apply Z.mul_le_mono_pos_r. Qed.

Lemma value_rounded_finite m e :
  0 <= m <= 2 ^ 53 -> -1074 <= e -> finite (rounded false m e) ->
  value (rounded false m e) = units m e.
Proof.
  intros Hm He. destruct m as [|p|p]; [done| |lia]. cbn [rounded].
  destruct (Zpos p =? 2 ^ 53) eqn:E; reflect_bools; case_match; try done.
  intros _. unfold value, units. rewrite E.
  replace (e + 1 + 1074) with (1 + (e + 1074)) by lia. rewrite (Z.pow_add_r 2 1) by lia.
  change (Zpos (2 ^ 52)) with (2 ^ 52). change (2 ^ 53) with (2 ^ 52 * 2 ^ 1). lia.
Qed.

(** ** The error of one rounding, from above *)

(** A rounding keeps the digits above [2^k]: it adds less than [2^k], which is
    either the unit or at most [M / 2^52]. *)
Lemma binary_round_aux_digits M E l :
  0 <= M -> E <= fexp64 (Zdigits2 M + E) ->
  let r := binary_round_aux 53 1024 false M E l in
  finite r ->
  exists m k, 0 <= k /\ -1074 <= E + k /\ 0 <= m <= 2 ^ 53 /\ value r = units m (E + k) /\
    m * 2 ^ k <= M + 2 ^ k /\ (exact_loc l = true -> k = 0 -> m = M) /\
    (E + k = -1074 \/ 2 ^ 52 * 2 ^ k <= M).
Proof.
  intros HM HE r. subst r.
  destruct (binary_round_aux_spec false M E l HM HE) as (m & -> & Hm & Hsm & Hx).
  set (e := fexp64 (Zdigits2 M + E)) in *. set (k := e - E) in *.
  assert (Hk : 0 <= k) by lia. assert (He : -1074 <= e) by (subst e; rewrite fexp64_eq; lia).
  pose proof (pow2_pos k Hk) as Hpk. pose proof (Z.div_pos M (2 ^ k) HM Hpk).
  pose proof (Z.mul_div_le M (2 ^ k) Hpk) as Hdiv.
  intros Hf. exists m, k. replace (E + k) with e by lia.
  split_and!; try done; try lia; [by rewrite value_rounded_finite by (done || lia)|nia| |].
  - intros Hl Hk0. rewrite Hk0 in *. rewrite Hx; [by rewrite Z.div_1_r|done|by rewrite Z.mod_1_r].
  - destruct (decide (e = -1074)) as [He1|He1]; [by left|right].
    assert (Hd : Zdigits2 M = k + 53) by (subst k e; rewrite fexp64_eq in *; lia).
    assert (0 < M) by (destruct M as [|p|p]; [simpl in Hd|..]; lia).
    pose proof (digits_bounds M ltac:(done)) as Hb. rewrite Hd in Hb.
    replace (k + 53 - 1) with (52 + k) in Hb by lia. rewrite (Z.pow_add_r 2 52) in Hb by lia. lia.
Qed.

(** The exact value [M * 2^E] in units is scaled by [2^s] to be an integer. *)
Lemma binary_round_aux_error M E l s :
  0 <= M -> E <= fexp64 (Zdigits2 M + E) -> 0 <= s -> 0 <= E + 1074 + s ->
  let r := binary_round_aux 53 1024 false M E l in
  finite r ->
  2 ^ 52 * (value r * 2 ^ s) <= (2 ^ 52 + 1) * (M * 2 ^ (E + 1074 + s)) + 2 ^ 52 * 2 ^ s.
Proof.
  intros HM HE Hs HEs r Hf. subst r.
  destruct (binary_round_aux_digits M E l HM HE Hf) as (m & k & Hk & He & Hm & -> & Hmk & _ & Hc).
  pose proof (pow2_pos _ HEs) as HpE. pose proof (pow2_pos s Hs) as Hps. pose proof (pow2_pos k Hk).
  assert (Hr : units m (E + k) * 2 ^ s = m * 2 ^ k * 2 ^ (E + 1074 + s)).
  { unfold units. rewrite <-!Z.mul_assoc, <-!Z.pow_add_r by lia. do 2 f_equal. lia. }
  rewrite Hr. destruct Hc as [He1|Hc]; [|nia].
  assert (H2 : 2 ^ k * 2 ^ (E + 1074 + s) = 2 ^ s) by (rewrite <-Z.pow_add_r by lia; f_equal; lia). nia.
Qed.

(** For a multiple of the unit no slack is needed. *)
Lemma binary_normalize_error M E :
  0 <= M -> -1074 <= E ->
  let r := binary_normalize 53 1024 M E false in
  finite r -> 2 ^ 52 * value r <= (2 ^ 52 + 1) * units M E.
Proof.
  intros HM HE r. subst r. destruct M as [|p|p]; [done|simpl|lia].
  destruct (binary_round_eq false p E) as (-> & HM' & Hfe & HE').
  set (E' := Z.min E _) in *. set (M := Zpos p * 2 ^ (E - E')) in *.
  assert (HE2 : -1074 <= E') by (subst E'; rewrite fexp64_eq; lia).
  assert (Hu : units (Zpos p) E = M * 2 ^ (E' + 1074)).
  { unfold units. subst M. rewrite <-Z.mul_assoc, <-Z.pow_add_r by lia. do 2 f_equal. lia. }
  rewrite Hu. intros Hf. pose proof (pow2_pos (E' + 1074) ltac:(lia)).
  destruct (binary_round_aux_digits M E' loc_Exact ltac:(lia) HE' Hf)
    as (m & k & Hk & He & Hm & -> & Hmk & Hx & Hc).
  assert (Hr : units m (E' + k) = m * 2 ^ k * 2 ^ (E' + 1074)).
  { unfold units. rewrite <-!Z.mul_assoc, <-!Z.pow_add_r by lia. do 2 f_equal. lia. }
  rewrite Hr. destruct (decide (k = 0)) as [->|Hk0].
  - rewrite Hx by done. nia.
  - pose proof (pow2_pos k Hk). assert (2 ^ 52 * 2 ^ k <= M) by lia. nia.
Qed.

(** Below half of the range nothing overflows. *)
Lemma binary_round_aux_finite M E l :
  0 <= M -> E <= fexp64 (Zdigits2 M + E) -> E <= 900 -> M < 2 ^ (952 - E) ->
  finite (binary_round_aux 53 1024 false M E l).
Proof.
  intros HM HE HE9 Hlt. eapply (binary_round_aux_upper M E l (2 ^ 52) 900); try done.
  change (Zpos (2 ^ 52)) with (2 ^ 52). rewrite <-Z.pow_add_r by lia.
  replace (52 + (900 - E)) with (952 - E) by lia. destruct (exact_loc l); simpl; lia.
Qed.

(** ** The operations *)

(** A sum is exact, or the rounding of the exact sum. *)
Lemma f64_add_cases x y :
  amount x -> amount y ->
  (finite (f64_add x y) /\ value (f64_add x y) = value x + value y) \/
  exists M E, 0 <= M /\ -1074 <= E <= 971 /\ units M E = value x + value y /\
    f64_add x y = binary_normalize 53 1024 M E false.
Proof.
  intros (Vx & Nx & Fx) (Vy & Ny & Fy). unfold f64_add, SFadd.
  destruct x as [sx|?| |[] mx ex], y as [sy|?| |[] my ey]; simpl in Nx, Ny, Fx, Fy; try done.
  - left. by destruct sx, sy.
  - left. done.
  - left. split; [done|]. by rewrite Z.add_0_r.
  - right. pose proof (valid_exponent _ _ _ Vx). pose proof (valid_exponent _ _ _ Vy).
    set (ez := Z.min ex ey).
    destruct (shl_align_spec mx ex ez) as (m1 & -> & Hm1),
      (shl_align_spec my ey ez) as (m2 & -> & Hm2). cbn [fst]. unfold cond_Zopp.
    rewrite Z.min_r in Hm1, Hm2 by lia.
    exists (Zpos m1 + Zpos m2), ez. split_and!; try done; try lia.
    simpl value. unfold units. rewrite Hm1, Hm2, Z.mul_add_distr_r, <-!Z.mul_assoc, <-!Z.pow_add_r by lia.
    do 3 f_equal; lia.
Qed.

Lemma f64_add_error x y :
  amount x -> amount y -> finite (f64_add x y) ->
  2 ^ 52 * value (f64_add x y) <= (2 ^ 52 + 1) * (value x + value y).
Proof.
  intros Hx Hy Hf. destruct (f64_add_cases x y Hx Hy) as [[_ ->]|(M & E & HM & HE & <- & Er)].
  - pose proof (value_nonneg x (proj1 Hx)). pose proof (value_nonneg y (proj1 Hy)). lia.
  - rewrite Er in *. apply binary_normalize_error; (done || lia).
Qed.

(** A value below [2^952] does not overflow. *)
Lemma binary_normalize_finite M E :
  0 <= M -> -1074 <= E <= 971 -> units M E <= 2 ^ 2024 -> finite (binary_normalize 53 1024 M E false).
Proof.
  intros HM HE Hu. destruct (decide (E <= 898)).
  - apply (binary_normalize_upper M E (2 ^ 52) 898); try done.
    apply (mul_le_cancel _ _ (2 ^ (E + 1074))); [apply pow2_pos; lia|].
    unfold units in Hu. change (Zpos (2 ^ 52)) with (2 ^ 52). rewrite <-!Z.pow_add_r by lia.
    replace (52 + (898 - E) + (E + 1074)) with 2024 by lia. done.
  - apply (binary_normalize_upper M E (2 ^ 52) 971); try done; try lia.
    assert (M <= 2 ^ 52).
    { destruct (decide (M <= 2 ^ 52)) as [|Hgt]; [done|exfalso]. unfold units in Hu.
      assert (2 ^ 1972 <= 2 ^ (E + 1074)) by (apply Z.pow_le_mono_r; lia).
      assert (2 ^ 2024 = 2 ^ 52 * 2 ^ 1972) by (by rewrite <-Z.pow_add_r by lia).
      pose proof (pow2_pos 1972 ltac:(lia)). nia. }
    pose proof (pow2_pos (971 - E) ltac:(lia)). change (Zpos (2 ^ 52)) with (2 ^ 52). nia.
Qed.

Lemma f64_add_finite x y :
  amount x -> amount y -> value x + value y <= 2 ^ 2024 -> amount (f64_add x y).
Proof.
  intros Hx Hy Hle.
  destruct (f64_add_nonneg x y) as [V N]; [apply Hx|apply Hy|apply Hx|apply Hy|].
  split_and!; [done|done|].
  destruct (f64_add_cases x y Hx Hy) as [[? _]|(M & E & HM & HE & Hu & ->)]; [done|].
  apply binary_normalize_finite; [done|done|lia].
Qed.

(** A product is exactly zero, or the rounding of the product of the mantissas. *)
Lemma f64_mul_cases x y :
  amount x -> amount y ->
  (f64_mul x y = S754_zero (match x, y with
     | S754_zero s, S754_zero s' | S754_zero s, S754_finite s' _ _
     | S754_finite s _ _, S754_zero s' => xorb s s' | _, _ => false end) /\ value x * value y = 0) \/
  exists M E, 0 < M /\ -2148 <= E <= 1942 /\ E <= fexp64 (Zdigits2 M + E) /\
    M * 2 ^ (E + 2148) = value x * value y /\
    f64_mul x y = binary_round_aux 53 1024 false M E loc_Exact.
Proof.
  intros (Vx & Nx & Fx) (Vy & Ny & Fy). unfold f64_mul, SFmul.
  destruct x as [sx|?| |[] mx ex], y as [sy|?| |[] my ey]; simpl in Nx, Ny, Fx, Fy; try done.
  1-3: by left; rewrite ?Z.mul_0_r.
  right. pose proof (valid_exponent _ _ _ Vx). pose proof (valid_exponent _ _ _ Vy).
  exists (Zpos (mx * my)), (ex + ey). split_and!; try done; try lia; [by eapply mul_exponent|].
  simpl value. unfold units. rewrite Pos2Z.inj_mul.
  replace (ex + ey + 2148) with ((ex + 1074) + (ey + 1074)) by lia. rewrite Z.pow_add_r by lia. ring.
Qed.

Lemma f64_mul_error x y :
  amount x -> amount y -> finite (f64_mul x y) ->
  2 ^ 52 * (value (f64_mul x y) * one_unit) <=
    (2 ^ 52 + 1) * (value x * value y) + 2 ^ 52 * one_unit.
Proof.
  intros Hx Hy Hf. destruct (f64_mul_cases x y Hx Hy) as [[-> ->]|(M & E & HM & HE & HE' & <- & Er)].
  - simpl. unfold one_unit. lia.
  - rewrite Er in *. replace (E + 2148) with (E + 1074 + 1074) by lia.
    apply binary_round_aux_error; (done || lia).
Qed.

Lemma f64_mul_finite x y :
  amount x -> amount y -> value x * value y < 2 ^ 3048 -> amount (f64_mul x y).
Proof.
  intros Hx Hy Hlt. assert (Hf : finite (f64_mul x y)).
  { destruct (f64_mul_cases x y Hx Hy) as [[-> _]|(M & E & HM & HE & HE' & Hv & ->)]; [done|].
    destruct (decide (E <= 900)) as [HE9|HE9].
    - apply binary_round_aux_finite; try done; try lia.
      apply (Z.mul_lt_mono_pos_r (2 ^ (E + 2148))); [apply pow2_pos; lia|].
      rewrite Hv, <-Z.pow_add_r by lia. eapply Z.lt_le_trans; [exact Hlt|].
      apply Z.pow_le_mono_r; lia.
    - exfalso. assert (2 ^ 3048 <= 2 ^ (E + 2148)) by (apply Z.pow_le_mono_r; lia).
      pose proof (pow2_pos 3048 ltac:(lia)). nia. }
  destruct (f64_mul_nonneg x y) as [V [N|N]]; [apply Hx|apply Hy|apply Hx|apply Hy|done|].
  exfalso. by destruct (f64_mul x y).
Qed.

(** A quotient, times the divisor. *)
Lemma f64_div_error x my ey :
  amount x -> valid (S754_finite false my ey) ->
  finite (f64_div x (S754_finite false my ey)) ->
  2 ^ 52 * (value (f64_div x (S754_finite false my ey)) * units (Zpos my) ey) <=
    (2 ^ 52 + 1) * (value x * one_unit) + 2 ^ 52 * units (Zpos my) ey.
Proof.
  intros (Vx & Nx & Fx) Vy. pose proof (valid_exponent _ _ _ Vy) as Hey.
  pose proof (units_pos my ey ltac:(lia)) as Hu. unfold f64_div, SFdiv.
  destruct x as [sx|?| |[] mx ex]; simpl in Nx, Fx; try done; [simpl; lia|].
  pose proof (valid_exponent _ _ _ Vx) as Hex. pose proof (div_core_spec mx ex my ey) as H.
  destruct (SFdiv_core_binary _ _ _ _ _ _) as [[q e'] l].
  destruct H as (Hq & He & He1 & _ & Eq & _ & _). simpl xorb. intros Hf.
  set (s := Z.max 0 (- (e' + 1074))).
  pose proof (binary_round_aux_error q e' l s Hq He ltac:(lia) ltac:(lia) Hf) as Hr.
  set (v := value (binary_round_aux 53 1024 false q e' l)) in *.
  assert (Hps : 0 < 2 ^ s) by (apply pow2_pos; lia).
  assert (Hqy : q * Zpos my <= Zpos mx * 2 ^ (ex - ey - e')).
  { rewrite Eq, Z.mul_comm. apply Z.mul_div_le. lia. }
  assert (Hx : q * 2 ^ (e' + 1074 + s) * units (Zpos my) ey <= units (Zpos mx) ex * one_unit * 2 ^ s).
  { unfold units, one_unit.
    replace (q * 2 ^ (e' + 1074 + s) * (Zpos my * 2 ^ (ey + 1074)))
      with (q * Zpos my * (2 ^ (e' + 1074 + s) * 2 ^ (ey + 1074))) by ring.
    replace (Zpos mx * 2 ^ (ex + 1074) * 2 ^ 1074 * 2 ^ s)
      with (Zpos mx * 2 ^ (ex - ey - e') * (2 ^ (e' + 1074 + s) * 2 ^ (ey + 1074))).
    - apply Z.mul_le_mono_nonneg_r; [|done]. apply Z.mul_nonneg_nonneg; apply Z.pow_nonneg; lia.
    - rewrite <-!Z.mul_assoc, <-!Z.pow_add_r by lia. do 2 f_equal. lia. }
  apply (mul_le_cancel _ _ (2 ^ s) Hps). simpl value. nia.
Qed.

(** ** A result is not below a representable bound *)

Lemma binary_round_aux_lower M E l m e t :
  0 <= M -> E <= fexp64 (Zdigits2 M + E) -> valid (S754_finite false m e) ->
  0 <= e + t -> 0 <= E + t -> Zpos m * 2 ^ (e + t) <= M * 2 ^ (E + t) ->
  let r := binary_round_aux 53 1024 false M E l in
  finite r -> units (Zpos m) e <= value r.
Proof.
  intros HM HE Hv Het HEt Hle r. subst r.
  destruct (binary_round_aux_spec false M E l HM HE) as (m2 & -> & Hm2 & Hs & _).
  set (eR := fexp64 (Zdigits2 M + E)) in *. set (k := eR - E) in *.
  assert (Hk : 0 <= k) by lia. assert (He : -1074 <= eR) by (subst eR; rewrite fexp64_eq; lia).
  pose proof (pow2_pos k Hk) as Hpk. set (q := M / 2 ^ k) in *.
  assert (0 <= q) by (by apply Z.div_pos).
  intros Hf. rewrite value_rounded_finite by (done || lia).
  pose proof (valid_mantissa _ _ _ Hv). pose proof (valid_exponent _ _ _ Hv).
  transitivity (units q eR); [|apply Z.mul_le_mono_nonneg_r; [apply Z.pow_nonneg; lia|lia]].
  unfold units. destruct (decide (eR <= e)) as [Hee|Hee].
  - replace (e + 1074) with ((e - eR) + (eR + 1074)) by lia.
    rewrite Z.pow_add_r, Z.mul_assoc by lia.
    apply Z.mul_le_mono_nonneg_r; [apply Z.pow_nonneg; lia|].
    subst q. apply Z.div_le_lower_bound; [done|].
    apply (mul_le_cancel _ _ (2 ^ (E + t))); [by apply pow2_pos|].
    etransitivity; [|exact Hle].
    replace (2 ^ k * (Zpos m * 2 ^ (e - eR)) * 2 ^ (E + t))
      with (Zpos m * (2 ^ k * 2 ^ (e - eR) * 2 ^ (E + t))) by ring.
    rewrite <-!Z.pow_add_r by lia. apply Z.eq_le_incl. do 2 f_equal. lia.
  - assert (Hd : Zdigits2 M = k + 53) by (subst k eR; rewrite fexp64_eq in *; lia).
    assert (0 < M) by (destruct M as [|p|p]; [simpl in Hd|..]; lia).
    pose proof (digits_bounds M ltac:(done)) as Hb. rewrite Hd in Hb.
    assert (Hq : 2 ^ 52 <= q).
    { subst q. apply Z.div_le_lower_bound; [done|]. rewrite <-Z.pow_add_r by lia.
      replace (k + 52) with (k + 53 - 1) by lia. lia. }
    transitivity (2 ^ 53 * 2 ^ (eR - 1 + 1074)).
    + apply Z.mul_le_mono_nonneg; [lia|lia|apply Z.pow_nonneg; lia|apply Z.pow_le_mono_r; lia].
    + replace (2 ^ 53 * 2 ^ (eR - 1 + 1074)) with (2 ^ 52 * 2 ^ (eR + 1074)).
      * apply Z.mul_le_mono_nonneg_r; [apply Z.pow_nonneg; lia|done].
      * rewrite <-!Z.pow_add_r by lia. f_equal. lia.
Qed.

Lemma binary_normalize_lower M E m e :
  0 <= M -> -1074 <= E -> valid (S754_finite false m e) -> units (Zpos m) e <= units M E ->
  let r := binary_normalize 53 1024 M E false in
  finite r -> units (Zpos m) e <= value r.
Proof.
  intros HM HE Hv Hle. pose proof (valid_exponent _ _ _ Hv). destruct M as [|p|p]; [|simpl|lia].
  { exfalso. pose proof (units_pos m e ltac:(lia)). unfold units in Hle. lia. }
  destruct (binary_round_eq false p E) as (-> & HM' & _ & HE').
  set (E' := Z.min E _) in *.
  assert (HE2 : -1074 <= E') by (subst E'; rewrite fexp64_eq; lia).
  apply binary_round_aux_lower with (t := 1074); try done; try lia.
  unfold units in Hle. etransitivity; [exact Hle|].
  rewrite <-Z.mul_assoc, <-Z.pow_add_r by lia. apply Z.eq_le_incl. do 2 f_equal. lia.
Qed.

(** A representable lower bound: an amount, by its value. *)
Lemma amount_cases x :
  amount x -> value x = 0 \/ exists m e, x = S754_finite false m e /\ valid (S754_finite false m e).
Proof.
  intros (Vx & Nx & Fx). destruct x as [s|?| |[] m e]; simpl in Nx, Fx; try done; [by left|].
  right. by exists m, e.
Qed.

(** Adding a non-negative amount does not decrease a value. *)
Lemma f64_add_lower x y z :
  amount x -> amount y -> amount z -> value z <= value x + value y -> finite (f64_add x y) ->
  value z <= value (f64_add x y).
Proof.
  intros Hx Hy Hz Hle Hf.
  destruct (f64_add_cases x y Hx Hy) as [[_ ->]|(M & E & HM & HE & Hu & Er)]; [done|].
  destruct (amount_cases z Hz) as [->|(m & e & -> & Vz)].
  - apply value_nonneg, f64_add_nonneg; [apply Hx|apply Hy|apply Hx|apply Hy].
  - rewrite Er in *. apply binary_normalize_lower; try done; [lia|]. by rewrite Hu.
Qed.

Lemma f64_mul_lower x y z :
  amount x -> amount y -> amount z -> value z * one_unit <= value x * value y ->
  finite (f64_mul x y) -> value z <= value (f64_mul x y).
Proof.
  intros Hx Hy Hz Hle Hf. pose proof one_unit_pos as Hone.
  destruct (f64_mul_cases x y Hx Hy) as [[-> Hv]|(M & E & HM & HE & HE' & Hv & Er)].
  - rewrite Hv in Hle. simpl. pose proof (value_nonneg z (proj1 Hz)). nia.
  - rewrite Er in *. destruct (amount_cases z Hz) as [->|(m & e & -> & Vz)].
    + apply value_nonneg, binary_round_aux_valid; [lia|done].
    + pose proof (valid_exponent _ _ _ Vz).
      apply binary_round_aux_lower with (t := 2148); try done; try lia.
      rewrite Hv. etransitivity; [|exact Hle]. simpl value. unfold units, one_unit.
      rewrite <-Z.mul_assoc, <-Z.pow_add_r by lia. apply Z.eq_le_incl. do 2 f_equal. lia.
Qed.

(** ** Subtracting one is exact *)

(** The rounding of a value that some float has is that value. *)
Lemma binary_normalize_exact M E n f :
  0 <= M -> -1074 <= E -> 0 <= n < 2 ^ 53 -> -1074 <= f -> units M E = units n f ->
  finite (binary_normalize 53 1024 M E false) ->
  value (binary_normalize 53 1024 M E false) = units M E.
Proof.
  intros HM HE Hn Hf Hu. destruct M as [|p|p]; [done|simpl|lia].
  assert (Hn0 : 0 < n).
  { pose proof (units_pos p E ltac:(lia)). rewrite Hu in H. unfold units in H.
    pose proof (pow2_pos (f + 1074) ltac:(lia)). nia. }
  destruct (binary_round_eq false p E) as (-> & HM' & Hfe & HE').
  set (E' := Z.min E _) in *. set (M := Zpos p * 2 ^ (E - E')) in *.
  assert (HE2 : -1074 <= E') by (subst E'; rewrite fexp64_eq; lia).
  assert (HuM : units (Zpos p) E = M * 2 ^ (E' + 1074)).
  { unfold units. subst M. rewrite <-Z.mul_assoc, <-Z.pow_add_r by lia. do 2 f_equal. lia. }
  assert (Hdig : Zdigits2 M + E' = Zdigits2 n + f).
  { pose proof (digits_shift M (E' + 1074) ltac:(lia) ltac:(lia)) as H1.
    pose proof (digits_shift n (f + 1074) ltac:(lia) ltac:(lia)) as H2.
    unfold units in Hu, HuM. rewrite <-HuM, Hu in H1. lia. }
  assert (Hdn : Zdigits2 n <= 53) by (apply digits_le; lia).
  destruct (binary_round_aux_spec false M E' loc_Exact) as (m & -> & Hm & Hsm & Hx); [lia|done|].
  set (e := fexp64 (Zdigits2 M + E')) in *.
  assert (Hef : e <= f) by (subst e; rewrite Hdig, fexp64_eq; lia).
  assert (He : -1074 <= e) by (subst e; rewrite fexp64_eq; lia).
  pose proof (pow2_pos (e - E') ltac:(lia)) as Hpk. pose proof (pow2_pos (E' + 1074) ltac:(lia)).
  assert (HMn : M = n * 2 ^ (f - e) * 2 ^ (e - E')).
  { apply (Z.mul_reg_r _ _ (2 ^ (E' + 1074))); [lia|]. rewrite <-HuM, Hu. unfold units.
    rewrite <-!Z.mul_assoc, <-!Z.pow_add_r by lia. do 2 f_equal. lia. }
  assert (Hmod : M mod 2 ^ (e - E') = 0) by (rewrite HMn; apply Z.mod_mul; lia).
  specialize (Hx eq_refl Hmod). assert (Hdiv : M / 2 ^ (e - E') * 2 ^ (e - E') = M).
  { pose proof (Z.div_mod M (2 ^ (e - E')) ltac:(lia)). lia. }
  pose proof (Z.div_pos M (2 ^ (e - E')) ltac:(lia) Hpk).
  intros Hfin. rewrite value_rounded_finite by (done || lia).
  rewrite HuM, Hx. rewrite <-Hdiv at 2. unfold units.
  rewrite <-Z.mul_assoc, <-Z.pow_add_r by lia. do 2 f_equal. lia.
Qed.

Lemma f64_sub_one_exact x :
  amount x -> one_unit <= value x <= 2 ^ 53 * one_unit ->
  value (f64_sub x (of_Z 1)) = value x - one_unit.
Proof.
  intros Hx Hv. assert (H1 : amount (of_Z 1)) by by apply of_Z_amount.
  destruct (f64_sub_amount x (of_Z 1) Hx H1) as [(_ & _ & Hf) _];
    [change (value (of_Z 1)) with one_unit; lia|].
  destruct (amount_cases x Hx) as [H0|(mx & ex & -> & Vx)]; [pose proof one_unit_pos; lia|].
  pose proof (valid_exponent _ _ _ Vx) as Hex. pose proof (valid_mantissa _ _ _ Vx) as Hmx.
  change (of_Z 1) with (S754_finite false (2 ^ 52) (-52)) in *.
  unfold f64_sub, SFsub in *. set (ez := Z.min ex (-52)) in *.
  destruct (shl_align_spec mx ex ez) as (m1 & Em1 & Hm1),
    (shl_align_spec (2 ^ 52) (-52) ez) as (m2 & Em2 & Hm2). rewrite Em1, Em2 in *.
  cbn [fst] in *. unfold cond_Zopp in *. rewrite Z.min_r in Hm1, Hm2 by lia.
  simpl value at 2. simpl value in Hv.
  assert (Hu : units (Zpos m1 - Zpos m2) ez = units (Zpos mx) ex - one_unit).
  { unfold units. rewrite Hm1, Hm2, Z.mul_sub_distr_r, <-!Z.mul_assoc, <-!Z.pow_add_r by lia.
    replace (ex - ez + (ez + 1074)) with (ex + 1074) by lia.
    replace (-52 - ez + (ez + 1074)) with (-52 + 1074) by lia. done. }
  assert (Hpos : 0 <= Zpos m1 - Zpos m2).
  { apply (mul_le_cancel _ _ (2 ^ (ez + 1074))); [apply pow2_pos; lia|].
    unfold units at 1 in Hu. lia. }
  rewrite <-Hu. unfold units, one_unit in Hv. destruct (decide (ex <= 0)) as [He|He].
  - assert (H2 : 2 ^ (- ex) * 2 ^ (ex + 1074) = one_unit).
    { rewrite <-Z.pow_add_r by lia. unfold one_unit. f_equal. lia. }
    pose proof (pow2_pos (- ex) ltac:(lia)). pose proof (pow2_pos (ex + 1074) ltac:(lia)).
    apply (binary_normalize_exact _ _ (Zpos mx - 2 ^ (- ex)) ex); try done; try lia.
    + split; [|lia]. apply (mul_le_cancel _ _ (2 ^ (ex + 1074))); [done|].
      rewrite Z.mul_sub_distr_r, H2. unfold one_unit. lia.
    + rewrite Hu. unfold units. rewrite Z.mul_sub_distr_r, H2. done.
  - assert (H1075 : 2 ^ 1075 <= 2 ^ (ex + 1074)) by (apply Z.pow_le_mono_r; lia).
    pose proof (valid_normal _ _ _ Vx ltac:(lia)).
    assert (E75 : 2 ^ 1075 = 2 * 2 ^ 1074) by (by rewrite <-(Z.pow_add_r 2 1) by lia).
    assert (Hval : Zpos mx * 2 ^ (ex + 1074) = 2 ^ 53 * 2 ^ 1074).
    { apply Z.le_antisymm; [apply Hv|]. replace (2 ^ 53 * 2 ^ 1074) with (2 ^ 52 * 2 ^ 1075) by lia.
      apply Z.mul_le_mono_nonneg; (done || lia). }
    apply (binary_normalize_exact _ _ (2 ^ 53 - 1) 0); try done; try lia.
    rewrite Hu. unfold units, one_unit. rewrite Hval. lia.
Qed.

(** ** Durations in seconds *)

Lemma units_zero n : units n 0 = n * one_unit.
Proof. done. Qed.

Lemma of_Z_error n :
  0 <= n <= u64_modulus -> 2 ^ 52 * value (of_Z n) <= (2 ^ 52 + 1) * (n * one_unit).
Proof.
  intros Hn. rewrite <-units_zero. apply binary_normalize_error; [lia|lia|by apply of_Z_finite].
Qed.

(** A moderate number divided by at least one does not overflow. *)
Lemma f64_div_finite mx ex my ey :
  valid (S754_finite false mx ex) -> valid (S754_finite false my ey) -> ex - ey <= 900 ->
  units (Zpos mx) ex <= 2 ^ 2000 -> one_unit <= units (Zpos my) ey ->
  amount (f64_div (S754_finite false mx ex) (S754_finite false my ey)).
Proof.
  intros Vx Vy He9 Hx Hy. pose proof (valid_exponent _ _ _ Vx). pose proof (valid_exponent _ _ _ Vy).
  destruct (f64_div_nonneg (S754_finite false mx ex) my ey Vx) as [Vd Nd]; [done|done|].
  split_and!; [done|done|]. clear Vd Nd. unfold f64_div, SFdiv.
  pose proof (div_core_spec mx ex my ey) as H'.
  destruct (SFdiv_core_binary _ _ _ _ _ _) as [[q e'] l].
  destruct H' as (Hq & He & He1 & _ & Eq & _ & _). simpl xorb.
  apply binary_round_aux_finite; [done|done|lia|].
  assert (Hqy : q * Zpos my <= Zpos mx * 2 ^ (ex - ey - e')).
  { rewrite Eq, Z.mul_comm. apply Z.mul_div_le. lia. }
  set (s := Z.max 0 (- e')). pose proof (pow2_pos s ltac:(lia)) as Hps.
  pose proof (pow2_pos (e' + s) ltac:(lia)) as Hpe. pose proof one_unit_pos as Hone.
  assert (Hxs : q * 2 ^ (e' + s) * units (Zpos my) ey <= units (Zpos mx) ex * 2 ^ s).
  { unfold units.
    replace (q * 2 ^ (e' + s) * (Zpos my * 2 ^ (ey + 1074)))
      with (q * Zpos my * (2 ^ (e' + s) * 2 ^ (ey + 1074))) by ring.
    replace (Zpos mx * 2 ^ (ex + 1074) * 2 ^ s)
      with (Zpos mx * 2 ^ (ex - ey - e') * (2 ^ (e' + s) * 2 ^ (ey + 1074))).
    - apply Z.mul_le_mono_nonneg_r; [|done]. apply Z.mul_nonneg_nonneg; apply Z.pow_nonneg; lia.
    - rewrite <-!Z.mul_assoc, <-!Z.pow_add_r by lia. do 2 f_equal. lia. }
  assert (Hq2 : q * 2 ^ (e' + s) * one_unit <= 2 ^ 2000 * 2 ^ s).
  { etransitivity; [apply Z.mul_le_mono_nonneg_l; [nia|exact Hy]|].
    etransitivity; [exact Hxs|]. apply Z.mul_le_mono_nonneg_r; lia. }
  replace (2 ^ 2000) with (2 ^ 926 * one_unit) in Hq2 by (unfold one_unit; by rewrite <-Z.pow_add_r by lia).
  assert (Hq3 : q * 2 ^ (e' + s) <= 2 ^ 926 * 2 ^ s) by (apply (mul_le_cancel _ _ one_unit Hone); lia).
  apply (Z.mul_lt_mono_pos_r (2 ^ (e' + s))); [done|]. eapply Z.le_lt_trans; [exact Hq3|].
  rewrite <-!Z.pow_add_r by lia. apply Z.pow_lt_mono_r; lia.
Qed.

(** The fraction of a second. *)
Definition nanos_part (d : Duration) : f64 := f64_div (of_Z (subsec_nanos d)) (of_Z nanos_per_sec).

Lemma nanos_part_error d :
  amount (nanos_part d) /\
  2 ^ 52 * (value (nanos_part d) * nanos_per_sec) <=
    (2 ^ 52 + 1) * (subsec_nanos d * one_unit) + 2 ^ 52 * nanos_per_sec.
Proof.
  assert (Hn : 0 <= subsec_nanos d < 1000000000) by by apply Z.mod_pos_bound.
  assert (Ha : amount (of_Z (subsec_nanos d))) by (apply of_Z_amount; words).
  destruct (of_Z_value (subsec_nanos d)) as [_ Hv]; [lia|].
  destruct (of_Z_pos nanos_per_sec) as (my & ey & Hm & V & Hey & Hu); [done|].
  unfold nanos_part. rewrite Hm. pose proof one_unit_pos as Hone.
  assert (Hdiv : amount (f64_div (of_Z (subsec_nanos d)) (S754_finite false my ey))).
  { destruct (decide (subsec_nanos d = 0)) as [->|]; [done|].
    destruct (of_Z_pos (subsec_nanos d)) as (mx & ex & -> & Vx & Hex & Hux); [lia|].
    apply f64_div_finite; try done; [lia| |].
    - rewrite Hux. transitivity (2 ^ 30 * one_unit); [nia|]. unfold one_unit.
      rewrite <-Z.pow_add_r by lia. apply Z.pow_le_mono_r; lia.
    - rewrite Hu. unfold nanos_per_sec. lia. }
  split; [done|]. pose proof (f64_div_error _ my ey Ha V (proj2 (proj2 Hdiv))) as He.
  rewrite Hu, Hv in He. apply (mul_le_cancel _ _ one_unit Hone). clear -He. nia.
Qed.

(** [as_secs_f64] is an amount, at most a hair above the exact number of seconds,
    and at least its integer part. *)
Lemma as_secs_error d :
  is_duration d ->
  amount (as_secs_f64 d) /\ value (as_secs_f64 d) <= 2 ^ 66 * one_unit /\
  2 ^ 104 * (value (as_secs_f64 d) * nanos_per_sec) <=
    (2 ^ 52 + 1) ^ 2 * (d * one_unit) + (2 ^ 52 + 1) * 2 ^ 52 * nanos_per_sec.
Proof.
  intros Hd. unfold is_duration in Hd.
  assert (Hs : 0 <= as_secs d < u64_modulus).
  { unfold as_secs. split; [apply Z.div_pos; [lia|done]|]. apply Z.div_lt_upper_bound; [done|lia]. }
  assert (Hdm : d = as_secs d * nanos_per_sec + subsec_nanos d).
  { unfold as_secs, subsec_nanos. rewrite Z.mul_comm. by apply Z.div_mod. }
  assert (Hn : 0 <= subsec_nanos d < nanos_per_sec) by by apply Z.mod_pos_bound.
  destruct (nanos_part_error d) as [Hp Hpe].
  assert (Ha : amount (of_Z (as_secs d))) by (apply of_Z_amount; lia).
  pose proof (of_Z_error (as_secs d) ltac:(lia)) as Hse. pose proof one_unit_pos as Hone.
  unfold nanos_per_sec, u64_modulus in *.
  assert (Hsum : value (of_Z (as_secs d)) + value (nanos_part d) <= 2 ^ 65 * one_unit).
  { assert (2 ^ 53 <= one_unit) by (apply Z.pow_le_mono_r; lia). nia. }
  assert (Hf : amount (as_secs_f64 d)).
  { apply f64_add_finite; try done. etransitivity; [exact Hsum|]. unfold one_unit.
    rewrite <-Z.pow_add_r by lia. apply Z.pow_le_mono_r; lia. }
  pose proof (f64_add_error _ _ Ha Hp (proj2 (proj2 Hf))) as Hadd.
  fold (nanos_part d) in Hadd. change (f64_add _ _) with (as_secs_f64 d) in Hadd.
  split; [done|]. split; [lia|].
  rewrite Hdm at 2. nia.
Qed.

Lemma as_secs_lower s d :
  0 <= s <= 2 ^ 53 -> is_duration d -> from_secs s <= d ->
  s * one_unit <= value (as_secs_f64 d).
Proof.
  intros Hs Hd Hle. destruct (as_secs_error d Hd) as ((_ & _ & Hf) & _).
  unfold is_duration in Hd.
  assert (Has : 0 <= as_secs d < u64_modulus).
  { unfold as_secs. split; [apply Z.div_pos; [lia|done]|]. apply Z.div_lt_upper_bound; [done|lia]. }
  assert (Hss : s <= as_secs d) by (apply Z.div_le_lower_bound; [done|]; unfold from_secs in Hle; lia).
  destruct (of_Z_value s Hs) as [_ Hv]. rewrite <-Hv. pose proof one_unit_pos as Hone.
  assert (Hsa : amount (of_Z s)) by (apply of_Z_amount; unfold u64_modulus; lia).
  assert (Ha : amount (of_Z (as_secs d))) by (apply of_Z_amount; lia).
  destruct (nanos_part_error d) as [Hp _].
  apply f64_add_lower; try done. fold (nanos_part d).
  enough (value (of_Z s) <= value (of_Z (as_secs d))) by (pose proof (value_nonneg _ (proj1 Hp)); lia).
  destruct (decide (s = 0)) as [->|]; [apply value_nonneg, Ha|].
  destruct (of_Z_pos s) as (m & e & Em & V & _ & Hu); [lia|]. rewrite Em.
  apply binary_normalize_lower; [lia|lia|done| |apply Ha].
  rewrite Hu, units_zero. nia.
Qed.
