(* ===== verification/RoundRobin.v ===== *)
(** * Round-robin counters

    The load balancer (src/src/transport.rs) and the proxy service
    (src/src/service.rs) both choose an index as an atomic 64-bit counter modulo
    the number of candidates. The lemmas here are shared by their theorems. *)

From stdpp Require Import prelude.
From S2P Require Import Prelude.
Open Scope Z_scope.

(** [v[i]] panics out of range. *)
Definition index {A} (l : list A) (i : Z) : outcome A :=
  match l !! Z.to_nat i with Some x => Returns x | None => Panics end.

(** [counter.fetch_add(1) % len]: the index and the next counter. *)
Definition fetch_index (counter len : Z) : Z * Z := (counter mod len, u64_add counter 1).

(** [k] consecutive indices. *)
Fixpoint indices (k : nat) (counter len : Z) : list Z * Z :=
  match k with
  | O => ([], counter)
  | S k =>
      let '(i, counter) := fetch_index counter len in
      let '(js, counter) := indices k counter len in
      (i :: js, counter)
  end.

Lemma index_in {A} (l : list A) i :
  0 <= i < Z.of_nat (length l) -> exists x, index l i = Returns x /\ l !! Z.to_nat i = Some x.
Proof.
  intros Hi. destruct (lookup_lt_is_Some_2 l (Z.to_nat i)) as [x Hx]; [lia|].
  exists x. unfold index. by rewrite Hx.
Qed.

Lemma fetch_index_range counter len : 0 < len -> 0 <= (fetch_index counter len).1 < len.
Proof. intros. by apply Z.mod_pos_bound. Qed.

(** Until the counter wraps, the indices are consecutive residues. *)
Lemma indices_no_wrap k counter len :
  0 <= counter -> counter + Z.of_nat k <= u64_modulus ->
  (indices k counter len).1 = (fun j => j mod len) <$> seqZ counter (Z.of_nat k) /\
  (indices k counter len).2 = wrap64 (counter + Z.of_nat k) \/ k = 0%nat.
Proof.
  revert counter. induction k as [|k IH]; intros counter Hc Hk; [by right|left]. cbn [indices fetch_index].
  rewrite seqZ_cons by lia. replace (Z.pred (Z.of_nat (S k))) with (Z.of_nat k) by lia.
  rewrite fmap_cons. destruct k as [|k].
  { simpl. split; [done|]. by replace (counter + Z.of_nat 1) with (counter + 1) by lia. }
  assert (Hone : u64_add counter 1 = counter + 1) by (apply u64_add_small; words).
  rewrite Hone. destruct (IH (counter + 1)) as [[H1 H2]|]; [lia|lia| |done].
  destruct (indices (S k) (counter + 1) len) as [js c']. simpl in H1, H2. subst. simpl.
  split; [by rewrite Z.add_1_r|]. f_equal. lia.
Qed.

(** A window of [len] consecutive integers meets every residue once. *)
Lemma window_once len i c :
  0 < len -> 0 <= i < len -> 0 <= c ->
  count_if (fun j => j mod len =? i) (seqZ c len) = 1.
Proof.
  intros Hl Hi. revert c. apply (natlike_ind (fun c => count_if (fun j => j mod len =? i) (seqZ c len) = 1)).
  - replace (seqZ 0 len) with (seqZ 0 (i + (len - i))) by (f_equal; lia).
    rewrite seqZ_app by lia. rewrite count_if_app, Z.add_0_l.
    rewrite (seqZ_cons i) by lia. rewrite count_if_cons.
    assert (H0 : forall a n, 0 <= a -> a + n <= len -> (a + n <= i \/ i < a) ->
      count_if (fun j => j mod len =? i) (seqZ a n) = 0).
    { intros a n Ha Hn Hd. apply count_if_none. intros x Hx%elem_of_seqZ. apply Z.eqb_neq.
      rewrite Z.mod_small by lia. lia. }
    rewrite !H0 by lia. rewrite Z.mod_small, Z.eqb_refl by lia. done.
  - intros c Hc IH.
    assert (Hs : (seqZ c len ++ [c + len])%list = c :: seqZ (Z.succ c) len).
    { replace [c + len] with (seqZ (c + len) 1) by done. rewrite <-seqZ_app by lia.
      rewrite seqZ_cons by lia. do 2 f_equal. lia. }
    apply (f_equal (count_if (fun j => j mod len =? i))) in Hs.
    rewrite count_if_app, !count_if_cons, IH in Hs. unfold count_if at 1 in Hs. simpl in Hs.
    assert (Hm : (c + len) mod len = c mod len) by (by rewrite <-(Z.mod_add c 1 len), Z.mul_1_l by lia).
    rewrite Hm in Hs.
    lia.
Qed.

(** [m] full turns meet every residue [m] times. *)
Lemma window_turns len i c m :
  0 < len -> 0 <= i < len -> 0 <= c ->
  count_if (fun j => j mod len =? i) (seqZ c (Z.of_nat m * len)) = Z.of_nat m.
Proof.
  intros Hl Hi. revert c. induction m as [|m IH]; intros c Hc; [done|].
  replace (Z.of_nat (S m) * len) with (len + Z.of_nat m * len) by lia.
  rewrite seqZ_app, count_if_app, window_once, IH by lia. lia.
Qed.

Lemma count_if_fmap {A B} (f : B -> bool) (g : A -> B) l :
  count_if f (g <$> l) = count_if (fun x => f (g x)) l.
Proof. induction l as [|x l IH]; [done|]. rewrite fmap_cons, !count_if_cons, IH. done. Qed.

(** Fairness: before the counter wraps, [m] full turns choose each index [m]
    times. *)
Lemma indices_fair m counter len i :
  0 < len -> 0 <= i < len -> 0 <= counter -> counter + Z.of_nat m * len <= u64_modulus ->
  count_if (Z.eqb i) (indices (Z.to_nat (Z.of_nat m * len)) counter len).1 = Z.of_nat m.
Proof.
  intros Hl Hi Hc Hm. set (k := Z.to_nat _). assert (Hk : Z.of_nat k = Z.of_nat m * len) by lia.
  destruct (indices_no_wrap k counter len) as [[-> _]|Hz]; [lia|lia| |].
  - rewrite count_if_fmap, Hk. etrans; [|by apply (window_turns len i counter m)].
    unfold count_if. do 2 f_equal. apply List.filter_ext. intros j. apply Z.eqb_sym.
  - rewrite Hz. unfold count_if. simpl. lia.
Qed.

Lemma count_if_ext_in {A} (f g : A -> bool) l :
  (forall x, x ∈ l -> f x = g x) -> count_if f l = count_if g l.
Proof.
  induction l as [|x l IH]; intros H; [done|]. rewrite !count_if_cons, (H x), IH by set_solver. done.
Qed.

Lemma indices_bound k counter len j :
  0 < len -> j ∈ (indices k counter len).1 -> 0 <= j < len.
Proof.
  intros Hl. revert counter. induction k as [|k IH]; intros counter; [by intros ?%elem_of_nil|].
  cbn [indices fetch_index]. specialize (IH (u64_add counter 1)).
  destruct (indices k (u64_add counter 1) len) as [js c']. simpl in *.
  intros [->|Hj]%elem_of_cons; [by apply Z.mod_pos_bound|auto].
Qed.

Lemma indices_snoc k counter len :
  indices (S k) counter len =
  ((indices k counter len).1 ++ [(indices k counter len).2 mod len], u64_add (indices k counter len).2 1).
Proof.
  revert counter. induction k as [|k IH]; intros counter; [done|].
  change (indices (S (S k)) counter len) with
    (let '(js, c) := indices (S k) (u64_add counter 1) len in (counter mod len :: js, c)).
  rewrite IH. cbn [indices fetch_index]. by destruct (indices k (u64_add counter 1) len).
Qed.

(** Balance: before the counter wraps, after any number of draws the indices differ
    by at most one in how often they were drawn. *)
Lemma indices_balanced k counter len i :
  0 < len -> 0 <= i < len -> 0 <= counter -> counter + Z.of_nat k <= u64_modulus ->
  Z.of_nat k / len <= count_if (Z.eqb i) (indices k counter len).1 <= Z.of_nat k / len + 1.
Proof.
  intros Hl Hi Hc Hk. destruct (indices_no_wrap k counter len) as [[-> _]|Hz]; [lia|lia| |].
  2:{ subst k. change (Z.of_nat 0) with 0. rewrite Z.div_0_l by lia. unfold count_if. simpl. lia. }
  pose proof (Z.div_pos (Z.of_nat k) len ltac:(lia) Hl). pose proof (Z.mod_pos_bound (Z.of_nat k) len Hl).
  pose proof (Z.div_mod (Z.of_nat k) len ltac:(lia)) as Hdm.
  set (q := Z.of_nat k / len) in *. set (r := Z.of_nat k mod len) in *.
  rewrite count_if_fmap, Hdm. rewrite seqZ_app by lia. rewrite count_if_app.
  assert (Hsym : forall l, count_if (fun x => i =? x mod len) l = count_if (fun x => x mod len =? i) l).
  { intros l. unfold count_if. do 2 f_equal. apply List.filter_ext. intros j. apply Z.eqb_sym. }
  rewrite !Hsym. replace (len * q) with (Z.of_nat (Z.to_nat q) * len) by lia.
  rewrite (window_turns len i) by lia.
  set (a := counter + _). pose proof (window_once len i a Hl Hi ltac:(subst a; lia)) as Hw.
  assert (Hs : seqZ a len = (seqZ a r ++ seqZ (a + r) (len - r))%list).
  { rewrite <-seqZ_app by lia. f_equal. lia. }
  rewrite Hs, count_if_app in Hw.
  pose proof (count_if_nonneg (fun x => x mod len =? i) (seqZ a r)).
  pose proof (count_if_nonneg (fun x => x mod len =? i) (seqZ (a + r) (len - r))). lia.
Qed.

(** ** Draws by many tasks *)

(** Tasks draw from [ids] by a shared counter: [given] is what a task has drawn. The
    counter and the draws of each candidate follow the consecutive indices. *)
Section Draws.
Context {A PC : Type} `{EqDecision A} (ids : list A) (c0 : Z) (given : PC -> option A).
Context (Hids : ids <> []) (Hnodup : NoDup ids).
Implicit Types (ps : list PC) (p : PC).

Definition size : Z := Z.of_nat (length ids).
Definition was_given p : bool := is_some (given p).
Definition given_to (a : A) p : bool := bool_decide (given p = Some a).

Definition draws ps : nat := Z.to_nat (count_if was_given ps).

Definition drawn (counter : Z) ps : Prop :=
  counter = (indices (draws ps) c0 size).2 /\
  forall x a, ids !! x = Some a ->
    count_if (given_to a) ps = count_if (Z.eqb (Z.of_nat x)) (indices (draws ps) c0 size).1.

(** A draw, or no draw. *)
Definition draw (counter : Z) p (counter' : Z) p' : Prop :=
  (given p' = given p /\ counter' = counter) \/
  exists a, given p = None /\ given p' = Some a /\ ids !! Z.to_nat (counter mod size) = Some a /\
    counter' = u64_add counter 1.

Lemma size_pos : 0 < size.
Proof using Hids. unfold size. pose proof (proj1 (List.length_zero_iff_nil ids)). destruct (length ids); [tauto|lia]. Qed.

Lemma drawn_nil : drawn c0 [].
Proof. by split. Qed.

Lemma drawn_snoc counter ps p : given p = None -> drawn counter ps -> drawn counter (ps ++ [p]).
Proof.
  intros Hp [Hc Hn]. assert (Hd : draws (ps ++ [p]) = draws ps).
  { unfold draws. rewrite count_if_snoc. unfold was_given at 2. rewrite Hp. simpl. f_equal. lia. }
  split; rewrite Hd; [done|]. intros x a Hx. rewrite count_if_snoc, <-(Hn x a Hx). unfold given_to at 2.
  rewrite Hp, bool_decide_false by done. simpl. lia.
Qed.

Lemma drawn_insert counter counter' ps i p p' :
  ps !! i = Some p -> draw counter p counter' p' -> drawn counter ps -> drawn counter' (<[i := p']> ps).
Proof.
  intros Hi Hg [Hc Hn]. pose proof (count_if_nonneg was_given ps) as Hpos.
  assert (Hk : draws (<[i := p']> ps) = if decide (given p' = given p) then draws ps else S (draws ps)).
  { unfold draws. rewrite (count_if_insert _ _ _ _ _ Hi). unfold was_given at 2 3.
    destruct Hg as [[-> _]|(a & -> & -> & _)].
    - rewrite decide_True by done. f_equal. lia.
    - rewrite decide_False by done. cbn [is_some Z.b2z]. lia. }
  unfold drawn. rewrite Hk. clear Hk. destruct Hg as [[Hg ->]|(a & Hg & Hg' & Hlk & ->)].
  - rewrite decide_True by done. split; [done|]. intros x b Hx.
    rewrite (count_if_insert _ _ _ _ _ Hi), <-(Hn x b Hx). unfold given_to. rewrite Hg. lia.
  - rewrite decide_False by congruence. rewrite indices_snoc. cbn [fst snd]. rewrite <-Hc. split; [done|].
    intros x b Hx. rewrite (count_if_insert _ _ _ _ _ Hi), (Hn x b Hx), count_if_snoc. unfold given_to. rewrite Hg, Hg'.
    assert (Heq : bool_decide (Some a = Some b) = (Z.of_nat x =? counter mod size)).
    { pose proof (Z.mod_pos_bound counter size size_pos) as Hm.
      apply Bool.eq_iff_eq_true. rewrite bool_decide_eq_true, Z.eqb_eq. split.
      - intros [= ->]. pose proof (NoDup_lookup _ _ _ _ Hnodup Hlk Hx). lia.
      - intros Hx'. rewrite <-Hx', Nat2Z.id in Hlk. congruence. }
    rewrite Heq, bool_decide_false by done. cbn [Z.b2z]. lia.
Qed.

(** Any two candidates have been drawn equally often, up to one. *)
Lemma drawn_balanced counter ps a :
  drawn counter ps -> 0 <= c0 -> c0 + Z.of_nat (length ps) <= u64_modulus -> a ∈ ids ->
  let share := count_if was_given ps / size in
  share <= count_if (given_to a) ps <= share + 1.
Proof.
  intros [_ Hn] H0 Hw [x Hx]%list_elem_of_lookup share. rewrite (Hn x a Hx).
  pose proof (count_if_le_length was_given ps). pose proof (count_if_nonneg was_given ps).
  pose proof (lookup_lt_Some _ _ _ Hx).
  subst share. rewrite <-(Z2Nat.id (count_if was_given ps)) at 1 2 by done. unfold draws.
  apply indices_balanced; unfold size; lia.
Qed.

End Draws.
