(* ===== verification/Http.v ===== *)
(** * The interface of the HTTP library

    Header maps, header values and methods come from the [http] crate, which is
    not part of the repository. What the program uses of them is collected in
    classes, with the documented behaviour it relies on; an association-list
    instance shows that the interface can be met. *)

From Stdlib Require Import Ascii String.
From stdpp Require Import prelude strings.
From S2P Require Import Prelude RustStr.
Open Scope string_scope.

(** [HeaderMap::get], [HeaderMap::contains_key], [HeaderValue::to_str] (which
    fails on a value that is not visible ASCII) and [HeaderValue == str]. *)
Class HttpHeaders : Type := {
  HeaderMap : Type;
  HeaderValue : Type;
  hdr_get : HeaderMap -> string -> option HeaderValue;
  hdr_contains_key : HeaderMap -> string -> bool;
  to_str : HeaderValue -> option string;
  value_eq_str : HeaderValue -> string -> bool
}.

Class HttpHeadersLaws (HH : HttpHeaders) : Prop := {
  contains_key_get : forall h n, hdr_contains_key h n = is_some (hdr_get h n);
  value_eq_to_str : forall v t s, to_str v = Some t -> value_eq_str v s = String.eqb t s
}.

(** [http::Method] with its standard constants and its equality. *)
Class HttpMethods : Type := {
  Method : Type;
  method_eqb : Method -> Method -> bool;
  GET : Method;
  POST : Method;
  PUT : Method;
  DELETE : Method;
  PATCH : Method;
  HEAD : Method;
  OPTIONS : Method
}.

Class HttpMethodsLaws (HM : HttpMethods) : Prop := {
  method_eqb_eq : forall a b, method_eqb a b = true <-> a = b;
  methods_distinct : NoDup [GET; POST; PUT; DELETE; PATCH; HEAD; OPTIONS]
}.

(** ** An instance *)

Definition assoc_get (h : list (string * string)) (n : string) : option string :=
  snd <$> List.find (fun p => String.eqb (fst p) (ascii_lowercase n)) h.

Definition visible_ascii (s : string) : bool :=
  forallb (fun a => let n := nat_of_ascii a in (n =? 9)%nat || ((32 <=? n) && (n <? 127))%nat)
    (list_ascii_of_string s).

Definition assoc_headers : HttpHeaders := {|
  HeaderMap := list (string * string);
  HeaderValue := string;
  hdr_get := assoc_get;
  hdr_contains_key h n := is_some (assoc_get h n);
  to_str v := if visible_ascii v then Some v else None;
  value_eq_str := String.eqb
|}.

Lemma assoc_headers_laws : HttpHeadersLaws assoc_headers.
Proof. split; [done|]. simpl. intros v t s. by case_match; intros; simplify_eq. Qed.

Definition string_methods : HttpMethods := {|
  Method := string;
  method_eqb := String.eqb;
  GET := "GET"; POST := "POST"; PUT := "PUT"; DELETE := "DELETE";
  PATCH := "PATCH"; HEAD := "HEAD"; OPTIONS := "OPTIONS"
|}.

Lemma string_methods_laws : HttpMethodsLaws string_methods.
Proof. split; [apply String.eqb_eq|]. simpl. by apply (bool_decide_unpack _). Qed.
