(* ===== verification/Errors.v ===== *)
(** * Errors of the proxy (src/src/error.rs)

    The error type, its conversions and its messages. The foreign error types are
    arguments, with their [Display]. *)

From Stdlib Require Import Ascii String.
From stdpp Require Import prelude strings pretty.
From S2P Require Import Prelude.
Open Scope string_scope.
Open Scope Z_scope.

(** [std::io::Error], [hyper::Error] and [hyper::http::Error]. *)
Class ForeignErrors : Type := {
  IoError : Type;
  HyperError : Type;
  HttpError : Type;
  io_to_string : IoError -> string;
  hyper_to_string : HyperError -> string;
  http_to_string : HttpError -> string
}.

Definition string_errors : ForeignErrors := {|
  IoError := string; HyperError := string; HttpError := string;
  io_to_string s := s; hyper_to_string s := s; http_to_string s := s
|}.

Section Errors.
Context {FE : ForeignErrors}.

Inductive ProxyError : Type :=
| ListenerBind (addr : string) (source : IoError)
| AcceptConnection (source : IoError)
| UpstreamConnect (addr : string) (source : IoError)
| Http (source : HyperError)
| H2 (source : HttpError)
| Io (source : IoError)
| NoUpstream
| ServiceUnavailable (message : string)
| TlsConfigError (message : string)
| TlsHandshake (message : string)
| ProtocolNegotiation (message : string)
| RateLimitExceeded
| CircuitBreakerOpen (upstream : string)
| Timeout (duration_ms : Z)
| RetryExhausted (attempts : Z)
| InvalidConfig (message : string)
| RouteNotFound (path : string)
| Grpc (code : Z) (message : string).

(** [Display]. *)
Definition error_message (e : ProxyError) : string :=
  match e with
  | ListenerBind addr source => "failed to bind listener to " +:+ addr +:+ ": " +:+ io_to_string source
  | AcceptConnection source => "failed to accept connection: " +:+ io_to_string source
  | UpstreamConnect addr source => "failed to connect to upstream " +:+ addr +:+ ": " +:+ io_to_string source
  | Http source => "http error: " +:+ hyper_to_string source
  | H2 source => "http/2 error: " +:+ http_to_string source
  | Io source => "io error: " +:+ io_to_string source
  | NoUpstream => "no upstream servers available"
  | ServiceUnavailable m => "service unavailable: " +:+ m
  | TlsConfigError m => "TLS configuration error: " +:+ m
  | TlsHandshake m => "TLS handshake failed: " +:+ m
  | ProtocolNegotiation m => "protocol negotiation failed: " +:+ m
  | RateLimitExceeded => "rate limit exceeded"
  | CircuitBreakerOpen upstream => "circuit breaker is open for upstream: " +:+ upstream
  | Timeout ms => "request timed out after " +:+ pretty ms +:+ "ms"
  | RetryExhausted attempts => "all " +:+ pretty attempts +:+ " retry attempts exhausted"
  | InvalidConfig m => "invalid configuration: " +:+ m
  | RouteNotFound path => "no route found for path: " +:+ path
  | Grpc code m => "gRPC error: " +:+ m +:+ " (code: " +:+ pretty code +:+ ")"
  end.

End Errors.

(** [Result<T>] of the crate. *)
Definition proxy_result {FE : ForeignErrors} (T : Type) : Type := result T ProxyError.
