(* ===== verification/Breaker.v ===== *)
(** * Circuit breaker (src/src/circuit_breaker.rs)

    Module [CircuitBreaker] translates the state machine of one breaker, each
    call taken as one step; [BreakerInterleaving.v] splits the calls at their
    [await] points and atomics. Module [BreakerSpec] is the abstract
    Hystrix-style automaton the breaker implements. *)

From stdpp Require Import prelude.
From S2P Require Import Prelude.

(** Circuit breaker state. *)
Inductive State : Type :=
| Closed
| Open
| HalfOpen.

#[export] Instance State_eq_dec : EqDecision State.
Proof. solve_decision. Defined.

Record CircuitBreakerConfig : Type := mkCircuitBreakerConfig {
  failure_threshold : Z;
  timeout : Duration;
  success_threshold : Z
}.

Definition default_config : CircuitBreakerConfig :=
  {| failure_threshold := 5; timeout := from_secs 30; success_threshold := 2 |}.

Record CircuitBreakerStats : Type := mkCircuitBreakerStats {
  stat_total_requests : Z;
  stat_total_failures : Z;
  current_failure_count : Z;
  current_success_count : Z
}.

Module CircuitBreaker.

Record breaker : Type := mk {
  cb_state : State;
  failure_count : Z;
  success_count : Z;
  last_failure_time : option Instant;
  config : CircuitBreakerConfig;
  total_requests : Z;
  total_failures : Z
}.

(** The stores of the shared cells: one per lock or atomic. *)
Definition write_state (s : State) (cb : breaker) : breaker :=
  mk s (failure_count cb) (success_count cb) (last_failure_time cb) (config cb)
     (total_requests cb) (total_failures cb).
Definition store_failure_count (n : Z) (cb : breaker) : breaker :=
  mk (cb_state cb) n (success_count cb) (last_failure_time cb) (config cb)
     (total_requests cb) (total_failures cb).
Definition store_success_count (n : Z) (cb : breaker) : breaker :=
  mk (cb_state cb) (failure_count cb) n (last_failure_time cb) (config cb)
     (total_requests cb) (total_failures cb).
Definition write_last_failure_time (t : option Instant) (cb : breaker) : breaker :=
  mk (cb_state cb) (failure_count cb) (success_count cb) t (config cb)
     (total_requests cb) (total_failures cb).
Definition incr_total_requests (cb : breaker) : breaker :=
  mk (cb_state cb) (failure_count cb) (success_count cb) (last_failure_time cb) (config cb)
     (u64_add (total_requests cb) 1) (total_failures cb).
Definition incr_total_failures (cb : breaker) : breaker :=
  mk (cb_state cb) (failure_count cb) (success_count cb) (last_failure_time cb) (config cb)
     (total_requests cb) (u64_add (total_failures cb) 1).

Definition new (config : CircuitBreakerConfig) : breaker :=
  mk Closed 0 0 None config 0 0.

Definition allow_request (now : Instant) (cb : breaker) : bool * breaker :=
  let cb := incr_total_requests cb in
  match cb_state cb with
  | Closed => (true, cb)
  | Open =>
      match last_failure_time cb with
      | Some last_time =>
          if timeout (config cb) <=? elapsed now last_time then
            (true, store_success_count 0 (write_state HalfOpen cb))
          else (false, cb)
      | None => (false, cb)
      end
  | HalfOpen => (true, cb)
  end.

Definition record_success (cb : breaker) : breaker :=
  match cb_state cb with
  | HalfOpen =>
      let successes := u64_add (success_count cb) 1 in
      let cb := store_success_count successes cb in
      if success_threshold (config cb) <=? successes then
        store_success_count 0 (store_failure_count 0 (write_state Closed cb))
      else cb
  | Closed => store_failure_count 0 cb
  | Open => cb
  end.

Definition record_failure (now : Instant) (cb : breaker) : breaker :=
  let cb := incr_total_failures cb in
  match cb_state cb with
  | Closed =>
      let failures := u64_add (failure_count cb) 1 in
      let cb := store_failure_count failures cb in
      if failure_threshold (config cb) <=? failures then
        write_last_failure_time (Some now) (write_state Open cb)
      else cb
  | HalfOpen =>
      store_success_count 0
        (store_failure_count 0
           (write_last_failure_time (Some now) (write_state Open cb)))
  | Open => write_last_failure_time (Some now) cb
  end.

Definition state (cb : breaker) : State := cb_state cb.

Definition stats (cb : breaker) : CircuitBreakerStats :=
  {| stat_total_requests := total_requests cb;
     stat_total_failures := total_failures cb;
     current_failure_count := failure_count cb;
     current_success_count := success_count cb |}.

Definition reset (cb : breaker) : breaker :=
  write_last_failure_time None
    (store_success_count 0 (store_failure_count 0 (write_state Closed cb))).

(** ** Histories of calls *)

(** A call a client makes, with the clock reading of the calls that take one. *)
Inductive call : Type :=
| Allow (now : Instant)
| Success
| Failure (now : Instant)
| Reset.

(** One call: its answer, when it has one, and the next breaker. *)
Definition exec (c : call) (cb : breaker) : option bool * breaker :=
  match c with
  | Allow now => let '(b, cb') := allow_request now cb in (Some b, cb')
  | Success => (None, record_success cb)
  | Failure now => (None, record_failure now cb)
  | Reset => (None, reset cb)
  end.

(** The answers of a history, in order, and the breaker it leaves. *)
Fixpoint run (cs : list call) (cb : breaker) : list bool * breaker :=
  match cs with
  | [] => ([], cb)
  | c :: cs =>
      let '(o, cb) := exec c cb in
      let '(os, cb) := run cs cb in
      (match o with Some b => b :: os | None => os end, cb)
  end.

(** The thresholds and counters fit their types, and every state keeps the
    counter it watches below its threshold: no counter can overflow. *)
Definition config_ok (c : CircuitBreakerConfig) : Prop :=
  is_u64 (failure_threshold c) /\ is_u64 (success_threshold c) /\ 0 <= timeout c.

Definition wf (cb : breaker) : Prop :=
  config_ok (config cb) /\
  is_u64 (total_requests cb) /\ is_u64 (total_failures cb) /\
  match cb_state cb with
  | Closed => 0 <= failure_count cb < Z.max 1 (failure_threshold (config cb))
  | Open => last_failure_time cb <> None
  | HalfOpen => 0 <= success_count cb < Z.max 1 (success_threshold (config cb))
  end /\
  0 <= failure_count cb <= Z.max 1 (failure_threshold (config cb)) /\
  0 <= success_count cb <= Z.max 1 (success_threshold (config cb)).

End CircuitBreaker.

(** ** The abstract automaton *)

Module BreakerSpec.

(** Serving after [failures] consecutive failures, tripped since an instant,
    or probing after [successes] successes. *)
Inductive phase : Type :=
| Serving (failures : Z)
| Tripped (since : Instant)
| Probing (successes : Z).

Section Automaton.
Context (conf : CircuitBreakerConfig).

Definition step (c : CircuitBreaker.call) (p : phase) : option bool * phase :=
  match c, p with
  | CircuitBreaker.Allow now, Tripped since =>
      if decide (0 < timeout conf /\ now < since + timeout conf) then (Some false, p)
      else (Some true, Probing 0)
  | CircuitBreaker.Allow _, _ => (Some true, p)
  | CircuitBreaker.Success, Serving _ => (None, Serving 0)
  | CircuitBreaker.Success, Probing k =>
      (None, if decide (k + 1 < success_threshold conf) then Probing (k + 1) else Serving 0)
  | CircuitBreaker.Success, Tripped _ => (None, p)
  | CircuitBreaker.Failure now, Serving n =>
      (None, if decide (n + 1 < failure_threshold conf) then Serving (n + 1) else Tripped now)
  | CircuitBreaker.Failure now, _ => (None, Tripped now)
  | CircuitBreaker.Reset, _ => (None, Serving 0)
  end.

Fixpoint run (cs : list CircuitBreaker.call) (p : phase) : list bool * phase :=
  match cs with
  | [] => ([], p)
  | c :: cs =>
      let '(o, p) := step c p in
      let '(os, p) := run cs p in
      (match o with Some b => b :: os | None => os end, p)
  end.
End Automaton.

(** The abstraction: which phase a breaker is in. *)
Definition phase_of (cb : CircuitBreaker.breaker) : phase :=
  match CircuitBreaker.cb_state cb with
  | Closed => Serving (CircuitBreaker.failure_count cb)
  | Open => Tripped (default 0 (CircuitBreaker.last_failure_time cb))
  | HalfOpen => Probing (CircuitBreaker.success_count cb)
  end.

(** The state a phase is in. *)
Definition state_of (p : phase) : State :=
  match p with
  | Serving _ => Closed
  | Tripped _ => Open
  | Probing _ => HalfOpen
  end.

End BreakerSpec.

Import CircuitBreaker.

(** ** Lemmas of the component *)

Lemma new_wf c : config_ok c -> wf (new c).
Proof. intros Hc. unfold wf; simpl. repeat split; try apply Hc; words. Qed.

(** Case analysis on the state a call starts from. *)
Ltac breaker_cases cb :=
  destruct cb as [[] fc sc lft cf tr tf];
  unfold wf, exec, allow_request, record_success, record_failure in *; simpl in *.

(** Every call keeps the configuration. *)
Lemma exec_config c cb : config (exec c cb).2 = config cb.
Proof.
  destruct c; breaker_cases cb; split_match; done.
Qed.

Lemma exec_wf c cb : wf cb -> wf (exec c cb).2.
Proof.
  intros (Hc & Htr & Htf & Hst & Hfc & Hsc).
  assert (Hconf := Hc). destruct Hconf as (? & ? & ?).
  destruct c; breaker_cases cb; split_match; simpl in *; reflect_bools;
    words_small; split_and!; auto with mesh; words.
Qed.

(** One step of the refinement. *)
Lemma exec_refines c cb :
  wf cb ->
  (exec c cb).1 = (BreakerSpec.step (config cb) c (BreakerSpec.phase_of cb)).1 /\
  BreakerSpec.phase_of (exec c cb).2 = (BreakerSpec.step (config cb) c (BreakerSpec.phase_of cb)).2.
Proof.
  intros (Hc & Htr & Htf & Hst & Hfc & Hsc). destruct Hc as (? & ? & ?).
  unfold BreakerSpec.phase_of, BreakerSpec.step, elapsed, duration_since.
  destruct c; breaker_cases cb; unfold elapsed, duration_since; simpl; split_match;
    reflect_bools; words_small; split_and?; try done; words.
Qed.

#[export] Hint Resolve new_wf exec_wf : mesh.

Lemma run_cons c cs cb :
  run (c :: cs) cb =
  let r := run cs (exec c cb).2 in
  (match (exec c cb).1 with Some b => b :: r.1 | None => r.1 end, r.2).
Proof. simpl. destruct (exec c cb) as [o cb']. simpl. by destruct (run cs cb'). Qed.

Lemma spec_run_cons conf c cs p :
  BreakerSpec.run conf (c :: cs) p =
  let s := BreakerSpec.step conf c p in
  let r := BreakerSpec.run conf cs s.2 in
  (match s.1 with Some b => b :: r.1 | None => r.1 end, r.2).
Proof.
  simpl. destruct (BreakerSpec.step conf c p) as [o p']. simpl.
  by destruct (BreakerSpec.run conf cs p').
Qed.

Lemma run_app cs cs' cb :
  run (cs ++ cs') cb =
  ((run cs cb).1 ++ (run cs' (run cs cb).2).1, (run cs' (run cs cb).2).2).
Proof.
  revert cb. induction cs as [|c cs IH]; intros cb; [by apply surjective_pairing|].
  rewrite <-app_comm_cons, !run_cons. rewrite IH. simpl.
  destruct (exec c cb) as [[]]; done.
Qed.

Lemma run_config cs cb : config (run cs cb).2 = config cb.
Proof.
  revert cb. induction cs as [|c cs IH]; intros cb; [done|].
  rewrite run_cons. simpl. rewrite IH. apply exec_config.
Qed.

Lemma run_wf cs cb : wf cb -> wf (run cs cb).2.
Proof.
  revert cb. induction cs as [|c cs IH]; intros cb Hwf; [done|].
  rewrite run_cons. apply IH. by apply exec_wf.
Qed.

Lemma run_refines cs cb :
  wf cb ->
  (run cs cb).1 = (BreakerSpec.run (config cb) cs (BreakerSpec.phase_of cb)).1 /\
  BreakerSpec.phase_of (run cs cb).2 = (BreakerSpec.run (config cb) cs (BreakerSpec.phase_of cb)).2.
Proof.
  revert cb. induction cs as [|c cs IH]; intros cb Hwf; [done|].
  destruct (exec_refines c cb Hwf) as [Hout Hph].
  destruct (IH (exec c cb).2 (exec_wf c cb Hwf)) as [IHout IHph].
  rewrite run_cons, spec_run_cons. simpl.
  rewrite exec_config, Hph in IHout, IHph. rewrite Hout, IHout, IHph. done.
Qed.

(** Reading the state off the phase. *)
Lemma phase_of_state cb : state cb = BreakerSpec.state_of (BreakerSpec.phase_of cb).
Proof. unfold state, BreakerSpec.phase_of. by destruct (cb_state cb). Qed.

(** ** Histories of the automaton *)

Section SpecHistories.
Context (conf : CircuitBreakerConfig).

Lemma spec_failures_tripped nows t :
  exists t', (BreakerSpec.run conf (map Failure nows) (BreakerSpec.Tripped t)).2
             = BreakerSpec.Tripped t'.
Proof.
  revert t. induction nows as [|now nows IH]; intros t; [by eexists|].
  simpl map. rewrite spec_run_cons. apply IH.
Qed.

Lemma spec_failures nows n :
  let p := (BreakerSpec.run conf (map Failure nows) (BreakerSpec.Serving n)).2 in
  if decide (nows = [] \/ n + Z.of_nat (length nows) < failure_threshold conf)
  then p = BreakerSpec.Serving (n + Z.of_nat (length nows))
  else exists t, p = BreakerSpec.Tripped t.
Proof.
  revert n. induction nows as [|now nows IH]; intros n; simpl map.
  - rewrite decide_True by auto. simpl. f_equal. lia.
  - rewrite spec_run_cons. simpl BreakerSpec.step. cbn zeta. simpl snd.
    destruct (decide (n + 1 < failure_threshold conf)) as [Hlt|Hge].
    + specialize (IH (n + 1)). cbn zeta in IH. simpl length.
      repeat case_decide; try (rewrite IH; f_equal; lia); try done;
        destruct nows; absurd_case.
    + rewrite decide_False by (simpl; intuition (congruence || lia)).
      apply spec_failures_tripped.
Qed.

Lemma spec_successes_serving m n :
  (BreakerSpec.run conf (repeat Success n) (BreakerSpec.Serving m)).2 =
  if decide (n = 0%nat) then BreakerSpec.Serving m else BreakerSpec.Serving 0.
Proof.
  revert m. induction n as [|n IH]; intros m; [done|].
  simpl repeat. rewrite spec_run_cons. simpl. rewrite IH. by case_decide.
Qed.

Lemma spec_successes n k :
  (BreakerSpec.run conf (repeat Success n) (BreakerSpec.Probing k)).2 =
  if decide (n = 0%nat \/ k + Z.of_nat n < success_threshold conf)
  then BreakerSpec.Probing (k + Z.of_nat n) else BreakerSpec.Serving 0.
Proof.
  revert k. induction n as [|n IH]; intros k.
  - rewrite decide_True by auto. simpl. f_equal. lia.
  - simpl repeat. rewrite spec_run_cons. simpl BreakerSpec.step. cbn zeta. simpl snd.
    destruct (decide (k + 1 < success_threshold conf)) as [Hlt|Hge].
    + rewrite IH. repeat case_decide; try done; try (f_equal; lia); absurd_case.
    + rewrite spec_successes_serving. repeat case_decide; try done; absurd_case.
Qed.
End SpecHistories.

(** The calls that leave a breaker tripped at [since] closed to traffic. *)
Definition quiet (deadline since : Instant) (c : call) : Prop :=
  match c with
  | Allow now => now < deadline
  | Success => True
  | Failure now => since <= now
  | Reset => False
  end.

(** The breaker is open and its last recorded failure is no older than [since]. *)
Definition tripped_since (since : Instant) (cb : breaker) : Prop :=
  state cb = Open /\ exists s, last_failure_time cb = Some s /\ since <= s.

Lemma exec_quiet c cb since :
  tripped_since since cb -> 0 < timeout (config cb) ->
  quiet (since + timeout (config cb)) since c ->
  (exec c cb).1 = (match c with Allow _ => Some false | _ => None end) /\
  tripped_since since (exec c cb).2.
Proof.
  unfold tripped_since, state. intros (Hst & s & Hs & Hle) Hto Hq.
  destruct cb as [st fc sc lft cf tr tf]; simpl in *; subst.
  destruct c; simpl in *; try done; eauto 6.
  unfold allow_request, elapsed, duration_since; simpl. split_match; try bools; eauto 6.
Qed.

Definition is_allow (c : call) : bool := match c with Allow _ => true | _ => false end.
Definition is_failure (c : call) : bool := match c with Failure _ => true | _ => false end.

Lemma exec_counts c cb :
  total_requests (exec c cb).2 =
    (if is_allow c then u64_add (total_requests cb) 1 else total_requests cb) /\
  total_failures (exec c cb).2 =
    (if is_failure c then u64_add (total_failures cb) 1 else total_failures cb).
Proof. destruct c; breaker_cases cb; split_match; done. Qed.

Lemma run_counts cs cb :
  is_u64 (total_requests cb) -> is_u64 (total_failures cb) ->
  total_requests (run cs cb).2 = u64_add (total_requests cb) (count_if is_allow cs) /\
  total_failures (run cs cb).2 = u64_add (total_failures cb) (count_if is_failure cs).
Proof.
  revert cb. induction cs as [|c cs IH]; intros cb Hr Hf.
  - simpl. unfold count_if; simpl. rewrite !u64_add_small; words.
  - rewrite run_cons. simpl. destruct (exec_counts c cb) as [Er Ef].
    specialize (IH (exec c cb).2). rewrite Er, Ef in IH.
    destruct (IH ltac:(destruct (is_allow c); auto with mesh)
                 ltac:(destruct (is_failure c); auto with mesh)) as [-> ->].
    unfold u64_add. rewrite !count_if_cons.
    destruct (is_allow c), (is_failure c); simpl; rewrite ?wrap64_add_l;
      split; f_equal; lia.
Qed.

Lemma run_allows_half_open cb nows :
  state cb = HalfOpen ->
  (run (map Allow nows) cb).1 = repeat true (length nows) /\
  state (run (map Allow nows) cb).2 = HalfOpen.
Proof.
  revert cb. induction nows as [|t nows IH]; intros cb Hst; [done|].
  assert (E : exec (Allow t) cb = (Some true, incr_total_requests cb)).
  { destruct cb; unfold state in Hst; simpl in *; by subst. }
  simpl map. rewrite run_cons, E. cbn [fst snd].
  destruct (IH (incr_total_requests cb) Hst) as [-> Hst']. done.
Qed.

(** ** The properties *)

(** C1. A breaker built from a configuration whose fields fit their types
    answers every history of calls as the abstract automaton does and stays in
    the automaton's phase; neither threshold counter overflows on the way (the totals of
    the statistics may wrap). *)
Theorem breaker_refines_spec (c : CircuitBreakerConfig) (cs : list call) :
  config_ok c ->
  let r := run cs (new c) in
  let s := BreakerSpec.run c cs (BreakerSpec.Serving 0) in
  r.1 = s.1 /\ BreakerSpec.phase_of r.2 = s.2 /\ wf r.2.
Proof.
  intros Hc r s. pose proof (new_wf c Hc) as Hwf.
  destruct (run_refines cs (new c) Hwf). eauto using run_wf.
Qed.

Lemma default_config_ok : config_ok default_config.
Proof. repeat split; vm_compute; congruence. Qed.

Lemma breaker_refines_spec_witness :
  (run [Failure 7; Allow 8] (new default_config)).1 = [true] /\
  wf (run [Failure 7; Allow 8] (new default_config)).2.
Proof.
  destruct (breaker_refines_spec default_config [Failure 7; Allow 8] default_config_ok)
    as (H1 & _ & H3).
  split; [rewrite H1; vm_compute; reflexivity | exact H3].
Defined.

(** While a tripped breaker's timeout has not elapsed, and whatever
    successes and later failures arrive meanwhile, every request is rejected
    and the breaker stays open (unless it is reset by hand). *)
Theorem breaker_rejects_until_timeout (cb : breaker) (since : Instant) (cs : list call) :
  state cb = Open -> last_failure_time cb = Some since -> 0 < timeout (config cb) ->
  Forall (quiet (since + timeout (config cb)) since) cs ->
  (run cs cb).1 = repeat false (length (List.filter is_allow cs)) /\
  state (run cs cb).2 = Open.
Proof.
  intros Hst Hlt Hto Hq.
  assert (Hts : tripped_since since cb) by (unfold tripped_since; eauto with lia).
  enough (Hgen : (run cs cb).1 = repeat false (length (List.filter is_allow cs)) /\
            tripped_since since (run cs cb).2) by (unfold tripped_since in Hgen; tauto).
  clear Hst Hlt. revert cb Hto Hts Hq. induction cs as [|c cs IH]; intros cb Hto Hts Hq; [done|].
  apply Forall_cons in Hq as [Hc Hq].
  destruct (exec_quiet c cb since Hts Hto Hc) as [Hout Hts'].
  rewrite run_cons. simpl. rewrite Hout.
  destruct (IH (exec c cb).2) as [-> ?]; rewrite ?exec_config; auto.
  by destruct c.
Qed.

(** A breaker that has just tripped, as the witnesses below need one. *)
Definition tripped_example : breaker :=
  (run [Failure 1; Failure 2; Failure 3; Failure 4; Failure 5] (new default_config)).2.

Lemma breaker_rejects_until_timeout_witness :
  (run [Allow 9; Failure 10; Success; Allow 30000000004] tripped_example).1 = [false; false].
Proof.
  refine (proj1 (breaker_rejects_until_timeout tripped_example 5
    [Allow 9; Failure 10; Success; Allow 30000000004] eq_refl eq_refl eq_refl _)).
  repeat constructor; vm_compute; congruence.
Defined.

(** A closed breaker trips exactly when its consecutive failures reach the
    threshold (a threshold of 0 acts as 1), never earlier and never later. *)
Theorem breaker_trips_at_threshold (cb : breaker) (nows : list Instant) :
  wf cb -> state cb = Closed -> nows <> [] ->
  state (run (map Failure nows) cb).2 =
  if decide (failure_count cb + Z.of_nat (length nows) < failure_threshold (config cb))
  then Closed else Open.
Proof.
  intros Hwf Hst Hne. rewrite phase_of_state.
  destruct (run_refines (map Failure nows) cb Hwf) as [_ ->].
  assert (Hp : BreakerSpec.phase_of cb = BreakerSpec.Serving (failure_count cb)).
  { unfold BreakerSpec.phase_of. unfold state in Hst. by rewrite Hst. }
  rewrite Hp. pose proof (spec_failures (config cb) nows (failure_count cb)) as Hs.
  cbn zeta in Hs. repeat case_decide; try absurd_case.
  - by rewrite Hs.
  - by destruct Hs as [t ->].
Qed.

Lemma breaker_trips_at_threshold_witness :
  state (run (map Failure [1; 2; 3; 4]) (new default_config)).2 = Closed /\
  state (run (map Failure [1; 2; 3; 4; 5]) (new default_config)).2 = Open.
Proof.
  split; (refine (eq_trans (breaker_trips_at_threshold (new default_config) _
    (new_wf _ default_config_ok) eq_refl _) _); [discriminate|reflexivity]).
Defined.

(** Once the timeout has elapsed the next request is let through as a probe
    and the breaker closes, with its failure count cleared, after exactly
    [success_threshold] successes (at least one); before that it stays
    half-open. So an open breaker recovers whenever its upstream does. *)
Theorem breaker_recovers (cb : breaker) (since now : Instant) (n : nat) :
  wf cb -> state cb = Open -> last_failure_time cb = Some since ->
  timeout (config cb) <= now - since ->
  let r := run (Allow now :: repeat Success n) cb in
  r.1 = [true] /\
  BreakerSpec.phase_of r.2 =
    if decide (n = 0%nat \/ Z.of_nat n < success_threshold (config cb))
    then BreakerSpec.Probing (Z.of_nat n) else BreakerSpec.Serving 0.
Proof.
  intros Hwf Hst Hlt Hto r.
  destruct (run_refines (Allow now :: repeat Success n) cb Hwf) as [Hout Hph].
  assert (Hp : BreakerSpec.phase_of cb = BreakerSpec.Tripped since).
  { unfold BreakerSpec.phase_of. unfold state in Hst. by rewrite Hst, Hlt. }
  subst r. cbn zeta. rewrite Hout, Hph, Hp, spec_run_cons. simpl.
  rewrite decide_False by lia. simpl. rewrite spec_successes. split; [|done].
  f_equal. clear. generalize (BreakerSpec.Probing 0).
  induction n as [|n IH]; intros p; [done|]. simpl repeat. rewrite spec_run_cons. simpl.
  destruct p; simpl; apply IH.
Qed.

Lemma tripped_example_wf : wf tripped_example.
Proof. apply run_wf, new_wf, default_config_ok. Qed.

Lemma breaker_recovers_witness :
  state (run [Allow 40000000000; Success] tripped_example).2 = HalfOpen /\
  state (run [Allow 40000000000; Success; Success] tripped_example).2 = Closed.
Proof.
  split; rewrite phase_of_state.
  - exact (f_equal BreakerSpec.state_of (proj2 (breaker_recovers tripped_example 5 40000000000 1
      tripped_example_wf eq_refl eq_refl ltac:(vm_compute; discriminate)))).
  - exact (f_equal BreakerSpec.state_of (proj2 (breaker_recovers tripped_example 5 40000000000 2
      tripped_example_wf eq_refl eq_refl ltac:(vm_compute; discriminate)))).
Defined.

(** A half-open breaker lets every request through, however many arrive
    before a verdict, and a single failure reopens it at once with both
    counters cleared. *)
Theorem breaker_half_open (cb : breaker) (nows : list Instant) (now : Instant) :
  state cb = HalfOpen ->
  let r := run (map Allow nows) cb in
  r.1 = repeat true (length nows) /\ state r.2 = HalfOpen /\
  let cb' := record_failure now r.2 in
  state cb' = Open /\ last_failure_time cb' = Some now /\
  failure_count cb' = 0 /\ success_count cb' = 0.
Proof.
  intros Hst r. subst r. destruct (run_allows_half_open cb nows Hst) as [Hout Hst'].
  split_and!; [exact Hout|exact Hst'|].
  generalize dependent (run (map Allow nows) cb).2. intros [st fc sc lft cf tr tf] Hst'.
  unfold state in Hst'; simpl in Hst'; subst. done.
Qed.

Lemma breaker_half_open_witness :
  let half := (run [Allow 40000000000] tripped_example).2 in
  (run (map Allow [1; 2; 3; 4]) half).1 = [true; true; true; true].
Proof.
  exact (proj1 (breaker_half_open (run [Allow 40000000000] tripped_example).2
    [1; 2; 3; 4] 9 eq_refl)).
Defined.

(** The statistics count calls and nothing else: modulo 2^64, the number of
    [allow_request] and of [record_failure] calls of the history. *)
Theorem breaker_stats_count (c : CircuitBreakerConfig) (cs : list call) :
  let s := stats (run cs (new c)).2 in
  stat_total_requests s = wrap64 (count_if is_allow cs) /\
  stat_total_failures s = wrap64 (count_if is_failure cs).
Proof.
  simpl. destruct (run_counts cs (new c)) as [-> ->]; simpl; try words.
  by unfold u64_add.
Qed.
