(* ===== verification/BreakerInterleaving.v ===== *)
(** * Interleaved calls on one circuit breaker (src/src/circuit_breaker.rs)

    The methods are [async] and share their cells through [Arc], so calls of
    different tasks interleave between any two accesses of a cell. Each call is
    split here into its atomic accesses, in the order the code performs them:
    every lock guard of the code lives for one access only, and the right-hand
    side [Instant::now()] of an assignment through [write().await] is evaluated
    before the lock is taken. *)

From stdpp Require Import prelude.
From S2P Require Import Prelude Tasks Breaker.
Import CircuitBreaker.

(** The methods a task may be running. *)
Inductive method : Type :=
| MAllow
| MSuccess
| MFailure
| MReset.

#[export] Instance method_eq_dec : EqDecision method.
Proof. solve_decision. Defined.

(** Where a task is inside its call: the access it performs next. *)
Inductive pc : Type :=
| AllowCount
| AllowReadState
| AllowReadTime
| AllowWriteHalfOpen
| AllowClearSuccess
| SuccReadState
| SuccAdd
| SuccWriteClosed
| SuccClearFailure
| SuccClearSuccess
| SuccResetFailure
| FailCount
| FailReadState
| FailAdd
| FailWriteOpen
| FailNow
| FailWriteTime (t : Instant)
| ReopenWriteOpen
| ReopenNow
| ReopenWriteTime (t : Instant)
| ReopenClearFailure
| ReopenClearSuccess
| OpenNow
| OpenWriteTime (t : Instant)
| ResetWriteClosed
| ResetClearFailure
| ResetClearSuccess
| ResetClearTime
| Done (m : method) (answer : option bool).

Definition start (m : method) : pc :=
  match m with
  | MAllow => AllowCount
  | MSuccess => SuccReadState
  | MFailure => FailCount
  | MReset => ResetWriteClosed
  end.

(** One access: the task's next position and the cells after it. *)
Definition access (now : Instant) (p : pc) (cb : breaker) : pc * breaker :=
  match p with
  | AllowCount => (AllowReadState, incr_total_requests cb)
  | AllowReadState =>
      match cb_state cb with
      | Closed => (Done MAllow (Some true), cb)
      | Open => (AllowReadTime, cb)
      | HalfOpen => (Done MAllow (Some true), cb)
      end
  | AllowReadTime =>
      match last_failure_time cb with
      | Some last_time =>
          if timeout (config cb) <=? elapsed now last_time then (AllowWriteHalfOpen, cb)
          else (Done MAllow (Some false), cb)
      | None => (Done MAllow (Some false), cb)
      end
  | AllowWriteHalfOpen => (AllowClearSuccess, write_state HalfOpen cb)
  | AllowClearSuccess => (Done MAllow (Some true), store_success_count 0 cb)
  | SuccReadState =>
      match cb_state cb with
      | HalfOpen => (SuccAdd, cb)
      | Closed => (SuccResetFailure, cb)
      | Open => (Done MSuccess None, cb)
      end
  | SuccAdd =>
      let successes := u64_add (success_count cb) 1 in
      let cb := store_success_count successes cb in
      if success_threshold (config cb) <=? successes then (SuccWriteClosed, cb)
      else (Done MSuccess None, cb)
  | SuccWriteClosed => (SuccClearFailure, write_state Closed cb)
  | SuccClearFailure => (SuccClearSuccess, store_failure_count 0 cb)
  | SuccClearSuccess => (Done MSuccess None, store_success_count 0 cb)
  | SuccResetFailure => (Done MSuccess None, store_failure_count 0 cb)
  | FailCount => (FailReadState, incr_total_failures cb)
  | FailReadState =>
      match cb_state cb with
      | Closed => (FailAdd, cb)
      | HalfOpen => (ReopenWriteOpen, cb)
      | Open => (OpenNow, cb)
      end
  | FailAdd =>
      let failures := u64_add (failure_count cb) 1 in
      let cb := store_failure_count failures cb in
      if failure_threshold (config cb) <=? failures then (FailWriteOpen, cb)
      else (Done MFailure None, cb)
  | FailWriteOpen => (FailNow, write_state Open cb)
  | FailNow => (FailWriteTime now, cb)
  | FailWriteTime t => (Done MFailure None, write_last_failure_time (Some t) cb)
  | ReopenWriteOpen => (ReopenNow, write_state Open cb)
  | ReopenNow => (ReopenWriteTime now, cb)
  | ReopenWriteTime t => (ReopenClearFailure, write_last_failure_time (Some t) cb)
  | ReopenClearFailure => (ReopenClearSuccess, store_failure_count 0 cb)
  | ReopenClearSuccess => (Done MFailure None, store_success_count 0 cb)
  | OpenNow => (OpenWriteTime now, cb)
  | OpenWriteTime t => (Done MFailure None, write_last_failure_time (Some t) cb)
  | ResetWriteClosed => (ResetClearFailure, write_state Closed cb)
  | ResetClearFailure => (ResetClearSuccess, store_failure_count 0 cb)
  | ResetClearSuccess => (ResetClearTime, store_success_count 0 cb)
  | ResetClearTime => (Done MReset None, write_last_failure_time None cb)
  | Done m a => (Done m a, cb)
  end.

Definition is_done (p : pc) : bool := match p with Done _ _ => true | _ => false end.

(** ** The system *)

Abbreviation system := (Tasks.system breaker pc).
Abbreviation event := (Tasks.event method).
Abbreviation sys_step := (Tasks.sys_step start is_done access).
Abbreviation schedule := (Tasks.schedule start is_done access).
Abbreviation quiescent := (Tasks.quiescent is_done).
Abbreviation solo := (Tasks.solo is_done access).

Definition init (c : CircuitBreakerConfig) : system := mkSystem (new c) 0 [].

(** ** Lemmas *)

(** *** No reset in flight: an open breaker knows when it tripped *)

Definition in_reset (p : pc) : bool :=
  match p with
  | ResetWriteClosed | ResetClearFailure | ResetClearSuccess | ResetClearTime => true
  | _ => false
  end.

(** Between the write of [Open] and the write of the failure time. *)
Definition in_window (p : pc) : bool :=
  match p with
  | FailNow | FailWriteTime _ | ReopenNow | ReopenWriteTime _ => true
  | _ => false
  end.

Definition no_reset_event (e : event) : Prop := e <> Spawn MReset.

(** A case analysis on the position of a task and the tests its access makes. *)
Ltac access_cases p cb :=
  destruct p; destruct cb as [st fc sc lft cf tr tf]; simpl in *; split_match; try done; eauto.

Lemma access_no_reset now p cb :
  in_reset p = false -> in_reset (access now p cb).1 = false.
Proof. access_cases p cb. Qed.

Lemma access_keeps_time now p cb :
  in_reset p = false -> last_failure_time cb <> None ->
  last_failure_time (access now p cb).2 <> None.
Proof. access_cases p cb. Qed.

Lemma access_opens now p cb :
  in_reset p = false -> cb_state (access now p cb).2 = Open ->
  in_window (access now p cb).1 = true \/
  last_failure_time (access now p cb).2 <> None \/
  (cb_state cb = Open /\ in_window p = false /\
   last_failure_time (access now p cb).2 = last_failure_time cb).
Proof. intros Hr. access_cases p cb; intros; right; left; done. Qed.

Definition dated (s : system) : Prop :=
  Forall (fun p => in_reset p = false) (tasks s) /\
  (cb_state (shared s) = Open ->
   last_failure_time (shared s) <> None \/
   exists i p, tasks s !! i = Some p /\ in_window p = true).

Lemma dated_step s e s' : no_reset_event e -> dated s -> sys_step s e s' -> dated s'.
Proof.
  unfold dated. intros He [Hall Hopen] Hstep.
  destruct Hstep as [cb t ps m|cb t ps i p p' cb' Hi Hd Hacc|cb t ps t' Ht]; simpl in *.
  - split.
    + apply Forall_app_2; [done|]. constructor; [|done]. destruct m; [done..|]. by destruct He.
    + intros Hst. destruct (Hopen Hst) as [?|(i & p & Hi & Hp)]; [by left|].
      right. exists i, p. split; [|done]. by apply lookup_app_l_Some.
  - assert (Hr : in_reset p = false) by (eapply (Forall_lookup_1 _ _ _ _ Hall Hi)).
    replace p' with (access t p cb).1 by by rewrite Hacc.
    replace cb' with (access t p cb).2 by by rewrite Hacc.
    split; [by apply Forall_insert, access_no_reset|].
    intros Hst. assert (i < length ps)%nat by by eapply lookup_lt_Some.
    destruct (access_opens t p cb Hr Hst) as [Hw|[Hl|(Hst0 & Hw & Hl)]].
    + right. exists i, (access t p cb).1. by rewrite list_lookup_insert_eq.
    + by left.
    + rewrite Hl. destruct (Hopen Hst0) as [?|(j & q & Hj & Hq)]; [by left|].
      right. exists j, q. rewrite list_lookup_insert_ne; [done|]. intros ->.
      congruence.
  - done.
Qed.

Lemma dated_reachable c es s :
  Forall no_reset_event es -> steps sys_step (init c) es s -> dated s.
Proof.
  intros He Hs. eapply (steps_invariant sys_step no_reset_event); eauto using dated_step.
  by split.
Qed.

(** *** Counting tasks *)

Definition counted_allow (p : pc) : bool :=
  match p with
  | AllowReadState | AllowReadTime | AllowWriteHalfOpen | AllowClearSuccess | Done MAllow _ => true
  | _ => false
  end.

Definition counted_failure (p : pc) : bool :=
  match p with
  | FailReadState | FailAdd | FailWriteOpen | FailNow | FailWriteTime _
  | ReopenWriteOpen | ReopenNow | ReopenWriteTime _ | ReopenClearFailure | ReopenClearSuccess
  | OpenNow | OpenWriteTime _ | Done MFailure _ => true
  | _ => false
  end.

Lemma access_counts now p cb :
  is_done p = false ->
  total_requests (access now p cb).2 =
    (if counted_allow p then total_requests cb
     else if counted_allow (access now p cb).1 then u64_add (total_requests cb) 1
          else total_requests cb) /\
  total_failures (access now p cb).2 =
    (if counted_failure p then total_failures cb
     else if counted_failure (access now p cb).1 then u64_add (total_failures cb) 1
          else total_failures cb) /\
  (counted_allow p = true -> counted_allow (access now p cb).1 = true) /\
  (counted_failure p = true -> counted_failure (access now p cb).1 = true).
Proof. access_cases p cb. Qed.

Definition counting (s : system) : Prop :=
  total_requests (shared s) = wrap64 (count_if counted_allow (tasks s)) /\
  total_failures (shared s) = wrap64 (count_if counted_failure (tasks s)).

Lemma counting_step s e s' : True -> counting s -> sys_step s e s' -> counting s'.
Proof.
  unfold counting. intros _ [Hr Hf] Hstep.
  destruct Hstep as [cb t ps m|cb t ps i p p' cb' Hi Hd Hacc|cb t ps t' Ht]; simpl in *.
  - rewrite !count_if_app, !count_if_cons. unfold count_if at 2 4; simpl.
    rewrite Hr, Hf. destruct m; simpl; split; f_equal; lia.
  - replace p' with (access t p cb).1 by by rewrite Hacc.
    replace cb' with (access t p cb).2 by by rewrite Hacc.
    destruct (access_counts t p cb Hd) as (Er & Ef & Ma & Mf).
    rewrite Er, Ef, !(count_if_insert _ _ _ _ _ Hi), Hr, Hf. unfold u64_add.
    rewrite !wrap64_add_l.
    split.
    + destruct (counted_allow p); [rewrite Ma by done; f_equal; simpl; lia|].
      destruct (counted_allow (access t p cb).1); f_equal; simpl; lia.
    + destruct (counted_failure p); [rewrite Mf by done; f_equal; simpl; lia|].
      destruct (counted_failure (access t p cb).1); f_equal; simpl; lia.
  - done.
Qed.

(** The method a task is running, or has run. *)
Definition method_of (p : pc) : method :=
  match p with
  | AllowCount | AllowReadState | AllowReadTime | AllowWriteHalfOpen | AllowClearSuccess => MAllow
  | SuccReadState | SuccAdd | SuccWriteClosed | SuccClearFailure | SuccClearSuccess | SuccResetFailure => MSuccess
  | ResetWriteClosed | ResetClearFailure | ResetClearSuccess | ResetClearTime => MReset
  | Done m _ => m
  | _ => MFailure
  end.

Lemma method_kept now p cb : method_of (access now p cb).1 = method_of p.
Proof. access_cases p cb. Qed.

Definition runs_method (m : method) (p : pc) : bool := bool_decide (method_of p = m).
Definition calls (m : method) (e : event) : bool :=
  match e with Spawn m' => bool_decide (m' = m) | _ => false end.
Definition in_flight (p : pc) : bool := negb (is_done p).

(** The tasks of a method are the calls made of it. *)
Lemma calls_running m c es s :
  steps sys_step (init c) es s -> count_if (runs_method m) (tasks s) = count_if (calls m) es.
Proof.
  revert es s. apply steps_ind_last; [done|]. intros es s e s' _ IH Hstep. rewrite count_if_snoc, <-IH.
  destruct Hstep as [cb t ps m'|cb t ps i p p' cb' Hi Hd Hacc|cb t ps t' Ht]; simpl; [| |lia].
  - rewrite count_if_snoc. unfold runs_method. by destruct m'.
  - rewrite (count_if_insert _ _ _ _ _ Hi). unfold runs_method.
    pose proof (method_kept t p cb) as H. rewrite Hacc in H. simpl in H. rewrite H. lia.
Qed.

(** Those that are counted in a statistic are of its method, and the others in flight. *)
Lemma counted_calls (counted : pc -> bool) m c es s :
  (forall p, counted p = true -> method_of p = m) ->
  (forall p, method_of p = m -> counted p = true \/ is_done p = false) ->
  steps sys_step (init c) es s ->
  count_if counted (tasks s) <= count_if (calls m) es <= count_if counted (tasks s) + count_if in_flight (tasks s).
Proof.
  intros H1 H2 Hs. rewrite <-(calls_running m c es s Hs). split.
  - rewrite <-(Z.add_0_r (count_if (runs_method m) _)), <-(count_if_none (fun _ : pc => false) (tasks s)) by done.
    apply count_if_cover. intros p Hp. left. by apply bool_decide_eq_true, H1.
  - apply count_if_cover. intros p Hp%bool_decide_eq_true. unfold in_flight.
    destruct (H2 p Hp) as [?| ->]; [by left|by right].
Qed.

(** ** The properties *)

(** A call that runs without interference performs at most eight accesses
    and has exactly the effect and the answer of the sequential definition: the
    one-step model of [Breaker.v] is the interleaved one run alone. *)
Theorem solo_agrees (m : method) (now : Instant) (cb : breaker) :
  solo 8 now (start m) cb =
  let c := match m with
           | MAllow => Allow now | MSuccess => Success
           | MFailure => Failure now | MReset => Reset
           end in
  (Done m (exec c cb).1, (exec c cb).2).
Proof.
  destruct m, cb as [[] fc sc [lft|] cf tr tf]; simpl;
    unfold allow_request, record_success, record_failure; simpl; split_match; try done.
Qed.

(** C6. However calls interleave, as long as none of them is [reset], a breaker
    found open with no call in flight has recorded a failure time, so the first
    request after the timeout is let through: the breaker cannot wedge. *)
Theorem interleaved_breaker_recovers
    (c : CircuitBreakerConfig) (es : list event) (s : system) (now : Instant) :
  Forall no_reset_event es -> steps sys_step (init c) es s -> quiescent s ->
  cb_state (shared s) = Open ->
  exists t, last_failure_time (shared s) = Some t /\
    (timeout (config (shared s)) <= now - t ->
     (allow_request now (shared s)).1 = true /\
     cb_state (allow_request now (shared s)).2 = HalfOpen).
Proof.
  intros He Hs Hq Hst. destruct (dated_reachable c es s He Hs) as [_ Hd].
  destruct (Hd Hst) as [Hl|(i & p & Hi & Hp)].
  - destruct (last_failure_time (shared s)) as [t|] eqn:Et; [|done].
    exists t. split; [done|]. intros Hto. unfold allow_request, elapsed, duration_since.
    simpl. rewrite Hst, Et. case_match; [done|bools].
  - pose proof (Forall_lookup_1 _ _ _ _ Hq Hi) as Hdn. by destruct p.
Qed.

Definition race_config : CircuitBreakerConfig :=
  {| failure_threshold := 1; timeout := 50; success_threshold := 1 |}.

Definition trip_schedule : list event := Spawn MFailure :: Tick 10 :: runs 0 6.

Lemma interleaved_breaker_recovers_witness :
  exists s, steps sys_step (init race_config) trip_schedule s /\
    exists t, last_failure_time (shared s) = Some t /\
    (timeout (config (shared s)) <= 60 - t ->
     (allow_request 60 (shared s)).1 = true /\
     cb_state (allow_request 60 (shared s)).2 = HalfOpen).
Proof.
  assert (H : exists s, schedule trip_schedule (init race_config) = Some s /\
                        quiescent s /\ cb_state (shared s) = Open).
  { eexists. split; [reflexivity|]. split; [repeat constructor|reflexivity]. }
  destruct H as (s & Hs & Hq & Hst). apply schedule_sound in Hs.
  exists s. split; [exact Hs|].
  refine (interleaved_breaker_recovers race_config trip_schedule s 60 _ Hs Hq Hst).
  repeat constructor; discriminate.
Defined.

(** C28. No update of the statistics is lost, whatever the interleaving, resets included: at any
    moment the total of requests is the number of [allow_request] calls made so far, less
    at most those in flight, and likewise the total of failures for [record_failure]; with no
    call in flight they are these numbers, modulo 2^64. *)
Theorem interleaved_stats_exact (c : CircuitBreakerConfig) (es : list event) (s : system) :
  steps sys_step (init c) es s ->
  let counts total m := exists n, total = wrap64 n /\
    n <= count_if (calls m) es <= n + count_if in_flight (tasks s) /\
    (quiescent s -> total = wrap64 (count_if (calls m) es)) in
  counts (stat_total_requests (stats (shared s))) MAllow /\
  counts (stat_total_failures (stats (shared s))) MFailure.
Proof.
  intros Hs counts.
  assert (Hc : counting s).
  { eapply (steps_invariant sys_step (fun _ => True) counting _ _ _ counting_step);
      [by apply Forall_true| |exact Hs]. by split. }
  assert (Hq : quiescent s -> count_if in_flight (tasks s) = 0).
  { intros Hq. apply count_if_none. intros p Hp. unfold in_flight.
    by rewrite (proj1 (Forall_forall _ _) Hq p Hp). }
  assert (H : forall total counted m, total = wrap64 (count_if counted (tasks s)) ->
    (forall p, counted p = true -> method_of p = m) ->
    (forall p, method_of p = m -> counted p = true \/ is_done p = false) -> counts total m).
  { intros total counted m Ht H1 H2. pose proof (counted_calls counted m c es s H1 H2 Hs) as Hn.
    exists (count_if counted (tasks s)). split; [done|]. split; [done|]. intros Hq'. rewrite Ht. f_equal.
    specialize (Hq Hq'). lia. }
  split; [apply (H _ counted_allow); [apply Hc|..]|apply (H _ counted_failure); [apply Hc|..]];
    intros []; simpl; try done; try (by destruct m); intros ?; (by left) || (by right) || (simplify_eq; by left).
Qed.

Lemma interleaved_stats_exact_witness :
  exists s, schedule trip_schedule (init race_config) = Some s /\
    stat_total_failures (stats (shared s)) = wrap64 1.
Proof.
  destruct (schedule trip_schedule (init race_config)) as [s|] eqn:E; [|discriminate E].
  exists s. split; [reflexivity|].
  destruct (interleaved_stats_exact race_config trip_schedule s (schedule_sound _ _ _ _ _ _ E)) as (_ & n & _ & _ & Hq).
  apply Hq. vm_compute in E. injection E as <-. repeat constructor.
Defined.

(** A breaker that is open without a failure time rejects every request, at any
    time, whatever successes are recorded. *)
Lemma undated_stuck cb cs :
  state cb = Open -> last_failure_time cb = None ->
  Forall (fun c => match c with Allow _ | Success => True | _ => False end) cs ->
  Forall (fun b => b = false) (run cs cb).1.
Proof.
  revert cb. induction cs as [|c cs IH]; intros cb Hst Hl Hc; [constructor|].
  apply Forall_cons in Hc as [Hc Hcs]. rewrite run_cons. cbn [fst].
  destruct cb as [st fc sc lft cf tr tf]; unfold state in Hst; simpl in *; subst.
  destruct c; try done; simpl; [constructor; [done|]|]; by apply IH.
Qed.

Definition wedge_schedule : list event :=
  Spawn MReset :: Spawn MFailure :: Tick 10 :: runs 0 3 ++ runs 1 6 ++ runs 0 1.

(** C34. A [reset] that overlaps a [record_failure] can wedge the breaker: from a
    fresh breaker there is an interleaving of the two calls after which nothing
    is in flight, the breaker is open with no failure time, and from then on it
    rejects every request for ever, since only admitted requests can fail. *)
Theorem reset_race_wedges :
  exists s, steps sys_step (init race_config) wedge_schedule s /\ quiescent s /\
    cb_state (shared s) = Open /\ last_failure_time (shared s) = None /\
    forall cs, Forall (fun c => match c with Allow _ | Success => True | _ => False end) cs ->
      Forall (fun b => b = false) (run cs (shared s)).1.
Proof.
  eexists. split; [apply schedule_sound; vm_compute; reflexivity|].
  split; [repeat constructor|]. do 2 (split; [reflexivity|]).
  intros cs Hcs. by apply undated_stuck.
Qed.

(** The breaker has tripped and been probed; a success reads [HalfOpen], a
    failure then reopens the breaker; the success resumes. *)
Definition probe_schedule : list event :=
  trip_schedule ++ [Tick 60; Spawn MAllow] ++ runs 1 5
  ++ [Spawn MSuccess; Spawn MFailure] ++ runs 2 1 ++ runs 3 7.

(** A success that read the half-open state before a failure reopened the
    breaker can close it again: there is a reachable state where the failure's
    call has finished and the breaker is open, from which the late success alone
    closes it with no time passing, so the timeout is skipped. *)
Theorem late_success_closes :
  exists s s',
    steps sys_step (init race_config) probe_schedule s /\
    cb_state (shared s) = Open /\ last_failure_time (shared s) = Some (clock s) /\
    tasks s !! 3%nat = Some (Done MFailure None) /\
    steps sys_step s (runs 2 4) s' /\ quiescent s' /\
    cb_state (shared s') = Closed /\ clock s' = clock s.
Proof.
  eexists _, _. split; [apply schedule_sound; vm_compute; reflexivity|].
  do 3 (split; [reflexivity|]).
  split; [apply schedule_sound; vm_compute; reflexivity|].
  split; [repeat constructor|]. by split.
Qed.

(** *** Two calls that move while the others rest *)

Lemma access_config now p cb : config (access now p cb).2 = config cb.
Proof. access_cases p cb. Qed.

Section Pair.
Context (i j : nat) (Hij : i <> j).

Definition of_pair (e : event) : Prop :=
  match e with Run k => k = i \/ k = j | Tick _ => True | Spawn _ => False end.

(** The failure of a probe ([i]) has written [Open] at [t0], after a failure at [f] that is
    a timeout ago; a request ([j]) asks. *)
Context (f t0 : Instant).

(** An assertion on the positions of the two, and the accesses the second has made. *)
Definition paired (P : Z -> Instant -> pc -> pc -> breaker -> Prop) (n : Z) (s : system) : Prop :=
  t0 <= clock s /\ timeout (config (shared s)) <= clock s - f /\
  exists pi pj, tasks s !! i = Some pi /\ tasks s !! j = Some pj /\ P n (clock s) pi pj (shared s).

Section Invariant.
Context (P : Z -> Instant -> pc -> pc -> breaker -> Prop).
Context (first_moves : forall n now pi pj cb, t0 <= now -> is_done pi = false -> P n now pi pj cb ->
  P n now (access now pi cb).1 pj (access now pi cb).2).
Context (second_moves : forall n now pi pj cb, timeout (config cb) <= now - f -> is_done pj = false -> P n now pi pj cb ->
  P (n + 1) now pi (access now pj cb).1 (access now pj cb).2).
Context (time_passes : forall n now now' pi pj cb, now <= now' -> P n now pi pj cb -> P n now' pi pj cb).

Lemma paired_step n s e s' :
  of_pair e -> sys_step s e s' -> paired P n s -> paired P (n + Z.b2z (is_run j e)) s'.
Proof.
  intros He Hstep (Ht & Hto & pi & pj & Hi & Hj & Hp).
  destruct Hstep as [cb t ps m|cb t ps k p p' cb' Hk Hd Hacc|cb t ps t' Hle]; simpl in *; [done| |].
  - pose proof (access_config t p cb) as Hcfg. rewrite Hacc in Hcfg. simpl in Hcfg.
    split; [done|]. split; [simpl; by rewrite Hcfg|]. simpl. destruct He as [-> | ->].
    + assert (p = pi) as -> by congruence. exists p', pj.
      rewrite list_lookup_insert_eq, list_lookup_insert_ne by (done || by eapply lookup_lt_Some).
      rewrite bool_decide_eq_false_2, Z.add_0_r by done. split_and!; try done.
      pose proof (first_moves n t pi pj cb Ht Hd Hp) as H. by rewrite Hacc in H.
    + assert (p = pj) as -> by congruence. exists pi, p'.
      rewrite list_lookup_insert_eq, list_lookup_insert_ne by (done || by eapply lookup_lt_Some).
      rewrite bool_decide_eq_true_2 by done. split_and!; try done.
      pose proof (second_moves n t pi pj cb Hto Hd Hp) as H. by rewrite Hacc in H.
  - split; [simpl; lia|]. split; [simpl; lia|]. simpl. exists pi, pj. rewrite Z.add_0_r. split_and!; try done.
    by apply (time_passes n t).
Qed.

Lemma paired_steps n s es s' :
  Forall of_pair es -> steps sys_step s es s' -> paired P n s -> paired P (n + count_if (is_run j) es) s'.
Proof.
  intros Hes Hs. revert n. induction Hs as [s|s e s1 es s2 Hstep _ IH]; intros n Hp.
  { unfold count_if; simpl. by rewrite Z.add_0_r. }
  apply Forall_cons in Hes as [He Hes]. rewrite count_if_cons, Z.add_assoc. by apply IH, (paired_step n s).
Qed.
End Invariant.

Definition before_time (now : Instant) (pi : pc) : Prop :=
  match pi with ReopenNow => True | ReopenWriteTime t => t0 <= t <= now | _ => False end.
Definition after_time (pi : pc) : Prop :=
  match pi with ReopenClearFailure | ReopenClearSuccess | Done MFailure None => True | _ => False end.

(** The request has read the old failure time: where it is since. *)
Definition admitted (pj : pc) (st : State) : Prop :=
  match pj with
  | AllowWriteHalfOpen => st = Open
  | AllowClearSuccess | Done MAllow (Some true) => st = HalfOpen
  | _ => False
  end.
(** Where it is before that, after [n] accesses. *)
Definition asking (n : Z) (pj : pc) (st : State) : Prop :=
  match pj with
  | AllowCount => n = 0 /\ st = Open
  | AllowReadState => n = 1 /\ st = Open
  | AllowReadTime => n = 2 /\ st = Open
  | _ => False
  end.

(** As long as the failure time is not written; and once the request has read the old one. *)
Definition unwritten (n : Z) (now : Instant) (pi pj : pc) (cb : breaker) : Prop :=
  before_time now pi /\ last_failure_time cb = Some f /\ (asking n pj (cb_state cb) \/ admitted pj (cb_state cb)) \/
  after_time pi.
Definition decided (n : Z) (now : Instant) (pi pj : pc) (cb : breaker) : Prop :=
  admitted pj (cb_state cb) /\
  (before_time now pi /\ last_failure_time cb = Some f \/
   after_time pi /\ exists t, last_failure_time cb = Some t /\ t0 <= t <= now).

Lemma failure_access now pi cb :
  is_done pi = false -> t0 <= now ->
  cb_state (access now pi cb).2 = cb_state cb \/ ~ (before_time now pi \/ after_time pi).
Proof. intros Hd Ht. destruct pi; simpl; try tauto; by left. Qed.

Lemma before_moves now pi cb :
  t0 <= now -> before_time now pi ->
  let '(pi', cb') := access now pi cb in
  cb_state cb' = cb_state cb /\
  (before_time now pi' /\ last_failure_time cb' = last_failure_time cb \/
   after_time pi' /\ exists t, last_failure_time cb' = Some t /\ t0 <= t <= now).
Proof.
  intros Ht Hb. destruct pi; try done; simpl.
  - split; [done|]. left. split; [lia|done].
  - split; [done|]. right. split; [done|]. by exists t.
Qed.

Lemma after_moves now pi cb :
  is_done pi = false -> after_time pi ->
  let '(pi', cb') := access now pi cb in
  after_time pi' /\ cb_state cb' = cb_state cb /\ last_failure_time cb' = last_failure_time cb.
Proof. intros Hd Ha. by destruct pi. Qed.

Lemma admitted_moves now pj cb :
  is_done pj = false -> admitted pj (cb_state cb) ->
  let '(pj', cb') := access now pj cb in
  admitted pj' (cb_state cb') /\ last_failure_time cb' = last_failure_time cb.
Proof. intros Hd Hp. by destruct pj. Qed.

Lemma asking_moves n now pj cb :
  last_failure_time cb = Some f -> timeout (config cb) <= now - f -> asking n pj (cb_state cb) ->
  let '(pj', cb') := access now pj cb in
  (asking (n + 1) pj' (cb_state cb') \/ admitted pj' (cb_state cb')) /\ last_failure_time cb' = Some f.
Proof.
  intros Hl Hto Hp. assert (He : (timeout (config cb) <=? elapsed now f) = true).
  { apply Z.leb_le. unfold elapsed, duration_since. lia. }
  destruct pj; try done; destruct Hp as [-> Hst]; simpl.
  - split; [by left|done].
  - rewrite Hst. simpl. split; [by left|done].
  - rewrite Hl, He. simpl. split; [by right|done].
Qed.

Lemma before_later now now' pi : now <= now' -> before_time now pi -> before_time now' pi.
Proof. destruct pi; simpl; try done; lia. Qed.

Lemma unwritten_steps n s es s' :
  Forall of_pair es -> steps sys_step s es s' -> paired unwritten n s -> paired unwritten (n + count_if (is_run j) es) s'.
Proof.
  apply paired_steps; clear n s es s'.
  - intros n now pi pj cb Ht Hd [(Hb & Hl & Hp)|Ha].
    + pose proof (before_moves now pi cb Ht Hb) as H. destruct (access now pi cb) as [pi' cb']. simpl.
      destruct H as [Hst [[Hb' Hl']|[Ha' _]]]; [left|by right]. rewrite Hst, Hl'. done.
    + pose proof (after_moves now pi cb Hd Ha) as H. destruct (access now pi cb). simpl. right. apply H.
  - intros n now pi pj cb Hto Hd [(Hb & Hl & Hp)|Ha]; [left|by right]. split; [done|]. destruct Hp as [Hp|Hp].
    + pose proof (asking_moves n now pj cb Hl Hto Hp) as H. destruct (access now pj cb). simpl. tauto.
    + pose proof (admitted_moves now pj cb Hd Hp) as H. destruct (access now pj cb). simpl. destruct H as [? ->]. tauto.
  - intros n now now' pi pj cb Hle [(Hb & Hp)|Ha]; [left|by right]. split; [by eapply before_later|done].
Qed.

Lemma decided_steps n s es s' :
  Forall of_pair es -> steps sys_step s es s' -> paired decided n s -> paired decided (n + count_if (is_run j) es) s'.
Proof.
  apply paired_steps; clear n s es s'.
  - intros n now pi pj cb Ht Hd [Hp [[Hb Hl]|[Ha Hl]]].
    + pose proof (before_moves now pi cb Ht Hb) as H. destruct (access now pi cb) as [pi' cb']. simpl.
      destruct H as [Hst H]. split; [by rewrite Hst|]. by rewrite Hl in H.
    + pose proof (after_moves now pi cb Hd Ha) as H. destruct (access now pi cb) as [pi' cb']. simpl.
      destruct H as (Ha' & Hst & Hl'). split; [by rewrite Hst|]. right. by rewrite Hl'.
  - intros n now pi pj cb Hto Hd [Hp H]. pose proof (admitted_moves now pj cb Hd Hp) as Hm.
    destruct (access now pj cb) as [pj' cb']. simpl. destruct Hm as [Hp' Hl']. split; [done|]. by rewrite Hl'.
  - intros n now now' pi pj cb Hle [Hp H]. split; [done|].
    destruct H as [[Hb Hl]|(Ha & t & Hl & Hr)]; [left; split; [by eapply before_later|done]|right].
    split; [done|]. exists t. split; [done|]. lia.
Qed.
End Pair.

(** The breaker has tripped and been probed; the failure of the probe has written [Open],
    and a request is about to ask. *)
Definition reopening_schedule : list event :=
  trip_schedule ++ [Tick 60; Spawn MAllow] ++ runs 1 5 ++ [Spawn MFailure; Spawn MAllow] ++ runs 2 3.

(** C33. A failed probe need not reopen the breaker: the state is written before the failure
    time. Whatever the configuration and the breaker, let a failed probe ([i]) have just
    written [Open], a timeout or more after the failure before it ([f]), and let a request
    ([j]) ask: when its three accesses up to the read of the failure time come before the
    time is written, then however the two calls go on, it is let through, and when both have
    ended the breaker is half-open with the failure recorded since, and lets a request
    that asks next through, at any time: it does not wait for the timeout. *)
Theorem failed_probe_stays_half_open i j f s es s1 es' s2 p1 m m' a a' :
  tasks s !! i = Some ReopenNow -> tasks s !! j = Some (start MAllow) ->
  cb_state (shared s) = Open -> last_failure_time (shared s) = Some f ->
  timeout (config (shared s)) <= clock s - f ->
  Forall (of_pair i j) (es ++ es') -> steps sys_step s es s1 -> steps sys_step s1 es' s2 ->
  3 <= count_if (is_run j) es -> tasks s1 !! i = Some p1 -> in_window p1 = true ->
  tasks s2 !! i = Some (Done m a) -> tasks s2 !! j = Some (Done m' a') ->
  (m' = MAllow /\ a' = Some true) /\
  cb_state (shared s2) = HalfOpen /\
  (exists t, last_failure_time (shared s2) = Some t /\ clock s <= t <= clock s2) /\
  forall now, (allow_request now (shared s2)).1 = true.
Proof.
  intros Hi Hj Hst Hl Hto [Hes Hes']%Forall_app Hs Hs' Hn Hp1 Hw Hi2 Hj2.
  assert (Hij : i <> j) by (intros ->; rewrite Hi in Hj; discriminate Hj).
  assert (H0 : paired i j f (clock s) (unwritten f (clock s)) 0 s).
  { split; [lia|]. split; [done|]. exists ReopenNow, AllowCount. split_and!; try done. left. split_and!; try done. by left. }
  pose proof (unwritten_steps i j Hij f (clock s) _ _ _ _ Hes Hs H0) as (Ht1 & Hto1 & pi & pj & Hi1 & Hj1 & Hu).
  assert (pi = p1) as -> by congruence.
  destruct Hu as [(Hb & Hl1 & Hp)|Ha]; [|by destruct p1].
  assert (Had : admitted pj (cb_state (shared s1))).
  { destruct Hp as [Hp|Hp]; [|done]. destruct pj; try done; destruct Hp; lia. }
  assert (H1 : paired i j f (clock s) (decided f (clock s)) 0 s1).
  { split; [done|]. split; [done|]. exists p1, pj. split_and!; try done. split; [done|]. by left. }
  pose proof (decided_steps i j Hij f (clock s) _ _ _ _ Hes' Hs' H1) as (_ & _ & pi & pj2 & Hi2' & Hj2' & Hp2 & Hd).
  assert (pi = Done m a) as -> by congruence. assert (pj2 = Done m' a') as -> by congruence.
  assert (Ha' : m' = MAllow /\ a' = Some true /\ cb_state (shared s2) = HalfOpen) by by destruct m', a' as [[]|].
  destruct Ha' as (-> & -> & Hst2). split; [done|]. split; [done|]. split.
  - by destruct Hd as [[[] _]|[_ Hd]].
  - intros now. unfold allow_request. simpl. by rewrite Hst2.
Qed.

Definition reopening : system := Eval vm_compute in default (init race_config) (schedule reopening_schedule (init race_config)).
Definition asked : system := Eval vm_compute in default reopening (schedule (runs 3 3) reopening).
Definition both_ended : system := Eval vm_compute in default asked (schedule (runs 2 2 ++ runs 3 2 ++ runs 2 2) asked).

Lemma failed_probe_stays_half_open_witness :
  steps sys_step (init race_config) reopening_schedule reopening /\
  steps sys_step reopening (runs 3 3) asked /\
  steps sys_step asked (runs 2 2 ++ runs 3 2 ++ runs 2 2) both_ended /\
  quiescent both_ended /\ cb_state (shared both_ended) = HalfOpen.
Proof.
  assert (H : steps sys_step reopening (runs 3 3) asked) by (apply schedule_sound; vm_compute; reflexivity).
  assert (H' : steps sys_step asked (runs 2 2 ++ runs 3 2 ++ runs 2 2) both_ended)
    by (apply schedule_sound; vm_compute; reflexivity).
  split; [apply schedule_sound; vm_compute; reflexivity|]. split; [exact H|]. split; [exact H'|].
  split; [repeat constructor|].
  apply (failed_probe_stays_half_open 2 3 10 reopening (runs 3 3) asked (runs 2 2 ++ runs 3 2 ++ runs 2 2) both_ended
    ReopenNow MFailure MAllow None (Some true)); try reflexivity; try done.
  repeat constructor; lia.
Defined.
