(* ===== verification/BreakerTests.v ===== *)
(** * The circuit breaker's own tests and demonstration, on the model

    The unit tests of src/src/circuit_breaker.rs and the demonstration
    src/examples/circuit_breaker_demo.rs, as functions of the clock readings they make:
    [t n] is the reading of the [n]-th call that takes the time. A test returns
    whether all its assertions hold. *)

From stdpp Require Import prelude.
From S2P Require Import Prelude Breaker.
Open Scope Z_scope.

Definition Clock : Type := nat -> Instant.

(** A test passes when all its assertions hold. *)
Definition asserts (bs : list bool) : bool := forallb (fun b => b) bs.

Module BreakerTests.
Import CircuitBreaker.

Definition in_state (s : State) (cb : breaker) : bool := bool_decide (state cb = s).

Definition test_circuit_breaker_closed_to_open (t : Clock) : bool :=
  let config := {| failure_threshold := 3; timeout := from_millis 100; success_threshold := 2 |} in
  let cb := new config in
  let a1 := in_state Closed cb in
  let '(a2, cb) := allow_request (t 0%nat) cb in
  let cb := record_failure (t 1%nat) cb in
  let cb := record_failure (t 2%nat) cb in
  let cb := record_failure (t 3%nat) cb in
  let a3 := in_state Open cb in
  let '(a4, cb) := allow_request (t 4%nat) cb in
  asserts [a1; a2; a3; negb a4].

Definition test_circuit_breaker_open_to_halfopen (t : Clock) : bool :=
  let config := {| failure_threshold := 2; timeout := from_millis 50; success_threshold := 2 |} in
  let cb := new config in
  let cb := record_failure (t 0%nat) cb in
  let cb := record_failure (t 1%nat) cb in
  let a1 := in_state Open cb in
  let '(a2, cb) := allow_request (t 2%nat) cb in
  asserts [a1; a2; in_state HalfOpen cb].

Definition test_circuit_breaker_halfopen_to_closed (t : Clock) : bool :=
  let config := {| failure_threshold := 2; timeout := from_millis 50; success_threshold := 2 |} in
  let cb := new config in
  let cb := record_failure (t 0%nat) cb in
  let cb := record_failure (t 1%nat) cb in
  let '(a1, cb) := allow_request (t 2%nat) cb in
  let cb := record_success cb in
  let cb := record_success cb in
  asserts [a1; in_state Closed cb].

Definition test_circuit_breaker_halfopen_to_open (t : Clock) : bool :=
  let config := {| failure_threshold := 2; timeout := from_millis 50; success_threshold := 2 |} in
  let cb := new config in
  let cb := record_failure (t 0%nat) cb in
  let cb := record_failure (t 1%nat) cb in
  let '(a1, cb) := allow_request (t 2%nat) cb in
  let cb := record_failure (t 3%nat) cb in
  asserts [a1; in_state Open cb].

Definition test_circuit_breaker_stats (t : Clock) : bool :=
  let cb := new default_config in
  let '(_, cb) := allow_request (t 0%nat) cb in
  let '(_, cb) := allow_request (t 1%nat) cb in
  let cb := record_failure (t 2%nat) cb in
  let stats := stats cb in
  asserts [stat_total_requests stats =? 2; stat_total_failures stats =? 1].

(** *** The demonstration *)

(** [if cb.allow_request() { ... cb.record_failure() }], reading the clock twice. *)
Definition failing_request (t : Clock) (n : nat) (cb : breaker) : breaker :=
  let '(b, cb) := allow_request (t n) cb in
  if b then record_failure (t (S n)) cb else cb.

Definition passing_request (t : Clock) (n : nat) (cb : breaker) : breaker :=
  let '(b, cb) := allow_request (t n) cb in
  if b then record_success cb else cb.

(** Scenario 5 does not look at the answer. *)
Definition forced_failure (t : Clock) (n : nat) (cb : breaker) : breaker :=
  let '(_, cb) := allow_request (t n) cb in record_failure (t (S n)) cb.

(** The states the demonstration asserts, and the statistics it prints. The first
    sleep is between readings 6 and 7, the second between 15 and 16. *)
Definition demo (t : Clock) : list State * CircuitBreakerStats :=
  let config := {| failure_threshold := 3; timeout := from_secs 2; success_threshold := 2 |} in
  let cb := new config in
  let cb := failing_request t 0 cb in
  let cb := failing_request t 2 cb in
  let cb := failing_request t 4 cb in
  let s1 := state cb in
  let '(_, cb) := allow_request (t 6%nat) cb in
  let '(_, cb) := allow_request (t 7%nat) cb in
  let s3 := state cb in
  let cb := passing_request t 8 cb in
  let cb := passing_request t 9 cb in
  let s4 := state cb in
  let cb := reset cb in
  let cb := forced_failure t 10 cb in
  let cb := forced_failure t 12 cb in
  let cb := forced_failure t 14 cb in
  let '(_, cb) := allow_request (t 16%nat) cb in
  let cb := record_failure (t 17%nat) cb in
  let s5 := state cb in
  ([s1; s3; s4; s5], stats cb).

End BreakerTests.

Import BreakerTests.

(** ** Properties *)

(** The timed comparison of [allow_request], as arithmetic. *)
Lemma timed_out d now t : 0 < d -> d <= now - t -> (d <=? elapsed now t) = true.
Proof. intros. apply Z.leb_le. unfold elapsed, duration_since. lia. Qed.
Lemma not_timed_out d now t : 0 < d -> now - t < d -> (d <=? elapsed now t) = false.
Proof. intros. apply Z.leb_gt. unfold elapsed, duration_since. lia. Qed.

(** An open breaker answers by the timed comparison. *)
Lemma allow_open now f s t c tr tf b :
  (timeout c <=? elapsed now t) = b ->
  CircuitBreaker.allow_request now (CircuitBreaker.mk Open f s (Some t) c tr tf) =
    if b then (true, CircuitBreaker.mk HalfOpen f 0 (Some t) c (u64_add tr 1) tf)
    else (false, CircuitBreaker.mk Open f s (Some t) c (u64_add tr 1) tf).
Proof. intros <-. unfold CircuitBreaker.allow_request. simpl. by destruct (_ <=? _). Qed.

(** The configurations of the tests, and a breaker two failures have opened. *)
Definition short : CircuitBreakerConfig :=
  {| failure_threshold := 2; timeout := from_millis 50; success_threshold := 2 |}.
Definition slow : CircuitBreakerConfig :=
  {| failure_threshold := 3; timeout := from_secs 2; success_threshold := 2 |}.

Lemma short_opened t :
  CircuitBreaker.record_failure (t 1%nat) (CircuitBreaker.record_failure (t 0%nat) (CircuitBreaker.new short)) =
  CircuitBreaker.mk Open 2 0 (Some (t 1%nat)) short 0 2.
Proof. reflexivity. Qed.

Lemma slow_opened t n f0 r0 m :
  CircuitBreaker.mk Closed 0 0 None slow r0 m = f0 ->
  forced_failure t (S (S (S (S n)))) (forced_failure t (S (S n)) (forced_failure t n f0)) =
  CircuitBreaker.mk Open 3 0 (Some (t (S (S (S (S (S n))))))) slow
    (u64_add (u64_add (u64_add r0 1) 1) 1) (u64_add (u64_add (u64_add m 1) 1) 1).
Proof. intros <-. reflexivity. Qed.

(** The assertions of the breaker's tests hold on the model for every clock that
    lets a sleep last what it was asked for and, in the first test, does not
    let the timeout pass between two calls; the last one needs nothing of the clock. *)
Theorem breaker_tests_pass (t : Clock) :
  (t 4%nat - t 3%nat < from_millis 100 -> test_circuit_breaker_closed_to_open t = true) /\
  (from_millis 60 <= t 2%nat - t 1%nat ->
     test_circuit_breaker_open_to_halfopen t = true /\ test_circuit_breaker_halfopen_to_closed t = true /\
     test_circuit_breaker_halfopen_to_open t = true) /\
  test_circuit_breaker_stats t = true.
Proof.
  split_and!.
  - intros H. unfold test_circuit_breaker_closed_to_open. cbv zeta.
    set (c := mkCircuitBreakerConfig 3 _ _).
    change (CircuitBreaker.allow_request (t 0%nat) (CircuitBreaker.new c)) with
      (true, CircuitBreaker.mk Closed 0 0 None c 1 0). cbn [fst snd].
    change (CircuitBreaker.record_failure _ _) with (CircuitBreaker.mk Open 3 0 (Some (t 3%nat)) c 1 3).
    by rewrite (allow_open _ _ _ _ _ _ _ false) by by apply not_timed_out.
  - intros H. assert (E : (timeout short <=? elapsed (t 2%nat) (t 1%nat)) = true).
    { apply timed_out; [done|]. unfold short, timeout, from_millis, nanos_per_milli in *. lia. }
    unfold test_circuit_breaker_open_to_halfopen, test_circuit_breaker_halfopen_to_closed,
      test_circuit_breaker_halfopen_to_open. cbv zeta. fold short.
    by rewrite !short_opened, !(allow_open _ _ _ _ _ _ _ true).
  - reflexivity.
Qed.

(** The demonstration shows what it announces: for every clock, if its requests
    take less than two seconds after the third failure and its sleeps last two
    seconds, the breaker is open, half open, closed and open again where
    the program asserts it, after eleven requests and seven failures. *)
Theorem demo_runs (t : Clock) :
  t 6%nat - t 5%nat < from_secs 2 -> from_secs 2 <= t 7%nat - t 5%nat -> from_secs 2 <= t 16%nat - t 15%nat ->
  (demo t).1 = [Open; HalfOpen; Closed; Open] /\
  stat_total_requests (demo t).2 = 11 /\ stat_total_failures (demo t).2 = 7.
Proof.
  intros H1 H2 H3. unfold demo. cbv zeta. fold slow.
  change (failing_request t 4 _) with (CircuitBreaker.mk Open 3 0 (Some (t 5%nat)) slow 3 3).
  rewrite (allow_open _ _ _ _ _ _ _ false), (allow_open _ _ _ _ _ _ _ true)
    by (by apply not_timed_out || by apply timed_out).
  change (CircuitBreaker.reset _) with (CircuitBreaker.mk Closed 0 0 None slow 7 3).
  rewrite (slow_opened t 10 _ 7 3 eq_refl), (allow_open _ _ _ _ _ _ _ true) by by apply timed_out.
  by split_and!.
Qed.
