(* ===== verification/Gate.v ===== *)
(** * The interface between an endpoint and its circuit breaker

    The load balancer (src/src/transport.rs) only asks a breaker whether a
    request may pass and reports outcomes to it. [Gate] is that interface and
    [GateLaws] what the load balancer relies on; the circuit breaker of
    [Breaker.v] implements it. *)

From stdpp Require Import prelude.
From S2P Require Import Prelude Breaker.
Open Scope Z_scope.

Class Gate : Type := {
  gate : Type;
  gate_new : gate;
  gate_allow : Instant -> gate -> bool * gate;
  gate_success : gate -> gate;
  gate_failure : Instant -> gate -> gate;
  gate_equiv :: Equiv gate
}.

(** Equivalent gates answer alike for ever. A refusal leaves the gate
    equivalent to what it was; an admission can be repeated at the same time. *)
Class GateLaws (G : Gate) : Prop := {
  gate_equivalence :: Equivalence (≡@{gate});
  gate_allow_proper now (g g' : gate) : g ≡ g' ->
    (gate_allow now g).1 = (gate_allow now g').1 /\ (gate_allow now g).2 ≡ (gate_allow now g').2;
  gate_success_proper :: Proper ((≡) ==> (≡)) gate_success;
  gate_failure_proper now :: Proper ((≡) ==> (≡)) (gate_failure now);
  gate_refusal now (g : gate) : (gate_allow now g).1 = false -> (gate_allow now g).2 ≡ g;
  gate_admission now (g : gate) : (gate_allow now g).1 = true ->
    (gate_allow now (gate_allow now g).2).1 = true
}.

(** Gates that stay calm: they let every request pass, and go on doing so as long as
    no failure is reported. *)
Class CalmGate (G : Gate) : Type := {
  calm : gate -> Prop;
  calm_new : calm gate_new;
  calm_allow now (g : gate) : calm g -> (gate_allow now g).1 = true /\ calm (gate_allow now g).2;
  calm_success (g : gate) : calm g -> calm (gate_success g)
}.

(** ** The circuit breaker is a gate *)

Import CircuitBreaker.

(** Equal up to the statistics counters. *)
Definition same_machine (a b : breaker) : Prop :=
  cb_state a = cb_state b /\ failure_count a = failure_count b /\
  success_count a = success_count b /\ last_failure_time a = last_failure_time b /\
  config a = config b.

#[export] Instance breaker_gate : Gate := {|
  gate := breaker;
  gate_new := new default_config;
  gate_allow := allow_request;
  gate_success := record_success;
  gate_failure := record_failure;
  gate_equiv := same_machine
|}.

Lemma same_machine_equivalence : Equivalence same_machine.
Proof.
  unfold same_machine. split; [by intros a|by intros a b (? & ? & ? & ? & ?)|].
  intros a b c (? & ? & ? & ? & ?) (? & ? & ? & ? & ?). split_and!; congruence.
Qed.

(** Two breakers of the same machine, field by field. *)
Ltac same_machine_cases a b H :=
  destruct a as [sa fa ca la ga ta na], b as [sb fb cb lb gb tb nb];
  destruct H as (H1 & H2 & H3 & H4 & H5); simpl in H1, H2, H3, H4, H5; subst.

#[export] Instance breaker_gate_laws : GateLaws breaker_gate.
Proof.
  split; simpl.
  - apply same_machine_equivalence.
  - intros now a b H. same_machine_cases a b H. unfold allow_request; simpl.
    destruct sb; simpl; try by repeat split. destruct lb; simpl; [|by repeat split].
    case_match; by repeat split.
  - intros a b H. same_machine_cases a b H. unfold record_success; simpl.
    destruct sb; simpl; try by repeat split. case_match; by repeat split.
  - intros now a b H. same_machine_cases a b H. unfold record_failure; simpl.
    destruct sb; simpl; try by repeat split. case_match; by repeat split.
  - intros now [s f c l g t n]. unfold allow_request; simpl. destruct s; simpl; try done.
    destruct l; simpl; [|by repeat split]. case_match; by repeat split.
  - intros now [s f c l g t n]. unfold allow_request; simpl. destruct s; simpl; try done.
    destruct l; simpl; [|done]. case_match; done.
Qed.

(** A closed breaker is calm. *)
#[export] Instance breaker_calm : CalmGate breaker_gate.
Proof.
  refine {| calm := fun g : @gate breaker_gate => cb_state g = Closed |}.
  - done.
  - intros now [s f c l g t n]; simpl. intros ->. unfold allow_request; simpl. done.
  - intros [s f c l g t n]; simpl. intros ->. unfold record_success; simpl. done.
Defined.
