(* ===== verification/RateLimit.v ===== *)
(** * Rate limiting (src/src/ratelimit.rs)

    Token buckets over [f64], a global bucket and one bucket per client address.
    Each public call reads the clock once, as the argument [now]. The concurrent
    hash map of client entries is a finite map. *)

From Stdlib Require Import Ascii String SpecFloat.
From stdpp Require Import prelude gmap strings.
From S2P Require Import Prelude RustStr F64 Http.
Open Scope string_scope.
Open Scope Z_scope.

Record RateLimitConfig : Type := mkRateLimitConfig {
  requests_per_second : Z;
  burst_size : Z;
  per_client : bool;
  client_ttl : Duration;
  trust_forwarded_for : bool;
  max_forwarded_ips : Z
}.

Definition rate_limit_config_default : RateLimitConfig :=
  {| requests_per_second := 100;
     burst_size := 50;
     per_client := true;
     client_ttl := from_secs 300;
     trust_forwarded_for := false;
     max_forwarded_ips := 1 |}.

Definition rate_limit_config_new (rps burst : Z) : RateLimitConfig :=
  {| requests_per_second := rps;
     burst_size := burst;
     per_client := per_client rate_limit_config_default;
     client_ttl := client_ttl rate_limit_config_default;
     trust_forwarded_for := trust_forwarded_for rate_limit_config_default;
     max_forwarded_ips := max_forwarded_ips rate_limit_config_default |}.

Definition with_per_client (b : bool) (c : RateLimitConfig) : RateLimitConfig :=
  mkRateLimitConfig (requests_per_second c) (burst_size c) b (client_ttl c)
    (trust_forwarded_for c) (max_forwarded_ips c).

Definition with_client_ttl (ttl : Duration) (c : RateLimitConfig) : RateLimitConfig :=
  mkRateLimitConfig (requests_per_second c) (burst_size c) (per_client c) ttl
    (trust_forwarded_for c) (max_forwarded_ips c).

Definition with_trust_forwarded_for (trust : bool) (c : RateLimitConfig) : RateLimitConfig :=
  mkRateLimitConfig (requests_per_second c) (burst_size c) (per_client c) (client_ttl c)
    trust (max_forwarded_ips c).

Definition with_max_forwarded_ips (max : Z) (c : RateLimitConfig) : RateLimitConfig :=
  mkRateLimitConfig (requests_per_second c) (burst_size c) (per_client c) (client_ttl c)
    (trust_forwarded_for c) (Z.max max 1).

Inductive RateLimitType : Type :=
| Global
| PerClient.

Record RateLimitInfo : Type := mkRateLimitInfo {
  limit_type : RateLimitType;
  retry_after : Duration;
  remaining : Z
}.

Definition retry_after_secs (i : RateLimitInfo) : Z := Z.max (as_secs (retry_after i)) 1.

Record RateLimitStats : Type := mkRateLimitStats {
  global_available : Z;
  client_count : Z;
  stat_requests_per_second : Z;
  stat_burst_size : Z
}.

(** ** The token bucket *)

Module TokenBucket.

Record bucket : Type := mk {
  tokens : f64;
  capacity : f64;
  refill_rate : f64;
  last_update : Instant
}.

Definition new (capacity refill_rate : f64) (now : Instant) : bucket :=
  mk capacity capacity refill_rate now.

Definition refill (now : Instant) (b : bucket) : bucket :=
  let elapsed := as_secs_f64 (duration_since now (last_update b)) in
  mk (f64_min (f64_add (tokens b) (f64_mul elapsed (refill_rate b))) (capacity b))
     (capacity b) (refill_rate b) now.

Definition try_consume (now : Instant) (b : bucket) : bool * bucket :=
  let b := refill now b in
  if f64_leb (of_Z 1) (tokens b) then
    (true, mk (f64_sub (tokens b) (of_Z 1)) (capacity b) (refill_rate b) (last_update b))
  else (false, b).

Definition wait_time (b : bucket) : outcome Duration :=
  if f64_leb (of_Z 1) (tokens b) then Returns 0
  else
    let needed := f64_sub (of_Z 1) (tokens b) in
    from_secs_f64 (f64_div needed (refill_rate b)).

Definition available_tokens (b : bucket) : f64 := tokens b.

End TokenBucket.

Module ClientEntry.

Record entry : Type := mk {
  bucket : TokenBucket.bucket;
  last_access : Instant
}.

Definition new (config : RateLimitConfig) (now : Instant) : entry :=
  mk (TokenBucket.new (of_Z (burst_size config)) (of_Z (requests_per_second config)) now) now.

Definition try_acquire (now : Instant) (e : entry) : bool * entry :=
  let '(ok, b) := TokenBucket.try_consume now (bucket e) in (ok, mk b now).

Definition is_expired (now : Instant) (ttl : Duration) (e : entry) : bool :=
  ttl <? elapsed now (last_access e).

End ClientEntry.

(** ** The limiter *)

Module RateLimiter.

Record limiter : Type := mk {
  config : RateLimitConfig;
  global_bucket : TokenBucket.bucket;
  client_buckets : gmap IpAddr ClientEntry.entry;
  last_cleanup : Instant
}.

Definition new (config : RateLimitConfig) (now : Instant) : limiter :=
  mk config
     (TokenBucket.new (of_Z (burst_size config)) (of_Z (requests_per_second config)) now)
     ∅ now.

Definition with_defaults (now : Instant) : limiter := new rate_limit_config_default now.

Section Headers.
Context {HH : HttpHeaders}.

Definition extract_client_ip (l : limiter) (headers : HeaderMap) (socket_addr : option IpAddr)
    : option IpAddr :=
  if trust_forwarded_for (config l) then
    let forwarded :=
      match hdr_get headers "x-forwarded-for" with
      | Some forwarded =>
          match to_str forwarded with
          | Some value =>
              let ips := map trim (split_on ","%char value) in
              match ips with
              | ip_str :: _ => parse_ip ip_str
              | [] => None
              end
          | None => None
          end
      | None => None
      end in
    match forwarded with
    | Some ip => Some ip
    | None =>
        let real :=
          match hdr_get headers "x-real-ip" with
          | Some real_ip =>
              match to_str real_ip with
              | Some value => parse_ip (trim value)
              | None => None
              end
          | None => None
          end in
        match real with
        | Some ip => Some ip
        | None => socket_addr
        end
    end
  else socket_addr.

End Headers.

Definition set_global (b : TokenBucket.bucket) (l : limiter) : limiter :=
  mk (config l) b (client_buckets l) (last_cleanup l).

Definition maybe_cleanup (now : Instant) (l : limiter) : limiter :=
  if elapsed now (last_cleanup l) <? from_secs 60 then l
  else
    let ttl := client_ttl (config l) in
    mk (config l) (global_bucket l)
       (filter (fun p => ClientEntry.is_expired now ttl p.2 = false) (client_buckets l)) now.

(** [check]: the answer and the limiter after it, or a panic. *)
Definition check (now : Instant) (client_ip : option IpAddr) (l : limiter)
    : outcome (result unit RateLimitInfo * limiter) :=
  let '(ok, g) := TokenBucket.try_consume now (global_bucket l) in
  let l := set_global g l in
  if negb ok then
    outcome_bind (TokenBucket.wait_time g) (fun wait =>
      Returns (Err {| limit_type := Global; retry_after := wait; remaining := 0 |}, l))
  else if per_client (config l) then
    match client_ip with
    | Some ip =>
        let l := maybe_cleanup now l in
        let entry := default (ClientEntry.new (config l) now) (client_buckets l !! ip) in
        let '(ok, entry) := ClientEntry.try_acquire now entry in
        let l := mk (config l) (global_bucket l) (<[ip := entry]> (client_buckets l))
                    (last_cleanup l) in
        if negb ok then
          outcome_bind (TokenBucket.wait_time (ClientEntry.bucket entry)) (fun wait =>
            Returns (Err {| limit_type := PerClient; retry_after := wait; remaining := 0 |}, l))
        else Returns (Ok tt, l)
    | None => Returns (Ok tt, l)
    end
  else Returns (Ok tt, l).

Definition check_with_headers {HH : HttpHeaders} (now : Instant) (headers : HeaderMap)
    (socket_addr : option IpAddr) (l : limiter) : outcome (result unit RateLimitInfo * limiter) :=
  check now (extract_client_ip l headers socket_addr) l.

Definition stats (l : limiter) : RateLimitStats :=
  {| global_available := to_u64 (TokenBucket.available_tokens (global_bucket l));
     client_count := Z.of_nat (size (client_buckets l));
     stat_requests_per_second := requests_per_second (config l);
     stat_burst_size := burst_size (config l) |}.

(** [RateLimitLayer]: a shared reference to a limiter. *)
Record RateLimitLayer : Type := mkRateLimitLayer { layer_limiter : limiter }.

(** A history of checks, each with its time and client; the answers so far, and
    the limiter unless a check panicked. *)
Fixpoint checks (cs : list (Instant * option IpAddr)) (l : limiter)
    : outcome (list (result unit RateLimitInfo) * limiter) :=
  match cs with
  | [] => Returns ([], l)
  | (now, ip) :: cs =>
      outcome_bind (check now ip l) (fun '(r, l) =>
        outcome_bind (checks cs l) (fun '(rs, l) => Returns (r :: rs, l)))
  end.

End RateLimiter.

(** ** Invariant *)

Module RateLimitFacts.
Import TokenBucket ClientEntry RateLimiter.

(** Instants of the monotonic clock, in nanoseconds. *)
Definition is_instant (t : Instant) : Prop := 0 <= t < u64_modulus * nanos_per_sec.

Definition config_ok (c : RateLimitConfig) : Prop :=
  is_u64 (requests_per_second c) /\ is_u64 (burst_size c).

(** A bucket of configuration [c]: the configured capacity and rate, and an
    amount of tokens within the capacity. *)
Definition bucket_ok (c : RateLimitConfig) (b : TokenBucket.bucket) : Prop :=
  capacity b = of_Z (burst_size c) /\
  refill_rate b = of_Z (requests_per_second c) /\
  is_instant (last_update b) /\
  amount (tokens b) /\ f64_leb (tokens b) (capacity b) = true.

Definition limiter_ok (c : RateLimitConfig) (l : limiter) : Prop :=
  config l = c /\
  bucket_ok c (global_bucket l) /\
  forall ip e, client_buckets l !! ip = Some e -> bucket_ok c (ClientEntry.bucket e).

Section Facts.
Context (c : RateLimitConfig) (Hc : config_ok c).

Lemma capacity_amount : amount (of_Z (burst_size c)).
Proof. apply of_Z_amount. destruct Hc. words. Qed.

Lemma bucket_new_ok now :
  is_instant now ->
  bucket_ok c (TokenBucket.new (of_Z (burst_size c)) (of_Z (requests_per_second c)) now).
Proof.
  intros Ht. pose proof capacity_amount as Ha.
  split_and!; try done. simpl. apply leb_refl. by apply amount_not_nan.
Qed.

Lemma is_duration_since now t : is_instant now -> is_instant t -> is_duration (duration_since now t).
Proof. unfold is_instant, is_duration, duration_since, nanos_per_sec in *. words. Qed.

Lemma refill_ok now b : is_instant now -> bucket_ok c b -> bucket_ok c (refill now b).
Proof.
  intros Ht (Hcap & Hrate & Hlast & (Hv & Hn & Hf) & Hle). unfold refill, bucket_ok; simpl.
  destruct (as_secs_f64_amount _ (is_duration_since now _ Ht Hlast)) as [Ve Ne].
  assert (Hr : amount (refill_rate b)) by (rewrite Hrate; apply of_Z_amount; destruct Hc; words).
  destruct Hr as (Vr & Nr & _).
  destruct (f64_mul_nonneg _ _ Ve Vr Ne Nr) as [Vm Nm].
  assert (Hsum : valid (f64_add (tokens b) (f64_mul (as_secs_f64 (duration_since now (last_update b))) (refill_rate b))) /\
    (nonneg (f64_add (tokens b) (f64_mul (as_secs_f64 (duration_since now (last_update b))) (refill_rate b))) \/
     is_nan (f64_add (tokens b) (f64_mul (as_secs_f64 (duration_since now (last_update b))) (refill_rate b))) = true)).
  { destruct Nm as [Nm|Nm]; [destruct (f64_add_nonneg _ _ Hv Vm Hn Nm); auto|].
    destruct (f64_mul _ _); try done. by destruct (tokens b) as [|[]| |]; simpl; auto. }
  destruct Hsum as [Vs Ns].
  destruct (f64_min_amount _ (capacity b) Vs Ns) as [Hamt Hmin]; [rewrite Hcap; apply capacity_amount|].
  done.
Qed.

Lemma try_consume_ok now b ok b' :
  is_instant now -> bucket_ok c b -> try_consume now b = (ok, b') -> bucket_ok c b'.
Proof.
  intros Ht Hb. unfold try_consume. pose proof (refill_ok now b Ht Hb) as Hr.
  destruct (f64_leb (of_Z 1) (tokens (refill now b))) eqn:E; intros; simplify_eq; [|done].
  destruct Hr as (Hcap & Hrate & Hlast & Ha & Hle). unfold bucket_ok; simpl.
  assert (H1 : amount (of_Z 1)) by by apply of_Z_amount.
  apply (amount_leb _ _ H1 Ha) in E.
  destruct (f64_sub_amount _ _ Ha H1 E) as [Hs Hv].
  assert (Hca : amount (capacity (refill now b))) by (rewrite Hcap; apply capacity_amount).
  apply (amount_leb _ _ Ha Hca) in Hle.
  split; [done|split; [done|split; [done|split; [done|]]]].
  apply amount_leb; [done..|]. simpl in *. lia.
Qed.

(** A failed attempt leaves less than one token. *)
Lemma try_consume_false now b b' :
  try_consume now b = (false, b') -> f64_leb (of_Z 1) (tokens b') = false.
Proof. unfold try_consume. case_match; intros; by simplify_eq. Qed.

(** With at least one request per second and less than one token, the wait is
    at most a second. *)
Lemma wait_time_ok b :
  1 <= requests_per_second c <= 2 ^ 53 -> bucket_ok c b ->
  exists d, wait_time b = Returns d /\ 0 <= d <= nanos_per_sec.
Proof.
  intros Hr (_ & Hrate & _ & Ha & _). unfold wait_time.
  destruct (f64_leb (of_Z 1) (tokens b)) eqn:E; [by exists 0|].
  assert (H1 : amount (of_Z 1)) by by apply of_Z_amount.
  assert (Hlt : value (tokens b) <= value (of_Z 1)).
  { destruct (Z.le_gt_cases (value (tokens b)) (value (of_Z 1))) as [|Hgt]; [done|].
    assert (f64_leb (of_Z 1) (tokens b) = true) by (apply amount_leb; [done..|lia]). congruence. }
  destruct (f64_sub_amount _ _ H1 Ha Hlt) as [Hs Hv].
  destruct (of_Z_value 1) as [_ V1]; [done|]. rewrite Z.mul_1_l in V1.
  destruct (of_Z_pos (requests_per_second c)) as (m & e & Em & Vm & _ & Um); [lia|].
  rewrite Hrate, Em.
  destruct (f64_div_le_one (f64_sub (of_Z 1) (tokens b)) m e) as [Hd Hdv]; try done.
  - rewrite Um. assert (0 < one_unit) by done. nia.
  - by apply from_secs_le_one.
Qed.

(** At rate zero the wait of an empty bucket divides by zero and panics. *)
Lemma wait_time_zero_rate b :
  requests_per_second c = 0 -> bucket_ok c b -> f64_leb (of_Z 1) (tokens b) = false ->
  wait_time b = Panics.
Proof.
  intros Hr (_ & Hrate & _ & Ha & _) E. unfold wait_time. rewrite E, Hrate, Hr.
  change (of_Z 0) with (S754_zero false). unfold f64_div, SFdiv.
  by destruct (f64_sub (of_Z 1) (tokens b)) as [s|s| |s m e].
Qed.

(** What a cleanup does to an entry: nothing, unless it is due and the entry expired. *)
Lemma cleanup_lookup now l ip :
  client_buckets (maybe_cleanup now l) !! ip = client_buckets l !! ip \/
  client_buckets (maybe_cleanup now l) !! ip = None /\
    from_secs 60 <= elapsed now (last_cleanup l) /\
    exists e, client_buckets l !! ip = Some e /\ is_expired now (client_ttl (config l)) e = true.
Proof.
  unfold maybe_cleanup. case_match eqn:E; [by left|]. simpl. rewrite map_lookup_filter.
  destruct (client_buckets l !! ip) as [e|]; simpl; [|by left].
  destruct (is_expired now (client_ttl (config l)) e) eqn:Ee.
  - right. rewrite option_guard_False by done. split; [done|]. split; [bools|]. by exists e.
  - left. by rewrite option_guard_True.
Qed.

Lemma maybe_cleanup_lookup now l ip e :
  client_buckets (maybe_cleanup now l) !! ip = Some e -> client_buckets l !! ip = Some e.
Proof.
  unfold maybe_cleanup. case_match; [done|]. simpl.
  intros [? _]%map_lookup_filter_Some. done.
Qed.

Lemma entry_ok now l ip :
  is_instant now -> limiter_ok c l ->
  bucket_ok c (ClientEntry.bucket (default (ClientEntry.new c now)
    (client_buckets (maybe_cleanup now l) !! ip))).
Proof.
  intros Ht (_ & _ & Hm). destruct (client_buckets (maybe_cleanup now l) !! ip) as [e|] eqn:E; simpl.
  - apply (Hm ip). by apply maybe_cleanup_lookup in E.
  - by apply bucket_new_ok.
Qed.

Lemma maybe_cleanup_config now l :
  config (maybe_cleanup now l) = config l /\ global_bucket (maybe_cleanup now l) = global_bucket l.
Proof. unfold maybe_cleanup. by case_match. Qed.

(** What one check does: the verdict, the global bucket and the client's entry. *)
Lemma check_cases now ip l r l' :
  check now ip l = Returns (r, l') ->
  exists ok g, try_consume now (global_bucket l) = (ok, g) /\
    match ok, per_client (config l), ip with
    | false, _, _ => exists d, wait_time g = Returns d /\ l' = set_global g l /\
        r = Err (mkRateLimitInfo Global d 0)
    | true, true, Some a => exists ok2 b2,
        let l1 := maybe_cleanup now (set_global g l) in
        let e := default (ClientEntry.new (config l) now) (client_buckets l1 !! a) in
        try_consume now (ClientEntry.bucket e) = (ok2, b2) /\
        l' = RateLimiter.mk (config l) g (<[a := ClientEntry.mk b2 now]> (client_buckets l1))
               (last_cleanup l1) /\
        if ok2 then r = Ok tt
        else exists d, wait_time b2 = Returns d /\ r = Err (mkRateLimitInfo PerClient d 0)
    | true, _, _ => r = Ok tt /\ l' = set_global g l
    end.
Proof.
  unfold check. destruct (try_consume now (global_bucket l)) as [ok g] eqn:Eg.
  intros H. exists ok, g. split; [done|]. destruct ok; simpl in H.
  - destruct (per_client (config l)), ip as [a|]; simpl in H; try by simplify_eq.
    destruct (maybe_cleanup_config now (set_global g l)) as [Hcfg Hg].
    rewrite Hcfg, Hg in H. simpl in *. unfold try_acquire in H.
    destruct (try_consume now (ClientEntry.bucket _)) as [ok2 b2] eqn:E2. exists ok2, b2. split; [done|].
    destruct ok2; simpl in H; [by simplify_eq|].
    destruct (wait_time b2) as [d|] eqn:Ew; simpl in H; simplify_eq. eauto.
  - destruct (wait_time g) as [d|] eqn:Ew; simpl in H; simplify_eq. eauto.
Qed.

Lemma set_global_ok g l : bucket_ok c g -> limiter_ok c l -> limiter_ok c (set_global g l).
Proof. by intros ? (? & _ & ?). Qed.

Lemma check_ok now ip l r l' :
  is_instant now -> limiter_ok c l -> check now ip l = Returns (r, l') -> limiter_ok c l'.
Proof.
  intros Ht Hl (ok & g & Eg & H)%check_cases.
  assert (Hg : bucket_ok c g) by (eapply try_consume_ok; [..|exact Eg]; [done|apply Hl]).
  assert (Hl1 : limiter_ok c (set_global g l)) by by apply set_global_ok.
  destruct ok, (per_client (config l)), ip as [a|];
    try (by destruct H as [_ ->]); try (by destruct H as (d & _ & -> & _)).
  destruct H as (ok2 & b2 & E2 & -> & _).
  pose proof (entry_ok now _ a Ht Hl1) as He. destruct Hl as (Hcfg & _ & _).
  rewrite Hcfg in *. split_and!; [done|done|].
  intros ip e. simpl. destruct (decide (ip = a)) as [->|Hne].
  - rewrite lookup_insert_eq. intros [= <-]. by eapply try_consume_ok.
  - rewrite lookup_insert_ne by done. intros ?%maybe_cleanup_lookup. by apply (proj2 (proj2 Hl1) ip).
Qed.

Definition rejection_ok (r : result unit RateLimitInfo) : Prop :=
  match r with
  | Ok _ => True
  | Err i => remaining i = 0 /\ 0 <= retry_after i <= nanos_per_sec /\ retry_after_secs i = 1
  end.

Lemma rejection_wait ty d : 0 <= d <= nanos_per_sec -> rejection_ok (Err (mkRateLimitInfo ty d 0)).
Proof.
  intros Hd. simpl. split; [done|split; [done|]]. unfold retry_after_secs, as_secs; simpl.
  assert (d / nanos_per_sec <= 1) by (apply Z.div_le_upper_bound; unfold nanos_per_sec in *; lia). lia.
Qed.

Lemma check_total now ip l :
  1 <= requests_per_second c <= 2 ^ 53 -> is_instant now -> limiter_ok c l ->
  exists r l', check now ip l = Returns (r, l') /\ rejection_ok r.
Proof.
  intros Hr Ht Hl. unfold check. destruct Hl as (Hcfg & Hgb & Hm).
  destruct (try_consume now (global_bucket l)) as [ok g] eqn:Eg.
  assert (Hg : bucket_ok c g) by by eapply try_consume_ok.
  destruct ok; simpl.
  - destruct (per_client (config l)), ip as [a|]; simpl; try by do 2 eexists.
    destruct (maybe_cleanup_config now (set_global g l)) as [-> ->]. simpl. rewrite Hcfg.
    pose proof (entry_ok now (set_global g l) a Ht (conj Hcfg (conj Hg Hm))) as He.
    unfold try_acquire. destruct (try_consume now (ClientEntry.bucket _)) as [ok2 b2] eqn:E2.
    assert (Hb2 : bucket_ok c b2) by by eapply try_consume_ok.
    destruct ok2; simpl; [by do 2 eexists|].
    destruct (wait_time_ok b2 Hr Hb2) as (d & -> & Hd). simpl. eauto using rejection_wait.
  - destruct (wait_time_ok g Hr Hg) as (d & -> & Hd). simpl. eauto using rejection_wait.
Qed.

Lemma new_ok now : is_instant now -> limiter_ok c (new c now).
Proof. intros Ht. split; [done|split; [by apply bucket_new_ok|]]. intros ip e. simpl. by rewrite lookup_empty. Qed.

Lemma checks_ok cs l rs l' :
  Forall (fun p => is_instant p.1) cs -> limiter_ok c l ->
  checks cs l = Returns (rs, l') -> limiter_ok c l'.
Proof.
  intros Hcs. revert l rs l'. induction Hcs as [|[now ip] cs Ht _ IH]; simpl; intros l rs l' Hl H.
  { by simplify_eq. }
  destruct (check now ip l) as [[r l1]|] eqn:E1; simpl in H; [|done].
  destruct (checks cs l1) as [[rs1 l2]|] eqn:E2; simpl in H; simplify_eq.
  eapply IH; [|done]. by eapply check_ok.
Qed.

(** *** A frozen clock *)

(** A bucket holding the integer [m], up to date at [t]. *)
Definition holds (t : Instant) (m : Z) (b : TokenBucket.bucket) : Prop :=
  tokens b = of_Z m /\ capacity b = of_Z (burst_size c) /\
  refill_rate b = of_Z (requests_per_second c) /\ last_update b = t.

Lemma refill_frozen t m b :
  burst_size c <= 2 ^ 53 -> 0 <= m <= burst_size c -> holds t m b -> refill t b = b.
Proof.
  intros Hn Hm (Htok & Hcap & Hrate & Hlast). destruct b as [tok cap rate last]; simpl in *; subst.
  unfold refill; simpl. f_equal.
  assert (Hr : amount (of_Z (requests_per_second c))) by (apply of_Z_amount; destruct Hc; words).
  unfold duration_since. rewrite Z.sub_diag. change (as_secs_f64 (Z.max 0 0)) with (S754_zero false).
  assert (exists s, f64_mul (S754_zero false) (of_Z (requests_per_second c)) = S754_zero s) as [s ->].
  { destruct Hr as (_ & Nr & Fr). by destruct (of_Z (requests_per_second c)) as [s|[]| |s]; try done; exists s. }
  assert (f64_add (of_Z m) (S754_zero s) = of_Z m) as ->.
  { destruct (decide (m = 0)) as [->|]; [by destruct s|].
    destruct (of_Z_pos m) as (mm & e & -> & _); [lia|done]. }
  assert (Ha : amount (of_Z m)) by (apply of_Z_amount; unfold u64_modulus; lia).
  pose proof capacity_amount as Hb. unfold f64_min.
  rewrite (amount_not_nan _ Ha), (amount_not_nan _ Hb).
  rewrite ltb_negb_leb by (by apply amount_not_nan). by rewrite of_Z_leb, (proj2 (Z.leb_le _ _)) by lia.
Qed.

Lemma try_consume_frozen t m b :
  burst_size c <= 2 ^ 53 -> 0 <= m <= burst_size c -> holds t m b ->
  exists b', try_consume t b = (1 <=? m, b') /\ holds t (if 1 <=? m then m - 1 else m) b'.
Proof.
  intros Hn Hm Hb. unfold try_consume. rewrite (refill_frozen t m b) by done.
  destruct Hb as (Htok & Hcap & Hrate & Hlast). rewrite Htok, of_Z_leb by lia.
  destruct (Z.leb_spec 1 m).
  - eexists. split; [done|]. split_and!; simpl; try done. apply f64_sub_one. lia.
  - by eexists.
Qed.

(** At [t], [m] tokens are left in all, and no client has fewer. *)
Definition drained (t : Instant) (m : Z) (l : limiter) : Prop :=
  config l = c /\ last_cleanup l = t /\ holds t m (global_bucket l) /\
  forall ip e, client_buckets l !! ip = Some e ->
    exists k, m <= k <= burst_size c /\ holds t k (ClientEntry.bucket e).

Lemma new_holds t : holds t (burst_size c) (TokenBucket.new (of_Z (burst_size c)) (of_Z (requests_per_second c)) t).
Proof. done. Qed.

Lemma maybe_cleanup_frozen t l : last_cleanup l = t -> maybe_cleanup t l = l.
Proof.
  intros <-. unfold maybe_cleanup, elapsed, duration_since. by rewrite Z.sub_diag.
Qed.

Lemma check_frozen_ok t m ip l :
  burst_size c <= 2 ^ 53 -> 1 <= m <= burst_size c -> drained t m l ->
  exists l', check t ip l = Returns (Ok tt, l') /\ drained t (m - 1) l'.
Proof.
  intros Hn Hm (Hcfg & Hcl & Hg & Hcs). unfold check.
  destruct (try_consume_frozen t m (global_bucket l)) as (g & Eg & Hg'); [done|lia|done|].
  rewrite Eg, (proj2 (Z.leb_le 1 m)) in * by lia. simpl.
  assert (Hd : drained t (m - 1) (set_global g l)).
  { split_and!; try done; [by apply Hg'..|]. intros a e He.
    destruct (Hcs a e He) as (k & ? & ?). exists k. split; [lia|done]. }
  destruct (per_client (config l)), ip as [a|]; try by eexists.
  rewrite maybe_cleanup_frozen by done. simpl. rewrite Hcfg.
  set (e := default _ _).
  assert (He : exists k, m <= k <= burst_size c /\ holds t k (ClientEntry.bucket e)).
  { subst e. destruct (client_buckets l !! a) as [e|] eqn:E; [by apply (Hcs a)|].
    exists (burst_size c). split; [lia|apply new_holds]. }
  destruct He as (k & Hk & He).
  destruct (try_consume_frozen t k (ClientEntry.bucket e)) as (b2 & E2 & Hb2); [done|lia|done|].
  rewrite (proj2 (Z.leb_le 1 k)) in * by lia. unfold try_acquire. rewrite E2. simpl.
  eexists. split; [done|]. split; [done|split; [done|split; [done|]]].
  intros ip e'. simpl. destruct (decide (ip = a)) as [->|Hne].
  - rewrite lookup_insert_eq. intros [= <-]. exists (k - 1). split; [lia|done].
  - rewrite lookup_insert_ne by done. by apply Hd.
Qed.

Lemma check_frozen_empty t ip l :
  burst_size c <= 2 ^ 53 -> is_u64 (burst_size c) -> drained t 0 l ->
  exists l', drained t 0 l' /\
    check t ip l = outcome_bind (wait_time (global_bucket l'))
      (fun d => Returns (Err (mkRateLimitInfo Global d 0), l')).
Proof.
  intros Hn Hu (Hcfg & Hcl & Hg & Hcs). unfold check.
  destruct (try_consume_frozen t 0 (global_bucket l)) as (g & Eg & Hg'); [done|words|done|].
  rewrite Eg. simpl. by exists (set_global g l).
Qed.

(** The first [m] checks pass, whoever asks. *)
Lemma checks_frozen_ok t m ips l :
  burst_size c <= 2 ^ 53 -> 0 <= m <= burst_size c -> Z.of_nat (length ips) <= m -> drained t m l ->
  exists l', checks (map (pair t) ips) l = Returns (replicate (length ips) (Ok tt), l') /\
    drained t (m - Z.of_nat (length ips)) l'.
Proof.
  intros Hn. revert m l. induction ips as [|ip ips IH]; simpl; intros m l Hm Hlen Hd.
  { exists l. split; [done|]. by rewrite Z.sub_0_r. }
  destruct (check_frozen_ok t m ip l) as (l1 & -> & Hd1); [done|lia|done|]. simpl.
  destruct (IH (m - 1) l1) as (l2 & -> & Hd2); [lia|lia|done|]. simpl.
  exists l2. split; [done|]. by replace (m - Z.of_nat (S (length ips))) with (m - 1 - Z.of_nat (length ips)) by lia.
Qed.

Lemma new_drained t : drained t (burst_size c) (new c t).
Proof. split; [done|split; [done|split; [done|]]]. intros ip e. simpl. by rewrite lookup_empty. Qed.

Lemma checks_app cs1 cs2 l :
  checks (cs1 ++ cs2)%list l = outcome_bind (checks cs1 l) (fun '(rs1, l1) =>
    outcome_bind (checks cs2 l1) (fun '(rs2, l2) => Returns ((rs1 ++ rs2)%list, l2))).
Proof.
  revert l. induction cs1 as [|[now ip] cs1 IH]; simpl; intros l.
  { by destruct (checks cs2 l) as [[]|]. }
  destruct (check now ip l) as [[r l1]|]; simpl; [|done]. rewrite IH.
  destruct (checks cs1 l1) as [[rs1 l2]|]; simpl; [|done].
  by destruct (checks cs2 l2) as [[]|].
Qed.

(** Once the global bucket is empty every check is a global rejection. *)
Lemma checks_frozen_empty t ips l :
  1 <= requests_per_second c <= 2 ^ 53 -> burst_size c <= 2 ^ 53 -> is_instant t -> drained t 0 l ->
  exists rs l', checks (map (pair t) ips) l = Returns (rs, l') /\ length rs = length ips /\
    Forall (fun r => exists i, r = Err i /\ limit_type i = Global) rs.
Proof.
  intros Hr Hn Ht. assert (Hb := proj2 Hc). revert l.
  induction ips as [|ip ips IH]; simpl; intros l Hd; [by exists [], l|].
  destruct (check_frozen_empty t ip l Hn Hb Hd) as (l1 & Hd1 & ->).
  assert (Hok : exists d, wait_time (global_bucket l1) = Returns d).
  { destruct Hd1 as (_ & _ & (Htok & Hcap & Hrate & Hlast) & _).
    destruct (wait_time_ok (global_bucket l1) Hr) as (d & ? & _); [|by exists d].
    unfold bucket_ok. rewrite Htok, Hcap, Hrate, Hlast.
    split; [done|split; [done|split; [done|split]]]; [by apply of_Z_amount|].
    rewrite of_Z_leb by words. apply Z.leb_le. words. }
  destruct Hok as [d ->]. simpl. destruct (IH l1 Hd1) as (rs & l2 & -> & Hlen & HF). simpl.
  eexists _, _. split; [done|]. split; [simpl; congruence|]. constructor; [by eexists|done].
Qed.

End Facts.
End RateLimitFacts.

(** ** Properties *)

Import RateLimitFacts.

Lemma small_config_ok : config_ok (rate_limit_config_new 10 2).
Proof. split; simpl; words. Qed.

Lemma instant_small t : 0 <= t < 1000000 -> is_instant t.
Proof. unfold is_instant, nanos_per_sec. words. Qed.

(** C29. However the limiter was used, every bucket (the global one and each
    client's) holds a finite, canonical, non-negative number of tokens within the
    configured capacity and keeps the configured rate; the statistics never report
    more tokens than the configured burst. *)
Theorem limiter_invariant c t0 cs rs l :
  config_ok c -> is_instant t0 -> Forall (fun p => is_instant p.1) cs ->
  RateLimiter.checks cs (RateLimiter.new c t0) = Returns (rs, l) ->
  limiter_ok c l /\
  (burst_size c <= 2 ^ 53 -> 0 <= global_available (RateLimiter.stats l) <= burst_size c).
Proof.
  intros Hc Ht Hcs H. pose proof (checks_ok c Hc _ _ _ _ Hcs (new_ok c Hc t0 Ht) H) as Hl.
  split; [done|]. intros Hn. destruct Hl as (_ & (Hcap & _ & _ & Ha & Hle) & _). simpl.
  rewrite Hcap in Hle. apply to_u64_bound; [done| |done]. destruct Hc as [_ Hb]. words.
Qed.

Lemma limiter_invariant_witness :
  exists rs l,
    RateLimiter.checks [(5, None); (7, Some (V4 [1; 2; 3; 4]))]
      (RateLimiter.new (rate_limit_config_new 10 2) 0) = Returns (rs, l) /\
    limiter_ok (rate_limit_config_new 10 2) l.
Proof.
  eexists _, _. split; [vm_compute; reflexivity|].
  eapply (limiter_invariant (rate_limit_config_new 10 2) 0 [(5, None); (7, Some (V4 [1; 2; 3; 4]))]).
  - apply small_config_ok.
  - by apply instant_small.
  - repeat constructor; by apply instant_small.
  - vm_compute. reflexivity.
Defined.

(** C19. With a rate of at least one request per second (and at most 2^53), no history of checks ever
    panics; every rejection announces no remaining requests, suggests a wait of
    at most one second, and is reported to the client as a [Retry-After] of 1. *)
Theorem checks_never_panic c t0 cs :
  config_ok c -> 1 <= requests_per_second c <= 2 ^ 53 ->
  is_instant t0 -> Forall (fun p => is_instant p.1) cs ->
  exists rs l, RateLimiter.checks cs (RateLimiter.new c t0) = Returns (rs, l) /\
    length rs = length cs /\ Forall rejection_ok rs.
Proof.
  intros Hc Hr Ht Hcs. generalize (new_ok c Hc t0 Ht). generalize (RateLimiter.new c t0).
  induction Hcs as [|[now ip] cs Hnow _ IH]; simpl; intros l Hl; [by exists [], l|].
  destruct (check_total c Hc now ip l Hr Hnow Hl) as (r & l1 & E & Hok). rewrite E. simpl.
  destruct (IH l1) as (rs & l2 & -> & Hlen & Hrs); [by eapply check_ok|]. simpl.
  exists (r :: rs), l2. split; [done|]. split; [simpl; congruence|by constructor].
Qed.

Lemma checks_never_panic_witness :
  exists rs l, RateLimiter.checks [(0, None); (0, None); (0, None)]
      (RateLimiter.new (rate_limit_config_new 10 2) 0) = Returns (rs, l) /\
    length rs = 3%nat /\ Forall rejection_ok rs.
Proof.
  apply (checks_never_panic (rate_limit_config_new 10 2) 0 [(0, None); (0, None); (0, None)]).
  - apply small_config_ok.
  - simpl. lia.
  - by apply instant_small.
  - repeat constructor; by apply instant_small.
Defined.

(** C31. Configured with rate 0 (which nothing rejects), the limiter never answers
    "rate limited": a check that returns has admitted the request, and the check
    that finds a bucket empty panics, dividing the missing token by the rate. At a
    frozen clock that is exactly the check after [burst_size] admissions. *)
Theorem zero_rate_panics c t0 cs rs l :
  config_ok c -> requests_per_second c = 0 -> is_instant t0 ->
  Forall (fun p => is_instant p.1) cs ->
  RateLimiter.checks cs (RateLimiter.new c t0) = Returns (rs, l) ->
  (forall now ip r l', is_instant now -> RateLimiter.check now ip l = Returns (r, l') -> r = Ok tt) /\
  (burst_size c <= 2 ^ 53 -> forall ips ip, Z.of_nat (length ips) = burst_size c ->
     RateLimiter.checks (map (pair t0) (ips ++ [ip])) (RateLimiter.new c t0) = Panics).
Proof.
  intros Hc Hr Ht Hcs H. pose proof (checks_ok c Hc _ _ _ _ Hcs (new_ok c Hc t0 Ht) H) as Hl. split.
  - intros now ip r l' Hnow (ok & g & Eg & Hcase)%check_cases.
    pose proof (try_consume_ok c Hc now _ _ _ Hnow (proj1 (proj2 Hl)) Eg) as Hg.
    destruct ok.
    + destruct (per_client (RateLimiter.config l)), ip as [a|]; try by destruct Hcase.
      destruct Hcase as (ok2 & b2 & E2 & _ & Hres). destruct ok2; [done|]. exfalso.
      destruct Hres as (d & Hw & _). rewrite (proj1 Hl) in E2.
      pose proof (entry_ok c Hc now _ a Hnow (set_global_ok c g l Hg Hl)) as He.
      pose proof (try_consume_ok c Hc now _ _ _ Hnow He E2) as Hb2.
      apply try_consume_false in E2. by rewrite (wait_time_zero_rate c b2 Hr Hb2 E2) in Hw.
    + exfalso. destruct Hcase as (d & Hw & _). apply try_consume_false in Eg.
      by rewrite (wait_time_zero_rate c g Hr Hg Eg) in Hw.
  - intros Hn ips ip Hlen. rewrite map_app, checks_app. assert (Hb := proj2 Hc).
    destruct (checks_frozen_ok c Hc t0 (burst_size c) ips (RateLimiter.new c t0))
      as (l1 & -> & Hd); [done|words|lia|by apply new_drained|]. simpl.
    rewrite Hlen, Z.sub_diag in Hd.
    destruct (check_frozen_empty c Hc t0 ip l1 Hn Hb Hd) as (l2 & Hd2 & ->).
    destruct Hd2 as (_ & _ & (Htok & Hcap & Hrate & Hlast) & _).
    unfold TokenBucket.wait_time. rewrite Htok, Hrate, Hr. done.
Qed.

Lemma zero_rate_panics_witness :
  RateLimiter.checks (map (pair 0) [None; None; None])
    (RateLimiter.new (rate_limit_config_new 0 2) 0) = Panics.
Proof.
  apply (zero_rate_panics (rate_limit_config_new 0 2) 0 [] [] (RateLimiter.new (rate_limit_config_new 0 2) 0))
    with (ips := [None; None]) (ip := None).
  - split; simpl; words.
  - reflexivity.
  - by apply instant_small.
  - constructor.
  - reflexivity.
  - done.
  - reflexivity.
Defined.

(** C22. At one instant a fresh limiter admits exactly [burst_size] requests in
    all, whichever clients they come from; every later one is refused by the
    global bucket. A client bucket never runs dry first: per-client limiting,
    which inherits the global rate and burst, gives a client no share of its own. *)
Theorem burst_then_global c t ips :
  config_ok c -> 1 <= requests_per_second c <= 2 ^ 53 -> burst_size c <= 2 ^ 53 -> is_instant t ->
  exists rs l, RateLimiter.checks (map (pair t) ips) (RateLimiter.new c t) = Returns (rs, l) /\
    length rs = length ips /\
    forall k r, rs !! k = Some r ->
      if Z.of_nat k <? burst_size c then r = Ok tt
      else exists i, r = Err i /\ limit_type i = Global.
Proof.
  intros Hc Hr Hn Ht. set (n := Z.to_nat (burst_size c)). assert (Hb := proj2 Hc).
  rewrite <-(take_drop n ips), map_app, checks_app.
  destruct (checks_frozen_ok c Hc t (burst_size c) (take n ips) (RateLimiter.new c t))
    as (l1 & -> & Hd); [done|words|rewrite length_take; subst n; words|by apply new_drained|]. simpl.
  destruct (decide (length ips <= n)%nat) as [Hle|Hgt].
  - rewrite drop_ge by done. simpl. eexists _, _. split; [done|].
    rewrite !app_nil_r, length_replicate. split; [done|]. intros k r [-> Hk]%lookup_replicate.
    rewrite length_take in Hk. rewrite (proj2 (Z.ltb_lt _ _)); [done|]. subst n. lia.
  - rewrite length_take in *. rewrite Nat.min_l in * by lia.
    replace (burst_size c - Z.of_nat n) with 0 in Hd by (subst n; words).
    destruct (checks_frozen_empty c Hc t (drop n ips) l1 Hr Hn Ht Hd) as (rs & l2 & -> & Hlen & HF). simpl.
    eexists _, _. split; [done|]. rewrite !length_app, length_replicate, length_take, Hlen.
    split; [lia|]. intros k r Hk. destruct (Z.ltb_spec (Z.of_nat k) (burst_size c)).
    + rewrite lookup_app_l in Hk by (rewrite length_replicate; subst n; lia).
      by apply lookup_replicate in Hk as [-> _].
    + rewrite lookup_app_r in Hk by (rewrite length_replicate; subst n; lia).
      by apply (proj1 (Forall_lookup _ _) HF _ _ Hk).
Qed.

Lemma burst_then_global_witness :
  exists rs l, RateLimiter.checks (map (pair 0) [Some (V4 [1; 2; 3; 4]); None; Some (V4 [1; 2; 3; 5])])
      (RateLimiter.new (rate_limit_config_new 10 2) 0) = Returns (rs, l) /\
    length rs = 3%nat /\
    forall k r, rs !! k = Some r ->
      if Z.of_nat k <? 2 then r = Ok tt else exists i, r = Err i /\ limit_type i = Global.
Proof.
  apply (burst_then_global (rate_limit_config_new 10 2) 0
    [Some (V4 [1; 2; 3; 4]); None; Some (V4 [1; 2; 3; 5])]).
  - apply small_config_ok.
  - simpl. lia.
  - simpl. lia.
  - by apply instant_small.
Defined.

(** C30. One client's check cannot cost another client anything but global
    tokens: another client's entry is left as it was, or dropped by a cleanup that
    was due because it had not been used for longer than the time to live. The
    checked client has an entry afterwards unless the global bucket refused, and a
    request its own bucket refuses has still consumed a global token. *)
Theorem check_isolates_clients now a l r l' :
  per_client (RateLimiter.config l) = true ->
  RateLimiter.check now (Some a) l = Returns (r, l') ->
  RateLimiter.global_bucket l' = (TokenBucket.try_consume now (RateLimiter.global_bucket l)).2 /\
  ((TokenBucket.try_consume now (RateLimiter.global_bucket l)).1 = true ->
     (exists e, RateLimiter.client_buckets l' !! a = Some e /\ ClientEntry.last_access e = now) /\
     (forall i, r = Err i -> limit_type i = PerClient)) /\
  ((TokenBucket.try_consume now (RateLimiter.global_bucket l)).1 = false ->
     exists i, r = Err i /\ limit_type i = Global) /\
  forall b, b <> a ->
    RateLimiter.client_buckets l' !! b = RateLimiter.client_buckets l !! b \/
    RateLimiter.client_buckets l' !! b = None /\
      from_secs 60 <= elapsed now (RateLimiter.last_cleanup l) /\
      exists e, RateLimiter.client_buckets l !! b = Some e /\
        ClientEntry.is_expired now (client_ttl (RateLimiter.config l)) e = true.
Proof.
  intros Hp (ok & g & Eg & H)%check_cases. rewrite Eg, Hp in *. destruct ok; simpl.
  - destruct H as (ok2 & b2 & E2 & -> & Hr). simpl. split; [done|]. split_and!.
    + intros _. split; [eexists; by rewrite lookup_insert_eq|].
      intros i ->. destruct ok2; [done|]. by destruct Hr as (d & _ & [= ->]).
    + done.
    + intros b Hb. rewrite lookup_insert_ne by done. apply (cleanup_lookup now (RateLimiter.set_global g l)).
  - destruct H as (d & Hd & -> & ->). split_and!; simpl; eauto. done.
Qed.

Lemma check_isolates_clients_witness :
  exists r l', RateLimiter.check 5 (Some (V4 [1; 2; 3; 4]))
      (RateLimiter.new (rate_limit_config_new 10 2) 0) = Returns (r, l') /\
    RateLimiter.global_bucket l' =
      (TokenBucket.try_consume 5 (RateLimiter.global_bucket (RateLimiter.new (rate_limit_config_new 10 2) 0))).2.
Proof.
  eexists _, _. split; [vm_compute; reflexivity|].
  eapply (check_isolates_clients 5 (V4 [1; 2; 3; 4]) (RateLimiter.new (rate_limit_config_new 10 2) 0)).
  - reflexivity.
  - vm_compute. reflexivity.
Defined.

(** The address a request is charged to, from the two headers and the socket. *)
Lemma extract_client_ip_cases `{HH : HttpHeaders} l headers sock :
  let forwarded := ((hdr_get headers "x-forwarded-for" ≫= to_str) ≫=
    (fun v => head (split_on ","%char v))) ≫= (fun s => parse_ip (trim s)) in
  let real := (hdr_get headers "x-real-ip" ≫= to_str) ≫= (fun v => parse_ip (trim v)) in
  RateLimiter.extract_client_ip l headers sock =
    if trust_forwarded_for (RateLimiter.config l) then or_else forwarded (or_else real sock) else sock.
Proof.
  intros forwarded real.
  unfold RateLimiter.extract_client_ip. destruct (trust_forwarded_for _); [|done].
  subst forwarded real. destruct (hdr_get headers "x-forwarded-for") as [f|]; simpl.
  1: destruct (to_str f) as [v|]; simpl.
  1: destruct (split_on _ v) as [|p ps]; simpl.
  all: try (destruct (parse_ip (trim p)); [done|]).
  all: destruct (hdr_get headers "x-real-ip") as [g|]; simpl; try done.
  all: destruct (to_str g) as [w|]; simpl; try done.
  all: by destruct (parse_ip (trim w)).
Qed.

(** A client the limiter has no entry of is refused by the global bucket only. *)
Lemma unseen_client c now ip l r l' :
  config_ok c -> 1 <= burst_size c <= 2 ^ 53 -> RateLimiter.config l = c ->
  RateLimiter.client_buckets l !! ip = None -> RateLimiter.check now (Some ip) l = Returns (r, l') ->
  if (TokenBucket.try_consume now (RateLimiter.global_bucket l)).1 then r = Ok tt
  else exists i, r = Err i /\ limit_type i = Global.
Proof.
  intros Hc Hb Hcfg Hnone (ok & g & Eg & H)%check_cases. rewrite Eg. simpl. destruct ok.
  - destruct (per_client (RateLimiter.config l)); [|by destruct H as [-> _]].
    destruct H as (ok2 & b2 & E2 & _ & Hr).
    destruct (RateLimiter.client_buckets (RateLimiter.maybe_cleanup now (RateLimiter.set_global g l)) !! ip) as [e|] eqn:E.
    { apply maybe_cleanup_lookup in E. simpl in E. congruence. }
    simpl in E2. rewrite Hcfg in E2.
    destruct (try_consume_frozen c Hc now (burst_size c)
      (TokenBucket.new (of_Z (burst_size c)) (of_Z (requests_per_second c)) now)) as (b' & Eb & _); [lia|lia|apply new_holds|].
    rewrite Eb, (proj2 (Z.leb_le _ _)) in E2 by lia. injection E2 as <- _. done.
  - destruct H as (d & _ & _ & ->). by eexists.
Qed.

(** C35. Who decides which bucket a request is charged to. Without trust in the headers the
    request is treated by its socket's address, whatever headers it has. With trust it is the
    author of the leftmost element of [X-Forwarded-For], the client itself: whatever
    addresses the proxies on the way append, and whatever [max_forwarded_ips] says, the
    request is charged to that element when it is an address. So a client that names
    another address each time never meets the per-client limit: a request for an address
    without an entry is refused by the global bucket only, and admitted when that
    has a token, however many requests the same peer has sent. *)
Theorem forwarded_for_trusts_client `{HH : HttpHeaders} c l headers sock now :
  config_ok c -> 1 <= burst_size c <= 2 ^ 53 -> RateLimiter.config l = c ->
  (trust_forwarded_for c = false -> forall headers',
     RateLimiter.check_with_headers now headers sock l = RateLimiter.check_with_headers now headers' sock l) /\
  (trust_forwarded_for c = true -> forall v appended w ip,
     hdr_get headers "x-forwarded-for" ≫= to_str = Some (String.append v (String "," appended)) ->
     head (split_on ","%char v) = Some w -> parse_ip (trim w) = Some ip ->
     RateLimiter.check_with_headers now headers sock l = RateLimiter.check now (Some ip) l /\
     (RateLimiter.client_buckets l !! ip = None -> forall r l',
        RateLimiter.check_with_headers now headers sock l = Returns (r, l') ->
        if (TokenBucket.try_consume now (RateLimiter.global_bucket l)).1 then r = Ok tt
        else exists i, r = Err i /\ limit_type i = Global)).
Proof.
  intros Hc Hb Hcfg. unfold RateLimiter.check_with_headers. split.
  - intros Ht headers'. by rewrite !extract_client_ip_cases, Hcfg, Ht.
  - intros Ht v appended w ip Hv Hw Hip.
    assert (E : RateLimiter.extract_client_ip l headers sock = Some ip).
    { rewrite extract_client_ip_cases, Hcfg, Ht, Hv. cbn [mbind option_bind].
      rewrite split_on_head_append, Hw. cbn [mbind option_bind]. by rewrite Hip. }
    rewrite E. split; [done|]. intros Hnone r l'. by apply (unseen_client c).
Qed.

(** A peer that writes an address of its own choice before the proxy appends the peer's. *)
Definition trusting_config : RateLimitConfig :=
  with_trust_forwarded_for true (rate_limit_config_new 10 2).
Definition forged : @HeaderMap assoc_headers := [("x-forwarded-for", "9.9.9.9, 10.0.0.1")].

Lemma forwarded_for_trusts_client_witness :
  exists r l', RateLimiter.check_with_headers (HH := assoc_headers) 5 forged (Some (V4 [1; 2; 3; 4]))
      (RateLimiter.new trusting_config 0) = Returns (r, l') /\ r = Ok tt.
Proof.
  eexists _, _. split; [vm_compute; reflexivity|].
  refine (proj2 (proj2 (forwarded_for_trusts_client (HH := assoc_headers) trusting_config
    (RateLimiter.new trusting_config 0) forged (Some (V4 [1; 2; 3; 4])) 5 _ _ _) _ "9.9.9.9" " 10.0.0.1" "9.9.9.9"
    (V4 [9; 9; 9; 9]) _ _ _) _ _ _ _); try reflexivity.
  - split; simpl; words.
  - simpl. lia.
Defined.
