(* ===== verification/RateBound.v ===== *)
(** * What a rate limiter admits over time (src/src/ratelimit.rs)

    The token bucket computes in binary64, and every refill rounds. This file
    bounds the accumulated error: how much one refill can add at most, how much
    it adds at least, and what follows for every period of every history of checks.
    The amounts are values in units of [2^-1074] ([one_unit] is one token). *)

From Stdlib Require Import SpecFloat Sorted.
From stdpp Require Import prelude gmap.
From S2P Require Import Prelude RustStr F64 F64Error RateLimit.
Import RateLimitFacts TokenBucket RateLimiter.
Open Scope Z_scope.

(** ** One refill *)

Lemma f64_min_value x y :
  amount x -> amount y -> value (f64_min x y) = Z.min (value x) (value y).
Proof.
  intros Hx Hy. unfold f64_min.
  rewrite (amount_not_nan _ Hx), (amount_not_nan _ Hy), ltb_negb_leb by (by apply amount_not_nan).
  destruct (f64_leb x y) eqn:E; simpl.
  - apply (amount_leb _ _ Hx Hy) in E. lia.
  - assert (~ value x <= value y) by (intros ?%(amount_leb _ _ Hx Hy); congruence). lia.
Qed.

Section Refill.
Context (c : RateLimitConfig) (Hc : config_ok c).
Context (Hr : requests_per_second c <= 2 ^ 53) (Hb : burst_size c <= 2 ^ 53).

(** What a duration is worth in tokens, as the code computes it. *)
Definition earned (d : Duration) : f64 := f64_mul (as_secs_f64 d) (of_Z (requests_per_second c)).

Lemma rate_amount : amount (of_Z (requests_per_second c)) /\
  value (of_Z (requests_per_second c)) = requests_per_second c * one_unit.
Proof. destruct Hc as [[? ?] _]. split; [apply of_Z_amount; words|]. apply of_Z_value. lia. Qed.

Lemma burst_amount : amount (of_Z (burst_size c)) /\
  value (of_Z (burst_size c)) = burst_size c * one_unit.
Proof. destruct Hc as [_ [? ?]]. split; [apply of_Z_amount; words|]. apply of_Z_value. lia. Qed.

Lemma earned_upper d :
  is_duration d ->
  amount (earned d) /\ value (earned d) <= 2 ^ 125 * one_unit /\
  2 ^ 52 * nanos_per_sec * value (earned d) <=
    (2 ^ 52 + 4) * (requests_per_second c * d * one_unit) + nanos_per_sec * one_unit.
Proof.
  intros Hd. destruct (as_secs_error d Hd) as (Ha & Hle & He). destruct rate_amount as [Hra Hrv].
  destruct Hc as [[Hr0 _] _]. pose proof one_unit_pos as Hone. unfold is_duration in Hd.
  pose proof (value_nonneg _ (proj1 Ha)) as Hv0. unfold earned.
  assert (Hf : amount (f64_mul (as_secs_f64 d) (of_Z (requests_per_second c)))).
  { apply f64_mul_finite; [done|done|]. rewrite Hrv.
    apply Z.le_lt_trans with (2 ^ 66 * one_unit * (2 ^ 53 * one_unit)).
    - apply Z.mul_le_mono_nonneg; nia.
    - unfold one_unit. rewrite <-!Z.pow_add_r by lia. apply Z.pow_lt_mono_r; lia. }
  pose proof (f64_mul_error _ _ Ha Hra (proj2 (proj2 Hf))) as Hm. rewrite Hrv in Hm.
  set (vm := value (f64_mul _ _)) in *. set (v := value (as_secs_f64 d)) in *.
  set (R := requests_per_second c) in *.
  assert (Hm2 : 2 ^ 52 * vm <= (2 ^ 52 + 1) * (v * R) + 2 ^ 52).
  { apply (mul_le_cancel _ _ one_unit Hone). clear -Hm. nia. }
  assert (Hbig : 2 ^ 200 <= one_unit) by (apply Z.pow_le_mono_r; lia).
  split; [done|]. split.
  - assert (v * R <= 2 ^ 119 * one_unit) by (clear -Hle Hv0 Hr Hr0 Hone; nia).
    clear -H Hm2 Hbig. lia.
  - apply (mul_le_cancel _ _ (2 ^ 104)); [done|].
    unfold nanos_per_sec in *. clearbody vm v R.
    assert (HvR : 2 ^ 104 * (v * 1000000000) * R <=
      ((2 ^ 52 + 1) ^ 2 * (d * one_unit) + (2 ^ 52 + 1) * 2 ^ 52 * 1000000000) * R)
      by (apply Z.mul_le_mono_nonneg_r; lia).
    assert (HRd : 0 <= R * d * one_unit) by (apply Z.mul_nonneg_nonneg; [apply Z.mul_nonneg_nonneg; lia|lia]).
    assert (HRbig : R * 2 ^ 130 <= one_unit) by lia.
    replace (d * one_unit * R) with (R * d * one_unit) in * by ring.
    set (X := R * d * one_unit) in *.
    replace (((2 ^ 52 + 1) ^ 2 * (d * one_unit) + (2 ^ 52 + 1) * 2 ^ 52 * 1000000000) * R)
      with ((2 ^ 52 + 1) ^ 2 * X + (2 ^ 52 + 1) * 2 ^ 52 * 1000000000 * R) in HvR by (subst X; ring).
    set (Y := v * R) in *. replace (2 ^ 104 * (v * 1000000000) * R) with (2 ^ 104 * 1000000000 * Y) in HvR
      by (subst Y; ring). clearbody X Y. lia.
Qed.

(** The value of a bucket's tokens, and of its capacity. *)
Definition held (b : TokenBucket.bucket) : Z := value (tokens b).

Lemma held_range b : bucket_ok c b -> 0 <= held b <= burst_size c * one_unit.
Proof.
  intros (Hcap & _ & _ & Ha & Hle). split; [apply value_nonneg, Ha|].
  destruct burst_amount as [Hba Hbv]. rewrite <-Hbv. rewrite Hcap in Hle. by apply amount_leb in Hle.
Qed.

Lemma refill_sum now b :
  is_instant now -> bucket_ok c b ->
  let e := earned (duration_since now (last_update b)) in
  amount (f64_add (tokens b) e) /\
  held (refill now b) = Z.min (value (f64_add (tokens b) e)) (burst_size c * one_unit).
Proof.
  intros Hnow Hbk e. destruct burst_amount as [Hba Hbv]. pose proof (held_range b Hbk) as Hh.
  destruct Hbk as (Hcap & Hrate & Hlast & Ha & Hle). pose proof one_unit_pos as Hone.
  destruct (earned_upper (duration_since now (last_update b))) as (Hea & Hev & _);
    [by apply is_duration_since|]. fold e in Hea, Hev.
  assert (Hs : amount (f64_add (tokens b) e)).
  { apply f64_add_finite; [done|done|]. unfold held in Hh.
    transitivity (2 ^ 126 * one_unit); [nia|]. unfold one_unit.
    rewrite <-!Z.pow_add_r by lia. apply Z.pow_le_mono_r; lia. }
  split; [done|]. unfold held, refill. cbn [tokens]. rewrite Hrate, Hcap.
  change (f64_mul _ _) with e. rewrite f64_min_value by done. by rewrite Hbv.
Qed.

(** A refill adds at most what the elapsed time is worth, up to rounding: at most
    four parts in [2^52] of it, and at most one part in [2^52] of the capacity and
    of a token. *)
Lemma refill_upper now b :
  is_instant now -> bucket_ok c b ->
  2 ^ 52 * nanos_per_sec * held (refill now b) <=
    2 ^ 52 * nanos_per_sec * held b +
    (2 ^ 52 + 4) * (requests_per_second c * duration_since now (last_update b) * one_unit) +
    nanos_per_sec * ((burst_size c + 1) * one_unit).
Proof.
  intros Hnow Hbk. destruct (refill_sum now b Hnow Hbk) as [Hsa ->].
  pose proof (held_range b Hbk) as Hh. destruct Hbk as (Hcap & Hrate & Hlast & Ha & Hle).
  destruct (earned_upper (duration_since now (last_update b))) as (Hea & _ & Hev);
    [by apply is_duration_since|].
  set (e := earned _) in *. pose proof (f64_add_error _ _ Ha Hea (proj2 (proj2 Hsa))) as Hadd.
  fold (held b) in Hadd. set (d := duration_since _ _) in *.
  set (X := requests_per_second c * d * one_unit) in *.
  set (B := burst_size c * one_unit) in *.
  replace ((burst_size c + 1) * one_unit) with (B + one_unit) by (subst B; ring).
  pose proof (value_nonneg _ (proj1 Hea)). unfold nanos_per_sec in *. lia.
Qed.

(** A refill after [s] whole seconds brings at least [s] times the rate, or fills
    the bucket: the roundings never lose a whole token. *)
Lemma refill_lower now b s :
  is_instant now -> bucket_ok c b -> 0 <= s -> s * requests_per_second c <= 2 ^ 53 ->
  s <= 2 ^ 53 -> last_update b + from_secs s <= now ->
  Z.min (burst_size c) (s * requests_per_second c) * one_unit <= held (refill now b).
Proof.
  intros Hnow Hbk Hs HsR Hs53 Hlate. destruct (refill_sum now b Hnow Hbk) as [Hsa ->].
  destruct rate_amount as [Hra Hrv]. destruct Hc as [[HR0 _] [HB0 _]].
  pose proof (held_range b Hbk) as Hh. destruct Hbk as (Hcap & Hrate & Hlast & Ha & Hle).
  pose proof (is_duration_since now _ Hnow Hlast) as Hd.
  destruct (earned_upper _ Hd) as (Hea & _ & _). set (e := earned _) in *.
  pose proof one_unit_pos as Hone. destruct (as_secs_error _ Hd) as (Hda & _ & _).
  assert (Hsv : s * one_unit <= value (as_secs_f64 (duration_since now (last_update b)))).
  { apply as_secs_lower; [lia|done|]. unfold duration_since. lia. }
  destruct (of_Z_value (s * requests_per_second c)) as [_ Hv]; [nia|].
  assert (Hga : amount (of_Z (s * requests_per_second c))) by (apply of_Z_amount; unfold u64_modulus; nia).
  assert (He : s * requests_per_second c * one_unit <= value e).
  { rewrite <-Hv. apply f64_mul_lower; try done; [|apply Hea]. rewrite Hv, Hrv.
    replace (s * requests_per_second c * one_unit * one_unit)
      with (s * one_unit * (requests_per_second c * one_unit)) by ring.
    apply Z.mul_le_mono_nonneg_r; [nia|done]. }
  assert (Hge : value e <= value (f64_add (tokens b) e)).
  { apply f64_add_lower; try done; [|apply Hsa]. unfold held in Hh. lia. }
  apply Z.min_glb; nia.
Qed.

(** An admission takes exactly one token; a refusal leaves less than one. *)
Lemma consume_held now b ok b' :
  is_instant now -> bucket_ok c b -> try_consume now b = (ok, b') ->
  held b' = held (refill now b) - Z.b2z ok * one_unit /\ last_update b' = now /\
  ok = (one_unit <=? held (refill now b)).
Proof.
  intros Hnow Hbk. unfold try_consume. pose proof (refill_ok c Hc now b Hnow Hbk) as Hrk.
  pose proof (held_range _ Hrk) as Hh. destruct Hrk as (_ & _ & _ & Ha & _).
  assert (H1 : amount (of_Z 1)) by by apply of_Z_amount.
  assert (Hdec : f64_leb (of_Z 1) (tokens (refill now b)) = (one_unit <=? held (refill now b))).
  { apply eq_iff_eq_true. rewrite Z.leb_le. by apply amount_leb. }
  rewrite Hdec. destruct (Z.leb_spec one_unit (held (refill now b))); intros; simplify_eq.
  - split_and!; try done. unfold held at 1. cbn [tokens]. change (Z.b2z true) with 1.
    rewrite f64_sub_one_exact; [unfold held; lia|done|]. fold (held (refill now b)).
    pose proof one_unit_pos. nia.
  - split_and!; try done. change (Z.b2z false) with 0. lia.
Qed.

End Refill.

(** ** A period of admissions on one bucket *)

(** What a bucket may admit over a time [T] in [n] attempts, in parts of
    [2^52 * nanos_per_sec]: the burst, the rate, and the rounding. *)
Definition allowance (c : RateLimitConfig) (T n : Z) : Z :=
  2 ^ 52 * nanos_per_sec * burst_size c + (2 ^ 52 + 4) * (requests_per_second c * T) +
  nanos_per_sec * (n * (burst_size c + 1)).

(** [admitted] requests out of [n] over [T] leave the bucket within its allowance. *)
Definition within (c : RateLimitConfig) (admitted T n : Z) (b : TokenBucket.bucket) : Prop :=
  2 ^ 52 * nanos_per_sec * (admitted * one_unit + held b) <= allowance c T n * one_unit.

Section Period.
Context (c : RateLimitConfig) (Hc : config_ok c).
Context (Hr : requests_per_second c <= 2 ^ 53) (Hb : burst_size c <= 2 ^ 53).

Lemma within_new now :
  is_instant now ->
  within c 0 0 0 (TokenBucket.new (of_Z (burst_size c)) (of_Z (requests_per_second c)) now).
Proof.
  intros _. unfold within, allowance, held. cbn [tokens TokenBucket.new].
  rewrite (proj2 (burst_amount c Hc Hb)). lia.
Qed.

(** One attempt, no earlier than the previous one. *)
Lemma within_step now b ok b' k T n :
  is_instant now -> bucket_ok c b -> last_update b <= now -> try_consume now b = (ok, b') ->
  within c k T n b -> within c (k + Z.b2z ok) (T + (now - last_update b)) (n + 1) b'.
Proof.
  intros Hnow Hbk Hle Ht. unfold within, allowance.
  destruct (consume_held c Hc Hb now b ok b' Hnow Hbk Ht) as (-> & _ & _).
  pose proof (refill_upper c Hc Hr Hb now b Hnow Hbk) as Hu.
  replace (duration_since now (last_update b)) with (now - last_update b) in Hu
    by (unfold duration_since; lia).
  set (d := now - last_update b) in *. set (h := held (refill now b)) in *.
  replace (k + Z.b2z ok) with (Z.b2z ok + k) by lia.
  generalize (Z.b2z ok). intros z Hw. unfold nanos_per_sec in *. nia.
Qed.

(** The first attempt of a period finds at most a full bucket, whenever it comes. *)
Lemma within_first now b ok b' :
  is_instant now -> bucket_ok c b -> try_consume now b = (ok, b') ->
  within c (Z.b2z ok) 0 1 b'.
Proof.
  intros Hnow Hbk Ht. unfold within, allowance.
  destruct (consume_held c Hc Hb now b ok b' Hnow Hbk Ht) as (-> & _ & _).
  pose proof (held_range c Hc Hb _ (refill_ok c Hc now b Hnow Hbk)) as Hh.
  destruct Hc as [_ [HB0 _]]. pose proof one_unit_pos as Hone. unfold nanos_per_sec in *. nia.
Qed.

Lemma within_admitted k T n b :
  bucket_ok c b -> within c k T n b -> 2 ^ 52 * nanos_per_sec * k <= allowance c T n.
Proof.
  intros Hbk Hw. pose proof (held_range c Hc Hb b Hbk) as Hh. pose proof one_unit_pos as Hone.
  apply (mul_le_cancel _ _ one_unit Hone). unfold within, nanos_per_sec in *. nia.
Qed.

End Period.

(** For periods a process can live through, the rounding is worth less than one
    request. *)
Lemma allowance_small c k T n :
  requests_per_second c * T <= 2 ^ 48 * nanos_per_sec -> n * (burst_size c + 1) <= 2 ^ 51 ->
  2 ^ 52 * nanos_per_sec * k <= allowance c T n ->
  k <= burst_size c + requests_per_second c * T / nanos_per_sec + 1.
Proof.
  unfold allowance. set (x := requests_per_second c * T). intros Hx Hn Hk.
  enough (k - burst_size c - 1 <= x / nanos_per_sec) by lia.
  apply Z.div_le_lower_bound; [done|]. unfold nanos_per_sec in *. lia.
Qed.

(** ** Histories of checks *)

Definition is_admitted (r : result unit RateLimitInfo) : bool := is_ok r.
Definition admissions (rs : list (result unit RateLimitInfo)) : Z := count_if is_admitted rs.

Lemma last_cons {A} (x d : A) l : List.last (x :: l) d = List.last l x.
Proof.
  revert x d. induction l as [|y l IH]; intros x d; [done|].
  change (List.last (y :: l) d = List.last (y :: l) x). by rewrite !IH.
Qed.

(** The time between the first and the last check. *)
Definition period (cs : list (Instant * option IpAddr)) : Z :=
  match map fst cs with [] => 0 | t :: ts => List.last ts t - t end.

Section Histories.
Context (c : RateLimitConfig) (Hc : config_ok c).

(** Every check is one attempt on the global bucket, and no other admission. *)
Lemma check_global now ip l r l' :
  check now ip l = Returns (r, l') ->
  exists ok, try_consume now (global_bucket l) = (ok, global_bucket l') /\
    Z.b2z (is_admitted r) <= Z.b2z ok.
Proof.
  intros (ok & g & Eg & H)%check_cases. exists ok. rewrite Eg.
  destruct ok, (per_client (config l)), ip as [a|]; simpl in H;
    try (destruct H as [-> ->]; done); try (destruct H as (d & _ & -> & ->); done).
  destruct H as (ok2 & b2 & _ & -> & H). split; [done|].
  by destruct r.
Qed.

Context (Hr : requests_per_second c <= 2 ^ 53) (Hb : burst_size c <= 2 ^ 53).

Lemma checks_within cs l rs l' k T n :
  Forall (fun p => is_instant p.1) cs ->
  Sorted Z.le (last_update (global_bucket l) :: map fst cs) -> limiter_ok c l ->
  checks cs l = Returns (rs, l') -> within c k T n (global_bucket l) ->
  within c (k + admissions rs) (T + (List.last (map fst cs) (last_update (global_bucket l)) - last_update (global_bucket l)))
    (n + Z.of_nat (length cs)) (global_bucket l').
Proof.
  intros Hcs. revert l rs k T n. induction Hcs as [|[now ip] cs Hnow _ IH]; intros l rs k T n Hs Hl H Hw.
  { simpl in *. simplify_eq. unfold admissions, count_if; simpl.
    by rewrite Z.sub_diag, !Z.add_0_r. }
  cbn [map fst] in Hs. apply Sorted_inv in Hs as [Hs Hhd]. apply HdRel_inv in Hhd.
  simpl in H. destruct (check now ip l) as [[r l1]|] eqn:E1; simpl in H; [|done].
  destruct (checks cs l1) as [[rs1 l2]|] eqn:E2; simpl in H; simplify_eq.
  destruct (check_global _ _ _ _ _ E1) as (ok & Et & Hok).
  assert (Hl1 : limiter_ok c l1) by by eapply check_ok.
  assert (Hbk : bucket_ok c (global_bucket l)) by apply Hl.
  destruct (consume_held c Hc Hb now _ ok _ Hnow Hbk Et) as (_ & Hlast & _).
  pose proof (within_step c Hc Hr Hb now _ ok _ k T n Hnow Hbk Hhd Et Hw) as Hw1.
  rewrite <-Hlast in Hs. specialize (IH l1 rs1 _ _ _ Hs Hl1 E2 Hw1).
  unfold admissions. rewrite count_if_cons. unfold within in IH |- *.
  rewrite Hlast in IH.
  assert (Hlst : List.last (map fst ((now, ip) :: cs)) (last_update (global_bucket l)) = List.last (map fst cs) now)
    by apply last_cons.
  rewrite Hlst. set (L := List.last (map fst cs) now) in *.
  replace (n + Z.of_nat (length ((now, ip) :: cs))) with (n + 1 + Z.of_nat (length cs)) by (simpl; lia).
  replace (T + (L - last_update (global_bucket l)))
    with (T + (now - last_update (global_bucket l)) + (L - now)) by lia.
  unfold admissions in IH. pose proof one_unit_pos. unfold nanos_per_sec in *. nia.
Qed.

(** A period of checks from any state the limiter can be in. *)
Lemma period_within cs l rs l' :
  Forall (fun p => is_instant p.1) cs -> Sorted Z.le (map fst cs) -> limiter_ok c l ->
  checks cs l = Returns (rs, l') ->
  2 ^ 52 * nanos_per_sec * admissions rs <= allowance c (period cs) (Z.of_nat (length cs)).
Proof.
  intros Hcs Hs Hl H. destruct Hcs as [|[now ip] cs Hnow Hcs].
  { simpl in H. simplify_eq. unfold allowance, admissions, count_if, period; simpl.
    destruct Hc as [[? ?] [? ?]]. unfold nanos_per_sec. nia. }
  simpl in H. destruct (check now ip l) as [[r l1]|] eqn:E1; simpl in H; [|done].
  destruct (checks cs l1) as [[rs1 l2]|] eqn:E2; simpl in H; simplify_eq.
  destruct (check_global _ _ _ _ _ E1) as (ok & Et & Hok).
  assert (Hl1 : limiter_ok c l1) by by eapply check_ok.
  assert (Hbk : bucket_ok c (global_bucket l)) by apply Hl.
  destruct (consume_held c Hc Hb now _ ok _ Hnow Hbk Et) as (_ & Hlast & _).
  pose proof (within_first c Hc Hb now _ ok _ Hnow Hbk Et) as Hw1.
  pose proof (checks_within cs l1 rs1 l' (Z.b2z ok) 0 1 Hcs) as Hw. rewrite Hlast in Hw.
  specialize (Hw Hs Hl1 E2 Hw1).
  apply within_admitted in Hw; [|done|done|by eapply checks_ok].
  rewrite Z.add_0_l in Hw. unfold period. cbn [map fst]. unfold admissions in *. rewrite count_if_cons.
  replace (Z.of_nat (length ((now, ip) :: cs))) with (1 + Z.of_nat (length cs)) by (simpl; lia).
  unfold nanos_per_sec in *. lia.
Qed.

End Histories.

(** ** Idle time *)

Section Idle.
Context (c : RateLimitConfig) (Hc : config_ok c).
Context (Hr : requests_per_second c <= 2 ^ 53) (Hb : burst_size c <= 2 ^ 53).

(** No bucket was used after [t]. *)
Definition idle_since (t : Instant) (l : limiter) : Prop :=
  last_update (global_bucket l) <= t /\
  forall ip e, client_buckets l !! ip = Some e -> last_update (ClientEntry.bucket e) <= t.

Lemma refill_mono now b :
  is_instant now -> bucket_ok c b -> held b <= held (refill now b).
Proof.
  intros Hnow Hbk. destruct (refill_sum c Hc Hr Hb now b Hnow Hbk) as [Hsa ->].
  pose proof (held_range c Hc Hb b Hbk) as Hh. destruct Hbk as (Hcap & Hrate & Hlast & Ha & Hle).
  destruct (earned_upper c Hc Hr (duration_since now (last_update b))) as (Hea & _ & _);
    [by apply is_duration_since|].
  apply Z.min_glb; [|lia]. apply f64_add_lower; try done; [|apply Hsa].
  pose proof (value_nonneg _ (proj1 Hea)). unfold held. lia.
Qed.

Lemma check_idle now ip l r l' t :
  is_instant now -> limiter_ok c l -> idle_since t l -> t <= now ->
  check now ip l = Returns (r, l') -> idle_since now l'.
Proof.
  intros Hnow Hl [Hg Hm] Hle (ok & g & Eg & H)%check_cases.
  destruct (consume_held c Hc Hb now _ ok _ Hnow (proj1 (proj2 Hl)) Eg) as (_ & Hlast & _).
  assert (Hset : idle_since now (set_global g l)).
  { split; [simpl; lia|]. intros a e He. specialize (Hm a e He). lia. }
  destruct ok, (per_client (config l)), ip as [a|];
    try (by destruct H as [_ ->]); try (by destruct H as (d & _ & -> & _)).
  destruct H as (ok2 & b2 & E2 & -> & _).
  pose proof (entry_ok c Hc now (set_global g l) a Hnow) as He. rewrite (proj1 Hl) in *.
  specialize (He (set_global_ok c g l ltac:(by eapply try_consume_ok; [..|apply Hl|]) Hl)).
  destruct (consume_held c Hc Hb now _ ok2 _ Hnow He E2) as (_ & Hlast2 & _).
  split; [simpl; lia|]. intros ip e. simpl. destruct (decide (ip = a)) as [->|Hne].
  - rewrite lookup_insert_eq. intros [= <-]. simpl. lia.
  - rewrite lookup_insert_ne by done. intros Hx%maybe_cleanup_lookup. by apply (proj2 Hset ip).
Qed.

Lemma checks_idle cs l rs l' t :
  Forall (fun p => is_instant p.1) cs -> Sorted Z.le (t :: map fst cs) ->
  limiter_ok c l -> idle_since t l -> checks cs l = Returns (rs, l') ->
  idle_since (List.last (map fst cs) t) l'.
Proof.
  intros Hcs. revert t l rs. induction Hcs as [|[now ip] cs Hnow _ IH]; intros t l rs Hs Hl Hi H.
  { simpl in *. by simplify_eq. }
  cbn [map fst] in Hs |- *. apply Sorted_inv in Hs as [Hs Hhd]. apply HdRel_inv in Hhd.
  simpl in H. destruct (check now ip l) as [[r l1]|] eqn:E1; simpl in H; [|done].
  destruct (checks cs l1) as [[rs1 l2]|] eqn:E2; simpl in H; simplify_eq.
  rewrite last_cons. eapply IH; [done| | |done]; [by eapply check_ok|by eapply check_idle].
Qed.

(** At [now], every bucket that exists would have at least [m] tokens. *)
Definition stocked (now : Instant) (m : Z) (l : limiter) : Prop :=
  limiter_ok c l /\ m * one_unit <= held (refill now (global_bucket l)) /\
  forall ip e, client_buckets l !! ip = Some e ->
    m * one_unit <= held (refill now (ClientEntry.bucket e)).

Lemma idle_stocked now t s l :
  is_instant now -> limiter_ok c l -> idle_since t l -> 0 <= s ->
  s * requests_per_second c <= 2 ^ 53 -> s <= 2 ^ 53 -> t + from_secs s <= now ->
  stocked now (Z.min (burst_size c) (s * requests_per_second c)) l.
Proof.
  intros Hnow Hl [Hg Hm] Hs HsR Hs53 Hle. split; [done|]. split.
  - apply refill_lower; try done; [apply Hl|lia].
  - intros ip e He. apply refill_lower; try done; [by apply (proj2 (proj2 Hl) ip)|].
    specialize (Hm ip e He). lia.
Qed.

(** An attempt with tokens in stock is admitted and leaves one fewer. *)
Lemma consume_stocked now m b :
  is_instant now -> bucket_ok c b -> 1 <= m -> m * one_unit <= held (refill now b) ->
  exists b', try_consume now b = (true, b') /\ bucket_ok c b' /\
    (m - 1) * one_unit <= held (refill now b').
Proof.
  intros Hnow Hbk Hm Hh. destruct (try_consume now b) as [ok b'] eqn:E.
  destruct (consume_held c Hc Hb now b ok b' Hnow Hbk E) as (Hh' & _ & Hok).
  pose proof one_unit_pos as Hone. assert (ok = true) as ->.
  { rewrite Hok. apply Z.leb_le. nia. }
  assert (Hbk' : bucket_ok c b') by by eapply try_consume_ok.
  exists b'. split; [done|]. split; [done|].
  etransitivity; [|by apply refill_mono]. rewrite Hh'. simpl. lia.
Qed.

Lemma check_stocked now ip m l :
  is_instant now -> 1 <= m <= burst_size c -> stocked now m l ->
  exists l', check now ip l = Returns (Ok tt, l') /\ stocked now (m - 1) l'.
Proof.
  intros Hnow Hm (Hl & Hg & Hcl). unfold check. destruct Hl as (Hcfg & Hgb & Hmap).
  destruct (consume_stocked now m _ Hnow Hgb ltac:(lia) Hg) as (g & -> & Hgok & Hgh). simpl.
  pose proof one_unit_pos as Hone.
  assert (Hset : stocked now (m - 1) (set_global g l)).
  { split; [by split|]. split; [done|]. intros a e He. specialize (Hcl a e He). nia. }
  destruct (per_client (config l)), ip as [a|]; simpl; try by eexists.
  destruct (maybe_cleanup_config now (set_global g l)) as [-> ->]. simpl. rewrite Hcfg.
  set (e := default _ _).
  assert (He : bucket_ok c (ClientEntry.bucket e) /\ m * one_unit <= held (refill now (ClientEntry.bucket e))).
  { subst e. split; [apply entry_ok; try done; by split|].
    destruct (client_buckets (maybe_cleanup now (set_global g l)) !! a) as [e|] eqn:Ee; simpl.
    - apply maybe_cleanup_lookup in Ee. by apply (Hcl a).
    - etransitivity; [|apply refill_mono; [done|by apply bucket_new_ok]].
      unfold held. simpl. rewrite (proj2 (burst_amount c Hc Hb)). nia. }
  destruct He as [Hek Heh].
  destruct (consume_stocked now m _ Hnow Hek ltac:(lia) Heh) as (b & Eb & Hbok & Hbh).
  unfold ClientEntry.try_acquire. rewrite Eb. simpl. eexists. split; [done|].
  split; [split; [done|split; [done|]]|split; [done|]]; simpl; intros ip e'.
  all: destruct (decide (ip = a)) as [->|Hne];
    [rewrite lookup_insert_eq; by intros [= <-]|rewrite lookup_insert_ne by done;
     intros Hx%maybe_cleanup_lookup].
  - by apply (Hmap ip).
  - by apply (proj2 (proj2 Hset) ip).
Qed.

Lemma checks_stocked now ips m l :
  is_instant now -> Z.of_nat (length ips) <= m <= burst_size c -> stocked now m l ->
  exists l', checks (map (pair now) ips) l = Returns (replicate (length ips) (Ok tt), l').
Proof.
  intros Hnow. revert m l. induction ips as [|ip ips IH]; simpl; intros m l Hm Hl; [by exists l|].
  destruct (check_stocked now ip m l Hnow ltac:(lia) Hl) as (l1 & -> & Hl1). simpl.
  destruct (IH (m - 1) l1 ltac:(lia) Hl1) as (l2 & ->). simpl. by exists l2.
Qed.

End Idle.

(** ** Properties *)

Lemma instant_below t : 0 <= t < 2 ^ 60 -> is_instant t.
Proof. unfold is_instant, nanos_per_sec. words. Qed.

(** C17. Whatever came before, over any period the limiter admits no more than the
    burst plus the rate times the elapsed time, all clients together: exactly so
    but for the rounding of the binary64 buckets, at most four parts in [2^52] of the
    rate and one part in [2^52] of the capacity per check. In any period of fewer than
    [2^51 / (burst + 1)] checks and [2^48] tokens, the rounding is worth at most one
    request. *)
Theorem sustained_rate c t0 before rs0 l cs rs l' :
  config_ok c -> requests_per_second c <= 2 ^ 53 -> burst_size c <= 2 ^ 53 ->
  is_instant t0 -> Forall (fun p => is_instant p.1) before ->
  RateLimiter.checks before (RateLimiter.new c t0) = Returns (rs0, l) ->
  Forall (fun p => is_instant p.1) cs -> Sorted Z.le (map fst cs) ->
  RateLimiter.checks cs l = Returns (rs, l') ->
  2 ^ 52 * nanos_per_sec * admissions rs <= allowance c (period cs) (Z.of_nat (length cs)) /\
  (requests_per_second c * period cs <= 2 ^ 48 * nanos_per_sec ->
   Z.of_nat (length cs) * (burst_size c + 1) <= 2 ^ 51 ->
   admissions rs <= burst_size c + requests_per_second c * period cs / nanos_per_sec + 1).
Proof.
  intros Hc Hr Hb Ht Hbf H0 Hcs Hs H.
  pose proof (checks_ok c Hc _ _ _ _ Hbf (new_ok c Hc t0 Ht) H0) as Hl.
  pose proof (period_within c Hc Hr Hb cs l rs l' Hcs Hs Hl H) as Hp.
  split; [done|]. intros HT Hn. by eapply allowance_small.
Qed.

Lemma sustained_rate_witness :
  exists rs l', RateLimiter.checks [(0, None); (1, None); (200000000, None); (200000001, None)]
      (RateLimiter.new (rate_limit_config_new 10 2) 0) = Returns (rs, l') /\
    admissions rs <= 2 + 10 * 200000001 / nanos_per_sec + 1.
Proof.
  eexists _, _. split; [vm_compute; reflexivity|].
  eapply (sustained_rate (rate_limit_config_new 10 2) 0 [] [] (RateLimiter.new (rate_limit_config_new 10 2) 0)
    [(0, None); (1, None); (200000000, None); (200000001, None)]).
  - apply small_config_ok.
  - simpl. lia.
  - simpl. lia.
  - by apply instant_small.
  - constructor.
  - reflexivity.
  - repeat constructor; by apply instant_below.
  - repeat constructor; simpl; lia.
  - vm_compute. reflexivity.
  - vm_compute. congruence.
  - vm_compute. congruence.
Defined.

(** Requests of several clients at one instant. *)
Definition at_once (now : Instant) (ips : list (option IpAddr)) : list (Instant * option IpAddr) :=
  map (pair now) ips.

(** C27. After [s] seconds in which nothing was checked, a burst of [s] times the rate
    (at most the configured burst) is admitted whole, from whichever clients: the
    roundings of the refill never cost a request. Hence a client that waits the second
    which a rejection reports as [Retry-After] is admitted, if nobody else comes
    first. *)
Theorem idle_burst_admitted c t0 cs rs l s now ips :
  config_ok c -> burst_size c <= 2 ^ 53 ->
  is_instant t0 -> Forall (fun p => is_instant p.1) cs -> Sorted Z.le (t0 :: map fst cs) ->
  RateLimiter.checks cs (RateLimiter.new c t0) = Returns (rs, l) ->
  0 <= s <= 2 ^ 53 -> requests_per_second c <= 2 ^ 53 -> s * requests_per_second c <= 2 ^ 53 ->
  is_instant now -> List.last (map fst cs) t0 + from_secs s <= now ->
  Z.of_nat (length ips) <= Z.min (burst_size c) (s * requests_per_second c) ->
  exists l', RateLimiter.checks (at_once now ips) l = Returns (replicate (length ips) (Ok tt), l').
Proof.
  unfold at_once.
  intros Hc Hb Ht Hcs Hsort H Hs Hr HsR Hnow Hlate Hlen.
  pose proof (new_ok c Hc t0 Ht) as Hnew. pose proof (checks_ok c Hc _ _ _ _ Hcs Hnew H) as Hl.
  assert (Hi : idle_since t0 (RateLimiter.new c t0)).
  { split; [simpl; lia|]. intros ip e. simpl. by rewrite lookup_empty. }
  pose proof (checks_idle c Hc Hb cs _ rs l t0 Hcs Hsort Hnew Hi H) as Hidle.
  eapply (checks_stocked c Hc Hr Hb now ips _ l Hnow);
    [|exact (idle_stocked c Hc Hr Hb now _ s l Hnow Hl Hidle (proj1 Hs) HsR (proj2 Hs) Hlate)].
  lia.
Qed.

Lemma idle_burst_admitted_witness :
  exists rs l, RateLimiter.checks [(0, None); (0, None); (5, None)]
      (RateLimiter.new (rate_limit_config_new 3 2) 0) = Returns (rs, l) /\
    exists l', RateLimiter.checks (at_once 1000000005 [Some (V4 [1; 2; 3; 4]); None]) l =
      Returns (replicate 2 (Ok tt), l').
Proof.
  eexists _, _. split; [vm_compute; reflexivity|].
  eapply (idle_burst_admitted (rate_limit_config_new 3 2) 0 [(0, None); (0, None); (5, None)])
    with (s := 1) (ips := [Some (V4 [1; 2; 3; 4]); None]).
  - split; simpl; words.
  - simpl. lia.
  - by apply instant_small.
  - repeat constructor; by apply instant_small.
  - repeat constructor; simpl; lia.
  - vm_compute. reflexivity.
  - lia.
  - simpl. lia.
  - simpl. lia.
  - by apply instant_below.
  - vm_compute. congruence.
  - simpl. lia.
Defined.

(** Three requests per second, one at a time. *)
Definition three_per_second : RateLimiter.limiter := RateLimiter.new (rate_limit_config_new 3 1) 0.

(** The wait a rejection suggests can be too short: at three requests per second,
    a client that waits exactly the suggested 333333333 nanoseconds is rejected
    again, now with a suggested wait of zero. *)
Theorem suggested_wait_short :
  exists l, RateLimiter.checks [(0, None); (0, None); (333333333, None)] three_per_second =
    Returns ([Ok tt; Err (mkRateLimitInfo Global 333333333 0); Err (mkRateLimitInfo Global 0 0)], l).
Proof. eexists. vm_compute. reflexivity. Qed.
