(* ===== verification/RateInterleaving.v ===== *)
(** * Interleaved checks on one rate limiter (src/src/ratelimit.rs)

    [check] takes and releases several locks: the global bucket's, the cleanup
    time's, the locks of the concurrent map and those of a client's entry. Calls of
    different tasks interleave between any two critical sections. Each call is split
    here into its critical sections, in the code's order; a section takes no time. (The
    cleanup reads the clock twice under its lock: once here.)
    The concurrent map locks shard by shard: [len] and [retain] visit one shard at a
    time, and the number of shards and the shard of a key are arguments. Client entries are
    shared ([Arc]), so a task can hold one that a cleanup has removed from the map:
    entries live in a list and are named by their index in it. *)

From stdpp Require Import prelude gmap.
From S2P Require Import Prelude Tasks RustStr F64 F64Error RateLimit RateBound.
Open Scope Z_scope.

Module SharedLimiter.
Import TokenBucket.

(** The cells of a limiter: the entries ever allocated, and the map to them. *)
Record cells : Type := mkCells {
  config : RateLimitConfig;
  global_bucket : bucket;
  entries : list ClientEntry.entry;
  client_buckets : gmap IpAddr nat;
  last_cleanup : Instant
}.

Definition new (config : RateLimitConfig) (now : Instant) : cells :=
  mkCells config
    (TokenBucket.new (of_Z (burst_size config)) (of_Z (requests_per_second config)) now)
    [] ∅ now.

Definition set_global (b : bucket) (sh : cells) : cells :=
  mkCells (config sh) b (entries sh) (client_buckets sh) (last_cleanup sh).
Definition set_entry (id : nat) (e : ClientEntry.entry) (sh : cells) : cells :=
  mkCells (config sh) (global_bucket sh) (<[id := e]> (entries sh)) (client_buckets sh) (last_cleanup sh).
Definition set_clients (m : gmap IpAddr nat) (sh : cells) : cells :=
  mkCells (config sh) (global_bucket sh) (entries sh) m (last_cleanup sh).
Definition set_cleanup (t : Instant) (sh : cells) : cells :=
  mkCells (config sh) (global_bucket sh) (entries sh) (client_buckets sh) t.

(** [entry(ip).or_insert_with(..)] when there is none: a new entry. *)
Definition insert_entry (ip : IpAddr) (e : ClientEntry.entry) (sh : cells) : cells :=
  mkCells (config sh) (global_bucket sh) (entries sh ++ [e])%list
    (<[ip := length (entries sh)]> (client_buckets sh)) (last_cleanup sh).

(** Where a call of [check] is: the critical section it enters next. *)
Inductive pc : Type :=
| GlobalConsume (client_ip : option IpAddr)
| GlobalWait
| CleanupTest (ip : IpAddr)
| CleanupLen (ip : IpAddr) (count : Z) (shard : nat)
| CleanupRetain (ip : IpAddr) (initial_count : Z) (shard : nat)
| CleanupRemoved (ip : IpAddr) (initial_count count : Z) (shard : nat)
| EntryGet (ip : IpAddr)
| EntryNow (id : nat)
| EntryTouch (id : nat) (t : Instant)
| EntryConsume (id : nat)
| EntryWait (id : nat)
| Done (answer : outcome (result unit RateLimitInfo)).

Definition start (client_ip : option IpAddr) : pc := GlobalConsume client_ip.

Definition is_done (p : pc) : bool := match p with Done _ => true | _ => false end.

(** The answer when a bucket refused. *)
Definition rejected (ty : RateLimitType) (b : bucket) : pc :=
  Done (outcome_bind (wait_time b) (fun wait =>
    Returns (Err {| limit_type := ty; retry_after := wait; remaining := 0 |}))).

Section Access.
Context (shard_of : IpAddr -> nat) (shards : nat).
(** Whether integer overflow panics (a debug build) or wraps (a release build). *)
Context (overflow_checks : bool).

Definition expired (now : Instant) (sh : cells) (id : nat) : bool :=
  match entries sh !! id with
  | Some e => ClientEntry.is_expired now (client_ttl (config sh)) e
  | None => false
  end.

(** [retain] on one shard. *)
Definition retain_shard (now : Instant) (k : nat) (sh : cells) : cells :=
  set_clients (filter (fun p => shard_of p.1 = k -> expired now sh p.2 = false) (client_buckets sh)) sh.

(** [len] on one shard. *)
Definition shard_len (k : nat) (m : gmap IpAddr nat) : Z :=
  Z.of_nat (size (filter (fun p => shard_of p.1 = k) m)).

(** One critical section. The entry of an [Arc] always exists; the count of
    removed entries is only logged. *)
Definition access (now : Instant) (p : pc) (sh : cells) : pc * cells :=
  match p with
  | GlobalConsume client_ip =>
      let '(ok, g) := try_consume now (global_bucket sh) in
      let sh := set_global g sh in
      if negb ok then (GlobalWait, sh)
      else if per_client (config sh) then
        match client_ip with
        | Some ip => (CleanupTest ip, sh)
        | None => (Done (Returns (Ok tt)), sh)
        end
      else (Done (Returns (Ok tt)), sh)
  | GlobalWait => (rejected Global (global_bucket sh), sh)
  | CleanupTest ip =>
      if elapsed now (last_cleanup sh) <? from_secs 60 then (EntryGet ip, sh)
      else (CleanupLen ip 0 0, set_cleanup now sh)
  | CleanupLen ip count k =>
      let count := count + shard_len k (client_buckets sh) in
      (if (S k <? shards)%nat then CleanupLen ip count (S k) else CleanupRetain ip count 0, sh)
  | CleanupRetain ip initial_count k =>
      (if (S k <? shards)%nat then CleanupRetain ip initial_count (S k) else CleanupRemoved ip initial_count 0 0,
       retain_shard now k sh)
  | CleanupRemoved ip initial_count count k =>
      let count := count + shard_len k (client_buckets sh) in
      (if (S k <? shards)%nat then CleanupRemoved ip initial_count count (S k)
       else if overflow_checks && (initial_count <? count) then Done Panics else EntryGet ip, sh)
  | EntryGet ip =>
      match client_buckets sh !! ip with
      | Some id => (EntryNow id, sh)
      | None => (EntryNow (length (entries sh)), insert_entry ip (ClientEntry.new (config sh) now) sh)
      end
  | EntryNow id => (EntryTouch id now, sh)
  | EntryTouch id t =>
      match entries sh !! id with
      | Some e => (EntryConsume id, set_entry id (ClientEntry.mk (ClientEntry.bucket e) t) sh)
      | None => (Done Panics, sh)
      end
  | EntryConsume id =>
      match entries sh !! id with
      | Some e =>
          let '(ok, b) := try_consume now (ClientEntry.bucket e) in
          (if negb ok then EntryWait id else Done (Returns (Ok tt)),
           set_entry id (ClientEntry.mk b (ClientEntry.last_access e)) sh)
      | None => (Done Panics, sh)
      end
  | EntryWait id =>
      match entries sh !! id with
      | Some e => (rejected PerClient (ClientEntry.bucket e), sh)
      | None => (Done Panics, sh)
      end
  | Done a => (Done a, sh)
  end.

End Access.
End SharedLimiter.

(** ** The invariant of every interleaving *)

Module SharedLimiterFacts.
Import TokenBucket RateLimitFacts SharedLimiter.
Section Facts.
Context (shard_of : IpAddr -> nat) (shards : nat) (overflow_checks : bool).
Context (c : RateLimitConfig) (Hc : config_ok c).
Context (Hr : requests_per_second c <= 2 ^ 53) (Hb : burst_size c <= 2 ^ 53).
Abbreviation access := (SharedLimiter.access shard_of shards overflow_checks).
Abbreviation sys_step := (Tasks.sys_step start is_done access).

(** The map names existing entries, a different one for each client. *)
Definition ids_ok (sh : cells) : Prop :=
  (forall ip id, client_buckets sh !! ip = Some id -> (id < length (entries sh))%nat) /\
  (forall a b id, client_buckets sh !! a = Some id -> client_buckets sh !! b = Some id -> a = b).

Lemma ids_ok_insert ip e sh : ids_ok sh -> ids_ok (insert_entry ip e sh).
Proof.
  intros [Hlt Hinj]. split; simpl.
  - intros a id. rewrite length_app. simpl. destruct (decide (a = ip)) as [->|Hne].
    + rewrite lookup_insert_eq. intros [= <-]. lia.
    + rewrite lookup_insert_ne by done. intros Hx. specialize (Hlt a id Hx). lia.
  - intros a b id. destruct (decide (a = ip)) as [->|Ha], (decide (b = ip)) as [->|Hb'];
      rewrite ?lookup_insert_eq, ?lookup_insert_ne by done; try done.
    + intros [= <-] Hx%Hlt. lia.
    + intros Hx%Hlt [= <-]. lia.
    + apply Hinj.
Qed.

Lemma ids_ok_retain now k sh : ids_ok sh -> ids_ok (retain_shard shard_of now k sh).
Proof.
  intros [Hlt Hinj]. split; simpl.
  - intros a id [Hx _]%map_lookup_filter_Some. by eapply Hlt.
  - intros a b id [Hx _]%map_lookup_filter_Some [Hy _]%map_lookup_filter_Some. by eapply Hinj.
Qed.

Lemma ids_ok_set_entry id e sh : ids_ok sh -> ids_ok (set_entry id e sh).
Proof. intros [Hlt Hinj]. split; simpl; rewrite ?length_insert; done. Qed.

(** Every bucket is a valid bucket of the configuration, the global one was used
    between the creation and now, and the map names existing entries. *)
Definition cells_ok (t0 now : Instant) (sh : cells) : Prop :=
  config sh = c /\ bucket_ok c (global_bucket sh) /\
  t0 <= last_update (global_bucket sh) <= now /\
  Forall (fun e => bucket_ok c (ClientEntry.bucket e)) (entries sh) /\
  ids_ok sh.

Definition answer_ok (a : outcome (result unit RateLimitInfo)) : Prop :=
  match a with Returns r => rejection_ok r | Panics => False end.

(** A task's entry exists; with a positive rate and no overflow checks, its answer
    is not a panic. *)
Definition pc_ok (n : nat) (p : pc) : Prop :=
  match p with
  | EntryNow id | EntryTouch id _ | EntryConsume id | EntryWait id => (id < n)%nat
  | Done a => 1 <= requests_per_second c -> overflow_checks = false -> answer_ok a
  | _ => True
  end.

(** A task that took a token of the global bucket, and one that has tried. *)
Definition granted (p : pc) : bool :=
  match p with
  | GlobalConsume _ | GlobalWait => false
  | Done (Returns (Err i)) => match limit_type i with Global => false | PerClient => true end
  | Done Panics => false
  | _ => true
  end.
Definition attempted (p : pc) : bool := match p with GlobalConsume _ => false | _ => true end.

Lemma pc_ok_mono n n' p : (n <= n')%nat -> pc_ok n p -> pc_ok n' p.
Proof. intros Hn. destruct p; simpl; auto; lia. Qed.

Lemma rejected_ok ty b n : bucket_ok c b -> pc_ok n (rejected ty b).
Proof.
  intros Hbk Hr1 _. destruct (wait_time_ok c b (conj Hr1 Hr) Hbk) as (d & -> & Hd).
  simpl. by apply rejection_wait.
Qed.

Lemma insert_entry_ok t0 now ip sh :
  is_instant now -> cells_ok t0 now sh ->
  cells_ok t0 now (insert_entry ip (ClientEntry.new (config sh) now) sh).
Proof.
  intros Hnow (Hcfg & Hg & Ht & He & Hm).
  split; [done|]. split; [done|]. split; [done|]. split; [|by apply ids_ok_insert].
  simpl. apply Forall_app_2; [done|]. constructor; [|done]. rewrite Hcfg. by apply bucket_new_ok.
Qed.

Lemma set_entry_ok t0 now id e sh :
  bucket_ok c (ClientEntry.bucket e) -> cells_ok t0 now sh -> cells_ok t0 now (set_entry id e sh).
Proof.
  intros Hbk (Hcfg & Hg & Ht & He & Hm).
  split; [done|]. split; [done|]. split; [done|]. split; [|by apply ids_ok_set_entry].
  by apply Forall_insert.
Qed.

Lemma retain_ok t0 now k sh : cells_ok t0 now sh -> cells_ok t0 now (retain_shard shard_of now k sh).
Proof.
  intros (Hcfg & Hg & Ht & He & Hm).
  split; [done|]. split; [done|]. split; [done|]. split; [done|by apply ids_ok_retain].
Qed.

(** What one critical section preserves, and when it can touch the global bucket. *)
Lemma access_ok t0 now p sh :
  is_instant now -> cells_ok t0 now sh -> pc_ok (length (entries sh)) p -> is_done p = false ->
  let '(p', sh') := access now p sh in
  cells_ok t0 now sh' /\ pc_ok (length (entries sh')) p' /\
  (length (entries sh) <= length (entries sh'))%nat /\
  match p with
  | GlobalConsume _ => exists ok, try_consume now (global_bucket sh) = (ok, global_bucket sh') /\
      granted p' = ok /\ attempted p' = true
  | _ => global_bucket sh' = global_bucket sh /\ attempted p' = true /\
      Z.b2z (granted p') <= Z.b2z (granted p)
  end.
Proof.
  intros Hnow Hok Hp Hd. pose proof Hok as (Hcfg & Hg & Ht & He & Hm).
  assert (Hentry : forall id, (id < length (entries sh))%nat ->
    exists e, entries sh !! id = Some e /\ bucket_ok c (ClientEntry.bucket e)).
  { intros id [e Ee]%lookup_lt_is_Some_2. exists e. by split; [|apply (Forall_lookup_1 _ _ _ _ He Ee)]. }
  destruct p as [oip| |ip|ip n k|ip n k|ip n m k|ip|id|id t|id|id|a]; cbn [SharedLimiter.access].
  - destruct (try_consume now (global_bucket sh)) as [ok g] eqn:Eg.
    pose proof (try_consume_ok c Hc now _ _ _ Hnow Hg Eg) as Hgok.
    destruct (consume_held c Hc Hb now _ ok _ Hnow Hg Eg) as (_ & Hlast & _).
    assert (Hset : cells_ok t0 now (SharedLimiter.set_global g sh)).
    { unfold cells_ok; simpl. split_and!; try done; lia. }
    destruct ok; simpl; [|split_and!; try done; by exists false].
    destruct (per_client (config sh)), oip; split_and!; try done; by exists true.
  - split_and!; try done; [by apply rejected_ok|].
    unfold rejected. destruct (wait_time (global_bucket sh)); simpl; lia.
  - by destruct (_ <? _); split_and!.
  - by destruct (S k <? shards)%nat; split_and!.
  - destruct (S k <? shards)%nat; split_and!; try done; by apply retain_ok.
  - destruct (S k <? shards)%nat; [by split_and!|].
    destruct (_ && _) eqn:E; split_and!; try done. simpl. intros _ Ho. by rewrite Ho in E.
  - destruct (client_buckets sh !! ip) as [id|] eqn:Ei.
    + split_and!; try done. simpl. by eapply (proj1 Hm).
    + split_and!; try done; [by apply insert_entry_ok|..]; simpl; rewrite length_app; simpl; lia.
  - by split_and!.
  - destruct (Hentry id Hp) as (e & -> & Hek).
    split_and!; try done; [by apply set_entry_ok|..]; simpl; by rewrite length_insert.
  - destruct (Hentry id Hp) as (e & -> & Hek).
    destruct (try_consume now (ClientEntry.bucket e)) as [ok b] eqn:Eb.
    pose proof (try_consume_ok c Hc now _ _ _ Hnow Hek Eb) as Hbok.
    destruct ok; split_and!; try done; try (by apply set_entry_ok); simpl; by rewrite length_insert.
  - destruct (Hentry id Hp) as (e & -> & Hek). split_and!; try done; [by apply rejected_ok|].
    unfold rejected. destruct (wait_time (ClientEntry.bucket e)); simpl; lia.
  - done.
Qed.

(** The system invariant: the global bucket is within its allowance for the tasks
    that took a token and those that tried. *)
Definition sys_ok (t0 : Instant) (s : system cells pc) : Prop :=
  is_instant t0 /\ is_instant (clock s) /\ cells_ok t0 (clock s) (shared s) /\
  Forall (pc_ok (length (entries (shared s)))) (tasks s) /\
  exists k, count_if granted (tasks s) <= k /\
    within c k (last_update (global_bucket (shared s)) - t0) (count_if attempted (tasks s))
      (global_bucket (shared s)).

Definition timed (e : event (option IpAddr)) : Prop :=
  match e with Tick t => is_instant t | _ => True end.

Lemma sys_ok_step t0 s e s' : timed e -> sys_ok t0 s -> sys_step s e s' -> sys_ok t0 s'.
Proof.
  intros He (Ht0 & Hclk & Hcells & Hpcs & k & Hk & Hw) Hstep.
  destruct Hstep as [sh t ps m|sh t ps i p p' sh' Hi Hd Hacc|sh t ps t' Ht]; simpl in *.
  - split_and!; try done; simpl.
    + apply Forall_app_2; [done|]. by constructor.
    + exists k. rewrite !count_if_snoc. simpl. rewrite !Z.add_0_r. done.
  - pose proof (access_ok t0 t p sh Hclk Hcells (Forall_lookup_1 _ _ _ _ Hpcs Hi) Hd) as Ha.
    rewrite Hacc in Ha. destruct Ha as (Hcells' & Hp' & Hlen & Hglob).
    split_and!; try done; simpl.
    { apply Forall_insert; [|done]. eapply Forall_impl; [exact Hpcs|]. intros q. by apply pc_ok_mono. }
    destruct p as [oip| | | | | | | | | | |]; try done.
    1: { destruct Hglob as (ok & Et & Hgr & Hat). exists (k + Z.b2z ok).
      rewrite !(count_if_insert _ _ _ _ _ Hi), Hgr, Hat. simpl. split; [lia|].
      pose proof (within_step c Hc Hr Hb t _ ok _ k _ _ Hclk (proj1 (proj2 Hcells))
        (proj2 (proj1 (proj2 (proj2 Hcells)))) Et Hw) as Hw'.
      destruct (consume_held c Hc Hb t _ ok _ Hclk (proj1 (proj2 Hcells)) Et) as (_ & Hlast & _).
      rewrite Hlast. match type of Hw' with within _ _ ?a ?b _ => 
        replace a with (t - t0) in Hw' by lia end.
      rewrite Z.sub_0_r. done. }
    all: destruct Hglob as (Hg & Hat & Hgr); exists k;
      rewrite !(count_if_insert _ _ _ _ _ Hi), Hat, Hg; simpl Z.b2z in *; split; [lia|];
      match goal with |- within _ _ _ ?a _ => replace a with (count_if attempted ps) by lia end; done.
  - split_and!; try done; [|by exists k]. destruct Hcells as (? & ? & ? & ? & ?).
    unfold cells_ok; simpl. split_and!; (done || lia).
Qed.

Lemma new_sys_ok t0 : is_instant t0 -> sys_ok t0 (mkSystem (new c t0) t0 []).
Proof.
  intros Ht. split; [done|]. split; [done|]. split.
  { split; [done|]. split; [by apply bucket_new_ok|]. split; [simpl; lia|]. split; [done|].
    split; simpl; intros *; by rewrite lookup_empty. }
  split; [done|]. exists 0. split; [done|]. simpl. rewrite Z.sub_diag. by apply within_new.
Qed.

Lemma reachable_ok t0 es s :
  is_instant t0 -> Forall timed es -> steps sys_step (mkSystem (new c t0) t0 []) es s -> sys_ok t0 s.
Proof.
  intros Ht Hes Hs. eapply (steps_invariant sys_step timed (sys_ok t0)); eauto using sys_ok_step, new_sys_ok.
Qed.

(** *** A call that runs alone *)

Abbreviation solo := (Tasks.solo is_done access).

(** The limiter of the one-step model: each client with the entry its name stands for. *)
Definition view (sh : cells) : RateLimiter.limiter :=
  RateLimiter.mk (config sh) (global_bucket sh)
    (omap (fun id => entries sh !! id) (client_buckets sh)) (last_cleanup sh).

Lemma view_lookup sh ip :
  RateLimiter.client_buckets (view sh) !! ip = client_buckets sh !! ip ≫= (fun id => entries sh !! id).
Proof. apply lookup_omap. Qed.

Lemma view_insert sh ip e :
  ids_ok sh -> client_buckets sh !! ip = None ->
  view (insert_entry ip e sh) = RateLimiter.mk (config sh) (global_bucket sh)
    (<[ip := e]> (RateLimiter.client_buckets (view sh))) (last_cleanup sh).
Proof.
  intros [Hlt _] Hip. unfold view; simpl. f_equal. apply map_eq. intros a. rewrite lookup_omap.
  destruct (decide (a = ip)) as [->|Hne].
  - rewrite !lookup_insert_eq. simpl. by rewrite lookup_app_r, Nat.sub_diag by done.
  - rewrite !lookup_insert_ne, lookup_omap by done.
    destruct (client_buckets sh !! a) as [id|] eqn:E; [|done]. simpl.
    apply lookup_app_l. by eapply Hlt.
Qed.

Lemma view_set_entry sh ip id e :
  ids_ok sh -> client_buckets sh !! ip = Some id ->
  view (set_entry id e sh) = RateLimiter.mk (config sh) (global_bucket sh)
    (<[ip := e]> (RateLimiter.client_buckets (view sh))) (last_cleanup sh).
Proof.
  intros [Hlt Hinj] Hip. unfold view; simpl. f_equal. apply map_eq. intros a. rewrite lookup_omap.
  destruct (decide (a = ip)) as [->|Hne].
  - rewrite Hip, lookup_insert_eq. simpl. rewrite list_lookup_insert_eq; [done|]. by eapply Hlt.
  - rewrite lookup_insert_ne, lookup_omap by done.
    destruct (client_buckets sh !! a) as [id'|] eqn:E; [|done]. simpl.
    rewrite list_lookup_insert_ne; [done|]. intros ->. apply Hne. by eapply Hinj.
Qed.

(** The answer a task gives once its bucket has decided. *)
Definition answer (ty : RateLimitType) (ok : bool) (b : bucket) : outcome (result unit RateLimitInfo) :=
  if ok then Returns (Ok tt)
  else outcome_bind (wait_time b) (fun wait => Returns (Err (mkRateLimitInfo ty wait 0))).

(** The critical section that finds or makes the entry of a client. *)
Lemma get_entry now ip sh :
  ids_ok sh ->
  let e := default (ClientEntry.new (config sh) now) (RateLimiter.client_buckets (view sh) !! ip) in
  exists id sh1, access now (EntryGet ip) sh = (EntryNow id, sh1) /\ ids_ok sh1 /\
    client_buckets sh1 !! ip = Some id /\ entries sh1 !! id = Some e /\
    config sh1 = config sh /\ global_bucket sh1 = global_bucket sh /\ last_cleanup sh1 = last_cleanup sh /\
    forall e', <[ip := e']> (RateLimiter.client_buckets (view sh1)) =
               <[ip := e']> (RateLimiter.client_buckets (view sh)).
Proof.
  intros Hids e. subst e. rewrite view_lookup. cbn [SharedLimiter.access].
  destruct (client_buckets sh !! ip) as [id|] eqn:Ei; cbn [mbind option_bind].
  - destruct (lookup_lt_is_Some_2 (entries sh) id) as [e Ee]; [by eapply Hids|]. rewrite Ee.
    by exists id, sh.
  - eexists _, _. split; [done|]. split; [by apply ids_ok_insert|]. split; [apply lookup_insert_eq|].
    split; [simpl; by rewrite lookup_app_r, Nat.sub_diag|]. do 3 (split; [done|]).
    intros e'. rewrite view_insert by done. apply insert_insert_eq.
Qed.

(** From the entry of a client on. *)
Lemma solo_entry n now ip sh :
  ids_ok sh ->
  let e := default (ClientEntry.new (config sh) now) (RateLimiter.client_buckets (view sh) !! ip) in
  let '(ok, b) := try_consume now (ClientEntry.bucket e) in
  exists sh', solo (5 + n) now (EntryGet ip) sh = (Done (answer PerClient ok b), sh') /\
    view sh' = RateLimiter.mk (config sh) (global_bucket sh)
      (<[ip := ClientEntry.mk b now]> (RateLimiter.client_buckets (view sh))) (last_cleanup sh).
Proof.
  intros Hids e. destruct (try_consume now (ClientEntry.bucket e)) as [ok b] eqn:Eb.
  destruct (get_entry now ip sh Hids) as (id & sh1 & Eg & Hids1 & Hid & He & Hcfg & Hg & Hcl & Hins).
  fold e in He. cbn [Nat.add]. rewrite solo_step, Eg by done. rewrite solo_step by done. cbn [SharedLimiter.access].
  rewrite solo_step by done. cbn [SharedLimiter.access]. rewrite He.
  rewrite solo_step by done. cbn [SharedLimiter.access].
  set (e1 := ClientEntry.mk (ClientEntry.bucket e) now). set (sh2 := set_entry id e1 sh1).
  assert (Hlen : (id < length (entries sh1))%nat) by by eapply lookup_lt_Some.
  assert (He2 : entries sh2 !! id = Some e1) by (by apply list_lookup_insert_eq).
  rewrite He2. subst e1. cbn [ClientEntry.bucket]. rewrite Eb.
  set (sh3 := set_entry id _ sh2).
  assert (Hids2 : ids_ok sh2) by by apply ids_ok_set_entry.
  assert (Hview : view sh3 = RateLimiter.mk (config sh) (global_bucket sh)
      (<[ip := ClientEntry.mk b now]> (RateLimiter.client_buckets (view sh))) (last_cleanup sh)).
  { subst sh3. rewrite (view_set_entry sh2 ip id) by done.
    change (config sh2) with (config sh1). change (global_bucket sh2) with (global_bucket sh1).
    change (last_cleanup sh2) with (last_cleanup sh1). rewrite Hcfg, Hg, Hcl. f_equal.
    subst sh2. rewrite (view_set_entry sh1 ip id) by done. cbn [RateLimiter.client_buckets].
    by rewrite insert_insert_eq, Hins. }
  destruct ok; cbn [negb]; [by exists sh3; rewrite solo_done|].
  exists sh3. rewrite solo_step by done. cbn [SharedLimiter.access].
  assert (He3 : entries sh3 !! id = Some (ClientEntry.mk b now)).
  { apply list_lookup_insert_eq. subst sh2. simpl. by rewrite length_insert. }
  rewrite He3. unfold rejected. cbn [ClientEntry.bucket]. by rewrite solo_done.
Qed.

(** The visits of the shards from the [k]-th on, in a row. *)
Lemma solo_retain j n now ip initial k sh :
  (forall a, (shard_of a < shards)%nat) -> (k + S j = shards)%nat ->
  solo (S j + n) now (CleanupRetain ip initial k) sh =
  solo n now (CleanupRemoved ip initial 0 0)
    (set_clients (filter (fun p => (k <= shard_of p.1)%nat -> expired now sh p.2 = false) (client_buckets sh)) sh).
Proof.
  intros Hsh. revert k sh. induction j as [|j IH]; intros k sh Hk; cbn [Nat.add];
    rewrite solo_step by done; cbn [SharedLimiter.access].
  - rewrite (proj2 (Nat.ltb_ge _ _)) by lia. f_equal. unfold retain_shard, set_clients. f_equal.
    apply map_filter_ext. intros a id _. simpl. specialize (Hsh a).
    split; intros H ?; apply H; lia.
  - rewrite (proj2 (Nat.ltb_lt _ _)) by lia.
    change (S (j + n)) with (S j + n)%nat. rewrite IH by lia. f_equal.
    unfold retain_shard, set_clients; simpl. f_equal. rewrite map_filter_filter.
    apply map_filter_ext. intros a id _. simpl. unfold expired; simpl.
    split; [intros [H1 H2] H3; destruct (decide (shard_of a = k)); [by apply H2|apply H1; lia]|].
    intros H. split; intros; apply H; lia.
Qed.

(** The cleanup of the one-step model, in the view. *)
Lemma view_retain now sh :
  view (set_clients (filter (fun p => (0 <= shard_of p.1)%nat -> expired now sh p.2 = false)
    (client_buckets sh)) sh) =
  RateLimiter.mk (config sh) (global_bucket sh)
    (filter (fun p => ClientEntry.is_expired now (client_ttl (config sh)) p.2 = false)
      (RateLimiter.client_buckets (view sh))) (last_cleanup sh).
Proof.
  unfold view; simpl. f_equal. apply map_eq. intros a.
  rewrite lookup_omap, !map_lookup_filter, lookup_omap.
  destruct (client_buckets sh !! a) as [id|]; [|done]. simpl. unfold expired.
  destruct (entries sh !! id) as [e|] eqn:Ee; simpl.
  - destruct (ClientEntry.is_expired now _ e) eqn:Ex.
    + rewrite !option_guard_False; [done|congruence|]. intros H. specialize (H ltac:(lia)). congruence.
    + rewrite !option_guard_True by done. simpl. done.
  - done.
Qed.

(** The entries in the shards below [k], and all of them. *)
Definition below (k : nat) (m : gmap IpAddr nat) : Z :=
  Z.of_nat (size (filter (fun p => (shard_of p.1 < k)%nat) m)).

Lemma below_zero m : below 0 m = 0.
Proof.
  unfold below. replace (filter _ m) with (∅ : gmap IpAddr nat); [by rewrite map_size_empty|].
  symmetry. apply map_empty. intros a. apply eq_None_not_Some.
  intros [id [_ Hx]%map_lookup_filter_Some]. simpl in Hx. lia.
Qed.

Lemma below_next k m : below (S k) m = below k m + shard_len shard_of k m.
Proof.
  unfold below, shard_len. rewrite <-Nat2Z.inj_add, <-map_size_disj_union.
  - do 2 f_equal. apply map_eq. intros a. apply option_eq. intros id.
    rewrite lookup_union_Some, !map_lookup_filter_Some; simpl.
    + destruct (decide (shard_of a = k)); intuition lia.
    + apply map_disjoint_spec. intros b x y [_ Hx]%map_lookup_filter_Some [_ Hy]%map_lookup_filter_Some. simpl in *. lia.
  - apply map_disjoint_spec. intros b x y [_ Hx]%map_lookup_filter_Some [_ Hy]%map_lookup_filter_Some. simpl in *. lia.
Qed.

Lemma below_all m : (forall a, (shard_of a < shards)%nat) -> below shards m = Z.of_nat (size m).
Proof. intros Hsh. unfold below. rewrite map_filter_id; [done|]. intros a id _. apply Hsh. Qed.

Lemma below_mono k m m' : m ⊆ m' -> below k m <= below k m'.
Proof. intros Hm. apply inj_le, map_subseteq_size, map_filter_subseteq_mono, Hm. Qed.

Lemma shard_len_mono k m m' : m ⊆ m' -> shard_len shard_of k m <= shard_len shard_of k m'.
Proof. intros Hm. apply inj_le, map_subseteq_size, map_filter_subseteq_mono, Hm. Qed.

(** The visits of the shards to count, in a row. *)
Lemma solo_len j n now ip count k sh :
  (k + S j = shards)%nat ->
  solo (S j + n) now (CleanupLen ip count k) sh =
  solo n now (CleanupRetain ip (count + below shards (client_buckets sh) - below k (client_buckets sh)) 0) sh.
Proof.
  revert k count. induction j as [|j IH]; intros k count Hk; cbn [Nat.add]; rewrite solo_step by done;
    cbn [SharedLimiter.access].
  - rewrite (proj2 (Nat.ltb_ge _ _)) by lia. replace (below shards (client_buckets sh)) with (below (S k) (client_buckets sh)) by (f_equal; lia).
    rewrite below_next. do 2 f_equal. lia.
  - rewrite (proj2 (Nat.ltb_lt _ _)) by lia. change (S (j + n)) with (S j + n)%nat. rewrite IH by lia.
    rewrite below_next. do 2 f_equal. lia.
Qed.

Lemma solo_removed j n now ip initial count k sh :
  (k + S j = shards)%nat -> count + below shards (client_buckets sh) - below k (client_buckets sh) <= initial ->
  solo (S j + n) now (CleanupRemoved ip initial count k) sh = solo n now (EntryGet ip) sh.
Proof.
  revert k count. induction j as [|j IH]; intros k count Hk Hle; cbn [Nat.add]; rewrite solo_step by done;
    cbn [SharedLimiter.access].
  - rewrite (proj2 (Nat.ltb_ge _ _)) by lia. replace (below shards (client_buckets sh)) with (below (S k) (client_buckets sh)) in Hle by (f_equal; lia).
    rewrite below_next in Hle.
    rewrite (proj2 (Z.ltb_ge _ _)) by lia. by rewrite andb_false_r.
  - rewrite (proj2 (Nat.ltb_lt _ _)) by lia. change (S (j + n)) with (S j + n)%nat. apply IH; [lia|].
    rewrite below_next. lia.
Qed.

(** A cleanup that runs alone. *)
Lemma solo_cleanup n now ip sh :
  (0 < shards)%nat -> (forall a, (shard_of a < shards)%nat) -> ids_ok sh ->
  exists m sh1, (n <= m)%nat /\ solo (1 + (shards + (shards + (shards + n)))) now (CleanupTest ip) sh = solo m now (EntryGet ip) sh1 /\
    ids_ok sh1 /\ config sh1 = config sh /\
    view sh1 = RateLimiter.maybe_cleanup now (view sh).
Proof.
  intros Hpos Hsh Hids. cbn [Nat.add]. rewrite solo_step by done. cbn [SharedLimiter.access].
  unfold RateLimiter.maybe_cleanup. change (RateLimiter.last_cleanup (view sh)) with (last_cleanup sh).
  destruct (elapsed now (last_cleanup sh) <? from_secs 60).
  { exists (shards + (shards + (shards + n)))%nat, sh. by split; [lia|]. }
  set (sh0 := set_cleanup now sh).
  assert (Hs : forall k, (shards + k = S (shards - 1) + k)%nat) by lia.
  rewrite (Hs (shards + (shards + n))%nat), solo_len, (Hs (shards + n)%nat), solo_retain, (Hs n) by (done || lia).
  set (sh1 := set_clients _ sh0). rewrite solo_removed; [|lia|].
  - exists n, sh1. split; [done|]. split; [done|].
    split; [|split; [done|subst sh1; apply view_retain]].
    destruct Hids as [Hlt Hinj]. split; simpl.
    + intros a id [Hx _]%map_lookup_filter_Some. by eapply Hlt.
    + intros a b id [Hx _]%map_lookup_filter_Some [Hy _]%map_lookup_filter_Some. by eapply Hinj.
  - rewrite !below_zero. assert (Hsub : client_buckets sh1 ⊆ client_buckets sh0) by apply map_filter_subseteq.
    pose proof (below_mono shards _ _ Hsub). lia.
Qed.

End Facts.
End SharedLimiterFacts.

(** ** Properties *)

Import SharedLimiter SharedLimiterFacts RateLimitFacts.

(** A check that runs alone does exactly what the one-step model of [RateLimit.v]
    does: it ends within [12] critical sections plus three per shard, with the same
    answer (or panic) and the same limiter, reading each client's entry through the map.
    So the one-step theorems are about the split code. *)
Theorem solo_is_check shard_of shards overflow_checks now client_ip sh :
  (0 < shards)%nat -> (forall a, (shard_of a < shards)%nat) -> ids_ok sh ->
  exists a sh', Tasks.solo is_done (access shard_of shards overflow_checks) (12 + 3 * shards) now (start client_ip) sh =
      (Done a, sh') /\
    match RateLimiter.check now client_ip (view sh) with
    | Returns (r, l) => a = Returns r /\ view sh' = l
    | Panics => a = Panics
    end.
Proof.
  intros Hpos Hsh Hids. change (12 + 3 * shards)%nat with (S (S (10 + 3 * shards))).
  rewrite solo_step by done. cbn [access start]. unfold RateLimiter.check.
  change (RateLimiter.global_bucket (view sh)) with (global_bucket sh).
  destruct (TokenBucket.try_consume now (global_bucket sh)) as [ok g] eqn:Eg.
  change (RateLimiter.set_global g (view sh)) with (view (set_global g sh)).
  set (sh0 := set_global g sh). change (RateLimiter.config (view sh0)) with (config sh0).
  destruct ok; cbn [negb].
  - destruct (per_client (config sh0)); [|by eexists _, _; rewrite solo_done].
    destruct client_ip as [ip|]; [|by eexists _, _; rewrite solo_done].
    replace (S (10 + 3 * shards)) with (1 + (shards + (shards + (shards + 10))))%nat by lia.
    destruct (solo_cleanup shard_of shards overflow_checks 10 now ip sh0 Hpos Hsh Hids)
      as (m & sh1 & Hm & -> & Hids1 & Hcfg & Hv).
    rewrite <-Hv. change (RateLimiter.config (view sh1)) with (config sh1).
    replace m with (5 + (m - 5))%nat by lia.
    pose proof (solo_entry shard_of shards overflow_checks (m - 5) now ip sh1 Hids1) as He.
    cbv zeta in He. set (e := default _ _) in *. unfold ClientEntry.try_acquire.
    destruct (TokenBucket.try_consume now (ClientEntry.bucket e)) as [ok b].
    destruct He as (sh' & -> & Hv'). eexists _, _. split; [done|].
    destruct ok; cbn [negb answer]; [by rewrite Hv'|]. cbn [ClientEntry.bucket].
    destruct (TokenBucket.wait_time b); [|done]. cbn [outcome_bind]. by rewrite Hv'.
  - rewrite solo_step by done. cbn [access]. unfold rejected. eexists _, _. rewrite solo_done by done.
    split; [done|]. change (global_bucket sh0) with g. by destruct (TokenBucket.wait_time g).
Qed.

Lemma solo_is_check_witness :
  exists a sh', Tasks.solo is_done (access (fun _ => 0%nat) 1 true) 15 5 (start (Some (V4 [1; 2; 3; 4])))
      (new (rate_limit_config_new 10 2) 0) = (Done a, sh') /\
    match RateLimiter.check 5 (Some (V4 [1; 2; 3; 4])) (view (new (rate_limit_config_new 10 2) 0)) with
    | Returns (r, l) => a = Returns r /\ view sh' = l
    | Panics => a = Panics
    end.
Proof.
  apply (solo_is_check (fun _ => 0%nat) 1 true 5 (Some (V4 [1; 2; 3; 4])) (new (rate_limit_config_new 10 2) 0)).
  - lia.
  - intros _. lia.
  - split; simpl; intros *; by rewrite lookup_empty.
Defined.

Definition admitted (p : pc) : bool :=
  match p with Done (Returns (Ok _)) => true | _ => false end.

Lemma admitted_granted ps : count_if admitted ps <= count_if granted ps.
Proof.
  induction ps as [|p ps IH]; [done|]. rewrite !count_if_cons.
  destruct p as [| | | | | | | | | | |[[|]|]]; simpl; try lia. destruct (limit_type e); simpl; lia.
Qed.

Lemma allowance_mono c T T' n n' :
  config_ok c -> T <= T' -> n <= n' -> allowance c T n <= allowance c T' n'.
Proof. intros [[? _] [? _]] HT Hn. unfold allowance, nanos_per_sec. nia. Qed.

(** C2. However the calls of any number of tasks interleave, the limiter never admits
    more than the burst plus the rate times the elapsed time, plus the rounding: the
    global bucket's lock serialises the only step that matters. *)
Theorem interleaved_rate shard_of shards overflow_checks c t0 es s :
  config_ok c -> requests_per_second c <= 2 ^ 53 -> burst_size c <= 2 ^ 53 ->
  is_instant t0 -> Forall timed es ->
  steps (Tasks.sys_step start is_done (access shard_of shards overflow_checks))
    (mkSystem (new c t0) t0 []) es s ->
  2 ^ 52 * nanos_per_sec * count_if admitted (tasks s) <=
    allowance c (clock s - t0) (Z.of_nat (length (tasks s))) /\
  (requests_per_second c * (clock s - t0) <= 2 ^ 48 * nanos_per_sec ->
   Z.of_nat (length (tasks s)) * (burst_size c + 1) <= 2 ^ 51 ->
   count_if admitted (tasks s) <=
     burst_size c + requests_per_second c * (clock s - t0) / nanos_per_sec + 1).
Proof.
  intros Hc Hr Hb Ht Hes Hs.
  destruct (reachable_ok shard_of shards overflow_checks c Hc Hr Hb t0 es s Ht Hes Hs)
    as (_ & _ & Hcells & _ & k & Hk & Hw).
  assert (Hall : 2 ^ 52 * nanos_per_sec * count_if admitted (tasks s) <=
    allowance c (clock s - t0) (Z.of_nat (length (tasks s)))).
  { apply (within_admitted c Hc Hb) in Hw; [|apply Hcells].
    pose proof (admitted_granted (tasks s)). etransitivity; [|etransitivity; [exact Hw|]].
    - unfold nanos_per_sec. lia.
    - apply allowance_mono; [done| |apply count_if_le_length]. destruct Hcells as (_ & _ & ? & _). lia. }
  split; [done|]. intros HT Hn. by eapply allowance_small.
Qed.

(** Two clients race for the only token of a burst of one. *)
Definition race_schedule : list (event (option IpAddr)) :=
  [Spawn (Some (V4 [1; 2; 3; 4])); Spawn (Some (V4 [1; 2; 3; 5]))] ++
  runs 0 1 ++ runs 1 2 ++ runs 0 5.

Lemma interleaved_rate_witness :
  exists s, steps (Tasks.sys_step start is_done (access (fun _ => 0%nat) 1 false))
      (mkSystem (new (rate_limit_config_new 3 1) 0) 0 []) race_schedule s /\
    count_if admitted (tasks s) <= 1 + 3 * (clock s - 0) / nanos_per_sec + 1.
Proof.
  destruct (schedule start is_done (access (fun _ => 0%nat) 1 false) race_schedule
    (mkSystem (new (rate_limit_config_new 3 1) 0) 0 [])) as [s|] eqn:E; [|vm_compute in E; discriminate E].
  exists s. pose proof (schedule_sound _ _ _ _ _ _ E) as Hs. split; [exact Hs|].
  apply (interleaved_rate (fun _ => 0%nat) 1 false (rate_limit_config_new 3 1) 0 race_schedule s).
  - split; simpl; words.
  - simpl. lia.
  - simpl. lia.
  - by apply instant_small.
  - repeat constructor.
  - exact Hs.
  - vm_compute in E. injection E as <-. vm_compute. congruence.
  - vm_compute in E. injection E as <-. vm_compute. congruence.
Defined.

(** The critical sections a call still has before it. *)
Definition remaining_sections (shards : nat) (p : pc) : nat :=
  match p with
  | GlobalConsume _ => 10 + 3 * shards
  | GlobalWait => 1
  | CleanupTest _ => 9 + 3 * shards
  | CleanupLen _ _ k => 8 + 2 * shards + (shards - k)
  | CleanupRetain _ _ k => 7 + shards + (shards - k)
  | CleanupRemoved _ _ _ k => 6 + (shards - k)
  | EntryGet _ => 5
  | EntryNow _ => 4
  | EntryTouch _ _ => 3
  | EntryConsume _ => 2
  | EntryWait _ => 1
  | Done _ => 0
  end.

Lemma sections_decrease shard_of shards overflow_checks now p sh :
  is_done p = false ->
  (remaining_sections shards (access shard_of shards overflow_checks now p sh).1 <
   remaining_sections shards p)%nat.
Proof.
  destruct p; cbn [access]; unfold rejected; intros Hd; try done; simpl; repeat case_match; simpl;
    repeat match goal with H : (_ <? _)%nat = true |- _ => apply Nat.ltb_lt in H end; lia.
Qed.

(** C25. With a rate of at least one per second, in a release build, no interleaving of
    checks panics or blocks: every answer is an admission or a rejection with a wait
    of at most a second, a call in progress can always go on, and it ends within
    [10] critical sections plus three per shard, whatever the other tasks do. *)
Theorem interleaved_checks_complete shard_of shards c t0 es s i ip es' s' :
  config_ok c -> 1 <= requests_per_second c <= 2 ^ 53 -> burst_size c <= 2 ^ 53 ->
  is_instant t0 -> Forall timed es -> Forall timed es' ->
  let step := Tasks.sys_step start is_done (access shard_of shards false) in
  steps step (mkSystem (new c t0) t0 []) es s -> tasks s !! i = Some (start ip) -> steps step s es' s' ->
  exists p, tasks s' !! i = Some p /\
    (forall a, p = Done a -> exists r, a = Returns r /\ rejection_ok r) /\
    (is_done p = false -> exists s'', step s' (Run i) s'') /\
    count_if (is_run i) es' <= 10 + 3 * Z.of_nat shards /\
    (count_if (is_run i) es' = 10 + 3 * Z.of_nat shards -> is_done p = true).
Proof.
  intros Hc Hr Hb Ht Hes Hes' step Hs Hi Hs'.
  destruct (accesses_bounded _ _ _ (remaining_sections shards) _ _ _ i _
    (sections_decrease shard_of shards false) Hs' Hi) as (p & Hp & Hle).
  exists p. split; [done|]. change (remaining_sections shards (start ip)) with (10 + 3 * shards)%nat in Hle.
  pose proof (steps_app _ _ _ _ _ _ Hs Hs') as Hall.
  destruct (reachable_ok shard_of shards false c Hc (proj2 Hr) Hb t0 _ s' Ht (Forall_app_2 _ _ _ Hes Hes') Hall)
    as (_ & _ & _ & Hpcs & _).
  split_and!; try lia.
  - intros a ->. pose proof (Forall_lookup_1 _ _ _ _ Hpcs Hp (proj1 Hr) eq_refl) as Ha.
    destruct a as [r|]; [by exists r|done].
  - intros Hd. destruct s' as [sh t ps].
    destruct (access shard_of shards false t p sh) as [p' sh'] eqn:E.
    eexists. by econstructor.
  - intros Heq. destruct p; simpl in Hle; try lia. done.
Qed.

Lemma interleaved_checks_complete_witness :
  exists s s' p,
    schedule start is_done (access (fun _ => 0%nat) 1 false) [Spawn None; Spawn None]
      (mkSystem (new (rate_limit_config_new 3 1) 0) 0 []) = Some s /\
    schedule start is_done (access (fun _ => 0%nat) 1 false) [Run 0%nat; Run 1%nat; Run 1%nat] s = Some s' /\
    tasks s' !! 1%nat = Some p /\ (forall a, p = Done a -> exists r, a = Returns r /\ rejection_ok r).
Proof.
  destruct (schedule start is_done (access (fun _ => 0%nat) 1 false) [Spawn None; Spawn None]
      (mkSystem (new (rate_limit_config_new 3 1) 0) 0 [])) as [s|] eqn:E; [|discriminate E].
  destruct (schedule start is_done (access (fun _ => 0%nat) 1 false) [Run 0%nat; Run 1%nat; Run 1%nat] s)
    as [s'|] eqn:E'; [|cbn in E; injection E as <-; vm_compute in E'; discriminate E'].
  destruct (interleaved_checks_complete (fun _ => 0%nat) 1 (rate_limit_config_new 3 1) 0 [Spawn None; Spawn None] s
    1%nat None [Run 0%nat; Run 1%nat; Run 1%nat] s') as (p & Hp & Ha & _).
  - split; simpl; words.
  - simpl. lia.
  - simpl. lia.
  - by apply instant_small.
  - repeat constructor.
  - repeat constructor.
  - apply (schedule_sound _ _ _ _ _ _ E).
  - cbn in E. injection E as <-. reflexivity.
  - apply (schedule_sound _ _ _ _ _ _ E').
  - exists s, s', p. split; [reflexivity|]. split; [exact E'|]. by split.
Defined.

(** *** The limiter before any entry can have expired *)

Section Young.
Context (shard_of : IpAddr -> nat) (shards : nat) (overflow_checks : bool) (c : RateLimitConfig) (t0 : Instant).
Abbreviation access := (SharedLimiter.access shard_of shards overflow_checks).
Abbreviation sys_step := (Tasks.sys_step start is_done access).

(** No time later than [client_ttl] after the creation. *)
Definition early (e : event (option IpAddr)) : Prop :=
  match e with Tick t => t - t0 <= client_ttl c | _ => True end.

Definition touched (p : pc) : Prop := match p with EntryTouch _ t => t0 <= t | _ => True end.

Definition young (s : system cells pc) : Prop :=
  config (shared s) = c /\ t0 <= clock s /\ clock s - t0 <= client_ttl c /\
  Forall (fun e => t0 <= ClientEntry.last_access e) (entries (shared s)) /\ Forall touched (tasks s).

Lemma young_fresh s id : young s -> expired (clock s) (shared s) id = false.
Proof.
  intros (Hc & Ht & Hold & He & _). unfold expired. destruct (entries (shared s) !! id) as [e|] eqn:E; [|done].
  pose proof (Forall_lookup_1 _ _ _ _ He E) as Hl. simpl in Hl. apply Z.ltb_ge. rewrite Hc.
  unfold elapsed, duration_since. lia.
Qed.

(** What an access keeps of this, and that it loses no client. *)
Lemma young_access now p sh :
  config sh = c -> t0 <= now -> (forall id, expired now sh id = false) -> touched p ->
  Forall (fun e => t0 <= ClientEntry.last_access e) (entries sh) ->
  let '(p', sh') := access now p sh in
  config sh' = c /\ Forall (fun e => t0 <= ClientEntry.last_access e) (entries sh') /\ touched p' /\
  client_buckets sh ⊆ client_buckets sh'.
Proof.
  intros Hc Ht Hex Hp He.
  assert (Hset : forall id e, t0 <= ClientEntry.last_access e ->
    Forall (fun e => t0 <= ClientEntry.last_access e) (<[id := e]> (entries sh))).
  { intros id e Hle. by apply Forall_insert. }
  destruct p as [oip| |ip|ip n k|ip n k|ip n m k|ip|id|id t|id|id|a]; cbn [SharedLimiter.access].
  - destruct (TokenBucket.try_consume now (global_bucket sh)) as [[] g]; simpl; [|done].
    destruct (per_client (config sh)), oip; done.
  - unfold rejected. by destruct (TokenBucket.wait_time _).
  - by destruct (_ <? _).
  - by destruct (S k <? shards)%nat.
  - assert (Hid : client_buckets (retain_shard shard_of now k sh) = client_buckets sh).
    { simpl. apply map_filter_id. intros a id _ _. simpl. apply Hex. }
    split; [done|]. split; [done|]. split; [by destruct (S k <? shards)%nat|]. by rewrite Hid.
  - split; [done|]. split; [done|]. split; [|done]. destruct (S k <? shards)%nat; [done|]. by destruct (_ && _).
  - destruct (client_buckets sh !! ip) as [id|] eqn:Ei; [done|]. split; [done|]. simpl.
    split; [by apply Forall_app_2; [|constructor]|]. split; [done|]. by apply insert_subseteq.
  - done.
  - destruct (entries sh !! id) as [e|]; [|done]. simpl. split_and!; try done. by apply Hset.
  - destruct (entries sh !! id) as [e|] eqn:E; [|done].
    destruct (TokenBucket.try_consume now (ClientEntry.bucket e)) as [ok b]. simpl.
    split; [done|]. split; [apply Hset; exact (Forall_lookup_1 _ _ _ _ He E)|]. by destruct ok.
  - destruct (entries sh !! id) as [e|]; [|done]. unfold rejected. by destruct (TokenBucket.wait_time _).
  - done.
Qed.

Lemma young_step s e s' :
  early e -> young s -> sys_step s e s' -> young s' /\ client_buckets (shared s) ⊆ client_buckets (shared s').
Proof.
  intros He Hy Hstep. pose proof (fun id => young_fresh s id Hy) as Hex. destruct Hy as (Hc & Ht & Hold & Hes & Hps).
  destruct Hstep as [sh t ps m|sh t ps i p p' sh' Hi Hd Hacc|sh t ps t' Hle]; simpl in *.
  - split; [|done]. split_and!; try done. by apply Forall_app_2; [|constructor].
  - pose proof (young_access t p sh Hc Ht Hex (Forall_lookup_1 _ _ _ _ Hps Hi) Hes) as H. rewrite Hacc in H.
    destruct H as (Hc' & Hes' & Hp' & Hm). split; [|done]. split_and!; try done. by apply Forall_insert.
  - split; [|done]. split_and!; (done || simpl; lia).
Qed.

(** *** What a cleanup counts *)

(** [m0] is the map at some moment: since then a task that counts the clients has found at least
    those of [m0], and at most those there are. *)
Definition counts (ip : IpAddr) (m0 m : gmap IpAddr nat) (p : pc) : Prop :=
  match p with
  | CleanupLen ip' n k => ip' = ip /\ (k < shards)%nat /\ below shard_of k m0 <= n <= below shard_of k m
  | CleanupRetain ip' n _ => ip' = ip /\ below shard_of shards m0 <= n <= below shard_of shards m
  | CleanupRemoved ip' n _ _ => ip' = ip /\ below shard_of shards m0 <= n <= below shard_of shards m
  | CleanupTest _ | GlobalConsume _ | GlobalWait => False
  | _ => True
  end.
Definition recounts (n0 : Z) (m0 m : gmap IpAddr nat) (p : pc) : Prop :=
  match p with
  | CleanupRemoved _ n count k => n = n0 /\ (k < shards)%nat /\ below shard_of k m0 <= count <= below shard_of k m
  | CleanupLen _ _ _ | CleanupRetain _ _ _ | CleanupTest _ | GlobalConsume _ | GlobalWait => False
  | _ => True
  end.

Definition follows (i : nat) (Q : gmap IpAddr nat -> pc -> Prop) (m0 : gmap IpAddr nat) (s : system cells pc) : Prop :=
  young s /\ m0 ⊆ client_buckets (shared s) /\ exists p, tasks s !! i = Some p /\ Q (client_buckets (shared s)) p.

Section Follows.
Context (i : nat) (Q : gmap IpAddr nat -> pc -> Prop) (m0 : gmap IpAddr nat).
Context (grows : forall m m' p, m ⊆ m' -> Q m p -> Q m' p).
Context (moves : forall now sh p, m0 ⊆ client_buckets sh -> Q (client_buckets sh) p -> Q (client_buckets sh) (access now p sh).1).

Lemma follows_steps s es s' :
  Forall early es -> steps sys_step s es s' -> follows i Q m0 s -> follows i Q m0 s'.
Proof.
  intros Hes Hs. induction Hs as [s|s e s1 es s2 Hstep _ IH]; intros (Hy & Hm & p & Hi & Hq); [by split_and!; [..|exists p]|].
  apply Forall_cons in Hes as [He Hes]. apply IH; [done|].
  destruct (young_step s e s1 He Hy Hstep) as [Hy1 Hm1]. split; [done|]. split; [by etransitivity|].
  destruct Hstep as [sh t ps m|sh t ps j q q' sh' Hj Hd Hacc|sh t ps t' Hle]; simpl in *.
  - exists p. split; [by apply lookup_app_l_Some|done].
  - destruct (decide (i = j)) as [->|Hne].
    + assert (q = p) as -> by congruence. exists q'. rewrite list_lookup_insert_eq by by eapply lookup_lt_Some.
      split; [done|]. apply (grows (client_buckets sh)); [done|].
      pose proof (moves t sh p Hm Hq) as H. by rewrite Hacc in H.
    + exists p. rewrite list_lookup_insert_ne by done. split; [done|]. by eapply grows.
  - by exists p.
Qed.
End Follows.

(** Where a task goes from the positions that do not count. *)
Lemma counts_later ip m0 m now p sh :
  match p with EntryGet _ | EntryNow _ | EntryTouch _ _ | EntryConsume _ | EntryWait _ | Done _ => True | _ => False end ->
  counts ip m0 m (access now p sh).1 /\ forall n, recounts n m0 m (access now p sh).1.
Proof.
  destruct p; try done; intros _; cbn [SharedLimiter.access]; unfold rejected; repeat case_match; done.
Qed.

Lemma counts_steps i ip m0 s es s' :
  Forall early es -> steps sys_step s es s' -> follows i (counts ip m0) m0 s -> follows i (counts ip m0) m0 s'.
Proof.
  apply follows_steps.
  - intros m m' p Hm. pose proof (fun k => below_mono shard_of k m m' Hm) as Hb.
    destruct p as [| | |? ? k|? ? k|? ? ? k| | | | | |]; simpl; try done; [specialize (Hb k)|specialize (Hb shards)..]; intuition lia.
  - intros now sh p Hm. destruct p as [| | |ip' n k|ip' n k|ip' n m k| | | | | |]; try done;
      try (intros _; by apply counts_later); cbn [SharedLimiter.access].
    + intros (-> & Hk & Hn). pose proof (shard_len_mono shard_of k _ _ Hm).
      assert (H1 : below shard_of (S k) m0 <= n + shard_len shard_of k (client_buckets sh) <= below shard_of (S k) (client_buckets sh))
        by (rewrite !below_next; lia).
      cbn [fst]. destruct (Nat.ltb_spec (S k) shards) as [Hlt|Hge]; [split; [done|]; split; [done|exact H1]|].
      split; [done|]. by replace shards with (S k) by lia.
    + intros H. by destruct (S k <? shards)%nat.
    + intros H. destruct (S k <? shards)%nat; [done|]. by destruct (_ && _).
Qed.

Lemma recounts_steps i n0 m0 s es s' :
  Forall early es -> steps sys_step s es s' -> follows i (recounts n0 m0) m0 s -> follows i (recounts n0 m0) m0 s'.
Proof.
  apply follows_steps.
  - intros m m' p Hm. pose proof (fun k => below_mono shard_of k m m' Hm) as Hb.
    destruct p as [| | |? ? k|? ? k|? ? ? k| | | | | |]; simpl; try done. specialize (Hb k). intuition lia.
  - intros now sh p Hm. destruct p as [| | |ip' n k|ip' n k|ip' n m k| | | | | |]; try done;
      try (intros _; by apply (counts_later (V4 []))); cbn [SharedLimiter.access].
    intros (-> & Hk & Hn). pose proof (shard_len_mono shard_of k _ _ Hm).
    assert (H1 : below shard_of (S k) m0 <= m + shard_len shard_of k (client_buckets sh) <= below shard_of (S k) (client_buckets sh))
      by (rewrite !below_next; lia).
    cbn [fst]. destruct (Nat.ltb_spec (S k) shards) as [Hlt|Hge]; [split; [done|]; split; [done|exact H1]|].
    by destruct (_ && _).
Qed.

Lemma young_reachable es s :
  0 <= client_ttl c -> Forall early es -> steps sys_step (mkSystem (new c t0) t0 []) es s -> young s.
Proof.
  intros Httl Hes Hs. eapply (steps_invariant sys_step early young); [|exact Hes| |exact Hs].
  - intros s0 e s1 He Hy Hst. by eapply young_step.
  - split_and!; (done || simpl; lia).
Qed.

(** What a task has counted follows the map from any moment on. *)
Lemma followed i Q m0 s p : young s -> tasks s !! i = Some p -> m0 = client_buckets (shared s) ->
  Q m0 p -> follows i Q m0 s.
Proof. intros Hy Hi -> Hq. split; [done|]. split; [done|]. by exists p. Qed.
End Young.

(** Two first requests after a quiet minute: one starts a cleanup, the other adds its
    entry meanwhile. *)
Definition underflow_schedule : list (event (option IpAddr)) :=
  [Spawn (Some (V4 [1; 2; 3; 4])); Spawn (Some (V4 [1; 2; 3; 5])); Tick (from_secs 60)] ++
  runs 0 3 ++ runs 1 3 ++ runs 0 2.

(** C32. A cleanup counts what it removed as the length of the map before minus its length
    after, both read shard by shard, and other requests add entries meanwhile. Take any
    interleaving while no entry can have expired (before [client_ttl] has passed): a task
    begins its cleanup ([s1]), has the first length ([s2]), has visited the shards to
    remove ([s3]) and is about to compare, at the last shard of the second length ([s4]). If
    some client was not in the map at [s2] and was at [s3], the subtraction underflows: with
    overflow checks (a debug build) the request panics, although nothing is wrong with
    it. If no client was added from [s1] to [s4], it goes on. *)
Theorem cleanup_count_underflows shard_of shards c t0 i ip n m k es1 s1 es2 s2 es3 s3 es4 s4 s5 :
  (forall a, (shard_of a < shards)%nat) -> 0 <= client_ttl c ->
  Forall (early c t0) (es1 ++ es2 ++ es3 ++ es4) ->
  let step := Tasks.sys_step start is_done (access shard_of shards true) in
  steps step (mkSystem (new c t0) t0 []) es1 s1 -> tasks s1 !! i = Some (CleanupLen ip 0 0) ->
  steps step s1 es2 s2 -> tasks s2 !! i = Some (CleanupRetain ip n 0) ->
  steps step s2 es3 s3 -> tasks s3 !! i = Some (CleanupRemoved ip n 0 0) ->
  steps step s3 es4 s4 -> tasks s4 !! i = Some (CleanupRemoved ip n m k) -> S k = shards ->
  step s4 (Run i) s5 ->
  ((exists a, client_buckets (shared s2) !! a = None /\ is_Some (client_buckets (shared s3) !! a)) ->
     tasks s5 !! i = Some (Done Panics)) /\
  (client_buckets (shared s4) = client_buckets (shared s1) -> tasks s5 !! i = Some (EntryGet ip)).
Proof.
  intros Hsh Httl (He1 & (He2 & (He3 & He4)%Forall_app)%Forall_app)%Forall_app step Hs1 Hi1 Hs2 Hi2 Hs3 Hi3 Hs4 Hi4 Hk H5.
  assert (Hpos : (0 < shards)%nat) by lia.
  pose proof (young_reachable shard_of shards true c t0 es1 s1 Httl He1 Hs1) as Hy1.
  assert (HA1 : follows c t0 i (counts shard_of shards ip (client_buckets (shared s1))) (client_buckets (shared s1)) s1).
  { eapply followed; [done|exact Hi1|done|]. split; [done|]. split; [done|]. rewrite !below_zero. lia. }
  pose proof (counts_steps shard_of shards true c t0 i ip _ _ _ _ He2 Hs2 HA1) as (Hy2 & _ & p2 & Hp2 & HA2).
  assert (p2 = CleanupRetain ip n 0) as -> by congruence. destruct HA2 as [_ HA2]. rewrite !below_all in HA2 by done.
  assert (HB2 : follows c t0 i (fun _ _ => True) (client_buckets (shared s2)) s2) by (by eapply followed).
  destruct (follows_steps shard_of shards true c t0 i _ (client_buckets (shared s2)) (fun _ _ _ _ _ => Logic.I)
    (fun _ _ _ _ _ => Logic.I) _ _ _ He3 Hs3 HB2) as (Hy3 & Hsub & _).
  assert (HC3 : follows c t0 i (recounts shard_of shards n (client_buckets (shared s3))) (client_buckets (shared s3)) s3).
  { eapply followed; [done|exact Hi3|done|]. split; [done|]. split; [done|]. rewrite !below_zero. lia. }
  pose proof (recounts_steps shard_of shards true c t0 i n _ _ _ _ He4 Hs4 HC3) as (_ & Hsub4 & p4 & Hp4 & HC4).
  assert (p4 = CleanupRemoved ip n m k) as -> by congruence. destruct HC4 as (_ & _ & Hm).
  inversion H5 as [|sh t ps j p p' sh' Hj Hd Hacc|]; subst s4 s5 j. simpl in *.
  assert (p = CleanupRemoved ip n m k) as -> by congruence. cbn [access] in Hacc.
  rewrite (proj2 (Nat.ltb_ge _ _)) in Hacc by lia. injection Hacc as <- <-.
  rewrite list_lookup_insert_eq by by eapply lookup_lt_Some.
  pose proof (shard_len_mono shard_of k _ _ Hsub4) as Hlen.
  assert (Htot : Z.of_nat (size (client_buckets (shared s3))) <= m + shard_len shard_of k (client_buckets sh) <=
    Z.of_nat (size (client_buckets sh))).
  { rewrite <-!(below_all shard_of shards) by done. rewrite <-Hk, !below_next. lia. }
  split.
  - intros (a & Ha2 & Ha3). assert (Hlt : (size (client_buckets (shared s2)) < size (client_buckets (shared s3)))%nat).
    { apply map_subset_size. split; [done|]. intros Hback. destruct Ha3 as [x Hx].
      pose proof (lookup_weaken _ _ _ _ Hx Hback). congruence. }
    rewrite (proj2 (Z.ltb_lt _ _)) by lia. done.
  - intros Heq. rewrite Heq in *. rewrite (proj2 (Z.ltb_ge _ _)) by lia. done.
Qed.

(** Two first requests after a quiet minute: one starts a cleanup, the other adds its
    entry meanwhile. *)
Section Underflow.
Abbreviation one_shard := (access (fun _ => 0%nat) 1 true).
Definition quiet_start : system cells pc := mkSystem (new rate_limit_config_default 0) 0 [].
Definition after (es : list (event (option IpAddr))) (s : system cells pc) : system cells pc :=
  default s (schedule start is_done one_shard es s).

Definition to_cleanup : list (event (option IpAddr)) :=
  [Spawn (Some (V4 [1; 2; 3; 4])); Spawn (Some (V4 [1; 2; 3; 5])); Tick (from_secs 60)] ++ runs 0 2.
Definition cleaning : system cells pc := Eval vm_compute in after to_cleanup quiet_start.
Definition counted : system cells pc := Eval vm_compute in after (runs 0 1) cleaning.
Definition added : system cells pc := Eval vm_compute in after (runs 1 3 ++ runs 0 1) counted.

Lemma cleanup_count_underflows_witness :
  steps (Tasks.sys_step start is_done one_shard) quiet_start to_cleanup cleaning /\
  steps (Tasks.sys_step start is_done one_shard) cleaning (runs 0 1) counted /\
  steps (Tasks.sys_step start is_done one_shard) counted (runs 1 3 ++ runs 0 1) added /\
  tasks (after [Run 0%nat] added) !! 0%nat = Some (Done Panics).
Proof.
  assert (H1 : steps (Tasks.sys_step start is_done one_shard) quiet_start to_cleanup cleaning)
    by (apply schedule_sound; vm_compute; reflexivity).
  assert (H2 : steps (Tasks.sys_step start is_done one_shard) cleaning (runs 0 1) counted)
    by (apply schedule_sound; vm_compute; reflexivity).
  assert (H3 : steps (Tasks.sys_step start is_done one_shard) counted (runs 1 3 ++ runs 0 1) added)
    by (apply schedule_sound; vm_compute; reflexivity).
  split; [exact H1|]. split; [exact H2|]. split; [exact H3|].
  apply (cleanup_count_underflows (fun _ => 0%nat) 1 rate_limit_config_default 0 0 (V4 [1; 2; 3; 4]) 0 0 0
    to_cleanup cleaning (runs 0 1) counted (runs 1 3 ++ runs 0 1) added [] added (after [Run 0%nat] added)).
  - intros _. lia.
  - vm_compute. congruence.
  - repeat constructor; vm_compute; congruence.
  - exact H1.
  - reflexivity.
  - exact H2.
  - reflexivity.
  - exact H3.
  - reflexivity.
  - constructor.
  - reflexivity.
  - reflexivity.
  - apply fire_sound. vm_compute. reflexivity.
  - exists (V4 [1; 2; 3; 5]). split; [reflexivity|]. by eexists.
Defined.
End Underflow.
