(* ===== verification/Retry.v ===== *)
(** * Retries (src/src/retry.rs)

    Exponential backoff in [f64] milliseconds, and the retry loop around an
    arbitrary request. What the loop calls (the request, the random generator,
    the timer) acts on a world [W] that the definitions thread. *)

From Stdlib Require Import Ascii String SpecFloat.
From stdpp Require Import prelude strings pretty.
From S2P Require Import Prelude RustStr F64.
Open Scope string_scope.
Open Scope Z_scope.

Record RetryConfig : Type := mkRetryConfig {
  max_retries : Z;
  base_delay : Duration;
  max_delay : Duration;
  backoff_multiplier : f64;
  use_jitter : bool;
  retryable_status_codes : list Z
}.

Definition retry_config_default : RetryConfig :=
  {| max_retries := 3;
     base_delay := from_millis 100;
     max_delay := from_secs 10;
     backoff_multiplier := of_Z 2;
     use_jitter := true;
     retryable_status_codes := [502; 503; 504] |}.

Definition retry_config_new : RetryConfig := retry_config_default.

Definition with_max_retries (n : Z) (c : RetryConfig) : RetryConfig :=
  mkRetryConfig n (base_delay c) (max_delay c) (backoff_multiplier c) (use_jitter c)
    (retryable_status_codes c).

Definition with_base_delay (d : Duration) (c : RetryConfig) : RetryConfig :=
  mkRetryConfig (max_retries c) d (max_delay c) (backoff_multiplier c) (use_jitter c)
    (retryable_status_codes c).

Definition with_max_delay (d : Duration) (c : RetryConfig) : RetryConfig :=
  mkRetryConfig (max_retries c) (base_delay c) d (backoff_multiplier c) (use_jitter c)
    (retryable_status_codes c).

Definition with_backoff_multiplier (m : f64) (c : RetryConfig) : RetryConfig :=
  mkRetryConfig (max_retries c) (base_delay c) (max_delay c) m (use_jitter c)
    (retryable_status_codes c).

Definition with_jitter (b : bool) (c : RetryConfig) : RetryConfig :=
  mkRetryConfig (max_retries c) (base_delay c) (max_delay c) (backoff_multiplier c) b
    (retryable_status_codes c).

Definition with_retryable_status_codes (codes : list Z) (c : RetryConfig) : RetryConfig :=
  mkRetryConfig (max_retries c) (base_delay c) (max_delay c) (backoff_multiplier c) (use_jitter c)
    codes.

Definition is_retryable_status (c : RetryConfig) (status : Z) : bool :=
  existsb (Z.eqb status) (retryable_status_codes c).

(** The error of an exhausted executor. *)
Inductive RetryError (E : Type) : Type :=
| Exhausted (attempts : Z) (last_error : E).
Arguments Exhausted {E} attempts last_error.

(** [Display] of it, given [Display] of the error. *)
Definition fmt_retry_error {E} (to_string : E -> string) (e : RetryError E) : string :=
  match e with
  | Exhausted attempts last_error =>
      "all " +:+ pretty attempts +:+ " retry attempts exhausted, last error: "
        +:+ to_string last_error
  end.

(** [f64::powi] has an unspecified precision: it is an argument of the
    definitions. [powidf2] is the routine that compiler-rt gives it (square and
    multiply on the bits of the exponent). *)
Fixpoint powidf2_loop (p : positive) (a r : f64) : f64 :=
  match p with
  | xH => f64_mul r a
  | xO p => powidf2_loop p (f64_mul a a) r
  | xI p => powidf2_loop p (f64_mul a a) (f64_mul r a)
  end.

Definition powidf2 (a : f64) (b : Z) : f64 :=
  match b with
  | Z0 => of_Z 1
  | Zpos p => powidf2_loop p a (of_Z 1)
  | Zneg p => f64_div (of_Z 1) (powidf2_loop p a (of_Z 1))
  end.

(** [n as i32] of a [u32]. *)
Definition as_i32 (n : Z) : Z := if n <? 2 ^ 31 then n else n - 2 ^ 32.

(** ** The policy *)

Module RetryPolicy.

Record policy : Type := mk {
  config : RetryConfig;
  attempt : Z
}.

Definition new (config : RetryConfig) : policy := mk config 0.

Definition has_remaining_retries (p : policy) : bool := attempt p <? max_retries (config p).

(** The accessors. *)
Definition policy_attempt (p : policy) : Z := attempt p.
Definition policy_max_retries (p : policy) : Z := max_retries (config p).

Section Delay.
Context (powi : f64 -> Z -> f64) {W : Type} (gen_range : W -> f64 * W).

(** The random generator is asked for a sample between 0.5 and 1.5, only when
    jitter is on. *)
Definition next_delay (p : policy) (w : W) : Duration * W :=
  let base_ms := of_Z (as_millis (base_delay (config p))) in
  let multiplier := powi (backoff_multiplier (config p)) (as_i32 (attempt p)) in
  let delay_ms := f64_mul base_ms multiplier in
  let delay_ms := f64_min delay_ms (of_Z (as_millis (max_delay (config p)))) in
  let '(delay_ms, w) :=
    if use_jitter (config p) then
      let '(jitter, w) := gen_range w in (f64_mul delay_ms jitter, w)
    else (delay_ms, w) in
  (from_millis (to_u64 delay_ms), w).

Definition record_retry (p : policy) (w : W) : option Duration * policy * W :=
  if negb (has_remaining_retries p) then (None, p, w)
  else
    let '(delay, w) := next_delay p w in
    (Some delay, mk (config p) (u32_add (attempt p) 1), w).

End Delay.

Definition reset (p : policy) : policy := mk (config p) 0.

Definition should_retry_status (p : policy) (status : Z) : bool :=
  has_remaining_retries p && is_retryable_status (config p) status.

(** [str::to_lowercase] follows the Unicode tables: an argument. *)
Definition should_retry_error (to_lowercase : string -> string) (p : policy) (error : string) : bool :=
  if negb (has_remaining_retries p) then false
  else
    let error_lower := to_lowercase error in
    contains "connection" error_lower
    || contains "timeout" error_lower
    || contains "reset" error_lower
    || contains "refused" error_lower.

End RetryPolicy.

(** ** The loop *)

Module RetryExecutor.

Section Execute.
Context (powi : f64 -> Z -> f64) (to_lowercase : string -> string).
Context {W T E : Type} (to_string : E -> string).
Context (request_fn : W -> result T E * W) (gen_range : W -> f64 * W) (sleep : Duration -> W -> W).

(** One turn of the loop: an answer, or another turn. *)
Definition turn (p : RetryPolicy.policy) (w : W)
    : (result T (RetryError E) + unit) * RetryPolicy.policy * W :=
  let '(r, w) := request_fn w in
  match r with
  | Ok result => (inl (Ok result), p, w)
  | Err e =>
      let error_str := to_string e in
      let exhausted p := inl (Err (Exhausted (u32_add (RetryPolicy.attempt p) 1) e)) in
      if RetryPolicy.should_retry_error to_lowercase p error_str then
        match RetryPolicy.record_retry powi gen_range p w with
        | (Some delay, p, w) => (inr tt, p, sleep delay w)
        | (None, p, w) => (exhausted p, p, w)
        end
      else (exhausted p, p, w)
  end.

Fixpoint execute (fuel : nat) (p : RetryPolicy.policy) (w : W)
    : option (result T (RetryError E) * RetryPolicy.policy * W) :=
  match fuel with
  | O => None
  | S fuel =>
      match turn p w with
      | (inl r, p, w) => Some (r, p, w)
      | (inr _, p, w) => execute fuel p w
      end
  end.

End Execute.

Definition new (config : RetryConfig) : RetryPolicy.policy := RetryPolicy.new config.
Definition with_defaults : RetryPolicy.policy := new retry_config_default.
Definition reset (p : RetryPolicy.policy) : RetryPolicy.policy := RetryPolicy.reset p.

End RetryExecutor.

(** ** Lemmas of the component *)

Module RetryFacts.
Import RetryPolicy RetryExecutor.

Definition config_ok (c : RetryConfig) : Prop :=
  is_u32 (max_retries c) /\ is_duration (base_delay c) /\ is_duration (max_delay c) /\
  valid (backoff_multiplier c).

(** *** Delays *)

Lemma f64_mul_valid x y : valid x -> valid y -> valid (f64_mul x y).
Proof.
  intros Vx Vy. unfold f64_mul, SFmul.
  destruct x as [s|s| |s mx ex], y as [s'|s'| |s' my ey]; try done.
  pose proof (mul_exponent _ _ _ _ _ _ Vx Vy). by apply binary_round_aux_valid.
Qed.

(** A capped number of milliseconds truncates to at most the cap, whatever the
    number is (negative, infinite or NaN included). *)
Lemma to_u64_capped x n :
  valid x -> 0 <= n <= 2 ^ 53 -> 0 <= to_u64 (f64_min x (of_Z n)) <= n.
Proof.
  intros Vx Hn. assert (Hcap : amount (of_Z n)) by (apply of_Z_amount; unfold u64_modulus; lia).
  destruct x as [s|[]| |[] m e].
  - apply to_u64_bound; [|done|]; by apply f64_min_amount; [|left|].
  - unfold f64_min. simpl is_nan. rewrite (amount_not_nan _ Hcap). destruct (f64_ltb _ _); [|simpl; lia].
    rewrite to_u64_of_Z by done. lia.
  - apply to_u64_bound; [|done|]; by apply f64_min_amount; [|left|].
  - apply to_u64_bound; [|done|]; by apply f64_min_amount; [|right|].
  - unfold f64_min. simpl is_nan. rewrite (amount_not_nan _ Hcap). destruct (f64_ltb _ _); [|simpl; lia].
    rewrite to_u64_of_Z by done. lia.
  - apply to_u64_bound; [|done|]; by apply f64_min_amount; [|left|].
Qed.

Lemma as_millis_range d : is_duration d -> 0 <= as_millis d.
Proof. unfold is_duration, as_millis, nanos_per_milli. intros [? _]. by apply Z.div_pos. Qed.

Lemma from_as_millis d : from_millis (as_millis d) <= d.
Proof.
  unfold from_millis, as_millis, nanos_per_milli. pose proof (Z.mul_div_le d 1000000 ltac:(lia)). lia.
Qed.

(** Square-and-multiply on powers of two is exact. *)
Lemma powidf2_loop_pow2 p i r :
  0 <= i -> 0 <= r -> r + i * Zpos p <= 1023 ->
  powidf2_loop p (pow2 i) (pow2 r) = pow2 (r + i * Zpos p).
Proof.
  revert i r. induction p as [p IH|p IH|]; cbn [powidf2_loop]; intros i r Hi Hr Hle.
  - rewrite !pow2_mul by lia. rewrite IH by lia. f_equal. lia.
  - rewrite !pow2_mul by lia. rewrite IH by lia. f_equal. lia.
  - rewrite pow2_mul by lia. f_equal. lia.
Qed.

Lemma powidf2_two k : 0 <= k <= 1023 -> powidf2 (of_Z 2) k = pow2 k.
Proof.
  intros Hk. change (of_Z 2) with (pow2 1). destruct k as [|p|p]; [done| |lia].
  unfold powidf2. change (of_Z 1) with (pow2 0). by rewrite powidf2_loop_pow2, Z.mul_1_l by lia.
Qed.

(** A base of [b] milliseconds doubled [k] times, capped at [m]. *)
Lemma doubled_capped b k m :
  0 <= b <= 2 ^ 53 -> 0 <= m <= 2 ^ 53 -> 0 <= k <= 900 ->
  to_u64 (f64_min (f64_mul (of_Z b) (pow2 k)) (of_Z m)) = Z.min (b * 2 ^ k) m.
Proof.
  intros Hb Hm Hk. assert (Hcap : amount (of_Z m)) by (apply of_Z_amount; unfold u64_modulus; lia).
  destruct (of_Z_value m Hm) as [_ Vm].
  assert (Hx : amount (f64_mul (of_Z b) (pow2 k)) /\
    value (f64_mul (of_Z b) (pow2 k)) = b * 2 ^ k * one_unit).
  { destruct (decide (b = 0)) as [->|Hne]; [done|].
    destruct (of_Z_pos b) as (mm & e & -> & V & He & U); [lia|].
    destruct (f64_mul_pow2 mm e k) as [V' ->]; [done|lia..|].
    split; [done|]. simpl. unfold units in *.
    replace (e + k + 1074) with (e + 1074 + k) by lia. rewrite Z.pow_add_r by lia. nia. }
  destruct Hx as [Ha Hv]. set (x := f64_mul _ _) in *.
  assert (H1 : 0 < one_unit) by done.
  assert (Hmin : value (f64_min x (of_Z m)) = Z.min (b * 2 ^ k) m * one_unit).
  { unfold f64_min. rewrite (amount_not_nan _ Ha), (amount_not_nan _ Hcap).
    rewrite ltb_negb_leb by (by apply amount_not_nan).
    destruct (f64_leb x (of_Z m)) eqn:E; simpl.
    - apply amount_leb in E; [|done..]. rewrite Hv, Vm in *. nia.
    - assert (~ value x <= value (of_Z m)) by (rewrite <-amount_leb by done; congruence).
      rewrite Hv, Vm in *. nia. }
  destruct (f64_min_amount x (of_Z m)) as [Hmina _]; [apply Ha|left; apply Ha|done|].
  rewrite to_u64_value, Hmin, Z.div_mul by (done || lia). unfold u64_max, u64_modulus. lia.
Qed.

(** *** The loop *)

Section Loop.
Context (powi : f64 -> Z -> f64) (to_lowercase : string -> string).
Context {W T E : Type} (to_string : E -> string).
Context (request_fn : W -> result T E * W) (gen_range : W -> f64 * W) (sleep : Duration -> W -> W).

(** [k] consecutive failures that are retried, each followed by its sleep. *)
Inductive retried : nat -> policy -> W -> policy -> W -> Prop :=
| retried_none p w : retried 0 p w p w
| retried_one k p w e w1 d w2 p' w' :
    request_fn w = (Err e, w1) ->
    should_retry_error to_lowercase p (to_string e) = true ->
    next_delay powi gen_range p w1 = (d, w2) ->
    retried k (mk (config p) (u32_add (attempt p) 1)) (sleep d w2) p' w' ->
    retried (S k) p w p' w'.

(** The call that ends the loop. *)
Definition final (p : policy) (w : W) (r : result T (RetryError E)) (w' : W) : Prop :=
  match request_fn w with
  | (Ok t, w1) => r = Ok t /\ w' = w1
  | (Err e, w1) => r = Err (Exhausted (u32_add (attempt p) 1) e) /\ w' = w1 /\
      should_retry_error to_lowercase p (to_string e) = false
  end.

Lemma should_retry_remaining p s :
  should_retry_error to_lowercase p s = true -> has_remaining_retries p = true.
Proof. unfold should_retry_error. by destruct (has_remaining_retries p). Qed.

Lemma turn_cases p w :
  (exists r w', turn powi to_lowercase to_string request_fn gen_range sleep p w = (inl r, p, w') /\
     final p w r w') \/
  (exists p' w', turn powi to_lowercase to_string request_fn gen_range sleep p w = (inr tt, p', w') /\
     p' = mk (config p) (u32_add (attempt p) 1) /\ has_remaining_retries p = true /\
     forall k q v, retried k p' w' q v -> retried (S k) p w q v).
Proof.
  unfold turn, final. destruct (request_fn w) as [[t|e] w1] eqn:Er; [left; by eexists _, _|].
  destruct (should_retry_error to_lowercase p (to_string e)) eqn:Es; [right|left; by eexists _, _].
  pose proof (should_retry_remaining _ _ Es) as Hrem. unfold record_retry. rewrite Hrem. simpl.
  destruct (next_delay powi gen_range p w1) as [d w2] eqn:Ed.
  eexists _, _. split_and!; try done. intros k q v Hk. by econstructor.
Qed.

(** The loop ends after at most one call more than the retries that remain. *)
Lemma execute_ends fuel p w :
  is_u32 (attempt p) -> is_u32 (max_retries (config p)) ->
  (Z.to_nat (max_retries (config p) - attempt p) < fuel)%nat ->
  exists k r p' w1 w', 
    execute powi to_lowercase to_string request_fn gen_range sleep fuel p w = Some (r, p', w') /\
    retried k p w p' w1 /\ final p' w1 r w' /\
    config p' = config p /\ attempt p' = attempt p + Z.of_nat k /\
    (k = 0%nat \/ attempt p' <= max_retries (config p)).
Proof.
  revert p w. induction fuel as [|fuel IH]; intros p w Ha Hm Hf; [lia|]. simpl.
  destruct (turn_cases p w) as [(r & w' & -> & Hfin)|(p1 & w1 & -> & -> & Hrem & Hret)].
  - exists 0%nat, r, p, w, w'. split_and!; try done; [constructor|lia|auto].
  - unfold has_remaining_retries in Hrem. apply Z.ltb_lt in Hrem.
    assert (Hone : u32_add (attempt p) 1 = attempt p + 1) by (apply u32_add_small; words).
    destruct (IH (mk (config p) (u32_add (attempt p) 1)) w1) as (k & r & p' & w2 & w' & -> & Hk & Hfin & Hcfg & Hatt & Hle);
      simpl in *; rewrite ?Hone in *; [words|done|lia|].
    exists (S k), r, p', w2, w'. split_and!; auto; lia.
Qed.

(** [k] retries are [k] retryable failures: none was a success. *)
Lemma retried_remaining k p w p' w' :
  retried k p w p' w' -> (0 < k)%nat -> has_remaining_retries p = true.
Proof. destruct 1; [lia|]. intros _. by eapply should_retry_remaining. Qed.

End Loop.
End RetryFacts.

(** ** Properties *)

Import RetryFacts.



(** Without jitter the delay before a retry never exceeds the configured
    maximum, whatever the multiplier, the attempt and the precision of [powi]
    (overflow to infinity, NaN and negative multipliers included). *)
Theorem delay_within_max (powi : f64 -> Z -> f64) {W} (gen_range : W -> f64 * W) c k w :
  (forall x n, valid x -> valid (powi x n)) ->
  config_ok c -> use_jitter c = false -> as_millis (max_delay c) <= 2 ^ 53 ->
  0 <= (RetryPolicy.next_delay powi gen_range (RetryPolicy.mk c k) w).1 <= max_delay c.
Proof.
  intros Hpowi (_ & Hb & Hd & Hv) Hj Hm. unfold RetryPolicy.next_delay. simpl. rewrite Hj. simpl.
  pose proof (as_millis_range _ Hd).
  destruct (to_u64_capped (f64_mul (of_Z (as_millis (base_delay c)))
    (powi (backoff_multiplier c) (as_i32 k))) (as_millis (max_delay c))) as [H1 H2];
    [apply f64_mul_valid; [apply of_Z_valid|auto]|done|].
  pose proof (from_as_millis (max_delay c)). unfold from_millis, nanos_per_milli in *. lia.
Qed.

Lemma delay_within_max_witness :
  0 <= (RetryPolicy.next_delay (fun x _ => x) (pair (of_Z 1)) (RetryPolicy.mk
          (with_jitter false retry_config_default) 7) tt).1 <= from_secs 10.
Proof.
  apply (delay_within_max (fun x _ => x) (pair (of_Z 1)) (with_jitter false retry_config_default) 7 tt).
  - done.
  - split; [simpl; words|]. split; [by vm_compute|]. split; [by vm_compute|]. apply of_Z_valid.
  - reflexivity.
  - by vm_compute.
Defined.



(** Jitter is applied after the cap: with the default configuration the
    eighth retry, whose delay is capped at 10 seconds, waits 12.5 seconds when the
    sample is 1.25. *)
Theorem jitter_exceeds_max :
  exists jitter, f64_leb (f64_div (of_Z 1) (of_Z 2)) jitter = true /\
    f64_ltb jitter (f64_div (of_Z 3) (of_Z 2)) = true /\
    (RetryPolicy.next_delay powidf2 (pair jitter) (RetryPolicy.mk retry_config_default 7) tt).1
      = from_millis 12500 /\
    max_delay retry_config_default < from_millis 12500.
Proof. exists (f64_div (of_Z 5) (of_Z 4)). vm_compute. done. Qed.
