(* ===== verification/Router.v ===== *)
(** * Routing (src/src/router.rs)

    Routes with path, method and header conditions, kept sorted by priority; the
    first match wins. Regular expressions come from the [regex] crate: a class.
    The process-wide cache of compiled patterns is threaded as a state. *)

From Stdlib Require Import Ascii String Sorted.
From stdpp Require Import prelude gmap strings.
From S2P Require Import Prelude RustStr Http.
Open Scope string_scope.
Open Scope Z_scope.

(** [Regex::new] and [Regex::is_match]. *)
Class RegexLib : Type := {
  Regex : Type;
  regex_new : string -> option Regex;
  is_match : Regex -> string -> bool
}.

(** [REGEX_CACHE]: the compiled patterns. *)
Abbreviation RegexCache := (gmap string Regex).

(** Plain substring search meets the interface (it refuses no pattern but "("). *)
Definition substring_regex : RegexLib := {|
  Regex := string;
  regex_new p := if String.eqb p "(" then None else Some p;
  is_match := contains
|}.

Inductive RoutePriority : Type := PExact | PPrefix | PRegex | PDefault.

(** The discriminants, which the derived order compares. *)
Definition rank (p : RoutePriority) : Z :=
  match p with PExact => 100 | PPrefix => 50 | PRegex => 25 | PDefault => 0 end.

Inductive HeaderMatch : Type :=
| HExact (name value : string)
| HContains (name value : string)
| HRegex (name pattern : string)
| HPresent (name : string)
| HAbsent (name : string).

Inductive PathMatch : Type :=
| Exact (path : string)
| Prefix (prefix : string)
| RegexPath (pattern : string).

Inductive MethodMatch : Type :=
| Get | Post | Put | Delete | Patch | Head | Options | Any.

(** Their constructor functions. *)
Definition header_exact (name value : string) : HeaderMatch := HExact name value.
Definition header_present (name : string) : HeaderMatch := HPresent name.
Definition header_absent (name : string) : HeaderMatch := HAbsent name.
Definition path_exact (path : string) : PathMatch := Exact path.
Definition path_prefix (prefix : string) : PathMatch := Prefix prefix.
Definition path_regex (pattern : string) : PathMatch := RegexPath pattern.

Record Route : Type := mkRoute {
  name : string;
  path : PathMatch;
  method : MethodMatch;
  headers : list HeaderMatch;
  upstream : string;
  weight : Z;
  enabled : bool;
  timeout_ms : option Z;
  rewrite : option string
}.

Definition default_weight : Z := 100.
Definition default_enabled : bool := true.

(** ** Conditions *)

Definition path_priority (p : PathMatch) : RoutePriority :=
  match p with Exact _ => PExact | Prefix _ => PPrefix | RegexPath _ => PRegex end.

Definition method_matches {HM : HttpMethods} (m : MethodMatch) (method : Method) : bool :=
  match m with
  | Any => true
  | Get => method_eqb method GET
  | Post => method_eqb method POST
  | Put => method_eqb method PUT
  | Delete => method_eqb method DELETE
  | Patch => method_eqb method PATCH
  | Head => method_eqb method HEAD
  | Options => method_eqb method OPTIONS
  end.

Section Matching.
Context {RX : RegexLib} {HH : HttpHeaders} {HM : HttpMethods}.

Definition get_or_compile_regex (pattern : string) (cache : RegexCache) : option Regex * RegexCache :=
  match cache !! pattern with
  | Some regex => (Some regex, cache)
  | None =>
      match regex_new pattern with
      | Some regex => (Some regex, <[pattern := regex]> cache)
      | None => (None, cache)
      end
  end.

Definition header_matches (m : HeaderMatch) (h : HeaderMap) (cache : RegexCache)
    : bool * RegexCache :=
  match m with
  | HExact name value =>
      (match hdr_get h name with Some v => value_eq_str v value | None => false end, cache)
  | HContains name value =>
      (match hdr_get h name ≫= to_str with Some v => contains value v | None => false end, cache)
  | HRegex name pattern =>
      let '(regex, cache) := get_or_compile_regex pattern cache in
      match regex with
      | Some regex =>
          (match hdr_get h name ≫= to_str with Some v => is_match regex v | None => false end, cache)
      | None => (false, cache)
      end
  | HPresent name => (hdr_contains_key h name, cache)
  | HAbsent name => (negb (hdr_contains_key h name), cache)
  end.

Definition path_matches (m : PathMatch) (p : string) (cache : RegexCache) : bool * RegexCache :=
  match m with
  | Exact expected => (String.eqb p expected, cache)
  | Prefix prefix => (starts_with prefix p, cache)
  | RegexPath pattern =>
      let '(regex, cache) := get_or_compile_regex pattern cache in
      match regex with
      | Some regex => (is_match regex p, cache)
      | None => (false, cache)
      end
  end.

(** The loop over the header conditions, left at the first that fails. *)
Fixpoint headers_match (ms : list HeaderMatch) (h : HeaderMap) (cache : RegexCache)
    : bool * RegexCache :=
  match ms with
  | [] => (true, cache)
  | m :: ms =>
      let '(b, cache) := header_matches m h cache in
      if negb b then (false, cache) else headers_match ms h cache
  end.

Definition route_matches (r : Route) (m : Method) (p : string) (h : HeaderMap) (cache : RegexCache)
    : bool * RegexCache :=
  if negb (enabled r) then (false, cache)
  else if negb (method_matches (method r) m) then (false, cache)
  else
    let '(b, cache) := path_matches (path r) p cache in
    if negb b then (false, cache) else headers_match (headers r) h cache.

End Matching.

(** ** Building routes *)

Definition new_route (n : string) (p : PathMatch) (u : string) : Route :=
  {| name := n; path := p; method := Any; headers := []; upstream := u; weight := 100;
     enabled := true; timeout_ms := None; rewrite := None |}.

Definition with_method (m : MethodMatch) (r : Route) : Route :=
  mkRoute (name r) (path r) m (headers r) (upstream r) (weight r) (enabled r) (timeout_ms r) (rewrite r).

Definition with_header (h : HeaderMatch) (r : Route) : Route :=
  mkRoute (name r) (path r) (method r) (headers r ++ [h]) (upstream r) (weight r) (enabled r)
    (timeout_ms r) (rewrite r).

Definition with_weight (w : Z) (r : Route) : Route :=
  mkRoute (name r) (path r) (method r) (headers r) (upstream r) w (enabled r) (timeout_ms r) (rewrite r).

Definition with_timeout (t : Z) (r : Route) : Route :=
  mkRoute (name r) (path r) (method r) (headers r) (upstream r) (weight r) (enabled r) (Some t) (rewrite r).

Definition with_rewrite (w : string) (r : Route) : Route :=
  mkRoute (name r) (path r) (method r) (headers r) (upstream r) (weight r) (enabled r) (timeout_ms r) (Some w).

Definition priority (r : Route) : RoutePriority := path_priority (path r).

Record RouteMatch : Type := mkRouteMatch {
  matched_route : Route;
  rewritten_path : option string
}.

(** ** The router *)

(** The standard library's stable sort, by decreasing rank. *)
Fixpoint insert_by_rank (r : Route) (rs : list Route) : list Route :=
  match rs with
  | [] => [r]
  | x :: rs' =>
      if rank (priority x) <=? rank (priority r) then r :: rs else x :: insert_by_rank r rs'
  end.

Definition sort_by_rank (rs : list Route) : list Route := foldr insert_by_rank [] rs.

(** [iter().position]. *)
Fixpoint position {A} (f : A -> bool) (l : list A) : option nat :=
  match l with
  | [] => None
  | x :: l => if f x then Some 0%nat else S <$> position f l
  end.

Module Router.

Record router : Type := mk {
  routes : list Route;
  default_upstream : option string
}.

Definition sort_routes (r : router) : router := mk (sort_by_rank (routes r)) (default_upstream r).

Definition new : router := mk [] None.
Definition with_routes (rs : list Route) : router := sort_routes (mk rs None).
Definition with_default_upstream (u : string) (r : router) : router := mk (routes r) (Some u).
Definition add_route (x : Route) (r : router) : router :=
  sort_routes (mk (routes r ++ [x]) (default_upstream r)).

Definition all_routes (r : router) : list Route := routes r.
Definition router_default : router := new.

Definition remove_route (n : string) (r : router) : option Route * router :=
  match position (fun x => String.eqb (name x) n) (routes r) with
  | Some pos => (routes r !! pos, mk (delete pos (routes r)) (default_upstream r))
  | None => (None, r)
  end.

Definition len (r : router) : nat := length (routes r).
Definition is_empty (r : router) : bool := match routes r with [] => true | _ => false end.

Section Routing.
Context {RX : RegexLib} {HH : HttpHeaders} {HM : HttpMethods}.

(** The loop over the routes. *)
Fixpoint first_match (rs : list Route) (m : Method) (p : string) (h : HeaderMap) (cache : RegexCache)
    : option Route * RegexCache :=
  match rs with
  | [] => (None, cache)
  | r :: rs =>
      let '(b, cache) := route_matches r m p h cache in
      if b then (Some r, cache) else first_match rs m p h cache
  end.

Definition rewritten (r : Route) (p : string) : option string :=
  match rewrite r with
  | Some to =>
      match path r with
      | Prefix prefix => Some (replace_first prefix to p)
      | _ => Some to
      end
  | None => None
  end.

Definition route (r : router) (m : Method) (p : string) (h : HeaderMap) (cache : RegexCache)
    : option RouteMatch * RegexCache :=
  let '(found, cache) := first_match (routes r) m p h cache in
  match found with
  | Some x => (Some {| matched_route := x; rewritten_path := rewritten x p |}, cache)
  | None =>
      match default_upstream r with
      | Some u =>
          (Some {| matched_route := new_route "default" (Prefix "/") u; rewritten_path := None |}, cache)
      | None => (None, cache)
      end
  end.

End Routing.
End Router.

(** ** Clusters and configuration files *)

Inductive LoadBalancingPolicy : Type := RoundRobin | LeastConnections | Random | ConsistentHash.

Definition load_balancing_policy_default : LoadBalancingPolicy := RoundRobin.

Record HealthCheckConfig : Type := mkHealthCheckConfig {
  interval_ms : Z;
  hc_timeout_ms : Z;
  hc_path : string;
  unhealthy_threshold : Z;
  healthy_threshold : Z
}.

Definition health_check_config_default : HealthCheckConfig :=
  {| interval_ms := 10000; hc_timeout_ms := 5000; hc_path := "/health";
     unhealthy_threshold := 3; healthy_threshold := 2 |}.

Record UpstreamCluster : Type := mkUpstreamCluster {
  cluster_name : string;
  endpoints : list string;
  load_balancing : LoadBalancingPolicy;
  health_check : option HealthCheckConfig
}.

Record RoutingConfig : Type := mkRoutingConfig {
  config_routes : list Route;
  upstreams : gmap string UpstreamCluster;
  config_default_upstream : option string
}.

(** The deserialisers that [serde] derives for a routing configuration. *)
Class RoutingFormats : Type := {
  TomlError : Type;
  toml_from_str : string -> result RoutingConfig TomlError;
  JsonError : Type;
  json_from_str : string -> result RoutingConfig JsonError
}.

Definition from_toml {RF : RoutingFormats} (content : string) : result RoutingConfig TomlError := toml_from_str content.
Definition from_json {RF : RoutingFormats} (content : string) : result RoutingConfig JsonError := json_from_str content.

Definition build_router (c : RoutingConfig) : Router.router :=
  let router := Router.with_routes (config_routes c) in
  match config_default_upstream c with
  | Some default => Router.with_default_upstream default router
  | None => router
  end.

(** ** Lemmas of the component *)

Module RouterFacts.

(** *** Sorting *)

(** Highest rank first. *)
Definition sorted (rs : list Route) : Prop :=
  StronglySorted (fun a b => rank (priority b) <= rank (priority a)) rs.

Definition of_rank (k : Z) (r : Route) : bool := rank (priority r) =? k.

(** Index [i] of [rs] holds [r], which satisfies [f] with the highest rank and,
    among those of that rank, first. *)
Definition best (f : Route -> bool) (rs : list Route) (i : nat) (r : Route) : Prop :=
  rs !! i = Some r /\ f r = true /\
  forall j r', rs !! j = Some r' -> f r' = true ->
    rank (priority r') < rank (priority r) \/ rank (priority r') = rank (priority r) /\ (i <= j)%nat.

Lemma insert_perm x l : insert_by_rank x l ≡ₚ x :: l.
Proof. induction l as [|y l IH]; simpl; [done|]. case_match; [done|]. rewrite IH. constructor. Qed.

Lemma sort_perm rs : sort_by_rank rs ≡ₚ rs.
Proof. induction rs as [|x rs IH]; [done|]. simpl. by rewrite insert_perm, IH. Qed.

Lemma insert_sorted x l : sorted l -> sorted (insert_by_rank x l).
Proof.
  induction 1 as [|y l Hl IH Hy]; simpl; [by repeat constructor|].
  case_match eqn:E; reflect_bools.
  - constructor; [by constructor|]. constructor; [done|].
    eapply Forall_impl; [exact Hy|]. simpl. lia.
  - constructor; [done|]. rewrite insert_perm. constructor; [lia|done].
Qed.

Lemma sort_sorted rs : sorted (sort_by_rank rs).
Proof. induction rs; [constructor|by apply insert_sorted]. Qed.

(** Stability: the routes of one rank keep their order. *)
Lemma insert_stable k x l :
  List.filter (of_rank k) (insert_by_rank x l) = List.filter (of_rank k) (x :: l).
Proof.
  induction l as [|y l IH]; simpl; [done|]. case_match eqn:E; [done|]. simpl. rewrite IH. simpl.
  unfold of_rank. destruct (_ =? k) eqn:E1, (rank (priority x) =? k) eqn:E2; try done; bools.
Qed.

Lemma sort_stable k rs : List.filter (of_rank k) (sort_by_rank rs) = List.filter (of_rank k) rs.
Proof.
  induction rs as [|x rs IH]; [done|].
  change (sort_by_rank (x :: rs)) with (insert_by_rank x (sort_by_rank rs)).
  rewrite insert_stable. simpl. by rewrite IH.
Qed.

Lemma sorted_head_rank x l y : sorted (x :: l) -> y ∈ x :: l -> rank (priority y) <= rank (priority x).
Proof.
  intros Hs [->|Hy]%elem_of_cons; [done|].
  inversion Hs as [|? ? _ HF]; subst. by apply (proj1 (Forall_forall _ _) HF y) in Hy.
Qed.

(** The rank of the head of one list occurs in the other. *)
Lemma filters_head x l l' :
  (forall k, List.filter (of_rank k) (x :: l) = List.filter (of_rank k) l') -> x ∈ l'.
Proof.
  intros Hf. apply list_elem_of_In.
  assert (Hin : In x (List.filter (of_rank (rank (priority x))) l')).
  { rewrite <-Hf. simpl. unfold of_rank at 1. rewrite Z.eqb_refl. by left. }
  by apply filter_In in Hin as [? _].
Qed.

(** A stable sort has only one result. *)
Lemma sorted_unique l1 l2 :
  sorted l1 -> sorted l2 ->
  (forall k, List.filter (of_rank k) l1 = List.filter (of_rank k) l2) -> l1 = l2.
Proof.
  revert l2. induction l1 as [|x l1 IH]; intros l2 H1 H2 Hf.
  - destruct l2 as [|y l2]; [done|]. symmetry in Hf.
    exfalso. apply (filters_head y l2 []) in Hf. by apply elem_of_nil in Hf.
  - pose proof (filters_head _ _ _ Hf) as Hx. destruct l2 as [|y l2]; [by apply elem_of_nil in Hx|].
    assert (Hy : y ∈ x :: l1) by (by apply (filters_head y l2); intros k; rewrite Hf).
    pose proof (sorted_head_rank _ _ _ H1 Hy). pose proof (sorted_head_rank _ _ _ H2 Hx).
    assert (x = y) as <-.
    { specialize (Hf (rank (priority x))). simpl in Hf.
      assert (of_rank (rank (priority x)) x = true) as Ex by (apply Z.eqb_refl).
      assert (of_rank (rank (priority x)) y = true) as Ey by (apply Z.eqb_eq; lia).
      rewrite Ex, Ey in Hf. by simplify_eq. }
    f_equal. apply IH; [by inversion H1|by inversion H2|].
    intros k. specialize (Hf k). simpl in Hf. by case_match; simplify_eq.
Qed.

(** *** Finding *)

Lemma find_insert f x l :
  sorted l ->
  List.find f (insert_by_rank x l) =
    if f x then
      match List.find f l with
      | Some y => if rank (priority y) <=? rank (priority x) then Some x else Some y
      | None => Some x
      end
    else List.find f l.
Proof.
  induction l as [|y l IH]; intros Hs; [simpl; by destruct (f x)|]. cbn [insert_by_rank].
  destruct (rank (priority y) <=? rank (priority x)) eqn:E.
  - change (List.find f (x :: y :: l)) with (if f x then Some x else List.find f (y :: l)).
    destruct (f x); [|done]. destruct (List.find f (y :: l)) as [r|] eqn:Ef; [|done].
    apply find_some in Ef as [Hin _]. apply list_elem_of_In in Hin.
    apply (sorted_head_rank _ _ _ Hs) in Hin. rewrite (proj2 (Z.leb_le _ _)); [done|bools].
  - cbn [List.find]. destruct (f y) eqn:Ey; [by rewrite E; destruct (f x)|]. apply IH. by inversion Hs.
Qed.

Lemma find_sort f rs :
  match List.find f (sort_by_rank rs) with
  | Some r => exists i, best f rs i r
  | None => forall r, r ∈ rs -> f r = false
  end.
Proof.
  induction rs as [|x rs IH]; [by intros r ?%elem_of_nil|].
  change (sort_by_rank (x :: rs)) with (insert_by_rank x (sort_by_rank rs)).
  rewrite find_insert by apply sort_sorted.
  assert (Hold : forall i r, best f rs i r -> (f x = true -> rank (priority x) < rank (priority r)) ->
    best f (x :: rs) (S i) r).
  { intros i r (Hi & Hr & Hb) Hx. split_and!; try done. intros [|j] r' Hj Hr'; simplify_eq/=; [auto|].
    destruct (Hb j r' Hj Hr') as [|[]]; [auto|right; split; [done|lia]]. }
  assert (Hnew : (forall j r', rs !! j = Some r' -> f r' = true -> rank (priority r') <= rank (priority x)) ->
    f x = true -> best f (x :: rs) 0 x).
  { intros Hb Hx. split_and!; try done. intros [|j] r' Hj Hr'; simplify_eq/=; [right; split; [done|lia]|].
    specialize (Hb j r' Hj Hr'). destruct (decide (rank (priority r') = rank (priority x))); [right|left]; lia. }
  destruct (List.find f (sort_by_rank rs)) as [y|] eqn:Ef.
  - destruct IH as [i Hi]. destruct (f x) eqn:Ex; [|by exists (S i); apply Hold].
    destruct (rank (priority y) <=? rank (priority x)) eqn:E; reflect_bools.
    + exists 0%nat. apply Hnew; [|done]. intros j r' Hj Hr'. destruct Hi as (_ & _ & Hb).
      destruct (Hb j r' Hj Hr') as [|[]]; lia.
    + exists (S i). by apply Hold.
  - destruct (f x) eqn:Ex.
    + exists 0%nat. apply Hnew; [|done]. intros j r' Hj Hr'. apply list_elem_of_lookup_2 in Hj.
      by rewrite IH in Hr'.
    + intros r [->|Hr]%elem_of_cons; auto.
Qed.

(** *** Removing *)

Fixpoint remove_first (f : Route -> bool) (l : list Route) : list Route :=
  match l with
  | [] => []
  | x :: l => if f x then l else x :: remove_first f l
  end.

Lemma filter_delete_first f k l i x :
  l !! i = Some x -> f x = true ->
  (forall j y, (j < i)%nat -> l !! j = Some y -> f y = true -> rank (priority y) <> rank (priority x)) ->
  List.filter (of_rank k) (delete i l) =
    if of_rank k x then remove_first f (List.filter (of_rank k) l) else List.filter (of_rank k) l.
Proof.
  revert i. induction l as [|y l IH]; intros [|i] Hi Hx Hlt; simplify_eq/=.
  - destruct (of_rank k x); simpl; [by rewrite Hx|done].
  - assert (IH' := IH i Hi Hx (fun j z Hj => Hlt (S j) z ltac:(lia))). rewrite IH'.
    destruct (of_rank k y) eqn:Ey, (of_rank k x) eqn:Ex; try done. simpl.
    destruct (f y) eqn:Fy; [|done]. exfalso.
    apply (Hlt 0%nat y); [lia|done|done|]. unfold of_rank in *. bools.
Qed.

Lemma position_spec {A} (f : A -> bool) l :
  match position f l with
  | Some i => exists x, l !! i = Some x /\ f x = true /\ List.find f l = Some x /\
      forall j y, (j < i)%nat -> l !! j = Some y -> f y = false
  | None => List.find f l = None
  end.
Proof.
  induction l as [|x l IH]; simpl; [done|]. destruct (f x) eqn:E.
  { exists x. split_and!; try done. lia. }
  destruct (position f l) as [i|]; simpl; [|done].
  destruct IH as (y & Hy & Fy & Hf & Hlt). exists y. split_and!; try done.
  intros [|j] z Hj Hz; simplify_eq/=; [done|]. apply (Hlt j); [lia|done].
Qed.

Lemma sorted_delete l i : sorted l -> sorted (delete i l).
Proof.
  intros Hs. revert i. induction Hs as [|x l Hl IH Hx]; intros [|i]; simpl; try done; [constructor..|].
  constructor; [apply IH|]. by apply Forall_delete.
Qed.

(** *** Matching without a cache *)

Section Meaning.
Context {RX : RegexLib} {HH : HttpHeaders} {HM : HttpMethods}.

(** What the conditions mean: a pattern that does not compile matches nothing. *)
Definition regex_holds (pattern s : string) : bool :=
  match regex_new pattern with Some rx => is_match rx s | None => false end.

Definition header_holds (h : HeaderMap) (m : HeaderMatch) : bool :=
  match m with
  | HExact n v => match hdr_get h n with Some w => value_eq_str w v | None => false end
  | HContains n v => match hdr_get h n ≫= to_str with Some w => contains v w | None => false end
  | HRegex n p => match hdr_get h n ≫= to_str with Some w => regex_holds p w | None => false end
  | HPresent n => hdr_contains_key h n
  | HAbsent n => negb (hdr_contains_key h n)
  end.

Definition path_holds (p : string) (m : PathMatch) : bool :=
  match m with
  | Exact e => String.eqb p e
  | Prefix e => starts_with e p
  | RegexPath e => regex_holds e p
  end.

Definition route_holds (m : Method) (p : string) (h : HeaderMap) (r : Route) : bool :=
  enabled r && method_matches (method r) m && path_holds p (path r) && forallb (header_holds h) (headers r).

(** A cache that holds only what compiling would give. *)
Definition coherent (cache : RegexCache) : Prop :=
  forall k rx, cache !! k = Some rx -> regex_new k = Some rx.

(** The patterns of a route. *)
Definition patterns (r : Route) : list string :=
  (match path r with RegexPath e => [e] | _ => [] end ++
   omap (fun m => match m with HRegex _ p => Some p | _ => None end) (headers r))%list.

(** [cache'] extends [cache] coherently, with patterns of [ps] only. *)
Definition extends (ps : list string) (cache cache' : RegexCache) : Prop :=
  coherent cache' /\ forall k, is_Some (cache' !! k) -> is_Some (cache !! k) \/ k ∈ ps.

Lemma extends_refl ps cache : coherent cache -> extends ps cache cache.
Proof. split; [done|auto]. Qed.

Lemma extends_trans ps1 ps2 ps c1 c2 c3 :
  ps1 ⊆ ps -> ps2 ⊆ ps -> extends ps1 c1 c2 -> extends ps2 c2 c3 -> extends ps c1 c3.
Proof.
  intros H1 H2 [_ E1] [Hc E2]. split; [done|]. intros k [Hk|Hk]%E2; [|auto].
  destruct (E1 k Hk); auto.
Qed.

Lemma get_or_compile_spec p cache :
  coherent cache ->
  (get_or_compile_regex p cache).1 = regex_new p /\ extends [p] cache (get_or_compile_regex p cache).2.
Proof.
  intros Hc. unfold get_or_compile_regex. destruct (cache !! p) as [rx|] eqn:E; simpl.
  { split; [symmetry; exact (Hc _ _ E)|by apply extends_refl]. }
  destruct (regex_new p) as [rx|] eqn:En; simpl; [|split; [done|by apply extends_refl]].
  split; [done|]. split.
  - intros k rx'. destruct (decide (k = p)) as [->|Hne].
    + rewrite lookup_insert_eq. congruence.
    + rewrite lookup_insert_ne by done. apply Hc.
  - intros k. destruct (decide (k = p)) as [->|Hne]; [set_solver|].
    rewrite lookup_insert_ne by done. auto.
Qed.

Lemma header_matches_spec m h cache :
  coherent cache ->
  (header_matches m h cache).1 = header_holds h m /\
  extends (match m with HRegex _ p => [p] | _ => [] end) cache (header_matches m h cache).2.
Proof.
  intros Hc. destruct m as [n v|n v|n p|n|n]; simpl; try by (split; [done|apply extends_refl]).
  destruct (get_or_compile_spec p cache Hc) as [H1 H2].
  destruct (get_or_compile_regex p cache) as [rx cache']; simpl in *. unfold regex_holds.
  rewrite <-H1. destruct rx; simpl; (split; [|done]); by destruct (hdr_get h n ≫= to_str).
Qed.

Lemma headers_match_spec ms h cache :
  coherent cache ->
  (headers_match ms h cache).1 = forallb (header_holds h) ms /\
  extends (omap (fun m => match m with HRegex _ p => Some p | _ => None end) ms) cache
    (headers_match ms h cache).2.
Proof.
  revert cache. induction ms as [|m ms IH]; intros cache Hc; [split; [done|by apply extends_refl]|].
  cbn [headers_match forallb]. destruct (header_matches_spec m h cache Hc) as [H1 H2].
  destruct (header_matches m h cache) as [b c1]; simpl in H1, H2. subst b.
  destruct (header_holds h m); simpl.
  - destruct (IH c1) as [H3 H4]; [apply H2|]. split; [done|].
    eapply extends_trans; [| |exact H2|exact H4]; clear; destruct m; set_solver.
  - split; [done|]. eapply extends_trans; [| |exact H2|apply (extends_refl [])]; [| |apply H2];
      clear; destruct m; set_solver.
Qed.

Lemma path_matches_spec m p cache :
  coherent cache ->
  (path_matches m p cache).1 = path_holds p m /\
  extends (match m with RegexPath e => [e] | _ => [] end) cache (path_matches m p cache).2.
Proof.
  intros Hc. destruct m as [e|e|e]; simpl; try by (split; [done|apply extends_refl]).
  destruct (get_or_compile_spec e cache Hc) as [H1 H2].
  destruct (get_or_compile_regex e cache) as [rx cache']; simpl in *. unfold regex_holds.
  rewrite <-H1. by destruct rx.
Qed.

Lemma route_matches_spec r m p h cache :
  coherent cache ->
  (route_matches r m p h cache).1 = route_holds m p h r /\
  extends (patterns r) cache (route_matches r m p h cache).2.
Proof.
  intros Hc. unfold route_matches, route_holds.
  destruct (enabled r); simpl; [|split; [done|by apply extends_refl]].
  destruct (method_matches (method r) m); simpl; [|split; [done|by apply extends_refl]].
  destruct (path_matches_spec (path r) p cache Hc) as [H1 H2].
  destruct (path_matches (path r) p cache) as [b c1]; simpl in H1, H2. subst b.
  destruct (path_holds p (path r)); simpl.
  - destruct (headers_match_spec (headers r) h c1) as [H3 H4]; [apply H2|]. split; [done|].
    eapply extends_trans; [| |exact H2|exact H4]; unfold patterns; set_solver.
  - split; [done|]. eapply extends_trans; [| |exact H2|apply (extends_refl [])]; [| |apply H2];
      unfold patterns; set_solver.
Qed.

Lemma first_match_spec rs m p h cache :
  coherent cache ->
  (Router.first_match rs m p h cache).1 = List.find (route_holds m p h) rs /\
  extends (rs ≫= patterns) cache (Router.first_match rs m p h cache).2.
Proof.
  revert cache. induction rs as [|r rs IH]; intros cache Hc; [split; [done|by apply extends_refl]|].
  cbn [Router.first_match List.find]. destruct (route_matches_spec r m p h cache Hc) as [H1 H2].
  destruct (route_matches r m p h cache) as [b c1]; simpl in H1, H2. subst b.
  destruct (route_holds m p h r); simpl.
  - split; [done|]. eapply extends_trans; [| |exact H2|apply (extends_refl [])]; [| |apply H2]; clear; set_solver.
  - destruct (IH c1) as [H3 H4]; [apply H2|]. split; [done|].
    eapply extends_trans; [| |exact H2|exact H4]; clear; set_solver.
Qed.

End Meaning.
End RouterFacts.

(** ** Properties *)

Import RouterFacts.

(** C9. Among the enabled routes whose method, path and header conditions all
    hold, the router answers one of the highest priority (exact over prefix over
    regular expression) and, within it, the one that was added first; when none
    holds it answers the default upstream, or nothing. This holds with any
    coherent cache of compiled patterns, which the call extends coherently. *)
Theorem route_first_by_priority `{RX : RegexLib, HH : HttpHeaders, HM : HttpMethods} rs d m p h cache :
  coherent cache ->
  let '(o, cache') := Router.route (Router.mk (sort_by_rank rs) d) m p h cache in
  extends (rs ≫= patterns) cache cache' /\
  ((exists i r, best (route_holds m p h) rs i r /\
      o = Some (mkRouteMatch r (Router.rewritten r p))) \/
   (forall r, r ∈ rs -> route_holds m p h r = false) /\
      o = (fun u => mkRouteMatch (new_route "default" (Prefix "/") u) None) <$> d).
Proof.
  intros Hc. unfold Router.route. simpl.
  destruct (first_match_spec (sort_by_rank rs) m p h cache Hc) as [H1 H2].
  destruct (Router.first_match _ _ _ _ _) as [found c1]; simpl in H1, H2.
  assert (Hext : extends (rs ≫= patterns) cache c1).
  { destruct H2 as [? H2]. split; [done|]. intros k [|Hk]%H2; [auto|right].
    by rewrite <-(sort_perm rs). }
  pose proof (find_sort (route_holds m p h) rs) as Hf. rewrite <-H1 in Hf.
  destruct found as [r|].
  - split; [done|]. left. destruct Hf as [i Hi]. by exists i, r.
  - destruct d; (split; [done|]); by right.
Qed.

Lemma route_first_by_priority_witness :
  let rs := [with_rewrite "/v2/" (new_route "p" (Prefix "/api/") "b"); new_route "e" (Exact "/api/x") "a"] in
  let '(o, cache') := @Router.route substring_regex assoc_headers string_methods
      (Router.mk (sort_by_rank rs) None) "GET" "/api/x" [] ∅ in
  o = Some (mkRouteMatch (new_route "e" (Exact "/api/x") "a") None) /\
  @coherent substring_regex cache'.
Proof.
  pose proof (@route_first_by_priority substring_regex assoc_headers string_methods
    [with_rewrite "/v2/" (new_route "p" (Prefix "/api/") "b"); new_route "e" (Exact "/api/x") "a"]
    None "GET" "/api/x" [] ∅ (fun k rx H => ltac:(by rewrite lookup_empty in H))) as H.
  simpl. simpl in H. destruct H as [[Hc _] _]. by split.
Defined.

(** Adding routes one at a time, in any interleaving with setting the
    default, keeps the router sorted exactly as building it from the whole list:
    [add_route] after [with_routes rs] is [with_routes (rs ++ [x])]. *)
Theorem add_route_is_with_routes x rs :
  Router.add_route x (Router.with_routes rs) = Router.with_routes (rs ++ [x])%list.
Proof.
  unfold Router.add_route, Router.with_routes, Router.sort_routes. simpl. f_equal.
  apply sorted_unique; [apply sort_sorted..|]. intros k.
  by rewrite !sort_stable, !List.filter_app, sort_stable.
Qed.

(** C40. Removing by name takes out the route of that name with the highest
    priority, the earliest added of them, and leaves the router that the
    remaining routes would build; it answers nothing and changes nothing exactly
    when no route has the name. *)
Theorem remove_route_spec n rs d :
  let r := Router.mk (sort_by_rank rs) d in
  match Router.remove_route n r with
  | (Some x, r') => exists i, best (fun y => String.eqb (name y) n) rs i x /\
      r' = Router.mk (sort_by_rank (delete i rs)) d
  | (None, r') => r' = r /\ forall y, y ∈ rs -> name y <> n
  end.
Proof.
  set (f := fun y => String.eqb (name y) n). simpl. unfold Router.remove_route. simpl. fold f.
  pose proof (position_spec f (sort_by_rank rs)) as Hp. pose proof (find_sort f rs) as Hf.
  destruct (position f (sort_by_rank rs)) as [pos|].
  - destruct Hp as (x & Hx & Fx & Hfind & Hlt). rewrite Hx. rewrite Hfind in Hf.
    destruct Hf as [i Hi]. exists i. split; [done|]. f_equal.
    apply sorted_unique; [apply sorted_delete, sort_sorted|apply sort_sorted|].
    intros k. rewrite sort_stable. destruct Hi as (Hi & _ & Hb).
    rewrite (filter_delete_first f k _ pos x Hx Fx), (filter_delete_first f k rs i x Hi Fx).
    + by rewrite sort_stable.
    + intros j y Hj Hy Fy. destruct (Hb j y Hy Fy) as [|[]]; lia.
    + intros j y Hj Hy Fy. by rewrite (Hlt j y Hj Hy) in Fy.
  - rewrite Hp in Hf. split; [done|]. intros y Hy Heq. apply Hf in Hy. subst f. simpl in Hy.
    rewrite Heq, String.eqb_refl in Hy. done.
Qed.

(** A matching prefix route with a rewrite replaces exactly the matched
    prefix and keeps the rest of the path; other kinds of route answer the
    rewrite itself, whatever the path. *)
Theorem rewrite_replaces_prefix `{RX : RegexLib, HH : HttpHeaders, HM : HttpMethods} m p h r to :
  rewrite r = Some to -> route_holds m p h r = true ->
  match path r with
  | Prefix prefix => exists rest, p = String.append prefix rest /\
      Router.rewritten r p = Some (String.append to rest)
  | _ => Router.rewritten r p = Some to
  end.
Proof.
  intros Hw Hr. unfold route_holds in Hr. rewrite !andb_true_iff in Hr.
  destruct Hr as [[[_ _] Hp] _]. unfold Router.rewritten. rewrite Hw.
  destruct (path r) as [e|e|e]; try done. simpl in Hp.
  assert (Hs := Hp). apply starts_with_app in Hp as [rest ->]. exists rest. split; [done|].
  destruct (String.append e rest) eqn:E; simpl; rewrite Hs; rewrite <-E, drop_bytes_app; done.
Qed.

Lemma rewrite_replaces_prefix_witness :
  exists rest, "/api/x" = String.append "/api/" rest /\
    Router.rewritten (with_rewrite "/v2/" (new_route "p" (Prefix "/api/") "b")) "/api/x"
      = Some (String.append "/v2/" rest).
Proof.
  apply (@rewrite_replaces_prefix substring_regex assoc_headers string_methods "GET" "/api/x" []
    (with_rewrite "/v2/" (new_route "p" (Prefix "/api/") "b")) "/v2/").
  - reflexivity.
  - reflexivity.
Defined.

(** Change the weights of routes. *)
Definition reweigh (g : Route -> Z) (r : Route) : Route := with_weight (g r) r.

Lemma reweigh_sort g rs : sort_by_rank (reweigh g <$> rs) = reweigh g <$> sort_by_rank rs.
Proof.
  assert (Hins : forall x l, insert_by_rank (reweigh g x) (reweigh g <$> l) = reweigh g <$> insert_by_rank x l).
  { intros x l. induction l as [|y l IH]; [done|]. rewrite fmap_cons. cbn [insert_by_rank].
    change (priority (reweigh g y)) with (priority y). change (priority (reweigh g x)) with (priority x).
    case_match; [done|]. by rewrite IH. }
  induction rs as [|x rs IH]; [done|]. rewrite fmap_cons. cbn [sort_by_rank foldr] in *.
  unfold sort_by_rank in *. rewrite IH. apply Hins.
Qed.

(** The weight of a route, documented as its share when several routes match,
    has no influence: changing every weight changes no answer of the router, except
    for the weight field of the returned copy. *)
Theorem weight_is_ignored `{RX : RegexLib, HH : HttpHeaders, HM : HttpMethods} g rs m p h cache :
  coherent cache ->
  (Router.route (Router.with_routes (reweigh g <$> rs)) m p h cache).1 =
  (fun x => mkRouteMatch (reweigh g (matched_route x)) (rewritten_path x)) <$>
    (Router.route (Router.with_routes rs) m p h cache).1.
Proof.
  intros Hc. unfold Router.with_routes, Router.sort_routes, Router.route. simpl. rewrite reweigh_sort.
  destruct (first_match_spec (reweigh g <$> sort_by_rank rs) m p h cache Hc) as [H1 _].
  destruct (first_match_spec (sort_by_rank rs) m p h cache Hc) as [H2 _].
  destruct (Router.first_match (reweigh g <$> _) _ _ _ _) as [f1 c1].
  destruct (Router.first_match (sort_by_rank rs) _ _ _ _) as [f2 c2]. simpl in *.
  assert (Hfind : forall l, List.find (route_holds m p h) (reweigh g <$> l) =
    reweigh g <$> List.find (route_holds m p h) l).
  { induction l as [|y l IH]; [done|]. simpl.
    change (route_holds m p h (reweigh g y)) with (route_holds m p h y). by destruct (route_holds m p h y). }
  rewrite Hfind, <-H2 in H1. subst f1. by destruct f2.
Qed.

Lemma weight_is_ignored_witness :
  (@Router.route substring_regex assoc_headers string_methods
     (Router.with_routes (reweigh (fun _ => 1) <$> [new_route "e" (Exact "/x") "a"])) "GET" "/x" [] ∅).1 =
  Some (mkRouteMatch (with_weight 1 (new_route "e" (Exact "/x") "a")) None).
Proof.
  exact (@weight_is_ignored substring_regex assoc_headers string_methods (fun _ => 1)
    [new_route "e" (Exact "/x") "a"] "GET" "/x" [] ∅ (fun k rx H => ltac:(by rewrite lookup_empty in H))).
Defined.
