(* ===== verification/RouterInterleaving.v ===== *)
(** * Requests routed concurrently (src/src/router.rs)

    The cache of compiled patterns is one process-wide map behind a read-write lock.
    A lookup takes the lock to read; on a miss the pattern is compiled with no lock
    held, and the lock is taken again to insert it. Requests interleave between
    these accesses. The functions of the router are written here as programs with
    these two accesses, in the code's order; run alone they are the functions of
    [Router.v]. *)

From Stdlib Require Import Ascii String Sorted.
From stdpp Require Import prelude gmap strings.
From S2P Require Import Prelude Tasks RustStr Http Router.
Open Scope string_scope.
Open Scope Z_scope.

Section Programs.
Context {RX : RegexLib} {HH : HttpHeaders} {HM : HttpMethods}.

(** A computation that reads and writes the cache. *)
Inductive prog (A : Type) : Type :=
| Return (a : A)
| ReadCache (pattern : string) (k : option Regex -> prog A)
| WriteCache (pattern : string) (regex : Regex) (k : prog A).
Arguments Return {A} a.
Arguments ReadCache {A} pattern k.
Arguments WriteCache {A} pattern regex k.

Fixpoint prog_bind {A B} (p : prog A) (f : A -> prog B) : prog B :=
  match p with
  | Return a => f a
  | ReadCache q k => ReadCache q (fun c => prog_bind (k c) f)
  | WriteCache q rx k => WriteCache q rx (prog_bind k f)
  end.

Definition get_or_compile_prog (pattern : string) : prog (option Regex) :=
  ReadCache pattern (fun cached =>
    match cached with
    | Some regex => Return (Some regex)
    | None =>
        match regex_new pattern with
        | Some regex => WriteCache pattern regex (Return (Some regex))
        | None => Return None
        end
    end).

Definition header_prog (m : HeaderMatch) (h : HeaderMap) : prog bool :=
  match m with
  | HExact name value => Return (match hdr_get h name with Some v => value_eq_str v value | None => false end)
  | HContains name value =>
      Return (match hdr_get h name ≫= to_str with Some v => contains value v | None => false end)
  | HRegex name pattern =>
      prog_bind (get_or_compile_prog pattern) (fun regex =>
        match regex with
        | Some regex =>
            Return (match hdr_get h name ≫= to_str with Some v => is_match regex v | None => false end)
        | None => Return false
        end)
  | HPresent name => Return (hdr_contains_key h name)
  | HAbsent name => Return (negb (hdr_contains_key h name))
  end.

Definition path_prog (m : PathMatch) (p : string) : prog bool :=
  match m with
  | Exact expected => Return (String.eqb p expected)
  | Prefix prefix => Return (starts_with prefix p)
  | RegexPath pattern =>
      prog_bind (get_or_compile_prog pattern) (fun regex =>
        match regex with
        | Some regex => Return (is_match regex p)
        | None => Return false
        end)
  end.

Fixpoint headers_prog (ms : list HeaderMatch) (h : HeaderMap) : prog bool :=
  match ms with
  | [] => Return true
  | m :: ms => prog_bind (header_prog m h) (fun b => if negb b then Return false else headers_prog ms h)
  end.

Definition route_matches_prog (r : Route) (m : Method) (p : string) (h : HeaderMap) : prog bool :=
  if negb (enabled r) then Return false
  else if negb (method_matches (method r) m) then Return false
  else prog_bind (path_prog (path r) p) (fun b => if negb b then Return false else headers_prog (headers r) h).

Fixpoint first_match_prog (rs : list Route) (m : Method) (p : string) (h : HeaderMap) : prog (option Route) :=
  match rs with
  | [] => Return None
  | r :: rs =>
      prog_bind (route_matches_prog r m p h) (fun b => if b then Return (Some r) else first_match_prog rs m p h)
  end.

Definition route_prog (r : Router.router) (m : Method) (p : string) (h : HeaderMap) : prog (option RouteMatch) :=
  prog_bind (first_match_prog (Router.routes r) m p h) (fun found =>
    match found with
    | Some x => Return (Some {| matched_route := x; rewritten_path := Router.rewritten x p |})
    | None =>
        match Router.default_upstream r with
        | Some u => Return (Some {| matched_route := new_route "default" (Prefix "/") u; rewritten_path := None |})
        | None => Return None
        end
    end).

(** A program run alone. *)
Fixpoint run {A} (q : prog A) (cache : RegexCache) : A * RegexCache :=
  match q with
  | Return a => (a, cache)
  | ReadCache pattern k => run (k (cache !! pattern)) cache
  | WriteCache pattern regex k => run k (<[pattern := regex]> cache)
  end.

(** ** Requests as tasks *)

Record request : Type := mkRequest { req_method : Method; req_path : string; req_headers : HeaderMap }.

(** A request and what is left of its routing. *)
Definition pc : Type := request * prog (option RouteMatch).

Definition start (r : Router.router) (q : request) : pc :=
  (q, route_prog r (req_method q) (req_path q) (req_headers q)).

Definition is_done (p : pc) : bool := match p.2 with Return _ => true | _ => false end.

Definition access (_ : Instant) (p : pc) (cache : RegexCache) : pc * RegexCache :=
  match p.2 with
  | Return a => (p, cache)
  | ReadCache pattern k => ((p.1, k (cache !! pattern)), cache)
  | WriteCache pattern regex k => ((p.1, k), <[pattern := regex]> cache)
  end.

(** ** Lemmas *)

Lemma run_bind {A B} (q : prog A) (f : A -> prog B) cache :
  run (prog_bind q f) cache = let '(a, cache) := run q cache in run (f a) cache.
Proof. revert cache. induction q as [a|p k IH|p rx k IH]; intros cache; simpl; auto. Qed.

Lemma run_get p cache : run (get_or_compile_prog p) cache = get_or_compile_regex p cache.
Proof. unfold get_or_compile_regex. simpl. repeat case_match; done. Qed.

Lemma run_header m h cache : run (header_prog m h) cache = header_matches m h cache.
Proof.
  destruct m; try done. cbn [header_prog header_matches]. rewrite run_bind, run_get.
  destruct (get_or_compile_regex _ _) as [[rx|] c]; done.
Qed.

Lemma run_path m p cache : run (path_prog m p) cache = path_matches m p cache.
Proof.
  destruct m; try done. cbn [path_prog path_matches]. rewrite run_bind, run_get.
  destruct (get_or_compile_regex _ _) as [[rx|] c]; done.
Qed.

Lemma run_headers ms h cache : run (headers_prog ms h) cache = headers_match ms h cache.
Proof.
  revert cache. induction ms as [|m ms IH]; intros cache; [done|]. cbn [headers_prog headers_match].
  rewrite run_bind, run_header. destruct (header_matches m h cache) as [[] c]; simpl; [apply IH|done].
Qed.

Lemma run_route_matches r m p h cache :
  run (route_matches_prog r m p h) cache = route_matches r m p h cache.
Proof.
  unfold route_matches_prog, route_matches. repeat (case_match; [done|]).
  rewrite run_bind, run_path. destruct (path_matches _ _ _) as [[] c]; simpl; [apply run_headers|done].
Qed.

Lemma run_first_match rs m p h cache :
  run (first_match_prog rs m p h) cache = Router.first_match rs m p h cache.
Proof.
  revert cache. induction rs as [|r rs IH]; intros cache; [done|].
  cbn [first_match_prog Router.first_match]. rewrite run_bind, run_route_matches.
  destruct (route_matches r m p h cache) as [[] c]; simpl; [done|apply IH].
Qed.

(** [yields n ps q a]: with any coherent cache at each access, [q] makes at most [n]
    accesses, writes only what compiling patterns of [ps] gives, and ends with [a]. *)
Fixpoint yields {A} (n : nat) (ps : list string) (q : prog A) (a : A) {struct q} : Prop :=
  match q with
  | Return b => b = a
  | ReadCache pattern k =>
      match n with
      | O => False
      | S n => yields n ps (k None) a /\
          forall rx, regex_new pattern = Some rx -> yields n ps (k (Some rx)) a
      end
  | WriteCache pattern regex k =>
      match n with
      | O => False
      | S n => regex_new pattern = Some regex /\ pattern ∈ ps /\ yields n ps k a
      end
  end.

Lemma yields_mono {A} n n' ps ps' (q : prog A) a :
  (n <= n')%nat -> ps ⊆ ps' -> yields n ps q a -> yields n' ps' q a.
Proof.
  intros Hn Hps. revert n n' Hn. induction q as [b|p k IH|p rx k IH]; intros n n' Hn; simpl; [done|..].
  - destruct n as [|n]; [done|]. destruct n' as [|n']; [lia|]. intros [H1 H2].
    split; [|intros rx Hrx]; (apply (IH _ n n'); [lia|auto]).
  - destruct n as [|n]; [done|]. destruct n' as [|n']; [lia|]. intros (H1 & H2 & H3).
    split_and!; [done|by apply Hps|]. eapply IH; [|done]. lia.
Qed.

Lemma yields_bind {A B} n1 n2 ps (q : prog A) (f : A -> prog B) a b :
  yields n1 ps q a -> yields n2 ps (f a) b -> yields (n1 + n2) ps (prog_bind q f) b.
Proof.
  intros Hq Hf. revert n1 Hq. induction q as [c|p k IH|p rx k IH]; intros n1; simpl.
  - intros ->. eapply yields_mono; [|done|exact Hf]. lia.
  - destruct n1 as [|n1]; [done|]. intros [H1 H2]. simpl. split; [|intros rx Hrx]; apply IH; auto.
  - destruct n1 as [|n1]; [done|]. intros (H1 & H2 & H3). simpl. split_and!; auto.
Qed.

Import RouterFacts.

Lemma get_yields p : yields 2 [p] (get_or_compile_prog p) (regex_new p).
Proof.
  simpl. destruct (regex_new p) as [rx|] eqn:E; simpl; split_and!; try done. set_solver.
Qed.

(** The patterns of a header condition. *)
Definition header_patterns (m : HeaderMatch) : list string :=
  match m with HRegex _ p => [p] | _ => [] end.

Lemma header_yields m h : yields (2 * length (header_patterns m)) (header_patterns m) (header_prog m h) (header_holds h m).
Proof.
  destruct m as [n v|n v|n p|n|n]; try done. cbn [header_prog header_patterns].
  apply (yields_bind 2 0 _ _ _ _ _ (get_yields p)). simpl. unfold regex_holds.
  destruct (regex_new p); simpl; by destruct (hdr_get h n ≫= to_str).
Qed.

Definition path_patterns (m : PathMatch) : list string := match m with RegexPath e => [e] | _ => [] end.

Lemma path_yields m p : yields (2 * length (path_patterns m)) (path_patterns m) (path_prog m p) (path_holds p m).
Proof.
  destruct m as [e|e|e]; try done. cbn [path_prog path_patterns].
  apply (yields_bind 2 0 _ _ _ _ _ (get_yields e)). simpl. unfold regex_holds. by destruct (regex_new e).
Qed.

Lemma headers_yields ms h :
  yields (2 * length (ms ≫= header_patterns)) (ms ≫= header_patterns) (headers_prog ms h) (forallb (header_holds h) ms).
Proof.
  induction ms as [|m ms IH]; [done|]. cbn [headers_prog forallb]. rewrite bind_cons, length_app, Nat.mul_add_distr_l.
  eapply yields_bind.
  - eapply yields_mono; [|  |apply header_yields]; [done|set_solver].
  - destruct (header_holds h m); [|done]. simpl negb. eapply yields_mono; [done| |exact IH]. set_solver.
Qed.

Lemma patterns_split r : patterns r = (path_patterns (path r) ++ (headers r ≫= header_patterns))%list.
Proof.
  unfold patterns, path_patterns. f_equal. induction (headers r) as [|m ms IH]; [done|].
  rewrite bind_cons, <-IH. by destruct m.
Qed.

Lemma route_matches_yields r m p h :
  yields (2 * length (patterns r)) (patterns r) (route_matches_prog r m p h) (route_holds m p h r).
Proof.
  unfold route_matches_prog, route_holds. destruct (enabled r); [|done].
  destruct (method_matches (method r) m); [|done]. simpl negb. simpl andb.
  rewrite patterns_split, length_app, Nat.mul_add_distr_l. eapply yields_bind.
  - eapply yields_mono; [done| |apply path_yields]. set_solver.
  - destruct (path_holds p (path r)); [|done]. simpl negb.
    eapply yields_mono; [done| |apply headers_yields]. set_solver.
Qed.

Lemma first_match_yields rs m p h :
  yields (2 * length (rs ≫= patterns)) (rs ≫= patterns) (first_match_prog rs m p h) (List.find (route_holds m p h) rs).
Proof.
  induction rs as [|r rs IH]; [done|]. cbn [first_match_prog List.find].
  rewrite bind_cons, length_app, Nat.mul_add_distr_l. eapply yields_bind.
  - eapply yields_mono; [done| |apply route_matches_yields]. set_solver.
  - destruct (route_holds m p h r); [done|]. eapply yields_mono; [done| |exact IH]. set_solver.
Qed.

(** What the routes mean for a request, without a cache. *)
Definition expected (r : Router.router) (q : request) : option RouteMatch :=
  match List.find (route_holds (req_method q) (req_path q) (req_headers q)) (Router.routes r) with
  | Some x => Some (mkRouteMatch x (Router.rewritten x (req_path q)))
  | None => (fun u => mkRouteMatch (new_route "default" (Prefix "/") u) None) <$> Router.default_upstream r
  end.

Lemma route_yields r q :
  yields (2 * length (Router.routes r ≫= patterns)) (Router.routes r ≫= patterns) (start r q).2 (expected r q).
Proof.
  unfold start, route_prog, expected; cbn [snd]. rewrite <-(Nat.add_0_r (2 * _)). eapply yields_bind.
  - apply first_match_yields.
  - destruct (List.find _ _); [done|]. by destruct (Router.default_upstream r).
Qed.

(** The cache holds what compiling gives, of the patterns of the routes and of those
    it held at the start. *)
Definition cache_ok (r : Router.router) (cache0 cache : RegexCache) : Prop :=
  extends (Router.routes r ≫= patterns) cache0 cache.

Definition pc_bound (r : Router.router) (n : nat) (p : pc) : Prop :=
  yields n (Router.routes r ≫= patterns) p.2 (expected r p.1).

Lemma access_bound r cache0 now p cache n :
  cache_ok r cache0 cache -> pc_bound r n p -> is_done p = false ->
  cache_ok r cache0 (access now p cache).2 /\
  exists n', (n' < n)%nat /\ pc_bound r n' (access now p cache).1.
Proof.
  destruct p as [q [a|pat k|pat rx k]]; unfold pc_bound; cbn [access is_done fst snd yields]; [done|..];
    intros [Hc Hext]; (destruct n as [|n]; [done|]).
  - intros [H1 H2] _. split; [done|]. exists n. split; [lia|].
    destruct (cache !! pat) as [rx|] eqn:E; [|done]. apply H2. by apply Hc.
  - intros (Hrx & Hin & Hk) _. split; [|exists n; split; [lia|done]]. split.
    + intros k' rx'. destruct (decide (k' = pat)) as [->|Hne].
      * rewrite lookup_insert_eq. congruence.
      * rewrite lookup_insert_ne by done. apply Hc.
    + intros k'. destruct (decide (k' = pat)) as [->|Hne]; [auto|].
      rewrite lookup_insert_ne by done. apply Hext.
Qed.

Lemma start_bound r q : exists n, pc_bound r n (start r q).
Proof. eexists. apply route_yields. Qed.

Lemma route_expected r q cache :
  coherent cache ->
  (Router.route r (req_method q) (req_path q) (req_headers q) cache).1 = expected r q.
Proof.
  intros Hc. unfold Router.route, expected.
  destruct (first_match_spec (Router.routes r) (req_method q) (req_path q) (req_headers q) cache Hc) as [<- _].
  destruct (Router.first_match _ _ _ _ _) as [[x|] c]; [done|]. by destruct (Router.default_upstream r).
Qed.

(** ** Properties *)

(** Routing as a program over the cache, run alone, is the routing function: the
    same answer and the same cache afterwards. *)
Theorem run_is_route r m p h cache : run (route_prog r m p h) cache = Router.route r m p h cache.
Proof.
  unfold route_prog, Router.route. rewrite run_bind, run_first_match.
  destruct (Router.first_match _ _ _ _ _) as [[x|] c]; [done|]. by destruct (Router.default_upstream r).
Qed.

(** C18. However any number of requests interleave at the accesses of the cache, each
    gets the answer it would get alone with an empty cache, after at most two
    accesses per regular expression of the routes; the cache stays coherent and
    gains only patterns of the routes. *)
Theorem interleaved_routing r cache0 t0 es s i q es' s' :
  let step := Tasks.sys_step (start r) is_done access in
  coherent cache0 ->
  steps step (mkSystem cache0 t0 []) es s -> tasks s !! i = Some (start r q) -> steps step s es' s' ->
  extends (Router.routes r ≫= patterns) cache0 (shared s') /\
  exists p, tasks s' !! i = Some p /\
    (forall q' a, p = (q', Return a) ->
       a = (Router.route r (req_method q') (req_path q') (req_headers q') ∅).1) /\
    count_if (is_run i) es' <= 2 * Z.of_nat (length (Router.routes r ≫= patterns)) /\
    (count_if (is_run i) es' = 2 * Z.of_nat (length (Router.routes r ≫= patterns)) -> is_done p = true).
Proof.
  intros step Hc Hs Hi Hs'.
  set (N := length (Router.routes r ≫= patterns)).
  assert (Hb : bounded (cache_ok r cache0) (pc_bound r) s).
  { eapply bounded_steps; [apply (access_bound r cache0)|apply start_bound|exact Hs|].
    split; [by apply extends_refl|done]. }
  pose proof (bounded_steps _ _ _ _ _ (access_bound r cache0) (start_bound r) _ _ _ Hs' Hb) as [Hext _].
  split; [exact Hext|].
  destruct (accesses_bounded_by (start r) is_done access (cache_ok r cache0) (pc_bound r)
    (access_bound r cache0) (start_bound r) s es' s' i (start r q) (2 * N) Hs' Hb Hi (route_yields r q))
    as (p & n & Hp & Hn & Hle).
  exists p. split; [done|]. split_and!; [|lia|].
  - intros q' a ->. rewrite route_expected by (intros k rx; by rewrite lookup_empty). exact Hn.
  - intros Heq. assert (n = 0%nat) as -> by lia. destruct p as [q' [a|pat k|pat rx k]]; done.
Qed.

End Programs.

Arguments Return {RX A} a.

Section Witness.
#[local] Existing Instances substring_regex assoc_headers string_methods.

(** Two requests with the same regular expression, both missing the cache. *)
Lemma interleaved_routing_witness :
  let r := Router.with_routes [new_route "r" (RegexPath "x") "a"] in
  let q := mkRequest "GET" "/x" [] in
  exists s s', 
    schedule (start r) is_done access [Spawn q; Spawn q; Run 0%nat] (mkSystem ∅ 0 []) = Some s /\
    schedule (start r) is_done access [Run 1%nat; Run 1%nat; Run 0%nat] s = Some s' /\
    exists p, tasks s' !! 1%nat = Some p /\
      (forall q' a, p = (q', Return a) ->
         a = (Router.route r (req_method q') (req_path q') (req_headers q') ∅).1).
Proof.
  intros r q.
  destruct (schedule (start r) is_done access [Spawn q; Spawn q; Run 0%nat] (mkSystem ∅ 0 []))
    as [s|] eqn:E; [|discriminate E].
  destruct (schedule (start r) is_done access [Run 1%nat; Run 1%nat; Run 0%nat] s)
    as [s'|] eqn:E'; [|cbn in E; injection E as <-; discriminate E'].
  destruct (interleaved_routing r ∅ 0 [Spawn q; Spawn q; Run 0%nat] s 1%nat q
    [Run 1%nat; Run 1%nat; Run 0%nat] s') as (_ & p & Hp & Ha & _).
  - intros k rx H. by rewrite lookup_empty in H.
  - apply (schedule_sound _ _ _ _ _ _ E).
  - cbn in E. injection E as <-. reflexivity.
  - apply (schedule_sound _ _ _ _ _ _ E').
  - exists s, s'. split; [reflexivity|]. split; [exact E'|]. exists p. by split.
Defined.

End Witness.
