(* ===== verification/Transport.v ===== *)
(** * Endpoints, load balancing and clusters (src/src/transport.rs)

    Endpoints are shared between load balancers and callers ([Arc]): they live in
    a store and are named by their index in it. Each endpoint owns a gate, the
    interface of the circuit breaker. *)

From Stdlib Require Import Ascii String SpecFloat.
From stdpp Require Import prelude gmap strings.
From S2P Require Import Prelude F64 RoundRobin Gate Router.
Open Scope string_scope.
Open Scope Z_scope.

Record PoolConfig : Type := mkPoolConfig {
  max_idle_per_host : Z;
  max_connections_per_host : Z;
  idle_timeout : Duration;
  connect_timeout : Duration;
  http2_only : bool
}.

Definition pool_config_default : PoolConfig :=
  {| max_idle_per_host := 10; max_connections_per_host := 100; idle_timeout := from_secs 90;
     connect_timeout := from_secs 10; http2_only := false |}.

Definition pool_config_new : PoolConfig := pool_config_default.

Definition with_max_idle (max : Z) (c : PoolConfig) : PoolConfig :=
  mkPoolConfig max (max_connections_per_host c) (idle_timeout c) (connect_timeout c) (http2_only c).
Definition with_idle_timeout (t : Duration) (c : PoolConfig) : PoolConfig :=
  mkPoolConfig (max_idle_per_host c) (max_connections_per_host c) t (connect_timeout c) (http2_only c).
Definition with_http2_only (b : bool) (c : PoolConfig) : PoolConfig :=
  mkPoolConfig (max_idle_per_host c) (max_connections_per_host c) (idle_timeout c) (connect_timeout c) b.

Record EndpointStats : Type := mkEndpointStats {
  stat_total_requests : Z;
  stat_successful_requests : Z;
  stat_failed_requests : Z;
  stat_active_connections : Z;
  avg_response_time_ms : f64;
  stat_is_healthy : bool
}.

Record PoolStats : Type := mkPoolStats {
  connections_created : Z;
  connections_closed : Z;
  idle_connections : Z;
  pool_active_connections : Z
}.

Section Transport.
Context {G : Gate}.

(** ** An endpoint *)

Record Endpoint : Type := mkEndpoint {
  address : string;
  weight : Z;
  active_connections : Z;
  total_requests : Z;
  successful_requests : Z;
  failed_requests : Z;
  total_response_time_us : Z;
  healthy : bool;
  circuit_breaker : gate;
  last_health_check : Instant
}.

Definition endpoint_new (addr : string) (now : Instant) : Endpoint :=
  {| address := addr; weight := 100; active_connections := 0; total_requests := 0;
     successful_requests := 0; failed_requests := 0; total_response_time_us := 0;
     healthy := true; circuit_breaker := gate_new; last_health_check := now |}.

Definition set_weight (w : Z) (e : Endpoint) : Endpoint :=
  mkEndpoint (address e) w (active_connections e) (total_requests e) (successful_requests e)
    (failed_requests e) (total_response_time_us e) (healthy e) (circuit_breaker e) (last_health_check e).

Definition endpoint_with_weight (addr : string) (w : Z) (now : Instant) : Endpoint :=
  set_weight w (endpoint_new addr now).

Definition store_active (n : Z) (e : Endpoint) : Endpoint :=
  mkEndpoint (address e) (weight e) n (total_requests e) (successful_requests e)
    (failed_requests e) (total_response_time_us e) (healthy e) (circuit_breaker e) (last_health_check e).

Definition acquire_connection (e : Endpoint) : Endpoint :=
  store_active (u64_add (active_connections e) 1) e.
Definition release_connection (e : Endpoint) : Endpoint :=
  store_active (u64_sub (active_connections e) 1) e.

Definition endpoint_weight (e : Endpoint) : Z := weight e.
Definition endpoint_active_connections (e : Endpoint) : Z := active_connections e.
Definition is_healthy (e : Endpoint) : bool := healthy e.

Definition set_healthy (b : bool) (e : Endpoint) : Endpoint :=
  mkEndpoint (address e) (weight e) (active_connections e) (total_requests e) (successful_requests e)
    (failed_requests e) (total_response_time_us e) b (circuit_breaker e) (last_health_check e).

(** [as_micros() as u64] truncates. *)
Definition record_success (response_time : Duration) (e : Endpoint) : Endpoint :=
  mkEndpoint (address e) (weight e) (active_connections e)
    (u64_add (total_requests e) 1) (u64_add (successful_requests e) 1) (failed_requests e)
    (u64_add (total_response_time_us e) (wrap64 (as_micros response_time)))
    (healthy e) (gate_success (circuit_breaker e)) (last_health_check e).

Definition record_failure (now : Instant) (e : Endpoint) : Endpoint :=
  mkEndpoint (address e) (weight e) (active_connections e)
    (u64_add (total_requests e) 1) (successful_requests e) (u64_add (failed_requests e) 1)
    (total_response_time_us e) (healthy e) (gate_failure now (circuit_breaker e)) (last_health_check e).

Definition set_breaker (g : gate) (e : Endpoint) : Endpoint :=
  mkEndpoint (address e) (weight e) (active_connections e) (total_requests e) (successful_requests e)
    (failed_requests e) (total_response_time_us e) (healthy e) g (last_health_check e).

Definition allow_request (now : Instant) (e : Endpoint) : bool * Endpoint :=
  let '(b, g) := gate_allow now (circuit_breaker e) in (b, set_breaker g e).

Definition endpoint_stats (e : Endpoint) : EndpointStats :=
  let total := total_requests e in
  let avg_time :=
    if 0 <? total then
      f64_div (f64_div (of_Z (total_response_time_us e)) (of_Z total)) (of_Z 1000)
    else of_Z 0 in
  {| stat_total_requests := total;
     stat_successful_requests := successful_requests e;
     stat_failed_requests := failed_requests e;
     stat_active_connections := active_connections e;
     avg_response_time_ms := avg_time;
     stat_is_healthy := healthy e |}.

(** ** The store of endpoints *)

(** Each [Arc<Endpoint>] is an index of the store. *)
Definition healthy_at (s : list Endpoint) (i : nat) : bool :=
  match s !! i with Some e => is_healthy e | None => false end.
Definition address_at (s : list Endpoint) (i : nat) : string :=
  match s !! i with Some e => address e | None => "" end.
Definition active_at (s : list Endpoint) (i : nat) : Z :=
  match s !! i with Some e => active_connections e | None => 0 end.

Definition allow_at (now : Instant) (s : list Endpoint) (i : nat) : bool * list Endpoint :=
  match s !! i with
  | Some e => let '(b, e) := allow_request now e in (b, <[i := e]> s)
  | None => (false, s)
  end.

(** ** A load balancer *)

Record LoadBalancer : Type := mkLoadBalancer {
  endpoints : list nat;
  policy : LoadBalancingPolicy;
  next_index : Z
}.

Definition load_balancer_new (endpoints : list nat) (p : LoadBalancingPolicy) : LoadBalancer :=
  mkLoadBalancer endpoints p 0.

(** New endpoints are allocated at the end of the store. *)
Definition from_addresses (addresses : list string) (p : LoadBalancingPolicy) (now : Instant) (s : list Endpoint)
    : LoadBalancer * list Endpoint :=
  (load_balancer_new (seq (length s) (length addresses)) p,
   (s ++ map (fun a => endpoint_new a now) addresses)%list).

Definition round_robin (ids : list nat) (lb : LoadBalancer) : outcome (option nat * LoadBalancer) :=
  match ids with
  | [] => Returns (None, lb)
  | _ =>
      let '(idx, next) := fetch_index (next_index lb) (Z.of_nat (length ids)) in
      let lb := mkLoadBalancer (endpoints lb) (policy lb) next in
      outcome_bind (index ids idx) (fun i => Returns (Some i, lb))
  end.

(** [min_by_key]: the first of the least. *)
Definition least_connections (s : list Endpoint) (ids : list nat) : option nat :=
  foldl (fun best i =>
    match best with
    | None => Some i
    | Some b => if active_at s i <? active_at s b then Some i else Some b
    end) None ids.

(** [sample n] is the number the random generator gives for the range [0..n]. *)
Definition random (sample : Z -> Z) (ids : list nat) : outcome (option nat) :=
  match ids with
  | [] => Returns None
  | _ => outcome_bind (index ids (sample (Z.of_nat (length ids)))) (fun i => Returns (Some i))
  end.

(** The search for another endpoint, when the chosen one's breaker refuses. *)
Fixpoint find_other (now : Instant) (refused : string) (ids : list nat) (s : list Endpoint) : option nat * list Endpoint :=
  match ids with
  | [] => (None, s)
  | i :: ids =>
      if negb (String.eqb (address_at s i) refused) then
        let '(b, s) := allow_at now s i in
        if b then (Some i, s) else find_other now refused ids s
      else find_other now refused ids s
  end.

Definition pick (sample : Z -> Z) (s : list Endpoint) (ids : list nat) (lb : LoadBalancer)
    : outcome (option nat * LoadBalancer) :=
  match policy lb with
  | RoundRobin => round_robin ids lb
  | LeastConnections => Returns (least_connections s ids, lb)
  | Random => outcome_bind (random sample ids) (fun o => Returns (o, lb))
  | ConsistentHash => round_robin ids lb
  end.

Definition select (sample : Z -> Z) (now : Instant) (s : list Endpoint) (lb : LoadBalancer)
    : outcome (option nat * LoadBalancer * list Endpoint) :=
  let healthy_endpoints := List.filter (healthy_at s) (endpoints lb) in
  match healthy_endpoints with
  | [] => Returns (None, lb, s)
  | _ =>
      outcome_bind (pick sample s healthy_endpoints lb) (fun '(endpoint, lb) =>
        match endpoint with
        | Some ep =>
            let '(b, s) := allow_at now s ep in
            if negb b then
              let '(other, s) := find_other now (address_at s ep) healthy_endpoints s in
              Returns (other, lb, s)
            else Returns (Some ep, lb, s)
        | None => Returns (None, lb, s)
        end)
  end.

Definition healthy_count (s : list Endpoint) (lb : LoadBalancer) : Z := count_if (healthy_at s) (endpoints lb).
Definition total_count (lb : LoadBalancer) : Z := Z.of_nat (length (endpoints lb)).

(** ** The transport *)

Record TransportStats : Type := mkTransportStats {
  created : Z;
  closed : Z
}.

Record TransportState : Type := mkTransport {
  config : PoolConfig;
  clusters : gmap string LoadBalancer;
  stats : TransportStats
}.

Definition transport_new (c : PoolConfig) : TransportState := mkTransport c ∅ (mkTransportStats 0 0).
Definition transport_with_defaults : TransportState := transport_new pool_config_default.
Definition transport_default : TransportState := transport_with_defaults.
Definition transport_config (t : TransportState) : PoolConfig := config t.

Definition add_cluster (name : string) (addrs : list string) (p : LoadBalancingPolicy) (now : Instant)
    (t : TransportState) (s : list Endpoint) : TransportState * list Endpoint :=
  let '(lb, s) := from_addresses addrs p now s in
  (mkTransport (config t) (<[name := lb]> (clusters t)) (stats t), s).

Definition get_cluster (name : string) (t : TransportState) : option LoadBalancer := clusters t !! name.

(** The load balancer of a cluster is shared ([Arc]): its counter is updated in
    place. *)
Definition select_endpoint (sample : Z -> Z) (now : Instant) (cluster : string) (t : TransportState) (s : list Endpoint)
    : outcome (option nat * TransportState * list Endpoint) :=
  match get_cluster cluster t with
  | Some lb =>
      outcome_bind (select sample now s lb) (fun '(o, lb, s) =>
        Returns (o, mkTransport (config t) (<[cluster := lb]> (clusters t)) (stats t), s))
  | None => Returns (None, t, s)
  end.

Definition transport_stats (t : TransportState) (s : list Endpoint) : PoolStats :=
  let active := map_fold (fun _ lb acc =>
    foldl (fun acc i => u64_add acc (active_at s i)) acc (endpoints lb)) 0 (clusters t) in
  {| connections_created := created (stats t);
     connections_closed := closed (stats t);
     idle_connections := 0;
     pool_active_connections := active |}.

Definition record_connection_created (t : TransportState) : TransportState :=
  mkTransport (config t) (clusters t) (mkTransportStats (u64_add (created (stats t)) 1) (closed (stats t))).
Definition record_connection_closed (t : TransportState) : TransportState :=
  mkTransport (config t) (clusters t) (mkTransportStats (created (stats t)) (u64_add (closed (stats t)) 1)).

End Transport.

(** ** Lemmas of the component *)

Module TransportFacts.
Section Facts.
Context {G : Gate} {GL : GateLaws G}.
Implicit Types (s : list Endpoint) (e : Endpoint) (lb : LoadBalancer).

(** Endpoints equal up to the equivalence of their gates; stores pointwise. *)
Definition endpoint_equiv (e e' : Endpoint) : Prop :=
  e' = set_breaker (circuit_breaker e') e /\ circuit_breaker e ≡ circuit_breaker e'.

#[export] Instance store_equiv : Equiv (list Endpoint) := Forall2 endpoint_equiv.

#[export] Instance endpoint_equivalence : Equivalence endpoint_equiv.
Proof.
  split.
  - intros e. split; [by destruct e|reflexivity].
  - intros e e' [H1 H2]. split; [|by symmetry]. rewrite H1. by destruct e.
  - intros e1 e2 e3 [H1 H2] [H3 H4]. split; [|by etrans].
    rewrite H3, H1. by destruct e1, e2.
Qed.

#[export] Instance store_equivalence : Equivalence (≡@{list Endpoint}).
Proof. unfold equiv, store_equiv. apply _. Qed.

(** Whether the gate of an endpoint lets a request pass now. *)
Definition admits (now : Instant) s (i : nat) : bool :=
  match s !! i with Some e => (gate_allow now (circuit_breaker e)).1 | None => false end.

Lemma equiv_lookup s s' i :
  s ≡ s' -> match s !! i, s' !! i with
            | Some e, Some e' => endpoint_equiv e e' | None, None => True | _, _ => False end.
Proof.
  intros H. apply Forall2_lookup with (i := i) in H.
  destruct (s !! i), (s' !! i); inversion H; subst; done.
Qed.

Lemma equiv_views now s s' i :
  s ≡ s' ->
  healthy_at s i = healthy_at s' i /\ address_at s i = address_at s' i /\
  active_at s i = active_at s' i /\ admits now s i = admits now s' i.
Proof.
  intros H. apply (equiv_lookup _ _ i) in H. unfold healthy_at, address_at, active_at, admits.
  destruct (s !! i) as [e|], (s' !! i) as [e'|]; try done. destruct H as [H1 H2].
  rewrite H1. simpl. split_and!; try done. by apply gate_allow_proper.
Qed.

Lemma allow_at_answer now s i : (allow_at now s i).1 = admits now s i.
Proof.
  unfold allow_at, admits, allow_request. destruct (s !! i) as [e|]; [|done].
  by destruct (gate_allow now (circuit_breaker e)).
Qed.

(** What one question does to the store: the asked gate moves on. *)
Lemma allow_at_store now s i e :
  s !! i = Some e ->
  (allow_at now s i).2 = <[i := set_breaker (gate_allow now (circuit_breaker e)).2 e]> s.
Proof.
  intros He. unfold allow_at, allow_request. rewrite He. by destruct (gate_allow now (circuit_breaker e)).
Qed.

(** A refusal leaves the store equivalent. *)
Lemma allow_at_refused now s i : admits now s i = false -> (allow_at now s i).2 ≡ s.
Proof.
  unfold admits. destruct (s !! i) as [e|] eqn:E; intros H.
  - rewrite (allow_at_store _ _ _ _ E). symmetry. rewrite <-(list_insert_id s i e) at 1 by done.
    apply Forall2_insert; [reflexivity|]. split; [by destruct e|]. simpl. symmetry. by apply gate_refusal.
  - unfold allow_at. by rewrite E.
Qed.

(** An admission can be repeated, and concerns no other endpoint. *)
Lemma allow_at_admitted now s i j :
  admits now s i = true -> admits now s j = true -> admits now (allow_at now s i).2 j = true.
Proof.
  unfold admits at 1. destruct (s !! i) as [e|] eqn:E; [|done]. intros Hi Hj.
  rewrite (allow_at_store _ _ _ _ E). unfold admits in *. destruct (decide (i = j)) as [->|Hne].
  - rewrite list_lookup_insert_eq by (by eapply lookup_lt_Some). simpl. by apply gate_admission.
  - by rewrite list_lookup_insert_ne.
Qed.

Lemma allow_at_views now s i j :
  healthy_at (allow_at now s i).2 j = healthy_at s j /\
  address_at (allow_at now s i).2 j = address_at s j /\
  active_at (allow_at now s i).2 j = active_at s j.
Proof.
  destruct (s !! i) as [e|] eqn:E; [|by unfold allow_at; rewrite E].
  rewrite (allow_at_store _ _ _ _ E). unfold healthy_at, address_at, active_at.
  destruct (decide (i = j)) as [->|Hne].
  - rewrite list_lookup_insert_eq by (by eapply lookup_lt_Some). by rewrite E.
  - by rewrite list_lookup_insert_ne.
Qed.

(** The fallback search: the first endpoint with another address that admits. *)
Lemma find_other_spec now refused ids s o s' :
  find_other now refused ids s = (o, s') ->
  match o with
  | Some i => i ∈ ids /\ address_at s i <> refused /\ admits now s i = true /\ admits now s' i = true
  | None => s' ≡ s /\ forall i, i ∈ ids -> address_at s i = refused \/ admits now s i = false
  end.
Proof.
  revert s. induction ids as [|i ids IH]; intros s H; simpl in H.
  { simplify_eq. split; [reflexivity|]. by intros i ?%elem_of_nil. }
  assert (Hskip : forall s1, s1 ≡ s -> find_other now refused ids s1 = (o, s') ->
    (address_at s i = refused \/ admits now s i = false) ->
    match o with
    | Some k => k ∈ i :: ids /\ address_at s k <> refused /\ admits now s k = true /\ admits now s' k = true
    | None => s' ≡ s /\ forall k, k ∈ i :: ids -> address_at s k = refused \/ admits now s k = false
    end).
  { intros s1 Heq H1 Hi. apply IH in H1. destruct o as [k|].
    - destruct (equiv_views now s1 s k Heq) as (_ & <- & _ & <-). destruct H1. split; [by right|done].
    - destruct H1 as [H1 H2]. split; [by etrans|]. intros k [->|Hk]%elem_of_cons; [done|].
      destruct (equiv_views now s1 s k Heq) as (_ & <- & _ & <-). auto. }
  destruct (String.eqb_spec (address_at s i) refused) as [Ha|Ha]; simpl in H; [by apply (Hskip s); auto|].
  pose proof (allow_at_answer now s i) as Hb. pose proof (allow_at_refused now s i) as Hr.
  pose proof (allow_at_admitted now s i i) as Had.
  destruct (allow_at now s i) as [b s1]; simpl in *. subst b.
  destruct (admits now s i) eqn:E; [|by apply (Hskip s1); auto].
  simplify_eq. split; [by left|auto].
Qed.

(** *** Picking *)

Definition in_range (sample : Z -> Z) : Prop := forall n, 0 < n -> 0 <= sample n < n.

Lemma round_robin_ok ids lb :
  ids <> [] -> exists i, 
    round_robin ids lb = Returns (Some i, mkLoadBalancer (endpoints lb) (policy lb) (u64_add (next_index lb) 1)) /\
    ids !! Z.to_nat (next_index lb mod Z.of_nat (length ids)) = Some i.
Proof.
  intros Hne. assert (Hl : 0 < Z.of_nat (length ids)) by (destruct ids; [done|simpl; lia]).
  destruct (index_in ids (next_index lb mod Z.of_nat (length ids))) as (i & Hi & Hlk);
    [by apply Z.mod_pos_bound|].
  exists i. split; [|done]. unfold round_robin. destruct ids; [done|]. unfold fetch_index. by rewrite Hi.
Qed.

(** [least_connections] keeps the first of the least seen so far. *)
Definition least s (ids : list nat) (i : nat) : Prop :=
  exists k, ids !! k = Some i /\
    forall j x, ids !! j = Some x ->
      active_at s i < active_at s x \/ active_at s i = active_at s x /\ (k <= j)%nat.

Lemma least_snoc s ids i x :
  least s ids i -> least s (ids ++ [x])%list (if active_at s x <? active_at s i then x else i).
Proof.
  intros (k & Hk & Hl). pose proof (lookup_lt_Some _ _ _ Hk) as Hlt.
  destruct (Z.ltb_spec (active_at s x) (active_at s i)).
  - exists (length ids). split; [by rewrite lookup_app_r, Nat.sub_diag by lia|].
    intros j y [Hj|[Hj Hy]]%lookup_app_Some; [destruct (Hl j y Hj) as [|[]]; left; lia|].
    apply list_lookup_singleton_Some in Hy as [? <-]. right. split; [done|lia].
  - exists k. split; [by apply lookup_app_l_Some|].
    intros j y [Hj|[Hj Hy]]%lookup_app_Some; [by apply Hl|].
    apply list_lookup_singleton_Some in Hy as [? <-].
    destruct (decide (active_at s i = active_at s x)); [right; split; [done|lia]|left; lia].
Qed.

Lemma least_connections_spec s ids :
  match least_connections s ids with Some i => least s ids i | None => ids = [] end.
Proof.
  induction ids as [|x ids IH] using rev_ind; [done|].
  unfold least_connections in *. rewrite foldl_app. simpl.
  destruct (foldl _ None ids) as [b|].
  - pose proof (least_snoc s ids b x IH) as Hs. by destruct (active_at s x <? active_at s b).
  - subst. simpl. exists 0%nat. split; [done|]. intros j y Hj.
    apply list_lookup_singleton_Some in Hj as [-> <-]. right. split; [done|lia].
Qed.

Lemma pick_ok sample s ids lb :
  in_range sample -> ids <> [] ->
  exists i n, pick sample s ids lb = Returns (Some i, mkLoadBalancer (endpoints lb) (policy lb) n) /\ i ∈ ids.
Proof.
  intros Hs Hne. assert (Hl : 0 < Z.of_nat (length ids)) by (destruct ids; [done|simpl; lia]).
  assert (Hrr : exists i n, round_robin ids lb = Returns (Some i, mkLoadBalancer (endpoints lb) (policy lb) n) /\ i ∈ ids).
  { destruct (round_robin_ok ids lb Hne) as (i & Hi & Hk). eexists i, _. split; [done|].
    by eapply list_elem_of_lookup_2. }
  unfold pick. destruct lb as [es p n]; simpl in *. destruct p; [done| | |done].
  - pose proof (least_connections_spec s ids) as Hlc. destruct (least_connections s ids) as [i|]; [|done].
    exists i, n. split; [done|]. destruct Hlc as (k & Hk & _). by eapply list_elem_of_lookup_2.
  - destruct (index_in ids (sample (Z.of_nat (length ids)))) as (i & Hi & Hk); [by apply Hs|].
    exists i, n. unfold random. destruct ids; [done|]. rewrite Hi. simpl. split; [done|].
    by eapply list_elem_of_lookup_2.
Qed.

(** *** Selecting *)

(** The endpoints a selection chooses among. *)
Definition candidates s lb : list nat := List.filter (healthy_at s) (endpoints lb).

Lemma candidates_spec s lb i : i ∈ candidates s lb <-> i ∈ endpoints lb /\ healthy_at s i = true.
Proof. unfold candidates. by rewrite !list_elem_of_In, filter_In. Qed.

(** A selection with candidates: it picks one and, if refused, searches. *)
Lemma select_cases sample now s lb :
  in_range sample -> candidates s lb <> [] ->
  exists c n, pick sample s (candidates s lb) lb =
      Returns (Some c, mkLoadBalancer (endpoints lb) (policy lb) n) /\
    c ∈ candidates s lb /\
    select sample now s lb =
      (if admits now s c
       then Returns (Some c, mkLoadBalancer (endpoints lb) (policy lb) n, (allow_at now s c).2)
       else let '(o, s') := find_other now (address_at s c) (candidates s lb) (allow_at now s c).2 in
            Returns (o, mkLoadBalancer (endpoints lb) (policy lb) n, s')).
Proof.
  intros Hs Hne. destruct (pick_ok sample s (candidates s lb) lb Hs Hne) as (c & n & Hp & Hc).
  exists c, n. split; [done|split; [done|]]. unfold select. fold (candidates s lb).
  destruct (candidates s lb) as [|x xs] eqn:E; [done|]. rewrite Hp. simpl outcome_bind. cbn iota beta.
  pose proof (allow_at_answer now s c) as Ha. destruct (allow_at_views now s c c) as (_ & Had & _).
  destruct (allow_at now s c) as [b s1]; simpl in Ha, Had |- *. subst b. rewrite Had.
  by destruct (admits now s c).
Qed.

(** Repeated selections at one time. *)
Fixpoint selects (k : nat) (sample : Z -> Z) (now : Instant) s lb : outcome (list (option nat) * LoadBalancer) :=
  match k with
  | O => Returns ([], lb)
  | S k => outcome_bind (select sample now s lb) (fun '(o, lb, s) =>
      outcome_bind (selects k sample now s lb) (fun '(os, lb) => Returns (o :: os, lb)))
  end.

(** Every endpoint of the balancer is healthy and admitted. *)
Definition all_available (now : Instant) s lb : Prop :=
  forall i, i ∈ endpoints lb -> healthy_at s i = true /\ admits now s i = true.

Lemma all_candidates now s lb : all_available now s lb -> candidates s lb = endpoints lb.
Proof.
  unfold all_available, candidates. induction (endpoints lb) as [|x l IH]; intros H; [done|]. simpl.
  destruct (H x) as [-> _]; [by left|]. f_equal. apply IH. intros i Hi. apply H. by right.
Qed.

(** With everything available, round-robin selections follow the counter. *)
Lemma selects_round_robin k sample now s lb :
  in_range sample -> (policy lb = RoundRobin \/ policy lb = ConsistentHash) ->
  endpoints lb <> [] -> all_available now s lb ->
  exists os, selects k sample now s lb =
      Returns (os, mkLoadBalancer (endpoints lb) (policy lb) (indices k (next_index lb) (Z.of_nat (length (endpoints lb)))).2) /\
    os = (fun j => endpoints lb !! Z.to_nat j) <$> (indices k (next_index lb) (Z.of_nat (length (endpoints lb)))).1.
Proof.
  intros Hs Hp Hne. revert s lb Hp Hne. induction k as [|k IH]; intros s lb Hp Hne Hall.
  { exists []. by destruct lb. }
  pose proof (all_candidates now s lb Hall) as Hcand.
  destruct (select_cases sample now s lb Hs) as (c & n & Hpick & Hc & Hsel); [by rewrite Hcand|].
  assert (Hrr : pick sample s (candidates s lb) lb = round_robin (candidates s lb) lb)
    by (unfold pick; destruct Hp as [-> | ->]; done).
  rewrite Hcand in Hrr, Hc. rewrite Hcand, Hrr in Hpick. clear Hrr.
  destruct (round_robin_ok (endpoints lb) lb Hne) as (i & Hi & Hk). rewrite Hi in Hpick.
  injection Hpick as -> <-. rewrite (proj2 (Hall c Hc)) in Hsel.
  set (lb1 := mkLoadBalancer (endpoints lb) (policy lb) (u64_add (next_index lb) 1)) in *.
  destruct (IH (allow_at now s c).2 lb1) as (os & Hos & Heq); [done|done| |].
  { intros j Hj. destruct (Hall j Hj) as [Hh Ha], (Hall c Hc) as [_ Hac].
    destruct (allow_at_views now s c j) as (-> & _ & _). split; [done|]. by apply allow_at_admitted. }
  exists (Some c :: os). cbn [selects]. rewrite Hsel. cbn [outcome_bind]. rewrite Hos. cbn [outcome_bind].
  subst lb1. simpl in *. unfold fetch_index. cbn [indices fst snd].
  destruct (indices k (u64_add (next_index lb) 1) (Z.of_nat (length (endpoints lb)))) as [js c']; simpl in *.
  split; [done|]. rewrite Heq, <-Hk. done.
Qed.

(** *** What a selection depends on *)

(** Endpoints that differ at most in weight and statistics. *)
Definition same_view (e e' : Endpoint) : Prop :=
  healthy e = healthy e' /\ address e = address e' /\
  active_connections e = active_connections e' /\ circuit_breaker e = circuit_breaker e'.

Lemma same_views_at s s' i :
  Forall2 same_view s s' ->
  healthy_at s i = healthy_at s' i /\ address_at s i = address_at s' i /\ active_at s i = active_at s' i.
Proof.
  intros H. apply Forall2_lookup with (i := i) in H. unfold healthy_at, address_at, active_at.
  destruct (s !! i), (s' !! i); inversion H as [? ? (? & ? & ? & _)|]; done.
Qed.

Lemma same_views_allow now s s' i :
  Forall2 same_view s s' ->
  (allow_at now s i).1 = (allow_at now s' i).1 /\ Forall2 same_view (allow_at now s i).2 (allow_at now s' i).2.
Proof.
  intros H. pose proof H as Hi. apply Forall2_lookup with (i := i) in Hi. unfold allow_at, allow_request.
  destruct (s !! i) as [e|], (s' !! i) as [e'|]; inversion Hi as [? ? (H1 & H2 & H3 & H4)|]; subst; [|done].
  rewrite <-H4. destruct (gate_allow now (circuit_breaker e)) as [b g]. simpl. split; [done|].
  apply Forall2_insert; [done|]. by split_and!.
Qed.

Lemma same_views_find_other now refused ids s s' :
  Forall2 same_view s s' -> (find_other now refused ids s).1 = (find_other now refused ids s').1.
Proof.
  revert s s'. induction ids as [|i ids IH]; intros s s' H; [done|]. simpl.
  destruct (same_views_at s s' i H) as (_ & -> & _).
  destruct (String.eqb _ _); simpl; [by apply IH|].
  destruct (same_views_allow now s s' i H) as [Hb Hs].
  destruct (allow_at now s i) as [b s1], (allow_at now s' i) as [b' s1']; simpl in *. subst b'.
  destruct b; [done|by apply IH].
Qed.

Lemma same_views_candidates s s' lb : Forall2 same_view s s' -> candidates s lb = candidates s' lb.
Proof. intros H. apply List.filter_ext. intros i. apply (same_views_at s s' i H). Qed.

Lemma same_views_pick sample s s' ids lb :
  Forall2 same_view s s' -> pick sample s ids lb = pick sample s' ids lb.
Proof.
  intros H. assert (Hl : least_connections s ids = least_connections s' ids).
  { unfold least_connections. generalize (@None nat). induction ids as [|i ids IH]; intros b; [done|].
    simpl. destruct (same_views_at s s' i H) as (_ & _ & ->). destruct b as [b|]; [|apply IH].
    destruct (same_views_at s s' b H) as (_ & _ & ->). apply IH. }
  unfold pick. by rewrite Hl.
Qed.

Lemma select_same_views sample now s s' lb :
  Forall2 same_view s s' ->
  match select sample now s lb, select sample now s' lb with
  | Returns (o, lb1, _), Returns (o', lb2, _) => o = o' /\ lb1 = lb2
  | Panics, Panics => True
  | _, _ => False
  end.
Proof.
  intros H. pose proof (same_views_candidates s s' lb H) as Hc. unfold candidates in Hc.
  unfold select. rewrite <-Hc. destruct (List.filter (healthy_at s) (endpoints lb)) as [|x xs]; [done|].
  rewrite (same_views_pick sample s s' (x :: xs) lb H).
  destruct (pick sample s' (x :: xs) lb) as [[[c|] lb']|]; simpl outcome_bind; cbn iota beta; try done.
  destruct (same_views_allow now s s' c H) as [Hb Hs].
  destruct (same_views_at _ _ c Hs) as (_ & Had & _).
  destruct (allow_at now s c) as [b s1], (allow_at now s' c) as [b' s1']; simpl in Hb, Hs, Had |- *.
  subst b'. destruct b; simpl; [done|]. rewrite <-Had.
  pose proof (same_views_find_other now (address_at s1 c) (x :: xs) s1 s1' Hs) as Hf. cbn [find_other] in Hf.
  destruct (if negb _ then _ else _) as [o s2], (if negb (String.eqb (address_at s1' x) _) then _ else _) as [o' s2'].
  by simpl in Hf.
Qed.

(** *** Sums of active connections *)

Definition active_sum s (ids : list nat) (acc : Z) : Z := foldl (fun acc i => u64_add acc (active_at s i)) acc ids.

Lemma active_snoc s ids i acc : active_sum s (ids ++ [i])%list acc = u64_add (active_sum s ids acc) (active_at s i).
Proof. unfold active_sum. by rewrite foldl_app. Qed.

Lemma active_ext s s' ids acc :
  (forall i, active_at s' i = active_at s i) -> active_sum s' ids acc = active_sum s ids acc.
Proof. intros H. induction ids as [|x ids IH] using rev_ind; [done|]. by rewrite !active_snoc, IH, H. Qed.

Lemma active_add s ids i acc : active_sum s ids (u64_add acc (active_at s i)) = u64_add (active_sum s ids acc) (active_at s i).
Proof.
  induction ids as [|x ids IH] using rev_ind; [done|]. rewrite !active_snoc, IH. unfold u64_add.
  rewrite !wrap64_add_l. f_equal. lia.
Qed.

Lemma active_comm s ids ids' acc : active_sum s ids (active_sum s ids' acc) = active_sum s ids' (active_sum s ids acc).
Proof.
  induction ids' as [|x ids' IH] using rev_ind; [done|]. by rewrite !active_snoc, active_add, IH.
Qed.

Lemma active_none s ids acc : (forall i, i ∈ ids -> active_at s i = 0) -> is_u64 acc -> active_sum s ids acc = acc.
Proof.
  intros H Hacc. induction ids as [|x ids IH] using rev_ind; [done|]. rewrite active_snoc, IH by set_solver.
  rewrite H by set_solver. unfold u64_add. rewrite Z.add_0_r. by apply wrap64_small.
Qed.

Lemma active_range s ids acc : is_u64 acc -> is_u64 (active_sum s ids acc).
Proof.
  intros H. induction ids as [|x ids IH] using rev_ind; [done|]. rewrite active_snoc. apply u64_add_range.
Qed.

End Facts.
End TransportFacts.

(** ** Properties *)

Import TransportFacts.

Section Properties.
Context {G : Gate} {GL : GateLaws G}.
Implicit Types (s : list Endpoint) (lb : LoadBalancer).

(** Selection never panics, keeps the endpoints and the policy of the
    balancer, and any endpoint it answers belongs to the balancer, is healthy, and
    its circuit breaker admits the request. *)
Theorem select_sound sample now s lb :
  in_range sample ->
  exists o lb' s', select sample now s lb = Returns (o, lb', s') /\
    endpoints lb' = endpoints lb /\ policy lb' = policy lb /\
    match o with
    | Some i => i ∈ endpoints lb /\ healthy_at s i = true /\ admits now s i = true
    | None => s' ≡ s
    end.
Proof.
  intros Hs. destruct (decide (candidates s lb = [])) as [E|Hne].
  { exists None, lb, s. unfold select. fold (candidates s lb). rewrite E. by split_and!. }
  destruct (select_cases sample now s lb Hs Hne) as (c & n & _ & Hc & ->).
  destruct (admits now s c) eqn:Ha.
  { eexists _, _, _. split; [done|]. simpl. apply candidates_spec in Hc as [? ?]. done. }
  destruct (find_other _ _ _ _) as [o s'] eqn:Ef. eexists _, _, _. split; [done|].
  apply find_other_spec in Ef. pose proof (allow_at_refused now s c Ha) as Heq.
  split; [done|split; [done|]]. destruct o as [i|].
  - destruct Ef as (Hi & _ & Had & _). apply candidates_spec in Hi as [? ?].
    destruct (equiv_views now _ _ i Heq) as (_ & _ & _ & Hv). rewrite Hv in Had. done.
  - destruct Ef as [H1 _]. by etrans.
Qed.

(** C10. When the addresses of the balancer's endpoints are distinct, selection
    fails only if it must: it answers nothing exactly when no endpoint is both
    healthy and admitted by its breaker, under every policy. *)
Theorem select_complete sample now s lb :
  in_range sample -> NoDup (address_at s <$> endpoints lb) ->
  exists o lb' s', select sample now s lb = Returns (o, lb', s') /\
    (o = None <-> forall i, i ∈ endpoints lb -> healthy_at s i = true -> admits now s i = false).
Proof.
  intros Hs Hnd. destruct (decide (candidates s lb = [])) as [E|Hne].
  { exists None, lb, s. unfold select. fold (candidates s lb). rewrite E. split; [done|]. split; [|done].
    intros _ i Hi Hh. exfalso. assert (i ∈ candidates s lb) by by apply candidates_spec.
    rewrite E in *. by apply (not_elem_of_nil i). }
  destruct (select_cases sample now s lb Hs Hne) as (c & n & _ & Hc & ->).
  pose proof (proj1 (candidates_spec s lb c) Hc) as [Hce Hch].
  destruct (admits now s c) eqn:Ha.
  { eexists _, _, _. split; [done|]. split; [done|]. intros H. rewrite H in Ha; done. }
  destruct (find_other _ _ _ _) as [o s'] eqn:Ef. eexists _, _, _. split; [done|].
  apply find_other_spec in Ef. pose proof (allow_at_refused now s c Ha) as Heq. destruct o as [i|].
  - split; [done|]. intros H. destruct Ef as (Hi & _ & Had & _). apply candidates_spec in Hi as [Hi Hh].
    destruct (equiv_views now _ _ i Heq) as (_ & _ & _ & Hv). rewrite Hv, (H i Hi Hh) in Had. done.
  - split; [|done]. intros _ i Hi Hh. destruct Ef as [_ H]. specialize (H i).
    destruct (equiv_views now _ _ i Heq) as (_ & Hadr & _ & Hv). rewrite Hadr, Hv in H.
    destruct H as [Hsame|]; [by apply candidates_spec| |done].
    apply list_elem_of_lookup in Hi as [k1 Hk1], Hce as [k2 Hk2].
    assert (k1 = k2) as <-; [|by simplify_eq].
    apply (NoDup_lookup _ _ _ (address_at s i) Hnd); rewrite list_lookup_fmap; [by rewrite Hk1|].
    rewrite Hk2. simpl. by rewrite Hsame.
Qed.

(** With every endpoint healthy and admitted, round robin (and consistent
    hashing, which falls back to it) is fair: [m] full turns select each endpoint
    exactly [m] times, as long as the 64-bit counter does not wrap. *)
Theorem round_robin_fair sample now s lb m i :
  in_range sample -> (policy lb = RoundRobin \/ policy lb = ConsistentHash) ->
  NoDup (endpoints lb) -> i ∈ endpoints lb -> all_available now s lb ->
  0 <= next_index lb -> next_index lb + Z.of_nat m * Z.of_nat (length (endpoints lb)) <= u64_modulus ->
  exists os lb', selects (m * length (endpoints lb)) sample now s lb = Returns (os, lb') /\
    count_if (fun o => bool_decide (o = Some i)) os = Z.of_nat m.
Proof.
  intros Hs Hp Hnd Hi Hall Hc Hm.
  assert (Hne : endpoints lb <> []) by (intros E; rewrite E in Hi; by apply not_elem_of_nil in Hi).
  destruct (selects_round_robin (m * length (endpoints lb)) sample now s lb Hs Hp Hne Hall) as (os & -> & ->).
  eexists _, _. split; [done|]. rewrite count_if_fmap.
  apply list_elem_of_lookup in Hi as [k Hk]. pose proof (lookup_lt_Some _ _ _ Hk) as Hlt.
  rewrite <-(indices_fair m (next_index lb) (Z.of_nat (length (endpoints lb))) (Z.of_nat k)) by lia.
  replace (Z.to_nat (Z.of_nat m * Z.of_nat (length (endpoints lb)))) with (m * length (endpoints lb))%nat by lia.
  apply count_if_ext_in. intros j Hj. apply indices_bound in Hj; [|lia].
  apply eq_iff_eq_true. rewrite bool_decide_eq_true, Z.eqb_eq. split; [|intros <-; by rewrite Nat2Z.id].
  intros Hj'. assert (Z.to_nat j = k) by (by apply (NoDup_lookup _ _ _ i Hnd)). lia.
Qed.

(** Under the least-connections policy the balancer first asks the healthy
    endpoint with the fewest active connections (the first of them), and answers it
    when its breaker admits the request. *)
Theorem least_connections_first sample now s lb :
  in_range sample -> policy lb = LeastConnections -> candidates s lb <> [] ->
  exists i, least s (candidates s lb) i /\
    (admits now s i = true -> select sample now s lb = Returns (Some i, lb, (allow_at now s i).2)).
Proof.
  intros Hs Hp Hne. destruct (select_cases sample now s lb Hs Hne) as (c & n & Hpick & Hc & Hsel).
  unfold pick in Hpick. rewrite Hp in Hpick. pose proof (least_connections_spec s (candidates s lb)) as Hl.
  injection Hpick as Hlc Hlb. rewrite Hlc in Hl. exists c. split; [done|]. intros Ha.
  by rewrite Hsel, Ha, Hp, <-Hlb.
Qed.

(** What callers do to an endpoint. *)
Inductive endpoint_call : Type :=
| Acquire | Release | Succeeded (response_time : Duration) | Failed (now : Instant)
| Ask (now : Instant) | SetHealthy (b : bool) | SetWeight (w : Z).

Definition endpoint_exec (c : endpoint_call) (e : Endpoint) : Endpoint :=
  match c with
  | Acquire => acquire_connection e
  | Release => release_connection e
  | Succeeded t => record_success t e
  | Failed now => record_failure now e
  | Ask now => (allow_request now e).2
  | SetHealthy b => set_healthy b e
  | SetWeight w => set_weight w e
  end.

Definition is_acquire (c : endpoint_call) : bool := match c with Acquire => true | _ => false end.
Definition is_release (c : endpoint_call) : bool := match c with Release => true | _ => false end.
Definition is_success (c : endpoint_call) : bool := match c with Succeeded _ => true | _ => false end.
Definition is_failure (c : endpoint_call) : bool := match c with Failed _ => true | _ => false end.

(** After any history of calls on a new endpoint, in any order: successes and
    failures are the numbers of recorded ones, the total is their sum, and the
    active connections are acquisitions minus releases, all modulo 2^64. So
    the active count is exact while releases match acquisitions, and one release too
    many turns it into 2^64 - 1. *)
Theorem endpoint_accounting addr now cs :
  let e := foldl (fun e c => endpoint_exec c e) (endpoint_new addr now) cs in
  successful_requests e = wrap64 (count_if is_success cs) /\
  failed_requests e = wrap64 (count_if is_failure cs) /\
  total_requests e = wrap64 (count_if is_success cs + count_if is_failure cs) /\
  active_connections e = wrap64 (count_if is_acquire cs - count_if is_release cs) /\
  (count_if is_acquire cs = count_if is_release cs - 1 -> active_connections e = u64_max).
Proof.
  enough (H : let e := foldl (fun e c => endpoint_exec c e) (endpoint_new addr now) cs in
    successful_requests e = wrap64 (count_if is_success cs) /\
    failed_requests e = wrap64 (count_if is_failure cs) /\
    total_requests e = wrap64 (count_if is_success cs + count_if is_failure cs) /\
    active_connections e = wrap64 (count_if is_acquire cs - count_if is_release cs)).
  { destruct H as (H1 & H2 & H3 & H4). split_and!; try done. intros Heq. rewrite H4, Heq.
    by replace (count_if is_release cs - 1 - count_if is_release cs) with (-1) by lia. }
  induction cs as [|c cs IH] using rev_ind; [done|]. cbv zeta in *.
  rewrite foldl_app. cbn [foldl]. destruct (foldl _ _ cs) as [a w act tot suc fal tim hl br lh].
  simpl in IH. destruct IH as (H1 & H2 & H3 & H4). rewrite !count_if_snoc.
  destruct c; simpl; unfold allow_request; simpl; try (destruct (gate_allow _ _)); simpl; subst;
    unfold u64_add, u64_sub; rewrite ?wrap64_add_l, ?wrap64_sub_l; split_and!; f_equal; lia.
Qed.

(** Adding a cluster allocates fresh, healthy endpoints for its addresses and
    disturbs nothing else: the name now means a balancer over exactly those
    addresses, every other cluster keeps its balancer, and every endpoint that
    existed keeps its state. A cluster that was never added selects nothing. *)
Theorem add_cluster_fresh name addrs p now t s :
  let '(t', s') := add_cluster name addrs p now t s in
  (exists lb, get_cluster name t' = Some lb /\ policy lb = p /\ next_index lb = 0 /\
     address_at s' <$> endpoints lb = addrs /\
     forall i, i ∈ endpoints lb -> healthy_at s' i = true /\ active_at s' i = 0 /\
       (length s <= i)%nat) /\
  (forall other, other <> name -> get_cluster other t' = get_cluster other t) /\
  (forall i e, s !! i = Some e -> s' !! i = Some e) /\
  (forall other sample, get_cluster other t = None -> other <> name ->
     select_endpoint sample now other t' s' = Returns (None, t', s')).
Proof.
  unfold add_cluster, from_addresses, get_cluster. simpl.
  assert (Hnew : forall k a, addrs !! k = Some a ->
    (s ++ map (fun a => endpoint_new a now) addrs)%list !! (length s + k)%nat = Some (endpoint_new a now)).
  { intros k a Hk. rewrite lookup_app_r by lia. replace (length s + k - length s)%nat with k by lia.
    change (map ?f) with (fmap (M := list) f). by rewrite list_lookup_fmap, Hk. }
  split; [|split; [|split]].
  - eexists. rewrite lookup_insert_eq. split; [done|]. simpl. split; [done|split; [done|split]].
    + apply list_eq. intros k. rewrite list_lookup_fmap.
      destruct (addrs !! k) as [a|] eqn:Ha.
      * rewrite lookup_seq_lt by (by eapply lookup_lt_Some). simpl. unfold address_at. by rewrite (Hnew k a Ha).
      * rewrite lookup_seq_ge by (by apply lookup_ge_None). done.
    + intros i Hi. apply elem_of_seq in Hi as [Hlo Hhi].
      destruct (lookup_lt_is_Some_2 addrs (i - length s)) as [a Ha]; [lia|].
      specialize (Hnew _ _ Ha). replace (length s + (i - length s))%nat with i in Hnew by lia.
      unfold healthy_at, active_at. by rewrite Hnew.
  - intros other Hne. by rewrite lookup_insert_ne.
  - intros i e Hi. by apply lookup_app_l_Some.
  - intros other sample Hn Hne. unfold select_endpoint, get_cluster. simpl.
    by rewrite lookup_insert_ne, Hn.
Qed.

(** Adding a cluster under a name in use drops the connections of the one it replaces
    from the statistics, however many of them are still open: the active
    connections counted are those of the other clusters. *)
Theorem replaced_connections_uncounted name addrs p now t s :
  let '(t', s') := add_cluster name addrs p now t s in
  pool_active_connections (transport_stats t' s') =
    pool_active_connections (transport_stats (mkTransport (config t) (delete name (clusters t)) (stats t)) s).
Proof.
  unfold transport_stats, add_cluster, from_addresses. simpl.
  set (s' := (s ++ map (fun a => endpoint_new a now) addrs)%list).
  assert (Hat : forall i, active_at s' i = active_at s i).
  { intros i. unfold active_at, s'. destruct (s !! i) as [e|] eqn:E; [by rewrite (lookup_app_l_Some _ _ _ _ E)|].
    apply lookup_ge_None in E. rewrite lookup_app_r by done. change (map ?f) with (fmap (M := list) f).
    rewrite list_lookup_fmap. by destruct (addrs !! _). }
  set (f := fun s (_ : string) lb acc => active_sum s (endpoints lb) acc).
  assert (Hf : forall n lb acc, f s' n lb acc = f s n lb acc) by (intros n lb acc; by apply active_ext).
  transitivity (map_fold (f s') 0 (<[name := load_balancer_new (seq (length s) (length addrs)) p]> (clusters t))); [done|].
  transitivity (map_fold (f s) 0 (delete name (clusters t))); [|done].
  rewrite <-insert_delete_eq, map_fold_insert_L; [|intros; apply active_comm|apply lookup_delete_eq].
  transitivity (map_fold (f s') 0 (delete name (clusters t))).
  - apply active_none; simpl.
    + intros i Hi%elem_of_seq. rewrite Hat. unfold active_at. by rewrite lookup_ge_None_2 by lia.
    + apply (map_fold_weak_ind (fun acc _ => is_u64 acc)); [done|]. intros n lb acc m _ Hacc. by apply active_range.
  - rewrite !map_fold_foldr. apply foldr_ext; [|done..]. intros [n lb] acc. apply (Hf n).
Qed.

(** The weights of endpoints take no part in any policy: changing them
    changes no selection. *)
Theorem select_ignores_weight (g : Endpoint -> Z) sample now s lb :
  let reweigh := fun e => set_weight (g e) e in
  match select sample now s lb, select sample now (reweigh <$> s) lb with
  | Returns (o, lb1, _), Returns (o', lb2, _) => o = o' /\ lb1 = lb2
  | Panics, Panics => True
  | _, _ => False
  end.
Proof.
  intros reweigh.
  apply (select_same_views sample now s (reweigh <$> s) lb). apply Forall2_fmap_r.
  apply Forall_Forall2_diag, Forall_true. intros e. by split_and!.
Qed.

End Properties.

(** ** The properties at concrete stores, with the circuit breaker as the gate *)

Definition two_endpoints : list (@Endpoint breaker_gate) :=
  [endpoint_new "http://a:1" 0; acquire_connection (endpoint_new "http://b:1" 0)].
Definition two_balancer (p : LoadBalancingPolicy) : LoadBalancer := load_balancer_new [0%nat; 1%nat] p.

Lemma first_sample : in_range (fun _ => 0).
Proof. intros n. lia. Qed.

Lemma two_distinct : NoDup (address_at two_endpoints <$> [0%nat; 1%nat]).
Proof. simpl. apply NoDup_cons. split; [|apply NoDup_singleton]. by intros ?%list_elem_of_singleton. Qed.

Lemma select_sound_witness :
  exists o lb' s', select (fun _ => 0) 5 two_endpoints (two_balancer Random) = Returns (o, lb', s') /\
    endpoints lb' = [0%nat; 1%nat].
Proof.
  destruct (select_sound (fun _ => 0) 5 two_endpoints (two_balancer Random) first_sample)
    as (o & lb' & s' & H & He & _). exists o, lb', s'. split; [exact H|exact He].
Defined.

Lemma select_complete_witness :
  exists o lb' s', select (fun _ => 0) 5 two_endpoints (two_balancer RoundRobin) = Returns (o, lb', s') /\
    (o = None <-> forall i, i ∈ [0%nat; 1%nat] -> healthy_at two_endpoints i = true ->
       admits 5 two_endpoints i = false).
Proof.
  apply (select_complete (fun _ => 0) 5 two_endpoints (two_balancer RoundRobin) first_sample).
  exact two_distinct.
Defined.

Lemma two_available now p : all_available now two_endpoints (two_balancer p).
Proof. intros i Hi. simpl in Hi. by apply elem_of_cons in Hi as [->|[->|?%elem_of_nil]%elem_of_cons]. Qed.

Lemma round_robin_fair_witness :
  exists os lb', selects 6 (fun _ => 0) 5 two_endpoints (two_balancer RoundRobin) = Returns (os, lb') /\
    count_if (fun o => bool_decide (o = Some 1%nat)) os = 3.
Proof.
  apply (round_robin_fair (fun _ => 0) 5 two_endpoints (two_balancer RoundRobin) 3 1%nat).
  - apply first_sample.
  - left. reflexivity.
  - repeat constructor; set_solver.
  - set_solver.
  - apply two_available.
  - simpl. lia.
  - simpl. words.
Defined.

Lemma least_connections_first_witness :
  exists i, least two_endpoints [0%nat; 1%nat] i /\
    (admits 5 two_endpoints i = true ->
     select (fun _ => 0) 5 two_endpoints (two_balancer LeastConnections) =
       Returns (Some i, two_balancer LeastConnections, (allow_at 5 two_endpoints i).2)).
Proof.
  apply (least_connections_first (fun _ => 0) 5 two_endpoints (two_balancer LeastConnections)).
  - apply first_sample.
  - reflexivity.
  - discriminate.
Defined.
