(* ===== verification/BalancerInterleaving.v ===== *)
(** * Selections and reports interleaved on one load balancer (src/src/transport.rs)

    A selection reads the health of every endpoint in turn, then draws from the shared
    counter, or reads the connection counts one by one, then asks breakers. The
    reports of other tasks (connections acquired and released, successes, failures,
    changes of health) interleave between these accesses. A call on an endpoint's
    breaker is one access here; [BalancedInterleaving.v] splits it too. *)

From Stdlib Require Import Ascii String SpecFloat.
From stdpp Require Import prelude gmap strings.
From S2P Require Import Prelude Tasks F64 RoundRobin Gate Router Transport.
Open Scope string_scope.
Open Scope Z_scope.

Module SharedBalancer.
Section Balancer.
Context {G : Gate}.

(** A load balancer and the endpoints it shares with its callers. *)
Record cells : Type := mkCells {
  store : list Endpoint;
  balancer : LoadBalancer
}.

(** The calls. [sample] stands for what the random generator of the task gives. *)
Inductive call : Type :=
| CSelect (sample : Z -> Z)
| CAcquire (i : nat)
| CRelease (i : nat)
| CSetHealthy (i : nat) (b : bool)
| CSuccess (i : nat) (response_time : Duration)
| CFailure (i : nat).

(** Where a task is: the access it performs next (or, at the end of a loop, a step
    of its own). [SelectFilter] has the endpoints
    still to read and the healthy ones seen; [SelectLeast] the best count seen. *)
Inductive pc : Type :=
| Begin (c : call)
| SelectFilter (sample : Z -> Z) (rest healthy : list nat)
| SelectPick (sample : Z -> Z) (healthy : list nat)
| SelectLeast (sample : Z -> Z) (rest healthy : list nat) (best : option (nat * Z))
| SelectAllow (sample : Z -> Z) (healthy : list nat) (ep : nat)
| SelectOther (sample : Z -> Z) (rest : list nat) (refused : string)
| SuccessCount (i : nat) (response_time : Duration)
| SuccessTime (i : nat) (response_time : Duration)
| SuccessBreaker (i : nat) (response_time : Duration)
| FailureCount (i : nat)
| FailureBreaker (i : nat)
| Done (c : call) (answer : outcome (option nat)).

Definition start (c : call) : pc := Begin c.

Definition is_done (p : pc) : bool := match p with Done _ _ => true | _ => false end.

(** The single accesses of the reports. *)
Definition on_store (f : Endpoint -> Endpoint) (i : nat) (sh : cells) : cells :=
  mkCells (alter f i (store sh)) (balancer sh).

Definition set_index (n : Z) (sh : cells) : cells :=
  mkCells (store sh) (mkLoadBalancer (endpoints (balancer sh)) (policy (balancer sh)) n).

Definition add_total (e : Endpoint) : Endpoint :=
  mkEndpoint (address e) (weight e) (active_connections e) (u64_add (total_requests e) 1)
    (successful_requests e) (failed_requests e) (total_response_time_us e) (healthy e)
    (circuit_breaker e) (last_health_check e).
Definition add_successful (e : Endpoint) : Endpoint :=
  mkEndpoint (address e) (weight e) (active_connections e) (total_requests e)
    (u64_add (successful_requests e) 1) (failed_requests e) (total_response_time_us e) (healthy e)
    (circuit_breaker e) (last_health_check e).
Definition add_failed (e : Endpoint) : Endpoint :=
  mkEndpoint (address e) (weight e) (active_connections e) (total_requests e)
    (successful_requests e) (u64_add (failed_requests e) 1) (total_response_time_us e) (healthy e)
    (circuit_breaker e) (last_health_check e).
Definition add_time (d : Duration) (e : Endpoint) : Endpoint :=
  mkEndpoint (address e) (weight e) (active_connections e) (total_requests e)
    (successful_requests e) (failed_requests e)
    (u64_add (total_response_time_us e) (wrap64 (as_micros d))) (healthy e)
    (circuit_breaker e) (last_health_check e).
Definition on_breaker (f : gate -> gate) (e : Endpoint) : Endpoint := set_breaker (f (circuit_breaker e)) e.

(** After the last health read: nothing, or the policy. *)
Definition filtered (sample : Z -> Z) (healthy : list nat) (p : LoadBalancingPolicy) : pc :=
  match healthy with
  | [] => Done (CSelect sample) (Returns None)
  | _ =>
      match p with
      | LeastConnections => SelectLeast sample healthy healthy None
      | _ => SelectPick sample healthy
      end
  end.

(** [min_by_key] keeps the first of the least keys. *)
Definition better (i : nat) (n : Z) (best : option (nat * Z)) : option (nat * Z) :=
  match best with
  | None => Some (i, n)
  | Some (b, m) => if n <? m then Some (i, n) else Some (b, m)
  end.

(** The chosen endpoint is asked next; an index out of range would panic. *)
Definition chosen (sample : Z -> Z) (healthy : list nat) (o : outcome nat) : pc :=
  match o with
  | Returns ep => SelectAllow sample healthy ep
  | Panics => Done (CSelect sample) Panics
  end.

Definition access (now : Instant) (p : pc) (sh : cells) : pc * cells :=
  let lb := balancer sh in
  match p with
  | Begin (CSelect sample) => (SelectFilter sample (endpoints lb) [], sh)
  | Begin (CAcquire i) => (Done (CAcquire i) (Returns None), on_store acquire_connection i sh)
  | Begin (CRelease i) => (Done (CRelease i) (Returns None), on_store release_connection i sh)
  | Begin (CSetHealthy i b) => (Done (CSetHealthy i b) (Returns None), on_store (set_healthy b) i sh)
  | Begin (CSuccess i d) => (SuccessCount i d, on_store add_total i sh)
  | Begin (CFailure i) => (FailureCount i, on_store add_total i sh)
  | SelectFilter sample [] seen => (filtered sample seen (policy lb), sh)
  | SelectFilter sample (i :: rest) seen =>
      (SelectFilter sample rest (seen ++ if healthy_at (store sh) i then [i] else [])%list, sh)
  | SelectPick sample ids =>
      match policy lb with
      | Random => (chosen sample ids (index ids (sample (Z.of_nat (length ids)))), sh)
      | _ =>
          let '(idx, next) := fetch_index (next_index lb) (Z.of_nat (length ids)) in
          (chosen sample ids (index ids idx), set_index next sh)
      end
  | SelectLeast sample (i :: rest) ids best =>
      (SelectLeast sample rest ids (better i (active_at (store sh) i) best), sh)
  | SelectLeast sample [] ids (Some (b, _)) => (SelectAllow sample ids b, sh)
  | SelectLeast sample [] ids None => (Done (CSelect sample) (Returns None), sh)
  | SelectAllow sample ids ep =>
      let '(b, s) := allow_at now (store sh) ep in
      let sh := mkCells s lb in
      if b then (Done (CSelect sample) (Returns (Some ep)), sh)
      else (SelectOther sample ids (address_at s ep), sh)
  | SelectOther sample [] refused => (Done (CSelect sample) (Returns None), sh)
  | SelectOther sample (i :: rest) refused =>
      if negb (String.eqb (address_at (store sh) i) refused) then
        let '(b, s) := allow_at now (store sh) i in
        let sh := mkCells s lb in
        if b then (Done (CSelect sample) (Returns (Some i)), sh) else (SelectOther sample rest refused, sh)
      else (SelectOther sample rest refused, sh)
  | SuccessCount i d => (SuccessTime i d, on_store add_successful i sh)
  | SuccessTime i d => (SuccessBreaker i d, on_store (add_time d) i sh)
  | SuccessBreaker i d => (Done (CSuccess i d) (Returns None), on_store (on_breaker gate_success) i sh)
  | FailureCount i => (FailureBreaker i, on_store add_failed i sh)
  | FailureBreaker i => (Done (CFailure i) (Returns None), on_store (on_breaker (gate_failure now)) i sh)
  | Done c a => (Done c a, sh)
  end.

End Balancer.
End SharedBalancer.

Module SharedBalancerFacts.
Import SharedBalancer TransportFacts.
Section Facts.
Context {G : Gate}.
Implicit Types (sh : cells) (p : pc).
Abbreviation sys_step := (Tasks.sys_step start is_done access).
Abbreviation solo := (Tasks.solo is_done access).

(** *** How long a call takes *)

(** The steps a call still has before it, on a balancer of [n] endpoints. *)
Definition remaining_steps (n : nat) (p : pc) : nat :=
  match p with
  | Begin (CSelect _) => 3 * n + 6
  | SelectFilter _ rest seen => length rest + 2 * (length rest + length seen) + 5
  | SelectPick _ ids => length ids + 3
  | SelectLeast _ rest ids _ => length rest + length ids + 4
  | SelectAllow _ ids _ => length ids + 2
  | SelectOther _ rest _ => length rest + 1
  | Begin (CSuccess _ _) => 4
  | SuccessCount _ _ => 3
  | SuccessTime _ _ => 2
  | SuccessBreaker _ _ => 1
  | Begin (CFailure _) => 3
  | FailureCount _ => 2
  | FailureBreaker _ => 1
  | Begin _ => 1
  | Done _ _ => 0
  end.

Lemma chosen_steps sample ids o n : (remaining_steps n (chosen sample ids o) <= length ids + 2)%nat.
Proof. destruct o; simpl; lia. Qed.

Lemma steps_decrease n now p sh :
  length (endpoints (balancer sh)) = n -> is_done p = false ->
  (remaining_steps n (access now p sh).1 < remaining_steps n p)%nat.
Proof.
  intros Hn Hd. destruct p as [[]|sample [|i rest] seen|sample ids|sample [|i rest] ids [[b m]|]|sample ids ep|sample [|i rest] refused
    | | | | | |]; simpl; try done; try lia.
  - unfold filtered. destruct seen; simpl; [lia|]. case_match; simpl; lia.
  - rewrite length_app. destruct (healthy_at _ _); simpl; lia.
  - pose proof (fun o => chosen_steps sample ids o n) as H. destruct (policy _); simpl;
      (eapply Nat.le_lt_trans; [apply H|lia]).
  - destruct (allow_at _ _ _) as [[] s]; simpl; lia.
  - destruct (negb _); [|simpl; lia]. destruct (allow_at _ _ _) as [[] s]; simpl; lia.
Qed.

Lemma access_endpoints now p sh :
  endpoints (balancer (access now p sh).2) = endpoints (balancer sh) /\
  policy (balancer (access now p sh).2) = policy (balancer sh).
Proof. destruct p; simpl; repeat case_match; done. Qed.

(** The accesses a task makes are at most those its position has before it. *)
Lemma balancer_steps_bounded s es s' i p :
  steps sys_step s es s' -> tasks s !! i = Some p ->
  let n := length (endpoints (balancer (shared s))) in
  exists p', tasks s' !! i = Some p' /\
    count_if (is_run i) es + Z.of_nat (remaining_steps n p') <= Z.of_nat (remaining_steps n p).
Proof.
  intros Hs Hp n.
  destruct (accesses_bounded_by start is_done access (fun sh => length (endpoints (balancer sh)) = n)
    (fun k p => remaining_steps n p = k)) with s es s' i p (remaining_steps n p) as (p' & k & Hp' & <- & Hle);
    try done.
  - intros now q sh k Hn <- Hd. split; [by rewrite (proj1 (access_endpoints now q sh))|].
    eexists. split; [|done]. by apply steps_decrease.
  - intros m. by eexists.
  - split; [done|]. apply Forall_true. intros q. by eexists.
  - by exists p'.
Qed.

(** The call a task runs. *)
Definition call_of (p : pc) : call :=
  match p with
  | Begin c | Done c _ => c
  | SelectFilter sample _ _ | SelectPick sample _ | SelectLeast sample _ _ _
  | SelectAllow sample _ _ | SelectOther sample _ _ => CSelect sample
  | SuccessCount i d | SuccessTime i d | SuccessBreaker i d => CSuccess i d
  | FailureCount i | FailureBreaker i => CFailure i
  end.

Lemma call_kept now p sh : call_of (access now p sh).1 = call_of p.
Proof.
  destruct p; simpl; unfold filtered, chosen, index; repeat case_match; done.
Qed.

(** *** Selections are sound *)

(** [ok] holds of the endpoints that have been healthy; a selection only handles
    those, and a report that an endpoint is healthy only concerns those. *)
Section Sound.
Context (ids : list nat) (ok : nat -> Prop).

Definition usable (i : nat) : Prop := i ∈ ids /\ ok i.

Definition pc_ok (p : pc) : Prop :=
  match p with
  | Begin (CSelect sample) => in_range sample
  | Begin (CSetHealthy i b) => b = true -> ok i
  | SelectFilter sample rest seen => in_range sample /\ rest ⊆ ids /\ Forall usable seen
  | SelectPick sample l => in_range sample /\ l <> [] /\ Forall usable l
  | SelectLeast sample rest l best => Forall usable rest /\ Forall usable l /\
      match best with Some (b, _) => usable b | None => True end
  | SelectAllow sample l ep => Forall usable l /\ usable ep
  | SelectOther sample rest _ => Forall usable rest
  | Done (CSelect _) a => match a with Returns (Some i) => usable i | Returns None => True | Panics => False end
  | _ => True
  end.

Definition cells_ok (sh : cells) : Prop :=
  endpoints (balancer sh) = ids /\ forall i, healthy_at (store sh) i = true -> ok i.

Lemma index_chosen sample l j :
  Forall usable l -> 0 <= j < Z.of_nat (length l) -> pc_ok (chosen sample l (index l j)).
Proof.
  intros Hl Hj. destruct (index_in l j Hj) as (x & -> & Hx). simpl. split; [done|].
  by eapply Forall_lookup_1.
Qed.

(** An update of one endpoint that keeps its health. *)
Lemma on_store_ok f i sh :
  (forall e, healthy (f e) = healthy e) -> cells_ok sh -> cells_ok (on_store f i sh).
Proof.
  intros Hf [H1 H2]. split; [done|]. intros j Hj. apply H2. revert Hj. unfold healthy_at, is_healthy. simpl.
  destruct (decide (i = j)) as [->|Hne].
  - rewrite list_lookup_alter_eq. destruct (store sh !! j) as [e|]; [|done]. simpl. by rewrite Hf.
  - by rewrite list_lookup_alter_ne.
Qed.

Lemma set_healthy_ok b i sh : (b = true -> ok i) -> cells_ok sh -> cells_ok (on_store (set_healthy b) i sh).
Proof.
  intros Hb [H1 H2]. split; [done|]. intros j Hj. revert Hj. unfold healthy_at, is_healthy. simpl.
  destruct (decide (i = j)) as [->|Hne].
  - rewrite list_lookup_alter_eq. destruct (store sh !! j) as [e|]; [|done]. exact Hb.
  - rewrite list_lookup_alter_ne by done. apply H2.
Qed.

Lemma allowed_ok now i sh : cells_ok sh -> cells_ok (mkCells (allow_at now (store sh) i).2 (balancer sh)).
Proof.
  intros [H1 H2]. split; [done|]. intros j Hj. apply H2. simpl in Hj.
  by destruct (allow_at_views now (store sh) i j) as (<- & _).
Qed.

Lemma access_pc_ok now p sh :
  cells_ok sh -> pc_ok p -> cells_ok (access now p sh).2 /\ pc_ok (access now p sh).1.
Proof.
  intros Hsh Hp. pose proof Hsh as [Hids Hhl].
  destruct p as [[]|sample [|i rest] seen|sample l|sample [|i rest] l best|sample l ep|sample [|i rest] refused
    | | | | | |[] a]; simpl in *; try (by split); rewrite ?Hids;
    try (split; [by apply on_store_ok|done]).
  - split; [done|]. split; [done|]. by split.
  - split; [by apply set_healthy_ok|done].
  - destruct Hp as (Hs & _ & Hseen). split; [done|]. unfold filtered. destruct seen as [|x seen]; [done|].
    case_match; simpl; by split_and!.
  - destruct Hp as (Hs & Hrest & Hseen). split; [done|]. split; [done|]. split; [set_solver|].
    apply Forall_app_2; [done|]. destruct (healthy_at (store sh) i) eqn:E; [|done].
    constructor; [|done]. split; [set_solver|by apply Hhl].
  - destruct Hp as (Hs & Hne & Hl). assert (Hlen : 0 < Z.of_nat (length l)) by (destruct l; [done|simpl; lia]).
    destruct (policy _); simpl; (split; [done|]); apply index_chosen; try done;
      first [by apply Z.mod_pos_bound|by apply Hs].
  - destruct best as [[b m]|]; by destruct Hp as (? & ? & ?).
  - destruct Hp as (Hrest & Hl & Hb). apply Forall_cons in Hrest as [Hi Hrest]. split; [done|]. split; [done|].
    split; [done|]. unfold better. destruct best as [[b m]|]; [|done]. by destruct (_ <? _).
  - destruct Hp as [Hl Hep]. pose proof (allowed_ok now ep sh Hsh) as Hok.
    destruct (allow_at _ _ _) as [[] s]; by split.
  - apply Forall_cons in Hp as [Hi Hp]. destruct (negb _); [|by split].
    pose proof (allowed_ok now i sh Hsh) as Hok. destruct (allow_at _ _ _) as [[] s]; by split.
Qed.

(** Along any schedule whose calls are sound. *)
Definition event_ok (e : event call) : Prop :=
  match e with Spawn c => pc_ok (start c) | _ => True end.

Lemma reachable_pc_ok s es s' :
  Forall event_ok es -> steps sys_step s es s' ->
  cells_ok (shared s) -> Forall pc_ok (tasks s) -> cells_ok (shared s') /\ Forall pc_ok (tasks s').
Proof.
  intros Hes Hs Hsh Hps.
  refine (steps_invariant sys_step event_ok (fun s => cells_ok (shared s) /\ Forall pc_ok (tasks s))
    _ _ _ _ Hes (conj Hsh Hps) Hs).
  clear. intros s e s' He [Hsh Hps] Hstep.
  destruct Hstep as [sh t ps m|sh t ps i p p' sh' Hi Hd Hacc|sh t ps t' Ht]; simpl in *; [| |done].
  - split; [done|]. apply Forall_app_2; [done|]. by constructor.
  - destruct (access_pc_ok t p sh Hsh (Forall_lookup_1 _ _ _ _ Hps Hi)) as [Hsh' Hp']. rewrite Hacc in *.
    split; [done|]. by apply Forall_insert.
Qed.

End Sound.

(** *** A selection that runs alone *)

Lemma solo_filter n now sample rest seen sh :
  solo (length rest + S n) now (SelectFilter sample rest seen) sh =
  solo n now (filtered sample (seen ++ List.filter (healthy_at (store sh)) rest) (policy (balancer sh))) sh.
Proof.
  revert seen. induction rest as [|i rest IH]; intros seen; cbn [length Nat.add];
    rewrite solo_step by done; cbn [access].
  - by rewrite app_nil_r.
  - rewrite IH, <-app_assoc. cbn [List.filter]. by destruct (healthy_at (store sh) i).
Qed.

(** The loop over the connection counts. *)
Lemma solo_least n now sample rest ids best sh :
  solo (length rest + n) now (SelectLeast sample rest ids ((fun b => (b, active_at (store sh) b)) <$> best)) sh =
  solo n now (SelectLeast sample [] ids ((fun b => (b, active_at (store sh) b)) <$>
    foldl (fun best i =>
      match best with
      | None => Some i
      | Some b => if active_at (store sh) i <? active_at (store sh) b then Some i else Some b
      end) best rest)) sh.
Proof.
  revert best. induction rest as [|i rest IH]; intros best; [done|]. cbn [length Nat.add].
  rewrite solo_step by done. cbn [access foldl]. rewrite <-IH. f_equal. f_equal.
  destruct best as [b|]; simpl; [|done]. by destruct (_ <? _).
Qed.

(** The search for another endpoint. *)
Lemma solo_other n now sample rest refused sh :
  let '(o, s) := find_other now refused rest (store sh) in
  solo (length rest + S n) now (SelectOther sample rest refused) sh =
    (Done (CSelect sample) (Returns o), mkCells s (balancer sh)).
Proof.
  destruct sh as [s lb]; simpl. revert s. induction rest as [|i rest IH]; intros s; cbn [length Nat.add find_other].
  - rewrite solo_step by done. cbn [access]. by rewrite solo_done.
  - rewrite solo_step by done. cbn [access store balancer].
    destruct (negb _); [|apply IH]. destruct (allow_at now s i) as [[] s1]; [by rewrite solo_done|].
    apply IH.
Qed.

(** From the chosen endpoint on. *)
Lemma solo_allow n now sample ids ep sh :
  solo (length ids + S (S n)) now (SelectAllow sample ids ep) sh =
  let '(b, s) := allow_at now (store sh) ep in
  let '(o, s) := if negb b then find_other now (address_at s ep) ids s else (Some ep, s) in
  (Done (CSelect sample) (Returns o), mkCells s (balancer sh)).
Proof.
  replace (length ids + S (S n))%nat with (S (length ids + S n)) by lia.
  rewrite solo_step by done. cbn [access].
  destruct (allow_at now (store sh) ep) as [[] s]; cbn [negb]; [by rewrite solo_done|].
  pose proof (solo_other n now sample ids (address_at s ep) (mkCells s (balancer sh))) as Ho.
  cbn [store] in Ho. destruct (find_other _ _ _ _). exact Ho.
Qed.

(** From the choice on, with enough fuel: the search, or the panic. *)
Definition search (now : Instant) (ids : list nat) (ep : nat) (lb : LoadBalancer) (s : list Endpoint)
    : outcome (option nat * LoadBalancer * list Endpoint) :=
  let '(b, s) := allow_at now s ep in
  if negb b then
    let '(other, s) := find_other now (address_at s ep) ids s in Returns (other, lb, s)
  else Returns (Some ep, lb, s).

Definition agrees (sample : Z -> Z) (r : outcome (option nat * LoadBalancer * list Endpoint))
    (q : pc * cells) : Prop :=
  match r with
  | Returns (o, lb, s) => q = (Done (CSelect sample) (Returns o), mkCells s lb)
  | Panics => q.1 = Done (CSelect sample) Panics
  end.

Lemma solo_search k now sample ids ep sh :
  (length ids + 2 <= k)%nat ->
  agrees sample (search now ids ep (balancer sh) (store sh)) (solo k now (SelectAllow sample ids ep) sh).
Proof.
  intros Hk. replace k with (length ids + S (S (k - length ids - 2)))%nat by lia. rewrite solo_allow.
  unfold search. destruct (allow_at now (store sh) ep) as [[] s1]; cbn [negb]; [done|].
  by destruct (find_other now (address_at s1 ep) ids s1).
Qed.

Lemma solo_chosen k now sample ids (o : outcome nat) sh :
  (length ids + 2 <= k)%nat ->
  agrees sample (outcome_bind o (fun ep => search now ids ep (balancer sh) (store sh)))
    (solo k now (chosen sample ids o) sh).
Proof. intros Hk. destruct o; simpl; [by apply solo_search|by rewrite solo_done]. Qed.

(** The policy and what follows. *)
Lemma solo_filtered k now sample ids sh :
  (2 * length ids + 4 <= k)%nat ->
  agrees sample
    (match ids with
     | [] => Returns (None, balancer sh, store sh)
     | _ => outcome_bind (pick sample (store sh) ids (balancer sh)) (fun '(o, lb) =>
              match o with
              | Some ep => search now ids ep lb (store sh)
              | None => Returns (None, lb, store sh)
              end)
     end)
    (solo k now (filtered sample ids (policy (balancer sh))) sh).
Proof.
  intros Hk. destruct ids as [|x xs]; [rewrite solo_done by done; by destruct sh|].
  set (ids := x :: xs) in *. destruct sh as [s lb]. unfold pick. cbn [store balancer].
  replace (filtered sample ids (policy lb)) with
    (match policy lb with LeastConnections => SelectLeast sample ids ids None | _ => SelectPick sample ids end) by done.
  assert (Hrr : forall q, policy lb = q -> q <> LeastConnections -> q <> Random ->
    agrees sample
      (outcome_bind (round_robin ids lb) (fun '(o, lb) =>
         match o with Some ep => search now ids ep lb s | None => Returns (None, lb, s) end))
      (solo k now (SelectPick sample ids) (mkCells s lb))).
  { intros q Hq Hl Hr. destruct k as [|k]; [lia|]. rewrite solo_step by done. cbn [access balancer].
    rewrite Hq. unfold round_robin, ids at 1. fold ids.
    destruct (fetch_index (next_index lb) (Z.of_nat (length ids))) as [idx nxt] eqn:E.
    assert (Hc := solo_chosen k now sample ids (index ids idx) (set_index nxt (mkCells s lb)) ltac:(lia)).
    destruct q; try done; destruct (index ids idx); exact Hc. }
  destruct (policy lb) eqn:Ep; [by apply (Hrr _ eq_refl)| | |by apply (Hrr _ eq_refl)].
  - cbn [outcome_bind]. replace k with (length ids + (k - length ids))%nat by lia.
    pose proof (solo_least (k - length ids) now sample ids ids None (mkCells s lb)) as Hl.
    cbn [fmap option_fmap option_map store] in Hl. change (foldl _ None ids) with (least_connections s ids) in Hl.
    rewrite Hl. clear Hl.
    destruct (k - length ids)%nat as [|k'] eqn:Ek; [lia|]. rewrite solo_step by done.
    destruct (least_connections s ids) as [b|]; cbn [access fmap option_fmap option_map]; [apply (solo_search _ _ _ _ _ (mkCells s lb)); lia|].
    by rewrite solo_done.
  - destruct k as [|k]; [lia|]. rewrite solo_step by done. cbn [access balancer]. rewrite Ep.
    unfold random, ids at 1. fold ids.
    assert (Hc := solo_chosen k now sample ids (index ids (sample (Z.of_nat (length ids)))) (mkCells s lb) ltac:(lia)).
    destruct (index ids _); exact Hc.
Qed.

(** *** Well-formed cells *)

(** Every counter is a machine word and every reference of the balancer names an
    endpoint of the store. *)
Definition endpoint_typed (e : Endpoint) : Prop :=
  Forall is_u64 [active_connections e; total_requests e; successful_requests e; failed_requests e;
    total_response_time_us e].

Definition cells_typed (n : nat) (sh : cells) : Prop :=
  length (store sh) = n /\ Forall endpoint_typed (store sh) /\ is_u64 (next_index (balancer sh)) /\
  Forall (fun i => (i < n)%nat) (endpoints (balancer sh)).

Ltac typed := unfold endpoint_typed in *; rewrite ?Forall_cons in *; simpl in *; intuition auto with mesh.

Lemma typed_on_store n f i sh :
  (forall e, endpoint_typed e -> endpoint_typed (f e)) -> cells_typed n sh -> cells_typed n (on_store f i sh).
Proof.
  intros Hf (Hl & Hs & Hn & He). split; [by rewrite <-Hl; apply length_alter|]. split; [|done].
  apply Forall_alter; [done|]. intros e _. apply Hf.
Qed.

Lemma typed_allow n now i sh :
  cells_typed n sh -> cells_typed n (mkCells (allow_at now (store sh) i).2 (balancer sh)).
Proof.
  intros Hsh. destruct (store sh !! i) as [e|] eqn:E.
  - rewrite (allow_at_store _ _ _ _ E). destruct Hsh as (Hl & Hs & Hn & He).
    split; [by rewrite <-Hl; apply length_insert|]. split; [|done].
    apply Forall_insert; [done|]. exact (Forall_lookup_1 _ _ _ _ Hs E).
  - unfold allow_at. rewrite E. by destruct sh.
Qed.

Lemma typed_step n s e s' : True -> cells_typed n (shared s) -> sys_step s e s' -> cells_typed n (shared s').
Proof.
  intros _ Hsh Hstep. destruct Hstep as [sh t ps m|sh t ps i p p' sh' Hi Hd Hacc|sh t ps t' Ht]; simpl in *; [done| |done].
  replace sh' with (access t p sh).2 by by rewrite Hacc. clear Hacc Hi Hd.
  destruct p as [[]|sample [|i1 rest] seen|sample l|sample [|i1 rest] l best|sample l ep|sample [|i1 rest] refused
    | | | | | |]; simpl; try done; try (apply typed_on_store; [intros e He; typed|done]).
  - destruct Hsh as (? & ? & ? & ?). destruct (policy (balancer sh)); simpl; try done; (split; [done|]); (split; [done|]);
      split; simpl; auto with mesh.
  - by destruct best as [[]|].
  - pose proof (typed_allow n t ep sh Hsh). by destruct (allow_at t (store sh) ep) as [[] s1].
  - destruct (negb _); [|done]. pose proof (typed_allow n t i1 sh Hsh).
    by destruct (allow_at t (store sh) i1) as [[] s1].
Qed.

(** *** The counters of an endpoint *)

Section Accounts.
Context (j : nat).

(** The updates of endpoint [j]'s counters that a task has made. *)
Definition counted (p : pc) : bool :=
  match p with
  | Begin _ => false
  | _ => match call_of p with CSuccess k _ | CFailure k => Nat.eqb k j | _ => false end
  end.
Definition succeeded (p : pc) : bool :=
  match p with
  | SuccessTime k _ | SuccessBreaker k _ | Done (CSuccess k _) _ => Nat.eqb k j
  | _ => false
  end.
Definition failed (p : pc) : bool :=
  match p with FailureBreaker k | Done (CFailure k) _ => Nat.eqb k j | _ => false end.
Definition acquired (p : pc) : bool :=
  match p with Done (CAcquire k) _ => Nat.eqb k j | _ => false end.
Definition released (p : pc) : bool :=
  match p with Done (CRelease k) _ => Nat.eqb k j | _ => false end.

(** An endpoint whose counters are the given numbers, modulo [2^64]. *)
Definition tallies (a : string) (total succ fail active : Z) (e : Endpoint) : Prop :=
  address e = a /\ total_requests e = wrap64 total /\ successful_requests e = wrap64 succ /\
  failed_requests e = wrap64 fail /\ active_connections e = wrap64 active.

Definition tallies_at (a : string) (total succ fail active : Z) (s : list Endpoint) : Prop :=
  exists e, s !! j = Some e /\ tallies a total succ fail active e.

Lemma tallies_alter f i a total succ fail active d1 d2 d3 d4 s :
  (forall e, tallies a total succ fail active e ->
     tallies a (total + d1) (succ + d2) (fail + d3) (active + d4) (f e)) ->
  tallies_at a total succ fail active s ->
  let on (d : Z) := if Nat.eqb i j then d else 0 in
  tallies_at a (total + on d1) (succ + on d2) (fail + on d3) (active + on d4) (alter f i s).
Proof.
  intros Hf (e & He & Ht) on. unfold on. destruct (Nat.eqb_spec i j) as [->|Hne].
  - exists (f e). rewrite list_lookup_alter_eq, He. split; [done|by apply Hf].
  - exists e. rewrite list_lookup_alter_ne by done. rewrite !Z.add_0_r. by split.
Qed.

Lemma tallies_allow now a total succ fail active s i :
  tallies_at a total succ fail active s -> tallies_at a total succ fail active (allow_at now s i).2.
Proof.
  intros (e & He & Ht). destruct (s !! i) as [e1|] eqn:E; [|unfold allow_at; rewrite E; by exists e].
  rewrite (allow_at_store _ _ _ _ E). destruct (decide (i = j)) as [->|Hne].
  - eexists. rewrite list_lookup_insert_eq by (by eapply lookup_lt_Some). split; [done|].
    assert (e1 = e) as -> by congruence. exact Ht.
  - exists e. by rewrite list_lookup_insert_ne.
Qed.

Ltac tally :=
  let H := fresh in
  intros [] H; unfold tallies in *; simpl in *; destruct H as (? & ? & ? & ? & ?); subst;
  unfold u64_add, u64_sub; rewrite ?wrap64_add_l, ?wrap64_sub_l, ?Z.add_0_r; split_and!; f_equal; lia.

(** An update of the counters, and the change it makes to the counts. *)
Lemma recount f i sh a total succ fail active d1 d2 d3 d4 e1 e2 e3 e4 :
  tallies_at a total succ fail active (store sh) ->
  (forall e, tallies a total succ fail active e ->
     tallies a (total + d1) (succ + d2) (fail + d3) (active + d4) (f e)) ->
  (let on (d : Z) := if Nat.eqb i j then d else 0 in
   e1 = on d1 /\ e2 = on d2 /\ e3 = on d3 /\ e4 = on d4) ->
  tallies_at a (total + e1) (succ + e2) (fail + e3) (active + e4) (store (on_store f i sh)).
Proof. intros Ht Hf (-> & -> & -> & ->). by apply tallies_alter. Qed.

Ltac recounts d1 d2 d3 d4 :=
  eapply (recount _ _ _ _ _ _ _ _ d1 d2 d3 d4); [eassumption|tally|simpl; by destruct (Nat.eqb _ _)].

(** A selection leaves the counters alone. *)
Lemma select_counts p sample :
  call_of p = CSelect sample ->
  counted p = false /\ succeeded p = false /\ failed p = false /\ acquired p = false /\ released p = false.
Proof. destruct p as [[]| | | | | | | | | | |[] a]; simpl; try done; by split_and!. Qed.

Lemma select_tallies sample now p sh a total succ fail active :
  call_of p = CSelect sample -> tallies_at a total succ fail active (store sh) ->
  tallies_at a total succ fail active (store (access now p sh).2).
Proof.
  intros Ec Ht.
  destruct p as [[]|s [|i rest] seen|s l|s [|i rest] l best|s l ep|s [|i rest] refused| | | | | |[] x]; simpl in *; try done.
  - by destruct (policy _).
  - by destruct best as [[]|].
  - apply (tallies_allow now _ _ _ _ _ _ ep) in Ht. by destruct (allow_at now (store sh) ep) as [[] s1].
  - apply (tallies_allow now _ _ _ _ _ _ i) in Ht as Ht'. destruct (negb _); [|done].
    by destruct (allow_at now (store sh) i) as [[] s1].
Qed.

(** What an access adds to the counters is what its position adds to the counts. *)
Lemma access_tallies now p sh a total succ fail active :
  is_done p = false -> tallies_at a total succ fail active (store sh) ->
  let '(p', sh') := access now p sh in
  let d (f : pc -> bool) := Z.b2z (f p') - Z.b2z (f p) in
  tallies_at a (total + d counted) (succ + d succeeded) (fail + d failed) (active + (d acquired - d released)) (store sh').
Proof.
  intros Hd Ht. destruct (call_of p) as [sample|i|i|i b|i rt|i] eqn:Ec.
  { pose proof (call_kept now p sh) as Hk. pose proof (select_tallies sample now p sh _ _ _ _ _ Ec Ht) as Hs.
    destruct (access now p sh) as [p' sh']; simpl in Hk, Hs. rewrite Ec in Hk. cbv zeta beta.
    destruct (select_counts p sample Ec) as (-> & -> & -> & -> & ->).
    destruct (select_counts p' sample Hk) as (-> & -> & -> & -> & ->). by rewrite !Z.add_0_r. }
  all: destruct p as [c| | | | | |k d|k d|k d|k|k|]; try done; simpl in Ec; simplify_eq; cbn [access].
  - recounts 0 0 0 1.
  - recounts 0 0 0 (-1).
  - recounts 0 0 0 0.
  - recounts 1 0 0 0.
  - recounts 0 1 0 0.
  - recounts 0 0 0 0.
  - recounts 0 0 0 0.
  - recounts 1 0 0 0.
  - recounts 0 0 1 0.
  - recounts 0 0 0 0.
Qed.

(** When no report is in flight, each has counted itself once as a success or as a
    failure. *)
Lemma quiescent_counts ps :
  Forall (fun p => is_done p = true) ps ->
  count_if counted ps = count_if succeeded ps + count_if failed ps.
Proof.
  induction 1 as [|p ps Hp _ IH]; [done|]. rewrite !count_if_cons, IH.
  destruct p as [| | | | | | | | | | |[] x]; simpl in *; (done || lia).
Qed.

Definition accounted (a : string) (s : system cells pc) : Prop :=
  let count f := count_if f (tasks s) in
  tallies_at a (count counted) (count succeeded) (count failed) (count acquired - count released)
    (store (shared s)).

Lemma accounted_step a s e s' : True -> accounted a s -> sys_step s e s' -> accounted a s'.
Proof.
  intros _ Hs Hstep. unfold accounted in *.
  destruct Hstep as [sh t ps m|sh t ps i p p' sh' Hi Hd Hacc|sh t ps t' Ht]; simpl in *; [| |done].
  - rewrite !count_if_snoc. destruct m; simpl; by rewrite !Z.add_0_r.
  - pose proof (access_tallies t p sh _ _ _ _ _ Hd Hs) as Ha. rewrite Hacc in Ha. cbv zeta beta in Ha.
    rewrite !(count_if_insert _ _ _ _ _ Hi).
    refine (eq_ind _ (fun P => P) Ha _ _). f_equal; lia.
Qed.

End Accounts.

(** *** Turns *)

(** As long as every endpoint is healthy and its gate calm, the selections of a
    round-robin balancer take the endpoints in turn. *)
Section Turns.
Context {CG : CalmGate G} (ids : list nat) (c0 : Z).
Context (Hids : ids <> []) (Hnodup : NoDup ids).

(** The endpoint a selection has been given. *)
Definition given (p : pc) : option nat :=
  match p with
  | SelectAllow _ _ ep | Done (CSelect _) (Returns (Some ep)) => Some ep
  | _ => None
  end.

Definition turn_pc (p : pc) : Prop :=
  match p with
  | Begin (CSetHealthy _ b) => b = true
  | Begin (CFailure _) | FailureCount _ | FailureBreaker _ => False
  | SelectFilter _ rest seen => (seen ++ rest)%list = ids
  | SelectPick _ l => l = ids
  | SelectLeast _ _ _ _ | SelectOther _ _ _ => False
  | SelectAllow _ _ ep => ep ∈ ids
  | Done (CSelect _) a => exists ep, a = Returns (Some ep) /\ ep ∈ ids
  | _ => True
  end.

Definition calm_at (s : list Endpoint) (i : nat) : Prop :=
  exists e, s !! i = Some e /\ healthy e = true /\ calm (circuit_breaker e).

Definition turn_cells (sh : cells) : Prop :=
  endpoints (balancer sh) = ids /\
  (policy (balancer sh) = RoundRobin \/ policy (balancer sh) = ConsistentHash) /\
  forall i, i ∈ ids -> calm_at (store sh) i.

Lemma calm_alter f s i j :
  (forall e, healthy e = true -> calm (circuit_breaker e) -> healthy (f e) = true /\ calm (circuit_breaker (f e))) ->
  calm_at s j -> calm_at (alter f i s) j.
Proof.
  intros Hf (e & He & Hh & Hc). destruct (decide (i = j)) as [->|Hne].
  - exists (f e). rewrite list_lookup_alter_eq, He. split; [done|by apply Hf].
  - exists e. by rewrite list_lookup_alter_ne.
Qed.

Lemma turn_on_store f i sh :
  (forall e, healthy e = true -> calm (circuit_breaker e) -> healthy (f e) = true /\ calm (circuit_breaker (f e))) ->
  turn_cells sh -> turn_cells (on_store f i sh).
Proof. intros Hf (H1 & H2 & H3). split; [done|split; [done|]]. intros j Hj. by apply calm_alter, H3. Qed.

Lemma calm_allowed now s i :
  calm_at s i ->
  (allow_at now s i).1 = true /\ forall j, calm_at s j -> calm_at (allow_at now s i).2 j.
Proof.
  intros (e & He & Hh & Hc). destruct (calm_allow now _ Hc) as [Ha Hc'].
  rewrite allow_at_answer, (allow_at_store _ _ _ _ He). unfold admits. rewrite He. split; [done|].
  intros j (e1 & He1 & Hh1 & Hc1). destruct (decide (i = j)) as [->|Hne].
  - eexists. rewrite list_lookup_insert_eq by (by eapply lookup_lt_Some). split; [done|]. by split.
  - exists e1. by rewrite list_lookup_insert_ne.
Qed.

Lemma filtered_turn sample l q :
  l <> [] -> q = RoundRobin \/ q = ConsistentHash -> filtered sample l q = SelectPick sample l.
Proof. intros Hl Hq. destruct l; [done|]. by destruct Hq as [-> | ->]. Qed.

(** What an access does to the turns. *)
Lemma access_turn now p sh :
  turn_cells sh -> turn_pc p ->
  let '(p', sh') := access now p sh in
  turn_cells sh' /\ turn_pc p' /\
  draw ids given (next_index (balancer sh)) p (next_index (balancer sh')) p'.
Proof.
  intros Hsh Hp. pose proof Hsh as (He & Hpol & Hcalm).
  destruct p as [[]|sample [|i rest] seen|sample l|sample rest l best|sample l ep|sample rest refused
    | | | | | |[] a]; simpl in *; try done;
    try (split; [first [done|apply turn_on_store; [intros e Hh Hc; split; [done|by try apply calm_success]|done]]|];
      split; [done|by left]).
  - rewrite app_nil_r in Hp. rewrite filtered_turn by (by try rewrite Hp). split; [done|split; [done|by left]].
  - assert (Hi : i ∈ ids) by (rewrite <-Hp; set_solver).
    destruct (Hcalm i Hi) as (e & Hlk & Hh & _). unfold healthy_at, is_healthy. rewrite Hlk, Hh.
    split; [done|]. split; [by rewrite <-app_assoc|]. by left.
  - subst l. set (idx := next_index (balancer sh) mod Z.of_nat (length ids)).
    assert (Hr : 0 <= idx < Z.of_nat (length ids)) by apply Z.mod_pos_bound, (size_pos ids Hids).
    destruct (index_in ids idx Hr) as (ep & Hep & Hlk). pose proof (list_elem_of_lookup_2 _ _ _ Hlk) as Hin.
    destruct Hpol as [-> | ->]; cbn [chosen]; rewrite Hep; simpl; (split; [done|]); (split; [done|]); right;
      exists ep; by split_and!.
  - destruct (calm_allowed now (store sh) ep (Hcalm ep Hp)) as [Ha Hkeep].
    destruct (allow_at now (store sh) ep) as [b s1]. simpl in Ha, Hkeep. subst b.
    split; [split; [done|split; [done|auto]]|]. split; [by exists ep|]. by left.
Qed.

(** The counter and the endpoints given so far. *)
Definition turns (s : system cells pc) : Prop :=
  drawn ids c0 given (next_index (balancer (shared s))) (tasks s) /\
  Forall turn_pc (tasks s) /\ turn_cells (shared s).

Definition turn_event (e : event call) : Prop :=
  match e with Spawn (CFailure _) | Spawn (CSetHealthy _ false) => False | _ => True end.

Lemma turns_step s e s' : turn_event e -> turns s -> sys_step s e s' -> turns s'.
Proof.
  intros Hev (Hd & Hpcs & Hsh) Hstep. unfold turns.
  destruct Hstep as [sh t ps m|sh t ps i p p' sh' Hi Hnd Hacc|sh t ps t' Ht]; simpl in *; [| |done].
  - split; [by apply drawn_snoc|]. split; [|done].
    apply Forall_app_2; [done|]. constructor; [|done]. by destruct m as [| | |j []| |].
  - pose proof (access_turn t p sh Hsh (Forall_lookup_1 _ _ _ _ Hpcs Hi)) as Ha. rewrite Hacc in Ha.
    destruct Ha as (Hsh' & Hp' & Hg). split; [by eapply (drawn_insert ids c0 given Hids Hnodup)|].
    split; [by apply Forall_insert|done].
Qed.

End Turns.

End Facts.
End SharedBalancerFacts.

(** ** Properties *)

Import SharedBalancer SharedBalancerFacts TransportFacts.

(** A selection that runs alone does what the one-step model of [Transport.v]
    does, within three accesses per endpoint and six more: the same endpoint (or
    panic), the same counter and the same breakers. *)
Theorem solo_is_select {G : Gate} sample now s lb :
  let '(p, sh) := Tasks.solo is_done access (3 * length (endpoints lb) + 6) now (start (CSelect sample)) (mkCells s lb) in
  match select sample now s lb with
  | Returns (o, lb', s') => p = Done (CSelect sample) (Returns o) /\ sh = mkCells s' lb'
  | Panics => p = Done (CSelect sample) Panics
  end.
Proof.
  remember (length (endpoints lb)) as n eqn:En.
  replace (3 * n + 6)%nat with (S (length (endpoints lb) + S (2 * n + 4))) by lia.
  unfold start. rewrite solo_step by done. cbn [access balancer]. rewrite solo_filter. cbn [app store].
  set (ids := List.filter (healthy_at s) (endpoints lb)).
  assert (Hlen : (length ids <= n)%nat) by (subst n; apply filter_length_le).
  pose proof (solo_filtered (2 * n + 4) now sample ids (mkCells s lb) ltac:(lia)) as H.
  unfold select. fold ids. cbn [store balancer] in H. unfold search in H.
  destruct (Tasks.solo _ _ _ _ _ _) as [p sh]. unfold agrees in H.
  destruct ids; [by simplify_eq|].
  destruct (outcome_bind _ _) as [[[o lb'] s']|]; [by simplify_eq|done].
Qed.

Definition samples_in_range {G : Gate} (e : event call) : Prop :=
  match e with Spawn (CSelect sample) => in_range sample | _ => True end.

(** However selections and reports interleave, a selection ends within three
    accesses per endpoint and six more and never panics. The endpoint it returns is
    one of the balancer's and has been healthy: it was at the start or some task
    reported it healthy. A call in progress can always go on. *)
Theorem interleaved_selection {G : Gate} s0 lb t0 es s i sample es' s' :
  let step := Tasks.sys_step start is_done access in
  Forall samples_in_range (es ++ es') ->
  steps step (mkSystem (mkCells s0 lb) t0 []) es s -> tasks s !! i = Some (start (CSelect sample)) ->
  steps step s es' s' ->
  exists p, tasks s' !! i = Some p /\
    (is_done p = true -> exists o, p = Done (CSelect sample) (Returns o) /\
       forall ep, o = Some ep ->
         ep ∈ endpoints lb /\ (healthy_at s0 ep = true \/ Spawn (CSetHealthy ep true) ∈ (es ++ es')%list)) /\
    (is_done p = false -> exists s'', step s' (Run i) s'') /\
    count_if (is_run i) es' <= 3 * Z.of_nat (length (endpoints lb)) + 6 /\
    (count_if (is_run i) es' = 3 * Z.of_nat (length (endpoints lb)) + 6 -> is_done p = true).
Proof.
  intros step Hes Hs Hi Hs'.
  set (ok := fun ep => healthy_at s0 ep = true \/ Spawn (CSetHealthy ep true) ∈ (es ++ es')%list).
  assert (Hev : Forall (event_ok (endpoints lb) ok) (es ++ es')).
  { apply Forall_forall. intros [[]| |] He; try done; [by apply (proj1 (Forall_forall _ _) Hes _ He)|].
    intros ->. by right. }
  pose proof (steps_app _ _ _ _ _ _ Hs Hs') as Hall.
  destruct (reachable_pc_ok _ ok _ _ _ Hev Hall) as [_ Hpcs]; [split; [done|by left]|done|].
  assert (Hlb : endpoints (balancer (shared s)) = endpoints lb).
  { refine (proj1 (proj1 (reachable_pc_ok _ ok _ _ _ _ Hs _ _))); [by apply Forall_app in Hev as []|split; [done|by left]|done]. }
  destruct (balancer_steps_bounded _ _ _ i _ Hs' Hi) as (p & Hp & Hle). rewrite Hlb in Hle. cbn [remaining_steps start] in Hle.
  destruct (label_kept _ _ _ call_of _ _ _ i _ call_kept Hs' Hi) as (p1 & Hp1 & Hcall).
  assert (p1 = p) as -> by congruence. exists p. split; [done|]. split; [|split; [|split]].
  - intros Hd. destruct p; try done. simpl in Hcall. subst.
    pose proof (Forall_lookup_1 _ _ _ _ Hpcs Hp) as Ha. simpl in Ha. destruct answer as [o|]; [|done].
    exists o. split; [done|]. intros ep ->. exact Ha.
  - intros Hd. destruct s' as [sh t ps]. destruct (access t p sh) as [p' sh'] eqn:E. eexists. by econstructor.
  - lia.
  - intros Heq. assert (Hz : remaining_steps (length (endpoints lb)) p = 0%nat) by lia.
    destruct p as [[]| | | | | | | | | | |]; simpl in Hz; (done || lia).
Qed.

Lemma reachable_turns {G : Gate} {CG : CalmGate G} s0 lb t0 es s :
  endpoints lb <> [] -> NoDup (endpoints lb) -> turn_cells (endpoints lb) (mkCells s0 lb) ->
  Forall turn_event es -> steps (Tasks.sys_step start is_done access) (mkSystem (mkCells s0 lb) t0 []) es s ->
  turns (endpoints lb) (next_index lb) s.
Proof.
  intros Hne Hnd Hcalm Hes Hs.
  refine (steps_invariant _ turn_event _ _ _ _ (turns_step _ _ Hne Hnd) Hes _ Hs).
  split; [apply drawn_nil|split; [constructor|done]].
Qed.

(** C23. No update of an endpoint's statistics is lost, however the calls interleave:
    its totals are the numbers of reports that have counted themselves, and its
    active connections are those acquired less those released, modulo 2^64; with no
    report in flight the successes and the failures add up to the total. *)
Theorem interleaved_accounts {G : Gate} addrs p t0 es s j a :
  let '(lb, s0) := from_addresses addrs p t0 [] in
  steps (Tasks.sys_step start is_done access) (mkSystem (mkCells s0 lb) t0 []) es s -> addrs !! j = Some a ->
  exists e, store (shared s) !! j = Some e /\ address e = a /\
    total_requests e = wrap64 (count_if (counted j) (tasks s)) /\
    successful_requests e = wrap64 (count_if (succeeded j) (tasks s)) /\
    failed_requests e = wrap64 (count_if (failed j) (tasks s)) /\
    active_connections e = wrap64 (count_if (acquired j) (tasks s) - count_if (released j) (tasks s)) /\
    (Tasks.quiescent is_done s -> total_requests e = u64_add (successful_requests e) (failed_requests e)).
Proof.
  simpl. intros Hs Ha.
  assert (H : accounted j a s).
  { refine (steps_invariant _ (fun _ => True) _ _ _ _ (accounted_step j a) _ _ Hs); [by apply Forall_true|].
    exists (endpoint_new a t0). simpl. change (map ?f) with (fmap (M := list) f).
    by rewrite list_lookup_fmap, Ha. }
  destruct H as (e & He & Had & Ht & Hsu & Hf & Hac). exists e.
  do 6 (split; [done|]). intros Hq. rewrite Ht, Hsu, Hf. unfold u64_add.
  rewrite wrap64_add_l, Z.add_comm, wrap64_add_l, Z.add_comm. f_equal. by apply quiescent_counts.
Qed.

(** The shared cells stay well-formed in every interleaving: counters, sums of
    times and the round-robin counter are 64-bit words, and every reference of the
    balancer names an endpoint, one for each address. *)
Theorem interleaved_well_typed {G : Gate} addrs p t0 es s :
  let '(lb, s0) := from_addresses addrs p t0 [] in
  steps (Tasks.sys_step start is_done access) (mkSystem (mkCells s0 lb) t0 []) es s ->
  cells_typed (length addrs) (shared s).
Proof.
  simpl. intros Hs.
  refine (steps_invariant _ (fun _ => True) (fun s => cells_typed (length addrs) (shared s)) _ _ _
    (typed_step (length addrs)) _ _ Hs); [by apply Forall_true|].
  split; [apply length_map|]. split; [|split; [by split|]].
  - apply Forall_forall. intros e (a & -> & _)%list_elem_of_fmap. repeat constructor; done.
  - apply Forall_forall. intros i Hi%elem_of_seq. lia.
Qed.

(** C21. As long as every endpoint is healthy and its breaker calm, and no failure is
    reported, a round-robin balancer serves its endpoints in turn however the
    selections interleave: every finished selection has an endpoint, and the numbers
    of selections given to any two endpoints differ by at most one at every moment
    (until the counter wraps). *)
Theorem interleaved_turns {G : Gate} {CG : CalmGate G} s0 lb t0 es s :
  endpoints lb <> [] -> NoDup (endpoints lb) -> turn_cells (endpoints lb) (mkCells s0 lb) ->
  0 <= next_index lb -> next_index lb + Z.of_nat (length (tasks s)) <= u64_modulus ->
  Forall turn_event es -> steps (Tasks.sys_step start is_done access) (mkSystem (mkCells s0 lb) t0 []) es s ->
  (forall i sample a, tasks s !! i = Some (Done (CSelect sample) a) ->
     exists ep, a = Returns (Some ep) /\ ep ∈ endpoints lb) /\
  let share := count_if (was_given given) (tasks s) / Z.of_nat (length (endpoints lb)) in
  forall ep, ep ∈ endpoints lb -> share <= count_if (given_to given ep) (tasks s) <= share + 1.
Proof.
  intros Hne Hnd Hcalm H0 Hwrap Hes Hs.
  destruct (reachable_turns s0 lb t0 es s Hne Hnd Hcalm Hes Hs) as (Hd & Hpcs & Hsh).
  split; [intros i sample a Hi; exact (Forall_lookup_1 _ _ _ _ Hpcs Hi)|].
  intros share ep Hep. by apply (drawn_balanced _ _ _ _ _ ep Hd).
Qed.

(** Three selections of two endpoints, the first two of them interleaved. *)
Definition turn_store : list (@Endpoint breaker_gate) := [endpoint_new "http://a:1" 0; endpoint_new "http://b:1" 0].
Definition turn_balancer : LoadBalancer := load_balancer_new [0%nat; 1%nat] RoundRobin.
Definition turn_schedule : list (event call) :=
  repeat (Spawn (CSelect (fun _ => 0))) 3 ++ (runs 0 4 ++ runs 1 6 ++ runs 0 2 ++ runs 2 6).

Definition turn_start : system cells pc := mkSystem (mkCells turn_store turn_balancer) 0 [].
Definition turn_end : system cells pc :=
  Eval vm_compute in default turn_start (schedule start is_done access turn_schedule turn_start).

Lemma interleaved_turns_witness :
  schedule start is_done access turn_schedule turn_start = Some turn_end /\
  count_if (was_given given) (tasks turn_end) = 3 /\
  forall ep, ep ∈ [0%nat; 1%nat] -> 1 <= count_if (given_to given ep) (tasks turn_end) <= 1 + 1.
Proof.
  split; [reflexivity|]. split; [reflexivity|].
  apply (interleaved_turns turn_store turn_balancer 0 turn_schedule turn_end).
  - done.
  - repeat constructor; set_solver.
  - split; [reflexivity|split; [by left|]]. intros i Hi. simpl in Hi.
    apply elem_of_cons in Hi as [->|[->|?%elem_of_nil]%elem_of_cons]; [| |done]; by eexists.
  - done.
  - vm_compute. congruence.
  - repeat constructor.
  - by apply (schedule_sound start is_done access).
Defined.

(** A selection overlapped by the report of a failure. *)
Definition overlap_calls : list (event call) := [Spawn (CSelect (fun _ => 0)); Spawn (CFailure 0)].
Definition overlap_runs : list (event call) := runs 0 3 ++ runs 1 3 ++ runs 0 3.
Definition overlap_mid : system cells pc :=
  Eval vm_compute in default turn_start (schedule start is_done access overlap_calls turn_start).
Definition overlap_end : system cells pc :=
  Eval vm_compute in default turn_start (schedule start is_done access overlap_runs overlap_mid).

Lemma interleaved_selection_witness :
  schedule start is_done access overlap_calls turn_start = Some overlap_mid /\
  schedule start is_done access overlap_runs overlap_mid = Some overlap_end /\
  exists p, tasks overlap_end !! 0%nat = Some p /\
    (is_done p = true -> exists o, p = Done (CSelect (fun _ => 0)) (Returns o)).
Proof.
  split; [reflexivity|]. split; [reflexivity|].
  destruct (interleaved_selection turn_store turn_balancer 0 overlap_calls overlap_mid
    0%nat (fun _ => 0) overlap_runs overlap_end) as (p & Hp & Hd & _).
  - repeat constructor; simpl; lia.
  - by apply (schedule_sound start is_done access).
  - reflexivity.
  - by apply (schedule_sound start is_done access).
  - exists p. split; [exact Hp|]. intros H. destruct (Hd H) as (o & Ho & _). by exists o.
Defined.

Definition report_schedule : list (event call) :=
  [Spawn (CAcquire 1); Spawn (CSuccess 1 (from_millis 5)); Spawn (CFailure 1)] ++
  runs 0 1 ++ runs 1 2 ++ runs 2 2 ++ runs 1 2 ++ runs 2 1.
Definition report_end : system cells pc :=
  Eval vm_compute in default turn_start (schedule start is_done access report_schedule turn_start).

Lemma interleaved_accounts_witness :
  exists e, store (shared report_end) !! 1%nat = Some e /\ total_requests e = 2 /\ active_connections e = 1.
Proof.
  destruct (interleaved_accounts ["http://a:1"; "http://b:1"] RoundRobin 0 report_schedule report_end 1%nat "http://b:1")
    as (e & He & _ & Ht & _ & _ & Ha & _).
  - by apply (schedule_sound start is_done access).
  - reflexivity.
  - exists e. split; [exact He|]. split; [exact Ht|exact Ha].
Defined.

Lemma interleaved_well_typed_witness : cells_typed 2 (shared report_end).
Proof.
  apply (interleaved_well_typed ["http://a:1"; "http://b:1"] RoundRobin 0 report_schedule report_end).
  by apply (schedule_sound start is_done access).
Defined.
