(* ===== verification/TransportInterleaving.v ===== *)
(** * Clusters added while selections run (src/src/transport.rs)

    The clusters of a transport live in a concurrent map from names to shared load
    balancers. A selection looks its cluster up, keeps a reference to the balancer and
    selects in it; other tasks add clusters meanwhile, also under the same name. Each
    balancer is the shared balancer of [BalancerInterleaving.v]. *)

From Stdlib Require Import Ascii String SpecFloat.
From stdpp Require Import prelude gmap strings.
From S2P Require Import Prelude Tasks F64 RoundRobin Gate Router Transport BalancerInterleaving.
Open Scope string_scope.
Open Scope Z_scope.

Module SharedTransport.
Section Transport.
Context {G : Gate}.

(** The map, and the balancers that have been allocated: a balancer that has left the
    map lives on with the tasks that hold it. *)
Record cells : Type := mkCells {
  clusters : gmap string nat;
  balancers : list SharedBalancer.cells;
  connections : TransportStats
}.

Definition new : cells := mkCells ∅ [] (mkTransportStats 0 0).

(** The calls: a selection, a new cluster, the connection counters, and what a task does
    to the endpoints of a balancer it holds (there are no others). *)
Inductive call : Type :=
| SelectEndpoint (cluster : string) (sample : Z -> Z)
| AddCluster (name : string) (addrs : list string) (p : LoadBalancingPolicy)
| ConnectionCreated
| ConnectionClosed
| OnBalancer (b : nat) (c : SharedBalancer.call).

Inductive pc : Type :=
| Begin (c : call)
| InBalancer (b : nat) (p : SharedBalancer.pc)
| Done (c : call).

Definition start (c : call) : pc := Begin c.

Definition is_done (p : pc) : bool :=
  match p with Begin _ => false | InBalancer _ p => SharedBalancer.is_done p | Done _ => true end.

Definition access (now : Instant) (p : pc) (sh : cells) : pc * cells :=
  match p with
  | Begin (SelectEndpoint cluster sample) =>
      match clusters sh !! cluster with
      | Some b => (InBalancer b (SharedBalancer.start (SharedBalancer.CSelect sample)), sh)
      | None => (Done (SelectEndpoint cluster sample), sh)
      end
  | Begin (AddCluster name addrs p) =>
      let '(lb, s) := from_addresses addrs p now [] in
      (Done (AddCluster name addrs p),
       mkCells (<[name := length (balancers sh)]> (clusters sh))
         (balancers sh ++ [SharedBalancer.mkCells s lb]) (connections sh))
  | Begin ConnectionCreated =>
      (Done ConnectionCreated, mkCells (clusters sh) (balancers sh)
         (mkTransportStats (u64_add (created (connections sh)) 1) (closed (connections sh))))
  | Begin ConnectionClosed =>
      (Done ConnectionClosed, mkCells (clusters sh) (balancers sh)
         (mkTransportStats (created (connections sh)) (u64_add (closed (connections sh)) 1)))
  | Begin (OnBalancer b c) =>
      match balancers sh !! b with
      | Some _ => (InBalancer b (SharedBalancer.start c), sh)
      | None => (Done (OnBalancer b c), sh)
      end
  | InBalancer b p =>
      match balancers sh !! b with
      | Some lb =>
          let '(p, lb) := SharedBalancer.access now p lb in
          (InBalancer b p, mkCells (clusters sh) (<[b := lb]> (balancers sh)) (connections sh))
      | None => (InBalancer b p, sh)
      end
  | Done c => (Done c, sh)
  end.

End Transport.
End SharedTransport.

Module SharedTransportFacts.
Import SharedTransport.
Section Facts.
Context {G : Gate}.
Abbreviation sys_step := (Tasks.sys_step start is_done access).
Abbreviation lb_step := (Tasks.sys_step SharedBalancer.start SharedBalancer.is_done SharedBalancer.access).

Definition init (t : Instant) : system cells pc := mkSystem new t [].

(** The calls of a transport history that the balancer [b], of the cluster [name], sees. *)
Definition comes_from (name : string) (b : nat) (es : list (event call)) (e : event SharedBalancer.call) : Prop :=
  match e with
  | Spawn c =>
      (exists sample, c = SharedBalancer.CSelect sample /\ Spawn (SelectEndpoint name sample) ∈ es) \/
      Spawn (OnBalancer b c) ∈ es
  | _ => True
  end.

Lemma comes_from_snoc name b es e' e : comes_from name b es e -> comes_from name b (es ++ [e']) e.
Proof.
  destruct e as [c| |]; simpl; [|done..]. intros [(s & Hc & He)|He]; [left; exists s; split; [done|]|right];
    apply elem_of_app; by left.
Qed.

(** A state of the transport and one of the balancer alone: the same cells and clock, and
    the tasks in the balancer, [ids] naming each by its number in the transport. *)
Definition mirrors (b : nat) (ids : list nat) (s : system cells pc)
    (l : system SharedBalancer.cells SharedBalancer.pc) : Prop :=
  balancers (shared s) !! b = Some (shared l) /\ clock l = clock s /\ NoDup ids /\
  Forall2 (fun i p => tasks s !! i = Some (InBalancer b p)) ids (tasks l) /\
  forall i p, tasks s !! i = Some (InBalancer b p) -> i ∈ ids.

(** What one access means to a balancer that exists: a task enters it, or performs an access
    of its own, or nothing. *)
Lemma access_cases now p sh b lb :
  balancers sh !! b = Some lb -> is_done p = false ->
  let '(p', sh') := access now p sh in
  (exists q, p = InBalancer b q /\ p' = InBalancer b (SharedBalancer.access now q lb).1 /\
     balancers sh' !! b = Some (SharedBalancer.access now q lb).2) \/
  balancers sh' !! b = Some lb /\ (forall q, p <> InBalancer b q) /\
    forall q, p' = InBalancer b q -> exists c, q = SharedBalancer.start c /\
      ((exists name sample, c = SharedBalancer.CSelect sample /\ p = Begin (SelectEndpoint name sample)) \/
       p = Begin (OnBalancer b c)).
Proof.
  intros Hb Hd. destruct p as [[name sample|name addrs pol| | |b' c]|b' p|c]; simpl in *; try done.
  - destruct (clusters sh !! name); right; (split; [done|split; [done|]]); intros q Hq; [|done].
    injection Hq as -> <-. eexists. split; [done|]. left. by eexists _, _.
  - right. split; [by apply lookup_app_l_Some|]. done.
  - by right.
  - by right.
  - destruct (balancers sh !! b'); right; (split; [done|split; [done|]]); intros q Hq; [|done].
    injection Hq as -> <-. eexists. split; [done|]. by right.
  - destruct (decide (b' = b)) as [->|Hne].
    + rewrite Hb. destruct (SharedBalancer.access now p lb) as [p1 lb1] eqn:E. left. exists p. rewrite E. simpl.
      split; [done|split; [done|]]. apply list_lookup_insert_eq. by eapply lookup_lt_Some.
    + assert (Hne' : forall p q, InBalancer b' p <> InBalancer b q) by congruence.
      destruct (balancers sh !! b') as [lb'|].
      * destruct (SharedBalancer.access now p lb') as [p1 lb1]. right. simpl. rewrite list_lookup_insert_ne by done.
        split; [done|]. split; [done|]. intros q Hq. by apply Hne' in Hq.
      * right. split; [done|]. split; [done|]. intros q Hq. by apply Hne' in Hq.
Qed.

(** Whether a task is in the balancer. *)
Lemma in_balancer b (p : pc) : (exists q, p = InBalancer b q) \/ forall q, p <> InBalancer b q.
Proof.
  destruct p as [c|b' q|c]; [by right| |by right].
  destruct (decide (b' = b)) as [->|Hne]; [left; by eexists|right; congruence].
Qed.

(** The events of a history keep a mirror. *)

Lemma mirrors_spawn b ids s l c :
  mirrors b ids s l -> mirrors b ids (mkSystem (shared s) (clock s) (tasks s ++ [start c])) l.
Proof.
  intros (Hb & Hc & Hnd & Hf & Hall). split_and!; try done; simpl.
  - eapply Forall2_impl; [exact Hf|]. intros i p Hi. by apply lookup_app_l_Some.
  - intros i p [Hi|[_ Hi]]%lookup_app_Some; [by eapply Hall|]. by apply list_lookup_singleton_Some in Hi as [_ [=]].
Qed.

Lemma mirrors_tick b ids s l t :
  mirrors b ids s l -> mirrors b ids (mkSystem (shared s) t (tasks s)) (mkSystem (shared l) t (tasks l)).
Proof. intros (Hb & Hc & Hnd & Hf & Hall). by split_and!. Qed.

(** Replacing a task that is not in the balancer. *)
Lemma others_kept b ids (ps : list pc) (qs : list SharedBalancer.pc) i p p' :
  ps !! i = Some p -> (forall q, p <> InBalancer b q) ->
  Forall2 (fun i q => ps !! i = Some (InBalancer b q)) ids qs ->
  (i ∉ ids) /\ Forall2 (fun k q => (<[i := p']> ps) !! k = Some (InBalancer b q)) ids qs.
Proof.
  intros Hi Hp Hf. assert (Hni : i ∉ ids).
  { intros [j Hj]%list_elem_of_lookup. destruct (Forall2_lookup_l _ _ _ _ _ Hf Hj) as (q & _ & Hq).
    rewrite Hi in Hq. injection Hq as ->. by eapply Hp. }
  split; [done|]. clear -Hf Hni. induction Hf as [|j q ids qs Hj Hf IH]; constructor.
  - rewrite list_lookup_insert_ne; [done|]. set_solver.
  - apply IH. set_solver.
Qed.

(** Replacing a task that is. *)
Lemma mirrored_run b ids (ps : list pc) (qs : list SharedBalancer.pc) i j q :
  NoDup ids -> ids !! j = Some i -> (i < length ps)%nat ->
  Forall2 (fun i q => ps !! i = Some (InBalancer b q)) ids qs ->
  Forall2 (fun k r => (<[i := InBalancer b q]> ps) !! k = Some (InBalancer b r)) ids (<[j := q]> qs).
Proof.
  intros Hnd Hj Hlt Hf. apply Forall2_lookup. intros k. pose proof (Forall2_length _ _ _ Hf) as Hlen.
  pose proof (proj1 (Forall2_lookup _ _ _) Hf k) as Hk. destruct (decide (j = k)) as [->|Hne].
  - pose proof (lookup_lt_Some _ _ _ Hj). rewrite list_lookup_insert_eq by lia. rewrite Hj. constructor.
    by apply list_lookup_insert_eq.
  - rewrite list_lookup_insert_ne by done. destruct (ids !! k) as [x|] eqn:Ek; inversion Hk as [? r Hx|]; subst; constructor.
    rewrite list_lookup_insert_ne; [done|]. intros <-. apply Hne. by eapply (NoDup_lookup ids).
Qed.

Lemma mirrors_access name b ids es s l i p p' sh' :
  tasks s !! i = Some p -> is_done p = false -> access (clock s) p (shared s) = (p', sh') ->
  mirrors b ids s l -> (forall n, clusters (shared s) !! n = Some b -> n = name) ->
  (forall c, p = Begin c -> Spawn c ∈ es) ->
  exists es' ids' l', steps lb_step l es' l' /\ Forall (comes_from name b es) es' /\
    mirrors b ids' (mkSystem sh' (clock s) (<[i := p']> (tasks s))) l'.
Proof.
  intros Hi Hd Hacc (Hb & Hc & Hnd & Hf & Hall) Hname Hes.
  pose proof (access_cases (clock s) p (shared s) b (shared l) Hb Hd) as Hcases. rewrite Hacc in Hcases.
  assert (Hlt : (i < length (tasks s))%nat) by (by eapply lookup_lt_Some).
  destruct Hcases as [(q & -> & -> & Hb')|(Hb' & Hp & Henter)].
  - destruct (list_elem_of_lookup_1 _ _ (Hall _ _ Hi)) as [j Hj].
    destruct (Forall2_lookup_l _ _ _ _ _ Hf Hj) as (q' & Hq' & Heq). simplify_eq.
    destruct l as [lb t qs]; simpl in *. subst t. destruct (SharedBalancer.access (clock s) q lb) as [q1 lb1] eqn:E.
    exists [Run j], ids, (mkSystem lb1 (clock s) (<[j := q1]> qs)). unfold mirrors. split_and!; try done; simpl.
    + econstructor; [by econstructor|constructor].
    + repeat constructor.
    + by apply mirrored_run.
    + intros k r Hk. destruct (decide (i = k)) as [<-|Hne]; [by eapply list_elem_of_lookup_2|].
      rewrite list_lookup_insert_ne in Hk by done. by eapply Hall.
  - destruct (others_kept b ids _ _ i p p' Hi Hp Hf) as [Hni Hf'].
    assert (Hother : forall k r, k <> i -> (<[i := p']> (tasks s)) !! k = Some (InBalancer b r) -> k ∈ ids).
    { intros k r Hne Hk. rewrite list_lookup_insert_ne in Hk by done. by eapply Hall. }
    destruct (in_balancer b p') as [[q ->]|Hout].
    + destruct (Henter q eq_refl) as (c & -> & Hfrom).
      exists [Spawn c], (ids ++ [i])%list, (mkSystem (shared l) (clock l) (tasks l ++ [SharedBalancer.start c])).
      unfold mirrors. split_and!; try done; simpl.
      * destruct l. econstructor; [constructor|constructor].
      * apply Forall_singleton. simpl. destruct Hfrom as [(name' & sample & -> & ->)| ->]; [|right; by apply Hes].
        left. exists sample. split; [done|]. specialize (Hes _ eq_refl).
        simpl in Hacc. destruct (clusters (shared s) !! name') as [b'|] eqn:En; [|done].
        injection Hacc as -> <-. by rewrite (Hname _ En) in Hes.
      * apply NoDup_app. split; [done|]. split; [|apply NoDup_singleton].
        by intros x Hx ->%list_elem_of_singleton.
      * apply Forall2_app; [done|]. constructor; [|constructor]. by apply list_lookup_insert_eq.
      * intros k r Hk. apply elem_of_app. destruct (decide (k = i)) as [->|Hne]; [right; by left|left; by eapply Hother].
    + exists [], ids, l. unfold mirrors. split_and!; try done; [constructor|]. intros k r Hk.
      destruct (decide (k = i)) as [->|Hne]; [|by eapply Hother].
      simpl in Hk. rewrite list_lookup_insert_eq in Hk by done. injection Hk as ->. by destruct (Hout r).
Qed.

(** The invariant of every interleaving: names and tasks are about allocated balancers,
    and each balancer has a run of its own that it mirrors. *)
Definition reflected (es : list (event call)) (s : system cells pc) : Prop :=
  (forall name b, clusters (shared s) !! name = Some b -> (b < length (balancers (shared s)))%nat) /\
  (forall i b p, tasks s !! i = Some (InBalancer b p) -> (b < length (balancers (shared s)))%nat) /\
  (forall i c, tasks s !! i = Some (Begin c) -> Spawn c ∈ es) /\
  forall b, (b < length (balancers (shared s)))%nat ->
    exists name addrs p t0 es' ids l, Spawn (AddCluster name addrs p) ∈ es /\
      (forall n, clusters (shared s) !! n = Some b -> n = name) /\
      (let '(lb, s0) := from_addresses addrs p t0 [] in
       steps lb_step (mkSystem (SharedBalancer.mkCells s0 lb) t0 []) es' l) /\
      Forall (comes_from name b es) es' /\ mirrors b ids s l.

Lemma comes_from_mono name b es e es' :
  Forall (comes_from name b es) es' -> Forall (comes_from name b (es ++ [e])) es'.
Proof. intros H. eapply Forall_impl; [exact H|]. intros. by apply comes_from_snoc. Qed.

(** What an access does to the map: a new cluster, or nothing. *)
Definition fresh_balancer (addrs : list string) (p : LoadBalancingPolicy) (now : Instant) : SharedBalancer.cells :=
  let '(lb, s) := from_addresses addrs p now [] in SharedBalancer.mkCells s lb.

Lemma access_shape now p sh :
  is_done p = false ->
  let '(p', sh') := access now p sh in
  (forall c, p' <> Begin c) /\
  ((exists name addrs pol, p = Begin (AddCluster name addrs pol) /\ p' = Done (AddCluster name addrs pol) /\
      clusters sh' = <[name := length (balancers sh)]> (clusters sh) /\
      balancers sh' = (balancers sh ++ [fresh_balancer addrs pol now])%list) \/
   (clusters sh' = clusters sh /\ length (balancers sh') = length (balancers sh) /\
    forall b q, p' = InBalancer b q -> (exists q', p = InBalancer b q') \/ (b < length (balancers sh))%nat \/
      exists name, clusters sh !! name = Some b)).
Proof.
  intros Hd. destruct p as [[name sample|name addrs pol| | |b c]|b p|c]; simpl in *; try done.
  - destruct (clusters sh !! name) as [b|] eqn:E; (split; [done|]); right; (split; [done|split; [done|]]); [|done].
    intros b' q [= -> _]. right. right. by exists name.
  - split; [done|]. left. by exists name, addrs, pol.
  - split; [done|]. by right.
  - split; [done|]. by right.
  - destruct (balancers sh !! b) as [lb|] eqn:E; (split; [done|]); right; (split; [done|split; [done|]]); [|done].
    intros b' q [= -> _]. right. left. by eapply lookup_lt_Some.
  - destruct (balancers sh !! b) as [lb|] eqn:E; [destruct (SharedBalancer.access now p lb) as [p1 lb1]|]; simpl;
      (split; [done|]); right; rewrite ?length_insert; (split; [done|split; [done|]]); intros b' q [= -> _]; left; by eexists.
Qed.

(** A new cluster: its balancer has not been used, the others are as they were. *)
Lemma mirrors_fresh b addrs pol t sh ps :
  balancers sh !! b = Some (fresh_balancer addrs pol t) -> (forall i q, ps !! i <> Some (InBalancer b q)) ->
  mirrors b [] (mkSystem sh t ps) (mkSystem (fresh_balancer addrs pol t) t []).
Proof.
  intros Hb Hno. unfold mirrors. split_and!; try done; [apply NoDup_nil_2|]. intros i q Hi. by destruct (Hno i q).
Qed.

Lemma reflected_step es s e s' : reflected es s -> sys_step s e s' -> reflected (es ++ [e]) s'.
Proof.
  intros (Hn & Ht & Hbg & Hbs) Hstep.
  assert (Hin : forall x, x ∈ es -> x ∈ (es ++ [e])%list) by (intros x Hx; apply elem_of_app; by left).
  destruct Hstep as [sh t ps c|sh t ps i p p' sh' Hi Hd Hacc|sh t ps t' Hle]; simpl in *.
  - split; [done|]. split; [|split].
    + intros i b p [Hi|[_ Hi]]%lookup_app_Some; [by eapply Ht|]. by apply list_lookup_singleton_Some in Hi as [_ ?].
    + intros i c' [Hi|[_ Hi]]%lookup_app_Some; [apply Hin; by eapply Hbg|].
      apply list_lookup_singleton_Some in Hi as [_ [= ->]]. apply elem_of_app. right. by left.
    + intros b Hb. destruct (Hbs b Hb) as (name & addrs & p & t0 & es' & ids & l & Ha & Hc & Hr & Hf & Hm).
      exists name, addrs, p, t0, es', ids, l. split_and!; auto using comes_from_mono.
      by apply (mirrors_spawn b ids (mkSystem sh t ps)).
  - pose proof (access_shape t p sh Hd) as Hshape. rewrite Hacc in Hshape. destruct Hshape as (Hnb & Hshape).
    assert (Hbg' : forall j c, (<[i := p']> ps) !! j = Some (Begin c) -> Spawn c ∈ (es ++ [Run i])%list).
    { intros j c [(_ & Hp & _)|[_ Hj]]%list_lookup_insert_Some; [by destruct (Hnb c)|]. apply Hin. by eapply Hbg. }
    assert (Hold : forall b, (b < length (balancers sh))%nat -> (forall n, clusters sh' !! n = Some b -> clusters sh !! n = Some b) ->
      exists name addrs p t0 es' ids l, Spawn (AddCluster name addrs p) ∈ (es ++ [Run i])%list /\
        (forall n, clusters sh' !! n = Some b -> n = name) /\
        (let '(lb, s0) := from_addresses addrs p t0 [] in
         steps lb_step (mkSystem (SharedBalancer.mkCells s0 lb) t0 []) es' l) /\
        Forall (comes_from name b (es ++ [Run i])) es' /\ mirrors b ids (mkSystem sh' t (<[i := p']> ps)) l).
    { intros b Hb Hsame. destruct (Hbs b Hb) as (name & addrs & pol & t0 & es' & ids & l & Ha & Hc & Hr & Hf & Hm).
      destruct (mirrors_access name b ids es (mkSystem sh t ps) l i p p' sh' Hi Hd Hacc Hm Hc) as (es2 & ids' & l' & Hr' & Hf' & Hm').
      { intros c ->. by eapply Hbg. }
      exists name, addrs, pol, t0, (es' ++ es2)%list, ids', l'. split_and!; auto.
      - simpl in Hr |- *. by eapply steps_app.
      - by apply Forall_app_2; apply comes_from_mono. }
    unfold reflected. cbn [shared tasks].
    destruct Hshape as [(name & addrs & pol & -> & -> & Hcl & Hba)|(Hcl & Hlen & Hinb)].
    + assert (Hlt : forall b, (b < length (balancers sh))%nat -> (b < length (balancers sh'))%nat)
        by (intros b Hb; rewrite Hba, length_app; lia).
      split; [|split; [|split; [done|]]].
      * intros n b. rewrite Hcl. intros [[<- <-]|[_ Hb]]%lookup_insert_Some; [rewrite Hba, length_app; simpl; lia|].
        apply Hlt. by eapply Hn.
      * intros j b q [(_ & [=] & _)|[_ Hj]]%list_lookup_insert_Some. apply Hlt. by eapply Ht.
      * intros b Hb. destruct (decide (b < length (balancers sh))%nat) as [Hb'|Hb'].
        { apply Hold; [done|]. intros n. rewrite Hcl. intros [[<- <-]|[_ H]]%lookup_insert_Some; [lia|done]. }
        assert (b = length (balancers sh)) as -> by (rewrite Hba, length_app in Hb; simpl in Hb; lia).
        exists name, addrs, pol, t, [], [], (mkSystem (fresh_balancer addrs pol t) t []). split_and!.
        -- apply Hin. by eapply Hbg.
        -- intros n. rewrite Hcl. intros [[<- _]|[_ H]]%lookup_insert_Some; [done|]. apply Hn in H. lia.
        -- constructor.
        -- constructor.
        -- apply mirrors_fresh; [rewrite Hba; by apply list_lookup_middle|].
           intros j q [(_ & [=] & _)|[_ Hj]]%list_lookup_insert_Some. apply Ht in Hj. lia.
    + split; [|split; [|split; [done|]]].
      * intros n b. rewrite Hcl, Hlen. by apply Hn.
      * rewrite Hlen. intros j b q [(_ & -> & _)|[_ Hj]]%list_lookup_insert_Some; [|by eapply Ht].
        destruct (Hinb b q eq_refl) as [[q' ->]|[?|[n Hb]]]; [by eapply Ht|done|by eapply Hn].
      * intros b Hb. rewrite Hlen in Hb. apply Hold; [done|]. intros n. by rewrite Hcl.
  - split; [done|]. split; [done|]. split; [intros i c Hi; apply Hin; by eapply Hbg|].
    intros b Hb. destruct (Hbs b Hb) as (name & addrs & p & t0 & es' & ids & l & Ha & Hc & Hr & Hf & Hm).
    exists name, addrs, p, t0, (es' ++ [Tick t'])%list, ids, (mkSystem (shared l) t' (tasks l)). split_and!; auto.
    + simpl in Hr |- *. eapply steps_app; [exact Hr|]. destruct Hm as (_ & Hc' & _). destruct l as [lb tl qs]. simpl in *. subst tl.
      econstructor; [by constructor|constructor].
    + apply Forall_app_2; [by apply comes_from_mono|]. by apply Forall_singleton.
    + by apply (mirrors_tick b ids (mkSystem sh t ps)).
Qed.

Lemma reachable_reflected t es s : steps sys_step (init t) es s -> reflected es s.
Proof.
  revert es s. apply steps_ind_last; [|intros es s e s' _; apply reflected_step].
  unfold reflected, init, new. simpl. split; [by intros name b ?%lookup_empty_Some|]. split; [done|]. split; [done|]. lia.
Qed.

(** A task of a balancer runs a call that was spawned there. *)
Lemma calls_spawned (s0 : SharedBalancer.cells) t0 es l j p :
  steps lb_step (mkSystem s0 t0 []) es l -> tasks l !! j = Some p -> Spawn (SharedBalancerFacts.call_of p) ∈ es.
Proof.
  intros Hs. revert j p. revert es l Hs. apply (steps_ind_last lb_step (fun es l => forall j p, _ -> _)); [done|].
  intros es l e l' _ IH Hstep j p Hj. apply elem_of_app.
  destruct Hstep as [sh t ps c|sh t ps i q q' sh' Hi Hd Hacc|sh t ps t' Hle]; simpl in *.
  - apply lookup_app_Some in Hj as [Hj|[_ Hj]]; [left; by eapply IH|].
    apply list_lookup_singleton_Some in Hj as [_ <-]. right. by left.
  - left. apply list_lookup_insert_Some in Hj as [(_ & <- & _)|[_ Hj]]; [|by eapply IH].
    pose proof (SharedBalancerFacts.call_kept t q sh) as Hk. rewrite Hacc in Hk. simpl in Hk. rewrite Hk. by eapply IH.
  - left. by eapply IH.
Qed.

End Facts.
End SharedTransportFacts.

(** ** Properties *)

Import SharedTransport SharedTransportFacts.

(** C11. The transport is its load balancers side by side. However clusters are added (also
    again under the same name), looked up and used, each balancer ever allocated goes
    through a run of its own: from the addresses and the policy of one call of
    [add_cluster], with the selections of that name and what its holders do to it, ending
    in the cells, the clock and the tasks the transport has for it. A cluster that has been
    replaced lives on with the tasks that hold it. *)
Theorem transport_refines_balancers {G : Gate} t es s b :
  steps (Tasks.sys_step start is_done access) (init t) es s -> (b < length (balancers (shared s)))%nat ->
  exists name addrs p t0 es' ids l,
    Spawn (AddCluster name addrs p) ∈ es /\ (forall n, clusters (shared s) !! n = Some b -> n = name) /\
    (let '(lb, s0) := from_addresses addrs p t0 [] in
     steps (Tasks.sys_step SharedBalancer.start SharedBalancer.is_done SharedBalancer.access)
       (mkSystem (SharedBalancer.mkCells s0 lb) t0 []) es' l) /\
    Forall (comes_from name b es) es' /\ mirrors b ids s l.
Proof. intros Hs Hb. apply reachable_reflected in Hs as (_ & _ & _ & Hbs). by apply Hbs. Qed.

(** A selection through the transport, once finished, has not panicked, whatever clusters
    came and went meanwhile; the endpoint it returns is one of the addresses a cluster was
    added with, under the very name it was asked for (or it was made on the balancer
    itself). *)
Theorem transport_selections_sound {G : Gate} t es s i b sample a :
  (forall name sample, Spawn (SelectEndpoint name sample) ∈ es -> TransportFacts.in_range sample) ->
  (forall b sample, Spawn (OnBalancer b (SharedBalancer.CSelect sample)) ∈ es -> TransportFacts.in_range sample) ->
  steps (Tasks.sys_step start is_done access) (init t) es s ->
  tasks s !! i = Some (InBalancer b (SharedBalancer.Done (SharedBalancer.CSelect sample) a)) ->
  exists name addrs p, Spawn (AddCluster name addrs p) ∈ es /\
    (Spawn (SelectEndpoint name sample) ∈ es \/ Spawn (OnBalancer b (SharedBalancer.CSelect sample)) ∈ es) /\
    exists o, a = Returns o /\ forall ep, o = Some ep -> is_Some (addrs !! ep).
Proof.
  intros Hsel Hon Hs Hi. apply reachable_reflected in Hs as (_ & Ht & _ & Hbs).
  destruct (Hbs b (Ht _ _ _ Hi)) as (name & addrs & p & t0 & es' & ids & l & Hadd & _ & Hr & Hfrom & Hm).
  destruct Hm as (_ & _ & _ & Hf & Hall). destruct (list_elem_of_lookup_1 _ _ (Hall _ _ Hi)) as [j Hj].
  destruct (Forall2_lookup_l _ _ _ _ _ Hf Hj) as (q & Hq & Hiq). rewrite Hi in Hiq. injection Hiq as <-.
  simpl in Hr. set (all := seq 0 (length addrs)) in *.
  assert (Hev : Forall (SharedBalancerFacts.event_ok all (fun _ => True)) es').
  { eapply Forall_impl; [exact Hfrom|]. intros [c| |]; simpl; try done. intros [(sm & -> & Hsp)|Hsp]; simpl; [by eapply Hsel|].
    destruct c; simpl; try done. by eapply Hon. }
  destruct (SharedBalancerFacts.reachable_pc_ok all (fun _ => True) _ _ _ Hev Hr) as [_ Hpcs]; [by split|done|].
  pose proof (Forall_lookup_1 _ _ _ _ Hpcs Hq) as Ha. simpl in Ha.
  pose proof (calls_spawned _ _ _ _ _ _ Hr Hq) as Hsp. simpl in Hsp.
  exists name, addrs, p. split; [done|]. split.
  - apply (proj1 (Forall_forall _ _) Hfrom) in Hsp as [(sm & [= <-] & Hsp)|Hsp]; [by left|by right].
  - destruct a as [o|]; [|done]. exists o. split; [done|]. intros ep ->. destruct Ha as [Hep _].
    apply elem_of_seq in Hep. apply lookup_lt_is_Some_2. lia.
Qed.

(** A cluster replaced while a selection in it is under way. *)
Definition replaced_events : list (event call) :=
  [Spawn (AddCluster "api" ["http://a:1"; "http://b:1"] RoundRobin); Run 0;
   Spawn (SelectEndpoint "api" (fun _ => 0)); Run 1; Run 1;
   Spawn (AddCluster "api" ["http://c:1"] RoundRobin); Run 2;
   Spawn (SelectEndpoint "api" (fun _ => 0)); Run 3] ++ runs 1 5 ++ runs 3 5.
Definition replaced_end : system (cells (G := breaker_gate)) pc :=
  default (init 0) (schedule start is_done access replaced_events (init 0)).

Lemma replaced_runs : schedule start is_done access replaced_events (init 0) = Some replaced_end.
Proof.
  assert (H : match schedule start is_done access replaced_events (init (G := breaker_gate) 0) with
    Some _ => true | None => false end = true) by (vm_compute; reflexivity).
  unfold replaced_end. by destruct (schedule _ _ _ _ _).
Qed.

(** Both selections have ended: the first on the balancer it found, now out of the map. *)
Lemma replaced_tasks :
  tasks replaced_end !! 1%nat =
    Some (InBalancer 0 (SharedBalancer.Done (SharedBalancer.CSelect (fun _ => 0)) (Returns (Some 0%nat)))).
Proof. vm_compute. reflexivity. Qed.

Lemma replaced_sound e :
  e ∈ replaced_events -> match e with
    | Spawn (SelectEndpoint _ sample) | Spawn (OnBalancer _ (SharedBalancer.CSelect sample)) => sample = (fun _ => 0)
    | _ => True end.
Proof. revert e. apply Forall_forall. repeat constructor. Qed.

Lemma transport_refines_balancers_witness :
  clusters (shared replaced_end) !! "api" = Some 1%nat /\
  exists name addrs p, Spawn (AddCluster name addrs p) ∈ replaced_events /\ name = "api".
Proof.
  assert (Hc : clusters (shared replaced_end) !! "api" = Some 1%nat) by (vm_compute; reflexivity).
  split; [exact Hc|].
  destruct (transport_refines_balancers 0 replaced_events replaced_end 1) as (name & addrs & p & _ & _ & _ & _ & Ha & Hn & _).
  - apply (schedule_sound start is_done access), replaced_runs.
  - vm_compute. apply le_n.
  - exists name, addrs, p. split; [exact Ha|]. symmetry. exact (Hn "api" Hc).
Defined.

Lemma transport_selections_sound_witness :
  exists name addrs p, Spawn (AddCluster name addrs p) ∈ replaced_events /\ is_Some (addrs !! 0%nat).
Proof.
  destruct (transport_selections_sound 0 replaced_events replaced_end 1 0 (fun _ => 0) (Returns (Some 0%nat)))
    as (name & addrs & p & Ha & _ & o & Ho & Hep).
  - intros name sample Hin%replaced_sound. rewrite Hin. apply first_sample.
  - intros b sample Hin%replaced_sound. rewrite Hin. apply first_sample.
  - apply (schedule_sound start is_done access), replaced_runs.
  - apply replaced_tasks.
  - exists name, addrs, p. split; [exact Ha|]. apply Hep. injection Ho as <-. reflexivity.
Defined.
