(* ===== verification/StatsReading.v ===== *)
(** * The statistics of an endpoint read while reports run (src/src/transport.rs)

    [Endpoint::stats] loads six cells one after the other; the reports of other tasks
    update them in between. A reader changes nothing, so that a read is a sequence of
    moments of a run of [BalancerInterleaving.v]. *)

From Stdlib Require Import Ascii String SpecFloat.
From stdpp Require Import prelude gmap strings.
From S2P Require Import Prelude Tasks F64 RoundRobin Gate Router Transport BalancerInterleaving.
Open Scope string_scope.
Open Scope Z_scope.
Import SharedBalancer SharedBalancerFacts.

Module SharedStats.
Section Stats.
Context {G : Gate} (j : nat).
Abbreviation sys_step := (Tasks.sys_step start is_done access).
Implicit Types (s : system cells pc).

(** The loads of a reader, and what the other tasks do before each of them. *)
Inductive loads : system cells pc -> list (event call) -> list Endpoint -> system cells pc -> Prop :=
| loads_nil s : loads s [] [] s
| loads_cons s es s1 e es' l s' :
    steps sys_step s es s1 -> store (shared s1) !! j = Some e -> loads s1 es' l s' ->
    loads s (es ++ es') (e :: l) s'.

(** [stats], from what the endpoint is at each load. *)
Definition read_stats (l : list Endpoint) : option EndpointStats :=
  match l with
  | [e1; e2; e3; e4; e5; e6] =>
      let total := total_requests e1 in
      let total_time := total_response_time_us e2 in
      let avg_time :=
        if 0 <? total then f64_div (f64_div (of_Z total_time) (of_Z total)) (of_Z 1000) else of_Z 0 in
      Some {| stat_total_requests := total;
              stat_successful_requests := successful_requests e3;
              stat_failed_requests := failed_requests e4;
              stat_active_connections := active_connections e5;
              avg_response_time_ms := avg_time;
              stat_is_healthy := healthy e6 |}
  | _ => None
  end.

(** The reports about the endpoint that have begun, and that have ended. *)
Definition begun s : Z := count_if (counted j) (tasks s).
Definition ended s : Z := count_if (fun p => is_done p && counted j p) (tasks s).

(** *** Lemmas *)

Lemma counted_mono s es s' : steps sys_step s es s' -> begun s <= begun s'.
Proof.
  apply count_mono. intros now p sh Hd Hc. pose proof (call_kept now p sh) as Hk.
  destruct p as [c| | | | | | | | | | |]; try done; simpl in Hc; try (simpl; exact Hc).
Qed.

Lemma succeeded_mono s es s' :
  steps sys_step s es s' -> count_if (succeeded j) (tasks s) <= count_if (succeeded j) (tasks s').
Proof. apply count_mono. intros now p sh Hd Hc. by destruct p. Qed.

Lemma failed_mono s es s' :
  steps sys_step s es s' -> count_if (failed j) (tasks s) <= count_if (failed j) (tasks s').
Proof. apply count_mono. intros now p sh Hd Hc. by destruct p. Qed.

(** At any moment: the reports that have ended have made their second update, and only
    reports that have begun. *)
Lemma outcomes_between (ps : list pc) :
  count_if (fun p => is_done p && counted j p) ps <= count_if (succeeded j) ps + count_if (failed j) ps <= count_if (counted j) ps.
Proof.
  induction ps as [|p ps IH]; [done|]. rewrite !count_if_cons.
  enough (Z.b2z (is_done p && counted j p) <= Z.b2z (succeeded j p) + Z.b2z (failed j p) <= Z.b2z (counted j p)) by lia.
  destruct p as [[]| | | | | | | | | | |[] a]; simpl; try lia; destruct (Nat.eqb _ _); simpl; lia.
Qed.

(** Each load happens at a moment of the run. *)
Lemma loads_at s es l s' k e :
  loads s es l s' -> l !! k = Some e ->
  exists es1 s1 es2, steps sys_step s es1 s1 /\ steps sys_step s1 es2 s' /\ store (shared s1) !! j = Some e.
Proof.
  intros Hl. revert k. induction Hl as [s|s es s1 e1 es' l s' Hs He Hl IH]; intros k Hk; [done|].
  assert (Hend : exists es2, steps sys_step s1 es2 s').
  { clear -Hl. induction Hl as [s|s es s1 e es' l s' Hs He _ [es2 IH]]; [exists []; constructor|].
    exists (es ++ es2)%list. by eapply steps_app. }
  destruct k as [|k]; simpl in Hk.
  - simplify_eq. destruct Hend as [es2 Hs2]. by exists es, s1, es2.
  - destruct (IH k Hk) as (es1 & s2 & es2 & Hs1 & Hs2 & He2). exists (es ++ es1)%list, s2, es2.
    split; [by eapply steps_app|done].
Qed.

(** Nobody else performs an access. *)
Definition unshared (e : event call) : Prop := match e with Run _ => False | _ => True end.

Lemma unshared_steps s es s' : Forall unshared es -> steps sys_step s es s' -> shared s' = shared s.
Proof.
  intros Hu Hs. refine (steps_invariant sys_step unshared (fun s1 => shared s1 = shared s) _ _ _ _ Hu eq_refl Hs).
  intros s1 e s2 He Heq Hstep. by destruct Hstep.
Qed.

Lemma unshared_loads s es l s' :
  Forall unshared es -> loads s es l s' -> Forall (fun e => store (shared s) !! j = Some e) l.
Proof.
  intros Hu Hl. induction Hl as [s|s es s1 e es' l s' Hs He Hl IH]; [done|].
  apply Forall_app in Hu as [Hu Hu']. apply unshared_steps in Hs; [|done]. rewrite Hs in *. constructor; auto.
Qed.

(** What the accounts say at a load. *)
Lemma load_accounted a s es l s' k e :
  accounted j a s -> loads s es l s' -> l !! k = Some e -> begun s' <= u64_max ->
  begun s <= total_requests e <= begun s' /\
  count_if (succeeded j) (tasks s) <= successful_requests e <= count_if (succeeded j) (tasks s') /\
  count_if (failed j) (tasks s) <= failed_requests e <= count_if (failed j) (tasks s').
Proof.
  intros Ha Hl Hk Hmax. destruct (loads_at _ _ _ _ _ _ Hl Hk) as (es1 & s1 & es2 & Hs1 & Hs2 & He).
  assert (Ha1 : accounted j a s1).
  { refine (steps_invariant sys_step (fun _ => True) _ _ _ _ (accounted_step j a) _ Ha Hs1). by apply Forall_true. }
  destruct Ha1 as (e' & He' & _ & Ht & Hsu & Hf & _). assert (e' = e) as -> by congruence.
  pose proof (counted_mono _ _ _ Hs1). pose proof (counted_mono _ _ _ Hs2).
  pose proof (succeeded_mono _ _ _ Hs1). pose proof (succeeded_mono _ _ _ Hs2).
  pose proof (failed_mono _ _ _ Hs1). pose proof (failed_mono _ _ _ Hs2).
  pose proof (outcomes_between (tasks s1)). unfold begun in *.
  pose proof (count_if_nonneg (succeeded j) (tasks s1)). pose proof (count_if_nonneg (failed j) (tasks s1)).
  rewrite Ht, Hsu, Hf, !wrap64_small by (unfold is_u64; lia). lia.
Qed.

End Stats.
End SharedStats.

(** ** Properties *)

Import SharedStats.

(** C24. What the statistics of an endpoint can say while reports run. Successes and failures
    together are at least the reports that had ended when the read began and at most those
    that have begun when it ends, and so is the total, which is read first: they differ by
    no more than the reports under way at some moment of the read. When no task performs an
    access meanwhile, the read is [endpoint_stats]. *)
Theorem stats_read_bounds {G : Gate} addrs p t0 es s j a es' l s' st :
  let '(lb, s0) := from_addresses addrs p t0 [] in
  steps (Tasks.sys_step start is_done access) (mkSystem (mkCells s0 lb) t0 []) es s -> addrs !! j = Some a ->
  loads j s es' l s' -> read_stats l = Some st -> begun j s' <= u64_max ->
  ended j s <= stat_successful_requests st + stat_failed_requests st <= begun j s' /\
  begun j s <= stat_total_requests st <= begun j s' /\
  (Forall unshared es' -> exists e, store (shared s) !! j = Some e /\ st = endpoint_stats e).
Proof.
  simpl. intros Hs Ha Hl Hst Hmax.
  assert (H : accounted j a s).
  { refine (steps_invariant _ (fun _ => True) _ _ _ _ (accounted_step j a) _ _ Hs); [by apply Forall_true|].
    exists (endpoint_new a t0). simpl. change (map ?f) with (fmap (M := list) f). by rewrite list_lookup_fmap, Ha. }
  destruct l as [|e1 [|e2 [|e3 [|e4 [|e5 [|e6 [|]]]]]]]; try done. simpl in Hst. injection Hst as <-. cbn.
  destruct (load_accounted j a s es' _ s' 0 e1 H Hl eq_refl Hmax) as (Ht & _).
  destruct (load_accounted j a s es' _ s' 2 e3 H Hl eq_refl Hmax) as (_ & Hsu & _).
  destruct (load_accounted j a s es' _ s' 3 e4 H Hl eq_refl Hmax) as (_ & _ & Hf).
  pose proof (outcomes_between j (tasks s)). pose proof (outcomes_between j (tasks s')). unfold begun, ended in *.
  split; [lia|]. split; [lia|]. intros Hu. apply (unshared_loads j) in Hl; [|done].
  rewrite !Forall_cons in Hl. destruct Hl as (Hl1 & Hl2 & Hl3 & Hl4 & Hl5 & Hl6 & _). exists e1. split; [done|].
  by simplify_eq.
Qed.

(** A success reported after the load of the total and before the load of the successes. *)
Definition torn_start : system (cells (G := breaker_gate)) pc := turn_start.
Definition torn_begin : list (event call) := [Spawn (CSuccess 0 (from_millis 5))].
Definition torn_before : system (cells (G := breaker_gate)) pc :=
  Eval vm_compute in default torn_start (schedule start is_done access torn_begin torn_start).
Definition torn_after : system (cells (G := breaker_gate)) pc :=
  Eval vm_compute in default torn_before (schedule start is_done access (runs 0 4) torn_before).
Definition at_zero (s : system (cells (G := breaker_gate)) pc) : Endpoint :=
  default (endpoint_new "" 0) (store (shared s) !! 0%nat).

Lemma stats_read_bounds_witness :
  exists st, read_stats [at_zero torn_before; at_zero torn_before; at_zero torn_after; at_zero torn_after;
      at_zero torn_after; at_zero torn_after] = Some st /\
    stat_total_requests st = 0 /\ stat_successful_requests st = 1 /\
    stat_successful_requests st + stat_failed_requests st <= begun 0 torn_after.
Proof.
  eexists. split; [reflexivity|]. split; [reflexivity|]. split; [reflexivity|].
  apply (stats_read_bounds ["http://a:1"; "http://b:1"] RoundRobin 0 torn_begin torn_before 0 "http://a:1"
    (runs 0 4) [at_zero torn_before; at_zero torn_before; at_zero torn_after; at_zero torn_after;
      at_zero torn_after; at_zero torn_after] torn_after _).
  - by apply (schedule_sound start is_done access).
  - reflexivity.
  - apply (loads_cons 0 _ [] torn_before _ (runs 0 4)); [constructor|reflexivity|].
    apply (loads_cons 0 _ [] torn_before _ (runs 0 4)); [constructor|reflexivity|].
    apply (loads_cons 0 _ (runs 0 4) torn_after _ []); [by apply (schedule_sound start is_done access)|reflexivity|].
    do 3 (apply (loads_cons 0 _ [] torn_after _ []); [constructor|reflexivity|]). constructor.
  - reflexivity.
  - vm_compute. congruence.
Defined.
