(* ===== verification/Outage.v ===== *)
(** * What an upstream receives while it is failing (src/src/circuit_breaker.rs, src/src/transport.rs)

    The breaker exists to spare an upstream that fails. Here clients use it the way
    its documentation does, ask, send, report, directly or through a load balancer,
    with their requests overlapping; the theorems bound the requests that reach an
    upstream none of whose answers is a success. A call is one step here;
    [OutageInterleaving.v] and [BalancedInterleaving.v] split it. *)

From Stdlib Require Import Ascii String SpecFloat.
From stdpp Require Import prelude strings.
From S2P Require Import Prelude F64 RoundRobin Gate Breaker Router Transport.
Open Scope string_scope.
Open Scope Z_scope.

Import CircuitBreaker.

(** ** The budget of a breaker *)

Section Budget.
Context (conf : CircuitBreakerConfig) (k : Z) (t0 : Instant).

(** What [k] clients may send by [now]: the failures that trip the breaker with the
    other clients in flight, and one request of each client per timeout. *)
Definition budget (now : Instant) : Z :=
  Z.max 1 (failure_threshold conf) - 1 + k * (1 + (now - t0) / timeout conf).

(** What every history without a reset keeps: a failure time is never in the future. *)
Definition ready (now : Instant) (b : breaker) : Prop :=
  wf b /\ config b = conf /\ forall since, last_failure_time b = Some since -> since <= now.

(** The requests sent since [t0], against the state of the breaker, when [w] requests
    have not been reported. *)
Definition within (sent w : Z) (now : Instant) (b : breaker) : Prop :=
  ready now b /\ t0 <= now /\ 0 <= w <= k /\
  match cb_state b with
  | Closed => sent <= failure_count b + w
  | Open => exists since, last_failure_time b = Some since /\
      (since < t0 /\ sent = 0 \/ t0 <= since /\ sent <= budget since)
  | HalfOpen => sent <= budget now - k + w
  end.

Hypothesis positive : 0 < timeout conf.

Lemma budget_mono now now' : 0 <= k -> now <= now' -> budget now <= budget now'.
Proof.
  intros Hk Hle. unfold budget.
  pose proof (Z.div_le_mono (now - t0) (now' - t0) (timeout conf) positive ltac:(lia)). nia.
Qed.

(** A timeout later each client may send once more. *)
Lemma budget_timeout now now' : 0 <= k -> now + timeout conf <= now' -> budget now + k <= budget now'.
Proof.
  intros Hk Hle. transitivity (budget (now + timeout conf)); [|by apply budget_mono].
  unfold budget. replace (now + timeout conf - t0) with (now - t0 + 1 * timeout conf) by lia.
  rewrite Z.div_add by lia. nia.
Qed.

Lemma budget_least now : 0 <= k -> t0 <= now -> Z.max 1 (failure_threshold conf) - 1 + k <= budget now.
Proof. intros Hk Hle. unfold budget. pose proof (Z.div_pos (now - t0) (timeout conf) ltac:(lia) positive). nia. Qed.

Lemma ready_new now : config_ok conf -> ready now (new conf).
Proof. intros Hc. split; [by apply new_wf|]. by split. Qed.

Lemma ready_later now now' b : now <= now' -> ready now b -> ready now' b.
Proof. intros Hle (Hwf & Hc & Hl). split_and!; [done..|]. intros since Hs. specialize (Hl since Hs). lia. Qed.

Lemma ready_exec c now b :
  match c with Allow t | Failure t => t = now | Success => True | Reset => False end ->
  ready now b -> ready now (exec c b).2.
Proof.
  intros Ht (Hwf & Hc & Hl). split; [by apply exec_wf|]. split; [by rewrite exec_config|].
  clear Hwf Hc. destruct c; try done; rewrite <-?Ht; breaker_cases b; split_match; intros since Hs; simplify_eq; (lia || auto).
Qed.

Lemma ready_allow now b : ready now b -> ready now (allow_request now b).2.
Proof. intros Hr. apply (ready_exec (Allow now)) in Hr; [|done]. unfold exec in Hr. by destruct (allow_request now b). Qed.

(** A stretch of time begins with nothing sent, in any state and with any requests
    still unreported. *)
Lemma within_start w b : 0 <= w <= k -> ready t0 b -> within 0 w t0 b.
Proof.
  intros Hw Hr. split; [done|]. split; [lia|]. split; [done|]. destruct Hr as (Hwf & Hc & Hl).
  pose proof (budget_least t0 ltac:(lia) ltac:(lia)). destruct Hwf as (_ & _ & _ & Hst & Hfc & _).
  destruct (cb_state b); [lia| |lia]. destruct (last_failure_time b) as [since|]; [|done].
  exists since. split; [done|]. specialize (Hl since eq_refl).
  destruct (decide (since < t0)); [left; lia|right]. replace since with t0 by lia. lia.
Qed.

Lemma within_later sent w now now' b : now <= now' -> within sent w now b -> within sent w now' b.
Proof.
  intros Hle (Hr & Ht & Hw & Hst). split; [by eapply ready_later|]. split; [lia|]. split; [done|].
  pose proof (budget_mono now now' ltac:(lia) Hle). destruct (cb_state b); [done|done|lia].
Qed.

Lemma within_refused sent w now b :
  (allow_request now b).1 = false -> within sent w now b -> within sent w now (allow_request now b).2.
Proof.
  intros Ha (Hr & Ht & Hw & Hst). pose proof (ready_allow now b Hr) as Hr'.
  assert (Hs : cb_state (allow_request now b).2 = Open /\ cb_state b = Open /\
    last_failure_time (allow_request now b).2 = last_failure_time b).
  { revert Ha. unfold allow_request. destruct b as [[] fc sc lft cf tr tf]; simpl; split_match; done. }
  destruct (allow_request now b) as [a b']; simpl in *. destruct Hs as (Hs' & Hs & Hl).
  split; [done|]. split; [done|]. split; [done|]. rewrite Hs', Hl. by rewrite Hs in Hst.
Qed.

Lemma within_let_through sent w now b :
  (allow_request now b).1 = true -> w < k -> within sent w now b ->
  within (sent + 1) (w + 1) now (allow_request now b).2.
Proof.
  intros Ha Hk (Hr & Ht & Hw & Hst). pose proof (ready_allow now b Hr) as Hr'.
  pose proof (budget_least now ltac:(lia) Ht) as Hb. destruct Hr as (Hwf & Hc & Hl).
  revert Ha Hr'. unfold allow_request, elapsed, duration_since.
  destruct b as [[] fc sc lft cf tr tf]; simpl in *; subst cf; intros Ha Hr'.
  - split; [done|]. simpl. split_and!; (done || lia).
  - destruct Hst as (since & -> & Hs). destruct (timeout conf <=? _) eqn:E; simpl in *; [|done]. reflect_bools.
    split; [done|]. simpl. split_and!; try (done || lia). destruct Hs as [[Hs ->]|[Hs Hle]]; [lia|].
    pose proof (budget_timeout since now ltac:(lia) ltac:(lia)). lia.
  - split; [done|]. simpl. split_and!; (done || lia).
Qed.

Lemma within_failure sent w now b :
  0 < w -> within sent w now b -> within sent (w - 1) now (record_failure now b).
Proof.
  intros Hpos (Hr & Ht & Hw & Hst). pose proof (ready_exec (Failure now) now b eq_refl Hr) as Hr'.
  unfold exec in Hr'; cbn [snd] in Hr'. pose proof (budget_least now ltac:(lia) Ht) as Hb.
  destruct Hr as ((Hok & _ & _ & Hcl & Hfc & _) & Hc & Hl). destruct Hok as (Hthr & _).
  revert Hr'. unfold record_failure. destruct b as [[] fc sc lft cf tr tf]; simpl in *; subst cf; intros Hr'.
  - words_small. destruct (failure_threshold conf <=? fc + 1) eqn:E; simpl in *; reflect_bools; (split; [done|]); simpl.
    + split_and!; try (done || lia). exists now. split; [done|]. right. lia.
    + split_and!; (done || lia).
  - destruct Hst as (since & -> & Hs). specialize (Hl since eq_refl). split; [done|]. simpl.
    split_and!; try (done || lia). exists now. split; [done|]. right. split; [done|].
    destruct Hs as [[Hs ->]|[Hs Hle]]; [lia|]. pose proof (budget_mono since now ltac:(lia) ltac:(lia)). lia.
  - split; [done|]. simpl. split_and!; try (done || lia). exists now. split; [done|]. right. lia.
Qed.

(** In every state the requests sent are within the budget. *)
Lemma within_budget sent w now b : within sent w now b -> sent <= budget now.
Proof.
  intros (((_ & _ & _ & Hcl & _) & Hc & Hl) & Ht & Hw & Hst). pose proof (budget_least now ltac:(lia) Ht).
  rewrite Hc in *. destruct (cb_state b); [lia| |lia]. destruct Hst as (since & Hs & Hst). specialize (Hl since Hs).
  destruct Hst as [[? ->]|[? ?]]; [lia|]. pose proof (budget_mono since now ltac:(lia) ltac:(lia)). lia.
Qed.

End Budget.

(** ** Clients of one breaker *)

(** The documented use of a breaker: ask; when allowed, make the request and record how
    it went. Calls on the breaker are taken as one step each; the clients overlap. *)
Module Guarded.

Inductive client : Type := Idle | Requesting.

Record world : Type := mkWorld {
  cb : breaker;
  clients : list client;
  clock : Instant;
  (** the requests that have reached the upstream *)
  received : Z
}.

Definition init (conf : CircuitBreakerConfig) (n : nat) (t : Instant) : world :=
  mkWorld (new conf) (replicate n Idle) t 0.

Inductive event : Type :=
| Ask (i : nat)
| Answer (i : nat) (ok : bool)
| Tick (t : Instant).

Definition fire (e : event) (s : world) : option world :=
  match e with
  | Ask i =>
      match clients s !! i with
      | Some Idle =>
          let '(allowed, b) := allow_request (clock s) (cb s) in
          if allowed then Some (mkWorld b (<[i := Requesting]> (clients s)) (clock s) (received s + 1))
          else Some (mkWorld b (clients s) (clock s) (received s))
      | _ => None
      end
  | Answer i ok =>
      match clients s !! i with
      | Some Requesting =>
          let b := if ok then record_success (cb s) else record_failure (clock s) (cb s) in
          Some (mkWorld b (<[i := Idle]> (clients s)) (clock s) (received s))
      | _ => None
      end
  | Tick t => if clock s <=? t then Some (mkWorld (cb s) (clients s) t (received s)) else None
  end.

Definition step : world -> event -> world -> Prop := fired fire.

(** The upstream fails every request it answers. *)
Definition failing (e : event) : Prop := match e with Answer _ ok => ok = false | _ => True end.

Definition requesting (c : client) : bool := match c with Requesting => true | Idle => false end.
Definition unreported (s : world) : Z := count_if requesting (clients s).

Section Facts.
Context (conf : CircuitBreakerConfig) (n : nat).

Definition sound (s : world) : Prop := length (clients s) = n /\ ready conf (clock s) (cb s).

Lemma sound_step s e s' : True -> sound s -> step s e s' -> sound s'.
Proof.
  unfold step, fired. intros _ [Hn Hr] Hf. pose proof (ready_allow conf (clock s) (cb s) Hr) as Ha.
  destruct e as [i|i ok|t]; simpl in *.
  - destruct (allow_request _ _) as [b g]. destruct (clients s !! i) as [[]|]; [|done..].
    destruct b; simplify_eq/=; (split; simpl; [by rewrite ?length_insert|done]).
  - destruct (clients s !! i) as [[]|]; [done| |done]. simplify_eq. split; simpl; [by rewrite length_insert|].
    destruct ok; [by apply (ready_exec conf Success)|by apply (ready_exec conf (Failure (clock s)))].
  - destruct (clock s <=? t) eqn:E; [|done]. simplify_eq. reflect_bools. split; simpl; [done|by apply (ready_later conf (clock s))].
Qed.

Context (t0 : Instant) (r0 : Z).
Hypothesis positive : 0 < timeout conf.

Definition outage (s : world) : Prop :=
  length (clients s) = n /\
  within conf (Z.of_nat n) t0 (received s - r0) (unreported s) (clock s) (cb s).

Lemma outage_step s e s' : failing e -> outage s -> step s e s' -> outage s'.
Proof.
  unfold step, fired, outage, unreported. intros He [Hn Hw] Hf. destruct e as [i|i ok|t]; simpl in *.
  - destruct (clients s !! i) as [[]|] eqn:Hi; [|done..].
    assert (Hlt : count_if requesting (<[i := Requesting]> (clients s)) <= Z.of_nat n)
      by (rewrite <-Hn, <-(length_insert (clients s) i Requesting); apply count_if_le_length).
    pose proof (within_let_through conf (Z.of_nat n) t0 positive (received s - r0) (count_if requesting (clients s)) (clock s) (cb s)) as Had.
    pose proof (within_refused conf (Z.of_nat n) t0 (received s - r0) (count_if requesting (clients s)) (clock s) (cb s)) as Href.
    rewrite (count_if_insert _ _ _ _ _ Hi) in Hlt. simpl in Hlt.
    destruct (allow_request _ _) as [[] g]; simpl in *; simplify_eq; simpl.
    + rewrite length_insert, (count_if_insert _ _ _ _ _ Hi). simpl. split; [done|].
      replace (received s + 1 - r0) with (received s - r0 + 1) by lia. rewrite Z.sub_0_r. apply Had; [done|lia|done].
    + split; [done|]. by apply Href.
  - destruct (clients s !! i) as [[]|] eqn:Hi; [done| |done]. subst ok. simplify_eq. simpl.
    rewrite length_insert, (count_if_insert _ _ _ _ _ Hi). simpl. rewrite Z.add_0_r. split; [done|].
    apply within_failure; [done| |done].
    pose proof (count_if_insert requesting _ _ _ Idle Hi). pose proof (count_if_nonneg requesting (<[i := Idle]> (clients s))).
    simpl in *. lia.
  - destruct (clock s <=? t) eqn:E; [|done]. simplify_eq. reflect_bools. split; [done|]. simpl. by apply (within_later conf _ t0 positive _ _ (clock s)).
Qed.

End Facts.
End Guarded.

(** ** Clients of a load balancer *)

Module Balanced.
Section Balanced.
Context {G : Gate}.

Inductive client : Type := Free | Busy (ep : nat).

#[export] Instance client_eq_dec : EqDecision client.
Proof. solve_decision. Defined.

Record world : Type := mkWorld {
  store : list Endpoint;
  balancer : LoadBalancer;
  clients : list client;
  clock : Instant;
  (** the requests that have reached the endpoints, in order *)
  received : list nat
}.

Definition init (addrs : list string) (p : LoadBalancingPolicy) (n : nat) (t : Instant) : world :=
  let '(lb, s) := from_addresses addrs p t [] in mkWorld s lb (replicate n Free) t [].

(** A free client selects an endpoint and sends it its request; the outcome of the
    request is reported to the endpoint; anybody sets the health, weight and
    connection count of endpoints. *)
Inductive event : Type :=
| Select (i : nat) (sample : Z -> Z)
| Report (i ep : nat) (answer : option Duration)
| Touch (ep : nat) (c : endpoint_call)
| Tick (t : Instant).

Definition report (now : Instant) (answer : option Duration) : endpoint_call :=
  match answer with Some response_time => Succeeded response_time | None => Failed now end.

Definition upkeep (c : endpoint_call) : bool :=
  match c with Acquire | Release | SetHealthy _ | SetWeight _ => true | _ => false end.

Definition fire (e : event) (s : world) : option world :=
  match e with
  | Select i sample =>
      match clients s !! i with
      | Some Free =>
          match select sample (clock s) (store s) (balancer s) with
          | Returns (Some ep, lb, st) => Some (mkWorld st lb (<[i := Busy ep]> (clients s)) (clock s) (received s ++ [ep]))
          | Returns (None, lb, st) => Some (mkWorld st lb (clients s) (clock s) (received s))
          | Panics => None
          end
      | _ => None
      end
  | Report i ep answer =>
      if decide (clients s !! i = Some (Busy ep)) then
        Some (mkWorld (alter (endpoint_exec (report (clock s) answer)) ep (store s)) (balancer s)
          (<[i := Free]> (clients s)) (clock s) (received s))
      else None
  | Touch ep c =>
      if upkeep c then Some (mkWorld (alter (endpoint_exec c) ep (store s)) (balancer s) (clients s) (clock s) (received s))
      else None
  | Tick t => if clock s <=? t then Some (mkWorld (store s) (balancer s) (clients s) t (received s)) else None
  end.

Definition step : world -> event -> world -> Prop := fired fire.

(** No report of a success concerns the endpoint. *)
Definition failing (ep : nat) (e : event) : Prop :=
  match e with Report _ ep' (Some _) => ep' <> ep | _ => True end.

Definition sent_to (ep : nat) (s : world) : Z := count_if (Nat.eqb ep) (received s).
Definition busy_at (ep : nat) (c : client) : bool := match c with Busy e => Nat.eqb ep e | Free => false end.
Definition unreported (ep : nat) (s : world) : Z := count_if (busy_at ep) (clients s).

(** *** What a selection does to one endpoint *)

(** Its gate has been refusing when it was asked, and the answer is this endpoint exactly
    when the gate has let the request pass in the end. *)
Section Asked.
Context (now : Instant) (ep : nat) (I : gate -> Prop).
Hypothesis I_refused : forall g, I g -> (gate_allow now g).1 = false -> I (gate_allow now g).2.

Definition holds (s : list Endpoint) : Prop := exists e, s !! ep = Some e /\ I (circuit_breaker e).

Definition asked (o : option nat) (s : list Endpoint) : Prop :=
  exists e, s !! ep = Some e /\
    (o = Some ep /\ (exists g, I g /\ gate_allow now g = (true, circuit_breaker e)) \/
     o <> Some ep /\ I (circuit_breaker e)).

Lemma holds_asked s : holds s -> asked None s.
Proof. intros (e & He & HI). exists e. split; [done|]. by right. Qed.

Lemma asked_holds s o : asked o s -> o <> Some ep -> holds s.
Proof. intros (e & He & [[-> _]|[_ HI]]) Hne; [done|]. by exists e. Qed.

Lemma allow_at_asked s i :
  holds s -> asked (if (allow_at now s i).1 then Some i else None) (allow_at now s i).2.
Proof.
  intros (e & He & HI). unfold allow_at, Transport.allow_request.
  destruct (s !! i) as [x|] eqn:Hi; [|by apply holds_asked; exists e].
  destruct (gate_allow now (circuit_breaker x)) as [b g] eqn:Ha. simpl. destruct (decide (i = ep)) as [->|Hne].
  - simplify_eq. eexists. split; [apply list_lookup_insert_eq; by eapply lookup_lt_Some|]. simpl. destruct b.
    + left. split; [done|]. by eexists.
    + right. split; [done|]. specialize (I_refused _ HI). rewrite Ha in I_refused. by apply I_refused.
  - exists e. rewrite list_lookup_insert_ne by done. split; [done|]. right. split; [|done]. destruct b; congruence.
Qed.

Lemma find_other_asked refused ids s o s' : holds s -> find_other now refused ids s = (o, s') -> asked o s'.
Proof.
  revert s. induction ids as [|i ids IH]; intros s Hs H; simpl in H; [simplify_eq; by apply holds_asked|].
  destruct (negb _); [|by apply IH in H]. pose proof (allow_at_asked s i Hs) as Ha.
  destruct (allow_at now s i) as [[] s1]; simpl in *; [by simplify_eq|]. apply (IH s1); [|done]. by apply (asked_holds _ None).
Qed.

Lemma select_asked sample s lb o lb' s' : holds s -> select sample now s lb = Returns (o, lb', s') -> asked o s'.
Proof.
  unfold select. intros Hs H. destruct (List.filter _ _) as [|x xs]; [simplify_eq; by apply holds_asked|].
  destruct (pick _ _ _ _) as [[[c|] lb1]|]; cbn [outcome_bind] in H; [| |done]; [|simplify_eq; by apply holds_asked].
  pose proof (allow_at_asked s c Hs) as Ha. destruct (allow_at now s c) as [[] s1]; simpl negb in *; simpl in Ha; cbn iota in *;
    [by simplify_eq|]. destruct (find_other _ _ _ _) as [o2 s2] eqn:Ef. simplify_eq.
  apply find_other_asked in Ef; [done|]. by apply (asked_holds _ None).
Qed.

End Asked.
Lemma holds_alter (I J : gate -> Prop) ep j c s :
  (forall g, I g -> J g) -> (j = ep -> forall e, I (circuit_breaker e) -> J (circuit_breaker (endpoint_exec c e))) ->
  holds ep I s -> holds ep J (alter (endpoint_exec c) j s).
Proof.
  intros HIJ Hc (e & He & HI). destruct (decide (j = ep)) as [->|Hne].
  - exists (endpoint_exec c e). split; [|by apply Hc]. by rewrite list_lookup_alter_eq, He.
  - exists e. rewrite list_lookup_alter_ne by done. split; [done|by apply HIJ].
Qed.

End Balanced.

Section Facts.
Existing Instance breaker_gate.
Context (conf : CircuitBreakerConfig) (n ep : nat).
Implicit Types (s : world (G := breaker_gate)).

Lemma upkeep_breaker c (e : Endpoint) : upkeep c = true -> circuit_breaker (endpoint_exec c e) = circuit_breaker e.
Proof. by destruct c. Qed.

Definition sound s : Prop := length (clients s) = n /\ holds ep (ready conf (clock s)) (store s).

Lemma balanced_sound_step s e s' : True -> sound s -> step s e s' -> sound s'.
Proof.
  unfold step, fired. intros _ [Hn Hh] Hf. destruct e as [i sample|i j answer|j c|t]; cbn [fire] in Hf.
  - destruct (clients s !! i) as [[]|]; [|done..]. destruct (select _ _ _ _) as [[[o lb] st]|] eqn:Hsel; [|done].
    apply (select_asked (G := breaker_gate) (clock s) ep (ready conf (clock s))) in Hsel; [| |done].
    2: { intros g Hg _. by apply ready_allow. }
    assert (Hh' : holds ep (ready conf (clock s)) st).
    { destruct Hsel as (e & He & [[_ (g & Hg & Ha)]|[_ HI]]); exists e; (split; [done|]); [|done].
      apply ready_allow in Hg. simpl in Ha. by rewrite Ha in Hg. }
    destruct o; simplify_eq; (split; simpl; [by rewrite ?length_insert|done]).
  - case_decide; [|done]. simplify_eq. split; simpl; [by rewrite length_insert|].
    apply (holds_alter (G := breaker_gate) (ready conf (clock s))); [done| |done]. intros _ e Hr. destruct answer; simpl.
    + by apply (ready_exec conf Success).
    + by apply (ready_exec conf (Failure (clock s))).
  - destruct (upkeep c) eqn:Hc; [|done]. simplify_eq. split; [done|]. simpl.
    apply (holds_alter (G := breaker_gate) (ready conf (clock s))); [done| |done]. intros _ e. by rewrite upkeep_breaker.
  - destruct (clock s <=? t) eqn:E; [|done]. simplify_eq. reflect_bools. split; [done|].
    destruct Hh as (e & He & Hr). exists e. split; [done|]. simpl. by apply (ready_later conf (clock s)).
Qed.

Context (t0 : Instant) (r0 : Z).
Hypothesis positive : 0 < timeout conf.

Definition outage s : Prop :=
  length (clients s) = n /\
  holds ep (within conf (Z.of_nat n) t0 (sent_to ep s - r0) (unreported ep s) (clock s)) (store s).

Lemma balanced_outage_step s e s' : failing ep e -> outage s -> step s e s' -> outage s'.
Proof.
  unfold step, fired, outage, unreported, sent_to. intros He [Hn Hh] Hf. destruct e as [i sample|i j answer|j c|t]; cbn [fire] in Hf.
  - destruct (clients s !! i) as [[]|] eqn:Hi; [|done..]. destruct (select _ _ _ _) as [[[o lb] st]|] eqn:Hsel; [|done].
    eapply (select_asked (G := breaker_gate)) in Hsel; [| |exact Hh]; [|intros g Hg Ha; by apply within_refused].
    destruct Hsel as (e & Hlk & Hcase).
    assert (Hlt : forall c, count_if (busy_at ep) (<[i := c]> (clients s)) <= Z.of_nat n)
      by (intros c; rewrite <-Hn, <-(length_insert (clients s) i c); apply count_if_le_length).
    destruct o as [j|]; simplify_eq; simpl; [|destruct Hcase as [[? _]|[_ Hw]]; [done|]; split; [done|by exists e]].
    rewrite length_insert, count_if_snoc, (count_if_insert _ _ _ _ _ Hi). split; [done|]. exists e. split; [done|].
    destruct Hcase as [[[= ->] (g & Hg & Ha)]|[Hne HI]].
    + pose proof (Hlt (Busy ep)) as Hk. rewrite (count_if_insert _ _ _ _ _ Hi) in Hk. simpl in Hk |- *.
      rewrite Nat.eqb_refl in Hk |- *. simpl in Hk |- *.
      match goal with |- within _ _ _ ?x ?y _ _ => replace x with (count_if (Nat.eqb ep) (received s) - r0 + 1) by lia;
        replace y with (count_if (busy_at ep) (clients s) + 1) by lia end.
      simpl in Ha. replace (circuit_breaker e) with (allow_request (clock s) g).2 by by rewrite Ha.
      apply within_let_through; [done|by rewrite Ha|lia|done].
    + assert (Nat.eqb ep j = false) as Hj by (apply Nat.eqb_neq; congruence). simpl. rewrite Hj. simpl.
      by rewrite !Z.add_0_r, Z.sub_0_r.
  - case_decide as Hi; [|done]. simplify_eq. simpl. rewrite length_insert, (count_if_insert _ _ _ _ _ Hi). split; [done|]. simpl.
    rewrite Z.add_0_r. destruct (decide (j = ep)) as [->|Hne].
    + destruct answer; [done|]. rewrite Nat.eqb_refl. simpl.
      pose proof (count_if_insert (busy_at ep) _ _ _ Free Hi) as Hpos. simpl in Hpos. rewrite Nat.eqb_refl in Hpos.
      pose proof (count_if_nonneg (busy_at ep) (<[i := Free]> (clients s))) as Hnn. simpl in Hpos.
      destruct Hh as (e & Hlk & Hw). eexists. rewrite list_lookup_alter_eq, Hlk. split; [done|]. simpl.
      apply within_failure; [done|lia|done].
    + assert (Nat.eqb ep j = false) as -> by (apply Nat.eqb_neq; congruence). simpl. rewrite Z.sub_0_r.
      eapply (holds_alter (G := breaker_gate)); [| |exact Hh]; done.
  - destruct (upkeep c) eqn:Hc; [|done]. simplify_eq. split; [done|]. simpl.
    eapply (holds_alter (G := breaker_gate)); [| |exact Hh]; [done|]. intros _ e. by rewrite upkeep_breaker.
  - destruct (clock s <=? t) eqn:E; [|done]. simplify_eq. reflect_bools. split; [done|].
    destruct Hh as (e & Hlk & Hw). exists e. split; [done|]. simpl. by apply (within_later conf _ t0 positive _ _ (clock s)).
Qed.

End Facts.
End Balanced.

(** ** Properties *)

(** A breaker spares an upstream that fails. Whatever its clients did before, over
    any stretch of time in which none of the requests it answers succeeds, the upstream
    receives at most as many requests as trip the breaker with the other clients in
    flight, and one more of each client per timeout. *)
Theorem guarded_outage conf n t es0 w0 es1 w1 :
  config_ok conf -> 0 < timeout conf ->
  steps Guarded.step (Guarded.init conf n t) es0 w0 ->
  Forall Guarded.failing es1 -> steps Guarded.step w0 es1 w1 ->
  Guarded.received w1 - Guarded.received w0 <=
    Z.max 1 (failure_threshold conf) - 1
    + Z.of_nat n * (1 + (Guarded.clock w1 - Guarded.clock w0) / timeout conf).
Proof.
  intros Hc Hp Hs0 Hfail Hs1.
  assert (H0 : Guarded.sound conf n w0).
  { refine (steps_invariant _ (fun _ => True) (Guarded.sound conf n) _ _ _ _ _ _ Hs0); [apply Guarded.sound_step|by apply Forall_true|].
    split; [apply length_replicate|by apply ready_new]. }
  assert (H1 : Guarded.outage conf n (Guarded.clock w0) (Guarded.received w0) w1).
  { refine (steps_invariant _ Guarded.failing (Guarded.outage conf n _ _) _ _ _ _ Hfail _ Hs1); [by apply Guarded.outage_step|].
    destruct H0 as [Hn Hr]. split; [done|]. rewrite Z.sub_diag. apply within_start; [done| |done].
    rewrite <-Hn. split; [apply count_if_nonneg|apply count_if_le_length]. }
  exact (within_budget _ _ _ Hp _ _ _ _ (proj2 H1)).
Qed.

(** Two clients of a breaker that trips at two failures: the budget is reached. *)
Definition pair_config : CircuitBreakerConfig :=
  {| failure_threshold := 2; timeout := 50; success_threshold := 1 |}.
Definition pair_before : list Guarded.event := [Guarded.Ask 0; Guarded.Answer 0 true].
Definition pair_outage : list Guarded.event :=
  [Guarded.Ask 0; Guarded.Answer 0 false; Guarded.Ask 0; Guarded.Ask 1; Guarded.Answer 0 false; Guarded.Answer 1 false;
   Guarded.Ask 0; Guarded.Tick 50; Guarded.Ask 0; Guarded.Ask 1].

Definition pair_start : Guarded.world := Guarded.init pair_config 2 0.
Definition pair_mid : Guarded.world := Eval vm_compute in default pair_start (fires Guarded.fire pair_before pair_start).
Definition pair_end : Guarded.world := Eval vm_compute in default pair_start (fires Guarded.fire pair_outage pair_mid).

Lemma guarded_outage_witness :
  fires Guarded.fire pair_outage pair_mid = Some pair_end /\
  Guarded.received pair_end - Guarded.received pair_mid = 5 /\
  Guarded.received pair_end - Guarded.received pair_mid <= 2 - 1 + 2 * (1 + (50 - 0) / 50).
Proof.
  split; [vm_compute; reflexivity|]. split; [vm_compute; reflexivity|].
  apply (guarded_outage pair_config 2 0 pair_before pair_mid pair_outage pair_end).
  - repeat split; vm_compute; congruence.
  - vm_compute. reflexivity.
  - apply fires_sound. vm_compute. reflexivity.
  - repeat constructor.
  - apply fires_sound. vm_compute. reflexivity.
Defined.

(** C3. A load balancer with its breakers spares each endpoint likewise, whatever its
    policy and whatever happens to the other endpoints: over any stretch of time in
    which no success of an endpoint is reported, it receives at most four requests and,
    of each client, one per started thirty seconds. *)
Theorem balanced_outage addrs p n t es0 (w0 : Balanced.world (G := breaker_gate)) es1 w1 ep :
  (ep < length addrs)%nat ->
  steps Balanced.step (Balanced.init addrs p n t) es0 w0 ->
  Forall (Balanced.failing ep) es1 -> steps Balanced.step w0 es1 w1 ->
  Balanced.sent_to ep w1 - Balanced.sent_to ep w0 <=
    4 + Z.of_nat n * (1 + (Balanced.clock w1 - Balanced.clock w0) / from_secs 30).
Proof.
  intros Hep Hs0 Hfail Hs1. assert (Hp : 0 < timeout default_config) by done.
  assert (H0 : Balanced.sound default_config n ep w0).
  { refine (steps_invariant _ (fun _ => True) (Balanced.sound default_config n ep) _ _ _ _ _ _ Hs0);
      [apply Balanced.balanced_sound_step|by apply Forall_true|].
    split; [apply length_replicate|]. simpl. change (map ?f) with (fmap (M := list) f).
    destruct (lookup_lt_is_Some_2 _ _ Hep) as [a Ha]. exists (endpoint_new a t). rewrite list_lookup_fmap, Ha.
    split; [done|]. apply (ready_new default_config). repeat split; vm_compute; congruence. }
  assert (H1 : Balanced.outage default_config n ep (Balanced.clock w0) (Balanced.sent_to ep w0) w1).
  { refine (steps_invariant _ (Balanced.failing ep) (Balanced.outage default_config n ep _ _) _ _ _ _ Hfail _ Hs1);
      [by apply Balanced.balanced_outage_step|].
    destruct H0 as [Hn (e & He & Hr)]. split; [done|]. exists e. split; [done|]. rewrite Z.sub_diag.
    apply within_start; [done| |done]. rewrite <-Hn. split; [apply count_if_nonneg|apply count_if_le_length]. }
  destruct H1 as [_ (e & _ & Hw)]. exact (within_budget _ _ _ Hp _ _ _ _ Hw).
Qed.

(** Two clients, two endpoints, the preferred one failing: the bound is reached, and the
    other endpoint is used meanwhile. *)
Definition spare_start : Balanced.world (G := breaker_gate) :=
  Balanced.init ["http://a:1"; "http://b:1"] LeastConnections 2 0.
Definition spare_select (i : nat) : Balanced.event := Balanced.Select i (fun _ => 0).
Definition spare_outage : list Balanced.event :=
  spare_select 0 :: spare_select 1 ::
  mjoin (replicate 4 [Balanced.Report 0 0 None; spare_select 0]) ++
  [Balanced.Report 0 0 None; Balanced.Report 1 0 None; spare_select 0; Balanced.Report 0 1 (Some 5);
   Balanced.Tick (from_secs 30); spare_select 0; spare_select 1].
Definition spare_end : Balanced.world (G := breaker_gate) :=
  Eval vm_compute in default spare_start (fires Balanced.fire spare_outage spare_start).

Lemma balanced_outage_witness :
  fires Balanced.fire spare_outage spare_start = Some spare_end /\
  Balanced.received spare_end = [0; 0; 0; 0; 0; 0; 1; 0; 0]%nat /\
  Balanced.sent_to 0 spare_end - Balanced.sent_to 0 spare_start <= 4 + 2 * (1 + (from_secs 30 - 0) / from_secs 30).
Proof.
  split; [reflexivity|]. split; [reflexivity|].
  apply (balanced_outage ["http://a:1"; "http://b:1"] LeastConnections 2 0 [] spare_start spare_outage spare_end 0).
  - simpl. lia.
  - constructor.
  - repeat constructor; discriminate.
  - apply fires_sound. reflexivity.
Defined.
