(* ===== verification/OutageInterleaving.v ===== *)
(** * An outage with the calls on the breaker split (src/src/circuit_breaker.rs)

    The clients of [Outage.v] again, ask, send, report, with every call on the breaker
    split into its accesses as in [BreakerInterleaving.v]: what an upstream that fails
    receives then, when a client may stop between any two accesses for any time. *)

From stdpp Require Import prelude.
From S2P Require Import Prelude Breaker BreakerInterleaving Outage.
Import CircuitBreaker.

Module SharedGuarded.

(** A client between its calls, inside one, or waiting for the upstream. *)
Inductive client : Type := Idle | Calling (p : pc) | Requesting.

Record world : Type := mkWorld {
  cb : breaker;
  clients : list client;
  clock : Instant;
  (** the requests that have reached the upstream *)
  received : Z
}.

Inductive event : Type :=
| Ask (i : nat)
| Access (i : nat)
| Answer (i : nat) (ok : bool)
| Tick (t : Instant).

(** What a client does after an access: when the call has returned, it sends its request
    or it is done. *)
Definition resume (p : pc) : client :=
  match p with
  | Done MAllow (Some true) => Requesting
  | Done _ _ => Idle
  | p => Calling p
  end.

Definition sends (c : client) : Z := match c with Requesting => 1 | _ => 0 end.

Definition fire (e : event) (s : world) : option world :=
  match e with
  | Ask i =>
      match clients s !! i with
      | Some Idle => Some (mkWorld (cb s) (<[i := Calling (start MAllow)]> (clients s)) (clock s) (received s))
      | _ => None
      end
  | Access i =>
      match clients s !! i with
      | Some (Calling p) =>
          let '(p, b) := access (clock s) p (cb s) in
          Some (mkWorld b (<[i := resume p]> (clients s)) (clock s) (received s + sends (resume p)))
      | _ => None
      end
  | Answer i ok =>
      match clients s !! i with
      | Some Requesting =>
          let m := if ok then MSuccess else MFailure in
          Some (mkWorld (cb s) (<[i := Calling (start m)]> (clients s)) (clock s) (received s))
      | _ => None
      end
  | Tick t => if clock s <=? t then Some (mkWorld (cb s) (clients s) t (received s)) else None
  end.

Definition step : world -> event -> world -> Prop := fired fire.

(** The upstream fails every request it answers. *)
Definition failing (e : event) : Prop := match e with Answer _ ok => ok = false | _ => True end.

(** No call is in flight, and the breaker is as calls made one at a time leave it. *)
Definition between_calls (c : client) : Prop := match c with Calling _ => False | _ => True end.
Definition settled (conf : CircuitBreakerConfig) (s : world) : Prop :=
  wf (cb s) /\ config (cb s) = conf /\ Forall between_calls (clients s).

(** A world of one-step calls is such a world. *)
Definition of_guarded (g : Guarded.world) : world :=
  mkWorld (Guarded.cb g)
    (map (fun c => match c with Guarded.Idle => Idle | Guarded.Requesting => Requesting end) (Guarded.clients g))
    (Guarded.clock g) (Guarded.received g).

(** ** What clients may still send *)

(** The calls that a failing upstream leaves: no success, no reset. *)
Definition regular (c : client) : bool :=
  match c with
  | Calling p =>
      match p with
      | SuccReadState | SuccAdd | SuccWriteClosed | SuccClearFailure | SuccClearSuccess | SuccResetFailure
      | ResetWriteClosed | ResetClearFailure | ResetClearSuccess | ResetClearTime | Done _ _ => false
      | _ => true
      end
  | _ => true
  end.

(** About to make the breaker half-open, and about to send after having done so. *)
Definition opening (c : client) : bool := match c with Calling AllowWriteHalfOpen => true | _ => false end.
Definition entering (c : client) : bool := match c with Calling AllowClearSuccess => true | _ => false end.

(** May send while the breaker stays half-open: the others have a failure to report first. *)
Definition eager (c : client) : bool :=
  match c with
  | Requesting => false
  | Calling (FailCount | FailReadState | FailWriteOpen | ReopenWriteOpen | AllowClearSuccess) => false
  | _ => true
  end.

(** About to write a failure time of before [w]. *)
Definition belated (w : Instant) (c : client) : bool :=
  match c with
  | Calling (FailWriteTime t | ReopenWriteTime t | OpenWriteTime t) => t <? w
  | _ => false
  end.

(** May read the failure time before it has written one. *)
Definition reading (c : client) : bool :=
  match c with
  | Idle => true
  | Calling (AllowCount | AllowReadState | AllowReadTime | FailAdd | ReopenClearFailure | ReopenClearSuccess) => true
  | _ => false
  end.

(** The breaker has no failure time of [w] or later. *)
Definition dated_before (w : Instant) (b : breaker) : bool :=
  match last_failure_time b with Some t => t <? w | None => false end.

Section Bound.
Context (conf : CircuitBreakerConfig) (n : nat) (t0 : Instant) (r0 : Z).
Hypothesis valid : config_ok conf.
Hypothesis positive : 0 < timeout conf.
Hypothesis few : failure_threshold conf + Z.of_nat n <= u64_max.

Abbreviation N := (Z.of_nat n).
Abbreviation threshold := (Z.max 1 (failure_threshold conf)).

(** The stretch is cut in windows as long as the timeout. *)
Definition windows (now : Instant) : Z := (now - t0) / timeout conf.
Definition window (now : Instant) : Instant := t0 + timeout conf * windows now.

(** The requests that can be sent before the failure time is next found to be past. *)
Definition ahead (s : world) : Z :=
  N * count_if opening (clients s) + count_if entering (clients s)
  + match cb_state (cb s) with HalfOpen => count_if eager (clients s) | _ => 0 end.

(** How often it can be found to be past in the rest of the window. *)
Definition reads (w : Instant) (s : world) : Z :=
  N * count_if (belated w) (clients s)
  + if dated_before w (cb s) then count_if reading (clients s) else 0.

Definition cap (now : Instant) : Z := threshold - 1 + N + N * N * N * (1 + windows now).

(** Before the breaker trips: failures are counted. *)
Definition early (c : client) : bool :=
  match c with
  | Idle | Requesting => true
  | Calling (AllowCount | AllowReadState | FailCount | FailReadState | FailAdd | FailWriteOpen) => true
  | _ => false
  end.
Definition failed (c : client) : bool :=
  match c with
  | Requesting | Calling (FailCount | FailReadState | FailAdd | FailWriteOpen) => true
  | _ => false
  end.
Definition tripping (c : client) : bool := match c with Calling FailWriteOpen => true | _ => false end.

Definition counting (s : world) : Prop :=
  cb_state (cb s) = Closed /\ Forall (fun c => early c = true) (clients s) /\
  0 <= failure_count (cb s) <= threshold - 1 + count_if tripping (clients s) /\
  received s - r0 <= Z.min (failure_count (cb s)) (threshold - 1) + count_if failed (clients s).

(** Afterwards. *)
Definition tripped (s : world) : Prop :=
  cb_state (cb s) <> Closed /\ Forall (fun c => regular c = true) (clients s) /\
  received s - r0 + ahead s + N * reads (window (clock s)) s <= cap (clock s).

Definition outage (s : world) : Prop :=
  length (clients s) = n /\ config (cb s) = conf /\ t0 <= clock s /\ (counting s \/ tripped s).

(** *** Lemmas *)

Lemma windows_mono now now' : now <= now' -> windows now <= windows now'.
Proof. intros Hle. apply Z.div_le_mono; lia. Qed.

Lemma window_spec now : window now <= now < window now + timeout conf.
Proof.
  unfold window, windows. pose proof (Z.div_mod (now - t0) (timeout conf) ltac:(lia)).
  pose proof (Z.mod_pos_bound (now - t0) (timeout conf) positive). lia.
Qed.

(** A time that is past is one of before the window. *)
Lemma past_before now t : timeout conf <= elapsed now t -> (t <? window now) = true.
Proof. pose proof (window_spec now). unfold elapsed, duration_since. intros ?. apply Z.ltb_lt. lia. Qed.

Lemma now_in_window now : (now <? window now) = false.
Proof. pose proof (window_spec now). apply Z.ltb_ge. lia. Qed.

(** The sizes of the potentials, for any clients. *)
Lemma entering_eager cs : count_if entering cs + count_if eager cs <= Z.of_nat (length cs).
Proof. apply count_if_disjoint. by intros [|[]|]. Qed.

Lemma belated_reading w cs : count_if (belated w) cs + count_if reading cs <= Z.of_nat (length cs).
Proof. apply count_if_disjoint. by intros [|[]|]. Qed.

Lemma sizes w cs :
  (0 <= count_if opening cs /\ 0 <= count_if entering cs /\ 0 <= count_if eager cs) /\
  (0 <= count_if (belated w) cs /\ 0 <= count_if reading cs) /\
  count_if entering cs + count_if eager cs <= Z.of_nat (length cs) /\
  count_if (belated w) cs + count_if reading cs <= Z.of_nat (length cs) /\
  Z.of_nat (length cs) * count_if reading cs <= Z.of_nat (length cs) * Z.of_nat (length cs).
Proof.
  pose proof (count_if_nonneg (belated w) cs). pose proof (belated_reading w cs).
  repeat apply conj; auto using count_if_nonneg, entering_eager. nia.
Qed.

Lemma tripped_access s i p s' :
  clients s !! i = Some (Calling p) -> length (clients s) = n -> config (cb s) = conf -> t0 <= clock s ->
  tripped s -> fire (Access i) s = Some s' -> tripped s'.
Proof.
  intros Hi Hn Hc Ht (Hst & Hreg & Hle) Hf. simpl in Hf. rewrite Hi in Hf.
  pose proof (Forall_lookup_1 _ _ _ _ Hreg Hi) as Hp.
  pose proof (fun c => sizes (window (clock s)) (<[i := c]> (clients s))) as Hz. setoid_rewrite length_insert in Hz.
  pose proof (sizes (window (clock s)) (clients s)) as Hz0. rewrite Hn in *.
  assert (Hsq : N <= N * N) by nia.
  revert Hle Hf. destruct s as [[st fc sc lft cf tr tf] cs now rec]; simpl in *; subst cf.
  unfold tripped, ahead, reads, dated_before; simpl. intros Hle Hf.
  destruct p; try done; simpl in Hf; simplify_eq/=; split_match; simplify_eq/=;
    (split; [done|split; [by apply Forall_insert|]]);
    repeat match goal with |- context [count_if _ (<[i := ?c]> cs)] =>
      specialize (Hz c); rewrite ?(count_if_insert _ _ _ _ _ Hi) in *; simpl in *
    end;
    repeat match goal with H : (?a <? ?b) = _, H' : context [?a <? ?b] |- _ => progress rewrite H in H' end;
    repeat match goal with H : (?a <? ?b) = _ |- context [?a <? ?b] => rewrite H end;
    rewrite ?now_in_window in *; reflect_bools;
    try match goal with H : timeout conf <= elapsed _ _ |- _ => apply past_before, Z.ltb_lt in H end; simpl in *; try lia.
Qed.

(** What a window allows is enough to start afresh. *)
Lemma fresh_window now : t0 <= now -> N * N * N <= N * N * N * (1 + windows now).
Proof. intros Hle. pose proof (Z.div_pos (now - t0) (timeout conf) ltac:(lia) positive). unfold windows. nia. Qed.

Lemma early_idle w cs :
  Forall (fun c => early c = true) cs ->
  count_if opening cs = 0 /\ count_if entering cs = 0 /\ count_if (belated w) cs = 0 /\
  Forall (fun c => regular c = true) cs.
Proof.
  intros He. rewrite !count_if_none; [split_and!; try done; eapply Forall_impl; [exact He|]; by intros [|[]|]|..];
    intros c Hc; apply (proj1 (Forall_forall _ _) He) in Hc; by destruct c as [|[]|].
Qed.

(** A breaker that has just tripped, or is found tripped, leaves the cap room. *)
Lemma tripped_start s :
  cb_state (cb s) <> Closed -> Forall (fun c => regular c = true) (clients s) -> length (clients s) = n -> t0 <= clock s ->
  count_if opening (clients s) = 0 -> count_if entering (clients s) = 0 -> count_if (belated (window (clock s))) (clients s) = 0 ->
  received s - r0 <= threshold - 1 + match cb_state (cb s) with Open => N | _ => 0 end -> tripped s.
Proof.
  intros Hst Hreg Hn Ht Ho Hen Hb Hr. split; [done|]. split; [done|].
  unfold ahead, reads. rewrite Ho, Hen, Hb. pose proof (sizes (window (clock s)) (clients s)) as Hz. rewrite Hn in Hz.
  pose proof (fresh_window (clock s) Ht). assert (N * N <= N * N * N) by nia. unfold cap.
  destruct (cb_state (cb s)); [done|..]; destruct (dated_before _ _); lia.
Qed.

Lemma counting_access s i p s' :
  clients s !! i = Some (Calling p) -> length (clients s) = n -> config (cb s) = conf -> t0 <= clock s ->
  counting s -> fire (Access i) s = Some s' -> counting s' \/ tripped s'.
Proof.
  intros Hi Hn Hc Ht (Hst & He & Hfc & Hle) Hf. simpl in Hf. rewrite Hi in Hf.
  pose proof (Forall_lookup_1 _ _ _ _ He Hi) as Hp. destruct (early_idle (window (clock s)) _ He) as (Ho & Hen & Hb & Hreg).
  assert (Hz : forall c f, 0 <= count_if f (<[i := c]> (clients s)) <= N).
  { intros c f. split; [apply count_if_nonneg|]. rewrite <-Hn, <-(length_insert (clients s) i c). apply count_if_le_length. }
  destruct valid as (Hthr & _). revert Hfc Hle Hf Hb.
  destruct s as [[st fc sc lft cf tr tf] cs now rec]; simpl in *; subst cf st. intros Hfc Hle Hf Hb.
  assert (Hbound : p = FailAdd -> is_u64 (fc + 1)).
  { intros ->. pose proof (Hz (Calling FailWriteOpen) tripping) as Ht1. rewrite (count_if_insert _ _ _ _ _ Hi) in Ht1.
    simpl in Ht1. words. }
  destruct p; try done; simpl in Hf; try specialize (Hbound eq_refl); simplify_eq/=; split_match; simplify_eq/=;
    try (left; split; [done|split; [by apply Forall_insert|]]; simpl;
      pose proof (Hz Idle tripping); rewrite !(count_if_insert _ _ _ _ _ Hi) in *; simpl in *; words_small; reflect_bools; lia).
  right. pose proof (Hz (Calling FailWriteOpen) failed) as Hf. rewrite (count_if_insert _ _ _ _ _ Hi) in Hf. simpl in Hf.
  apply tripped_start; simpl; rewrite ?(count_if_insert _ _ _ _ _ Hi), ?length_insert; simpl; try done;
    [by apply Forall_insert|by rewrite Ho|by rewrite Hen|by rewrite Hb|lia].
Qed.

(** A client that only changes its place: nothing is sent, and it may send no more than before. *)
Lemma outage_moves s i c c' :
  clients s !! i = Some c -> early c = true -> early c' = true -> failed c' = failed c ->
  (c, c') = (Idle, Calling AllowCount) \/ (c, c') = (Requesting, Calling FailCount) ->
  outage s -> outage (mkWorld (cb s) (<[i := c']> (clients s)) (clock s) (received s)).
Proof.
  intros Hi Hc Hc' Hfl Hcc (Hn & Hconf & Ht & Hinv). split; [by simpl; rewrite length_insert|]. split; [done|]. split; [done|].
  destruct Hinv as [(Hst & He & Hfc & Hle)|(Hst & Hreg & Hle)]; [left|right]; (split; [done|split; [|]]); simpl.
  - by apply Forall_insert.
  - rewrite !(count_if_insert _ _ _ _ _ Hi), Hfl. destruct Hcc as [[= -> ->]|[= -> ->]]; simpl; lia.
  - apply Forall_insert; [done|]. by destruct Hcc as [[= -> ->]|[= -> ->]].
  - revert Hle. unfold ahead, reads. simpl. rewrite !(count_if_insert _ _ _ _ _ Hi).
    destruct Hcc as [[= -> ->]|[= -> ->]]; simpl; destruct (cb_state (cb s)), (dated_before _ _); lia.
Qed.

(** A new window: the failure time may be found past again, by every client and once more
    for each belated write. *)
Lemma tripped_tick s t :
  length (clients s) = n -> t0 <= clock s -> clock s <= t -> tripped s -> tripped (mkWorld (cb s) (clients s) t (received s)).
Proof.
  intros Hn Ht Hle (Hst & Hreg & Hr). split; [done|]. split; [done|]. simpl.
  pose proof (windows_mono _ _ Hle) as Hm. destruct (decide (windows (clock s) = windows t)) as [He|Hne].
  { unfold window, cap in *. by rewrite <-He. }
  pose proof (sizes (window t) (clients s)) as Hz. pose proof (sizes (window (clock s)) (clients s)) as Hz0. rewrite Hn in *.
  assert (0 <= reads (window (clock s)) s) by (unfold reads; destruct (dated_before _ _); nia).
  assert (reads (window t) (mkWorld (cb s) (clients s) t (received s)) <= N * N)
    by (unfold reads; simpl; destruct (dated_before _ _); nia).
  assert (N * N * N * (1 + windows (clock s)) + N * N * N <= N * N * N * (1 + windows t)) by nia.
  unfold cap, ahead in *. simpl. nia.
Qed.

Lemma split_outage_step s e s' : failing e -> outage s -> step s e s' -> outage s'.
Proof.
  unfold step, fired. intros He Ho Hf. destruct e as [i|i|i ok|t]; cbn [fire] in Hf.
  - destruct (clients s !! i) as [[]|] eqn:Hi; [|done..]. simplify_eq. eapply outage_moves; eauto.
  - destruct (clients s !! i) as [[|p|]|] eqn:Hi; [done| |done..]. destruct Ho as (Hn & Hc & Ht & Hinv).
    assert (Hf' : fire (Access i) s = Some s') by (simpl; by rewrite Hi).
    assert (Hk : config (access (clock s) p (cb s)).2 = config (cb s)) by (clear; access_cases p (cb s)).
    destruct (access (clock s) p (cb s)) as [p' b] eqn:Ha. simpl in Hk.
    assert (Hs' : length (clients s') = n /\ config (cb s') = conf /\ t0 <= clock s').
    { simplify_eq/=. by rewrite length_insert, Hk. }
    destruct Hs' as (Hn' & Hc' & Ht'). split; [done|]. split; [done|]. split; [done|].
    destruct Hinv as [Hco|Htr]; [by eapply counting_access|right; by eapply tripped_access].
  - destruct (clients s !! i) as [[]|] eqn:Hi; [done..| |done]. simpl in He. subst ok. simplify_eq. eapply outage_moves; eauto.
  - destruct (clock s <=? t) eqn:E; [|done]. simplify_eq. reflect_bools. destruct Ho as (Hn & Hc & Ht & Hinv).
    split; [done|]. split; [done|]. split; [simpl; lia|]. destruct Hinv as [Hco|Htr]; [by left|right; by apply tripped_tick].
Qed.

Lemma settled_outage s :
  settled conf s -> length (clients s) = n -> clock s = t0 -> received s = r0 -> outage s.
Proof.
  intros (Hwf & Hc & Hb) Hn Ht Hr. split; [done|]. split; [done|]. split; [lia|].
  assert (He : Forall (fun c => early c = true) (clients s)) by (eapply Forall_impl; [exact Hb|]; by intros []).
  destruct (early_idle (window (clock s)) _ He) as (Ho & Hen & Hbl & Hreg).
  destruct (decide (cb_state (cb s) = Closed)) as [Hst|Hst].
  - left. destruct Hwf as (_ & _ & _ & Hfc & _). rewrite Hst, Hc in Hfc. split; [done|]. split; [done|].
    pose proof (count_if_nonneg tripping (clients s)). pose proof (count_if_nonneg failed (clients s)). lia.
  - right. apply tripped_start; try done; [lia|]. destruct (cb_state (cb s)); lia.
Qed.

Lemma outage_cap s : outage s -> received s - r0 <= cap (clock s).
Proof.
  intros (Hn & Hc & Ht & Hinv). pose proof (fresh_window (clock s) Ht).
  pose proof (sizes (window (clock s)) (clients s)) as Hz. rewrite Hn in Hz.
  destruct Hinv as [(_ & _ & _ & Hle)|(_ & _ & Hle)].
  - pose proof (count_if_le_length failed (clients s)) as Hlf. rewrite Hn in Hlf. unfold cap. lia.
  - assert (0 <= ahead s) by (unfold ahead; destruct (cb_state (cb s)); nia).
    assert (0 <= reads (window (clock s)) s) by (unfold reads; destruct (dated_before _ _); nia). nia.
Qed.

End Bound.

Lemma settled_cap conf s es s' :
  config_ok conf -> 0 < timeout conf -> failure_threshold conf + Z.of_nat (length (clients s)) <= u64_max ->
  settled conf s -> Forall failing es -> steps step s es s' ->
  received s' - received s <= cap conf (length (clients s)) (clock s) (clock s').
Proof.
  intros Hc Hp Hfew Hs Hfail Hsteps.
  assert (Ho : outage conf (length (clients s)) (clock s) (received s) s').
  { refine (steps_invariant _ failing (outage conf _ _ _) _ _ _ _ Hfail _ Hsteps); [by apply split_outage_step|by apply settled_outage]. }
  exact (outage_cap _ _ _ _ Hp _ Ho).
Qed.

End SharedGuarded.

(** ** Properties *)

Import SharedGuarded.

(** What one-step calls leave is settled. *)
Lemma guarded_settled conf n t es g :
  config_ok conf -> steps Guarded.step (Guarded.init conf n t) es g -> settled conf (of_guarded g).
Proof.
  intros Hc Hs.
  assert (Hg : Guarded.sound conf n g).
  { refine (steps_invariant _ (fun _ => True) (Guarded.sound conf n) _ _ _ _ _ _ Hs); [apply Guarded.sound_step|by apply Forall_true|].
    split; [apply length_replicate|by apply ready_new]. }
  destruct Hg as (_ & Hwf & Hcf & _). split; [done|]. split; [done|]. simpl. apply Forall_forall. intros c.
  rewrite list_elem_of_In, in_map_iff. by intros ([] & <- & _).
Qed.

(** C14. A breaker spares an upstream that fails however the calls on it interleave: clients
    that ask, send and report may each stop between any two accesses for any time, and the
    upstream still receives no more than trips the breaker and, per timeout, the cube of
    the number of clients. Per timeout the failure time can be found past once by each
    client and once more by each after every write of a failure time that comes late, and
    each time the breaker is half-open until somebody reports, at most one request each. *)
Theorem split_outage conf s es s' :
  config_ok conf -> 0 < timeout conf -> failure_threshold conf + Z.of_nat (length (clients s)) <= u64_max ->
  settled conf s -> Forall failing es -> steps step s es s' ->
  let n := Z.of_nat (length (clients s)) in
  received s' - received s <=
    Z.max 1 (failure_threshold conf) - 1 + n + n * n * n * (1 + (clock s' - clock s) / timeout conf).
Proof. intros Hc Hp Hfew Hs Hfail Hsteps n. by eapply settled_cap in Hsteps. Qed.

(** Two clients of a breaker that trips at one failure. A timeout later both find the
    failure time past before either makes the breaker half-open: the second does so after
    the first has sent, failed and reopened the breaker, and both send again. *)
Definition brief_config : CircuitBreakerConfig := {| failure_threshold := 1; timeout := 50; success_threshold := 1 |}.
Definition two_clients : world := of_guarded (Guarded.init brief_config 2 0).
Definition asks (i k : nat) : list event := Ask i :: replicate k (Access i).
Definition fails (i k : nat) : list event := Answer i false :: replicate k (Access i).
Definition burst : list event :=
  asks 0 2 ++ asks 1 2 ++ fails 0 6 ++ fails 1 4 ++ [Tick 50] ++ asks 0 3 ++ asks 1 3 ++
  replicate 2 (Access 0) ++ fails 0 7 ++ replicate 2 (Access 1) ++ asks 0 2 ++ fails 0 7 ++ fails 1 4.
Definition burst_end : world := Eval vm_compute in default two_clients (fires fire burst two_clients).

(** More than one-step calls could let through ([guarded_outage]), within the bound. *)
Lemma split_outage_witness :
  fires fire burst two_clients = Some burst_end /\ received burst_end = 5 /\
  1 - 1 + 2 * (1 + (clock burst_end - 0) / 50) < received burst_end /\
  received burst_end - 0 <= 1 - 1 + 2 + 2 * 2 * 2 * (1 + (clock burst_end - 0) / 50).
Proof.
  split; [vm_compute; reflexivity|]. split; [vm_compute; reflexivity|]. split; [vm_compute; reflexivity|].
  apply (split_outage brief_config two_clients burst burst_end).
  - repeat split; vm_compute; congruence.
  - vm_compute. reflexivity.
  - vm_compute. congruence.
  - apply (guarded_settled brief_config 2 0 []); [repeat split; vm_compute; congruence|constructor].
  - repeat constructor.
  - apply fires_sound. vm_compute. reflexivity.
Defined.
