(* ===== verification/BalancedInterleaving.v ===== *)
(** * Clients of a load balancer, every call split (src/src/transport.rs, src/src/circuit_breaker.rs)

    Clients select an endpoint, send it a request, and report how it went, as in
    [Outage.v]; here a client may stop between any two accesses, those of the load
    balancer ([BalancerInterleaving.v]) and those of an endpoint's breaker
    ([BreakerInterleaving.v]). Each endpoint is then a breaker with its clients as in
    [OutageInterleaving.v]. *)

From Stdlib Require Import Ascii String SpecFloat.
From stdpp Require Import prelude strings.
From S2P Require Import Prelude Tasks F64 RoundRobin Breaker Gate BreakerInterleaving Router Transport BalancerInterleaving Outage OutageInterleaving.
Open Scope string_scope.
Open Scope Z_scope.

Module SharedBalanced.
#[local] Existing Instance breaker_gate.

Abbreviation lb_pc := SharedBalancer.pc.
Abbreviation cb_pc := BreakerInterleaving.pc.

(** What a selection does after the breaker it has asked answers. *)
Inductive continuation : Type :=
| First (sample : Z -> Z) (healthy : list nat)
| Other (sample : Z -> Z) (rest : list nat) (refused : string).

(** A client between its calls, in the load balancer, in the breaker of an endpoint, or
    waiting for the endpoint's answer. *)
Inductive client : Type :=
| Free
| Selecting (p : lb_pc)
| Asking (k : continuation) (ep : nat) (q : cb_pc)
| Busy (ep : nat)
| Reporting (p : lb_pc)
| Recording (ep : nat) (q : cb_pc)
| Panicked.

Record world : Type := mkWorld {
  shared : SharedBalancer.cells;
  clients : list client;
  clock : Instant;
  (** the requests that have reached the endpoints, in order *)
  received : list nat
}.

Definition init (addrs : list string) (p : LoadBalancingPolicy) (n : nat) (t : Instant) : world :=
  let '(lb, s) := from_addresses addrs p t [] in mkWorld (SharedBalancer.mkCells s lb) (replicate n Free) t [].

(** The end of an access of the load balancer: the call has returned, or goes on. A
    selection that has returned here has no endpoint. *)
Definition settle (on : lb_pc -> client) (p : lb_pc) : client :=
  match p with
  | SharedBalancer.Done _ Panics => Panicked
  | SharedBalancer.Done _ _ => Free
  | p => on p
  end.

(** The breaker of an endpoint, and a store where it has changed. *)
Definition breaker_at (ep : nat) (sh : SharedBalancer.cells) : option CircuitBreaker.breaker :=
  match SharedBalancer.store sh !! ep with Some e => Some (circuit_breaker e) | None => None end.
Definition write_breaker (ep : nat) (b : CircuitBreaker.breaker) (sh : SharedBalancer.cells) : SharedBalancer.cells :=
  SharedBalancer.on_store (set_breaker b) ep sh.

(** The end of an access of a breaker that a selection asks. *)
Definition answered (sh : SharedBalancer.cells) (k : continuation) (ep : nat) (q : cb_pc) : client :=
  match q with
  | Done MAllow (Some true) => Busy ep
  | Done _ _ =>
      match k with
      | First sample healthy => Selecting (SharedBalancer.SelectOther sample healthy (address_at (SharedBalancer.store sh) ep))
      | Other sample rest refused => Selecting (SharedBalancer.SelectOther sample rest refused)
      end
  | q => Asking k ep q
  end.

Definition recorded (ep : nat) (q : cb_pc) : client :=
  match q with Done _ _ => Free | q => Recording ep q end.

(** One access of a client; a call on a breaker is entered by a step of its own. *)
Definition access (now : Instant) (c : client) (sh : SharedBalancer.cells) : client * SharedBalancer.cells :=
  match c with
  | Selecting (SharedBalancer.SelectAllow sample healthy ep) => (Asking (First sample healthy) ep (start MAllow), sh)
  | Selecting (SharedBalancer.SelectOther sample (i :: rest) refused) =>
      if negb (String.eqb (address_at (SharedBalancer.store sh) i) refused)
      then (Asking (Other sample rest refused) i (start MAllow), sh)
      else (Selecting (SharedBalancer.SelectOther sample rest refused), sh)
  | Selecting p => let '(p, sh) := SharedBalancer.access now p sh in (settle Selecting p, sh)
  | Asking k ep q =>
      match breaker_at ep sh with
      | Some b =>
          let '(q, b) := BreakerInterleaving.access now q b in
          let sh := write_breaker ep b sh in (answered sh k ep q, sh)
      | None => (Panicked, sh)
      end
  | Reporting (SharedBalancer.SuccessBreaker ep _) => (Recording ep (start MSuccess), sh)
  | Reporting (SharedBalancer.FailureBreaker ep) => (Recording ep (start MFailure), sh)
  | Reporting p => let '(p, sh) := SharedBalancer.access now p sh in (settle Reporting p, sh)
  | Recording ep q =>
      match breaker_at ep sh with
      | Some b =>
          let '(q, b) := BreakerInterleaving.access now q b in
          (recorded ep q, write_breaker ep b sh)
      | None => (Panicked, sh)
      end
  | c => (c, sh)
  end.

Definition in_call (c : client) : bool :=
  match c with Selecting _ | Asking _ _ _ | Reporting _ | Recording _ _ => true | _ => false end.

Inductive event : Type :=
| Select (i : nat) (sample : Z -> Z)
| Access (i : nat)
| Report (i ep : nat) (answer : option Duration)
| Touch (ep : nat) (c : endpoint_call)
| Tick (t : Instant).

Definition report (ep : nat) (answer : option Duration) : SharedBalancer.call :=
  match answer with Some d => SharedBalancer.CSuccess ep d | None => SharedBalancer.CFailure ep end.

(** An endpoint is returned when its breaker has let the request pass. *)
Definition sent (c : client) : list nat := match c with Busy ep => [ep] | _ => [] end.

Definition fire (e : event) (s : world) : option world :=
  match e with
  | Select i sample =>
      match clients s !! i with
      | Some Free =>
          Some (mkWorld (shared s) (<[i := Selecting (SharedBalancer.start (SharedBalancer.CSelect sample))]> (clients s))
            (clock s) (received s))
      | _ => None
      end
  | Access i =>
      match clients s !! i with
      | Some c =>
          if in_call c then
            let '(c, sh) := access (clock s) c (shared s) in
            Some (mkWorld sh (<[i := c]> (clients s)) (clock s) (received s ++ sent c))
          else None
      | None => None
      end
  | Report i ep answer =>
      match clients s !! i with
      | Some (Busy ep') =>
          if decide (ep' = ep) then
            Some (mkWorld (shared s) (<[i := Reporting (SharedBalancer.start (report ep answer))]> (clients s))
              (clock s) (received s))
          else None
      | _ => None
      end
  | Touch ep c =>
      if Balanced.upkeep c then
        Some (mkWorld (SharedBalancer.on_store (endpoint_exec c) ep (shared s)) (clients s) (clock s) (received s))
      else None
  | Tick t => if clock s <=? t then Some (mkWorld (shared s) (clients s) t (received s)) else None
  end.

Definition step : world -> event -> world -> Prop := fired fire.

(** ** One endpoint *)

Section Endpoint.
Context (ep : nat).

(** The endpoint a report is about, before it comes to the breaker. *)
Definition reported (p : lb_pc) : option nat :=
  match SharedBalancerFacts.call_of p with
  | SharedBalancer.CSuccess i _ | SharedBalancer.CFailure i => Some i
  | _ => None
  end.

(** A client as the breaker of the endpoint knows it. *)
Definition at_breaker (c : client) : SharedGuarded.client :=
  match c with
  | Asking _ i q | Recording i q => if decide (i = ep) then SharedGuarded.Calling q else SharedGuarded.Idle
  | Busy i => if decide (i = ep) then SharedGuarded.Requesting else SharedGuarded.Idle
  | Reporting p => if decide (reported p = Some ep) then SharedGuarded.Requesting else SharedGuarded.Idle
  | Free | Selecting _ | Panicked => SharedGuarded.Idle
  end.

Definition sent_to (s : world) : Z := count_if (Nat.eqb ep) (received s).

(** The endpoint and its clients. *)
Definition sees (s : world) (g : SharedGuarded.world) : Prop :=
  breaker_at ep (shared s) = Some (SharedGuarded.cb g) /\ SharedGuarded.clients g = map at_breaker (clients s) /\
  SharedGuarded.clock g = clock s /\ SharedGuarded.received g = sent_to s.

(** No report of a success concerns the endpoint. *)
Definition failing (e : event) : Prop := match e with Report _ i (Some _) => i <> ep | _ => True end.

(** No success of the endpoint is on its way to the breaker. *)
Definition no_success (c : client) : Prop :=
  match c with
  | Reporting p => match SharedBalancerFacts.call_of p with SharedBalancer.CSuccess i _ => i <> ep | _ => True end
  | _ => True
  end.

(** *** Lemmas *)

Lemma breaker_on_store f i sh :
  (i = ep -> forall e : Endpoint, circuit_breaker (f e) = circuit_breaker e) ->
  breaker_at ep (SharedBalancer.on_store f i sh) = breaker_at ep sh.
Proof.
  intros Hf. unfold breaker_at. simpl. destruct (decide (i = ep)) as [->|Hne].
  - rewrite list_lookup_alter_eq. destruct (SharedBalancer.store sh !! ep); [|done]. simpl. by rewrite Hf.
  - by rewrite list_lookup_alter_ne.
Qed.

Lemma breaker_written i b sh :
  breaker_at ep (write_breaker i b sh) = if decide (i = ep) then const b <$> breaker_at ep sh else breaker_at ep sh.
Proof.
  destruct (decide (i = ep)) as [->|Hne].
  - unfold breaker_at, write_breaker. simpl. rewrite list_lookup_alter_eq. by destruct (SharedBalancer.store sh !! ep).
  - by apply breaker_on_store.
Qed.

(** The positions of the load balancer that do not touch a breaker. *)
Definition outer (p : lb_pc) : bool :=
  match p with
  | SharedBalancer.SelectAllow _ _ _ | SharedBalancer.SelectOther _ (_ :: _) _
  | SharedBalancer.SuccessBreaker _ _ | SharedBalancer.FailureBreaker _ => false
  | _ => true
  end.

Lemma outer_keeps now p sh :
  outer p = true -> breaker_at ep (SharedBalancer.access now p sh).2 = breaker_at ep sh.
Proof.
  intros Ho. destruct p as [[]|sample [|i rest] seen|sample ids|sample [|i rest] ids [[b m]|]|sample ids i|sample [|i rest] refused
    | | | | | |]; simpl in *; try done; try (by apply breaker_on_store).
  by destruct (policy _).
Qed.

(** Where clients can be. *)
Definition placed (c : client) : Prop :=
  match c with
  | Selecting p => (exists sample, SharedBalancerFacts.call_of p = SharedBalancer.CSelect sample) /\ SharedBalancer.is_done p = false
  | Reporting p => is_Some (reported p) /\ SharedBalancer.is_done p = false
  | Recording _ q => method_of q <> MAllow
  | _ => True
  end.

(** Accesses of the load balancer proper. *)
Lemma selecting_outer now p sh :
  outer p = true ->
  access now (Selecting p) sh = (settle Selecting (SharedBalancer.access now p sh).1, (SharedBalancer.access now p sh).2).
Proof.
  intros Ho. destruct p as [c|sample rest seen|sample ids|sample rest ids best|sample ids i|sample [|i rest] refused| | | | | |c a];
    try done; cbn [access]; match goal with |- context [SharedBalancer.access ?n ?q ?s] => by destruct (SharedBalancer.access n q s) end.
Qed.

Lemma reporting_outer now p sh :
  outer p = true -> is_Some (reported p) -> SharedBalancer.is_done p = false ->
  access now (Reporting p) sh = (Reporting (SharedBalancer.access now p sh).1, (SharedBalancer.access now p sh).2) /\
  reported (SharedBalancer.access now p sh).1 = reported p /\
  SharedBalancer.is_done (SharedBalancer.access now p sh).1 = false.
Proof.
  intros Ho Hr Hd. unfold reported. rewrite SharedBalancerFacts.call_kept.
  destruct p as [[]| | | | | | | | | | |[]]; try done; by destruct Hr.
Qed.

Lemma settled_selecting p : at_breaker (settle Selecting p) = SharedGuarded.Idle /\ sent (settle Selecting p) = [].
Proof. destruct p as [| | | | | | | | | | |c []]; done. Qed.

Lemma entering_seen i (k : continuation) :
  (i <> ep /\ at_breaker (Asking k i (start MAllow)) = SharedGuarded.Idle) \/
  at_breaker (Asking k i (start MAllow)) = SharedGuarded.Calling (start MAllow).
Proof. simpl. destruct (decide (i = ep)); [by right|by left]. Qed.

(** The end of an access of the endpoint's breaker. *)
Lemma answered_seen sh k i q :
  at_breaker (answered sh k i q) = (if decide (i = ep) then SharedGuarded.resume q else SharedGuarded.Idle) /\
  count_if (Nat.eqb ep) (sent (answered sh k i q)) = if decide (i = ep) then SharedGuarded.sends (SharedGuarded.resume q) else 0.
Proof.
  destruct q as [| | | | | | | | | | | | | | | | | | | | | | | | | | | |[] [[]|]], k; simpl; destruct (decide (i = ep)) as [->|Hne];
    unfold count_if; simpl; rewrite ?Nat.eqb_refl; try done; destruct (Nat.eqb_spec ep i); done.
Qed.

Lemma recorded_seen i q :
  method_of q <> MAllow ->
  at_breaker (recorded i q) = (if decide (i = ep) then SharedGuarded.resume q else SharedGuarded.Idle) /\ sent (recorded i q) = [] /\
  SharedGuarded.sends (SharedGuarded.resume q) = 0.
Proof. intros Hm. destruct q as [| | | | | | | | | | | | | | | | | | | | | | | | | | | |[] a]; simpl; by destruct (decide (i = ep)). Qed.

(** What an access means to the breaker of the endpoint: nothing, or the client asks, or
    it reports, or it performs an access of its call. *)
Lemma access_seen now c sh c' sh' b :
  placed c -> in_call c = true -> access now c sh = (c', sh') -> breaker_at ep sh = Some b ->
  (at_breaker c' = at_breaker c /\ breaker_at ep sh' = Some b /\ count_if (Nat.eqb ep) (sent c') = 0) \/
  (at_breaker c = SharedGuarded.Idle /\ at_breaker c' = SharedGuarded.Calling (start MAllow) /\
     breaker_at ep sh' = Some b /\ count_if (Nat.eqb ep) (sent c') = 0) \/
  (exists ok : bool, at_breaker c = SharedGuarded.Requesting /\
     at_breaker c' = SharedGuarded.Calling (start (if ok then MSuccess else MFailure)) /\
     breaker_at ep sh' = Some b /\ count_if (Nat.eqb ep) (sent c') = 0 /\ (no_success c -> ok = false)) \/
  (exists q q' b', at_breaker c = SharedGuarded.Calling q /\ BreakerInterleaving.access now q b = (q', b') /\
     at_breaker c' = SharedGuarded.resume q' /\ breaker_at ep sh' = Some b' /\
     count_if (Nat.eqb ep) (sent c') = SharedGuarded.sends (SharedGuarded.resume q')).
Proof.
  intros Hp Hc Ha Hb. destruct c as [|p|k i q|i|p|i q|]; try done.
  - destruct (outer p) eqn:Ho.
    { left. rewrite selecting_outer in Ha by done. simplify_eq. rewrite outer_keeps by done.
      destruct (settled_selecting (SharedBalancer.access now p sh).1) as [-> ->]. done. }
    destruct p as [| | | |sample ids i|sample [|i rest] refused| | | | | |]; try done; [| |by destruct Hp as [[] _]|by destruct Hp as [[] _]];
      cbn [access] in Ha; [|destruct (negb _); [|simplify_eq; by left]]; simplify_eq;
      (destruct (entering_seen i (First sample ids)) as [[Hne H]|H] || destruct (entering_seen i (Other sample rest refused)) as [[Hne H]|H]);
      [left|right; left|left|right; left]; by rewrite H.
  - cbn [access] in Ha. destruct (breaker_at i sh) as [b1|] eqn:Hi.
    + destruct (BreakerInterleaving.access now q b1) as [q' b'] eqn:Hq. simplify_eq.
      destruct (answered_seen (write_breaker i b' sh) k i q') as [H1 H2]. rewrite H1, H2, breaker_written, Hb. simpl.
      destruct (decide (i = ep)) as [->|Hne]; [|by left]. right; right; right. simplify_eq. by exists q, q', b'.
    + simplify_eq. left. destruct (decide (i = ep)) as [->|Hne]; [congruence|]. simpl. by rewrite decide_False.
  - destruct Hp as [Hr Hd]. destruct (outer p) eqn:Ho.
    { left. destruct (reporting_outer now p sh Ho Hr Hd) as (Hacc & Hrep & _). rewrite Hacc in Ha. simplify_eq.
      rewrite outer_keeps by done. simpl. by rewrite Hrep. }
    destruct p as [| | | |sample ids i|sample [|i rest] refused| | |i d| |i|]; try done; try (by destruct Hr);
      cbn [access] in Ha; simplify_eq; simpl; unfold reported; simpl;
      (destruct (decide (i = ep)) as [->|Hne]; [rewrite decide_True by done|rewrite decide_False by congruence; by left]);
      right; right; left; [exists true|exists false]; split_and!; done.
  - cbn [access] in Ha. destruct (breaker_at i sh) as [b1|] eqn:Hi.
    + destruct (BreakerInterleaving.access now q b1) as [q' b'] eqn:Hq. simplify_eq.
      pose proof (method_kept now q b1) as Hm. rewrite Hq in Hm. simpl in Hm.
      destruct (recorded_seen i q') as (H1 & H2 & H3); [by rewrite Hm|]. rewrite H1, H2, breaker_written, Hb. simpl.
      destruct (decide (i = ep)) as [->|Hne]; [|by left]. right; right; right. simplify_eq. exists q, q', b'. by rewrite H3.
    + simplify_eq. left. destruct (decide (i = ep)) as [->|Hne]; [congruence|]. simpl. by rewrite decide_False.
Qed.

(** Accesses keep clients in their places and, as long as [F] says that the endpoint fails,
    start no success. *)
Section Run.
Context (F : Prop).

Definition sound_place (c : client) : Prop := placed c /\ (F -> no_success c).

Lemma settled_sound p sample :
  SharedBalancerFacts.call_of p = SharedBalancer.CSelect sample -> sound_place (settle Selecting p).
Proof. intros Hc. destruct p as [| | | | | | | | | | |c []]; split; try done; (split; [by exists sample|done]). Qed.

Lemma sound_access now c sh : sound_place c -> in_call c = true -> sound_place (access now c sh).1.
Proof.
  intros [Hp Hn] Hc. destruct c as [|p|k i q|i|p|i q|]; try done.
  - destruct (outer p) eqn:Ho.
    + rewrite selecting_outer by done. destruct Hp as [[sample Hs] _].
      apply (settled_sound _ sample). by rewrite SharedBalancerFacts.call_kept.
    + destruct Hp as [[sample' Hs] _]. destruct p as [| | | |sample ids i|sample [|i rest] refused| | | | | |]; try done; cbn [access].
      destruct (negb _); [done|]. split; [split; [by exists sample|done]|done].
  - cbn [access]. destruct (breaker_at i sh) as [b|]; [|done]. destruct (BreakerInterleaving.access now q b) as [q' b'].
    destruct q' as [| | | | | | | | | | | | | | | | | | | | | | | | | | | |[] [[]|]], k as [sample ids|sample rest refused]; try done;
      (split; [split; [by exists sample|done]|done]).
  - destruct Hp as [Hr Hd]. destruct (outer p) eqn:Ho.
    + destruct (reporting_outer now p sh Ho Hr Hd) as (-> & Hrep & Hd'). split; [split; [by rewrite Hrep|done]|].
      intros HF. specialize (Hn HF). simpl in Hn |- *. by rewrite SharedBalancerFacts.call_kept.
    + destruct p as [| | | |sample ids i|sample [|i rest] refused| | |i d| |i|]; try done; by destruct Hr.
  - cbn [access]. destruct (breaker_at i sh) as [b|]; [|done]. pose proof (method_kept now q b) as Hm.
    destruct (BreakerInterleaving.access now q b) as [q' b']. simpl in Hm, Hp. rewrite <-Hm in Hp.
    by destruct q' as [| | | | | | | | | | | | | | | | | | | | | | | | | | | |m a].
Qed.

Lemma split_sound_step s e s' :
  (F -> failing e) -> Forall sound_place (clients s) -> step s e s' -> Forall sound_place (clients s').
Proof.
  unfold step, fired. intros He Hs Hf. destruct e as [i sample|i|i j answer|j c|t]; cbn [fire] in Hf.
  - destruct (clients s !! i) as [[]|]; try done. simplify_eq. apply Forall_insert; [done|]. split; [split; [by exists sample|done]|done].
  - destruct (clients s !! i) as [c|] eqn:Hi; [|done]. destruct (in_call c) eqn:Hc; [|done].
    pose proof (sound_access (clock s) c (shared s) (Forall_lookup_1 _ _ _ _ Hs Hi) Hc) as Ha.
    destruct (access _ _ _) as [c' sh']. simplify_eq. by apply Forall_insert.
  - destruct (clients s !! i) as [[]|]; try done. case_decide; [|done]. simplify_eq. apply Forall_insert; [done|].
    destruct answer; simpl; (split; [by split; [eexists|]|done]).
  - destruct (Balanced.upkeep c); [|done]. by simplify_eq.
  - destruct (clock s <=? t); [|done]. by simplify_eq.
Qed.

(** A client that the breaker does not see move. *)
Lemma sees_still s g i c c' sh' :
  clients s !! i = Some c -> at_breaker c' = at_breaker c -> breaker_at ep sh' = breaker_at ep (shared s) ->
  count_if (Nat.eqb ep) (sent c') = 0 -> sees s g ->
  sees (mkWorld sh' (<[i := c']> (clients s)) (clock s) (received s ++ sent c')) g.
Proof.
  intros Hi Hc Hb Hn (Hcb & Hcl & Hck & Hr). split; [exact (eq_trans Hb Hcb)|]. split; [|split; [done|]].
  - simpl. rewrite Hcl. change (map at_breaker) with (fmap (M := list) at_breaker). rewrite list_fmap_insert, Hc.
    symmetry. apply list_insert_id. by rewrite list_lookup_fmap, Hi.
  - unfold sent_to. simpl. by rewrite count_if_app, Hn, Z.add_0_r.
Qed.

(** A client that moves at the breaker: the same move there. *)
Lemma sees_moves s g i c c' sh' b x :
  clients s !! i = Some c -> at_breaker c' = x -> breaker_at ep sh' = Some b -> sees s g ->
  SharedGuarded.clients g !! i = Some (at_breaker c) /\
  sees (mkWorld sh' (<[i := c']> (clients s)) (clock s) (received s ++ sent c'))
    (SharedGuarded.mkWorld b (<[i := x]> (SharedGuarded.clients g)) (SharedGuarded.clock g)
      (SharedGuarded.received g + count_if (Nat.eqb ep) (sent c'))).
Proof.
  intros Hi <- Hb (Hcb & Hcl & Hck & Hr). rewrite Hcl. change (map at_breaker) with (fmap (M := list) at_breaker). split.
  - by rewrite list_lookup_fmap, Hi.
  - split; [done|]. split; [simpl; change (map at_breaker) with (fmap (M := list) at_breaker); by rewrite list_fmap_insert|].
    split; [done|]. unfold sent_to in *. simpl. by rewrite count_if_app, Hr.
Qed.

Abbreviation guarded_step := SharedGuarded.step.

Lemma access_step s g i c c' sh' :
  clients s !! i = Some c -> in_call c = true -> sound_place c -> access (clock s) c (shared s) = (c', sh') -> sees s g ->
  exists es g', steps guarded_step g es g' /\ (F -> Forall SharedGuarded.failing es) /\
    sees (mkWorld sh' (<[i := c']> (clients s)) (clock s) (received s ++ sent c')) g'.
Proof.
  intros Hi Hc [Hp Hn] Ha Hs. pose proof Hs as (Hcb & _ & Hck & _).
  destruct (access_seen _ _ _ _ _ _ Hp Hc Ha Hcb) as [(H1 & H2 & H3)|[(H1 & H2 & H3 & H4)|[(ok & H1 & H2 & H3 & H4 & H5)|
    (q & q' & b' & H1 & H2 & H3 & H4 & H5)]]].
  - exists [], g. split; [constructor|]. split; [done|]. eapply sees_still; eauto. congruence.
  - destruct (sees_moves s g i c c' sh' _ _ Hi H2 H3 Hs) as [Hl Hs']. rewrite H1 in Hl. rewrite H4, Z.add_0_r in Hs'.
    eexists [SharedGuarded.Ask i], _. split; [|split; [by constructor|exact Hs']].
    econstructor; [|constructor]. unfold guarded_step, fired. simpl. by rewrite Hl.
  - destruct (sees_moves s g i c c' sh' _ _ Hi H2 H3 Hs) as [Hl Hs']. rewrite H1 in Hl. rewrite H4, Z.add_0_r in Hs'.
    eexists [SharedGuarded.Answer i ok], _. split; [|split; [intros HF; constructor; [by apply H5, Hn|done]|exact Hs']].
    econstructor; [|constructor]. unfold guarded_step, fired. simpl. by rewrite Hl.
  - destruct (sees_moves s g i c c' sh' _ _ Hi H3 H4 Hs) as [Hl Hs']. rewrite H1 in Hl. rewrite H5 in Hs'.
    eexists [SharedGuarded.Access i], _. split; [|split; [by constructor|exact Hs']].
    econstructor; [|constructor]. unfold guarded_step, fired. simpl. by rewrite Hl, Hck, H2.
Qed.

Lemma step_seen s e s' g :
  (F -> failing e) -> Forall sound_place (clients s) -> step s e s' -> sees s g ->
  exists es g', steps guarded_step g es g' /\ (F -> Forall SharedGuarded.failing es) /\ sees s' g'.
Proof.
  unfold step, fired. intros He Hp Hf Hs. destruct e as [i sample|i|i j answer|j c|t]; cbn [fire] in Hf.
  - destruct (clients s !! i) as [[]|] eqn:Hi; try done. simplify_eq. exists [], g. split; [constructor|]. split; [done|].
    pose proof (sees_still s g i Free (Selecting (SharedBalancer.start (SharedBalancer.CSelect sample))) (shared s) Hi
      eq_refl eq_refl eq_refl Hs) as H. by rewrite app_nil_r in H.
  - destruct (clients s !! i) as [c|] eqn:Hi; [|done]. destruct (in_call c) eqn:Hc; [|done].
    destruct (access _ _ _) as [c' sh'] eqn:Ha. simplify_eq. eapply access_step; eauto. by eapply (Forall_lookup_1 _ _ _ _ Hp).
  - destruct (clients s !! i) as [[| | |j'| | |]|] eqn:Hi; try done. case_decide as Hj; [|done]. subst j'. simplify_eq.
    exists [], g. split; [constructor|]. split; [done|].
    pose proof (sees_still s g i (Busy j) (Reporting (SharedBalancer.start (report j answer))) (shared s) Hi) as H.
    rewrite app_nil_r in H. apply H; try done. simpl. unfold reported. destruct answer; simpl;
      (destruct (decide (j = ep)) as [->|Hne]; [by rewrite decide_True|by rewrite decide_False by congruence]).
  - destruct (Balanced.upkeep c) eqn:Hu; [|done]. simplify_eq. exists [], g. split; [constructor|]. split; [done|].
    destruct Hs as (Hcb & Hcl & Hck & Hr). split; [|done]. simpl. rewrite breaker_on_store; [done|]. intros _ e.
    by apply Balanced.upkeep_breaker.
  - destruct (clock s <=? t) eqn:Ht; [|done]. simplify_eq. destruct Hs as (Hcb & Hcl & Hck & Hr).
    eexists [SharedGuarded.Tick t], _. split; [|split; [by constructor|]].
    + econstructor; [|constructor]. unfold guarded_step, fired. simpl. by rewrite Hck, Ht.
    + by split_and!.
Qed.

Lemma run_seen s es s' g :
  Forall (fun e => F -> failing e) es -> Forall sound_place (clients s) -> steps step s es s' -> sees s g ->
  exists es' g', steps guarded_step g es' g' /\ (F -> Forall SharedGuarded.failing es') /\ sees s' g'.
Proof.
  intros He Hp Hs. revert He Hp g. induction Hs as [s|s e s1 es s2 Hst Hs IH]; intros He Hp g Hg.
  { exists [], g. split; [constructor|]. by split. }
  apply Forall_cons in He as [He Hes]. destruct (step_seen _ _ _ _ He Hp Hst Hg) as (es1 & g1 & Hs1 & Hf1 & Hg1).
  destruct (IH Hes (split_sound_step _ _ _ He Hp Hst) g1 Hg1) as (es2 & g2 & Hs2 & Hf2 & Hg2).
  exists (es1 ++ es2)%list, g2. split; [by eapply steps_app|]. split; [|done]. intros HF. apply Forall_app. by split; auto.
Qed.

End Run.

(** Between calls. *)
Definition waiting (c : client) : Prop := match c with Free | Busy _ => True | _ => False end.

(** The endpoint as its breaker knows it. *)
Definition view (b : CircuitBreaker.breaker) (s : world) : SharedGuarded.world :=
  SharedGuarded.mkWorld b (map at_breaker (clients s)) (clock s) (sent_to s).

Lemma waiting_run (F : Prop) s es s' b :
  Forall (fun e => F -> failing e) es -> breaker_at ep (shared s) = Some b -> Forall waiting (clients s) -> steps step s es s' ->
  exists es' g', steps SharedGuarded.step (view b s) es' g' /\ (F -> Forall SharedGuarded.failing es') /\ sees s' g'.
Proof.
  intros He Hb Hw Hs. apply (run_seen F s es s'); try done. eapply Forall_impl; [exact Hw|]. by intros [].
Qed.

Lemma waiting_settled conf s b :
  CircuitBreaker.wf b -> CircuitBreaker.config b = conf -> Forall waiting (clients s) -> SharedGuarded.settled conf (view b s).
Proof.
  intros Hwf Hc Hw. split; [done|]. split; [done|]. simpl. apply Forall_forall. intros c.
  rewrite list_elem_of_In, in_map_iff. intros (c0 & <- & Hin). apply list_elem_of_In in Hin.
  apply (proj1 (Forall_forall _ _) Hw) in Hin. destruct c0; try done. simpl. by case_decide.
Qed.

End Endpoint.
End SharedBalanced.

(** ** Properties *)

Import SharedBalanced.

(** C7. Each endpoint of a load balancer is a breaker and its clients. However clients select,
    send, report and are stopped in between, whatever the policy and whatever happens to
    the health, weight and connection count of endpoints, what the endpoint's breaker goes
    through is a run of clients that ask, send and report one breaker: the same breaker,
    the same requests received, each client where its calls on the breaker have brought it.
    When no success of the endpoint is reported, neither is one in that run. *)
Theorem balanced_refines_guarded ep s es s' b :
  breaker_at ep (shared s) = Some b -> Forall waiting (clients s) -> steps step s es s' ->
  exists es' g', steps SharedGuarded.step (view ep b s) es' g' /\ sees ep s' g' /\
    (Forall (failing ep) es -> Forall SharedGuarded.failing es').
Proof.
  intros Hb Hw Hs. destruct (waiting_run ep (Forall (failing ep) es) s es s' b) as (es' & g' & H1 & H2 & H3); eauto.
  apply Forall_forall. intros e He HF. by apply (proj1 (Forall_forall _ _) HF).
Qed.

(** C4. A load balancer with its breakers spares an endpoint that fails, in every interleaving
    of all its calls down to the accesses of the breakers: from any moment between calls
    at which the endpoint's breaker is as calls made one at a time leave it, as long as no
    success of the endpoint is reported, it receives no more than four requests, one of
    each client, and per started thirty seconds the cube of the number of clients. *)
Theorem balanced_split_outage ep s es s' b :
  let n := Z.of_nat (length (clients s)) in
  n < 2 ^ 32 -> breaker_at ep (shared s) = Some b -> CircuitBreaker.wf b -> CircuitBreaker.config b = default_config ->
  Forall waiting (clients s) -> Forall (failing ep) es -> steps step s es s' ->
  sent_to ep s' - sent_to ep s <= 4 + n + n * n * n * (1 + (clock s' - clock s) / from_secs 30).
Proof.
  intros n Hn Hb Hwf Hc Hw Hf Hs.
  destruct (waiting_run ep True s es s' b) as (es' & g' & Hg & Hfail & (_ & _ & Hck & Hr)); [|done..|].
  { eapply Forall_impl; [exact Hf|]. by intros. }
  eapply (SharedGuarded.settled_cap default_config) in Hg; [|by apply default_config_ok|done|..].
  - unfold view, SharedGuarded.cap in Hg. simpl in Hg. rewrite length_map, Hck, Hr in Hg. exact Hg.
  - unfold view. simpl. rewrite length_map. subst n. unfold u64_max, u64_modulus. lia.
  - by apply waiting_settled.
  - by apply Hfail.
Qed.

(** Two clients, two endpoints, the preferred one failing. A timeout after its breaker has
    tripped both find the failure time past before either makes the breaker half-open. *)
Section Burst.
#[local] Existing Instance breaker_gate.

Definition pair_world : world := init ["http://a:1"; "http://b:1"] LeastConnections 2 0.
Definition accesses (i k : nat) : list event := replicate k (Access i).
Definition selects (i k : nat) : list event := Select i (fun _ => 0) :: accesses i k.
Definition fails (i k : nat) : list event := Report i 0 None :: accesses i k.
Definition burst : list event :=
  (mjoin (replicate 4 (selects 0 10 ++ fails 0 6)) ++ selects 0 10 ++ selects 1 10 ++ fails 0 9 ++ fails 1 7 ++
  [Tick (from_secs 30)] ++ selects 0 11 ++ selects 1 11 ++ accesses 0 2 ++ fails 0 10 ++ accesses 1 2 ++ selects 0 10)%list.
Definition burst_end : world := Eval vm_compute in default pair_world (fires fire burst pair_world).

Lemma burst_runs : steps step pair_world burst burst_end.
Proof. apply fires_sound. reflexivity. Qed.

Lemma pair_waits : Forall waiting (clients pair_world).
Proof. repeat constructor. Qed.

Lemma burst_fails : Forall (failing 0) burst.
Proof. repeat constructor. Qed.

Lemma balanced_refines_guarded_witness :
  exists es' g', steps SharedGuarded.step (view 0 (CircuitBreaker.new default_config) pair_world) es' g' /\
    SharedGuarded.received g' = 9 /\ Forall SharedGuarded.failing es'.
Proof.
  destruct (balanced_refines_guarded 0 pair_world burst burst_end (CircuitBreaker.new default_config))
    as (es' & g' & Hs & (_ & _ & _ & Hr) & Hf).
  - reflexivity.
  - exact pair_waits.
  - exact burst_runs.
  - exists es', g'. split; [exact Hs|]. split; [|exact (Hf burst_fails)]. rewrite Hr. reflexivity.
Defined.

(** One request more than when calls on a breaker are one step each ([balanced_outage]). *)
Lemma balanced_split_outage_witness :
  sent_to 0 burst_end = 9 /\ 4 + 2 * (1 + (clock burst_end - 0) / from_secs 30) < sent_to 0 burst_end /\
  sent_to 0 burst_end - sent_to 0 pair_world <= 4 + 2 + 2 * 2 * 2 * (1 + (clock burst_end - 0) / from_secs 30).
Proof.
  split; [reflexivity|]. split; [reflexivity|].
  apply (balanced_split_outage 0 pair_world burst burst_end (CircuitBreaker.new default_config)).
  - reflexivity.
  - reflexivity.
  - apply new_wf, default_config_ok.
  - reflexivity.
  - exact pair_waits.
  - exact burst_fails.
  - exact burst_runs.
Defined.
End Burst.
