(* ===== verification/BalancedSelection.v ===== *)
(** * What the split calls of a load balancer return, and when (src/src/transport.rs, src/src/circuit_breaker.rs)

    The clients of [BalancedInterleaving.v], every call split down to the accesses of the
    breakers: no call panics or waits, each ends within a bound of accesses, and a
    selection returns an endpoint that has been healthy. *)

From Stdlib Require Import Ascii String SpecFloat.
From stdpp Require Import prelude strings.
From S2P Require Import Prelude Tasks F64 RoundRobin Breaker Gate BreakerInterleaving Router Transport BalancerInterleaving Outage BalancedInterleaving.
Open Scope string_scope.
Open Scope Z_scope.
Import SharedBalanced.

Section Sound.
#[local] Existing Instance breaker_gate.
Context (ids : list nat) (ok : nat -> Prop) (len : nat).
Hypothesis inside : forall i, i ∈ ids -> (i < len)%nat.

Abbreviation usable := (SharedBalancerFacts.usable ids ok).

(** Every endpoint a client has in hand is one of the balancer's and has been healthy. *)
Definition client_ok (c : client) : Prop :=
  match c with
  | Free => True
  | Selecting p => SharedBalancerFacts.pc_ok ids ok p
  | Asking (First _ healthy) i _ => Forall usable healthy /\ usable i
  | Asking (Other _ rest _) i _ => Forall usable rest /\ usable i
  | Busy i => usable i
  | Reporting p => forall i, reported p = Some i -> i ∈ ids
  | Recording i _ => i ∈ ids
  | Panicked => False
  end.

Definition cells_ok (sh : SharedBalancer.cells) : Prop :=
  SharedBalancerFacts.cells_ok ids ok sh /\ length (SharedBalancer.store sh) = len.

Lemma on_store_kept f i sh :
  (forall e : Endpoint, healthy (f e) = healthy e) -> cells_ok sh -> cells_ok (SharedBalancer.on_store f i sh).
Proof. intros Hf [Hc Hl]. split; [by apply SharedBalancerFacts.on_store_ok|]. simpl. by rewrite length_alter. Qed.

Lemma breaker_found i sh : cells_ok sh -> i ∈ ids -> is_Some (breaker_at i sh).
Proof.
  intros [_ Hl] Hi. apply inside in Hi. rewrite <-Hl in Hi. apply lookup_lt_is_Some_2 in Hi as [e He].
  unfold breaker_at. rewrite He. by eexists.
Qed.

Lemma outer_length now p sh :
  outer p = true -> length (SharedBalancer.store (SharedBalancer.access now p sh).2) = length (SharedBalancer.store sh).
Proof.
  intros Ho. destruct p as [[]|sample [|i rest] seen|sample l|sample [|i rest] l [[b m]|]|sample l i|sample [|i rest] refused
    | | | | | |]; simpl in *; try done; try (by rewrite length_alter).
  by destruct (policy _).
Qed.

Lemma settled_ok p sample :
  SharedBalancerFacts.call_of p = SharedBalancer.CSelect sample -> SharedBalancerFacts.pc_ok ids ok p ->
  client_ok (settle Selecting p).
Proof. intros Hc Hp. destruct p as [| | | | | | | | | | |c []]; try done. simpl in Hc. by subst c. Qed.

Lemma answered_ok sh k i q : client_ok (Asking k i q) -> client_ok (answered sh k i q).
Proof.
  intros Hk. destruct k as [sample healthy|sample rest refused]; destruct Hk as [Hl Hi];
    destruct q as [| | | | | | | | | | | | | | | | | | | | | | | | | | | |[] [[]|]]; done.
Qed.

Lemma call_ok now c sh :
  cells_ok sh -> placed c -> client_ok c -> in_call c = true ->
  cells_ok (access now c sh).2 /\ client_ok (access now c sh).1.
Proof.
  intros Hsh Hp Hok Hc. destruct c as [|p|k i q|i|p|i q|]; try done.
  - destruct (outer p) eqn:Ho.
    + rewrite selecting_outer by done. destruct Hp as [[sample Hs] _].
      destruct (SharedBalancerFacts.access_pc_ok ids ok now p sh (proj1 Hsh) Hok) as [Hsh' Hok'].
      split; [split; [done|rewrite <-(proj2 Hsh); by apply outer_length]|].
      apply (settled_ok _ sample); [|done]. by rewrite SharedBalancerFacts.call_kept.
    + destruct Hp as [[sample' Hs] _]. destruct p as [| | | |sample l i|sample [|i rest] refused| | | | | |]; try done; cbn [access].
      simpl in Hok. apply Forall_cons in Hok as [Hi Hrest]. by destruct (negb _).
  - assert (Hi : i ∈ ids) by (destruct k; apply Hok). destruct (breaker_found i sh Hsh Hi) as [b Hb].
    cbn [access]. rewrite Hb. destruct (BreakerInterleaving.access now q b) as [q' b'].
    split; [by apply on_store_kept|]. apply answered_ok. by destruct k.
  - destruct Hp as [Hr Hd]. destruct (outer p) eqn:Ho.
    + destruct (reporting_outer now p sh Ho Hr Hd) as (Hacc & Hrep & _). rewrite Hacc. cbn [fst snd].
      split; [|intros i Hi; apply Hok; by rewrite <-Hrep].
      destruct p as [[]| | | | | | | | | | |[]]; try done; try (by destruct Hr); by apply on_store_kept.
    + destruct p as [| | | |sample l i|sample [|i rest] refused| | |i d| |i|]; try done; try (by destruct Hr);
        (split; [done|]); by apply Hok.
  - destruct (breaker_found i sh Hsh Hok) as [b Hb]. cbn [access]. rewrite Hb.
    destruct (BreakerInterleaving.access now q b) as [q' b']. split; [by apply on_store_kept|]. by destruct q'.
Qed.

(** Samples are in range, and only endpoints that are [ok] are set healthy. *)
Definition event_ok (e : event) : Prop :=
  match e with
  | Select _ sample => TransportFacts.in_range sample
  | Touch i (SetHealthy true) => ok i
  | _ => True
  end.

Definition world_ok (s : world) : Prop :=
  cells_ok (shared s) /\ Forall (fun c => placed c /\ client_ok c) (clients s).

Lemma world_ok_step s e s' : event_ok e -> world_ok s -> step s e s' -> world_ok s'.
Proof.
  unfold step, fired, world_ok. intros He [Hsh Hcs] Hf. destruct e as [i sample|i|i j answer|j c|t]; cbn [fire] in Hf.
  - destruct (clients s !! i) as [[]|]; try done. simplify_eq. split; [done|]. apply Forall_insert; [done|].
    split; [split; [by exists sample|done]|done].
  - destruct (clients s !! i) as [c|] eqn:Hi; [|done]. destruct (in_call c) eqn:Hc; [|done].
    destruct (Forall_lookup_1 _ _ _ _ Hcs Hi) as [Hp Hok]. pose proof (call_ok (clock s) c (shared s) Hsh Hp Hok Hc) as Ha.
    pose proof (proj1 (sound_access 0 False (clock s) c (shared s) (conj Hp (False_ind _)) Hc)) as Hp'.
    destruct (access _ _ _) as [c' sh']. simplify_eq. destruct Ha as [Ha1 Ha2]. split; [done|]. by apply Forall_insert.
  - destruct (clients s !! i) as [[| | |j'| | |]|] eqn:Hi; try done. case_decide as Hj; [|done]. subst j'. simplify_eq.
    destruct (Forall_lookup_1 _ _ _ _ Hcs Hi) as [_ [Hin _]]. split; [done|]. apply Forall_insert; [done|].
    destruct answer; (split; [split; [by eexists|done]|]); intros x; unfold reported; simpl; by intros [= <-].
  - destruct (Balanced.upkeep c) eqn:Hu; [|done]. simplify_eq. split; [|done].
    destruct c as [| | | | |b|w]; try done; try (by apply on_store_kept).
    destruct Hsh as [Hc Hl]. split; [apply SharedBalancerFacts.set_healthy_ok; [by intros ->|done]|].
    simpl. by rewrite length_alter.
  - destruct (clock s <=? t); [|done]. by simplify_eq.
Qed.

End Sound.

(** ** How long calls take *)

(** The accesses a call on a breaker still has before it, at most. *)
Definition breaker_accesses (q : cb_pc) : nat :=
  match q with
  | AllowCount => 5 | AllowReadState => 4 | AllowReadTime => 3 | AllowWriteHalfOpen => 2 | AllowClearSuccess => 1
  | SuccReadState => 5 | SuccAdd => 4 | SuccWriteClosed => 3 | SuccClearFailure => 2 | SuccClearSuccess => 1
  | SuccResetFailure => 1
  | FailCount => 7 | FailReadState => 6
  | FailAdd => 4 | FailWriteOpen => 3 | FailNow => 2 | FailWriteTime _ => 1
  | ReopenWriteOpen => 5 | ReopenNow => 4 | ReopenWriteTime _ => 3 | ReopenClearFailure => 2 | ReopenClearSuccess => 1
  | OpenNow => 2 | OpenWriteTime _ => 1
  | ResetWriteClosed => 4 | ResetClearFailure => 3 | ResetClearSuccess => 2 | ResetClearTime => 1
  | Done _ _ => 0
  end.

Lemma breaker_accesses_decrease now q b :
  BreakerInterleaving.is_done q = false ->
  (breaker_accesses (BreakerInterleaving.access now q b).1 < breaker_accesses q)%nat.
Proof. intros Hd. destruct q; destruct b as [[] fc sc [lft|] cf tr tf]; simpl in *; try done; try lia; case_match; simpl; lia. Qed.

Section Steps.
#[local] Existing Instance breaker_gate.

(** The steps of a client's call: ten for each of the load balancer's, of which a breaker
    takes at most eight. *)
Definition call_steps (n : nat) (c : client) : nat :=
  match c with
  | Selecting p | Reporting p => 10 * SharedBalancerFacts.remaining_steps n p
  | Asking (First _ healthy) _ q => 10 * (length healthy + 1) + breaker_accesses q + 1
  | Asking (Other _ rest _) _ q => 10 * (length rest + 1) + breaker_accesses q + 1
  | Recording _ q => breaker_accesses q + 1
  | _ => 0
  end.

Lemma call_steps_decrease n now c sh :
  length (endpoints (SharedBalancer.balancer sh)) = n -> placed c -> in_call c = true ->
  (call_steps n (access now c sh).1 < call_steps n c)%nat.
Proof.
  intros Hn Hp Hc. destruct c as [|p|k i q|i|p|i q|]; try done.
  - destruct Hp as [[sample' Hs] Hd]. destruct (outer p) eqn:Ho.
    + rewrite selecting_outer by done. pose proof (SharedBalancerFacts.steps_decrease n now p sh Hn Hd) as Hlt.
      cbn [fst]. destruct (SharedBalancer.access now p sh).1 as [| | | | | | | | | | |c []]; cbn [settle call_steps] in *; lia.
    + destruct p as [| | | |sample l i|sample [|i rest] refused| | | | | |]; try done; cbn [access].
      * simpl. lia.
      * destruct (negb _); simpl; lia.
  - cbn [access]. destruct (breaker_at i sh) as [b|]; [|destruct k; simpl; lia].
    pose proof (breaker_accesses_decrease now q b) as Hlt. destruct (BreakerInterleaving.is_done q) eqn:Hd.
    + destruct q as [| | | | | | | | | | | | | | | | | | | | | | | | | | | |[] [[]|]]; try done; destruct k; simpl; lia.
    + specialize (Hlt eq_refl). destruct (BreakerInterleaving.access now q b) as [q' b']. cbn [fst] in *.
      destruct q' as [| | | | | | | | | | | | | | | | | | | | | | | | | | | |[] [[]|]], k; cbn [answered call_steps SharedBalancerFacts.remaining_steps breaker_accesses] in *; lia.
  - destruct Hp as [Hr Hd]. destruct (outer p) eqn:Ho.
    + destruct (reporting_outer now p sh Ho Hr Hd) as (Hacc & _ & _). rewrite Hacc.
      pose proof (SharedBalancerFacts.steps_decrease n now p sh Hn Hd). cbn [fst call_steps]. lia.
    + destruct p as [| | | |sample l i|sample [|i rest] refused| | |i d| |i|]; try done; try (by destruct Hr); simpl; lia.
  - cbn [access]. destruct (breaker_at i sh) as [b|]; [|simpl; lia].
    pose proof (breaker_accesses_decrease now q b) as Hlt. destruct (BreakerInterleaving.is_done q) eqn:Hd.
    + destruct q; try done. simpl. lia.
    + specialize (Hlt eq_refl). destruct (BreakerInterleaving.access now q b) as [q' b']. cbn [fst] in *.
      destruct q'; cbn [recorded call_steps breaker_accesses] in *; lia.
Qed.

(** The accesses of a client; a new call of it. *)
Definition is_access (i : nat) (e : event) : bool := match e with Access k => bool_decide (k = i) | _ => false end.
Definition no_new_call (i : nat) (e : event) : Prop :=
  match e with Select k _ | Report k _ _ => k <> i | _ => True end.

Lemma accesses_left ids ok len s es s' i c :
  (forall x, x ∈ ids -> (x < len)%nat) -> Forall (event_ok ok) es -> Forall (no_new_call i) es ->
  steps step s es s' -> world_ok ids ok len s -> clients s !! i = Some c ->
  exists c', clients s' !! i = Some c' /\
    count_if (is_access i) es + Z.of_nat (call_steps (length ids) c') <= Z.of_nat (call_steps (length ids) c).
Proof.
  intros Hin He Hnew Hs. revert He Hnew c. induction Hs as [s|s e s1 es s2 Hst Hs IH]; intros He Hnew c Hok Hc.
  { exists c. split; [done|]. unfold count_if. simpl. lia. }
  apply Forall_cons in He as [He Hes]. apply Forall_cons in Hnew as [Hn Hnew]. rewrite count_if_cons.
  pose proof (world_ok_step _ _ _ Hin _ _ _ He Hok Hst) as Hok1. specialize (fun c => IH Hes Hnew c Hok1).
  assert (Hmove : exists c1, clients s1 !! i = Some c1 /\
    Z.b2z (is_access i e) + Z.of_nat (call_steps (length ids) c1) <= Z.of_nat (call_steps (length ids) c)).
  { destruct Hok as [[[Hids _] _] Hcs]. clear IH Hs Hok1. unfold step, fired in Hst.
    destruct e as [k sample|k|k j answer|j ec|t]; cbn [fire is_access] in *.
    - destruct (clients s !! k) as [[]|]; try done. simplify_eq. exists c. simpl. by rewrite list_lookup_insert_ne.
    - destruct (clients s !! k) as [ck|] eqn:Hk; [|done]. destruct (in_call ck) eqn:Hcall; [|done].
      pose proof (call_steps_decrease (length ids) (clock s) ck (shared s)) as Hlt.
      destruct (access _ _ _) as [c' sh'] eqn:Ha. simplify_eq/=. destruct (decide (k = i)) as [->|Hne].
      + exists c'. rewrite list_lookup_insert_eq by (by eapply lookup_lt_Some). split; [done|].
        rewrite bool_decide_true by done. assert (ck = c) as -> by congruence. simpl.
        enough (call_steps (length (endpoints (SharedBalancer.balancer (shared s)))) c' <
          call_steps (length (endpoints (SharedBalancer.balancer (shared s)))) c)%nat by lia.
        apply Hlt; [done| |done]. by apply (Forall_lookup_1 _ _ _ _ Hcs Hc).
      + exists c. rewrite list_lookup_insert_ne by done. rewrite bool_decide_false by done. split; [done|]. simpl. lia.
    - destruct (clients s !! k) as [[]|]; try done. case_decide; [|done]. simplify_eq. exists c. simpl. by rewrite list_lookup_insert_ne.
    - destruct (Balanced.upkeep ec); [|done]. simplify_eq. by exists c.
    - destruct (clock s <=? t); [|done]. simplify_eq. by exists c. }
  destruct Hmove as (c1 & Hc1 & Hle1). destruct (IH c1 Hc1) as (c' & Hc' & Hle). exists c'. split; [done|]. lia.
Qed.

Definition samples_in_range (e : event) : Prop :=
  match e with Select _ sample => TransportFacts.in_range sample | _ => True end.

(** C8. A selection split down to the accesses of the breakers. However the calls of clients
    interleave, a selection ends within thirty accesses per endpoint and sixty more, can
    always go on until then, and never panics; an endpoint it returns is one of the
    balancer's and has been healthy: it was at the start or somebody set it healthy. *)
Theorem split_selection s0 lb n t0 es s i sample es' s' :
  Forall (fun ep => (ep < length s0)%nat) (endpoints lb) -> Forall samples_in_range (es ++ es') ->
  steps step (mkWorld (SharedBalancer.mkCells s0 lb) (replicate n Free) t0 []) es s ->
  clients s !! i = Some (Selecting (SharedBalancer.start (SharedBalancer.CSelect sample))) ->
  steps step s es' s' -> Forall (no_new_call i) es' ->
  exists c, clients s' !! i = Some c /\ c <> Panicked /\
    (in_call c = true -> exists s'', step s' (Access i) s'') /\
    (forall ep, c = Busy ep -> ep ∈ endpoints lb /\
       (healthy_at s0 ep = true \/ Touch ep (SetHealthy true) ∈ (es ++ es')%list)) /\
    count_if (is_access i) es' <= 30 * Z.of_nat (length (endpoints lb)) + 60 /\
    (count_if (is_access i) es' = 30 * Z.of_nat (length (endpoints lb)) + 60 -> in_call c = false).
Proof.
  intros Hin Hsm Hs Hi Hs' Hnew.
  set (ok := fun ep => healthy_at s0 ep = true \/ Touch ep (SetHealthy true) ∈ (es ++ es')%list).
  assert (Hinside : forall x, x ∈ endpoints lb -> (x < length s0)%nat) by (by apply Forall_forall).
  assert (Hev : Forall (event_ok ok) (es ++ es')).
  { apply Forall_forall. intros e He. pose proof (proj1 (Forall_forall _ _) Hsm e He) as Hr.
    destruct e as [| | |j [| | | | |[]|]|]; try done. by right. }
  apply Forall_app in Hev as [Hev Hev'].
  assert (Hok : world_ok (endpoints lb) ok (length s0) s).
  { refine (steps_invariant step (event_ok ok) (world_ok (endpoints lb) ok (length s0)) _ _ _ _ Hev _ Hs).
    - intros s1 e s2. by apply world_ok_step.
    - split; [split; [split; [done|by left]|done]|]. by apply Forall_replicate. }
  destruct (accesses_left _ _ _ _ _ _ i _ Hinside Hev' Hnew Hs' Hok Hi) as (c & Hc & Hle).
  assert (Hok' : world_ok (endpoints lb) ok (length s0) s').
  { refine (steps_invariant step (event_ok ok) (world_ok (endpoints lb) ok (length s0)) _ _ _ _ Hev' Hok Hs').
    intros s1 e s2. by apply world_ok_step. }
  destruct Hok' as [[[Hids _] _] Hcs]. destruct (Forall_lookup_1 _ _ _ _ Hcs Hc) as [Hp Hcok].
  exists c. split; [done|]. split; [by intros ->|]. split; [|split; [|split]].
  - intros Hcall. unfold step, fired. simpl. rewrite Hc, Hcall. destruct (access _ _ _). by eexists.
  - intros ep ->. exact Hcok.
  - simpl in Hle. lia.
  - intros Heq. destruct (in_call c) eqn:Hcall; [|done].
    pose proof (call_steps_decrease (length (endpoints lb)) (clock s') c (shared s')) as Hlt.
    rewrite Hids in Hlt. specialize (Hlt eq_refl Hp Hcall). simpl in Hle. lia.
Qed.

End Steps.

Section Selected.
#[local] Existing Instance breaker_gate.

Definition selected_start : world := Eval vm_compute in default pair_world (fires fire [Select 0 (fun _ => 0)] pair_world).
Definition selected_end : world := Eval vm_compute in default selected_start (fires fire (accesses 0 10) selected_start).

Lemma split_selection_witness :
  clients selected_end !! 0%nat = Some (Busy 0) /\ (0%nat ∈ [0; 1]%nat) /\
  count_if (is_access 0) (accesses 0 10) <= 30 * 2 + 60.
Proof.
  destruct (split_selection (SharedBalancer.store (shared pair_world)) (SharedBalancer.balancer (shared pair_world)) 2 0
    [Select 0 (fun _ => 0)] selected_start 0 (fun _ => 0) (accesses 0 10) selected_end)
    as (c & Hc & _ & _ & Hep & Hcount & _).
  - repeat constructor.
  - constructor; [apply first_sample|repeat constructor].
  - apply fires_sound. reflexivity.
  - reflexivity.
  - apply fires_sound. reflexivity.
  - repeat constructor.
  - split; [reflexivity|]. split; [|exact Hcount]. injection Hc as <-. exact (proj1 (Hep 0%nat eq_refl)).
Defined.
End Selected.
