(* ===== verification/Connection.v ===== *)
(** * Connection limiting (src/src/connection.rs)

    A semaphore from the tokio library bounds the connections; atomics count
    them. The semaphore is an interface. The calls are modelled as single steps
    first, then split at their atomic accesses so that tasks interleave. *)

From stdpp Require Import prelude.
From S2P Require Import Prelude.
Open Scope Z_scope.

(** [tokio::sync::Semaphore]: creation (which panics above [MAX_PERMITS]),
    [try_acquire_owned], and the release of a permit when it is dropped. *)
Class Semaphore : Type := {
  semaphore : Type;
  semaphore_new : Z -> outcome semaphore;
  try_acquire_owned : semaphore -> option semaphore;
  release_permit : semaphore -> semaphore;
  available_permits : semaphore -> Z
}.

(** [usize::MAX >> 3] *)
Definition MAX_PERMITS : Z := 2 ^ 61 - 1.

Class SemaphoreLaws (S : Semaphore) : Prop := {
  semaphore_new_ok n : 0 <= n <= MAX_PERMITS ->
    exists s, semaphore_new n = Returns s /\ available_permits s = n;
  semaphore_new_panics n : MAX_PERMITS < n -> semaphore_new n = Panics;
  acquire_none s : try_acquire_owned s = None <-> available_permits s <= 0;
  acquire_some s s' : try_acquire_owned s = Some s' -> available_permits s' = available_permits s - 1;
  release_one s : available_permits (release_permit s) = available_permits s + 1
}.

(** A counter is a semaphore. *)
#[export] Instance counting_semaphore : Semaphore := {|
  semaphore := Z;
  semaphore_new n := if n <=? MAX_PERMITS then Returns n else Panics;
  try_acquire_owned n := if n <=? 0 then None else Some (n - 1);
  release_permit n := n + 1;
  available_permits n := n
|}.

#[export] Instance counting_semaphore_laws : SemaphoreLaws counting_semaphore.
Proof.
  split; simpl.
  - intros n Hn. rewrite (proj2 (Z.leb_le _ _)) by lia. eauto.
  - intros n Hn. rewrite (proj2 (Z.leb_gt _ _)) by lia. done.
  - intros n. case_match; reflect_bools; split; try done; lia.
  - intros n m. case_match; intros; by simplify_eq.
  - done.
Qed.

Record ConnectionConfig : Type := mkConnectionConfig {
  max_connections : Z;
  max_connections_per_ip : Z
}.

Definition connection_config_default : ConnectionConfig :=
  {| max_connections := 10000; max_connections_per_ip := 100 |}.

Definition connection_config_new (max : Z) : ConnectionConfig :=
  {| max_connections := max;
     max_connections_per_ip := max_connections_per_ip connection_config_default |}.

Definition with_max_per_ip (max : Z) (c : ConnectionConfig) : ConnectionConfig :=
  mkConnectionConfig (max_connections c) max.

Record ConnectionStats : Type := mkConnectionStats {
  active : Z;
  stat_total_accepted : Z;
  stat_total_rejected : Z;
  stat_max_connections : Z
}.

Module ConnectionLimiter.
Section Limiter.
Context {S : Semaphore}.

Record limiter : Type := mk {
  sem : semaphore;
  active_connections : Z;
  total_accepted : Z;
  total_rejected : Z;
  config : ConnectionConfig
}.

Definition new (c : ConnectionConfig) : outcome limiter :=
  outcome_bind (semaphore_new (max_connections c)) (fun s => Returns (mk s 0 0 0 c)).

Definition with_defaults : outcome limiter := new connection_config_default.

(** The accesses of the shared cells. *)
Definition set_sem (s : semaphore) (l : limiter) : limiter :=
  mk s (active_connections l) (total_accepted l) (total_rejected l) (config l).
Definition add_active (l : limiter) : limiter :=
  mk (sem l) (u64_add (active_connections l) 1) (total_accepted l) (total_rejected l) (config l).
Definition sub_active (l : limiter) : limiter :=
  mk (sem l) (u64_sub (active_connections l) 1) (total_accepted l) (total_rejected l) (config l).
Definition add_accepted (l : limiter) : limiter :=
  mk (sem l) (active_connections l) (u64_add (total_accepted l) 1) (total_rejected l) (config l).
Definition add_rejected (l : limiter) : limiter :=
  mk (sem l) (active_connections l) (total_accepted l) (u64_add (total_rejected l) 1) (config l).

(** A guard is returned ([true]) or not. *)
Definition try_acquire (l : limiter) : bool * limiter :=
  match try_acquire_owned (sem l) with
  | Some s => (true, add_accepted (add_active (set_sem s l)))
  | None => (false, add_rejected l)
  end.

(** Dropping a guard: the destructor's body, then the permit it holds. *)
Definition drop_guard (l : limiter) : limiter :=
  let l := sub_active l in set_sem (release_permit (sem l)) l.

Definition stats (l : limiter) : ConnectionStats :=
  {| active := active_connections l;
     stat_total_accepted := total_accepted l;
     stat_total_rejected := total_rejected l;
     stat_max_connections := max_connections (config l) |}.

(** Attempts in a row, with no guard dropped. *)
Fixpoint attempts (k : nat) (l : limiter) : list bool * limiter :=
  match k with
  | O => ([], l)
  | Datatypes.S k =>
      let '(b, l) := try_acquire l in
      let '(bs, l) := attempts k l in
      (b :: bs, l)
  end.

(** ** Interleaving *)

(** Where a task is: not connected; in [try_acquire] holding a permit, then
    counted as active; holding a guard; in the guard's destructor after its body;
    refused but not yet counted. *)
Inductive pc : Type := Idle | Permit | Counted | Held | Dropping | Refused.

(** One access of a task. [Held] is left when the guard is dropped. *)
Definition access (p : pc) (l : limiter) : pc * limiter :=
  match p with
  | Idle =>
      match try_acquire_owned (sem l) with
      | Some s => (Permit, set_sem s l)
      | None => (Refused, l)
      end
  | Permit => (Counted, add_active l)
  | Counted => (Held, add_accepted l)
  | Held => (Dropping, sub_active l)
  | Dropping => (Idle, set_sem (release_permit (sem l)) l)
  | Refused => (Idle, add_rejected l)
  end.

(** Any task may perform its next access. *)
Inductive step : list pc * limiter -> nat -> list pc * limiter -> Prop :=
| step_task i p ps l :
    ps !! i = Some p ->
    step (ps, l) i (<[i := (access p l).1]> ps, (access p l).2).

End Limiter.
End ConnectionLimiter.

(** ** Lemmas of the component *)

Module ConnectionFacts.
Import ConnectionLimiter.
Section Facts.
Context {S : Semaphore} {SL : SemaphoreLaws S}.

Lemma acquire_cases l :
  (exists s, try_acquire_owned (sem l) = Some s /\ 0 < available_permits (sem l) /\
     available_permits s = available_permits (sem l) - 1) \/
  (try_acquire_owned (sem l) = None /\ available_permits (sem l) <= 0).
Proof.
  destruct (try_acquire_owned (sem l)) as [s|] eqn:E.
  - left. exists s. split; [done|]. split; [|by apply acquire_some].
    destruct (Z.lt_ge_cases 0 (available_permits (sem l))) as [|H]; [done|].
    apply acquire_none in H. congruence.
  - right. split; [done|]. by apply acquire_none.
Qed.

(** A task that holds a permit, and one that is counted as active. *)
Definition holds_permit (p : pc) : bool := match p with Idle | Refused => false | _ => true end.
Definition is_active (p : pc) : bool := match p with Counted | Held => true | _ => false end.

Definition inv (c : ConnectionConfig) (st : list pc * limiter) : Prop :=
  let '(ps, l) := st in
  config l = c /\
  available_permits (sem l) + count_if holds_permit ps = max_connections c /\
  0 <= available_permits (sem l) /\
  active_connections l = count_if is_active ps.

Lemma active_le_permits ps : count_if is_active ps <= count_if holds_permit ps.
Proof.
  induction ps as [|p ps IH]; [done|]. rewrite !count_if_cons. destruct p; simpl; lia.
Qed.

Lemma inv_step c st i st' :
  0 <= max_connections c <= MAX_PERMITS -> inv c st -> step st i st' -> inv c st'.
Proof.
  intros Hmax Hinv Hs. destruct Hs as [i p ps l Hi]. destruct Hinv as (Hc & Hsum & Hav & Hact).
  pose proof (active_le_permits ps) as Hle. pose proof (count_if_nonneg is_active ps).
  assert (Hpos : Z.b2z (is_active p) <= count_if is_active ps).
  { pose proof (count_if_nonneg is_active (<[i := Idle]> ps)) as Hz.
    rewrite (count_if_insert _ _ _ _ _ Hi) in Hz. simpl in Hz. lia. }
  unfold MAX_PERMITS in *. unfold inv.
  destruct p; simpl in *.
  1: destruct (acquire_cases l) as [(s & Es & H0 & H1)|[En H0]]; rewrite ?Es, ?En; simpl.
  all: rewrite !(count_if_insert _ _ _ _ _ Hi); simpl; rewrite ?release_one, ?Hact.
  all: rewrite ?u64_add_small by words; split; [done|split; [lia|split; [lia|try lia]]].
  unfold u64_sub. rewrite wrap64_small by words. lia.
Qed.

(** Attempts from the [j]-th on, with no guard dropped. *)
Lemma attempts_from M (HM : 0 <= M) k j l :
  Z.of_nat (j + k) <= u64_max ->
  available_permits (sem l) = M - Z.min (Z.of_nat j) M ->
  active_connections l = Z.min (Z.of_nat j) M -> total_accepted l = Z.min (Z.of_nat j) M ->
  total_rejected l = Z.max 0 (Z.of_nat j - M) -> max_connections (config l) = M ->
  exists bs l', attempts k l = (bs, l') /\ bs = (fun i => Z.of_nat i <? M) <$> seq j k /\
    stats l' = {| active := Z.min (Z.of_nat (j + k)) M; stat_total_accepted := Z.min (Z.of_nat (j + k)) M;
                  stat_total_rejected := Z.max 0 (Z.of_nat (j + k) - M); stat_max_connections := M |}.
Proof.
  revert j l. induction k as [|k IH]; intros j l Hj H1 H2 H3 H4 H5.
  { exists [], l. split; [done|split; [done|]]. unfold stats. by rewrite H2, H3, H4, H5, Nat.add_0_r. }
  rewrite <-Nat.add_succ_comm in Hj |- *. cbn [attempts seq]. unfold try_acquire.
  destruct (acquire_cases l) as [(s & Es & H6 & H7)|[En H6]]; rewrite ?Es, ?En.
  - destruct (IH (Datatypes.S j) (add_accepted (add_active (set_sem s l)))) as (bs & l' & Hat & -> & Hst);
      simpl; rewrite ?u64_add_small by words; try lia; try done.
    rewrite Hat. eexists _, _. split; [done|]. split; [|done]. simpl. by rewrite (proj2 (Z.ltb_lt _ _)) by lia.
  - destruct (IH (Datatypes.S j) (add_rejected l)) as (bs & l' & Hat & -> & Hst);
      simpl; rewrite ?u64_add_small by words; try lia; try done.
    rewrite Hat. eexists _, _. split; [done|]. split; [|done]. simpl. by rewrite (proj2 (Z.ltb_ge _ _)) by lia.
Qed.

End Facts.
End ConnectionFacts.

(** ** Properties *)

Import ConnectionLimiter ConnectionFacts.

(** C16. However the calls of concurrent tasks interleave, access by access, the
    active-connection counter never exceeds the configured maximum and never wraps:
    it counts the tasks between its two updates, each of which holds a permit. When
    no call is in progress it is exactly the number of guards held, and a task that
    is being refused was refused when all permits were taken. *)
Theorem active_never_exceeds_max {S : Semaphore} {SL : SemaphoreLaws S} c l n tasks ps l' :
  0 <= max_connections c <= MAX_PERMITS -> new c = Returns l ->
  steps step (replicate n Idle, l) tasks (ps, l') ->
  0 <= active_connections l' <= max_connections c /\
  active_connections l' = count_if is_active ps /\
  count_if holds_permit ps = max_connections c - available_permits (sem l') /\
  (forall i, ps !! i = Some Idle -> (access Idle l').1 = Refused ->
     count_if holds_permit ps = max_connections c).
Proof.
  intros Hmax Hnew Hsteps.
  assert (Hinv : inv c (ps, l')).
  { apply (steps_invariant step (fun _ => True) (inv c) (replicate n Idle, l) tasks); auto.
    - intros s i s' _. by apply inv_step.
    - by apply Forall_true.
    - unfold new in Hnew. destruct (semaphore_new_ok (max_connections c) Hmax) as (s & Es & Ha).
      rewrite Es in Hnew. simpl in Hnew. simplify_eq. simpl.
      rewrite !count_if_none by (by intros x [-> _]%elem_of_replicate). split_and!; try done; lia. }
  destruct Hinv as (Hc & Hsum & Hav & Hact). pose proof (active_le_permits ps).
  pose proof (count_if_nonneg is_active ps). split_and!; try lia.
  intros i _ Href. destruct (acquire_cases l') as [(s & Es & _)|[_ Hnone]]; [simpl in Href; by rewrite Es in Href|lia].
Qed.

Lemma active_never_exceeds_max_witness :
  exists l l', new (connection_config_new 1) = Returns l /\
    steps step (replicate 2 Idle, l) [0%nat; 1%nat; 0%nat] ([Counted; Refused], l') /\
    0 <= active_connections l' <= 1.
Proof.
  eexists _, _. split; [reflexivity|].
  assert (Hs : steps step (replicate 2 Idle, mk 1 0 0 0 (connection_config_new 1)) [0%nat; 1%nat; 0%nat]
    ([Counted; Refused], mk 0 1 0 0 (connection_config_new 1))).
  { eapply steps_cons; [by apply (step_task 0 Idle)|]. eapply steps_cons; [by apply (step_task 1 Idle)|].
    eapply steps_cons; [by apply (step_task 0 Permit)|]. apply steps_nil. }
  split; [exact Hs|].
  refine (proj1 (active_never_exceeds_max (connection_config_new 1) _ 2 _ _ _ _ _ Hs)).
  - simpl. unfold MAX_PERMITS. lia.
  - reflexivity.
Defined.

(** Attempts made while no guard is dropped succeed exactly until the maximum
    is reached: of [k] attempts on a new limiter the first [max_connections] get a
    guard and the others are refused, and the statistics say so. The limit per
    address has no influence, and a maximum above tokio's bound panics at creation. *)
Theorem admits_exactly_max {S : Semaphore} {SL : SemaphoreLaws S} c k per_ip :
  0 <= max_connections c <= u64_max ->
  (MAX_PERMITS < max_connections c -> new (with_max_per_ip per_ip c) = Panics) /\
  (max_connections c <= MAX_PERMITS -> Z.of_nat k <= u64_max ->
   exists l bs l', new (with_max_per_ip per_ip c) = Returns l /\ attempts k l = (bs, l') /\
     bs = (fun i => Z.of_nat i <? max_connections c) <$> seq 0 k /\
     stats l' = {| active := Z.min (Z.of_nat k) (max_connections c);
                   stat_total_accepted := Z.min (Z.of_nat k) (max_connections c);
                   stat_total_rejected := Z.max 0 (Z.of_nat k - max_connections c);
                   stat_max_connections := max_connections c |}).
Proof.
  intros Hmax. split.
  { intros H. unfold new. simpl. by rewrite semaphore_new_panics. }
  intros Hok Hk. destruct (semaphore_new_ok (max_connections c)) as (s & Es & Ha); [lia|].
  unfold new. simpl. rewrite Es. simpl.
  destruct (attempts_from (max_connections c) ltac:(lia) k 0 (mk s 0 0 0 (with_max_per_ip per_ip c))) as (bs & l' & Hat & -> & Hst);
    simpl; try lia; try done.
  eexists _, _, _. split; [done|]. split; [done|]. done.
Qed.

Lemma admits_exactly_max_witness :
  exists l bs l', new (with_max_per_ip 1 (connection_config_new 2)) = Returns l /\
    attempts 3 l = (bs, l') /\ bs = [true; true; false] /\ stats l' = mkConnectionStats 2 2 1 2.
Proof.
  apply (proj2 (admits_exactly_max (connection_config_new 2) 3 1 ltac:(simpl; words))).
  - simpl. unfold MAX_PERMITS. lia.
  - simpl. words.
Defined.
