(* ===== verification/Metrics.v ===== *)
(** * Metrics (src/src/metrics.rs)

    The process-wide collector: counters, gauges and histograms indexed by
    labels, behind one mutex. The metric types come from the prometheus client:
    an interface. A poisoned mutex makes every recording a no-op. *)

From Stdlib Require Import Ascii String SpecFloat.
From stdpp Require Import prelude gmap strings pretty.
From S2P Require Import Prelude F64.
Open Scope string_scope.
Open Scope Z_scope.

Record HttpLabels : Type := mkHttpLabels {
  method : string;
  status : string;
  upstream : string
}.

#[export] Instance HttpLabels_eq_dec : EqDecision HttpLabels.
Proof. solve_decision. Defined.
#[export] Instance HttpLabels_countable : Countable HttpLabels.
Proof.
  apply (inj_countable' (fun l => (method l, status l, upstream l))
    (fun '(m, s, u) => mkHttpLabels m s u)). by intros [].
Defined.

Record CircuitBreakerLabels : Type := mkCircuitBreakerLabels {
  cb_upstream : string;
  cb_state : string
}.

#[export] Instance CircuitBreakerLabels_eq_dec : EqDecision CircuitBreakerLabels.
Proof. solve_decision. Defined.
#[export] Instance CircuitBreakerLabels_countable : Countable CircuitBreakerLabels.
Proof.
  apply (inj_countable' (fun l => (cb_upstream l, cb_state l))
    (fun '(u, s) => mkCircuitBreakerLabels u s)). by intros [].
Defined.

Record RateLimitLabels : Type := mkRateLimitLabels { limit_type : string }.

#[export] Instance RateLimitLabels_eq_dec : EqDecision RateLimitLabels.
Proof. solve_decision. Defined.
#[export] Instance RateLimitLabels_countable : Countable RateLimitLabels.
Proof. apply (inj_countable' limit_type mkRateLimitLabels). by intros []. Defined.

Record ConnectionLabels : Type := mkConnectionLabels { connection_state : string }.

#[export] Instance ConnectionLabels_eq_dec : EqDecision ConnectionLabels.
Proof. solve_decision. Defined.
#[export] Instance ConnectionLabels_countable : Countable ConnectionLabels.
Proof. apply (inj_countable' connection_state mkConnectionLabels). by intros []. Defined.

(** The label pairs of a label set ([EncodeLabelSet]): its fields, in order. *)
Definition labels : Type := list (string * string).
Class EncodeLabelSet (L : Type) : Type := encode_labels : L -> labels.

#[export] Instance encode_http_labels : EncodeLabelSet HttpLabels :=
  fun l => [("method", method l); ("status", status l); ("upstream", upstream l)].
#[export] Instance encode_circuit_breaker_labels : EncodeLabelSet CircuitBreakerLabels :=
  fun l => [("upstream", cb_upstream l); ("state", cb_state l)].
#[export] Instance encode_rate_limit_labels : EncodeLabelSet RateLimitLabels :=
  fun l => [("limit_type", limit_type l)].
#[export] Instance encode_connection_labels : EncodeLabelSet ConnectionLabels :=
  fun l => [("state", connection_state l)].

(** The metric types, with the operations the program uses. *)
Class Prometheus : Type := {
  Counter : Type;
  counter_default : Counter;
  counter_inc : Counter -> Counter;
  counter_get : Counter -> Z;
  Gauge : Type;
  gauge_default : Gauge;
  gauge_inc : Gauge -> Gauge;
  gauge_dec : Gauge -> Gauge;
  gauge_set : Z -> Gauge -> Gauge;
  Histogram : Type;
  histogram_new : list f64 -> Histogram;
  histogram_observe : f64 -> Histogram -> Histogram;
  exponential_buckets : f64 -> f64 -> Z -> list f64
}.

(** A counter starts at zero and counts modulo 2^64. *)
Class PrometheusLaws (P : Prometheus) : Prop := {
  counter_get_default : counter_get counter_default = 0;
  counter_get_inc c : counter_get (counter_inc c) = u64_add (counter_get c) 1
}.

Definition list_prometheus : Prometheus := {|
  Counter := Z; counter_default := 0; counter_inc c := u64_add c 1; counter_get c := c;
  Gauge := Z; gauge_default := 0; gauge_inc g := g + 1; gauge_dec g := g - 1; gauge_set n _ := n;
  Histogram := list f64 * list f64; histogram_new bs := (bs, []);
  histogram_observe x h := (h.1, x :: h.2);
  exponential_buckets start factor n :=
    (fix go k x := match k with O => [] | S k => x :: go k (f64_mul x factor) end) (Z.to_nat n) start
|}.

Lemma list_prometheus_laws : PrometheusLaws list_prometheus.
Proof. by split. Qed.

Module Metrics.
Section Collector.
Context {P : Prometheus}.

Record metrics : Type := mk {
  requests_total : gmap HttpLabels Counter;
  request_duration_seconds : gmap HttpLabels Histogram;
  requests_in_flight : Gauge;
  errors_total : gmap HttpLabels Counter;
  circuit_breaker_state : gmap CircuitBreakerLabels Gauge;
  circuit_breaker_trips_total : gmap CircuitBreakerLabels Counter;
  rate_limit_rejections_total : gmap RateLimitLabels Counter;
  connections_total : gmap ConnectionLabels Counter;
  connections_active : Gauge
}.

Definition new : metrics := mk ∅ ∅ gauge_default ∅ ∅ ∅ ∅ ∅ gauge_default.

(** 1 ms to 4 s: [exponential_buckets(0.001, 2.0, 13)]. *)
Definition buckets : list f64 := exponential_buckets (f64_div (of_Z 1) (of_Z 1000)) (of_Z 2) 13.

(** [family.get_or_create(l)] followed by an update of the metric. *)
Definition update {K A} `{Countable K} (make : A) (f : A -> A) (k : K) (family : gmap K A) : gmap K A :=
  <[k := f (default make (family !! k))]> family.

(** [METRICS]: the mutex, [None] once poisoned. *)
Definition global : Type := option metrics.

Definition record_request (m : string) (st : Z) (up : string) (duration_secs : f64) (g : global) : global :=
  let labels := {| method := m; status := pretty st; upstream := up |} in
  match g with
  | Some x =>
      Some (mk (update counter_default counter_inc labels (requests_total x))
               (update (histogram_new buckets) (histogram_observe duration_secs) labels
                  (request_duration_seconds x))
               (requests_in_flight x)
               (if 400 <=? st then update counter_default counter_inc labels (errors_total x)
                else errors_total x)
               (circuit_breaker_state x) (circuit_breaker_trips_total x)
               (rate_limit_rejections_total x) (connections_total x) (connections_active x))
  | None => None
  end.

Definition set_in_flight (v : Gauge) (x : metrics) : metrics :=
  mk (requests_total x) (request_duration_seconds x) v (errors_total x) (circuit_breaker_state x)
    (circuit_breaker_trips_total x) (rate_limit_rejections_total x) (connections_total x)
    (connections_active x).

Definition inc_requests_in_flight (g : global) : global :=
  (fun x => set_in_flight (gauge_inc (requests_in_flight x)) x) <$> g.
Definition dec_requests_in_flight (g : global) : global :=
  (fun x => set_in_flight (gauge_dec (requests_in_flight x)) x) <$> g.

Definition record_circuit_breaker_state (up st : string) (is_trip : bool) (g : global) : global :=
  let labels := {| cb_upstream := up; cb_state := st |} in
  match g with
  | Some x =>
      let state_value :=
        if String.eqb st "closed" then 0
        else if String.eqb st "open" then 1
        else if String.eqb st "half_open" then 2
        else 0 in
      Some (mk (requests_total x) (request_duration_seconds x) (requests_in_flight x) (errors_total x)
               (update gauge_default (gauge_set state_value) labels (circuit_breaker_state x))
               (if is_trip then update counter_default counter_inc labels (circuit_breaker_trips_total x)
                else circuit_breaker_trips_total x)
               (rate_limit_rejections_total x) (connections_total x) (connections_active x))
  | None => None
  end.

Definition record_rate_limit_rejection (limit : string) (g : global) : global :=
  (fun x => mk (requests_total x) (request_duration_seconds x) (requests_in_flight x) (errors_total x)
    (circuit_breaker_state x) (circuit_breaker_trips_total x)
    (update counter_default counter_inc (mkRateLimitLabels limit) (rate_limit_rejections_total x))
    (connections_total x) (connections_active x)) <$> g.

Definition record_connection (state : string) (g : global) : global :=
  (fun x => mk (requests_total x) (request_duration_seconds x) (requests_in_flight x) (errors_total x)
    (circuit_breaker_state x) (circuit_breaker_trips_total x) (rate_limit_rejections_total x)
    (update counter_default counter_inc (mkConnectionLabels state) (connections_total x)) (connections_active x)) <$> g.

Definition set_active_connections (n : Z) (g : global) : global :=
  (fun x => mk (requests_total x) (request_duration_seconds x) (requests_in_flight x) (errors_total x)
    (circuit_breaker_state x) (circuit_breaker_trips_total x) (rate_limit_rejections_total x)
    (connections_total x) (gauge_set n (connections_active x))) <$> g.

(** The [Display] of the standard library's [PoisonError]. *)
Definition poison_error : string := "poisoned lock: another task failed inside".

(** What the registry shows of a metric: the series of a family, with their labels, in
    some order, or the one series of a metric without labels. *)
Inductive series : Type :=
| Counters (l : list (labels * Counter))
| Gauges (l : list (labels * Gauge))
| Histograms (l : list (labels * Histogram)).

Definition no_series (m : series) : bool :=
  match m with Counters [] | Gauges [] | Histograms [] => true | _ => false end.

Record descriptor : Type := mkDescriptor { metric_name : string; metric_help : string; metric : series }.

(** The series of a family. *)
Definition family {K A} `{Countable K, EncodeLabelSet K} (f : gmap K A) : list (labels * A) :=
  prod_map encode_labels id <$> map_to_list f.

(** The registry: it shares the metrics that [new] has registered, in this order. *)
Definition registry (x : metrics) : list descriptor :=
  [mkDescriptor "http_requests_total" "Total number of HTTP requests" (Counters (family (requests_total x)));
   mkDescriptor "http_request_duration_seconds" "HTTP request latency in seconds"
     (Histograms (family (request_duration_seconds x)));
   mkDescriptor "http_requests_in_flight" "Number of HTTP requests currently being processed"
     (Gauges [([], requests_in_flight x)]);
   mkDescriptor "http_errors_total" "Total number of HTTP errors (4xx and 5xx responses)"
     (Counters (family (errors_total x)));
   mkDescriptor "circuit_breaker_state" "Current state of circuit breakers (0=closed, 1=open, 2=half_open)"
     (Gauges (family (circuit_breaker_state x)));
   mkDescriptor "circuit_breaker_trips_total" "Total number of times circuit breakers have tripped"
     (Counters (family (circuit_breaker_trips_total x)));
   mkDescriptor "rate_limit_rejections_total" "Total number of requests rejected due to rate limiting"
     (Counters (family (rate_limit_rejections_total x)));
   mkDescriptor "connections_total" "Total number of connections by state" (Counters (family (connections_total x)));
   mkDescriptor "connections_active" "Number of currently active connections" (Gauges [([], connections_active x)])].

(** [encode]: the text encoder of a registry is an argument; a poisoned mutex is an error. *)
Definition encode (encoder : list descriptor -> result string string) (g : global) : result string string :=
  match g with
  | Some x => map_err (fun e => "encoding error: " +:+ e) (encoder (registry x))
  | None => Err ("mutex poisoned: " +:+ poison_error)
  end.

(** The reading of a counter. *)
Definition read {K} `{Countable K} (k : K) (family : gmap K Counter) : Z :=
  match family !! k with Some c => counter_get c | None => 0 end.

(** The requests recorded: method, status, upstream, duration. *)
Definition sample : Type := string * Z * string * f64.
Definition labels_of (r : sample) : HttpLabels :=
  let '(m, st, up, _) := r in mkHttpLabels m (pretty st) up.
Definition status_of (r : sample) : Z := let '(_, st, _, _) := r in st.
Definition record_all (rs : list sample) (g : global) : global :=
  foldl (fun g '(m, st, up, d) => record_request m st up d g) g rs.

(** A family has a series for each label set that has been used. *)
Lemma family_labels {K A} `{Countable K, EncodeLabelSet K} (k : K) (a : A) (f : gmap K A) :
  f !! k = Some a -> (encode_labels k, a) ∈ family f.
Proof.
  intros Hk. unfold family. apply list_elem_of_fmap. exists (k, a). split; [done|]. by apply elem_of_map_to_list.
Qed.

Lemma family_nonempty {K A} `{Countable K, EncodeLabelSet K} (k : K) (f : gmap K A) :
  is_Some (f !! k) -> family f <> [].
Proof. intros [a Hk] Hnil. apply family_labels in Hk. rewrite Hnil in Hk. by apply elem_of_nil in Hk. Qed.

Lemma read_update `{!PrometheusLaws P} {K} `{Countable K} (k k' : K) family :
  read k (update counter_default counter_inc k' family) =
    if decide (k = k') then u64_add (read k family) 1 else read k family.
Proof.
  unfold read, update. destruct (decide (k = k')) as [->|Hne].
  - rewrite lookup_insert_eq, counter_get_inc. by destruct (family !! k'); simpl; rewrite ?counter_get_default.
  - by rewrite lookup_insert_ne.
Qed.

End Collector.
End Metrics.

(** ** Properties *)

Import Metrics.

(** The counters mean what they say: after any requests have been recorded,
    the request counter of a label is the number of those with that method, status
    and upstream (modulo 2^64), its error counter is the same number when the status
    is at least 400 and stays 0 otherwise, and no other metric has moved. *)
Theorem requests_counted `{P : Prometheus} `{!PrometheusLaws P} rs m st up :
  exists x, record_all rs (Some new) = Some x /\
    let l := mkHttpLabels m (pretty st) up in
    let n := count_if (fun r => bool_decide (labels_of r = l)) rs in
    read l (requests_total x) = wrap64 n /\
    read l (errors_total x) = (if 400 <=? st then wrap64 n else 0) /\
    requests_in_flight x = gauge_default /\ connections_active x = gauge_default /\
    connections_total x = ∅ /\ rate_limit_rejections_total x = ∅ /\ circuit_breaker_state x = ∅.
Proof.
  induction rs as [|[[[m' st'] up'] d] rs IH] using rev_ind.
  { exists new. split; [done|]. simpl. unfold read, new. simpl. rewrite !lookup_empty. by case_match. }
  destruct IH as (x & Hx & Hr & He & Hrest). unfold record_all in *. rewrite foldl_app, Hx. simpl.
  eexists. split; [done|]. simpl. rewrite count_if_snoc. simpl. split; [|split; [|done]].
  - rewrite read_update, Hr. destruct (decide (mkHttpLabels m (pretty st) up = mkHttpLabels m' (pretty st') up')) as [Heq|Hne].
    + rewrite bool_decide_eq_true_2 by done. unfold u64_add. by rewrite wrap64_add_l.
    + rewrite bool_decide_eq_false_2 by congruence. simpl. by rewrite Z.add_0_r.
  - destruct (decide (mkHttpLabels m (pretty st) up = mkHttpLabels m' (pretty st') up')) as [Heq|Hne].
    + assert (Hst : st = st') by (injection Heq as _ Hs _; by apply (inj pretty) in Hs). subst st'.
      rewrite bool_decide_eq_true_2 by done. destruct (400 <=? st) eqn:E; [|done].
      rewrite read_update, He, decide_True by done. unfold u64_add. by rewrite wrap64_add_l.
    + rewrite bool_decide_eq_false_2 by congruence. simpl. rewrite Z.add_0_r.
      destruct (400 <=? st'); [|done]. by rewrite read_update, decide_False by done.
Qed.

Lemma requests_counted_witness :
  exists x, @record_all list_prometheus [("GET", 200, "u", of_Z 1); ("GET", 502, "u", of_Z 1); ("GET", 502, "u", of_Z 2)]
      (Some (@new list_prometheus)) = Some x /\
    @read list_prometheus _ _ _ (mkHttpLabels "GET" "502" "u") (errors_total x) = 2.
Proof.
  destruct (@requests_counted list_prometheus list_prometheus_laws
    [("GET", 200, "u", of_Z 1); ("GET", 502, "u", of_Z 1); ("GET", 502, "u", of_Z 2)] "GET" 502 "u")
    as (x & H1 & _ & H2 & _).
  exists x. split; [exact H1|exact H2].
Defined.
