(* ===== verification/Service.v ===== *)
(** * The proxy service (src/src/service.rs)

    One request: choose an upstream, rewrite the address, forward with a timeout,
    turn every failure into a response, record the outcome. Addresses, responses
    and the HTTP client are interfaces. *)

From Stdlib Require Import Ascii String SpecFloat.
From stdpp Require Import prelude gmap strings pretty.
From S2P Require Import Prelude F64 RoundRobin Errors Metrics.
Open Scope string_scope.
Open Scope Z_scope.

(** [http::Uri]: parsing (the error is printed) and [path_and_query]. *)
Class UriLib : Type := {
  Uri : Type;
  parse_uri : string -> result Uri string;
  path_and_query : Uri -> option string
}.

(** [http::Response]: its status, and a response built from a status and a text. *)
Class ResponseLib : Type := {
  Response : Type;
  response_status : Response -> Z;
  build_response : Z -> string -> Response
}.

Class ResponseLaws (R : ResponseLib) : Prop := {
  status_of_build st m : 100 <= st <= 999 -> response_status (build_response st m) = st
}.

(** Instances: strings as addresses, of which "http..." parse; a response as a
    status and a text. *)
Definition string_uris : UriLib := {|
  Uri := string;
  parse_uri s := if String.prefix "http" s then Ok s else Err "invalid uri character";
  path_and_query s := Some s
|}.
Definition pair_responses : ResponseLib := {|
  Response := Z * string; response_status := fst; build_response st m := (st, m)
|}.
Lemma pair_responses_laws : ResponseLaws pair_responses.
Proof. by split. Qed.

Definition BAD_GATEWAY : Z := 502.
Definition GATEWAY_TIMEOUT : Z := 504.

Record ProxyService : Type := mkProxyService {
  upstream_addrs : list string;
  next_upstream : Z;
  request_timeout : Duration
}.

Definition proxy_service_new (addrs : list string) (timeout : Duration) : ProxyService :=
  {| upstream_addrs := addrs; next_upstream := 0; request_timeout := timeout |}.

Section Service.
Context {FE : ForeignErrors} {UL : UriLib} {RL : ResponseLib} {P : Prometheus}.

(** A request: its method, its address, and what the service does not look at. *)
Record Request (B : Type) : Type := mkRequest {
  req_method : string;
  req_uri : Uri;
  req_rest : B
}.
Arguments req_method {B}.
Arguments req_uri {B}.
Arguments req_rest {B}.
Arguments mkRequest {B}.

(** [timeout(d, client.request(req))]: an answer, an error, or neither in time. *)
Inductive Exchange : Type :=
| Answered (r : Response)
| Failed (e : HyperError)
| TimedOut.

Definition select_upstream (s : ProxyService) : outcome (proxy_result string * ProxyService) :=
  match upstream_addrs s with
  | [] => Returns (Err NoUpstream, s)
  | _ =>
      let '(idx, next) := fetch_index (next_upstream s) (Z.of_nat (length (upstream_addrs s))) in
      let s := mkProxyService (upstream_addrs s) next (request_timeout s) in
      outcome_bind (index (upstream_addrs s) idx) (fun a => Returns (Ok a, s))
  end.

Definition build_upstream_uri (upstream : string) (original_uri : Uri) : proxy_result Uri :=
  let path_and_query := match path_and_query original_uri with Some pq => pq | None => "/" end in
  let uri_str := upstream +:+ path_and_query in
  map_err (fun e => ServiceUnavailable ("failed to parse URI: " +:+ e)) (parse_uri uri_str).

Definition error_response (status : Z) (message : string) : Response := build_response status message.

Section Forward.
Context {B W : Type} (exchange : Duration -> Request B -> W -> Exchange * W).
Context (elapsed_secs : W -> f64).

(** The world [w] is what the client acts on and the clock reads. *)
Definition forward_request (s : ProxyService) (req : Request B) (g : Metrics.global) (w : W)
    : outcome (proxy_result Response * ProxyService * Metrics.global * W) :=
  let method := req_method req in
  outcome_bind (select_upstream s) (fun '(chosen, s) =>
  match chosen with
  | Err e => Returns (Err e, s, g, w)
  | Ok upstream =>
      match build_upstream_uri upstream (req_uri req) with
      | Err _ =>
          Returns (Ok (error_response BAD_GATEWAY "Invalid upstream URI"), s,
            Metrics.record_request method 502 upstream (elapsed_secs w) g, w)
      | Ok upstream_uri =>
          let req := mkRequest method upstream_uri (req_rest req) in
          let '(result, w) := exchange (request_timeout s) req w in
          match result with
          | Answered response =>
              Returns (Ok response, s,
                Metrics.record_request method (response_status response) upstream (elapsed_secs w) g, w)
          | Failed _ =>
              Returns (Ok (error_response BAD_GATEWAY "Upstream request failed"), s,
                Metrics.record_request method 502 upstream (elapsed_secs w) g, w)
          | TimedOut =>
              Returns (Ok (error_response GATEWAY_TIMEOUT "Upstream request timed out"), s,
                Metrics.record_request method 504 upstream (elapsed_secs w) g, w)
          end
      end
  end).

(** [Service::call]: always a response. The counter is shared by all clones. *)
Definition call (s : ProxyService) (req : Request B) (g : Metrics.global) (w : W)
    : outcome (Response * ProxyService * Metrics.global * W) :=
  outcome_bind (forward_request s req g w) (fun '(r, s, g, w) =>
    Returns (match r with Ok resp => resp | Err _ => error_response BAD_GATEWAY "Proxy error" end, s, g, w)).

End Forward.

(** ** Lemmas *)

Lemma select_upstream_in s :
  upstream_addrs s <> [] ->
  exists a, select_upstream s =
      Returns (Ok a, mkProxyService (upstream_addrs s) (u64_add (next_upstream s) 1) (request_timeout s)) /\
    upstream_addrs s !! Z.to_nat (next_upstream s mod Z.of_nat (length (upstream_addrs s))) = Some a.
Proof.
  intros Hne. assert (Hl : 0 < Z.of_nat (length (upstream_addrs s))) by (destruct (upstream_addrs s); [done|simpl; lia]).
  destruct (index_in (upstream_addrs s) (next_upstream s mod Z.of_nat (length (upstream_addrs s))))
    as (a & Hi & Ha); [by apply Z.mod_pos_bound|].
  exists a. split; [|done]. unfold select_upstream. destruct (upstream_addrs s) as [|x xs]; [done|].
  unfold fetch_index. cbn [upstream_addrs]. by rewrite Hi.
Qed.

(** [k] choices in a row. *)
Fixpoint select_all (k : nat) (s : ProxyService) : outcome (list (proxy_result string) * ProxyService) :=
  match k with
  | O => Returns ([], s)
  | S k =>
      outcome_bind (select_upstream s) (fun '(r, s) =>
        outcome_bind (select_all k s) (fun '(rs, s) => Returns (r :: rs, s)))
  end.

Lemma select_all_indices k s :
  upstream_addrs s <> [] ->
  exists rs s', select_all k s = Returns (Ok <$> rs, s') /\
    Some <$> rs = (fun j => upstream_addrs s !! Z.to_nat j) <$>
      (indices k (next_upstream s) (Z.of_nat (length (upstream_addrs s)))).1.
Proof.
  revert s. induction k as [|k IH]; intros s Hne; [by exists [], s|].
  destruct (select_upstream_in s Hne) as (a & Hs & Ha). cbn [select_all indices]. rewrite Hs.
  destruct (IH (mkProxyService (upstream_addrs s) (u64_add (next_upstream s) 1) (request_timeout s)) Hne)
    as (rs & s' & Hrs & Hi). simpl in Hi. cbn [outcome_bind]. rewrite Hrs. cbn [outcome_bind].
  exists (a :: rs), s'. split; [done|]. unfold fetch_index.
  destruct (indices k _ _) as [js c]. cbn [fst] in *. by rewrite !fmap_cons, Hi, Ha.
Qed.

End Service.

(** ** Properties *)

Section Properties.
Context {FE : ForeignErrors} {UL : UriLib} {RL : ResponseLib} {P : Prometheus}.

(** C12. Every call of the service ends in a response, never in a panic, and says
    why: with no upstream configured the client gets 502 and nothing is sent or
    recorded; else one upstream is chosen and, when the chosen address followed by
    the path and query of the request (or "/") is an address, exactly one exchange is
    made with it under the configured timeout: its response is passed on, its failure
    is a 502, its timeout a 504. When it is not an address the client gets 502 and
    nothing is sent. In each of these cases exactly one request is recorded, with
    the status the client sees and the chosen upstream. *)
Theorem call_outcome `{!ResponseLaws RL} {B W} (exchange : Duration -> Request B -> W -> Exchange * W)
    (elapsed_secs : W -> f64) s req g w :
  exists resp s' g' w', call exchange elapsed_secs s req g w = Returns (resp, s', g', w') /\
  upstream_addrs s' = upstream_addrs s /\ request_timeout s' = request_timeout s /\
  match upstream_addrs s with
  | [] => response_status resp = 502 /\ s' = s /\ g' = g /\ w' = w
  | _ =>
      exists up, up ∈ upstream_addrs s /\ next_upstream s' = u64_add (next_upstream s) 1 /\
        g' = Metrics.record_request (req_method B req) (response_status resp) up (elapsed_secs w') g /\
        match parse_uri (up +:+ match path_and_query (req_uri B req) with Some pq => pq | None => "/" end) with
        | Err _ => response_status resp = 502 /\ w' = w
        | Ok uri =>
            match exchange (request_timeout s) (mkRequest B (req_method B req) uri (req_rest B req)) w with
            | (Answered r, w1) => resp = r /\ w' = w1
            | (Failed _, w1) => response_status resp = 502 /\ w' = w1
            | (TimedOut, w1) => response_status resp = 504 /\ w' = w1
            end
        end
  end.
Proof.
  unfold call, forward_request, build_upstream_uri.
  destruct (upstream_addrs s) as [|x xs] eqn:E.
  { unfold select_upstream. rewrite E. eexists _, _, _, _. split; [done|]. split_and!; try done.
    by apply status_of_build. }
  destruct (select_upstream_in s) as (a & Hsel & Ha); [by rewrite E|]. rewrite Hsel. cbn [outcome_bind].
  apply list_elem_of_lookup_2 in Ha.
  destruct (parse_uri (a +:+ _)) as [uri|e] eqn:Ep; simpl.
  - destruct (exchange _ _ _) as [[r|e|] w1] eqn:Ex; simpl; eexists _, _, _, _;
      (split; [done|split; [done|split; [done|]]]); exists a; rewrite <-E, Ep, Ex, ?status_of_build by done;
      (split; [done|split; [done|split; [done|]]]); rewrite ?status_of_build; done.
  - eexists _, _, _, _. split; [done|split; [done|split; [done|]]]. exists a.
    rewrite <-E, Ep, ?status_of_build by done. done.
Qed.

(** Upstreams are chosen in turn, with no panic: from any counter value, until
    it wraps, [m] full turns choose each of distinct upstreams exactly [m] times,
    whatever the outcomes of the requests. *)
Theorem upstreams_in_turn s m a :
  NoDup (upstream_addrs s) -> a ∈ upstream_addrs s -> 0 <= next_upstream s ->
  next_upstream s + Z.of_nat m * Z.of_nat (length (upstream_addrs s)) <= u64_modulus ->
  exists rs s', select_all (m * length (upstream_addrs s)) s = Returns (Ok <$> rs, s') /\
    count_if (String.eqb a) rs = Z.of_nat m.
Proof.
  intros Hnd Ha Hc Hm.
  assert (Hne : upstream_addrs s <> []) by (intros E; rewrite E in Ha; by apply not_elem_of_nil in Ha).
  destruct (select_all_indices (m * length (upstream_addrs s)) s Hne) as (rs & s' & Hrs & Hi).
  exists rs, s'. split; [done|].
  apply list_elem_of_lookup in Ha as [k Hk]. pose proof (lookup_lt_Some _ _ _ Hk) as Hlt.
  rewrite <-(indices_fair m (next_upstream s) (Z.of_nat (length (upstream_addrs s))) (Z.of_nat k)) by lia.
  replace (Z.to_nat (Z.of_nat m * Z.of_nat (length (upstream_addrs s)))) with (m * length (upstream_addrs s))%nat by lia.
  assert (Hrw : count_if (String.eqb a) rs = count_if (fun o => bool_decide (o = Some a)) (Some <$> rs)).
  { rewrite count_if_fmap. apply count_if_ext_in. intros b _. apply eq_iff_eq_true.
    rewrite String.eqb_eq, bool_decide_eq_true. naive_solver. }
  rewrite Hrw, Hi, count_if_fmap.
  apply count_if_ext_in. intros j Hj. apply indices_bound in Hj; [|lia].
  apply eq_iff_eq_true. rewrite bool_decide_eq_true, Z.eqb_eq. split.
  - intros Hj'. assert (Z.to_nat j = k) by (by apply (NoDup_lookup _ _ _ a Hnd)). lia.
  - intros <-. by rewrite Nat2Z.id.
Qed.

End Properties.

(** ** The properties at a concrete service *)

Lemma call_outcome_witness :
  exists resp s' g' w',
    @call string_errors string_uris pair_responses list_prometheus unit nat
      (fun _ _ n => (TimedOut, S n)) (fun _ => of_Z 1) (proxy_service_new ["http://a:1"] (from_secs 30))
      (@mkRequest string_uris unit "GET" "/x" tt) (Some (@Metrics.new list_prometheus)) 0%nat
      = Returns (resp, s', g', w') /\
    upstream_addrs s' = ["http://a:1"] /\ @response_status pair_responses resp = 504.
Proof.
  destruct (@call_outcome string_errors string_uris pair_responses list_prometheus pair_responses_laws
    unit nat (fun _ _ n => (TimedOut, S n)) (fun _ => of_Z 1)
    (proxy_service_new ["http://a:1"] (from_secs 30)) (@mkRequest string_uris unit "GET" "/x" tt)
    (Some (@Metrics.new list_prometheus)) 0%nat) as (resp & s' & g' & w' & H & H1 & _ & H2).
  exists resp, s', g', w'. split; [exact H|]. split; [exact H1|].
  destruct H2 as (up & Hup & _ & _ & H2). apply list_elem_of_singleton in Hup as ->.
  exact (proj1 H2).
Defined.

Lemma upstreams_in_turn_witness :
  exists rs s', @select_all string_errors 6 (proxy_service_new ["a"; "b"] (from_secs 30)) = Returns (Ok <$> rs, s') /\
    count_if (String.eqb "b") rs = 3.
Proof.
  apply (@upstreams_in_turn string_errors (proxy_service_new ["a"; "b"] (from_secs 30)) 3 "b").
  - simpl. apply NoDup_cons. split; [|apply NoDup_singleton]. intros H%list_elem_of_singleton. discriminate H.
  - simpl. right. left.
  - simpl. lia.
  - simpl. words.
Defined.
