(* ===== verification/ServiceInterleaving.v ===== *)
(** * Requests interleaved on the proxy service (src/src/service.rs, src/src/metrics.rs)

    All clones of the service share one round-robin counter, and all tasks of the
    process one metrics collector behind a mutex. A request draws its upstream from
    the counter, waits for the HTTP client, and records its outcome under the lock;
    the accesses of other requests interleave between these. *)

From Stdlib Require Import Ascii String SpecFloat.
From stdpp Require Import prelude gmap strings pretty.
From S2P Require Import Prelude Tasks F64 RoundRobin Errors Metrics Service.
Open Scope string_scope.
Open Scope Z_scope.

Module SharedService.
Section Shared.
Context {FE : ForeignErrors} {UL : UriLib} {RL : ResponseLib} {P : Prometheus} {B : Type}.

(** The service the clones share, and the process-wide collector. *)
Record cells : Type := mkCells {
  service : ProxyService;
  collector : Metrics.global
}.

(** A request, with what the client answers within the timeout to the request it is
    given, and how long that takes. *)
Record call : Type := mkCall {
  request : Request B;
  exchange : Duration -> Request B -> Exchange;
  seconds : f64
}.

(** Where the task of a request is: before its draw, waiting for the client, before
    its record, answered. A record has the response it will answer with. *)
Inductive pc : Type :=
| Begin (c : call)
| Forwarding (c : call) (upstream : string) (uri : Uri)
| Recording (c : call) (upstream : string) (status : Z) (response : Response)
| Done (c : call) (recorded : option (string * Z)) (answer : outcome Response).

Definition start (c : call) : pc := Begin c.

Definition is_done (p : pc) : bool := match p with Done _ _ _ => true | _ => false end.

(** What follows the draw: the address is built, or the request fails. *)
Definition chosen (c : call) (upstream : outcome string) : pc :=
  match upstream with
  | Panics => Done c None Panics
  | Returns upstream =>
      match build_upstream_uri upstream (req_uri B (request c)) with
      | Ok uri => Forwarding c upstream uri
      | Err _ => Recording c upstream 502 (error_response BAD_GATEWAY "Invalid upstream URI")
      end
  end.

Definition access (now : Instant) (p : pc) (sh : cells) : pc * cells :=
  let s := service sh in
  match p with
  | Begin c =>
      match upstream_addrs s with
      | [] => (Done c None (Returns (error_response BAD_GATEWAY "Proxy error")), sh)
      | _ =>
          let '(idx, next) := fetch_index (next_upstream s) (Z.of_nat (length (upstream_addrs s))) in
          (chosen c (index (upstream_addrs s) idx),
           mkCells (mkProxyService (upstream_addrs s) next (request_timeout s)) (collector sh))
      end
  | Forwarding c upstream uri =>
      let req := mkRequest B (req_method B (request c)) uri (req_rest B (request c)) in
      (match exchange c (request_timeout s) req with
       | Answered response => Recording c upstream (response_status response) response
       | Failed _ => Recording c upstream 502 (error_response BAD_GATEWAY "Upstream request failed")
       | TimedOut => Recording c upstream 504 (error_response GATEWAY_TIMEOUT "Upstream request timed out")
       end, sh)
  | Recording c upstream status response =>
      (Done c (Some (upstream, status)) (Returns response),
       mkCells s (Metrics.record_request (req_method B (request c)) status upstream (seconds c) (collector sh)))
  | Done c r a => (Done c r a, sh)
  end.

End Shared.
End SharedService.

Module SharedServiceFacts.
Import SharedService.
Section Facts.
Context {FE : ForeignErrors} {UL : UriLib} {RL : ResponseLib} {P : Prometheus} {B : Type}.
Context {RLaws : ResponseLaws RL} {PLaws : PrometheusLaws P}.
Implicit Types (sh : cells) (p : pc (B := B)) (c : call (B := B)).
Abbreviation sys_step := (Tasks.sys_step (start (B := B)) is_done access).

(** The upstream a request has drawn. *)
Definition drawn_upstream p : option string :=
  match p with
  | Begin _ => None
  | Forwarding _ up _ | Recording _ up _ _ => Some up
  | Done _ r _ => fst <$> r
  end.

(** The requests recorded under a label. *)
Definition recorded_as (l : HttpLabels) p : bool :=
  match p with
  | Done c (Some (up, st)) _ => bool_decide (mkHttpLabels (req_method B (request c)) (pretty st) up = l)
  | _ => false
  end.

Definition remaining p : nat :=
  match p with Begin _ => 3 | Forwarding _ _ _ => 2 | Recording _ _ _ _ => 1 | Done _ _ _ => 0 end.

Lemma remaining_decreases now p sh : is_done p = false -> (remaining (access now p sh).1 < remaining p)%nat.
Proof.
  destruct p as [c|c up uri|c up st resp|]; simpl; try done; [|intros _..].
  - intros _. destruct (upstream_addrs _); simpl; [lia|]. unfold chosen. repeat case_match; simpl; lia.
  - case_match; simpl; lia.
  - lia.
Qed.

(** A request ends within three accesses, whatever other requests do meanwhile. *)
Lemma done_within_three s es s' i p :
  steps sys_step s es s' -> tasks s !! i = Some p ->
  exists p', tasks s' !! i = Some p' /\ count_if (is_run i) es <= 3 /\
    (count_if (is_run i) es = 3 -> is_done p' = true).
Proof.
  intros Hs Hi. destruct (accesses_bounded start is_done access remaining s es s' i p) as (p' & Hp' & Hle);
    [intros now q sh; apply remaining_decreases|done|done|].
  assert (Hr : (remaining p <= 3)%nat) by (destruct p; simpl; lia).
  exists p'. split; [done|]. split; [lia|]. intros Hn. destruct p'; simpl in *; (done || lia).
Qed.

(** The responses a finished request can have: the upstream and status recorded are
    those of its answer. *)
Definition answered (addrs : list string) (r : option (string * Z)) (a : outcome Response) : Prop :=
  match addrs with
  | [] => r = None /\ exists resp, a = Returns resp /\ response_status resp = 502
  | _ => exists up resp, r = Some (up, response_status resp) /\ a = Returns resp /\ up ∈ addrs
  end.

Definition pc_ok (addrs : list string) p : Prop :=
  match p with
  | Begin _ => True
  | Forwarding _ up _ => up ∈ addrs
  | Recording _ up st resp => up ∈ addrs /\ st = response_status resp
  | Done _ r a => answered addrs r a
  end.

Definition service_ok (addrs : list string) (d : Duration) sh : Prop :=
  upstream_addrs (service sh) = addrs /\ request_timeout (service sh) = d.

(** What an access does to the request, to the counter and to the collector. *)
Lemma access_service addrs d now p sh :
  service_ok addrs d sh -> pc_ok addrs p ->
  let '(p', sh') := access now p sh in
  service_ok addrs d sh' /\ pc_ok addrs p' /\
  draw addrs drawn_upstream (next_upstream (service sh)) p (next_upstream (service sh')) p'.
Proof.
  intros [Ha Hd] Hp. destruct p as [c|c up uri|c up st resp|c r a]; simpl in *.
  - rewrite Ha. destruct addrs as [|x xs] eqn:E.
    { split; [done|]. split; [|by left]. split; [done|]. eexists. split; [done|]. by apply status_of_build. }
    rewrite <-E in *. assert (Hl : 0 < size addrs) by (rewrite E; unfold size; simpl; lia).
    unfold fetch_index. destruct (index_in addrs (next_upstream (service sh) mod size addrs)) as (up & Hup & Hlk);
      [by apply Z.mod_pos_bound|]. unfold size in Hup at 1. rewrite Hup. pose proof (list_elem_of_lookup_2 _ _ _ Hlk).
    unfold chosen. destruct (build_upstream_uri _ _) as [uri|e]; simpl; (split; [done|]);
      (split; [rewrite ?status_of_build; done|]); right; exists up; by split_and!.
  - split; [done|]. destruct (exchange c _ _) as [resp|e|]; simpl; (split; [|by left]); rewrite ?status_of_build; done.
  - destruct Hp as [Hup ->]. split; [done|]. split; [|by left]. unfold answered.
    destruct addrs eqn:E; [by apply not_elem_of_nil in Hup|]. rewrite <-E in *. by exists up, resp.
  - split; [done|]. split; [done|]. by left.
Qed.

(** *** The invariant of every interleaving *)

(** The counter follows the draws, every position is sound, and the collector holds
    what the finished requests have recorded. *)
Definition collected (g : Metrics.global) (ps : list pc) : Prop :=
  exists rs, g = Metrics.record_all rs (Some Metrics.new) /\
    forall l, count_if (fun r => bool_decide (Metrics.labels_of r = l)) rs = count_if (recorded_as l) ps.

Definition sys_ok (addrs : list string) (d : Duration) (s : system cells pc) : Prop :=
  service_ok addrs d (shared s) /\ Forall (pc_ok addrs) (tasks s) /\
  collected (collector (shared s)) (tasks s) /\
  (addrs <> [] -> NoDup addrs -> drawn addrs 0 drawn_upstream (next_upstream (service (shared s))) (tasks s)).

Lemma collected_step now p sh ps i :
  ps !! i = Some p -> is_done p = false -> collected (collector sh) ps ->
  collected (collector (access now p sh).2) (<[i := (access now p sh).1]> ps).
Proof.
  intros Hi Hd (rs & Hg & Hn).
  assert (Hsame : forall p' sh', collector sh' = collector sh -> (forall l, recorded_as l p' = false) ->
    collected (collector sh') (<[i := p']> ps)).
  { intros p' sh' Hc Hp'. exists rs. rewrite Hc. split; [done|]. intros l.
    rewrite (count_if_insert _ _ _ _ _ Hi), Hp', (Hn l). destruct p; simpl in *; (done || lia). }
  destruct p as [c|c up uri|c up st resp|]; try done; simpl.
  - destruct (upstream_addrs _); simpl; [by apply Hsame|]. apply Hsame; [done|]. intros lb. unfold chosen.
    repeat case_match; done.
  - apply Hsame; [done|]. intros l. by case_match.
  - exists (rs ++ [(req_method B (request c), st, up, seconds c)])%list. split.
    { unfold Metrics.record_all. rewrite foldl_app, Hg. done. }
    intros l. rewrite count_if_snoc, (count_if_insert _ _ _ _ _ Hi), (Hn l). simpl. lia.
Qed.

Lemma requests_ok_step addrs d s e s' : True -> sys_ok addrs d s -> sys_step s e s' -> sys_ok addrs d s'.
Proof.
  intros _ (Hsh & Hpcs & Hcol & Hdr) Hstep.
  destruct Hstep as [sh t ps c|sh t ps i p p' sh' Hi Hdn Hacc|sh t ps t' Ht]; simpl in *; [| |done].
  - split; [done|]. split; [by apply Forall_app_2; [|constructor]|]. split.
    + destruct Hcol as (rs & Hg & Hn). exists rs. split; [done|]. intros l. simpl. by rewrite (Hn l), count_if_snoc, Z.add_0_r.
    + intros Hne Hnd. by apply drawn_snoc, Hdr.
  - pose proof (collected_step t p sh ps i Hi Hdn Hcol) as Hcol'.
    pose proof (access_service addrs d t p sh Hsh (Forall_lookup_1 _ _ _ _ Hpcs Hi)) as Ha. rewrite Hacc in *.
    destruct Ha as (Hsh' & Hp' & Hg). split; [done|]. split; [by apply Forall_insert|]. split; [done|].
    intros Hne Hnd. eapply (drawn_insert addrs 0 drawn_upstream Hne Hnd); [exact Hi|exact Hg|by apply Hdr].
Qed.

Lemma requests_ok addrs d t0 es s :
  steps sys_step (mkSystem (mkCells (proxy_service_new addrs d) (Some Metrics.new)) t0 []) es s ->
  sys_ok addrs d s.
Proof.
  intros Hs.
  refine (steps_invariant sys_step (fun _ => True) (sys_ok addrs d) _ _ _ _ _ _ Hs); [|by apply Forall_true|].
  - intros s0 e s1. by apply requests_ok_step.
  - split; [done|]. split; [constructor|]. split; [by exists []|]. intros _ _. apply drawn_nil.
Qed.

(** What has been recorded stays so. *)
Lemma recorded_mono l s es s' :
  steps sys_step s es s' -> count_if (recorded_as l) (tasks s) <= count_if (recorded_as l) (tasks s').
Proof. apply count_mono. intros now p sh Hd. by destruct p. Qed.

End Facts.
End SharedServiceFacts.

(** ** Properties *)

Import SharedService SharedServiceFacts.

Section Properties.
Context {FE : ForeignErrors} {UL : UriLib} {RL : ResponseLib} {P : Prometheus} {B : Type}.

(** A request that runs alone is a call of [Service.v]: the same response, counter and
    collector, after at most three accesses. *)
Theorem solo_is_call now (c : call (B := B)) s g :
  let '(p, sh) := Tasks.solo is_done access 3 now (start c) (mkCells s g) in
  match Service.call (fun d req w => (exchange c d req, w)) (fun _ => seconds c) s (request c) g tt with
  | Returns (resp, s', g', _) => exists r, p = Done c r (Returns resp) /\ sh = mkCells s' g'
  | Panics => exists r, p = Done c r Panics
  end.
Proof.
  unfold start. rewrite solo_step by done. cbn [access service]. unfold Service.call, forward_request, select_upstream.
  destruct (upstream_addrs s) as [|x xs] eqn:E; [rewrite solo_done by done; by eexists|]. rewrite <-E.
  destruct (fetch_index _ _) as [idx next]. cbn [collector upstream_addrs request_timeout].
  destruct (index (upstream_addrs s) idx) as [up|]; cbn [outcome_bind chosen]; [|rewrite solo_done by done; by eexists].
  destruct (build_upstream_uri up _) as [uri|e].
  - rewrite solo_step by done. cbn [access service request_timeout]. destruct (exchange c _ _) as [resp|e|];
      rewrite solo_step by done; cbn [access]; rewrite solo_done by done; by eexists.
  - rewrite solo_step by done. cbn [access]. rewrite solo_done by done. by eexists.
Qed.

(** C13. However requests interleave on the service and the metrics, each is answered
    within three accesses, never by a panic, and recorded once with the status its
    client sees (unless no upstream is configured: 502, unrecorded); the counters
    of the collector are the numbers of requests so recorded and its in-flight
    gauge has not moved; and upstreams take turns: the numbers of requests drawn
    to any two of them differ by at most one, until the counter wraps. *)
Theorem interleaved_requests `{!ResponseLaws RL} `{!PrometheusLaws P} addrs d t0 es s :
  NoDup addrs -> Z.of_nat (length (tasks s)) <= u64_modulus ->
  steps (Tasks.sys_step (start (B := B)) is_done access)
    (mkSystem (mkCells (proxy_service_new addrs d) (Some Metrics.new)) t0 []) es s ->
  (forall i c r a, tasks s !! i = Some (Done c r a) -> answered addrs r a) /\
  (forall i p es' s', tasks s !! i = Some p -> steps (Tasks.sys_step (start (B := B)) is_done access) s es' s' ->
     exists p', tasks s' !! i = Some p' /\ count_if (is_run i) es' <= 3 /\
       (count_if (is_run i) es' = 3 -> is_done p' = true)) /\
  (exists x, collector (shared s) = Some x /\ Metrics.requests_in_flight x = gauge_default /\
     forall m st up, let l := mkHttpLabels m (pretty st) up in
       let n := wrap64 (count_if (recorded_as l) (tasks s)) in
       Metrics.read l (Metrics.requests_total x) = n /\
       Metrics.read l (Metrics.errors_total x) = if 400 <=? st then n else 0) /\
  (let share := count_if (was_given drawn_upstream) (tasks s) / Z.of_nat (length addrs) in
   forall up, up ∈ addrs -> share <= count_if (given_to drawn_upstream up) (tasks s) <= share + 1).
Proof.
  intros Hnd Hlen Hs. destruct (requests_ok addrs d t0 es s Hs) as (Hsh & Hpcs & (rs & Hg & Hn) & Hdr).
  split; [|split; [|split]].
  - intros i c r a Hi. exact (Forall_lookup_1 _ _ _ _ Hpcs Hi).
  - intros i p es' s' Hi Hs'. by apply (done_within_three s es' s' i p).
  - destruct (requests_counted rs "" 0 "") as (x & Hx & _ & _ & Hfl & _). exists x.
    split; [by rewrite Hg|]. split; [done|]. intros m st up. cbv zeta.
    destruct (requests_counted rs m st up) as (x' & Hx' & Hr & He & _). cbv zeta in Hr, He. simplify_eq.
    split; [rewrite Hr|rewrite He]; by rewrite Hn.
  - intros share up Hup. assert (Hne : addrs <> []) by (intros ->; by apply not_elem_of_nil in Hup).
    apply (drawn_balanced _ _ _ _ _ up (Hdr Hne Hnd)); [done|lia|done].
Qed.

End Properties.

(** Three requests over two upstreams: the first is answered 200, the second times
    out, the third waits for its upstream; the first two overlap. *)
Section Overlap.
#[local] Existing Instances string_errors string_uris pair_responses list_prometheus.
#[local] Existing Instances pair_responses_laws list_prometheus_laws.

Definition quick : call (B := unit) :=
  mkCall (mkRequest unit "GET" "/x" tt) (fun _ _ => Answered (200, "hello")) (of_Z 1).
Definition slow : call (B := unit) := mkCall (mkRequest unit "GET" "/y" tt) (fun _ _ => TimedOut) (of_Z 30).

Definition overlap_schedule : list (event (call (B := unit))) :=
  [Spawn quick; Spawn slow; Spawn slow; Run 0; Run 1; Run 1; Tick 5; Run 0; Run 2; Run 1; Run 0].
Definition overlap_start : system cells (pc (B := unit)) :=
  mkSystem (mkCells (proxy_service_new ["http://a:1"; "http://b:1"] (from_secs 30)) (Some Metrics.new)) 0 [].
Definition overlap_end : system cells (pc (B := unit)) :=
  default overlap_start (schedule start is_done access overlap_schedule overlap_start).

Lemma overlap_runs : schedule start is_done access overlap_schedule overlap_start = Some overlap_end.
Proof.
  assert (Hs : match schedule start is_done access overlap_schedule overlap_start with
    Some _ => true | None => false end = true) by (vm_compute; reflexivity).
  unfold overlap_end. by destruct (schedule _ _ _ _ _).
Qed.

Lemma interleaved_requests_witness :
  count_if (was_given drawn_upstream) (tasks overlap_end) = 3 /\
  (exists x, collector (shared overlap_end) = Some x /\
     Metrics.read (mkHttpLabels "GET" (pretty 504) "http://b:1") (Metrics.errors_total x) = 1) /\
  1 <= count_if (given_to drawn_upstream "http://a:1") (tasks overlap_end) <= 1 + 1.
Proof.
  split; [vm_compute; reflexivity|].
  destruct (interleaved_requests ["http://a:1"; "http://b:1"] (from_secs 30) 0 overlap_schedule overlap_end)
    as (_ & _ & (x & Hx & _ & Hn) & Hshare).
  - repeat constructor; set_solver.
  - vm_compute. congruence.
  - apply (schedule_sound start is_done access), overlap_runs.
  - split.
    + exists x. split; [exact Hx|]. rewrite (proj2 (Hn "GET" 504 "http://b:1")). vm_compute. reflexivity.
    + exact (Hshare "http://a:1" ltac:(by left)).
Defined.
End Overlap.
