(* ===== verification/Config.v ===== *)
(** * Configuration (src/src/config.rs)

    Loading from the environment and validation. Socket addresses are parsed as
    the standard library does; URL parsing comes from the [url] crate: an
    argument. *)

From Stdlib Require Import Ascii String.
From stdpp Require Import prelude strings.
From S2P Require Import Prelude RustStr.
Open Scope string_scope.
Open Scope Z_scope.

Inductive ConfigError : Type :=
| InvalidListenAddr (addr reason : string)
| InvalidMetricsAddr (addr reason : string)
| InvalidUpstreamAddr (addr reason : string)
| NoUpstreamAddrs
| InvalidTimeout (reason : string)
| DuplicateAddrs (addr : string).

(** [Display]. *)
Definition config_error_message (e : ConfigError) : string :=
  match e with
  | InvalidListenAddr addr reason => "invalid listen address '" +:+ addr +:+ "': " +:+ reason
  | InvalidMetricsAddr addr reason => "invalid metrics address '" +:+ addr +:+ "': " +:+ reason
  | InvalidUpstreamAddr addr reason => "invalid upstream address '" +:+ addr +:+ "': " +:+ reason
  | NoUpstreamAddrs => "at least one upstream address is required"
  | InvalidTimeout reason => "invalid timeout value: " +:+ reason
  | DuplicateAddrs addr => "listen address and metrics address cannot be the same: " +:+ addr
  end.

Record ProxyConfig : Type := mkProxyConfig {
  listen_addr : string;
  upstream_addrs : list string;
  metrics_addr : string;
  request_timeout : Duration;
  max_connections : Z
}.

Definition default_max_connections : Z := 10000.

Definition proxy_config_default : ProxyConfig :=
  {| listen_addr := "127.0.0.1:3000";
     upstream_addrs := ["http://127.0.0.1:8080"];
     metrics_addr := "127.0.0.1:9090";
     request_timeout := from_secs 30;
     max_connections := default_max_connections |}.

(** [Option::unwrap_or] and friends. *)
Definition unwrap_or {A} (d : A) (o : option A) : A := match o with Some a => a | None => d end.

(** [env] is [std::env::var]: [None] when a variable is unset or not Unicode. *)
Definition from_env (env : string -> option string) : ProxyConfig :=
  let listen_addr := unwrap_or "127.0.0.1:3000" (env "PROXY_LISTEN_ADDR") in
  let upstream_addrs :=
    List.filter (fun s => negb (is_empty s))
      (map trim (split_on ","%char
        (unwrap_or "http://127.0.0.1:8080" (env "PROXY_UPSTREAM_ADDRS")))) in
  let metrics_addr := unwrap_or "127.0.0.1:9090" (env "PROXY_METRICS_ADDR") in
  let request_timeout_ms := unwrap_or 30000 (env "PROXY_REQUEST_TIMEOUT_MS" ≫= parse_u64) in
  let max_connections :=
    unwrap_or default_max_connections (env "PROXY_MAX_CONNECTIONS" ≫= parse_usize) in
  {| listen_addr := listen_addr;
     upstream_addrs := upstream_addrs;
     metrics_addr := metrics_addr;
     request_timeout := from_millis request_timeout_ms;
     max_connections := max_connections |}.

Section Validate.
Context (url_parses : string -> bool).
Open Scope mesh_scope.

Fixpoint validate_upstreams (addrs : list string) : result unit ConfigError :=
  match addrs with
  | [] => Ok tt
  | addr :: addrs =>
      if negb (starts_with "http://" addr) && negb (starts_with "https://" addr) then
        Err (InvalidUpstreamAddr addr "must start with http:// or https://")
      else if negb (url_parses addr) then Err (InvalidUpstreamAddr addr "invalid URL format")
      else validate_upstreams addrs
  end.

(** The upstreams that are accepted. *)
Definition upstream_ok (addr : string) : Prop :=
  (starts_with "http://" addr = true \/ starts_with "https://" addr = true) /\ url_parses addr = true.

Lemma validate_upstreams_ok addrs : validate_upstreams addrs = Ok tt <-> Forall upstream_ok addrs.
Proof.
  induction addrs as [|a addrs IH]; [done|]. cbn [validate_upstreams].
  rewrite Forall_cons, <-IH. unfold upstream_ok.
  destruct (starts_with "http://" a), (starts_with "https://" a), (url_parses a);
    cbn [negb andb]; (split; [intros H; first [discriminate H | by split; [split; [tauto|]|]] | intros [[[?|?] ?] ?]; done]).
Qed.

(** Why an upstream is refused: its scheme is looked at first. *)
Definition upstream_refused (addr reason : string) : Prop :=
  starts_with "http://" addr = false /\ starts_with "https://" addr = false /\
    reason = "must start with http:// or https://" \/
  (starts_with "http://" addr = true \/ starts_with "https://" addr = true) /\ url_parses addr = false /\
    reason = "invalid URL format".

(** The first upstream that is not accepted is the one reported. *)
Lemma validate_upstreams_err addrs e :
  validate_upstreams addrs = Err e <->
  exists before a r after, addrs = (before ++ a :: after)%list /\ Forall upstream_ok before /\
    upstream_refused a r /\ e = InvalidUpstreamAddr a r.
Proof.
  induction addrs as [|a addrs IH].
  { split; [done|]. intros ([|] & ? & ? & ? & [=] & _). }
  cbn [validate_upstreams]. split.
  - intros H.
    assert (Hhere : forall r, upstream_refused a r -> e = InvalidUpstreamAddr a r -> exists before a' r' after,
      (a :: addrs)%list = (before ++ a' :: after)%list /\ Forall upstream_ok before /\ upstream_refused a' r' /\
      e = InvalidUpstreamAddr a' r') by (intros r Hr He; by exists [], a, r, addrs).
    unfold upstream_refused in Hhere.
    destruct (starts_with "http://" a) eqn:E1, (starts_with "https://" a) eqn:E2, (url_parses a) eqn:E3;
      cbn [negb andb] in H; try (injection H as <-; eapply Hhere; [|done]; tauto).
    all: apply IH in H as (before & b & r & after & -> & Hf & Hr & ->); exists (a :: before), b, r, after;
      (split; [done|split; [constructor; [split; [tauto|done]|done]|done]]).
  - intros ([|b before] & a' & r & after & Heq & Hf & Hr & ->); injection Heq as -> ->.
    + destruct Hr as [(-> & -> & ->)|([-> | ->] & -> & ->)]; cbn [negb andb]; try done.
      by destruct (starts_with "http://" a').
    + apply Forall_cons in Hf as [[Hs Hu] Hf].
      replace (negb (starts_with "http://" b) && negb (starts_with "https://" b)) with false
        by (destruct Hs as [-> | ->]; by rewrite ?andb_false_r).
      rewrite Hu. cbn [negb]. apply IH. by exists before, a', r, after.
Qed.

(** An upstream that is refused is not accepted. *)
Lemma refused_not_ok before a r after :
  upstream_refused a r -> ~ Forall upstream_ok (before ++ a :: after)%list.
Proof.
  rewrite Forall_app, Forall_cons. unfold upstream_refused, upstream_ok. intros Hr (_ & Ha & _).
  destruct Hr as [(? & ? & _)|(_ & ? & _)], Ha as [[?|?] ?]; congruence.
Qed.

(** The [Display] of the standard library's [AddrParseError] for a [SocketAddr]. *)
Definition addr_parse_error : string := "invalid socket address syntax".

Definition parse_addr (mk_error : string -> string -> ConfigError) (addr : string) : result unit ConfigError :=
  match parse_socket_addr addr with
  | Some _ => Ok tt
  | None => Err (mk_error addr addr_parse_error)
  end.

Definition validate (c : ProxyConfig) : result unit ConfigError :=
  let? _ := parse_addr InvalidListenAddr (listen_addr c) in
  let? _ := parse_addr InvalidMetricsAddr (metrics_addr c) in
  if String.eqb (listen_addr c) (metrics_addr c) then Err (DuplicateAddrs (listen_addr c))
  else
    match upstream_addrs c with
    | [] => Err NoUpstreamAddrs
    | _ =>
        let? _ := validate_upstreams (upstream_addrs c) in
        if request_timeout c =? 0 then Err (InvalidTimeout "timeout must be greater than zero")
        else if from_secs 3600 <? request_timeout c then
          Err (InvalidTimeout "timeout must not exceed 1 hour")
        else Ok tt
    end.

Definition from_env_validated (env : string -> option string) : result ProxyConfig ConfigError :=
  let config := from_env env in
  let? _ := validate config in
  Ok config.

Lemma validate_nonempty c : validate c = Ok tt -> upstream_addrs c <> [].
Proof.
  unfold validate. intros H E. rewrite E in H.
  destruct (parse_addr _ (listen_addr c)); [|done]. destruct (parse_addr _ (metrics_addr c)); [|done].
  cbn [result_bind] in H. by destruct (String.eqb _ _).
Qed.

End Validate.

(** The upstream addresses as the listener shares them, and the timeout. *)
Definition upstream_addrs_arc (c : ProxyConfig) : list string := upstream_addrs c.
Definition timeout (c : ProxyConfig) : Duration := request_timeout c.

(** ** Properties *)

(** C36. Validation accepts a configuration exactly when both addresses are socket
    addresses and differ as written, there is at least one upstream and each is
    an http(s) URL, and the timeout is positive and at most an hour. Otherwise it reports
    the first check that fails, in the order listen address, metrics address, the
    two being the same, no upstream, the upstreams from the first on (the scheme
    before the form), the timeout: an error is reported exactly when its check fails and
    all those before it pass, and it names the address and the reason. *)
Theorem validate_spec url_parses c :
  0 <= request_timeout c ->
  let parses a := is_some (parse_socket_addr a) = true in
  let listens := parses (listen_addr c) in
  let bound := listens /\ parses (metrics_addr c) in
  let distinct := bound /\ listen_addr c <> metrics_addr c in
  let reachable := distinct /\ upstream_addrs c <> [] /\ Forall (upstream_ok url_parses) (upstream_addrs c) in
  (validate url_parses c = Ok tt <-> reachable /\ 0 < request_timeout c <= from_secs 3600) /\
  (forall e, validate url_parses c = Err e <->
     match e with
     | InvalidListenAddr a r => a = listen_addr c /\ r = addr_parse_error /\ parse_socket_addr a = None
     | InvalidMetricsAddr a r => listens /\ a = metrics_addr c /\ r = addr_parse_error /\ parse_socket_addr a = None
     | DuplicateAddrs a => bound /\ a = listen_addr c /\ a = metrics_addr c
     | NoUpstreamAddrs => distinct /\ upstream_addrs c = []
     | InvalidUpstreamAddr a r => distinct /\
         exists before after, upstream_addrs c = (before ++ a :: after)%list /\
           Forall (upstream_ok url_parses) before /\ upstream_refused url_parses a r
     | InvalidTimeout r => reachable /\
         (request_timeout c = 0 /\ r = "timeout must be greater than zero" \/
          from_secs 3600 < request_timeout c /\ r = "timeout must not exceed 1 hour")
     end).
Proof.
  intros Ht. cbv zeta. unfold validate, parse_addr.
  destruct (parse_socket_addr (listen_addr c)) as [la|] eqn:El; cbn [result_bind is_some];
    [|split; [naive_solver|intros []; naive_solver]].
  destruct (parse_socket_addr (metrics_addr c)) as [ma|] eqn:Em; cbn [result_bind is_some];
    [|split; [naive_solver|intros []; naive_solver]].
  destruct (String.eqb_spec (listen_addr c) (metrics_addr c)) as [Heq|Hne];
    [split; [naive_solver|intros []; naive_solver]|].
  destruct (upstream_addrs c) as [|u us] eqn:Eu.
  { split; [naive_solver|]. intros []; try naive_solver. split; [done|]. by intros [_ ([|] & ? & [=] & _)]. }
  rewrite <-Eu. assert (Hups : upstream_addrs c <> []) by by rewrite Eu. clear Eu.
  pose proof (validate_upstreams_ok url_parses (upstream_addrs c)) as Hok.
  pose proof (validate_upstreams_err url_parses (upstream_addrs c)) as Herr.
  destruct (validate_upstreams url_parses (upstream_addrs c)) as [[]|e'] eqn:Ev; cbn [result_bind].
  - assert (HF : Forall (upstream_ok url_parses) (upstream_addrs c)) by by apply Hok.
    assert (Hno : forall a r before after, upstream_addrs c = (before ++ a :: after)%list ->
      upstream_refused url_parses a r -> False).
    { intros a r before after Heq Hr. rewrite Heq in HF. by eapply refused_not_ok. }
    destruct (Z.eqb_spec (request_timeout c) 0) as [E0|E0];
      [|destruct (Z.ltb_spec (from_secs 3600) (request_timeout c)) as [E1|E1]].
    all: assert (Hpos : 0 <= from_secs 3600) by (vm_compute; congruence).
    all: split; [split; [intros H|intros (_ & H); try reflexivity; lia]|].
    all: try (discriminate H).
    all: try (split_and!; (done || lia)).
    all: intros []; split; try (intros H; discriminate H); try naive_solver lia.
  - assert (HnF : ~ Forall (upstream_ok url_parses) (upstream_addrs c)) by (intros HF; by apply Hok in HF).
    split; [split; [done|intros ((_ & _ & HF) & _); done]|].
    destruct (proj1 (Herr e') eq_refl) as (before & a' & r' & after & Heq & Hf & Hr & He').
    intros e. split.
    + intros [= <-]. rewrite He'. split; [done|]. by exists before, after.
    + intros H. apply Herr. destruct e; naive_solver.
Qed.

(** The second of three upstreams is reported, although the timeout is bad as well. *)
Definition bad_upstream_config : ProxyConfig :=
  mkProxyConfig "127.0.0.1:3000" ["http://a"; "ftp://b"; "ftp://c"] "127.0.0.1:9090" 0 10.

Lemma validate_spec_witness :
  validate (fun _ => true) bad_upstream_config =
    Err (InvalidUpstreamAddr "ftp://b" "must start with http:// or https://").
Proof.
  apply (validate_spec (fun _ => true) bad_upstream_config).
  - vm_compute. congruence.
  - split; [split; [split; vm_compute; reflexivity|discriminate]|].
    exists ["http://a"], ["ftp://c"]. split; [reflexivity|]. split.
    + constructor; [|constructor]. split; [left|]; vm_compute; reflexivity.
    + left. split; [|split]; vm_compute; reflexivity.
Defined.

(** Loading never fails. With nothing set it gives the default configuration,
    a malformed number falls back to its default, and every upstream is a
    non-empty trimmed element of the list; but a variable that holds no address
    (empty, or commas and blanks) gives no upstream at all, which validation, and
    only validation, rejects. *)
Theorem from_env_spec env :
  (from_env (fun _ => None) = proxy_config_default) /\
  (forall t, env "PROXY_REQUEST_TIMEOUT_MS" = Some t -> parse_u64 t = None ->
     request_timeout (from_env env) = from_secs 30) /\
  (forall a, a ∈ upstream_addrs (from_env env) <->
     a <> "" /\ exists s, a = trim s /\
       s ∈ split_on ","%char (unwrap_or "http://127.0.0.1:8080" (env "PROXY_UPSTREAM_ADDRS"))) /\
  (forall v, env "PROXY_UPSTREAM_ADDRS" = Some v ->
     (forall s, s ∈ split_on ","%char v -> trim s = "") -> upstream_addrs (from_env env) = []) /\
  (forall url_parses c, from_env_validated url_parses env = Ok c ->
     c = from_env env /\ upstream_addrs c <> []).
Proof.
  assert (Hin : forall a, a ∈ upstream_addrs (from_env env) <->
     a <> "" /\ exists s, a = trim s /\
       s ∈ split_on ","%char (unwrap_or "http://127.0.0.1:8080" (env "PROXY_UPSTREAM_ADDRS"))).
  { intros a. simpl. rewrite list_elem_of_In, filter_In, in_map_iff.
    setoid_rewrite list_elem_of_In. destruct a; simpl; naive_solver. }
  split; [reflexivity|]. split; [|split; [exact Hin|split]].
  - intros t Ht Hp. unfold from_env. cbn [request_timeout]. rewrite Ht.
    change (Some t ≫= parse_u64) with (parse_u64 t). by rewrite Hp.
  - intros v Hv Hall. destruct (upstream_addrs (from_env env)) as [|a l] eqn:E; [done|].
    exfalso. destruct (proj1 (Hin a)) as (Hne & s & -> & Hs); [left|].
    rewrite Hv in Hs. simpl in Hs. by rewrite Hall in Hne.
  - intros url_parses c H. unfold from_env_validated in H.
    destruct (validate url_parses (from_env env)) as [[]|] eqn:E; [|done].
    injection H as <-. split; [done|]. by eapply validate_nonempty.
Qed.
