(* ===== verification/Protocol.v ===== *)
(** * Protocol negotiation and TLS (src/src/protocol.rs)

    ALPN identifiers, and the construction of TLS configurations from files. File
    access, PEM parsing and rustls are an interface. *)

From Stdlib Require Import Ascii String.
From stdpp Require Import prelude strings.
From S2P Require Import Prelude Errors.
Open Scope string_scope.
Open Scope Z_scope.

Inductive HttpProtocol : Type := Http1 | Http2 | Auto.

#[export] Instance HttpProtocol_eq_dec : EqDecision HttpProtocol.
Proof. solve_decision. Defined.

Definition http_protocol_default : HttpProtocol := Http2.

Definition alpn_protocols (p : HttpProtocol) : list string :=
  match p with
  | Http1 => ["http/1.1"]
  | Http2 => ["h2"]
  | Auto => ["h2"; "http/1.1"]
  end.

Definition from_alpn (alpn : option string) : HttpProtocol :=
  match alpn with
  | Some p => if String.eqb p "h2" then Http2 else if String.eqb p "http/1.1" then Http1 else Http1
  | None => Http1
  end.

(** The items of a PEM file, as rustls-pemfile reads them. *)
Inductive PemItem (Cert Key : Type) : Type :=
| X509 (c : Cert)
| Pkcs1Key (k : Key)
| Pkcs8Key (k : Key)
| Sec1Key (k : Key)
| OtherItem.
Arguments X509 {Cert Key}.
Arguments Pkcs1Key {Cert Key}.
Arguments Pkcs8Key {Cert Key}.
Arguments Sec1Key {Cert Key}.
Arguments OtherItem {Cert Key}.

(** Files and rustls: [open] a file and iterate over its items, each of which may
    fail to parse; build a server or a client configuration, or fail. *)
Class TlsLib `{FE : ForeignErrors} : Type := {
  Certificate : Type;
  PrivateKey : Type;
  pem_certs : string -> result (list (option Certificate)) IoError;
  pem_items : string -> result (list (option (PemItem Certificate PrivateKey))) IoError;
  ServerConfig : Type;
  single_cert_config : list Certificate -> PrivateKey -> result ServerConfig string;
  set_alpn : list string -> ServerConfig -> ServerConfig;
  ClientConfig : Type;
  client_auth_config : list Certificate -> PrivateKey -> result ClientConfig string;
  no_client_auth : ClientConfig
}.

Record TlsConfig : Type := mkTlsConfig {
  cert_path : string;
  key_path : string;
  protocol : HttpProtocol
}.

Definition tls_config_new (cert key : string) : TlsConfig :=
  {| cert_path := cert; key_path := key; protocol := Auto |}.

Definition with_protocol (p : HttpProtocol) (c : TlsConfig) : TlsConfig :=
  mkTlsConfig (cert_path c) (key_path c) p.

Record ClientTlsConfig : Type := mkClientTlsConfig {
  verify_server : bool;
  client_cert : option string;
  client_key : option string
}.

Definition client_tls_config_default : ClientTlsConfig :=
  {| verify_server := true; client_cert := None; client_key := None |}.

Definition client_tls_config_new : ClientTlsConfig := client_tls_config_default.

Definition danger_accept_invalid_certs (c : ClientTlsConfig) : ClientTlsConfig :=
  mkClientTlsConfig false (client_cert c) (client_key c).

Definition with_client_cert (cert_path key_path : string) (c : ClientTlsConfig) : ClientTlsConfig :=
  mkClientTlsConfig (verify_server c) (Some cert_path) (Some key_path).

Section Tls.
Context {FE : ForeignErrors} {TL : TlsLib}.
Open Scope mesh_scope.

Definition load_certs (path : string) : proxy_result (list Certificate) :=
  let? items := map_err (fun e => TlsConfigError ("failed to open cert file: " +:+ io_to_string e)) (pem_certs path) in
  let certs := omap id items in
  match certs with
  | [] => Err (TlsConfigError "no certificates found in file")
  | _ => Ok certs
  end.

Definition key_of (i : PemItem Certificate PrivateKey) : option PrivateKey :=
  match i with
  | Pkcs1Key k => Some k
  | Pkcs8Key k => Some k
  | Sec1Key k => Some k
  | _ => None
  end.

Definition load_private_key (path : string) : proxy_result PrivateKey :=
  let? items := map_err (fun e => TlsConfigError ("failed to open key file: " +:+ io_to_string e)) (pem_items path) in
  let keys := omap (fun item => item ≫= key_of) items in
  match keys with
  | k :: _ => Ok k
  | [] => Err (TlsConfigError "no private key found in file")
  end.

Definition build_acceptor (c : TlsConfig) : proxy_result ServerConfig :=
  let? certs := load_certs (cert_path c) in
  let? key := load_private_key (key_path c) in
  let? config := map_err (fun e => TlsConfigError ("failed to configure TLS: " +:+ e)) (single_cert_config certs key) in
  Ok (set_alpn (alpn_protocols (protocol c)) config).

Definition build_client_config (c : ClientTlsConfig) : proxy_result ClientConfig :=
  match client_cert c, client_key c with
  | Some cert_path, Some key_path =>
      let? certs := load_certs cert_path in
      let? key := load_private_key key_path in
      map_err (fun e => TlsConfigError ("failed to configure client auth: " +:+ e)) (client_auth_config certs key)
  | _, _ => Ok no_client_auth
  end.

End Tls.

(** ** Properties *)

(** C39. What ALPN settles is what is served. The preferred identifier of a
    configuration reads back as the configured protocol (HTTP/2 for automatic). Of
    the identifiers a configuration advertises, the peers can settle on HTTP/2
    exactly when it is "h2": a connection configured for HTTP/1.1 is never served as
    HTTP/2, one configured for HTTP/2 that settles on an identifier always is, no
    identifier at all means HTTP/1.1, and "automatic" is never served. *)
Theorem alpn_sound p negotiated :
  (forall a, negotiated = Some a -> a ∈ alpn_protocols p) ->
  from_alpn (head (alpn_protocols p)) = (if decide (p = Auto) then Http2 else p) /\
  (from_alpn negotiated = Http2 <-> negotiated = Some "h2") /\
  (from_alpn negotiated = Http1 <-> negotiated = Some "http/1.1" \/ negotiated = None) /\
  (p = Http1 -> from_alpn negotiated = Http1) /\
  (p = Http2 -> negotiated <> None -> from_alpn negotiated = Http2).
Proof.
  intros Hneg. destruct negotiated as [a|]; [specialize (Hneg a eq_refl)|].
  - destruct p; simpl in Hneg; rewrite ?elem_of_cons, elem_of_nil in Hneg;
      destruct_or?; subst; try done; split_and!; try done; naive_solver.
  - destruct p; split_and!; naive_solver.
Qed.

Lemma alpn_sound_witness :
  from_alpn (Some "h2") = Http2 <-> Some "h2" = Some "h2".
Proof.
  refine (proj1 (proj2 (alpn_sound Auto (Some "h2") _))).
  intros a H. injection H as <-. simpl. left.
Defined.

(** The acceptor uses the certificates of the file that parse, in order, and
    the first private key of the key file, of whichever format comes first (a PKCS#1
    key before a PKCS#8 key wins); it advertises the configured protocols. A client
    configuration needs both a certificate and a key to authenticate, and never
    reads [verify_server]. *)
Theorem acceptor_spec `{TL : TlsLib} c cc items citems k rest certs :
  pem_certs (cert_path c) = Ok citems -> omap id citems = certs -> certs <> [] ->
  pem_items (key_path c) = Ok items -> omap (fun i => i ≫= key_of) items = k :: rest ->
  build_acceptor c = match single_cert_config certs k with
                     | Ok config => Ok (set_alpn (alpn_protocols (protocol c)) config)
                     | Err e => Err (TlsConfigError ("failed to configure TLS: " +:+ e))
                     end /\
  build_client_config (danger_accept_invalid_certs cc) = build_client_config cc /\
  (client_key cc = None -> build_client_config cc = Ok no_client_auth).
Proof.
  intros Hc Hcs Hne Hk Hks. split; [|split; [done|]].
  - unfold build_acceptor, load_certs, load_private_key. rewrite Hc, Hk. cbn [map_err result_bind].
    rewrite Hcs, Hks. destruct certs; [done|]. cbn [result_bind]. by destruct (single_cert_config _ k).
  - intros Hn. unfold build_client_config. rewrite Hn. by destruct (client_cert cc).
Qed.

(** Files as given lists; configurations remember what they were built from. *)
Definition toy_tls : @TlsLib string_errors := {|
  Certificate := string;
  PrivateKey := string;
  pem_certs p := @Ok _ (@IoError string_errors) [Some p; None];
  pem_items p := @Ok _ (@IoError string_errors) [None; Some (Pkcs1Key "rsa"); Some (Pkcs8Key "p8")];
  ServerConfig := list string * string * list string;
  single_cert_config cs k := Ok (cs, k, []);
  set_alpn ps c := (c.1, ps);
  ClientConfig := option string;
  client_auth_config cs k := Ok (Some k);
  no_client_auth := None
|}.

Lemma acceptor_spec_witness :
  @build_acceptor string_errors toy_tls (tls_config_new "cert.pem" "key.pem") =
    Ok (["cert.pem"], "rsa", ["h2"; "http/1.1"]).
Proof.
  refine (proj1 (@acceptor_spec string_errors toy_tls (tls_config_new "cert.pem" "key.pem")
    client_tls_config_default [None; Some (Pkcs1Key "rsa"); Some (Pkcs8Key "p8")] [Some "cert.pem"; None]
    "rsa" ["p8"] ["cert.pem"] _ _ _ _ _)).
  - reflexivity.
  - reflexivity.
  - discriminate.
  - reflexivity.
  - reflexivity.
Defined.
