(* ===== verification/Admin.v ===== *)
(** * The admin service (src/src/admin.rs)

    Liveness, readiness and metrics endpoints. Responses are given by their
    status, content type and body; the JSON bodies are what serde_json prints for
    the two response structures, and the metrics text is an argument. Serialising
    two plain structures and building a response from constant headers cannot fail,
    so the handlers' fallbacks for these errors are never taken and have no
    branch here. *)

From Stdlib Require Import Ascii String.
From stdpp Require Import prelude strings.
From S2P Require Import Prelude.
Open Scope string_scope.
Open Scope Z_scope.

(** [ReadinessState]: one atomic flag, shared by the services. *)
Definition ReadinessState : Type := bool.

Definition readiness_new : ReadinessState := false.
Definition readiness_default : ReadinessState := readiness_new.
Definition set_ready (_ : ReadinessState) : ReadinessState := true.
Definition set_not_ready (_ : ReadinessState) : ReadinessState := false.
Definition is_ready (r : ReadinessState) : bool := r.

Record HealthResponse : Type := mkHealthResponse { health_status : string }.

Record ReadinessResponse : Type := mkReadinessResponse {
  ready : bool;
  reason : option string
}.

(** What the service answers. *)
Record AdminResponse : Type := mkAdminResponse {
  status : Z;
  content_type : option string;
  body : string
}.

(** A service starts ready by default, or shares a given state. *)
Definition admin_service_new : ReadinessState := set_ready readiness_new.
Definition admin_service_default : ReadinessState := admin_service_new.
Definition readiness (service : ReadinessState) : ReadinessState := service.
Definition with_readiness (r : ReadinessState) : ReadinessState := r.

Section Admin.
Context (json_health : HealthResponse -> string) (json_readiness : ReadinessResponse -> string).

Definition health_response : AdminResponse :=
  {| status := 200; content_type := Some "application/json";
     body := json_health {| health_status := "healthy" |} |}.

Definition readiness_response (r : ReadinessState) : AdminResponse :=
  let is_ready := is_ready r in
  let response := {| ready := is_ready;
                     reason := if is_ready then None else Some "service not ready" |} in
  {| status := if is_ready then 200 else 503; content_type := Some "application/json";
     body := json_readiness response |}.

Definition metrics_response (metrics : string) : AdminResponse :=
  {| status := 200; content_type := Some "text/plain; version=0.0.4"; body := metrics |}.

Definition error_response (st : Z) (message : string) : AdminResponse :=
  {| status := st; content_type := None; body := message |}.

(** [path] is the path of the request's address; [encode] the result of
    [Metrics::encode]. The method is not looked at. *)
Definition handle_request (r : ReadinessState) (encode : result string string) (path : string) : AdminResponse :=
  if String.eqb path "/health" || String.eqb path "/healthz" then health_response
  else if String.eqb path "/ready" || String.eqb path "/readyz" then readiness_response r
  else if String.eqb path "/metrics" then
    match encode with
    | Ok metrics => metrics_response metrics
    | Err _ => error_response 500 "Failed to encode metrics"
    end
  else error_response 404 "Not Found".

(** [Service::call] reads the shared flag when the request is handled. *)
Definition call (r : ReadinessState) (encode : result string string) (path : string) : AdminResponse :=
  handle_request r encode path.

End Admin.

(** Changes of the readiness. *)
Inductive readiness_call : Type := SetReady | SetNotReady.
#[export] Instance readiness_call_eq_dec : EqDecision readiness_call.
Proof. solve_decision. Defined.

Definition readiness_exec (r : ReadinessState) (c : readiness_call) : ReadinessState :=
  match c with SetReady => set_ready r | SetNotReady => set_not_ready r end.

(** ** Properties *)

(** The probes tell the truth: after any changes of readiness, "/ready" and
    "/readyz" answer 200 exactly when the last change (or the initial state, ready
    for a default service) says ready, and 503 otherwise; liveness answers 200
    whatever the readiness; metrics answer 200 unless encoding failed (500); and
    every other path, trailing slashes included, is 404. *)
Theorem probes_truthful jh jr encode path (cs : list readiness_call) :
  let r := foldl readiness_exec admin_service_new cs in
  let resp := call jh jr r encode path in
  (path ∈ ["/ready"; "/readyz"] ->
     status resp = if bool_decide (last cs = Some SetNotReady) then 503 else 200) /\
  (path ∈ ["/health"; "/healthz"] -> status resp = 200) /\
  (path = "/metrics" -> status resp = 200 <-> is_ok encode = true) /\
  (status resp = 404 <-> path ∉ ["/health"; "/healthz"; "/ready"; "/readyz"; "/metrics"]).
Proof.
  intros r resp.
  assert (Hr : r = negb (bool_decide (last cs = Some SetNotReady))).
  { subst r. destruct cs as [|c cs _] using rev_ind; [done|]. rewrite foldl_app, last_snoc. by destruct c. }
  subst resp. unfold call, handle_request.
  split_and!.
  - rewrite !elem_of_cons, elem_of_nil. intros [->|[->|[]]]; simpl; unfold is_ready; rewrite Hr;
      by destruct (bool_decide _).
  - rewrite !elem_of_cons, elem_of_nil. by intros [->|[->|[]]].
  - intros ->. simpl. by destruct encode.
  - rewrite !not_elem_of_cons.
    destruct (String.eqb_spec path "/health"), (String.eqb_spec path "/healthz"),
      (String.eqb_spec path "/ready"), (String.eqb_spec path "/readyz"), (String.eqb_spec path "/metrics");
      cbn [orb]; try (subst; simpl; destruct r; naive_solver);
      try (destruct encode; simpl; naive_solver).
    split; [|done]. intros _. split_and!; try done. apply not_elem_of_nil.
Qed.
