(* ===== verification/Listener.v ===== *)
(** * Listeners (src/src/listener.rs, src/src/admin_listener.rs) and the start of the
    process (src/src/main.rs)

    The accept loops as functions of what the runtime delivers, the choice of
    protocol for a connection, and what the process binds. Sockets, the TLS library
    and hyper's connection drivers are arguments; [Process.v] has the rest of the
    process. *)

From Stdlib Require Import Ascii String.
From stdpp Require Import prelude strings.
From S2P Require Import Prelude Errors Metrics Service ServiceInterleaving Protocol Config Admin.
Open Scope string_scope.
Open Scope Z_scope.

(** What a [select!] of the accept loops delivers: a connection, an accept error,
    or a result of the shutdown receiver, [Ok] for a message and [Err] when the
    sender is gone or the receiver lagged. *)
Inductive Event (Stream : Type) : Type :=
| Accepted (stream : Stream)
| AcceptFailed
| ShutdownReceived (message : result unit unit).
Arguments Accepted {Stream}.
Arguments AcceptFailed {Stream}.
Arguments ShutdownReceived {Stream}.

(** The loop: the streams a task was spawned for, in order, and whether it left
    the loop. *)
Fixpoint accept_loop {Stream} (events : list (Event Stream)) : list Stream * bool :=
  match events with
  | [] => ([], false)
  | Accepted stream :: events => let '(ss, b) := accept_loop events in (stream :: ss, b)
  | AcceptFailed :: events => accept_loop events
  | ShutdownReceived _ :: _ => ([], true)
  end.

(** The future of a call: the service it was made on, whose cells its polls access as
    [SharedService.access] says, and the position it has reached. *)
Record future {FE : ForeignErrors} {UL : UriLib} {RL : ResponseLib} {B : Type} : Type := mkFuture {
  polled_service : ProxyService;
  position : SharedService.pc (B := B)
}.

Section Listener.
Context {FE : ForeignErrors} {TL : TlsLib}.
Context {Tcp SocketAddr : Type}.
Context (tcp_bind : string -> result Tcp IoError) (tcp_local_addr : Tcp -> result SocketAddr IoError).
Open Scope mesh_scope.

Record Listener : Type := mkListener {
  tcp_listener : Tcp;
  proxy_service : ProxyService;
  addr : SocketAddr;
  tls_acceptor : option ServerConfig;
  default_protocol : HttpProtocol
}.

(** The first steps of every [bind]. *)
Definition bind_tcp (a : string) : proxy_result (Tcp * SocketAddr) :=
  let? tcp := map_err (ListenerBind a) (tcp_bind a) in
  let? local := map_err (ListenerBind a) (tcp_local_addr tcp) in
  Ok (tcp, local).

Definition bind (a : string) (upstreams : list string) (timeout : Duration) : proxy_result Listener :=
  let? b := bind_tcp a in
  Ok {| tcp_listener := b.1; proxy_service := proxy_service_new upstreams timeout; addr := b.2;
        tls_acceptor := None; default_protocol := Http1 |}.

Definition bind_with_tls (a : string) (upstreams : list string) (timeout : Duration) (tls : TlsConfig)
    : proxy_result Listener :=
  let? b := bind_tcp a in
  let? acceptor := build_acceptor tls in
  Ok {| tcp_listener := b.1; proxy_service := proxy_service_new upstreams timeout; addr := b.2;
        tls_acceptor := Some acceptor; default_protocol := protocol tls |}.

Definition bind_h2c (a : string) (upstreams : list string) (timeout : Duration) : proxy_result Listener :=
  let? b := bind_tcp a in
  Ok {| tcp_listener := b.1; proxy_service := proxy_service_new upstreams timeout; addr := b.2;
        tls_acceptor := None; default_protocol := Http2 |}.

Definition local_addr (l : Listener) : SocketAddr := addr l.
Definition is_tls_enabled (l : Listener) : bool := is_some (tls_acceptor l).
Definition listener_default_protocol (l : Listener) : HttpProtocol := default_protocol l.

Section Connections.
Context {UL : UriLib} {RL : ResponseLib} {B Stream TlsStream : Type}.

(** The streams the drivers run on ([TokioIo]). *)
Inductive Io : Type :=
| PlainIo (stream : Stream)
| TlsIo (stream : TlsStream).

Context (tls_accept : ServerConfig -> Stream -> result TlsStream string).
Context (alpn_protocol : TlsStream -> option string).
(** hyper's connection drivers: they turn each request that arrives into a future of the
    service function and poll the futures, HTTP/2 several at a time. *)
Context (http1 http2 : (SharedService.call (B := B) -> future (B := B)) -> Io -> result unit HyperError).

(** The closure of [service_fn]: it clones the service and calls the clone. *)
Definition service_fn (service : ProxyService) : SharedService.call (B := B) -> future (B := B) :=
  fun req => let svc := service in {| polled_service := svc; position := SharedService.start req |}.

Definition serve_http1 (io : Io) (service : ProxyService) : proxy_result unit :=
  map_err Http (http1 (service_fn service) io).
Definition serve_http2 (io : Io) (service : ProxyService) : proxy_result unit :=
  map_err Http (http2 (service_fn service) io).

Definition handle_tls_connection (stream : Stream) (service : ProxyService) (acceptor : ServerConfig) : proxy_result unit :=
  let? tls_stream := map_err TlsHandshake (tls_accept acceptor stream) in
  match from_alpn (alpn_protocol tls_stream) with
  | Http2 => serve_http2 (TlsIo tls_stream) service
  | _ => serve_http1 (TlsIo tls_stream) service
  end.

Definition handle_http1_connection (stream : Stream) (service : ProxyService) : proxy_result unit :=
  serve_http1 (PlainIo stream) service.
Definition handle_h2c_connection (stream : Stream) (service : ProxyService) : proxy_result unit :=
  serve_http2 (PlainIo stream) service.

(** The spawned task of one connection. *)
Definition connection_task (l : Listener) (stream : Stream) : proxy_result unit :=
  let service := proxy_service l in
  match tls_acceptor l with
  | Some acceptor => handle_tls_connection stream service acceptor
  | None =>
      match default_protocol l with
      | Http2 => handle_h2c_connection stream service
      | _ => handle_http1_connection stream service
      end
  end.

(** [serve]: the tasks it spawned, and its result once it left the loop. The
    tasks are detached: their results are only logged. *)
Definition serve (l : Listener) (events : list (Event Stream))
    : list (proxy_result unit) * option (proxy_result unit) :=
  let '(streams, stopped) := accept_loop events in
  (map (connection_task l) streams, if stopped then Some (Ok tt) else None).

End Connections.

(** ** The admin listener *)

Record AdminListener : Type := mkAdminListener {
  admin_tcp : Tcp;
  admin_service : ReadinessState;
  admin_addr : SocketAddr
}.

Definition admin_bind (a : string) : proxy_result AdminListener :=
  let? b := bind_tcp a in
  Ok {| admin_tcp := b.1; admin_service := admin_service_new; admin_addr := b.2 |}.

Definition admin_local_addr (l : AdminListener) : SocketAddr := admin_addr l.

Section AdminConnections.
Context {Stream : Type} (json_health : HealthResponse -> string) (json_readiness : ReadinessResponse -> string).
(** hyper's HTTP/1.1 driver calls the service for each request of the connection,
    with what the registry encodes to at that time. *)
Context (serve_connection : (result string string -> string -> AdminResponse) -> Stream -> result unit HyperError).

Definition admin_handle_connection (stream : Stream) (service : ReadinessState) : proxy_result unit :=
  map_err Http (serve_connection (Admin.call json_health json_readiness service) stream).

Definition admin_serve (l : AdminListener) (events : list (Event Stream))
    : list (proxy_result unit) * option (proxy_result unit) :=
  let '(streams, stopped) := accept_loop events in
  (map (fun stream => admin_handle_connection stream (admin_service l)) streams,
   if stopped then Some (Ok tt) else None).

End AdminConnections.

(** ** The start of the process *)

(** What [run] does until it waits: the two listeners, or the error that ends the
    process. The configuration is not validated. *)
Definition start (env : string -> option string) : proxy_result (Listener * AdminListener) :=
  let config := from_env env in
  let? proxy := bind (listen_addr config) (upstream_addrs_arc config) (Config.request_timeout config) in
  let? admin := admin_bind (metrics_addr config) in
  Ok (proxy, admin).

(** The loop up to the first result of the shutdown receiver. *)
Definition is_shutdown {Stream} (e : Event Stream) : bool :=
  match e with ShutdownReceived _ => true | _ => false end.
Definition accepted_streams {Stream} (events : list (Event Stream)) : list Stream :=
  omap (fun e => match e with Accepted s => Some s | _ => None end) events.

Lemma accept_loop_stops {Stream} (before : list (Event Stream)) m after :
  Forall (fun e => is_shutdown e = false) before ->
  accept_loop (before ++ ShutdownReceived m :: after)%list = (accepted_streams before, true).
Proof. induction 1 as [|[s| |r] es He Hes IH]; simpl in *; try done. by rewrite IH. Qed.

(** ** Properties *)

(** C37. A listener serves each connection as it was bound: over TLS whatever ALPN
    settled, in cleartext HTTP/2 when bound for it and HTTP/1.1 otherwise. Serving
    survives accept errors and failing connections, spawns one task per connection
    accepted before the first result of the shutdown receiver, and stops with success
    at that result, a closed channel ("the sender was dropped") included. *)
Theorem serve_spec {UL : UriLib} {RL : ResponseLib} {B Stream TlsStream} tls_accept alpn http1 http2
    (l : Listener) (before : list (Event Stream)) m after :
  Forall (fun e => is_shutdown e = false) before ->
  serve (B := B) (TlsStream := TlsStream) tls_accept alpn http1 http2 l (before ++ ShutdownReceived m :: after)%list =
    ((fun s =>
        match tls_acceptor l with
        | Some acceptor =>
            match tls_accept acceptor s with
            | Err e => Err (TlsHandshake e)
            | Ok t => map_err Http ((if decide (alpn t = Some "h2") then http2 else http1)
                (service_fn (proxy_service l)) (TlsIo t))
            end
        | None => map_err Http ((if decide (default_protocol l = Http2) then http2 else http1)
            (service_fn (proxy_service l)) (PlainIo s))
        end) <$> accepted_streams before, Some (Ok tt)).
Proof.
  intros Hb. unfold serve. rewrite accept_loop_stops by done.
  f_equal. change (map ?f) with (fmap (M := list) f). apply list_fmap_ext. intros _ s _.
  unfold connection_task, handle_tls_connection, handle_h2c_connection, handle_http1_connection, serve_http1, serve_http2.
  destruct (tls_acceptor l) as [acc|].
  - destruct (tls_accept acc s) as [t|e]; [|done]. simpl. unfold from_alpn.
    destruct (alpn t) as [p|]; [|done]. destruct (String.eqb_spec p "h2") as [->|Hne]; [done|].
    rewrite decide_False by congruence. by destruct (String.eqb p _).
  - by destruct (default_protocol l).
Qed.

(** Starting binds the configured addresses and never validates: with no
    upstream address in the environment the proxy still starts, on an empty list of
    upstreams, in cleartext HTTP/1.1, and the configured maximum of connections is
    dropped; the admin service is its own and always ready. *)
Lemma start_spec env :
  start env =
    match bind_tcp (listen_addr (from_env env)) with
    | Err e => Err e
    | Ok (tcp, local) =>
        match bind_tcp (metrics_addr (from_env env)) with
        | Err e => Err e
        | Ok (tcp', local') =>
            Ok (mkListener tcp
                  (mkProxyService (Config.upstream_addrs (from_env env)) 0 (Config.request_timeout (from_env env)))
                  local None Http1,
                mkAdminListener tcp' admin_service_new local')
        end
    end.
Proof.
  unfold start, bind, admin_bind. destruct (bind_tcp (listen_addr (from_env env))) as [[t a]|]; [|done].
  cbn [result_bind fst snd]. by destruct (bind_tcp (metrics_addr (from_env env))) as [[t' a']|].
Qed.

End Listener.

(** Streams are numbers; a driver resets one of them. *)
Section Served.
#[local] Existing Instances string_errors toy_tls string_uris pair_responses.

Definition toy_driver (handler : SharedService.call (B := unit) -> future (B := unit))
    (io : Io (Stream := nat) (TlsStream := nat)) : result unit HyperError :=
  match io with PlainIo 8%nat => Err "reset" | _ => Ok tt end.

Lemma serve_spec_witness :
  serve (Tcp := unit) (SocketAddr := unit) (fun _ s => Ok s) (fun _ => Some "h2") toy_driver toy_driver
      (mkListener tt (proxy_service_new ["http://a:1"] (from_secs 30)) tt None Http1)
      [Accepted 7%nat; AcceptFailed; Accepted 8%nat; ShutdownReceived (Err tt); Accepted 9%nat] =
    ([Ok tt; Err (Http "reset")], Some (Ok tt)).
Proof.
  apply (serve_spec (Tcp := unit) (SocketAddr := unit) (fun _ s => Ok s) (fun _ => Some "h2") toy_driver toy_driver
      (mkListener tt (proxy_service_new ["http://a:1"] (from_secs 30)) tt None Http1)
      [Accepted 7%nat; AcceptFailed; Accepted 8%nat] (Err tt) [Accepted 9%nat]).
  repeat constructor.
Defined.
End Served.
