(* ===== verification/Process.v ===== *)
(** * The process (src/src/main.rs)

    [main] and [run]: the two accept loops as tasks, the [select!] between a result of
    [ctrl_c] and the end of a task, the broadcast of the shutdown message, and the
    joins. The process is a state machine over what the runtime does; the accept
    loops take the events [Listener.v] gives them. *)

From Stdlib Require Import Ascii String.
From stdpp Require Import prelude strings.
From S2P Require Import Prelude Errors Listener.
Open Scope Z_scope.

Section Process.
Context {Stream : Type}.

(** The two spawned tasks. *)
Inductive task : Type := ProxyTask | AdminTask.
#[export] Instance task_eq_dec : EqDecision task.
Proof. solve_decision. Defined.

(** A task serves until it ends; joining it gives [Ok], or [Err] when it panicked. *)
Inductive task_state : Type :=
| Serving
| Ended (join : result unit unit).

(** Where [run] is: in its [select!], before the send, at the two joins, or done. *)
Inductive run_pc : Type := Selecting | Sending | JoiningProxy | JoiningAdmin | Returned.
#[export] Instance run_pc_eq_dec : EqDecision run_pc.
Proof. solve_decision. Defined.

Record process : Type := mkProcess {
  pc : run_pc;
  proxy_finished : bool;
  admin_finished : bool;
  proxy_task : task_state;
  admin_task : task_state;
  (** the messages sent over the shutdown channel *)
  messages : nat;
  (** the connection tasks that have been spawned and not ended *)
  connections : list (task * Stream)
}.

Definition init : process := mkProcess Selecting false false Serving Serving 0 [].

Definition task_of (t : task) (s : process) : task_state :=
  match t with ProxyTask => proxy_task s | AdminTask => admin_task s end.

Definition set_pc (p : run_pc) (s : process) : process :=
  mkProcess p (proxy_finished s) (admin_finished s) (proxy_task s) (admin_task s) (messages s) (connections s).
Definition set_task (t : task) (x : task_state) (s : process) : process :=
  match t with
  | ProxyTask => mkProcess (pc s) (proxy_finished s) (admin_finished s) x (admin_task s) (messages s) (connections s)
  | AdminTask => mkProcess (pc s) (proxy_finished s) (admin_finished s) (proxy_task s) x (messages s) (connections s)
  end.
Definition set_connections (c : list (task * Stream)) (s : process) : process :=
  mkProcess (pc s) (proxy_finished s) (admin_finished s) (proxy_task s) (admin_task s) (messages s) c.

(** What can happen: a result of [ctrl_c] (an interrupt, or the error of a handler that
    cannot be installed: the branch of the [select!] takes any result), a step of [run], an accept (or an accept error) of
    a loop, a loop receiving the shutdown message or panicking, and the end of a
    connection task. *)
Inductive event : Type :=
| CtrlC (res : result unit string)
| SelectTask (t : task)
| Send
| Join (t : task)
| Accept (t : task) (stream : Stream)
| AcceptError (t : task)
| Receive (t : task)
| Panic (t : task)
| ConnectionEnd (i : nat).

(** Nothing happens after [run] has returned: the runtime is dropped with the tasks
    it still has. *)
Definition fire (e : event) (s : process) : option process :=
  match pc s, e with
  | Returned, _ => None
  | Selecting, CtrlC _ => Some (set_pc Sending s)
  | Selecting, SelectTask t =>
      match task_of t s with
      | Ended _ =>
          Some (mkProcess Sending (match t with ProxyTask => true | AdminTask => proxy_finished s end)
            (match t with AdminTask => true | ProxyTask => admin_finished s end)
            (proxy_task s) (admin_task s) (messages s) (connections s))
      | Serving => None
      end
  | Sending, Send =>
      Some (mkProcess JoiningProxy (proxy_finished s) (admin_finished s) (proxy_task s) (admin_task s)
        (S (messages s)) (connections s))
  | JoiningProxy, Join ProxyTask =>
      if proxy_finished s then Some (set_pc JoiningAdmin s)
      else match proxy_task s with Ended _ => Some (set_pc JoiningAdmin s) | Serving => None end
  | JoiningAdmin, Join AdminTask =>
      if admin_finished s then Some (set_pc Returned s)
      else match admin_task s with Ended _ => Some (set_pc Returned s) | Serving => None end
  | _, Accept t stream =>
      match task_of t s with
      | Serving => Some (set_connections (connections s ++ [(t, stream)]) s)
      | Ended _ => None
      end
  | _, AcceptError t => match task_of t s with Serving => Some s | Ended _ => None end
  | _, Receive t =>
      match task_of t s, messages s with
      | Serving, S _ => Some (set_task t (Ended (Ok tt)) s)
      | _, _ => None
      end
  | _, Panic t => match task_of t s with Serving => Some (set_task t (Ended (Err tt)) s) | Ended _ => None end
  | _, ConnectionEnd i =>
      match connections s !! i with
      | Some _ => Some (set_connections (delete i (connections s)) s)
      | None => None
      end
  | _, _ => None
  end.

Definition step (s : process) (e : event) (s' : process) : Prop := fire e s = Some s'.

(** What [run] returns, once it does: the error of a bind, or success. The status the
    process exits with: an error is fatal. *)
Definition run {FE : ForeignErrors} {A} (started : proxy_result A) (s : process) : option (proxy_result unit) :=
  match started with
  | Err e => Some (Err e)
  | Ok _ => match pc s with Returned => Some (Ok tt) | _ => None end
  end.

Definition exit_status {FE : ForeignErrors} (run : proxy_result unit) : Z :=
  match run with Ok _ => 0 | Err _ => 1 end.

(** *** Lemmas *)

(** What an accept loop sees of the events. *)
Definition loop_event (t : task) (e : event) : option (Event Stream) :=
  match e with
  | Accept t' x => if decide (t' = t) then Some (Accepted x) else None
  | AcceptError t' => if decide (t' = t) then Some AcceptFailed else None
  | Receive t' => if decide (t' = t) then Some (ShutdownReceived (Ok tt)) else None
  | _ => None
  end.

Definition ended (x : task_state) : bool := match x with Ended _ => true | Serving => false end.
Definition stopped (x : task_state) : bool := match x with Ended (Ok _) => true | _ => false end.

(** What holds of every state, as a boolean: the control part of a state is finite. *)
Definition sent (p : run_pc) : nat := match p with Selecting | Sending => 0 | _ => 1 end.

Definition well_formed (s : process) : bool :=
  bool_decide (messages s = sent (pc s)) &&
  implb (proxy_finished s) (ended (proxy_task s)) && implb (admin_finished s) (ended (admin_task s)) &&
  implb (stopped (proxy_task s) || stopped (admin_task s)) (bool_decide (messages s = 1%nat)) &&
  match pc s with
  | Selecting => negb (proxy_finished s) && negb (admin_finished s)
  | JoiningAdmin => ended (proxy_task s)
  | Returned => ended (proxy_task s) && ended (admin_task s)
  | _ => true
  end.

(** The events that bring the end closer, and how many are left. *)
Definition is_work (e : event) : bool :=
  match e with Accept _ _ | AcceptError _ | ConnectionEnd _ => false | _ => true end.

Definition left (s : process) : nat :=
  (match pc s with Selecting => 4 | Sending => 3 | JoiningProxy => 2 | JoiningAdmin => 1 | Returned => 0 end) +
  (if ended (proxy_task s) then 0 else 1) + (if ended (admin_task s) then 0 else 1).

Lemma step_cases s e s' :
  step s e s' -> well_formed s = true ->
  well_formed s' = true /\ (Z.b2z (is_work e) + Z.of_nat (left s') <= Z.of_nat (left s)).
Proof.
  destruct s as [p pf af pt at_ m cs]. unfold step. intros H Hwf.
  assert (m = sent p) as -> by (unfold well_formed in Hwf; simpl in Hwf; by destruct (decide (m = sent p)); [|rewrite bool_decide_false in Hwf]).
  destruct p; [destruct e as [|[]| |[]|[]|[]|[]|[]|]..];
    destruct pf, af, pt as [|[[]|[]]], at_ as [|[[]|[]]]; try discriminate Hwf; try discriminate H;
    unfold fire in H; simpl in H; repeat case_match; simplify_eq/=; (split; [reflexivity|vm_compute; congruence]).
Qed.

Lemma reachable s0 es s :
  steps step s0 es s -> well_formed s0 = true ->
  well_formed s = true /\ count_if is_work es + Z.of_nat (left s) <= Z.of_nat (left s0).
Proof.
  induction 1 as [s|s e s1 es s2 Hstep _ IH]; intros Hwf; [split; [done|unfold count_if; simpl; lia]|].
  destruct (step_cases _ _ _ Hstep Hwf) as [Hwf1 Hle]. destruct (IH Hwf1) as [? ?]. rewrite count_if_cons.
  split; [done|lia].
Qed.

(** The process's own events: those of [run] after its [select!] has something to take,
    and the loops receiving the message. None of them comes from outside, and none is a panic. *)
Definition is_own (e : event) : bool :=
  match e with SelectTask _ | Send | Join _ | Receive _ => true | _ => false end.

(** Something has ended the serving. *)
Definition ending (s : process) : bool :=
  match pc s with Selecting => ended (proxy_task s) || ended (admin_task s) | _ => true end.

(** Until [run] has returned, the process can always take a step of its own. *)
Lemma own_step s :
  well_formed s = true -> ending s = true -> pc s <> Returned ->
  exists e s', is_own e = true /\ step s e s' /\ ending s' = true.
Proof.
  destruct s as [p pf af pt at_ m cs]. intros Hwf He Hp.
  assert (m = sent p) as -> by (unfold well_formed in Hwf; simpl in Hwf; by destruct (decide (m = sent p)); [|rewrite bool_decide_false in Hwf]).
  destruct p; [| | | |done]; simpl.
  - destruct pt as [|r]; [destruct at_ as [|r]; [done|by exists (SelectTask AdminTask); eexists]|].
    by exists (SelectTask ProxyTask); eexists.
  - by exists Send; eexists.
  - destruct pt as [|r]; [by exists (Receive ProxyTask); eexists|].
    exists (Join ProxyTask). eexists. split; [done|]. split; [by destruct pf|done].
  - destruct at_ as [|r]; [by exists (Receive AdminTask); eexists|].
    exists (Join AdminTask). eexists. split; [done|]. split; [by destruct af|done].
Qed.

(** Its own steps alone bring it to the end. *)
Lemma own_steps_return s :
  well_formed s = true -> ending s = true ->
  exists es r, steps step s es r /\ Forall (fun e => is_own e = true) es /\ pc r = Returned /\
    (length es <= left s)%nat.
Proof.
  remember (left s) as n eqn:En. assert (Hn : (left s <= n)%nat) by lia. clear En.
  revert s Hn. induction n as [|n IH]; intros s Hn Hwf He.
  { exists [], s. split; [constructor|]. split; [done|]. split; [|done]. unfold left in Hn. destruct (pc s); (done || lia). }
  destruct (decide (pc s = Returned)) as [Hp|Hp]; [exists [], s; split; [constructor|]; split_and!; (done || simpl; lia)|].
  destruct (own_step s Hwf He Hp) as (e & s1 & Ho & Hs & He1).
  destruct (step_cases _ _ _ Hs Hwf) as [Hwf1 Hle].
  assert (Hw : is_work e = true) by by destruct e.
  rewrite Hw in Hle. destruct (IH s1) as (es & r & Hes & Hos & Hr & Hlen); [simpl in Hle; lia|done..|].
  exists (e :: es), r. split; [by econstructor|]. split; [by constructor|]. split; [done|]. simpl; lia.
Qed.

(** Only a result of [ctrl_c] or a panic ends the serving. *)
Definition is_trigger (e : event) : bool := match e with CtrlC _ | Panic _ => true | _ => false end.
Definition quiet (s : process) : Prop :=
  pc s = Selecting /\ proxy_task s = Serving /\ admin_task s = Serving /\ messages s = 0%nat.

Lemma quiet_step s e s' : is_trigger e = false -> quiet s -> step s e s' -> quiet s'.
Proof.
  destruct s as [p pf af pt at_ m cs]. intros He (Hp & Hpt & Hat & Hm). simpl in *. subst. unfold step, fire.
  destruct e as [|[]| |[]|[]|[]|[]|[]|i]; simpl; intros H; repeat case_match; simplify_eq/=; done.
Qed.

(** What a loop has done follows the events it saw. *)
Definition loop_of (t : task) (es : list event) : list (Event Stream) := omap (loop_event t) es.

Lemma accept_loop_app (es es' : list (Event Stream)) :
  accept_loop (es ++ es')%list =
    if (accept_loop es).2 then accept_loop es
    else ((accept_loop es).1 ++ (accept_loop es').1, (accept_loop es').2)%list.
Proof.
  induction es as [|[x| |r] es IH]; simpl; [by destruct (accept_loop es')| | |done].
  - rewrite IH. destruct (accept_loop es) as [ss []]; simpl; [done|]. by destruct (accept_loop es').
  - exact IH.
Qed.

Lemma loop_step t s e s' :
  step s e s' ->
  (stopped (task_of t s) = true -> loop_event t e = None /\ stopped (task_of t s') = true) /\
  (stopped (task_of t s) = false ->
     stopped (task_of t s') = match loop_event t e with Some (ShutdownReceived _) => true | _ => false end).
Proof.
  destruct s as [p pf af pt at_ m cs]. unfold step, fire. intros H.
  destruct e as [|t'| |t'|t' x|t'|t'|t'|i], t; try destruct t'; simpl in *; destruct p;
    repeat case_match; simplify_eq/=; done.
Qed.

Lemma loop_of_snoc t es e :
  loop_of t (es ++ [e])%list = (loop_of t es ++ match loop_event t e with Some x => [x] | None => [] end)%list.
Proof. unfold loop_of. rewrite omap_app. simpl. by destruct (loop_event t e). Qed.

Lemma loops_run t es s : steps step init es s -> (accept_loop (loop_of t es)).2 = stopped (task_of t s).
Proof.
  revert es s. apply steps_ind_last; [by destruct t|]. intros es s e s' _ IH Hstep.
  rewrite loop_of_snoc, accept_loop_app, IH. destruct (loop_step t _ _ _ Hstep) as [H1 H2].
  destruct (stopped (task_of t s)) eqn:E.
  - destruct (H1 eq_refl) as [_ ->]. by rewrite IH.
  - rewrite H2 by done. by destruct (loop_event t e) as [[| |]|].
Qed.

(** A running connection was accepted by its loop. *)
Lemma connection_step t x s e s' :
  step s e s' -> (t, x) ∈ connections s' ->
  (t, x) ∈ connections s \/ e = Accept t x /\ stopped (task_of t s) = false.
Proof.
  destruct s as [p pf af pt at_ m cs]. unfold step, fire. intros H Hin.
  destruct e as [|t'| |t'|t' y|t'|t'|t'|i]; destruct p; simpl in H; repeat case_match; simplify_eq/=;
    try (by left); try (by destruct t'; left).
  all: try (left; by eapply list_elem_of_delete_inv).
  all: apply elem_of_app in Hin as [Hin|Hin%list_elem_of_singleton]; [by left|right]; injection Hin as -> ->;
    by rewrite H0.
Qed.

Lemma connections_accepted t x es s :
  steps step init es s -> (t, x) ∈ connections s -> x ∈ (accept_loop (loop_of t es)).1.
Proof.
  intros Hs. revert es s Hs. apply (steps_ind_last step (fun es s => (t, x) ∈ connections s -> _)); [by intros ?%elem_of_nil|].
  intros es s e s' Hs IH Hstep Hin. rewrite loop_of_snoc, accept_loop_app, (loops_run t es s Hs).
  destruct (connection_step t x s e s' Hstep Hin) as [Hin'|[-> Hst]].
  - destruct (stopped _); [by apply IH|]. apply elem_of_app. left. by apply IH.
  - rewrite Hst. simpl. rewrite decide_True by done. apply elem_of_app. right. by left.
Qed.

(** ** Properties *)

(** C20. The process shuts down in order: [run] returns success only when both accept
    loops have ended, after exactly one shutdown message, which a loop that ends
    well has received; an error it returns is a failed bind, and it alone gives the
    exit status 1. Without a result of [ctrl_c] (an interrupt, or an error: a handler that
    cannot be installed shuts the process down as an interrupt does, with status 0) and
    without a panicking loop the process serves for ever: nothing else ends a loop. *)
Theorem shutdown_in_order {FE : ForeignErrors} {A} (started : proxy_result A) es s :
  steps step init es s ->
  (forall r, run started s = Some r ->
     match r with
     | Ok _ => exit_status r = 0 /\ messages s = 1%nat /\
         ended (proxy_task s) = true /\ ended (admin_task s) = true
     | Err e => exit_status r = 1 /\ started = Err e
     end) /\
  (stopped (proxy_task s) || stopped (admin_task s) = true -> messages s = 1%nat) /\
  (Forall (fun e => is_trigger e = false) es ->
     pc s = Selecting /\ proxy_task s = Serving /\ admin_task s = Serving).
Proof.
  intros Hs. destruct (reachable _ _ _ Hs eq_refl) as [Hwf _]. split_and!.
  - intros r. unfold run. destruct started as [a|e]; [|by intros [= <-]].
    unfold well_formed in Hwf. destruct (pc s); try done. intros [= <-].
    rewrite !andb_true_iff, bool_decide_eq_true in Hwf. by destruct Hwf as [[[[-> _] _] _] [-> ->]].
  - intros Hst. unfold well_formed in Hwf. rewrite Hst in Hwf. rewrite !andb_true_iff in Hwf.
    destruct Hwf as [[_ Hm] _]. by apply bool_decide_eq_true in Hm.
  - intros Hq.
    destruct (steps_invariant step (fun e => is_trigger e = false) quiet init es s quiet_step Hq)
      as (? & ? & ? & _); [done|exact Hs|done].
Qed.

(** C26. Shutting down takes a bounded number of steps, whatever the loops accept
    meanwhile: from any reachable state at most six steps other than accepts and ends of
    connections follow, and only [run] having returned stops them. Nothing outside is
    needed for it: once a result of [ctrl_c] or the end of a loop has ended the serving,
    there are at most as many steps of the process's own (it sees the end of a task, sends
    the message, the loops receive it, it joins them), with no panic and no
    further interrupt, after which [run] has returned; one of them can always be taken. *)
Theorem shutdown_terminates es s es' s' :
  steps step init es s -> steps step s es' s' ->
  count_if is_work (es ++ es') <= 6 /\
  (count_if is_work es' = Z.of_nat (left s) -> pc s' = Returned) /\
  (ending s' = true ->
     (exists es'' r, steps step s' es'' r /\ Forall (fun e => is_own e = true) es'' /\ pc r = Returned /\
        count_if is_work (es ++ es') + Z.of_nat (length es'') <= 6) /\
     (pc s' <> Returned -> exists e s'', is_own e = true /\ step s' e s'')).
Proof.
  intros Hs Hs'. destruct (reachable _ _ _ Hs eq_refl) as [Hwf Hle].
  destruct (reachable _ _ _ Hs' Hwf) as [Hwf' Hle']. change (left init) with 6%nat in Hle.
  rewrite count_if_app. split; [lia|]. split.
  - intros Heq. rewrite <-Heq in Hle'. unfold left in Hle'. destruct (pc s'); [lia..|done].
  - intros He. split.
    + destruct (own_steps_return s' Hwf' He) as (es'' & r & H1 & H2 & H3 & H4). exists es'', r. split_and!; (done || lia).
    + intros Hp. destruct (own_step s' Hwf' He Hp) as (e & s'' & Ho & Hst & _). by exists e, s''.
Qed.

(** Each task runs the accept loop of its listener: the events it met are those
    of [accept_loop], which has left its loop exactly when the task has ended well, and
    every connection task still running is one that loop accepted. *)
Theorem tasks_run_loops t es s :
  steps step init es s ->
  (accept_loop (loop_of t es)).2 = stopped (task_of t s) /\
  forall x, (t, x) ∈ connections s -> x ∈ (accept_loop (loop_of t es)).1.
Proof. intros Hs. split; [by apply loops_run|]. intros x. by apply connections_accepted. Qed.

(** Connections in progress do not hold the shutdown up: after any connection is
    accepted there is an orderly shutdown at whose end it is still running, and then
    nothing can happen any more. *)
Theorem shutdown_abandons_connections t x :
  exists s, steps step init [Accept t x; CtrlC (Ok tt); Send; Receive ProxyTask; Join ProxyTask; Receive AdminTask; Join AdminTask] s /\
    pc s = Returned /\ connections s = [(t, x)] /\ forall e s', ~ step s e s'.
Proof.
  destruct t; eexists; (split; [do 7 (econstructor; [reflexivity|]); constructor|]); by split.
Qed.

End Process.

Definition half_stopped : process (Stream := nat) :=
  mkProcess JoiningProxy false false (Ended (Err tt)) (Ended (Ok tt)) 1 [].

Lemma shutdown_in_order_witness :
  steps step init [CtrlC (Err "no handler"%string); Send; Receive AdminTask; Panic ProxyTask] half_stopped /\ messages half_stopped = 1%nat.
Proof.
  assert (Hs : steps step init [CtrlC (Err "no handler"%string); Send; Receive AdminTask; Panic ProxyTask] half_stopped)
    by (do 4 (econstructor; [reflexivity|]); constructor).
  split; [exact Hs|]. apply (@shutdown_in_order nat string_errors unit (Ok tt) _ _ Hs). reflexivity.
Defined.

Definition admin_panicked : process (Stream := nat) :=
  mkProcess Selecting false false Serving (Ended (Err tt)) 0 [(ProxyTask, 7%nat)].
Definition stopped_by_panic : process (Stream := nat) :=
  mkProcess Returned false true (Ended (Ok tt)) (Ended (Err tt)) 1 [(ProxyTask, 7%nat); (ProxyTask, 8%nat)].

Lemma shutdown_terminates_witness :
  steps step init [Accept ProxyTask 7%nat; Panic AdminTask] admin_panicked /\
  steps step admin_panicked
    [SelectTask AdminTask; Send; Accept ProxyTask 8%nat; Receive ProxyTask; Join ProxyTask; Join AdminTask]
    stopped_by_panic /\
  pc stopped_by_panic = Returned.
Proof.
  assert (Hs : steps step init [Accept ProxyTask 7%nat; Panic AdminTask] admin_panicked)
    by (do 2 (econstructor; [reflexivity|]); constructor).
  assert (Hs' : steps step admin_panicked
    [SelectTask AdminTask; Send; Accept ProxyTask 8%nat; Receive ProxyTask; Join ProxyTask; Join AdminTask]
    stopped_by_panic) by (do 6 (econstructor; [reflexivity|]); constructor).
  split; [exact Hs|]. split; [exact Hs'|]. by apply (shutdown_terminates _ _ _ _ Hs Hs').
Defined.

Definition proxy_stopped : process (Stream := nat) :=
  mkProcess JoiningProxy false false (Ended (Ok tt)) Serving 1 [(ProxyTask, 7%nat)].

Lemma tasks_run_loops_witness :
  steps step init [Accept ProxyTask 7%nat; CtrlC (Ok tt); Send; Receive ProxyTask] proxy_stopped /\
  7%nat ∈ (accept_loop (loop_of ProxyTask [Accept ProxyTask 7%nat; CtrlC (Ok tt); Send; Receive ProxyTask])).1.
Proof.
  assert (Hs : steps step init [Accept ProxyTask 7%nat; CtrlC (Ok tt); Send; Receive ProxyTask] proxy_stopped)
    by (do 4 (econstructor; [reflexivity|]); constructor).
  split; [exact Hs|]. apply (tasks_run_loops ProxyTask _ _ Hs). by left.
Defined.
