(* ===== verification/EndToEnd.v ===== *)
(** * The process as its operators see it (src/src/main.rs, listener.rs, service.rs, metrics.rs, admin.rs)

    The parts put together the way [run] does: the environment gives a configuration, the
    two listeners are bound from it, requests of all the connections run on the listener's
    service and the process's collector, and the admin service answers probes and scrapes
    meanwhile. A probe reads the shared cells and changes none of them. *)

From Stdlib Require Import Ascii String SpecFloat.
From stdpp Require Import prelude gmap strings pretty.
From S2P Require Import Prelude Tasks F64 RoundRobin Errors Metrics Service ServiceInterleaving Config Protocol Admin Listener.
Open Scope string_scope.
Open Scope Z_scope.
Import SharedService SharedServiceFacts.

Section Observed.
Context {FE : ForeignErrors} {UL : UriLib} {RL : ResponseLib} {P : Prometheus} {TL : TlsLib} {B : Type}.
Context {Tcp SocketAddr : Type}.
Context (tcp_bind : string -> result Tcp IoError) (tcp_local_addr : Tcp -> result SocketAddr IoError).
Context (json_health : HealthResponse -> string) (json_readiness : ReadinessResponse -> string).
Context (encoder : list Metrics.descriptor -> result string string).

Abbreviation requests_step := (Tasks.sys_step (SharedService.start (B := B)) is_done access).

(** The cells the requests share when the listener begins to serve. *)
Definition serving (l : Listener (Tcp := Tcp) (SocketAddr := SocketAddr)) (now : Instant) : system cells (pc (B := B)) :=
  mkSystem (mkCells (proxy_service l) (Some Metrics.new)) now [].

(** What the admin endpoint answers at a moment. *)
Definition probe (adm : AdminListener (Tcp := Tcp) (SocketAddr := SocketAddr)) (s : system cells (pc (B := B))) (path : string) : AdminResponse :=
  Admin.call json_health json_readiness (admin_service adm) (Metrics.encode encoder (collector (shared s))) path.

(** The requests recorded with a method, a status and an upstream. *)
Definition recorded (m : string) (st : Z) (up : string) (s : system cells (pc (B := B))) : Z :=
  count_if (recorded_as (mkHttpLabels m (pretty st) up)) (tasks s).

(** The requests of a method that their clients saw answered with a status. *)
Definition answered_as (m : string) (st : Z) (p : pc (B := B)) : bool :=
  match p with
  | SharedService.Done c _ (Returns r) => bool_decide (req_method B (request c) = m /\ response_status r = st)
  | _ => false
  end.
Definition seen_by_clients (m : string) (st : Z) (s : system cells (pc (B := B))) : Z :=
  count_if (answered_as m st) (tasks s).

(** A scrape answers 200 with the text of a collector. *)
Definition scrapes (adm : AdminListener (Tcp := Tcp) (SocketAddr := SocketAddr)) (s : system cells (pc (B := B)))
    (x : Metrics.metrics) : Prop :=
  collector (shared s) = Some x /\
  exists text, encoder (Metrics.registry x) = Ok text /\ probe adm s "/metrics" = metrics_response text.

Lemma seen_recorded addrs m st (ps : list (pc (B := B))) :
  addrs <> [] -> Forall (pc_ok addrs) ps ->
  count_if (answered_as m st) ps =
    sum_over (fun up => count_if (recorded_as (mkHttpLabels m (pretty st) up)) ps) (remove_dups addrs).
Proof.
  intros Hne Hps. apply count_if_kinds. intros p Hp.
  rewrite Forall_forall in Hps. specialize (Hps p Hp).
  destruct p as [| | |c r a]; try (by rewrite sum_over_zero). simpl in Hps. unfold answered in Hps.
  destruct addrs as [|a0 addrs']; [done|]. destruct Hps as (up & resp & -> & -> & Hup).
  rewrite (sum_over_once _ _ up); [|by apply NoDup_remove_dups|by apply elem_of_remove_dups|].
  - simpl. f_equal. apply bool_decide_ext. split; [by intros [-> ->]|].
    intros Heq. injection Heq as -> Hst. split; [done|]. by apply (inj pretty).
  - intros k Hk. simpl. rewrite bool_decide_eq_false_2; [done|]. congruence.
Qed.

Lemma none_recorded l (ps : list (pc (B := B))) : Forall (pc_ok []) ps -> count_if (recorded_as l) ps = 0.
Proof.
  intros Hps. apply count_if_none. intros p Hp. rewrite Forall_forall in Hps. specialize (Hps p Hp).
  destruct p as [| | |c r a]; try done. simpl in Hps. by destruct Hps as [-> _].
Qed.

(** What a scrape reads, when the counters follow the records. *)
Lemma scrape_counts `{!PrometheusLaws P} adm s :
  (forall ds, is_ok (encoder ds) = true) -> admin_service adm = admin_service_new ->
  collected (collector (shared s)) (tasks s) ->
  exists x, scrapes adm s x /\
    forall m st up, let l := mkHttpLabels m (pretty st) up in
      Metrics.read l (Metrics.requests_total x) = wrap64 (recorded m st up s) /\
      Metrics.read l (Metrics.errors_total x) = if 400 <=? st then wrap64 (recorded m st up s) else 0.
Proof.
  intros Henc Hadm (rs & Hg & Hn). destruct (requests_counted rs "" 0 "") as (x & Hx & _).
  exists x. split.
  - split; [by rewrite Hg|]. specialize (Henc (Metrics.registry x)).
    destruct (encoder (Metrics.registry x)) as [text|] eqn:Ex; [|done]. exists text. split; [done|].
    unfold probe. rewrite Hadm, Hg, Hx. unfold Admin.call, handle_request, Metrics.encode. simpl. by rewrite Ex.
  - intros m st up. destruct (requests_counted rs m st up) as (x' & Hx' & Hr & He & _). cbv zeta in *.
    assert (x' = x) as -> by congruence. unfold recorded. rewrite Hr, He. by rewrite Hn.
Qed.

Lemma wrapped_mono a b : 0 <= a <= b -> b <= u64_max -> wrap64 a <= wrap64 b.
Proof. intros ? ?. rewrite !wrap64_small by words. lia. Qed.

(** C5. From any environment the process starts with, and however the requests of its
    connections interleave: the health and readiness probes always answer 200, and a
    request answered is answered from an upstream of the environment, or 502 when it names
    none. A scrape answers 200 with the text of a collector whose counters are the numbers
    of requests recorded so far, by method, status and upstream (modulo 2^64). When the
    environment names an upstream these are all the requests: those that clients saw
    answered with a status are the sum of its counts over the upstreams. When it names none,
    none is recorded, though each is answered. Until a counter has wrapped, a later
    scrape never reads less of it. The encoder is any that does not fail. *)
Theorem process_observed `{!ResponseLaws RL} `{!PrometheusLaws P} env l adm t es s es' s' :
  (forall ds, is_ok (encoder ds) = true) ->
  Listener.start tcp_bind tcp_local_addr env = Ok (l, adm) ->
  steps requests_step (serving l t) es s -> steps requests_step s es' s' ->
  let addrs := Config.upstream_addrs (from_env env) in
  (forall path, path ∈ ["/health"; "/healthz"; "/ready"; "/readyz"] -> Admin.status (probe adm s path) = 200) /\
  (forall i c r a, tasks s !! i = Some (SharedService.Done c r a) -> answered addrs r a) /\
  (exists x x', scrapes adm s x /\ scrapes adm s' x' /\
     forall m st up, let l := mkHttpLabels m (pretty st) up in
       Metrics.read l (Metrics.requests_total x) = wrap64 (recorded m st up s) /\
       Metrics.read l (Metrics.errors_total x) = (if 400 <=? st then wrap64 (recorded m st up s) else 0) /\
       (recorded m st up s' <= u64_max ->
          Metrics.read l (Metrics.requests_total x) <= Metrics.read l (Metrics.requests_total x') /\
          Metrics.read l (Metrics.errors_total x) <= Metrics.read l (Metrics.errors_total x'))) /\
  (forall m st, if decide (addrs = []) then forall up, recorded m st up s = 0
     else seen_by_clients m st s = sum_over (fun up => recorded m st up s) (remove_dups addrs)).
Proof.
  intros Henc Hstart Hs Hs' addrs.
  assert (Hl : proxy_service l = proxy_service_new addrs (Config.request_timeout (from_env env)) /\
    admin_service adm = admin_service_new).
  { revert Hstart. rewrite start_spec. destruct (bind_tcp _ _ (listen_addr _)) as [[tcp a]|]; [|done].
    destruct (bind_tcp _ _ (metrics_addr _)) as [[tcp' a']|]; [|done]. by intros [= <- <-]. }
  destruct Hl as [Hl Hadm]. unfold serving in Hs. rewrite Hl in Hs.
  destruct (requests_ok _ _ _ _ _ Hs) as (_ & Hpcs & Hcol & _).
  destruct (requests_ok _ _ _ _ _ (steps_app _ _ _ _ _ _ Hs Hs')) as (_ & _ & Hcol' & _).
  split; [|split; [|split]].
  - intros path. unfold probe. rewrite Hadm, !elem_of_cons, elem_of_nil. by intros [->|[->|[->|[->|[]]]]].
  - intros i c r a Hi. exact (Forall_lookup_1 _ _ _ _ Hpcs Hi).
  - destruct (scrape_counts adm s Henc Hadm Hcol) as (x & Hx & Hn).
    destruct (scrape_counts adm s' Henc Hadm Hcol') as (x' & Hx' & Hn').
    exists x, x'. split; [done|]. split; [done|]. intros m st up. cbv zeta.
    destruct (Hn m st up) as [Hr He], (Hn' m st up) as [Hr' He']. cbv zeta in *.
    split; [done|]. split; [done|]. intros Hmax. rewrite Hr, He, Hr', He'.
    assert (Hle : wrap64 (recorded m st up s) <= wrap64 (recorded m st up s')).
    { apply wrapped_mono; [|done]. split; [apply count_if_nonneg|]. by eapply recorded_mono. }
    split; [done|]. by destruct (400 <=? st).
  - intros m st. destruct (decide (addrs = [])) as [E|E].
    + intros up. apply none_recorded. by rewrite <-E.
    + by apply seen_recorded.
Qed.

End Observed.

(** Two upstreams from the environment; a scrape after the second request has timed out. *)
Section Scraped.
#[local] Existing Instances string_errors string_uris pair_responses list_prometheus toy_tls.
#[local] Existing Instances pair_responses_laws list_prometheus_laws.

Definition pair_env (name : string) : option string :=
  if String.eqb name "PROXY_UPSTREAM_ADDRS" then Some "http://a:1, http://b:1" else None.
Definition pair_listener : Listener (Tcp := unit) (SocketAddr := string) :=
  mkListener tt (proxy_service_new ["http://a:1"; "http://b:1"] (from_secs 30)) "local" None Http1.
Definition pair_admin : AdminListener (Tcp := unit) (SocketAddr := string) := mkAdminListener tt admin_service_new "local".

Definition scraped_events : list (event (call (B := unit))) :=
  [Spawn quick; Spawn slow; Run 0; Run 1; Run 1; Run 0; Run 1].
Definition scraped_at : system cells (pc (B := unit)) :=
  default (serving pair_listener 0) (schedule SharedService.start is_done access scraped_events (serving pair_listener 0)).

Lemma scraped_runs :
  schedule SharedService.start is_done access scraped_events (serving pair_listener 0) = Some scraped_at.
Proof.
  assert (H : match schedule SharedService.start is_done access scraped_events (serving pair_listener 0) with
    Some _ => true | None => false end = true) by (vm_compute; reflexivity).
  unfold scraped_at. by destruct (schedule _ _ _ _ _).
Qed.

Lemma process_observed_witness :
  exists x, scrapes (fun _ => "") (fun _ => "") (fun _ => Ok "text") pair_admin scraped_at x /\
    Metrics.read (mkHttpLabels "GET" (pretty 504) "http://b:1") (Metrics.errors_total x) = 1 /\
    seen_by_clients "GET" 504 scraped_at = sum_over (fun up => recorded "GET" 504 up scraped_at) ["http://a:1"; "http://b:1"].
Proof.
  destruct (process_observed (fun _ => Ok tt) (fun _ => Ok "local") (fun _ => "") (fun _ => "") (fun _ => Ok "text")
    pair_env pair_listener pair_admin 0 scraped_events scraped_at [] scraped_at)
    as (_ & _ & (x & x' & Hscrape & _ & Hn) & Hseen).
  - intros x. reflexivity.
  - reflexivity.
  - apply (schedule_sound SharedService.start is_done access), scraped_runs.
  - constructor.
  - exists x. split; [exact Hscrape|]. split; [|exact (Hseen "GET" 504)].
    rewrite (proj1 (proj2 (Hn "GET" 504 "http://b:1"))). vm_compute. reflexivity.
Defined.
End Scraped.
