(* ===== verification/BasicProxy.v ===== *)
(** * The basic proxy example (src/examples/basic_proxy.rs)

    One listener and no admin endpoint: [main] binds, spawns the accept loop, waits for
    Ctrl+C, sends the shutdown message, sleeps for 100 ms and returns without joining
    anything. The example is a state machine like the process's. *)

From Stdlib Require Import Ascii String.
From stdpp Require Import prelude strings.
From S2P Require Import Prelude Errors Protocol Service Listener Process.
Open Scope string_scope.
Open Scope Z_scope.

Section Example.
Context {FE : ForeignErrors} {TL : TlsLib}.
Context {Tcp SocketAddr Stream : Type}.
Context (tcp_bind : string -> result Tcp IoError) (tcp_local_addr : Tcp -> result SocketAddr IoError).

(** The listener of the example, or the failure at which [main] returns. *)
Definition example_listener : proxy_result Listener :=
  bind tcp_bind tcp_local_addr "127.0.0.1:3000" ["http://httpbin.org"] (from_secs 30).

(** Where [main] is once the listener is bound. *)
Inductive main_pc : Type :=
| Waiting
| Sleeping (since : Instant)
| Exited.

Record example : Type := mkExample {
  main_at : main_pc;
  clock : Instant;
  listener_task : task_state;
  message_sent : bool;
  running : list Stream
}.

Definition example_init (now : Instant) : example := mkExample Waiting now Serving false [].

(** A result of [ctrl_c], the end of the sleep, and what the runtime does meanwhile. *)
Inductive example_event : Type :=
| CtrlC (res : result unit string)
| Wake
| ExampleAccept (stream : Stream)
| ExampleAcceptError
| ExampleReceive
| ExamplePanic
| ExampleConnectionEnd (i : nat)
| ExampleTick (t : Instant).

Definition serving (t : task_state) : bool := match t with Serving => true | Ended _ => false end.

Definition example_fire (e : example_event) (s : example) : option example :=
  match main_at s, e with
  | Exited, _ => None
  | Waiting, CtrlC (Ok _) =>
      Some (mkExample (Sleeping (clock s)) (clock s) (listener_task s) (serving (listener_task s)) (running s))
  | Waiting, CtrlC (Err _) => Some (mkExample (Sleeping (clock s)) (clock s) (listener_task s) (message_sent s) (running s))
  | Sleeping since, Wake =>
      if since + from_millis 100 <=? clock s
      then Some (mkExample Exited (clock s) (listener_task s) (message_sent s) (running s)) else None
  | _, ExampleAccept stream =>
      if serving (listener_task s)
      then Some (mkExample (main_at s) (clock s) (listener_task s) (message_sent s) (running s ++ [stream])) else None
  | _, ExampleAcceptError => if serving (listener_task s) then Some s else None
  | _, ExampleReceive =>
      if serving (listener_task s) && message_sent s
      then Some (mkExample (main_at s) (clock s) (Ended (Ok tt)) (message_sent s) (running s)) else None
  | _, ExamplePanic =>
      if serving (listener_task s)
      then Some (mkExample (main_at s) (clock s) (Ended (Err tt)) (message_sent s) (running s)) else None
  | _, ExampleConnectionEnd i =>
      match running s !! i with
      | Some _ => Some (mkExample (main_at s) (clock s) (listener_task s) (message_sent s) (delete i (running s)))
      | None => None
      end
  | _, ExampleTick t =>
      if clock s <=? t then Some (mkExample (main_at s) t (listener_task s) (message_sent s) (running s)) else None
  | _, _ => None
  end.

Definition example_step : example -> example_event -> example -> Prop := fired example_fire.

(** *** Lemmas *)

Definition is_ctrl_c (e : example_event) : bool := match e with CtrlC _ => true | _ => false end.

(** [main] waits until the first result of [ctrl_c] and then sleeps from its time on. *)
Definition awaits (es : list example_event) (s : example) : Prop :=
  match main_at s with
  | Waiting => count_if is_ctrl_c es = 0 /\ message_sent s = false
  | Sleeping since => count_if is_ctrl_c es = 1 /\ since <= clock s
  | Exited => count_if is_ctrl_c es = 1
  end.

Lemma awaits_step es s e s' : awaits es s -> example_step s e s' -> awaits (es ++ [e])%list s'.
Proof.
  unfold example_step, fired, example_fire. intros Ha Hf. unfold awaits. rewrite count_if_snoc.
  unfold awaits in Ha. destruct s as [[|since|] now task sent run]; simpl in Ha, Hf; [| |done];
    destruct e as [[]| | | | | |i|t]; try done;
    try (destruct (serving task)); try (destruct sent); try (destruct (run !! i));
    try (destruct (_ <=? _) eqn:?); simplify_eq/=; reflect_bools; lia || (split; (done || lia)).
Qed.

Lemma reachable_awaits now es s : steps example_step (example_init now) es s -> awaits es s.
Proof.
  revert es s. apply steps_ind_last; [done|]. intros es s e s' _ IH Hs. by eapply awaits_step.
Qed.

End Example.

(** ** Properties *)

(** Unlike the proxy, the example ends for one reason only and waits for nobody. It
    exits after exactly one result of Ctrl+C; without one it waits for ever, even
    when its listener has panicked. A tenth of a second after that result it can exit,
    with its listener still serving and connections still in progress. *)
Theorem example_exits {Stream : Type} now es (s : example (Stream := Stream)) :
  steps example_step (example_init now) es s ->
  (main_at s = Exited -> count_if is_ctrl_c es = 1) /\
  (count_if is_ctrl_c es = 0 <-> main_at s = Waiting) /\
  (forall since, main_at s = Sleeping since -> since + from_millis 100 <= clock s ->
     exists s', example_step s Wake s' /\ main_at s' = Exited /\
       listener_task s' = listener_task s /\ running s' = running s) /\
  (forall s', main_at s = Exited -> forall e, ~ example_step s e s').
Proof.
  intros Hs. apply reachable_awaits in Hs. unfold awaits in Hs. split_and!.
  - intros He. by rewrite He in Hs.
  - destruct (main_at s); split; try done; lia.
  - intros since Hp Hle. unfold example_step, fired, example_fire. rewrite Hp.
    apply Z.leb_le in Hle as ->. eexists. split; [done|]. done.
  - intros s' He e. unfold example_step, fired, example_fire. by rewrite He.
Qed.

Definition example_run : list (example_event (Stream := nat)) :=
  [ExampleAccept 7%nat; CtrlC (Ok tt); ExampleTick (from_millis 100)].
Definition example_end : example (Stream := nat) :=
  mkExample (Sleeping 0) (from_millis 100) Serving true [7%nat].

Lemma example_exits_witness :
  exists s', example_step example_end Wake s' /\ main_at s' = Exited /\
    listener_task s' = Serving /\ running s' = [7%nat].
Proof.
  destruct (example_exits 0 example_run example_end) as (_ & _ & H & _).
  - apply fires_sound. reflexivity.
  - apply (H 0); [reflexivity|]. vm_compute. congruence.
Defined.
