(* ===== verification/DocExamples.v ===== *)
(** * The examples in the documentation (src/src/lib.rs, listener.rs, admin_listener.rs, service.rs, admin.rs)

    The programs the documentation shows, as it shows them: each [main] binds a listener,
    keeps the sender of the shutdown channel without using it, and serves. ([Outage.v] has
    the clients of the example of circuit_breaker.rs.) *)

From Stdlib Require Import Ascii String.
From stdpp Require Import prelude strings.
From S2P Require Import Prelude Errors Service ServiceInterleaving Protocol Admin Listener.
Open Scope string_scope.
Open Scope Z_scope.

(** The services of service.rs and admin.rs. *)
Definition service_example : ProxyService := proxy_service_new ["http://example.com:8080"] (from_secs 30).
Definition admin_service_example : ReadinessState := admin_service_new.

Section Examples.
Context {FE : ForeignErrors} {TL : TlsLib} {UL : UriLib} {RL : ResponseLib}.
Context {Tcp SocketAddr B Stream TlsStream : Type}.
Context (tcp_bind : string -> result Tcp IoError) (tcp_local_addr : Tcp -> result SocketAddr IoError).
Context (tls_accept : ServerConfig -> Stream -> result TlsStream string) (alpn_protocol : TlsStream -> option string).
Context (http1 http2 : (SharedService.call (B := B) -> future (B := B)) ->
  Io (Stream := Stream) (TlsStream := TlsStream) -> result unit HyperError).
Context (json_health : HealthResponse -> string) (json_readiness : ReadinessResponse -> string).
Context (serve_connection : (result string string -> string -> AdminResponse) -> Stream -> result unit HyperError).

(** A [main] that binds and serves: the connections it has spawned a task for, and what it
    returns, once it does. *)
Definition bind_and_serve {L} (bound : proxy_result L)
    (serve : L -> list (Event Stream) -> list (proxy_result unit) * option (proxy_result unit))
    (events : list (Event Stream)) : list (proxy_result unit) * option (proxy_result unit) :=
  match bound with
  | Ok listener => serve listener events
  | Err e => ([], Some (Err e))
  end.

(** The quick start of lib.rs. *)
Definition quick_start : list (Event Stream) -> list (proxy_result unit) * option (proxy_result unit) :=
  let upstream := ["http://localhost:8080"] in
  let timeout := from_secs 30 in
  bind_and_serve (bind tcp_bind tcp_local_addr "127.0.0.1:3000" upstream timeout)
    (serve tls_accept alpn_protocol http1 http2).

(** The example of listener.rs. *)
Definition listener_example : list (Event Stream) -> list (proxy_result unit) * option (proxy_result unit) :=
  let upstream := ["http://127.0.0.1:8080"] in
  let timeout := from_secs 30 in
  bind_and_serve (bind tcp_bind tcp_local_addr "127.0.0.1:3000" upstream timeout)
    (serve tls_accept alpn_protocol http1 http2).

(** The example of admin_listener.rs. *)
Definition admin_listener_example : list (Event Stream) -> list (proxy_result unit) * option (proxy_result unit) :=
  bind_and_serve (admin_bind tcp_bind tcp_local_addr "127.0.0.1:9090")
    (admin_serve json_health json_readiness serve_connection).

(** *** Lemmas *)

Lemma accept_loop_goes_on (events : list (Event Stream)) :
  Forall (fun e => is_shutdown e = false) events -> accept_loop events = (accepted_streams events, false).
Proof. induction 1 as [|[s| |r] es He Hes IH]; simpl in *; try done. by rewrite IH. Qed.

(** The sender is alive and sends nothing, so that the shutdown receiver delivers nothing:
    the examples serve every connection they accept and return only when they cannot bind. *)
Theorem examples_serve events :
  Forall (fun e => is_shutdown e = false) events ->
  quick_start events =
    match bind tcp_bind tcp_local_addr "127.0.0.1:3000" ["http://localhost:8080"] (from_secs 30) with
    | Ok l => (connection_task tls_accept alpn_protocol http1 http2 l <$> accepted_streams events, None)
    | Err e => ([], Some (Err e))
    end /\
  listener_example events =
    match bind tcp_bind tcp_local_addr "127.0.0.1:3000" ["http://127.0.0.1:8080"] (from_secs 30) with
    | Ok l => (connection_task tls_accept alpn_protocol http1 http2 l <$> accepted_streams events, None)
    | Err e => ([], Some (Err e))
    end /\
  admin_listener_example events =
    match admin_bind tcp_bind tcp_local_addr "127.0.0.1:9090" with
    | Ok l => ((fun s => admin_handle_connection json_health json_readiness serve_connection s (admin_service l))
        <$> accepted_streams events, None)
    | Err e => ([], Some (Err e))
    end.
Proof.
  intros He. unfold quick_start, listener_example, admin_listener_example, bind_and_serve, serve, admin_serve.
  rewrite accept_loop_goes_on by done. done.
Qed.

End Examples.
