(* ===== verification/UnitTests.v ===== *)
(** * The repository's unit tests, on the model

    The tests of src/src/{ratelimit, retry, router, transport, connection, config,
    protocol, metrics, admin, listener, admin_listener}.rs as functions that say whether
    their assertions hold ([BreakerTests.v] has the circuit breaker's). A test that reads
    the clock takes the readings, [t n] being the [n]-th; one that asks a library (what an
    encoder prints, what a regular expression matches) comes with what it asks. *)

From Stdlib Require Import Ascii String SpecFloat.
From stdpp Require Import prelude gmap strings.
From S2P Require Import Prelude RustStr F64 Http Errors Metrics Breaker BreakerTests Gate RateLimit Retry Router Transport.
From S2P Require Import Connection Config Protocol Admin Listener.
Open Scope string_scope.
Open Scope Z_scope.

Definition eq_str (a b : string) : bool := String.eqb a b.
Definition returns {A} (o : outcome A) (f : A -> bool) : bool :=
  match o with Returns a => f a | Panics => false end.
Definition some {A} (o : option A) (f : A -> bool) : bool := match o with Some a => f a | None => false end.
Definition fails {A E} (r : result A E) (f : E -> bool) : bool := match r with Ok _ => false | Err e => f e end.

(** ** ratelimit.rs *)

Module RateLimitTests.
#[local] Existing Instance assoc_headers.

(** [n] calls of [try_consume]: whether each succeeded. *)
Fixpoint consume (n : nat) (t : Clock) (b : TokenBucket.bucket) : list bool * TokenBucket.bucket :=
  match n with
  | O => ([], b)
  | S n =>
      let '(bs, b) := consume n t b in
      let '(ok, b) := TokenBucket.try_consume (t n) b in (bs ++ [ok], b)%list
  end.

Definition test_token_bucket_basic (t : Clock) : bool :=
  let bucket := TokenBucket.new (of_Z 10) (of_Z 10) (t 0%nat) in
  let '(oks, bucket) := consume 10 (fun n => t (S n)) bucket in
  let '(ok, _) := TokenBucket.try_consume (t 11%nat) bucket in
  asserts [asserts oks; negb ok].

Definition test_token_bucket_refill (t : Clock) : bool :=
  let bucket := TokenBucket.new (of_Z 10) (of_Z 1000) (t 0%nat) in
  let '(_, bucket) := consume 10 (fun n => t (S n)) bucket in
  let bucket := TokenBucket.mk (TokenBucket.tokens bucket) (TokenBucket.capacity bucket)
    (TokenBucket.refill_rate bucket) (t 11%nat - from_millis 100) in
  let bucket := TokenBucket.refill (t 12%nat) bucket in
  f64_leb (of_Z 9) (TokenBucket.available_tokens bucket).

(** Calls of [check] by one client, at the readings from [n] on. *)
Definition by_client (ip : option IpAddr) (n k : nat) (t : Clock) : list (Instant * option IpAddr) :=
  map (fun i => (t i, ip)) (seq n k).

Definition test_rate_limiter_global (t : Clock) : bool :=
  let config := with_per_client false (rate_limit_config_new 10 5) in
  let limiter := RateLimiter.new config (t 0%nat) in
  returns (RateLimiter.checks (by_client None 1 6 t) limiter) (fun '(rs, _) =>
    bool_decide (map is_ok rs = [true; true; true; true; true; false])).

Definition test_rate_limiter_per_client (t : Clock) : bool :=
  let config := with_per_client true (rate_limit_config_new 100 10) in
  let limiter := RateLimiter.new config (t 0%nat) in
  let client1 := V4 [192; 168; 1; 1] in
  let client2 := V4 [192; 168; 1; 2] in
  returns (RateLimiter.checks (by_client (Some client1) 1 5 t ++ by_client (Some client2) 6 2 t) limiter)
    (fun '(rs, _) => asserts (map is_ok rs)).

Definition test_rate_limit_info : bool :=
  let info := {| limit_type := Global; retry_after := from_millis 500; remaining := 0 |} in
  retry_after_secs info =? 1.

Definition test_rate_limiter_stats (t : Clock) : bool :=
  let limiter := RateLimiter.new (rate_limit_config_new 100 50) (t 0%nat) in
  let stats := RateLimiter.stats limiter in
  asserts [stat_requests_per_second stats =? 100; stat_burst_size stats =? 50; client_count stats =? 0].

Definition extracted (trust : bool) (headers : list (string * string)) (t : Clock) : option IpAddr :=
  let config := with_trust_forwarded_for trust (rate_limit_config_new 100 50) in
  let limiter := RateLimiter.new config (t 0%nat) in
  RateLimiter.extract_client_ip limiter headers (Some (V4 [192; 168; 1; 1])).

Definition test_extract_client_ip_no_trust (t : Clock) : bool :=
  bool_decide (extracted false [("x-forwarded-for", "1.2.3.4")] t = Some (V4 [192; 168; 1; 1])).
Definition test_extract_client_ip_trust_enabled (t : Clock) : bool :=
  bool_decide (extracted true [("x-forwarded-for", "1.2.3.4, 5.6.7.8")] t = Some (V4 [1; 2; 3; 4])).
Definition test_extract_client_ip_x_real_ip (t : Clock) : bool :=
  bool_decide (extracted true [("x-real-ip", "10.0.0.1")] t = Some (V4 [10; 0; 0; 1])).
Definition test_extract_client_ip_invalid_header (t : Clock) : bool :=
  bool_decide (extracted true [("x-forwarded-for", "not-an-ip")] t = Some (V4 [192; 168; 1; 1])).

(** [check_with_headers], [n] times. *)
Fixpoint checks_with_headers (n : nat) (t : Clock) (headers : list (string * string)) (l : RateLimiter.limiter)
    : outcome (list bool * RateLimiter.limiter) :=
  match n with
  | O => Returns ([], l)
  | S n =>
      outcome_bind (checks_with_headers n t headers l) (fun '(bs, l) =>
        outcome_bind (RateLimiter.check_with_headers (t n) headers None l) (fun '(r, l) =>
          Returns (bs ++ [is_ok r], l)%list))
  end.

Definition test_check_with_headers (t : Clock) : bool :=
  let config := with_trust_forwarded_for true (with_per_client true (rate_limit_config_new 100 5)) in
  let limiter := RateLimiter.new config (t 0%nat) in
  returns (checks_with_headers 6 (fun n => t (S n)) [("x-forwarded-for", "1.2.3.4")] limiter) (fun '(bs, _) =>
    bool_decide (bs = [true; true; true; true; true; false])).

Definition tests (t : Clock) : list bool :=
  [test_token_bucket_basic t; test_token_bucket_refill t; test_rate_limiter_global t;
   test_rate_limiter_per_client t; test_rate_limit_info; test_rate_limiter_stats t;
   test_extract_client_ip_no_trust t; test_extract_client_ip_trust_enabled t;
   test_extract_client_ip_x_real_ip t; test_extract_client_ip_invalid_header t; test_check_with_headers t].

End RateLimitTests.

(** ** retry.rs *)

Module RetryTests.

Definition next_delay (p : RetryPolicy.policy) : Duration :=
  fst (RetryPolicy.next_delay powidf2 (fun _ : unit => (of_Z 1, tt)) p tt).
Definition record_retry (p : RetryPolicy.policy) : RetryPolicy.policy :=
  snd (fst (RetryPolicy.record_retry powidf2 (fun _ : unit => (of_Z 1, tt)) p tt)).

Definition test_retry_config_default : bool :=
  let config := retry_config_default in
  asserts [max_retries config =? 3; base_delay config =? from_millis 100; use_jitter config].

Definition test_retry_config_builder : bool :=
  let config := with_jitter false (with_base_delay (from_millis 200) (with_max_retries 5 retry_config_new)) in
  asserts [max_retries config =? 5; base_delay config =? from_millis 200; negb (use_jitter config)].

Definition test_retry_policy_has_remaining : bool :=
  let policy := RetryPolicy.new (with_max_retries 2 retry_config_new) in
  let a1 := RetryPolicy.has_remaining_retries policy in
  let policy := record_retry policy in
  let a2 := RetryPolicy.has_remaining_retries policy in
  let policy := record_retry policy in
  asserts [a1; a2; negb (RetryPolicy.has_remaining_retries policy)].

Definition test_retry_policy_delay_increases : bool :=
  let config := with_jitter false (with_backoff_multiplier (of_Z 2)
    (with_base_delay (from_millis 100) retry_config_new)) in
  let policy := RetryPolicy.new config in
  let delay1 := next_delay policy in
  let policy := record_retry policy in
  let delay2 := next_delay policy in
  let policy := record_retry policy in
  let delay3 := next_delay policy in
  asserts [delay1 =? from_millis 100; delay2 =? from_millis 200; delay3 =? from_millis 400].

Definition test_retry_policy_max_delay : bool :=
  let config := with_jitter false (with_backoff_multiplier (of_Z 10)
    (with_max_delay (from_secs 5) (with_base_delay (from_secs 1) retry_config_new))) in
  let policy := record_retry (record_retry (RetryPolicy.new config)) in
  next_delay policy =? from_secs 5.

Definition test_retry_policy_retryable_status : bool :=
  let policy := RetryPolicy.new (with_retryable_status_codes [502; 503] retry_config_new) in
  asserts [RetryPolicy.should_retry_status policy 502; RetryPolicy.should_retry_status policy 503;
    negb (RetryPolicy.should_retry_status policy 500); negb (RetryPolicy.should_retry_status policy 200)].

Definition test_retry_policy_retryable_error : bool :=
  let policy := RetryPolicy.new retry_config_new in
  let should_retry := RetryPolicy.should_retry_error ascii_lowercase policy in
  asserts [should_retry "connection refused"; should_retry "Connection reset by peer";
    should_retry "request timeout"; negb (should_retry "invalid request")].

(** The executor with a request that always gives one answer, and the sleeps made. *)
Definition always {T} (r : result T string) (p : RetryPolicy.policy)
    : option (result T (RetryError string) * RetryPolicy.policy * list Duration) :=
  RetryExecutor.execute powidf2 ascii_lowercase (fun s => s) (fun w => (r, w)) (fun w => (of_Z 1, w))
    (fun d w => w ++ [d])%list 10 p [].

Definition test_retry_executor_success : bool :=
  some (always (Ok 42) RetryExecutor.with_defaults) (fun '(r, _, _) =>
    match r with Ok n => n =? 42 | Err _ => false end).

Definition test_retry_executor_exhausted : bool :=
  let executor := RetryExecutor.new (with_max_retries 2 retry_config_new) in
  some (always (T := Z) (Err "connection refused") executor) (fun '(r, _, _) =>
    fails r (fun '(Exhausted attempts _) => attempts =? 3)).

Definition tests : list bool :=
  [test_retry_config_default; test_retry_config_builder; test_retry_policy_has_remaining;
   test_retry_policy_delay_increases; test_retry_policy_max_delay; test_retry_policy_retryable_status;
   test_retry_policy_retryable_error; test_retry_executor_success; test_retry_executor_exhausted].

End RetryTests.

(** ** router.rs *)

Module RouterTests.
#[local] Existing Instances substring_regex assoc_headers string_methods.

Definition path_is (m : PathMatch) (p : string) : bool := fst (path_matches m p ∅).
Definition header_is (m : HeaderMatch) (h : list (string * string)) : bool := fst (header_matches m h ∅).
Definition route_is (r : Route) (m p : string) (h : list (string * string)) : bool := fst (route_matches r m p h ∅).
Definition routed (r : Router.router) (m p : string) : option RouteMatch := fst (Router.route r m p [] ∅).

Definition test_path_match_exact : bool :=
  let matcher := path_exact "/api/users" in
  asserts [path_is matcher "/api/users"; negb (path_is matcher "/api/users/"); negb (path_is matcher "/api")].

Definition test_path_match_prefix : bool :=
  let matcher := path_prefix "/api/" in
  asserts [path_is matcher "/api/users"; path_is matcher "/api/posts"; negb (path_is matcher "/other")].

(** [HeaderMap::insert] replaces a value. *)
Definition test_header_match_exact : bool :=
  let matcher := header_exact "content-type" "application/json" in
  asserts [header_is matcher [("content-type", "application/json")];
    negb (header_is matcher [("content-type", "text/plain")])].

Definition test_header_match_present : bool :=
  let matcher := header_present "authorization" in
  asserts [negb (header_is matcher []); header_is matcher [("authorization", "Bearer token")]].

Definition test_route_matching : bool :=
  let route := with_header (header_present "authorization")
    (with_method Get (new_route "api-route" (path_prefix "/api/") "api-cluster")) in
  let headers := [("authorization", "Bearer token")] in
  asserts [route_is route GET "/api/users" headers; negb (route_is route POST "/api/users" headers);
    negb (route_is route GET "/api/users" [])].

Definition test_router_priority : bool :=
  let router := Router.add_route (new_route "exact" (path_exact "/api/users") "exact-cluster")
    (Router.add_route (new_route "prefix" (path_prefix "/api/") "prefix-cluster") Router.new) in
  some (routed router GET "/api/users") (fun m => eq_str (name (matched_route m)) "exact").

Definition test_router_default_upstream : bool :=
  let router := Router.with_default_upstream "default-cluster" Router.new in
  some (routed router GET "/unmatched") (fun m => eq_str (upstream (matched_route m)) "default-cluster").

Definition test_router_no_match : bool := negb (is_some (routed Router.new GET "/unmatched")).

Definition test_route_rewrite : bool :=
  let route := with_rewrite "/new/" (new_route "rewrite" (path_prefix "/old/") "cluster") in
  let router := Router.add_route route Router.new in
  some (routed router GET "/old/path/to/resource") (fun m =>
    bool_decide (rewritten_path m = Some "/new/path/to/resource")).

Definition tests : list bool :=
  [test_path_match_exact; test_path_match_prefix; test_header_match_exact; test_header_match_present;
   test_route_matching; test_router_priority; test_router_default_upstream; test_router_no_match; test_route_rewrite].

End RouterTests.

(** ** transport.rs *)

Module TransportTests.
Abbreviation endpoint := (@Endpoint breaker_gate).

(** No test draws a random number. *)
Definition no_sample (n : Z) : Z := 0.

(** [n] selections in a row: the addresses selected. *)
Fixpoint selected (n : nat) (t : Clock) (s : list endpoint) (lb : LoadBalancer) : outcome (list (option string)) :=
  match n with
  | O => Returns []
  | S n =>
      outcome_bind (select no_sample (t 0%nat) s lb) (fun '(o, lb, s') =>
        outcome_bind (selected n (fun k => t (S k)) s' lb) (fun os =>
          Returns ((address_at s <$> o) :: os)))
  end.

Definition test_endpoint_basic (t : Clock) : bool :=
  let e : endpoint := endpoint_new "http://localhost:8080" (t 0%nat) in
  asserts [is_healthy e; active_connections e =? 0; Transport.weight e =? 100].

Definition test_endpoint_with_weight (t : Clock) : bool :=
  let e : endpoint := endpoint_with_weight "http://localhost:8080" 50 (t 0%nat) in Transport.weight e =? 50.

Definition test_endpoint_connections (t : Clock) : bool :=
  let e : endpoint := endpoint_new "http://localhost:8080" (t 0%nat) in
  let e := acquire_connection (acquire_connection e) in
  asserts [active_connections e =? 2; active_connections (release_connection e) =? 1].

Definition test_endpoint_stats (t : Clock) : bool :=
  let e : endpoint := endpoint_new "http://localhost:8080" (t 0%nat) in
  let e := record_success (from_millis 100) e in
  let e := record_success (from_millis 200) e in
  let e := record_failure (t 1%nat) e in
  let stats := endpoint_stats e in
  asserts [Transport.stat_total_requests stats =? 3; stat_successful_requests stats =? 2;
    stat_failed_requests stats =? 1; f64_ltb (of_Z 0) (avg_response_time_ms stats)].

Definition three_hosts : list string := ["http://host1:8080"; "http://host2:8080"; "http://host3:8080"].

Definition test_load_balancer_round_robin (t : Clock) : bool :=
  let '(lb, s) := from_addresses three_hosts RoundRobin (t 0%nat) [] in
  returns (selected 4 (fun n => t (S n)) s lb) (fun os =>
    match os with
    | [Some ep1; Some ep2; Some ep3; Some ep4] =>
        asserts [negb (eq_str ep1 ep2); negb (eq_str ep2 ep3); eq_str ep1 ep4]
    | _ => false
    end).

Definition test_load_balancer_least_connections (t : Clock) : bool :=
  let s : list endpoint := [endpoint_new "http://host1:8080" (t 0%nat); endpoint_new "http://host2:8080" (t 1%nat)] in
  let s := alter acquire_connection 0%nat (alter acquire_connection 0%nat s) in
  let lb := load_balancer_new [0%nat; 1%nat] LeastConnections in
  returns (selected 1 (fun n => t (S (S n))) s lb) (fun os =>
    match os with [Some ep] => eq_str ep "http://host2:8080" | _ => false end).

Definition test_load_balancer_unhealthy_skip (t : Clock) : bool :=
  let s : list endpoint := [endpoint_new "http://host1:8080" (t 0%nat); endpoint_new "http://host2:8080" (t 1%nat)] in
  let s := alter (set_healthy false) 0%nat s in
  let lb := load_balancer_new [0%nat; 1%nat] RoundRobin in
  returns (selected 5 (fun n => t (S (S n))) s lb) (fun os =>
    asserts (map (fun o => some o (fun ep => eq_str ep "http://host2:8080")) os)).

Definition test_transport_add_cluster (t : Clock) : bool :=
  let '(transport, _) := add_cluster (G := breaker_gate) "api" ["http://api1:8080"; "http://api2:8080"] RoundRobin
    (t 0%nat) transport_with_defaults [] in
  some (get_cluster "api" transport) (fun cluster => total_count cluster =? 2).

Definition test_transport_select_endpoint (t : Clock) : bool :=
  let '(transport, s) := add_cluster (G := breaker_gate) "api" ["http://api1:8080"] RoundRobin
    (t 0%nat) transport_with_defaults [] in
  returns (select_endpoint no_sample (t 1%nat) "api" transport s) (fun '(endpoint, transport, s) =>
    asserts [some endpoint (fun i => eq_str (address_at s i) "http://api1:8080");
      returns (select_endpoint no_sample (t 2%nat) "nonexistent" transport s) (fun '(missing, _, _) =>
        negb (is_some missing))]).

Definition tests (t : Clock) : list bool :=
  [test_endpoint_basic t; test_endpoint_with_weight t; test_endpoint_connections t; test_endpoint_stats t;
   test_load_balancer_round_robin t; test_load_balancer_least_connections t;
   test_load_balancer_unhealthy_skip t; test_transport_add_cluster t; test_transport_select_endpoint t].

End TransportTests.

(** ** connection.rs *)

Module ConnectionTests.
Import ConnectionLimiter.

Definition test_connection_limiter_basic : bool :=
  returns (new (connection_config_new 2)) (fun limiter =>
    let '(guard1, limiter) := try_acquire limiter in
    let '(guard2, limiter) := try_acquire limiter in
    let a := active_connections limiter =? 2 in
    let '(guard3, limiter) := try_acquire limiter in
    asserts [guard1; guard2; a; negb guard3; total_rejected limiter =? 1]).

Definition test_connection_guard_release : bool :=
  returns (new (connection_config_new 1)) (fun limiter =>
    let '(guard, limiter) := try_acquire limiter in
    let a1 := active_connections limiter =? 1 in
    let limiter := if guard then drop_guard limiter else limiter in
    let a2 := active_connections limiter =? 0 in
    let '(guard, _) := try_acquire limiter in
    asserts [a1; a2; guard]).

Definition test_connection_stats : bool :=
  returns (new (connection_config_new 2)) (fun limiter =>
    let '(_, limiter) := try_acquire limiter in
    let '(_, limiter) := try_acquire limiter in
    let '(_, limiter) := try_acquire limiter in
    let stats := stats limiter in
    asserts [active stats =? 2; stat_total_accepted stats =? 2; stat_total_rejected stats =? 1;
      stat_max_connections stats =? 2]).

Definition tests : list bool := [test_connection_limiter_basic; test_connection_guard_release; test_connection_stats].

End ConnectionTests.

(** ** config.rs *)

(** URL parsing is the [url] crate's: the tests only need it to accept the default
    upstream. *)
Module ConfigTests.
Section Url.
Context (url_parses : string -> bool).

Definition rejected (c : ProxyConfig) (f : ConfigError -> bool) : bool := fails (validate url_parses c) f.

Definition with_listen (a : string) (c : ProxyConfig) : ProxyConfig :=
  mkProxyConfig a (upstream_addrs c) (metrics_addr c) (request_timeout c) (Config.max_connections c).
Definition with_metrics (a : string) (c : ProxyConfig) : ProxyConfig :=
  mkProxyConfig (listen_addr c) (upstream_addrs c) a (request_timeout c) (Config.max_connections c).
Definition with_upstreams (us : list string) (c : ProxyConfig) : ProxyConfig :=
  mkProxyConfig (listen_addr c) us (metrics_addr c) (request_timeout c) (Config.max_connections c).
Definition with_request_timeout (d : Duration) (c : ProxyConfig) : ProxyConfig :=
  mkProxyConfig (listen_addr c) (upstream_addrs c) (metrics_addr c) d (Config.max_connections c).

Definition test_default_config : bool :=
  let config := proxy_config_default in
  asserts [eq_str (listen_addr config) "127.0.0.1:3000"; (length (upstream_addrs config) =? 1)%nat;
    eq_str (metrics_addr config) "127.0.0.1:9090"; Config.max_connections config =? 10000].

Definition test_timeout : bool := Config.timeout proxy_config_default =? from_secs 30.

Definition test_validate_valid_config : bool := is_ok (validate url_parses proxy_config_default).

Definition test_validate_invalid_listen_addr : bool :=
  rejected (with_listen "invalid" proxy_config_default) (fun e =>
    match e with InvalidListenAddr _ _ => true | _ => false end).
Definition test_validate_invalid_metrics_addr : bool :=
  rejected (with_metrics "invalid" proxy_config_default) (fun e =>
    match e with InvalidMetricsAddr _ _ => true | _ => false end).
Definition test_validate_duplicate_addrs : bool :=
  rejected (with_metrics "127.0.0.1:3000" (with_listen "127.0.0.1:3000" proxy_config_default)) (fun e =>
    match e with DuplicateAddrs _ => true | _ => false end).
Definition test_validate_no_upstream : bool :=
  rejected (with_upstreams [] proxy_config_default) (fun e =>
    match e with NoUpstreamAddrs => true | _ => false end).
Definition test_validate_invalid_upstream : bool :=
  rejected (with_upstreams ["not-a-url"] proxy_config_default) (fun e =>
    match e with InvalidUpstreamAddr _ _ => true | _ => false end).
Definition test_validate_zero_timeout : bool :=
  rejected (with_request_timeout 0 proxy_config_default) (fun e =>
    match e with InvalidTimeout _ => true | _ => false end).
Definition test_validate_excessive_timeout : bool :=
  rejected (with_request_timeout (from_secs 7200) proxy_config_default) (fun e =>
    match e with InvalidTimeout _ => true | _ => false end).

Definition tests : list bool :=
  [test_default_config; test_timeout; test_validate_valid_config; test_validate_invalid_listen_addr;
   test_validate_invalid_metrics_addr; test_validate_duplicate_addrs; test_validate_no_upstream;
   test_validate_invalid_upstream; test_validate_zero_timeout; test_validate_excessive_timeout].

End Url.

(** Evaluate a test for any URL parser: only the default upstream reaches it. *)
Lemma valid_default url_parses :
  url_parses "http://127.0.0.1:8080" = true -> validate url_parses proxy_config_default = Ok tt.
Proof. intros H. unfold validate. simpl. by rewrite H. Qed.

Lemma zero_timeout url_parses :
  url_parses "http://127.0.0.1:8080" = true ->
  exists r, validate url_parses (with_request_timeout 0 proxy_config_default) = Err (InvalidTimeout r).
Proof. intros H. unfold validate. simpl. rewrite H. by eexists. Qed.

Lemma excessive_timeout url_parses :
  url_parses "http://127.0.0.1:8080" = true ->
  exists r, validate url_parses (with_request_timeout (from_secs 7200) proxy_config_default) = Err (InvalidTimeout r).
Proof. intros H. unfold validate. simpl. rewrite H. by eexists. Qed.

(** With the environment that the test finds. *)
Definition test_from_env (env : string -> option string) : bool :=
  let config := from_env env in
  asserts [negb (RustStr.is_empty (listen_addr config)); match upstream_addrs config with [] => false | _ => true end;
    negb (RustStr.is_empty (metrics_addr config))].

End ConfigTests.

(** ** protocol.rs *)

Module ProtocolTests.

Definition test_http_protocol_alpn : bool :=
  asserts [bool_decide (alpn_protocols Http1 = ["http/1.1"]); bool_decide (alpn_protocols Http2 = ["h2"]);
    bool_decide (alpn_protocols Auto = ["h2"; "http/1.1"])].

Definition test_protocol_from_alpn : bool :=
  asserts [bool_decide (from_alpn (Some "h2") = Http2); bool_decide (from_alpn (Some "http/1.1") = Http1);
    bool_decide (from_alpn None = Http1)].

Definition test_tls_config_builder : bool :=
  let config := with_protocol Http2 (tls_config_new "cert.pem" "key.pem") in
  asserts [eq_str (cert_path config) "cert.pem"; eq_str (key_path config) "key.pem";
    bool_decide (protocol config = Http2)].

Definition test_client_tls_config : bool :=
  let config := with_client_cert "client.pem" "client-key.pem" (danger_accept_invalid_certs client_tls_config_new) in
  asserts [negb (verify_server config); bool_decide (client_cert config = Some "client.pem");
    bool_decide (client_key config = Some "client-key.pem")].

Definition tests : list bool :=
  [test_http_protocol_alpn; test_protocol_from_alpn; test_tls_config_builder; test_client_tls_config].

End ProtocolTests.

(** ** admin.rs *)

Module AdminTests.
Section Json.
Context (json_health : HealthResponse -> string) (json_readiness : ReadinessResponse -> string).

Definition test_health_response : bool :=
  let response := health_response json_health in
  asserts [status response =? 200; bool_decide (content_type response = Some "application/json")].

Definition test_readiness_response_ready : bool :=
  let state := set_ready readiness_new in status (readiness_response json_readiness state) =? 200.

Definition test_readiness_response_not_ready : bool :=
  let state := readiness_new in status (readiness_response json_readiness state) =? 503.

Definition test_readiness_state : bool :=
  let state := readiness_new in
  let a1 := negb (is_ready state) in
  let state := set_ready state in
  let a2 := is_ready state in
  let state := set_not_ready state in
  asserts [a1; a2; negb (is_ready state)].

Definition test_metrics_response : bool :=
  let response := metrics_response "test_metric 1.0" in
  asserts [status response =? 200; bool_decide (content_type response = Some "text/plain; version=0.0.4")].

Definition test_error_response : bool :=
  let response := error_response 404 "Not Found" in status response =? 404.

Definition tests : list bool :=
  [test_health_response; test_readiness_response_ready; test_readiness_response_not_ready; test_readiness_state;
   test_metrics_response; test_error_response].

End Json.
End AdminTests.

(** ** The test of router.rs about a regular expression *)

Module RegexTests.
Section Regex.
Context {RX : RegexLib}.

Definition numbered_user : string := "^/api/users/\d+$".

(** The three matches share the cache of compiled patterns. *)
Definition test_path_match_regex (cache : RegexCache) : bool :=
  let matcher := path_regex numbered_user in
  let '(m1, cache) := path_matches matcher "/api/users/123" cache in
  let '(m2, cache) := path_matches matcher "/api/users/456" cache in
  let '(m3, _) := path_matches matcher "/api/users/abc" cache in
  asserts [m1; m2; negb m3].

(** What the test asks of the regular expressions. *)
Definition digits_match : Prop :=
  exists r, regex_new numbered_user = Some r /\
    is_match r "/api/users/123" = true /\ is_match r "/api/users/456" = true /\ is_match r "/api/users/abc" = false.

Lemma regex_tests_pass : digits_match -> test_path_match_regex ∅ = true.
Proof.
  intros (r & Hr & H1 & H2 & H3). unfold test_path_match_regex, path_regex, path_matches, get_or_compile_regex.
  rewrite lookup_empty, Hr. cbn. rewrite ?lookup_insert_eq. cbn. rewrite ?lookup_insert_eq. by rewrite H1, H2, H3.
Qed.

End Regex.
End RegexTests.

(** ** metrics.rs *)

Module MetricsTests.
Section Encoder.
Context {P : Prometheus} (encoder : list Metrics.descriptor -> result string string).

(** Whether the encoding of the collector has the names. *)
Definition encoded_contains (names : list string) (g : Metrics.global) : bool :=
  match Metrics.encode encoder g with
  | Ok encoded => asserts (map (fun name => contains name encoded) names)
  | Err _ => false
  end.

(** 0.05 and 0.1. *)
Definition fifty_ms : f64 := f64_div (of_Z 5) (of_Z 100).
Definition hundred_ms : f64 := f64_div (of_Z 1) (of_Z 10).

(** The collector is the process's: a test finds what others have recorded. *)
Definition test_record_request (g : Metrics.global) : bool :=
  let g := Metrics.record_request "GET" 200 "http://upstream:8080" fifty_ms g in
  let g := Metrics.record_request "POST" 201 "http://upstream:8080" hundred_ms g in
  encoded_contains ["http_requests_total"; "http_request_duration_seconds"] g.

Definition test_record_error (g : Metrics.global) : bool :=
  let g := Metrics.record_request "GET" 500 "http://upstream:8080" fifty_ms g in
  let g := Metrics.record_request "GET" 404 "http://upstream:8080" hundred_ms g in
  encoded_contains ["http_errors_total"] g.

Definition test_requests_in_flight (g : Metrics.global) : bool :=
  let g := Metrics.inc_requests_in_flight g in
  let g := Metrics.inc_requests_in_flight g in
  let g := Metrics.dec_requests_in_flight g in
  encoded_contains ["http_requests_in_flight"] g.

Definition test_circuit_breaker_metrics (g : Metrics.global) : bool :=
  let g := Metrics.record_circuit_breaker_state "http://upstream:8080" "open" true g in
  encoded_contains ["circuit_breaker_state"; "circuit_breaker_trips_total"] g.

Definition test_rate_limit_metrics (g : Metrics.global) : bool :=
  let g := Metrics.record_rate_limit_rejection "global" g in
  let g := Metrics.record_rate_limit_rejection "per_client" g in
  encoded_contains ["rate_limit_rejections_total"] g.

Definition test_connection_metrics (g : Metrics.global) : bool :=
  let g := Metrics.record_connection "accepted" g in
  let g := Metrics.set_active_connections 5 g in
  encoded_contains ["connections_total"; "connections_active"] g.

Definition test_metrics_encoding (g : Metrics.global) : bool :=
  is_ok (Metrics.encode encoder g).

Definition tests (g : Metrics.global) : list bool :=
  [test_record_request g; test_record_error g; test_requests_in_flight g; test_circuit_breaker_metrics g;
   test_rate_limit_metrics g; test_connection_metrics g; test_metrics_encoding g].

(** What the tests ask of the encoder: it does not fail, and its text has the name of
    every metric that has a series. *)
Definition names_shown : Prop :=
  forall ds, exists text, encoder ds = Ok text /\
    forall d, d ∈ ds -> Metrics.no_series (Metrics.metric d) = false -> contains (Metrics.metric_name d) text = true.

Lemma shown (x : Metrics.metrics) names :
  names_shown ->
  Forall (fun name => exists k d, Metrics.registry x !! k = Some d /\ Metrics.metric_name d = name /\
    Metrics.no_series (Metrics.metric d) = false) names ->
  encoded_contains names (Some x) = true.
Proof.
  intros Henc Hnames. destruct (Henc (Metrics.registry x)) as (text & He & Hin).
  unfold encoded_contains, Metrics.encode. rewrite He. simpl.
  induction Hnames as [|name names (k & d & Hd & <- & Hs) _ IH]; [done|].
  simpl. rewrite Hin; [exact IH|by eapply list_elem_of_lookup_2|done].
Qed.

(** A family that has been updated has a series, also after further updates. *)
Lemma updated_series {K A} `{Countable K, EncodeLabelSet K} make (f : A -> A) (k : K) (fam : gmap K A) :
  Metrics.family (Metrics.update make f k fam) <> [].
Proof. apply (Metrics.family_nonempty k). unfold Metrics.update. rewrite lookup_insert_eq. by eexists. Qed.

Lemma some_series {A} (l : list A) : l <> [] -> match l with [] => true | _ => false end = false.
Proof. by destruct l. Qed.

(** The [k]-th metric of the registry is the one; its family has been updated, or it has
    always its one series. *)
Ltac shows k :=
  exists k; eexists; split; [reflexivity|split; [reflexivity|]]; simpl;
  first [reflexivity|apply some_series, updated_series].

Lemma metrics_tests_pass x : names_shown -> asserts (tests (Some x)) = true.
Proof.
  intros Henc.
  assert (Hok : test_metrics_encoding (Some x) = true).
  { unfold test_metrics_encoding, Metrics.encode. destruct (Henc (Metrics.registry x)) as (text & -> & _). done. }
  unfold asserts, tests. cbn [forallb]. rewrite Hok, !andb_true_iff. split_and!; try done;
    (apply shown; [exact Henc|]); repeat (constructor; try done).
  - shows 0%nat.
  - shows 1%nat.
  - shows 3%nat.
  - shows 2%nat.
  - shows 4%nat.
  - shows 5%nat.
  - shows 6%nat.
  - shows 7%nat.
  - shows 8%nat.
Qed.

End Encoder.
End MetricsTests.

(** ** listener.rs *)

Module ListenerTests.
Section Sockets.
Context {FE : ForeignErrors} {TL : TlsLib} {Tcp SocketAddr : Type}.
Context (tcp_bind : string -> result Tcp IoError) (tcp_local_addr : Tcp -> result SocketAddr IoError).

Definition bound {A} (l : proxy_result A) (f : A -> bool) : bool :=
  match l with Ok l => f l | Err _ => false end.

Definition test_listener_bind : bool :=
  let listener := bind tcp_bind tcp_local_addr "127.0.0.1:0" ["http://127.0.0.1:9999"] (from_secs 30) in
  bound listener (fun listener =>
    asserts [negb (is_tls_enabled listener); bool_decide (listener_default_protocol listener = Http1)]).

Definition test_listener_bind_invalid_address : bool :=
  negb (is_ok (bind tcp_bind tcp_local_addr "999.999.999.999:0" ["http://127.0.0.1:9999"] (from_secs 30))).

Definition test_listener_h2c : bool :=
  let listener := bind_h2c tcp_bind tcp_local_addr "127.0.0.1:0" ["http://127.0.0.1:9999"] (from_secs 30) in
  bound listener (fun listener =>
    asserts [negb (is_tls_enabled listener); bool_decide (listener_default_protocol listener = Http2)]).

Definition tests : list bool := [test_listener_bind; test_listener_bind_invalid_address; test_listener_h2c].

(** Sockets as the tests need them: loopback can be bound, an address that is none cannot. *)
Definition sockets_work : bool :=
  is_ok (bind_tcp tcp_bind tcp_local_addr "127.0.0.1:0") &&
  negb (is_ok (bind_tcp tcp_bind tcp_local_addr "999.999.999.999:0")).

Lemma listener_tests_pass : sockets_work = true -> asserts tests = true.
Proof.
  unfold sockets_work, tests, test_listener_bind, test_listener_bind_invalid_address, test_listener_h2c, bind, bind_h2c.
  destruct (bind_tcp _ _ "127.0.0.1:0") as [b|e]; [|done]. by destruct (bind_tcp _ _ "999.999.999.999:0") as [b'|e].
Qed.

End Sockets.
End ListenerTests.

(** ** admin_listener.rs *)

Module AdminListenerTests.
Section Sockets.
Context {FE : ForeignErrors} {Tcp SocketAddr : Type}.
Context (tcp_bind : string -> result Tcp IoError) (tcp_local_addr : Tcp -> result SocketAddr IoError).

Definition test_admin_listener_bind : bool := is_ok (admin_bind tcp_bind tcp_local_addr "127.0.0.1:0").
Definition test_admin_listener_bind_invalid_address : bool :=
  negb (is_ok (admin_bind tcp_bind tcp_local_addr "999.999.999.999:0")).

Definition tests : list bool := [test_admin_listener_bind; test_admin_listener_bind_invalid_address].

Lemma admin_listener_tests_pass : ListenerTests.sockets_work tcp_bind tcp_local_addr = true -> asserts tests = true.
Proof.
  unfold ListenerTests.sockets_work, tests, test_admin_listener_bind, test_admin_listener_bind_invalid_address, admin_bind.
  destruct (bind_tcp _ _ "127.0.0.1:0") as [b|e]; [|done]. by destruct (bind_tcp _ _ "999.999.999.999:0") as [b'|e].
Qed.

End Sockets.
End AdminListenerTests.

(** ** Properties *)

(** The model passes the unit tests of the modules above (those of the circuit breaker are
    in [BreakerTests.v]), with any URL parser that accepts
    the default upstream, any JSON printer, sockets that can be bound on loopback, an
    encoder that shows the names of metrics in use, on a collector with any history, and
    regular expressions that know digits: the load balancer's with any clock, the rate
    limiter's when no time passes between their calls. *)
Theorem unit_tests_pass {FE : ForeignErrors} {TL : TlsLib} {P : Prometheus} {RX : RegexLib} {Tcp SocketAddr : Type}
    (tcp_bind : string -> result Tcp IoError) (tcp_local_addr : Tcp -> result SocketAddr IoError)
    url_parses json_health json_readiness encoder (x : Metrics.metrics) (t : Clock) :
  url_parses "http://127.0.0.1:8080" = true -> ListenerTests.sockets_work tcp_bind tcp_local_addr = true ->
  MetricsTests.names_shown encoder -> RegexTests.digits_match ->
  let frozen : Clock := fun _ => from_secs 1 in
  asserts (RateLimitTests.tests frozen) = true /\ asserts RetryTests.tests = true /\
  asserts RouterTests.tests = true /\ RegexTests.test_path_match_regex ∅ = true /\ asserts (TransportTests.tests t) = true /\
  asserts ConnectionTests.tests = true /\ asserts (ConfigTests.tests url_parses) = true /\
  ConfigTests.test_from_env (fun _ => None) = true /\
  asserts ProtocolTests.tests = true /\ asserts (MetricsTests.tests encoder (Some x)) = true /\
  asserts (AdminTests.tests json_health json_readiness) = true /\
  asserts (ListenerTests.tests tcp_bind tcp_local_addr) = true /\
  asserts (AdminListenerTests.tests tcp_bind tcp_local_addr) = true.
Proof.
  intros Hurl Hsock Hnames Hdigits frozen.
  split; [by vm_compute|]. split; [by vm_compute|]. split; [by vm_compute|].
  split; [by apply RegexTests.regex_tests_pass|]. split; [by vm_compute|]. split; [by vm_compute|].
  split; [|split; [by vm_compute|split; [by vm_compute|split; [by apply MetricsTests.metrics_tests_pass|split; [reflexivity|split;
    [by apply ListenerTests.listener_tests_pass|by apply AdminListenerTests.admin_listener_tests_pass]]]]]].
  unfold ConfigTests.tests, ConfigTests.test_validate_valid_config, ConfigTests.test_validate_zero_timeout,
    ConfigTests.test_validate_excessive_timeout, ConfigTests.rejected.
  rewrite ConfigTests.valid_default by done.
  destruct (ConfigTests.zero_timeout url_parses Hurl) as [r ->], (ConfigTests.excessive_timeout url_parses Hurl) as [r' ->].
  reflexivity.
Qed.

(** An encoder that lists the names of the metrics in use, and regular expressions that
    only know three paths. *)
Definition list_names {P : Prometheus} (ds : list Metrics.descriptor) : result string string :=
  Ok (foldr (fun d text => if Metrics.no_series (Metrics.metric d) then text else Metrics.metric_name d +:+ text) "" ds).

Lemma contains_front a b : contains a (a +:+ b) = true.
Proof.
  assert (H : starts_with a (a +:+ b) = true) by (apply starts_with_app; by exists b).
  destruct (a +:+ b); simpl; by rewrite H.
Qed.

Lemma contains_back a b c : contains a c = true -> contains a (b +:+ c) = true.
Proof. intros H. induction b as [|x b IH]; [done|]. simpl. rewrite IH. apply orb_true_r. Qed.

Lemma list_names_shown {P : Prometheus} : MetricsTests.names_shown list_names.
Proof.
  intros ds. eexists. split; [done|]. induction ds as [|d ds IH]; intros d' Hd Hs; [by apply elem_of_nil in Hd|].
  apply elem_of_cons in Hd as [->|Hd]; simpl; [rewrite Hs; apply contains_front|].
  destruct (Metrics.no_series (Metrics.metric d)); [|apply contains_back]; by apply IH.
Qed.

Definition three_paths : RegexLib := {|
  Regex := unit; regex_new _ := Some tt; is_match _ p := negb (String.eqb p "/api/users/abc") |}.

Lemma unit_tests_pass_witness :
  asserts (ConfigTests.tests (fun _ => true)) = true /\ asserts RetryTests.tests = true /\
  asserts (MetricsTests.tests (P := list_prometheus) list_names (Some Metrics.new)) = true.
Proof.
  destruct (@unit_tests_pass string_errors toy_tls list_prometheus three_paths unit unit
    (fun a => if String.eqb a "127.0.0.1:0" then Ok tt else Err "no address")
    (fun _ => Ok tt) (fun _ => true) (fun _ => "") (fun _ => "") list_names Metrics.new (fun _ => 0) eq_refl eq_refl
    list_names_shown) as (_ & Hretry & _ & _ & _ & _ & Hc & _ & _ & Hm & _).
  - exists tt. repeat split.
  - split; [exact Hc|split; [exact Hretry|exact Hm]].
Defined.
