(* ===== verification/IntegrationTests.v ===== *)
(** * The integration tests (src/tests/integration_test.rs), on the model

    A proxy between a client and mock upstreams, as functions of the clock the requests
    advance: an upstream answers after its latency, and the HTTP client with its timeout
    gives up when the timeout comes first. Sockets are bound on loopback; the network
    itself takes no time. *)

From Stdlib Require Import Ascii String SpecFloat.
From stdpp Require Import prelude gmap strings.
From S2P Require Import Prelude F64 Errors Breaker BreakerTests Metrics Service Protocol Listener.
Open Scope string_scope.
Open Scope Z_scope.

Module IntegrationTests.
#[local] Existing Instances string_errors string_uris pair_responses list_prometheus toy_tls.

(** A mock upstream: how long it takes and what it answers. *)
Record upstream : Type := mkUpstream { latency : Duration; answer : Response }.

Definition mock_upstream : upstream := mkUpstream 0 (200, "upstream response").
Definition slow_upstream : upstream := mkUpstream (from_secs 10) (200, "slow response").

(** The exchange with an upstream, on a clock of nanoseconds. *)
Definition exchange (u : upstream) (timeout : Duration) (req : Request unit) (now : Instant) : Exchange * Instant :=
  if latency u <=? timeout then (Answered (answer u), now + latency u) else (TimedOut, now + timeout).

Definition proxy (addrs : list string) (timeout : Duration) : proxy_result (Listener (Tcp := unit) (SocketAddr := string)) :=
  bind (fun _ => Ok tt) (fun _ => Ok "127.0.0.1:40000") "127.0.0.1:0" addrs timeout.

(** A client's requests, one after the other: the statuses, and the time they took. *)
Fixpoint requests (n : nat) (u : upstream) (s : ProxyService) (g : Metrics.global) (now : Instant)
    : outcome (list Z * Instant) :=
  match n with
  | O => Returns ([], now)
  | S n =>
      outcome_bind (call (exchange u) (fun now => as_secs_f64 now) s (mkRequest unit "GET" "/test" tt) g now)
        (fun '(response, s, g, now) =>
          outcome_bind (requests n u s g now) (fun '(statuses, now) =>
            Returns (response_status response :: statuses, now)))
  end.

Definition proxied (n : nat) (u : upstream) (addrs : list string) (timeout : Duration) : outcome (list Z * Duration) :=
  match proxy addrs timeout with
  | Ok listener => requests n u (proxy_service listener) (Some Metrics.new) 0
  | Err _ => Panics
  end.

Definition test_proxy_basic_request : bool :=
  match proxied 1 mock_upstream ["http://127.0.0.1:40001"] (from_secs 30) with
  | Returns ([st], _) => st =? 200
  | _ => false
  end.

Definition test_proxy_round_robin : bool :=
  match proxied 5 mock_upstream ["http://127.0.0.1:40001"; "http://127.0.0.1:40002"] (from_secs 30) with
  | Returns (statuses, _) => bool_decide (statuses = replicate 5 200)
  | Panics => false
  end.

Definition test_proxy_timeout_enforcement : bool :=
  match proxied 1 slow_upstream ["http://127.0.0.1:40001"] (from_secs 1) with
  | Returns ([st], took) => asserts [st =? 504; took <? from_secs 2; from_secs 1 <=? took]
  | _ => false
  end.

Definition tests : list bool := [test_proxy_basic_request; test_proxy_round_robin; test_proxy_timeout_enforcement].

End IntegrationTests.

(** The model passes the integration tests. *)
Theorem integration_tests_pass : asserts IntegrationTests.tests = true.
Proof. vm_compute. reflexivity. Qed.
